(* ===== verification/_CoqProject ===== *)
-Q . S2P
Prelude.v
GoLib.v
GoFloat.v
Protocol.v
WalFormat.v
WalLog.v
ShardFormat.v
ShardLog.v
ShardStore.v
Replication.v
ShardFeed.v
GoJson.v
GoJsonMap.v
GoTime.v
GoFmt.v
GoUrl.v
GoSha.v
RateLimit.v
AgentStream.v
WfState.v
WfStore.v
WfCoord.v
Broker.v
EventPoller.v
WfRecovery.v
WfService.v
ControlPlane.v
Telemetry.v
CpService.v
Consumer.v
Server.v
Trace.v
ClusterPublish.v
Sdk.v
SdkWorker.v
SdkStream.v
Cli.v
Metadata.v
HashRing.v
Routing.v
ClusterConfig.v
Gossip.v
Cluster.v
ClusterStart.v
BrokerMain.v
Console.v
Dashboard.v
Lifecycle.v
Launch.v
Sampler.v
