(* ===== verification/Prelude.v ===== *)
(** * A verification library of EventBus

    EventBus (src/, Go) is a message broker for agent events with a workflow runtime on
    top.  Producers publish over TCP, gRPC or HTTP; the broker keeps a ring buffer per
    partition in memory and a write-ahead log on disk, from which it is rebuilt at
    start-up; subscribers read partitions and commit group offsets.  The workflow
    coordinator records every state transition of an execution as an event on a topic and
    folds it into a store; after a restart a poller folds the topic again.  The control
    plane folds the agent-events topic into a registry of agents, the run state of every
    session and the agents' inboxes.  In cluster mode sessions are hashed to shards, a
    Raft-replicated state machine says who leads which shard, an assigner moves shards
    away from dead nodes, and a leader copies each shard's log to followers and answers a
    publisher when the high-water mark has passed the record.  The Go SDK publishes,
    replays and tails sessions and runs workers; the command line does the same from a
    terminal, retries failed agent events and forwards a topic to a webhook; a dashboard in
    the browser shows the broker's statistics and publishes and fetches over HTTP.

    ** Files, from the bottom up

    - [Prelude]: machine integers with their wrap-around, results, list lemmas, the hint
      databases and tactics that the other files use.
    - [GoLib], [GoJson], [GoJsonMap], [GoTime], [GoFmt], [GoUrl], [GoSha]: what the sources
      use of Go's standard library, written out on bytes: FNV-1a, CRC-32C, [TrimSpace];
      encoding/json with its escapes, raw messages, maps, arrays and case-insensitive field
      names, and [json.Indent]; base64; RFC 3339; the verbs of fmt; query escaping; SHA-256.
      [GoFloat]: binary64 values and their arithmetic, rounded to nearest even.
    - [Protocol] (internal/protocol): frames and payload codecs.
    - [WalFormat], [WalLog] (internal/wal): records and replay; the log under concurrent
      appends with group commit, poisoning and crashes, and the class [WalSink], the
      contract the servers write through.
    - [ShardFormat], [ShardLog], [ShardStore] (internal/cluster/shardwal): the shard
      file, its group commit, and the class [ShardStore] towards replication.  [ShardFeed]
      (shardwal.go, replicator.go): the goroutine of [Shard.Subscribe] beside them, and the
      worker that advances the leader's own mark with it.
    - [Replication] (shardwal/hwm.go, manager.go, transport, replicator): the high-water
      mark, the follower's handler and the streams as a step relation.
    - [RateLimit] (internal/ratelimit): the token buckets with their sweep.
    - [AgentStream] (internal/agentstream): the event envelope.
    - [WfState], [WfStore], [WfCoord], [WfService], [WfRecovery] (internal/workflow): the
      fold of an execution, the store with its indexes and channels, the coordinator's
      calls as programs over atomic commands, the gRPC handlers, the recovery.
    - [Broker] (internal/broker): topics, partitions, subscriptions.
    - [EventPoller], [ControlPlane] (internal/workflow/poller.go,
      internal/controlplane): the pollers and the control plane.  [CpService]
      (controlplane/service.go, http.go): its calls, inbox streams and views.
    - [Telemetry] (internal/metrics, with the gauges of the coordinator and the control
      plane): the metrics over a registry of labelled series.
    - [Consumer] (internal/consumer): group offsets and their flusher.
    - [Server] (broker/tcp_server.go, grpcapi, cmd/broker): the handlers over the broker,
      the log and the offsets, and the replay at start-up.
    - [Trace] (agentstream/otel.go, internal/telemetry, the spans of grpcapi): trace ids
      derived from sessions, the parents and attributes of spans, the exporter's set-up.
    - [ClusterPublish] (the shard log adapter of cmd/broker): a publish in cluster mode,
      the handlers of [Server] composed with the streams of [Replication].
    - [Sdk], [SdkWorker], [SdkStream] (eventbus/): the client library over those handlers:
      agent events and replay, workers, subscriptions and tails with typed events.
    - [Cli] (internal/cli, and the connection loop of the TCP server): the commands against
      the server, the retry command, the webhook.  [Console] (internal/cli/workflow.go,
      session.go, cluster.go, cluster_route.go): the commands that inspect a broker, with
      the bytes they print.  [Dashboard] (web/app.go): the state, the handlers and the page.
    - [Metadata] (cluster/metadata/fsm.go), [HashRing] (cluster/ring), [Routing]
      (cluster/membership, assigner, router), [ClusterConfig], [Cluster]
      (cluster/config.go, cluster.go): the cluster's state machine, ring, assignment,
      configuration and control loops.  [Gossip] (cluster/membership): joining the gossip
      ring and its events.  [ClusterStart] (cluster.go, metadata.go): starting and stopping
      them.
    - [BrokerMain] (cmd/broker): the limiter in front of the service, the Raft state and its
      bridge, the HTTP endpoints and gauges.  [Lifecycle] (cmd/broker, the accept loop, the
      background loops): the shutdown of the process as a step relation.  [Launch]
      (cmd/broker): the start-up, from the flags and the files to the node.
    - [Sampler] (load/metricsampler): the load test's rates.

    ** How code becomes definitions

    Structs are records, constants of an enumeration are constructors, and functions keep
    their names (a trailing underscore where the name is a keyword).  Integers are [Z]
    with the wrap-around of their width written out ([i32], [i64], [u64]); bytes are
    lists of [byte].  Maps are [gmap]; where Go's iteration order matters it is an
    argument, any permutation.  Pointers that are shared (executions, channels,
    subscriptions) are locations of a heap or positions of a list.  Errors are values of
    [result]; a panic is [None].  What the clock, the disk, the network and other
    processes answer is an argument.  Code that runs concurrently is a step relation or
    programs over atomic commands, one per critical section, so that a theorem about all
    reachable states or all runs covers every interleaving.

    ** What the theorems show

    - Durability: in mode [always] an acknowledged record, and an acknowledged append to
      a shard, survive any crash; what was written is what the replay delivers, and a
      corrupted byte is detected.  A subscription to a shard delivers its records in order
      and once each, and what is synced is delivered while the reader keeps reading.
    - Recovery: replaying the log rebuilds the broker the servers had, over any number of
      generations that start, serve one request at a time and shut down (the HTTP publish,
      which ignores the log's errors, apart); re-reading the topics, while the ring has
      evicted nothing, rebuilds the coordinator's executions and the control plane's
      sessions; a snapshot of the metadata is invisible; committed offsets survive a restart.
    - The broker refines one append-only log per partition; subscribers and pollers see
      every message of a partition once, in order, and a waiting subscriber is woken.
    - Workflows: at most one completion of an execution is accepted, whatever the
      interleaving, while the retention cap has evicted nothing (and two are possible after
      an eviction, or by calls taken before the poller has caught up); the store's indexes
      agree with its executions and the store is the fold of the events; each call does what
      it answers; the service's batches and leases report exactly what was logged; a worker's
      round, its heartbeats included, completes what it leased.
    - Replication: if the followers' logs start as prefixes of the leader's and streams to
      one follower do not overlap, everything below the mark is on every tracked replica; a
      stream brings a follower up to date; an event whose publish was acknowledged in cluster
      mode is in the shard's log on every tracked replica and in the broker.  Without the
      first condition a diverged follower acknowledges, without the second its log forks.
    - The control plane's streams hand every routed event to one stream, in order.
    - Rate limits: a tenant's verdicts depend on its own requests only, and a tenant that
      leaves time for a token between its requests is never refused, whatever the burst is
      set to but NaN.
    - The process: the counts of connections are exact; when the log is closed the loops have
      stopped, the servers take no requests and at most one TCP connection is left, the one
      that was being accepted when the listener was closed (HTTP and gRPC handlers can outlive
      the timeouts of the shutdown); the shutdown completes once the clients hang up; a failed
      start leaves stores open.
    - Cluster: after a plan every shard has a live leader; on the same metadata one node
      claims a session, whatever the nodes' own views of who is alive; the ring's binary
      search finds the clockwise successor and moves only what it must, and after every tick
      exactly the led shards are replicated.
    - Formats round-trip: frames, log records, envelopes.
    - The SDK's session replay returns the session's events while they fit a page, and a
      tail yields exactly the session's events from its offset on.
    - Clients end to end: a command prints what the server did with its frames; retries of a
      failing event end in the dead-letter topic; a webhook delivery retries what may be
      retried, with doubled waits, and reports the last answer; [cluster route] prints what
      the router decided for the session as it was given, and the dashboard publishes and
      fetches what its forms say.  The spans of a session's events share one trace.
    - Some theorems show where the code does not do what its comments say; the project
      file lists them as findings with the line.

    ** Bounds and fuel

    Recursion that is not structural takes fuel, and the theorems say how much is enough:
    the JSON parser twice the length of its input, a filtered scan its budget, a lease one
    round per task plus one per wake-up, a session replay one page per message, a tail and
    the loops of the command line one step per message, the parser of IPv6 addresses one
    step per field.  A run of a subscription on a shard at rest is bounded by a rank, three
    steps per byte of its file for each replay it has left.  Counters that would need 2^62
    operations to wrap are bounded by hypotheses (the number of broker operations) or kept
    unbounded (log generations, shard offsets).  Theorems about topics read from the start
    assume that the ring, whose capacity is 2^20 messages, has not evicted messages.

    ** Not modelled, and why

    - hashicorp/raft, hashicorp/memberlist, gRPC and the operating system: not part of the
      sources.  What they answer is an argument; Raft is used as one sequence of commands.
    - Sockets and timers: a tick, a poll, a connection or a timeout is a step and any number
      of them may happen; gRPC dialling (client.go), the declarations of flags.
    - The drawing of the dashboard's page and the running of its dispatched updates are
      go-app's; its server (cmd/dashboard) forwards requests.  The provider that tracing
      installs is OpenTelemetry's.
    - The jsonl format of the session commands, the JSON of the statistics endpoint, and the
      scraping and printing of the load test's sampler.
    - Generated protobuf code and the examples. *)

From stdpp Require Export base gmap strings list fin_maps numbers.
From Stdlib Require Export ZArith Lia.
From Stdlib Require Strings.Byte Strings.String.

(** ** Scope, notations and automation *)

Declare Scope go_scope.
Delimit Scope go_scope with go.

Abbreviation byte := Byte.byte.
Abbreviation bytes := (list Byte.byte).

(** [len(x)] of the Go sources: a list's length as a Z. *)
Abbreviation zlen l := (Z.of_nat (length l)).

Create HintDb eventbus discriminated.
Create Rewrite HintDb golen.

(** Go's [(T, error)] results: a value or an error. *)
Inductive result (E A : Type) : Type :=
| Ok (a : A)
| Err (e : E).
Arguments Ok {E A} a.
Arguments Err {E A} e.

Definition result_bind {E A B} (m : result E A) (k : A -> result E B) : result E B :=
  match m with
  | Ok a => k a
  | Err e => Err e
  end.

Notation "'let?' x ':=' m 'in' k" := (result_bind m (fun y => match y with x => k end))
  (at level 10, x pattern, m at level 100, k at level 200,
   format "'[v' 'let?'  x  ':='  m  'in'  '/' k ']'") : go_scope.

#[global] Instance byte_eq_dec : EqDecision Byte.byte := Byte.byte_eq_dec.

(** Break the innermost [match]/[if] of the goal or of a hypothesis. *)
Ltac go_case :=
  match goal with
  | |- context [match ?x with _ => _ end] => destruct x eqn:?
  | H : context [match ?x with _ => _ end] |- _ => destruct x eqn:?
  end.

(** [lia] with division and remainder by constants. *)
Ltac divmod := Z.to_euclidean_division_equations; lia.

(** Turn boolean comparisons into propositions. *)
Ltac go_bool :=
  repeat match goal with
  | H : (_ && _)%bool = true |- _ => apply andb_prop in H as [? ?]
  | H : (_ && _)%bool = false |- _ => apply andb_false_iff in H
  | H : (_ || _)%bool = true |- _ => apply orb_true_iff in H
  | H : (_ || _)%bool = false |- _ => apply orb_false_elim in H as [? ?]
  | H : negb _ = true |- _ => apply negb_true_iff in H
  | H : negb _ = false |- _ => apply negb_false_iff in H
  | H : (_ =? _)%Z = true |- _ => apply Z.eqb_eq in H
  | H : (_ =? _)%Z = false |- _ => apply Z.eqb_neq in H
  | H : (_ <? _)%Z = true |- _ => apply Z.ltb_lt in H
  | H : (_ <? _)%Z = false |- _ => apply Z.ltb_ge in H
  | H : (_ <=? _)%Z = true |- _ => apply Z.leb_le in H
  | H : (_ <=? _)%Z = false |- _ => apply Z.leb_gt in H
  | H : bool_decide _ = true |- _ => apply bool_decide_eq_true in H
  | H : bool_decide _ = false |- _ => apply bool_decide_eq_false in H
  end.

(** ** Machine integers

    Go's fixed-width integers are [Z] with the wrap-around written out:
    [wrap_u w] is the conversion to an unsigned, [wrap_s w] to a signed type of
    [w] bits. *)

Definition wrap_u (w z : Z) : Z := z mod 2 ^ w.
Definition wrap_s (w z : Z) : Z := (z + 2 ^ (w - 1)) mod 2 ^ w - 2 ^ (w - 1).

Abbreviation u8 := (wrap_u 8).
Abbreviation u16 := (wrap_u 16).
Abbreviation u32 := (wrap_u 32).
Abbreviation u64 := (wrap_u 64).
Abbreviation i32 := (wrap_s 32).
Abbreviation i64 := (wrap_s 64).

Definition in_i64 (z : Z) : Prop := (- 2 ^ 63 <= z < 2 ^ 63)%Z.
Definition in_i32 (z : Z) : Prop := (- 2 ^ 31 <= z < 2 ^ 31)%Z.

(** ** Bytes and big-endian numbers ([encoding/binary]) *)

Definition byte_val (b : byte) : Z := Z.of_N (Byte.to_N b).

Definition byte_of (z : Z) : byte :=
  match Byte.of_N (Z.to_N (z mod 256)) with
  | Some b => b
  | None => Byte.x00
  end.

(** [binary.BigEndian.PutUint<8n>]: the [n] low-order bytes of [z], most
    significant first. *)
Fixpoint be_bytes (n : nat) (z : Z) : bytes :=
  match n with
  | O => []
  | S m => be_bytes m (z / 256) ++ [byte_of z]
  end.

(** [binary.BigEndian.Uint<8n>]. *)
Definition be_val (bs : bytes) : Z :=
  fold_left (fun acc b => acc * 256 + byte_val b)%Z bs 0%Z.

(** ** Strings

    A Go string is its bytes; [bs_of] and [str_of] are the conversions
    [[]byte(s)] and [string(b)]. *)

Definition bs_of (s : string) : bytes := String.list_byte_of_string s.
Definition str_of (b : bytes) : string := String.string_of_list_byte b.

(** ** Readers ([io.ReadFull])

    A reader is the list of bytes it still holds. *)

Inductive io_err := EOF | UnexpectedEOF.

Definition read_full (n : nat) (r : bytes) : result io_err (bytes * bytes) :=
  if decide (n = 0) then Ok ([], r)
  else if decide (r = []) then Err EOF
  else if decide (length r < n) then Err UnexpectedEOF
  else Ok (take n r, drop n r).

(** A slice [b[i:j]] within bounds. *)
Definition slice (i j : nat) (b : bytes) : bytes := take (j - i) (drop i b).

(** ** Lemmas on machine integers *)

Lemma wrap_u_small w z : (0 <= z < 2 ^ w)%Z -> wrap_u w z = z.
Proof. intros. by apply Z.mod_small. Qed.

Lemma wrap_u_range w z : (0 < w)%Z -> (0 <= wrap_u w z < 2 ^ w)%Z.
Proof. intros. apply Z.mod_pos_bound. lia. Qed.

Lemma wrap_u_idemp w z : wrap_u w (wrap_u w z) = wrap_u w z.
Proof. apply Zmod_mod. Qed.

Lemma wrap_s_small w z : (0 < w)%Z -> (- 2 ^ (w - 1) <= z < 2 ^ (w - 1))%Z -> wrap_s w z = z.
Proof.
  intros Hw Hz. unfold wrap_s.
  assert (2 ^ w = 2 * 2 ^ (w - 1))%Z as E.
  { replace w with (Z.succ (w - 1)) at 1 by lia. rewrite Z.pow_succ_r; lia. }
  rewrite Z.mod_small; lia.
Qed.

Lemma wrap_s_wrap_u w z : wrap_s w (wrap_u w z) = wrap_s w z.
Proof. unfold wrap_s, wrap_u. by rewrite Zplus_mod_idemp_l. Qed.

(** ** Lemmas on bytes *)

Lemma byte_val_range b : (0 <= byte_val b < 256)%Z.
Proof.
  unfold byte_val. pose proof (Byte.to_of_N_option_map (Byte.to_N b)) as H.
  rewrite Byte.of_to_N in H. simpl in H.
  destruct (Byte.to_N b <=? 255)%N eqn:E; [|done].
  apply N.leb_le in E. lia.
Qed.

Lemma byte_val_of z : byte_val (byte_of z) = (z mod 256)%Z.
Proof.
  unfold byte_val, byte_of.
  pose proof (Z.mod_pos_bound z 256 ltac:(lia)) as Hb.
  destruct (Byte.of_N (Z.to_N (z mod 256))) as [b|] eqn:E.
  - apply Byte.to_of_N in E. rewrite E. lia.
  - apply Byte.of_N_None_iff in E. lia.
Qed.

Lemma byte_of_val b : byte_of (byte_val b) = b.
Proof.
  unfold byte_of. rewrite Z.mod_small by apply byte_val_range.
  unfold byte_val. rewrite N2Z.id. by rewrite Byte.of_to_N.
Qed.

Lemma byte_of_mod z : byte_of (z mod 256) = byte_of z.
Proof. unfold byte_of. by rewrite Zmod_mod. Qed.

Lemma length_be_bytes n z : length (be_bytes n z) = n.
Proof. revert z. induction n; intros; simpl; [done|]. rewrite length_app, IHn. simpl. lia. Qed.

Lemma be_val_app a b : be_val (a ++ [b]) = (be_val a * 256 + byte_val b)%Z.
Proof. unfold be_val. by rewrite fold_left_app. Qed.

Lemma be_val_nonneg bs : (0 <= be_val bs)%Z.
Proof.
  induction bs as [|b bs IH] using rev_ind; [done|].
  rewrite be_val_app. pose proof (byte_val_range b). lia.
Qed.

Lemma be_val_bound bs : (be_val bs < 256 ^ zlen bs)%Z.
Proof.
  induction bs as [|b bs IH] using rev_ind; [done|].
  rewrite be_val_app, length_app, Nat2Z.inj_add, Z.pow_add_r by lia.
  pose proof (byte_val_range b). simpl. lia.
Qed.

(** Reading back what [PutUint] wrote, at the width of the field. *)
Lemma be_val_bytes n z : be_val (be_bytes n z) = (z mod 256 ^ Z.of_nat n)%Z.
Proof.
  revert z. induction n as [|n IH]; intros z.
  - simpl. by rewrite Z.mod_1_r.
  - cbn [be_bytes]. rewrite be_val_app, IH, byte_val_of, Nat2Z.inj_succ, Z.pow_succ_r by lia.
    rewrite (Z.rem_mul_r z 256) by lia. lia.
Qed.

Lemma be_bytes_val bs : be_bytes (length bs) (be_val bs) = bs.
Proof.
  induction bs as [|b bs IH] using rev_ind; [done|].
  rewrite length_app. simpl. rewrite Nat.add_1_r. cbn [be_bytes].
  rewrite be_val_app. pose proof (byte_val_range b).
  rewrite Z.div_add_l, (Z.div_small (byte_val b)), Z.add_0_r, IH by lia.
  f_equal. f_equal.
  rewrite <- byte_of_mod, Z.add_comm, Z.mod_add, byte_of_mod by lia. apply byte_of_val.
Qed.

Lemma be_bytes_val_n n bs : length bs = n -> be_bytes n (be_val bs) = bs.
Proof. intros <-. apply be_bytes_val. Qed.

Lemma be_val_bytes_small n z : (0 <= z < 256 ^ Z.of_nat n)%Z -> be_val (be_bytes n z) = z.
Proof. intros. rewrite be_val_bytes. by apply Z.mod_small. Qed.

Lemma str_of_bs s : str_of (bs_of s) = s.
Proof. apply String.string_of_list_byte_of_string. Qed.

Lemma bs_of_append a b : bs_of (a +:+ b) = bs_of a ++ bs_of b.
Proof.
  induction a as [|c a IH]; [done|]. change (bs_of (String c a +:+ b)) with (Ascii.byte_of_ascii c :: bs_of (a +:+ b)).
  by rewrite IH.
Qed.

Lemma bs_of_str b : bs_of (str_of b) = b.
Proof. apply String.list_byte_of_string_of_list_byte. Qed.

(** ** Lemmas on readers *)

Lemma read_full_app n a r : length a = n -> read_full n (a ++ r) = Ok (a, r).
Proof.
  intros <-. unfold read_full. case_decide as H0.
  { apply nil_length_inv in H0. by subst. }
  case_decide as H1. { destruct a; done. }
  rewrite decide_False by (rewrite length_app; lia).
  by rewrite take_app_length, drop_app_length.
Qed.

Lemma read_full_nil n : n ≠ 0 -> read_full n [] = Err EOF.
Proof. intros. unfold read_full. by rewrite decide_False, decide_True. Qed.

Lemma read_full_short n r : r ≠ [] -> length r < n -> read_full n r = Err UnexpectedEOF.
Proof. intros. unfold read_full. rewrite !decide_False, decide_True by (done || lia). done. Qed.

Lemma read_full_inv n r a r' : read_full n r = Ok (a, r') -> r = a ++ r' /\ length a = n.
Proof.
  unfold read_full. intros H. repeat case_decide; simplify_eq; [done|].
  rewrite take_drop, length_take. split; [done|lia].
Qed.

Section Slices.
Local Open Scope Z_scope.

(** ** Slices of a concatenation *)

Lemma slice_app (a b c : bytes) i j :
  i = length a -> j = (length a + length b)%nat -> slice i j (a ++ b ++ c) = b.
Proof.
  intros -> ->. unfold slice. rewrite drop_app_length.
  replace (length a + length b - length a)%nat with (length b) by lia.
  apply take_app_length.
Qed.

Lemma slice_last (a b : bytes) i j :
  i = length a -> j = (length a + length b)%nat -> slice i j (a ++ b) = b.
Proof. intros. rewrite <- (app_nil_r b) at 1. by apply slice_app. Qed.

Lemma slice_prefix (a b : bytes) j : j = length a -> slice 0 j (a ++ b) = a.
Proof. intros ->. unfold slice. rewrite drop_0, Nat.sub_0_r. apply take_app_length. Qed.

(** Cutting a byte string at two positions that lie within it. *)
Lemma slice_cut (p : bytes) i j :
  (i <= j)%nat -> (j <= length p)%nat ->
  drop i p = slice i j p ++ drop j p /\ length (slice i j p) = (j - i)%nat.
Proof.
  intros. unfold slice. rewrite length_take, length_drop. split; [|lia].
  rewrite <- (take_drop (j - i) (drop i p)) at 1. f_equal.
  rewrite drop_drop. f_equal. lia.
Qed.

Lemma be_bytes_slice (p : bytes) i j n :
  (i <= j)%nat -> (j <= length p)%nat -> n = (j - i)%nat ->
  be_bytes n (be_val (slice i j p)) = slice i j p.
Proof.
  intros ?? ->. destruct (slice_cut p i j) as [_ E]; [done..|].
  rewrite <- E at 1. apply be_bytes_val.
Qed.

Lemma be_val_slice_bound (p : bytes) i j n :
  (i <= j)%nat -> (j <= length p)%nat -> n = (j - i)%nat ->
  0 <= be_val (slice i j p) < 256 ^ Z.of_nat n.
Proof.
  intros ?? ->. destruct (slice_cut p i j) as [_ E]; [done..|].
  split; [apply be_val_nonneg|]. rewrite <- E. apply be_val_bound.
Qed.

Lemma slice_drop (p a rest : bytes) i j :
  drop i p = a ++ rest -> j = (i + length a)%nat -> slice i j p = a.
Proof.
  intros E ->. unfold slice. rewrite E.
  replace (i + length a - i)%nat with (length a) by lia. apply take_app_length.
Qed.

Lemma drop_advance (p a rest : bytes) i j :
  drop i p = a ++ rest -> j = (i + length a)%nat -> drop j p = rest.
Proof. intros E ->. rewrite <- drop_drop, E. apply drop_app_length. Qed.

Lemma drop_fits_weak (p a rest : bytes) i j :
  drop i p = a ++ rest -> (i <= length p)%nat -> (j <= i + length a)%nat -> (j <= length p)%nat.
Proof.
  intros E Ha Hj. apply (f_equal length) in E. rewrite length_drop, length_app in E. lia.
Qed.

End Slices.

(** ** Lists *)

Lemma filter_Forall_id {A} (P : A -> Prop) `{!forall x, Decision (P x)} (l : list A) :
  Forall P l -> filter P l = l.
Proof. induction 1 as [|x l Hx Hl IH]; [done|]. by rewrite filter_cons_True, IH. Qed.

#[global] Opaque be_bytes.
#[global] Arguments be_val : simpl never.
#[global] Arguments wrap_u : simpl never.
#[global] Arguments wrap_s : simpl never.
#[global] Arguments slice : simpl never.

#[export] Hint Rewrite length_be_bytes @length_app @length_take @length_drop : golen.

Ltac go_len := autorewrite with golen in *; simpl in *; try lia.

(** ** Prefixes *)

Section Prefixes.
Context {A : Type}.
Implicit Types l a b : list A.

Lemma lookup_prefix l l' i x : l `prefix_of` l' -> l !! i = Some x -> l' !! i = Some x.
Proof. intros [k ->] H. by apply lookup_app_l_Some. Qed.

Lemma take_prefix_eq l l' n : l `prefix_of` l' -> (n <= length l)%nat -> take n l' = take n l.
Proof. intros [k ->] H. by rewrite take_app_le. Qed.

Lemma take_prefix_of l n a : a ++ take n l `prefix_of` a ++ l.
Proof. apply prefix_app. rewrite <- (take_drop n l) at 2. by apply prefix_app_r. Qed.

Lemma prefix_by_take a b : take (length a) b = a -> a `prefix_of` b.
Proof. intros <-. exists (drop (length a) b). by rewrite take_drop. Qed.
Lemma prefix_snoc_lookup l l' x : l `prefix_of` l' -> l' !! length l = Some x -> l ++ [x] `prefix_of` l'.
Proof.
  intros [r ->] E. rewrite lookup_app_r, Nat.sub_diag in E by lia. destruct r as [|y r]; simplify_eq/=.
  exists r. by rewrite <- app_assoc.
Qed.
End Prefixes.
