(* ===== verification/GoLib.v ===== *)
(** * Functions of Go's standard library that the sources call

    [hash/fnv] (FNV-1a, 32 bits), [hash/crc32] with the Castagnoli polynomial,
    [strings.TrimSpace] and [sort.Strings], each executable, with the facts the
    components use. *)

From Stdlib Require Import Sorting.Sorted.
From S2P Require Import Prelude.
Open Scope Z_scope.

(** ** [fnv.New32a]: xor, then multiply by the prime, at 32 bits *)

Definition fnv_offset32 : Z := 2166136261.
Definition fnv_prime32 : Z := 16777619.

Definition fnv1a_step (h : Z) (b : byte) : Z := u32 (Z.lxor h (byte_val b) * fnv_prime32).
Definition fnv1a32 (p : bytes) : Z := fold_left fnv1a_step p fnv_offset32.

(** ** [crc32.Update] with [crc32.MakeTable(crc32.Castagnoli)] *)

Definition castagnoli : Z := 0x82f63b78.

Definition crc_bit (c : Z) : Z :=
  if Z.odd c then Z.lxor (Z.shiftr c 1) castagnoli else Z.shiftr c 1.

(** The table's entry [i]. *)
Definition crc_entry (i : Z) : Z := Nat.iter 8 crc_bit i.

Definition crc_byte (c : Z) (b : byte) : Z :=
  Z.lxor (crc_entry (Z.lxor (Z.land c 255) (byte_val b))) (Z.shiftr c 8).

Definition crc_update (crc : Z) (p : bytes) : Z :=
  Z.lxor (fold_left crc_byte p (Z.lxor crc 0xffffffff)) 0xffffffff.

Definition crc32c (p : bytes) : Z := crc_update 0 p.

(** ** [strings.TrimSpace]: the UTF-8 encodings of Unicode's White_Space *)

Definition white_space : list bytes :=
  map (fun c => [c]) [Byte.x09; Byte.x0a; Byte.x0b; Byte.x0c; Byte.x0d; Byte.x20] ++
  [[Byte.xc2; Byte.x85]; [Byte.xc2; Byte.xa0]; [Byte.xe1; Byte.x9a; Byte.x80]] ++
  map (fun c => [Byte.xe2; Byte.x80; c])
    [Byte.x80; Byte.x81; Byte.x82; Byte.x83; Byte.x84; Byte.x85; Byte.x86; Byte.x87;
     Byte.x88; Byte.x89; Byte.x8a; Byte.xa8; Byte.xa9; Byte.xaf] ++
  [[Byte.xe2; Byte.x81; Byte.x9f]; [Byte.xe3; Byte.x80; Byte.x80]].

Fixpoint strip_prefix (w s : bytes) : option bytes :=
  match w, s with
  | [], _ => Some s
  | x :: w, y :: s => if decide (x = y) then strip_prefix w s else None
  | _ :: _, [] => None
  end.

(** One white-space rune off the front, if there is one. *)
Definition strip_one (ws : list bytes) (s : bytes) : option bytes :=
  fold_right (fun w acc => match strip_prefix w s with Some r => Some r | None => acc end)
    None ws.

Fixpoint trim_front (fuel : nat) (ws : list bytes) (s : bytes) : bytes :=
  match fuel with
  | O => s
  | S fuel =>
      match strip_one ws s with
      | Some r => trim_front fuel ws r
      | None => s
      end
  end.

Definition trim_bytes (s : bytes) : bytes :=
  let l := trim_front (length s) white_space s in
  rev (trim_front (length l) (map (@rev byte) white_space) (rev l)).

Definition TrimSpace (s : string) : string := str_of (trim_bytes (bs_of s)).

(** ** Byte-wise string order and [sort.Strings] *)

Fixpoint bytes_leb (a b : bytes) : bool :=
  match a, b with
  | [], _ => true
  | _ :: _, [] => false
  | x :: a, y :: b =>
      if byte_val x <? byte_val y then true
      else if byte_val y <? byte_val x then false
      else bytes_leb a b
  end.

Definition string_leb (a b : string) : bool := bytes_leb (bs_of a) (bs_of b).

Fixpoint insert_string (x : string) (l : list string) : list string :=
  match l with
  | [] => [x]
  | y :: r => if string_leb x y then x :: y :: r else y :: insert_string x r
  end.

(** The sorted permutation that [sort.Strings] leaves in its argument. *)
Definition sort_strings (l : list string) : list string := foldr insert_string [] l.

(** ** Facts *)

Lemma crc_update_app c p q : crc_update c (p ++ q) = crc_update (crc_update c p) q.
Proof.
  unfold crc_update. rewrite fold_left_app. f_equal. f_equal.
  by rewrite Z.lxor_assoc, Z.lxor_nilpotent, Z.lxor_0_r.
Qed.

Lemma lxor_range n a b :
  0 < n -> 0 <= a < 2 ^ n -> 0 <= b < 2 ^ n -> 0 <= Z.lxor a b < 2 ^ n.
Proof.
  intros Hn Ha Hb. assert (0 <= Z.lxor a b) as H0 by (apply Z.lxor_nonneg; lia).
  split; [done|].
  destruct (Z.eq_dec (Z.lxor a b) 0) as [->|Hne]; [lia|].
  apply Z.log2_lt_pow2; [lia|].
  pose proof (Z.log2_lxor a b ltac:(lia) ltac:(lia)) as Hl.
  assert (forall z, 0 <= z < 2 ^ n -> Z.log2 z < n) as Hz.
  { intros z ?. destruct (Z.eq_dec z 0) as [->|]; [rewrite Z.log2_nonpos; lia|].
    apply Z.log2_lt_pow2; lia. }
  pose proof (Hz a Ha). pose proof (Hz b Hb). lia.
Qed.

Lemma shiftr_range n k a : 0 <= k -> 0 <= a < 2 ^ n -> 0 <= Z.shiftr a k < 2 ^ n.
Proof.
  intros Hk Ha. rewrite Z.shiftr_div_pow2 by done.
  assert (0 < 2 ^ k) by lia.
  split; [apply Z.div_pos; lia|].
  eapply Z.le_lt_trans; [apply Z.div_le_upper_bound with (q := a); nia|lia].
Qed.

Lemma crc_bit_range c : 0 <= c < 2 ^ 32 -> 0 <= crc_bit c < 2 ^ 32.
Proof.
  intros Hc. unfold crc_bit. destruct (Z.odd c).
  - apply lxor_range; [lia|by apply shiftr_range|unfold castagnoli; lia].
  - by apply shiftr_range.
Qed.

Lemma crc_byte_range c b : 0 <= c < 2 ^ 32 -> 0 <= crc_byte c b < 2 ^ 32.
Proof.
  intros Hc. unfold crc_byte, crc_entry. apply lxor_range; [lia| |by apply shiftr_range].
  assert (0 <= Z.lxor (Z.land c 255) (byte_val b) < 2 ^ 32) as H0.
  { apply lxor_range; [lia| |pose proof (byte_val_range b); lia].
    change 255 with (Z.ones 8). rewrite Z.land_ones by lia.
    pose proof (Z.mod_pos_bound c (2 ^ 8) ltac:(lia)). lia. }
  revert H0. generalize (Z.lxor (Z.land c 255) (byte_val b)).
  generalize 8%nat. intros n. induction n as [|n IH]; intros z Hz; simpl; [done|]. by apply crc_bit_range, IH.
Qed.

Lemma crc_update_range c p : 0 <= c < 2 ^ 32 -> 0 <= crc_update c p < 2 ^ 32.
Proof.
  intros Hc. unfold crc_update. apply lxor_range; [lia| |lia].
  assert (0 <= Z.lxor c 0xffffffff < 2 ^ 32) as H by (apply lxor_range; lia).
  revert H. generalize (Z.lxor c 0xffffffff).
  induction p as [|b p IH]; intros z Hz; simpl; [done|]. by apply IH, crc_byte_range.
Qed.

Lemma crc32c_range p : 0 <= crc32c p < 2 ^ 32.
Proof. apply crc_update_range. lia. Qed.

Lemma fnv1a32_range p : 0 <= fnv1a32 p < 2 ^ 32.
Proof.
  unfold fnv1a32. assert (0 <= fnv_offset32 < 2 ^ 32) as H by (unfold fnv_offset32; lia).
  revert H. generalize fnv_offset32.
  induction p as [|b p IH]; intros z Hz; simpl; [done|].
  apply IH. apply (wrap_u_range 32). lia.
Qed.

Lemma bytes_leb_refl a : bytes_leb a a = true.
Proof. induction a; simpl; [done|]. by rewrite Z.ltb_irrefl. Qed.

Lemma bytes_leb_total a b : bytes_leb a b = true \/ bytes_leb b a = true.
Proof.
  revert b. induction a as [|x a IH]; intros [|y b]; simpl; auto.
  destruct (Z.ltb_spec (byte_val x) (byte_val y)); [by left|].
  destruct (Z.ltb_spec (byte_val y) (byte_val x)); [by right|]. auto.
Qed.

Lemma byte_val_inj x y : byte_val x = byte_val y -> x = y.
Proof. intros H. by rewrite <- (byte_of_val x), H, byte_of_val. Qed.

Lemma bytes_leb_antisym a b : bytes_leb a b = true -> bytes_leb b a = true -> a = b.
Proof.
  revert b. induction a as [|x a IH]; intros [|y b]; simpl; try done.
  destruct (Z.ltb_spec (byte_val x) (byte_val y)), (Z.ltb_spec (byte_val y) (byte_val x));
    try done; try lia.
  intros ??. f_equal; [apply byte_val_inj; lia|auto].
Qed.

Lemma bytes_leb_trans a b c : bytes_leb a b = true -> bytes_leb b c = true -> bytes_leb a c = true.
Proof.
  revert b c. induction a as [|x a IH]; intros [|y b] [|z c]; simpl; try done.
  destruct (Z.ltb_spec (byte_val x) (byte_val y)), (Z.ltb_spec (byte_val y) (byte_val x)),
    (Z.ltb_spec (byte_val y) (byte_val z)), (Z.ltb_spec (byte_val z) (byte_val y)),
    (Z.ltb_spec (byte_val x) (byte_val z)), (Z.ltb_spec (byte_val z) (byte_val x));
    try done; try lia. apply IH.
Qed.

Lemma insert_string_perm x l : insert_string x l ≡ₚ x :: l.
Proof.
  induction l as [|y l IH]; simpl; [done|]. destruct (string_leb x y); [done|].
  rewrite IH. apply Permutation_swap.
Qed.

Lemma sort_strings_perm l : sort_strings l ≡ₚ l.
Proof. induction l as [|x l IH]; simpl; [done|]. by rewrite insert_string_perm, IH. Qed.

Lemma sort_strings_sorted l : Sorted (fun a b => string_leb a b = true) (sort_strings l).
Proof.
  induction l as [|x l IH]; simpl; [constructor|].
  induction IH as [|y r Hr IHr Hy]; simpl; [by repeat constructor|].
  destruct (string_leb x y) eqn:E; [by repeat constructor|].
  constructor; [done|].
  assert (string_leb y x = true) as Eyx.
  { destruct (bytes_leb_total (bs_of x) (bs_of y)) as [H|H]; [|done].
    unfold string_leb in E. congruence. }
  destruct r as [|z r]; simpl; [by constructor|].
  inversion Hy; subst. destruct (string_leb x z); by constructor.
Qed.

Example crc32c_check : crc32c (bs_of "123456789") = 0xe3069283.
Proof. reflexivity. Qed.

Example fnv1a32_check : fnv1a32 (bs_of "foobar") = 0xbf9cf968.
Proof. reflexivity. Qed.

Example TrimSpace_check : TrimSpace "  a b " = "a b".
Proof. reflexivity. Qed.

(** ** CRC32C detects every change of a single byte

    A table entry is determined by its top byte, so one round of the checksum
    loses nothing of the state; two inputs that differ in one byte keep different
    states to the end. *)

Definition entry_tops : list Z := map (fun i => Z.shiftr (crc_entry i) 24) (seqZ 0 256).

Lemma entry_tops_nodup : NoDup entry_tops.
Proof. apply (bool_decide_unpack _). vm_compute. exact I. Qed.

Lemma crc_entry_top_inj i j :
  0 <= i < 256 -> 0 <= j < 256 ->
  Z.shiftr (crc_entry i) 24 = Z.shiftr (crc_entry j) 24 -> i = j.
Proof.
  intros Hi Hj E.
  assert (forall k, 0 <= k < 256 -> entry_tops !! Z.to_nat k = Some (Z.shiftr (crc_entry k) 24)) as HL.
  { intros k Hk. unfold entry_tops. rewrite list_lookup_fmap.
    rewrite lookup_seqZ_lt by lia. simpl. rewrite Z.add_0_l, Z2Nat.id by lia. done. }
  pose proof (HL i Hi) as H1. rewrite E in H1.
  pose proof (NoDup_lookup _ _ _ _ entry_tops_nodup H1 (HL j Hj)). lia.
Qed.

Lemma crc_entry_range i : 0 <= i < 256 -> 0 <= crc_entry i < 2 ^ 32.
Proof.
  intros Hi. assert (0 <= i < 2 ^ 32) as H by lia. clear Hi. unfold crc_entry.
  generalize 8%nat. intros n. induction n; simpl; [done|]. by apply crc_bit_range.
Qed.

Lemma crc_index_range c b : 0 <= Z.lxor (Z.land c 255) (byte_val b) < 256.
Proof.
  apply (lxor_range 8); [lia| |pose proof (byte_val_range b); lia].
  change 255 with (Z.ones 8). rewrite Z.land_ones by lia. apply Z.mod_pos_bound. lia.
Qed.

Lemma shiftr_top c : 0 <= c < 2 ^ 32 -> Z.shiftr (Z.shiftr c 8) 24 = 0.
Proof.
  intros. rewrite Z.shiftr_shiftr by lia. rewrite Z.shiftr_div_pow2 by lia.
  apply Z.div_small. simpl. lia.
Qed.

(** The table index and the shifted state are both recoverable from a round. *)
Lemma crc_byte_inv c1 b1 c2 b2 :
  0 <= c1 < 2 ^ 32 -> 0 <= c2 < 2 ^ 32 -> crc_byte c1 b1 = crc_byte c2 b2 ->
  Z.lxor (Z.land c1 255) (byte_val b1) = Z.lxor (Z.land c2 255) (byte_val b2) /\
  Z.shiftr c1 8 = Z.shiftr c2 8.
Proof.
  intros H1 H2 E. unfold crc_byte in E.
  assert (Z.lxor (Z.land c1 255) (byte_val b1) = Z.lxor (Z.land c2 255) (byte_val b2)) as Ei.
  { apply crc_entry_top_inj; [apply crc_index_range..|].
    apply (f_equal (fun z => Z.shiftr z 24)) in E.
    rewrite !Z.shiftr_lxor, !shiftr_top, !Z.lxor_0_r in E by done. done. }
  split; [done|]. rewrite Ei in E.
  apply (f_equal (Z.lxor (crc_entry (Z.lxor (Z.land c2 255) (byte_val b2))))) in E.
  by rewrite <- !Z.lxor_assoc, !Z.lxor_nilpotent, !Z.lxor_0_l in E.
Qed.

Lemma lxor_cancel_r a b c : Z.lxor a c = Z.lxor b c -> a = b.
Proof.
  intros E. apply (f_equal (fun z => Z.lxor z c)) in E.
  by rewrite !Z.lxor_assoc, !Z.lxor_nilpotent, !Z.lxor_0_r in E.
Qed.

Lemma lxor_cancel_l a b c : Z.lxor c a = Z.lxor c b -> a = b.
Proof. rewrite !(Z.lxor_comm c). apply lxor_cancel_r. Qed.

Lemma crc_byte_inj_state c1 c2 b :
  0 <= c1 < 2 ^ 32 -> 0 <= c2 < 2 ^ 32 -> crc_byte c1 b = crc_byte c2 b -> c1 = c2.
Proof.
  intros H1 H2 E. apply crc_byte_inv in E as [Ei Es]; [|done..].
  apply lxor_cancel_r in Ei. change 255 with (Z.ones 8) in Ei. rewrite !Z.land_ones in Ei by lia.
  rewrite !Z.shiftr_div_pow2 in Es by lia.
  rewrite (Z.div_mod c1 (2 ^ 8)), (Z.div_mod c2 (2 ^ 8)) by lia. congruence.
Qed.

Lemma crc_byte_inj_byte c b1 b2 :
  0 <= c < 2 ^ 32 -> crc_byte c b1 = crc_byte c b2 -> b1 = b2.
Proof.
  intros H E. apply crc_byte_inv in E as [Ei _]; [|done..].
  apply lxor_cancel_l in Ei. by apply byte_val_inj.
Qed.

Lemma crc_fold_range p c : 0 <= c < 2 ^ 32 -> 0 <= fold_left crc_byte p c < 2 ^ 32.
Proof. revert c. induction p; intros; simpl; [done|]. by apply IHp, crc_byte_range. Qed.

Lemma crc_fold_inj_state p c1 c2 :
  0 <= c1 < 2 ^ 32 -> 0 <= c2 < 2 ^ 32 ->
  fold_left crc_byte p c1 = fold_left crc_byte p c2 -> c1 = c2.
Proof.
  revert c1 c2. induction p as [|b p IH]; intros c1 c2 H1 H2 E; simpl in E; [done|].
  apply IH in E; [|by apply crc_byte_range..]. by eapply crc_byte_inj_state.
Qed.

Lemma crc_update_single_byte c pre b1 b2 post :
  0 <= c < 2 ^ 32 -> b1 ≠ b2 ->
  crc_update c (pre ++ b1 :: post) ≠ crc_update c (pre ++ b2 :: post).
Proof.
  intros Hc Hb E. apply Hb. unfold crc_update in E. apply lxor_cancel_r in E.
  rewrite !fold_left_app in E. cbn [fold_left] in E.
  assert (0 <= Z.lxor c 0xffffffff < 2 ^ 32) as Hx by (apply lxor_range; lia).
  apply crc_fold_inj_state in E; [|by apply crc_byte_range, crc_fold_range..].
  eapply crc_byte_inj_byte; [|done]. by apply crc_fold_range.
Qed.
