(* ===== verification/GoFloat.v ===== *)
(** * float64 (IEEE 754 binary64, as Go's float64)

    A finite float64 is an integer number of units of 2^-1074, the least subnormal: the
    exact values of Go's float64 and nothing else are the images of [round].  An
    operation is the exact rational result rounded to nearest, ties to even, with 53
    significant bits and no unit below one; beyond 2^1024 it is an infinity.  The sign of
    zero is not kept (no source line distinguishes it).  The lemmas: rounding is monotone
    and leaves representable values alone, so the operations are monotone. *)

From S2P Require Import Prelude.

Module Float.
Local Open Scope Z_scope.

Definition unit_exp : Z := 1074.
Definition one_units : Z := 2 ^ unit_exp.
Definition max_units : Z := 2 ^ (1024 + unit_exp).

Inductive float64 :=
| NaN
| NegInf
| Fin (u : Z)
| PosInf.

#[global] Instance float64_eq_dec : EqDecision float64.
Proof. solve_decision. Defined.

(** The integer nearest to [a/b], the even one of two (for [0 <= a], [0 < b]). *)
Definition round_half_even (a b : Z) : Z :=
  let q := a / b in
  let r := a mod b in
  if 2 * r <? b then q
  else if b <? 2 * r then q + 1
  else if Z.even q then q else q + 1.

(** [n/d] units ([0 <= n], [0 < d]) to 53 significant bits. *)
Definition round_pos (n d : Z) : Z :=
  let e := Z.max 0 (Z.log2 (n / d) - 52) in
  round_half_even n (d * 2 ^ e) * 2 ^ e.

Definition round (n d : Z) : float64 :=
  let m := if n <? 0 then - round_pos (- n) d else round_pos n d in
  if max_units <=? m then PosInf else if m <=? - max_units then NegInf else Fin m.

(** [float64(n)] of an integer: exact up to 2^53. *)
Definition of_int (n : Z) : float64 := if Z.abs n <=? 2 ^ 53 then Fin (n * one_units) else round (n * one_units) 1.

Definition add (x y : float64) : float64 :=
  match x, y with
  | Fin a, Fin b => round (a + b) 1
  | NaN, _ | _, NaN | PosInf, NegInf | NegInf, PosInf => NaN
  | PosInf, _ | _, PosInf => PosInf
  | NegInf, _ | _, NegInf => NegInf
  end.

Definition opp (x : float64) : float64 :=
  match x with
  | NaN => NaN
  | NegInf => PosInf
  | PosInf => NegInf
  | Fin a => Fin (- a)
  end.

Definition sub (x y : float64) : float64 := add x (opp y).

(** An infinity times a value of sign [s]. *)
Definition inf_times (pos : bool) (s : Z) : float64 :=
  if s =? 0 then NaN else if eqb (0 <? s) pos then PosInf else NegInf.

Definition mul (x y : float64) : float64 :=
  match x, y with
  | Fin a, Fin b => round (a * b) one_units
  | NaN, _ | _, NaN => NaN
  | PosInf, PosInf | NegInf, NegInf => PosInf
  | PosInf, NegInf | NegInf, PosInf => NegInf
  | PosInf, Fin a | Fin a, PosInf => inf_times true a
  | NegInf, Fin a | Fin a, NegInf => inf_times false a
  end.

(** Division of finite values; the sources divide by nonzero constants only. *)
Definition div (x y : float64) : float64 :=
  match x, y with
  | Fin a, Fin b => if b =? 0 then inf_times true a else if b <? 0 then round (- a * one_units) (- b) else round (a * one_units) b
  | NaN, _ | _, NaN => NaN
  | Fin _, _ => Fin 0
  | PosInf, Fin b => if b <? 0 then NegInf else PosInf
  | NegInf, Fin b => if b <? 0 then PosInf else NegInf
  | _, _ => NaN
  end.

(** [x < y] and [x <= y]; false when an operand is not a number. *)
Definition ltb (x y : float64) : bool :=
  match x, y with
  | NaN, _ | _, NaN => false
  | Fin a, Fin b => a <? b
  | NegInf, NegInf | PosInf, _ | _, NegInf => false
  | NegInf, _ | _, PosInf => true
  end.

Definition leb (x y : float64) : bool :=
  match x, y with
  | NaN, _ | _, NaN => false
  | Fin a, Fin b => a <=? b
  | NegInf, _ | _, PosInf => true
  | _, _ => false
  end.

(** ** Rounding to an integer *)

Lemma rhe_spec a b : 0 < b ->
  let m := round_half_even a b in
  - b <= 2 * (m * b - a) <= b /\
  (2 * (m * b - a) = b \/ 2 * (m * b - a) = - b -> Z.even m = true).
Proof.
  intros Hb m. pose proof (Z.div_mod a b ltac:(lia)) as Hd. pose proof (Z.mod_pos_bound a b Hb) as Hr.
  unfold m, round_half_even. set (q := a / b) in *. set (r := a mod b) in *. clearbody q r.
  destruct (Z.ltb_spec (2 * r) b); [split; [nia|nia]|].
  destruct (Z.ltb_spec b (2 * r)); [split; [nia|nia]|].
  destruct (Z.even q) eqn:Eq; (split; [nia|]); intros _; [done|].
  by rewrite Z.even_add, Eq.
Qed.

(** [a/b <= a'/b'] rounds to ordered integers. *)
Lemma rhe_mono a b a' b' : 0 < b -> 0 < b' -> a * b' <= a' * b -> round_half_even a b <= round_half_even a' b'.
Proof.
  intros Hb Hb' Hle. pose proof (rhe_spec a b Hb) as [H1 Ht]. pose proof (rhe_spec a' b' Hb') as [H2 Ht'].
  cbv zeta in *. set (m := round_half_even a b) in *. set (m' := round_half_even a' b') in *. clearbody m m'.
  destruct (Z.le_gt_cases m m') as [|Hgt]; [done|exfalso].
  (* both are ties between m' and m = m' + 1, so both are even *)
  assert (2 * a * b' >= (2 * m - 1) * b * b') by nia. assert (2 * a' * b <= (2 * m' + 1) * b * b') by nia.
  assert (0 < b * b') by nia. assert (m = m' + 1) as -> by nia.
  assert (2 * a = (2 * m' + 1) * b) by nia. assert (2 * a' = (2 * m' + 1) * b') by nia.
  assert (Z.even (m' + 1) = true) as E1 by (apply Ht; left; nia).
  assert (Z.even m' = true) as E2 by (apply Ht'; right; nia).
  rewrite Z.even_add, E2 in E1. done.
Qed.

Lemma rhe_exact m b : 0 < b -> round_half_even (m * b) b = m.
Proof.
  intros Hb. unfold round_half_even. rewrite Z.div_mul, Z.mod_mul by lia.
  destruct (Z.ltb_spec (2 * 0) b); lia.
Qed.

Lemma rhe_le a b k : 0 < b -> a <= k * b -> round_half_even a b <= k.
Proof. intros Hb Hk. rewrite <- (rhe_exact k b Hb). apply rhe_mono; nia. Qed.

Lemma rhe_ge a b k : 0 < b -> k * b <= a -> k <= round_half_even a b.
Proof. intros Hb Hk. rewrite <- (rhe_exact k b Hb) at 1. apply rhe_mono; nia. Qed.

(** ** Rounding to 53 bits *)

Definition exp_of (n d : Z) : Z := Z.max 0 (Z.log2 (n / d) - 52).

Lemma exp_of_nonneg n d : 0 <= exp_of n d.
Proof. unfold exp_of. lia. Qed.

Lemma div_cross_le n d n' d' : 0 < d -> 0 < d' -> n * d' <= n' * d -> n / d <= n' / d'.
Proof.
  intros Hd Hd' Hle. apply Z.div_le_lower_bound; [done|].
  pose proof (Z.mul_div_le n d Hd). nia.
Qed.

(** A value below the next binade. *)
Lemma exp_of_upper n d : 0 <= n -> 0 < d -> n <= 2 ^ 53 * (d * 2 ^ exp_of n d).
Proof.
  intros Hn Hd. pose proof (exp_of_nonneg n d) as He.
  assert (n / d < 2 ^ (53 + exp_of n d)) as Hq.
  { destruct (Z.le_gt_cases (n / d) 0); [pose proof (Z.pow_pos_nonneg 2 (53 + exp_of n d) ltac:(lia) ltac:(lia)); lia|].
    pose proof (Z.log2_spec (n / d) ltac:(lia)) as [_ Hl].
    eapply Z.lt_le_trans; [exact Hl|]. apply Z.pow_le_mono_r; unfold exp_of; lia. }
  rewrite Z.pow_add_r in Hq by lia. pose proof (Z.mul_succ_div_gt n d Hd). nia.
Qed.

(** A normal value is at least the start of its binade. *)
Lemma exp_of_lower n d : 0 < d -> 0 < exp_of n d -> 2 ^ 52 * (d * 2 ^ exp_of n d) <= n.
Proof.
  intros Hd He.
  assert (2 ^ (52 + exp_of n d) <= n / d) as Hq.
  { assert (0 < n / d).
    { destruct (Z.le_gt_cases (n / d) 0); [|done]. unfold exp_of in He. rewrite Z.log2_nonpos in He by done. lia. }
    replace (52 + exp_of n d) with (Z.log2 (n / d)) by (unfold exp_of in *; lia). by apply Z.log2_spec. }
  rewrite Z.pow_add_r in Hq by lia. pose proof (Z.mul_div_le n d Hd). nia.
Qed.

Lemma exp_of_mono n d n' d' : 0 < d -> 0 < d' -> n * d' <= n' * d -> exp_of n d <= exp_of n' d'.
Proof. intros. unfold exp_of. pose proof (Z.log2_le_mono _ _ (div_cross_le n d n' d' ltac:(done) ltac:(done) ltac:(done))). lia. Qed.

Lemma round_pos_mono n d n' d' :
  0 <= n -> 0 < d -> 0 < d' -> n * d' <= n' * d -> round_pos n d <= round_pos n' d'.
Proof.
  intros Hn Hd Hd' Hle. pose proof (exp_of_mono n d n' d' Hd Hd' Hle) as Hee.
  unfold round_pos. fold (exp_of n d). fold (exp_of n' d'). pose proof (exp_of_nonneg n d) as He.
  pose proof (Z.pow_pos_nonneg 2 (exp_of n d) ltac:(lia) He) as Hp.
  destruct (Z.le_gt_cases (exp_of n' d') (exp_of n d)) as [Hge|Hlt].
  - assert (exp_of n' d' = exp_of n d) as -> by lia.
    apply Z.mul_le_mono_nonneg_r; [lia|]. apply rhe_mono; nia.
  - assert (round_half_even n (d * 2 ^ exp_of n d) <= 2 ^ 53) as H1.
    { apply rhe_le; [nia|]. by apply exp_of_upper. }
    assert (2 ^ 52 <= round_half_even n' (d' * 2 ^ exp_of n' d')) as H2.
    { pose proof (Z.pow_pos_nonneg 2 (exp_of n' d') ltac:(lia) ltac:(lia)).
      apply rhe_ge; [nia|]. apply exp_of_lower; lia. }
    assert (2 * 2 ^ exp_of n d <= 2 ^ exp_of n' d') as H3.
    { rewrite <- Z.pow_succ_r by lia. apply Z.pow_le_mono_r; lia. }
    change (2 ^ 53) with (2 * 2 ^ 52) in H1. nia.
Qed.

(** The values of a float64, in units: 53 significant bits. *)
Definition representable (u : Z) : Prop := exists m e, 0 <= m <= 2 ^ 53 /\ 0 <= e /\ u = m * 2 ^ e.

Lemma round_pos_representable n d : 0 <= n -> 0 < d -> representable (round_pos n d).
Proof.
  intros Hn Hd. unfold round_pos. fold (exp_of n d). pose proof (exp_of_nonneg n d).
  pose proof (Z.pow_pos_nonneg 2 (exp_of n d) ltac:(lia) ltac:(lia)).
  eexists _, (exp_of n d). split; [|split; [done|reflexivity]]. split.
  - apply rhe_ge; nia.
  - apply rhe_le; [nia|]. by apply exp_of_upper.
Qed.

Lemma round_pos_exact u : representable u -> round_pos u 1 = u.
Proof.
  intros (m & e & Hm & He & ->). unfold round_pos. rewrite Z.div_1_r, Z.mul_1_l.
  set (E := Z.max 0 (Z.log2 (m * 2 ^ e) - 52)).
  assert ((2 ^ E | m * 2 ^ e)) as [k Hk].
  { destruct (Z.le_gt_cases E e) as [Hle|Hgt].
    - exists (m * 2 ^ (e - E)). rewrite <- Z.mul_assoc, <- Z.pow_add_r by lia. do 2 f_equal. lia.
    - assert (m <> 0) as Hm0 by (intros ->; subst E; rewrite Z.mul_0_l in Hgt; simpl in Hgt; lia).
      assert (E = Z.log2 m + e - 52) as HE by (subst E; rewrite Z.log2_mul_pow2 in * by lia; lia).
      destruct (Z.eq_dec m (2 ^ 53)) as [->|Hne].
      + rewrite Z.log2_pow2 in HE by lia. rewrite <- Z.pow_add_r by lia. exists (2 ^ 52).
        rewrite <- Z.pow_add_r by lia. f_equal. lia.
      + assert (Z.log2 m < 53) by (apply Z.log2_lt_pow2; lia). lia. }
  rewrite Hk, rhe_exact; [done|]. apply Z.pow_pos_nonneg; lia.
Qed.

Lemma representable_int n : 0 <= n <= 2 ^ 53 -> representable (n * one_units).
Proof. intros Hn. exists n, unit_exp. unfold one_units, unit_exp. split; [done|]. split; [lia|done]. Qed.

Lemma round_pos_nonneg n d : 0 <= n -> 0 < d -> 0 <= round_pos n d.
Proof.
  intros Hn Hd. destruct (round_pos_representable n d Hn Hd) as (m & e & Hm & He & ->).
  pose proof (Z.pow_nonneg 2 e ltac:(lia)). nia.
Qed.

(** ** Nonnegative values *)

Definition nonneg (x : float64) : Prop :=
  match x with
  | Fin u => representable u /\ u < max_units
  | PosInf => True
  | _ => False
  end.

Lemma representable_nonneg u : representable u -> 0 <= u.
Proof. intros (m & e & ? & ? & ->). pose proof (Z.pow_nonneg 2 e ltac:(lia)). nia. Qed.

Lemma max_units_pos : 0 < max_units.
Proof. unfold max_units, unit_exp. apply Z.pow_pos_nonneg; lia. Qed.

Lemma one_units_pos : 0 < one_units.
Proof. unfold one_units, unit_exp. apply Z.pow_pos_nonneg; lia. Qed.

#[local] Opaque max_units one_units.

Lemma round_eq n d : 0 <= n -> 0 < d ->
  round n d = if max_units <=? round_pos n d then PosInf else Fin (round_pos n d).
Proof.
  intros Hn Hd. unfold round. destruct (Z.ltb_spec n 0); [lia|].
  pose proof (round_pos_nonneg n d Hn Hd). pose proof max_units_pos.
  destruct (Z.leb_spec max_units (round_pos n d)); [done|]. by destruct (Z.leb_spec (round_pos n d) (- max_units)); [lia|].
Qed.

Lemma round_nonneg n d : 0 <= n -> 0 < d -> nonneg (round n d).
Proof.
  intros Hn Hd. rewrite round_eq by done. destruct (Z.leb_spec max_units (round_pos n d)); [done|].
  split; [by apply round_pos_representable|done].
Qed.

Lemma round_mono n d n' d' :
  0 <= n -> 0 < d -> 0 < d' -> n * d' <= n' * d -> leb (round n d) (round n' d') = true.
Proof.
  intros Hn Hd Hd' Hle. assert (0 <= n') by nia. rewrite !round_eq by done.
  pose proof (round_pos_mono n d n' d' Hn Hd Hd' Hle).
  destruct (Z.leb_spec max_units (round_pos n d)), (Z.leb_spec max_units (round_pos n' d')); simpl; try done; [lia|].
  by apply Z.leb_le.
Qed.

Lemma round_exact u : nonneg (Fin u) -> round u 1 = Fin u.
Proof.
  intros [Hr Hm]. pose proof (representable_nonneg u Hr). rewrite round_eq by lia. rewrite round_pos_exact by done.
  by destruct (Z.leb_spec max_units u); [lia|].
Qed.

Lemma leb_refl x : nonneg x -> leb x x = true.
Proof. destruct x; simpl; try done. intros _. apply Z.leb_refl. Qed.

Lemma leb_trans x y z : leb x y = true -> leb y z = true -> leb x z = true.
Proof. destruct x, y, z; simpl; try done. intros ?%Z.leb_le ?%Z.leb_le. apply Z.leb_le. lia. Qed.

Lemma ltb_leb x y : nonneg x -> nonneg y -> ltb x y = negb (leb y x).
Proof. destruct x, y; simpl; try done. intros _ _. apply Z.ltb_antisym. Qed.

Lemma add_nonneg x y : nonneg x -> nonneg y -> nonneg (add x y).
Proof.
  destruct x, y; simpl; try done. intros [Hx _] [Hy _].
  apply representable_nonneg in Hx, Hy. apply round_nonneg; lia.
Qed.

Lemma mul_nonneg x y : nonneg (Fin x) -> nonneg (Fin y) -> nonneg (mul (Fin x) (Fin y)).
Proof.
  intros [Hx _] [Hy _]. apply representable_nonneg in Hx, Hy. pose proof one_units_pos. apply round_nonneg; nia.
Qed.

(** Adding to a nonnegative value does not decrease the other. *)
Lemma add_ge x y : nonneg x -> nonneg y -> leb y (add x y) = true.
Proof.
  destruct x as [| |a|], y as [| |b|]; simpl; try done. intros [Hx _] [Hy Hm].
  pose proof (representable_nonneg a Hx). pose proof (representable_nonneg b Hy).
  change (leb (Fin b) (round (a + b) 1) = true). rewrite <- (round_exact b) by done. apply round_mono; lia.
Qed.

Lemma add_mono_l x x' y : nonneg x -> nonneg x' -> nonneg y -> leb x x' = true -> leb (add x y) (add x' y) = true.
Proof.
  destruct x as [| |a|], x' as [| |a'|], y as [| |b|]; simpl; try done.
  - intros [Hx _] _ [Hy _] Hle%Z.leb_le. apply representable_nonneg in Hx, Hy. apply round_mono; lia.
  - intros [Hx _] _ [Hy _] _. apply representable_nonneg in Hx, Hy. pose proof (round_nonneg (a + b) 1) as Hr.
    destruct (round (a + b) 1); simpl in *; try done; exfalso; by apply Hr; lia.
Qed.

Lemma mul_mono_l a a' b : nonneg (Fin a) -> nonneg (Fin a') -> nonneg (Fin b) -> a <= a' ->
  leb (mul (Fin a) (Fin b)) (mul (Fin a') (Fin b)) = true.
Proof.
  intros [Ha _] [Ha' _] [Hb _] Hle. apply representable_nonneg in Ha, Ha', Hb. pose proof one_units_pos.
  assert (0 <= a * b <= a' * b) by nia. apply round_mono; nia.
Qed.

Lemma one_max : 2 ^ 53 * one_units < max_units.
Proof.
  Transparent max_units one_units. unfold max_units, one_units, unit_exp. rewrite <- Z.pow_add_r by lia.
  apply Z.pow_lt_mono_r; lia. Opaque max_units one_units.
Qed.

Lemma nonneg_int n : 0 <= n <= 2 ^ 53 -> nonneg (Fin (n * one_units)).
Proof.
  intros Hn. split; [by apply representable_int|]. pose proof one_max. pose proof one_units_pos. nia.
Qed.

Lemma of_int_small n : 0 <= n <= 2 ^ 53 -> of_int n = Fin (n * one_units).
Proof. intros Hn. unfold of_int. by destruct (Z.leb_spec (Z.abs n) (2 ^ 53)); [|lia]. Qed.

(** Taking one token from a value of at least one. *)
Lemma sub_one_nonneg u : nonneg (Fin u) -> one_units <= u ->
  exists v, sub (Fin u) (of_int 1) = Fin v /\ nonneg (Fin v) /\ v <= u.
Proof.
  intros [Hr Hm] Hge. rewrite of_int_small by lia. unfold sub. simpl opp. unfold add. rewrite Z.mul_1_l.
  pose proof one_units_pos. pose proof (round_nonneg (u + - one_units) 1 ltac:(lia) ltac:(lia)) as Hn.
  pose proof (round_mono (u + - one_units) 1 u 1 ltac:(lia) ltac:(lia) ltac:(lia) ltac:(lia)) as Hle.
  rewrite (round_exact u) in Hle by done. destruct (round (u + - one_units) 1) as [| |v|]; simpl in *; try done.
  exists v. split; [done|]. split; [done|]. by apply Z.leb_le.
Qed.

(** If the value is at most [n], what is left is at most [n - 1]. *)
Lemma sub_one_le_int u v n : nonneg (Fin u) -> one_units <= u -> u <= n * one_units -> 1 <= n <= 2 ^ 53 ->
  sub (Fin u) (of_int 1) = Fin v -> v <= (n - 1) * one_units.
Proof.
  intros [Hr Hm] Hge Hle Hn. rewrite of_int_small by lia. unfold sub. simpl opp. unfold add. rewrite Z.mul_1_l.
  pose proof one_units_pos. intros E.
  pose proof (round_mono (u + - one_units) 1 ((n - 1) * one_units) 1 ltac:(lia) ltac:(lia) ltac:(lia) ltac:(lia)) as Hl.
  rewrite E, (round_exact ((n - 1) * one_units)) in Hl by (apply nonneg_int; lia). by apply Z.leb_le in Hl.
Qed.

(** ** Sums just below an integer

    [eps_units] is 2^-12: a fraction that is at least that much below one stays below one
    when it is rounded, also after an integer is added. *)

Definition eps_units : Z := 2 ^ 1062.
Abbreviation below_one := ((2 ^ 12 - 1) * eps_units).

Lemma eps_pos : 0 < eps_units.
Proof. apply Z.pow_pos_nonneg; lia. Qed.

Lemma one_eps : one_units = 2 ^ 12 * eps_units.
Proof. Transparent one_units. unfold one_units, unit_exp, eps_units. rewrite <- Z.pow_add_r by lia. reflexivity. Opaque one_units. Qed.

#[local] Opaque eps_units.

Lemma nonneg_below n : 0 <= n < 2 ^ 40 -> nonneg (Fin (n * one_units + below_one)).
Proof.
  intros Hn. rewrite one_eps. replace (n * (2 ^ 12 * eps_units) + below_one) with ((n * 2 ^ 12 + (2 ^ 12 - 1)) * eps_units) by ring. split.
  - exists (n * 2 ^ 12 + (2 ^ 12 - 1)), 1062. split; [lia|]. split; [lia|reflexivity].
  - pose proof one_max as Hm. rewrite one_eps in Hm. pose proof eps_pos. nia.
Qed.

Lemma ratio_below a b : 0 <= a -> 0 < b <= 2 ^ 53 -> a * 2 ^ 12 <= b * (2 ^ 12 - 1) ->
  exists v, div (of_int a) (of_int b) = Fin v /\ nonneg (Fin v) /\ v <= below_one.
Proof.
  intros Ha Hb Hab. pose proof one_units_pos as Ho. rewrite !of_int_small by lia. unfold div.
  destruct (Z.eqb_spec (b * one_units) 0); [nia|]. destruct (Z.ltb_spec (b * one_units) 0); [nia|].
  assert (0 <= a * one_units * one_units) by (repeat apply Z.mul_nonneg_nonneg; lia). assert (0 < b * one_units) by nia.
  pose proof (round_nonneg (a * one_units * one_units) (b * one_units) ltac:(lia) ltac:(lia)) as Hn.
  pose proof (nonneg_below 0 ltac:(lia)) as Hb1. rewrite Z.mul_0_l, Z.add_0_l in Hb1.
  assert (leb (round (a * one_units * one_units) (b * one_units)) (Fin below_one) = true) as Hle.
  { rewrite <- (round_exact _ Hb1). apply round_mono; [lia..|]. pose proof eps_pos.
    assert (a * one_units <= below_one * b) by (rewrite one_eps; nia).
    assert (a * one_units * one_units <= below_one * b * one_units) by (apply Z.mul_le_mono_nonneg_r; lia). lia. }
  destruct (round _ _) as [| |v|]; try done. exists v. split; [done|]. split; [exact Hn|by apply Z.leb_le].
Qed.

Lemma add_floor k v : 0 <= k < 2 ^ 40 -> nonneg (Fin v) -> v <= below_one ->
  exists x, add (Fin (k * one_units)) (Fin v) = Fin x /\ 0 <= x /\ x / one_units = k.
Proof.
  intros Hk Hv Hle. pose proof (nonneg_int k ltac:(lia)) as Hki. pose proof (representable_nonneg v (proj1 Hv)) as Hv0.
  pose proof one_units_pos as Ho. assert (0 <= k * one_units) by nia. unfold add.
  pose proof (round_mono (k * one_units) 1 (k * one_units + v) 1 ltac:(lia) ltac:(lia) ltac:(lia) ltac:(lia)) as Hl.
  pose proof (round_mono (k * one_units + v) 1 (k * one_units + below_one) 1 ltac:(lia) ltac:(lia) ltac:(lia) ltac:(lia)) as Hh.
  rewrite (round_exact (k * one_units)) in Hl by exact Hki. rewrite (round_exact (k * one_units + below_one)) in Hh by (apply nonneg_below; lia).
  destruct (round _ _) as [| |x|]; try done. apply Z.leb_le in Hl, Hh. exists x. split; [done|]. split; [lia|].
  symmetry. apply (Z.div_unique x one_units k (x - k * one_units)); [left|lia]. pose proof eps_pos. rewrite one_eps in *. nia.
Qed.

End Float.
