(* ===== verification/Protocol.v ===== *)
(** * Wire protocol of the TCP broker (internal/protocol/protocol.go)

    Frames and the payload codecs of the batch, fetch and keyed operations, byte
    for byte, and the theorems that every decoder accepts exactly the encodings
    of its encoder (inside the width of the length fields) and inverts it. *)

From S2P Require Import Prelude.
Open Scope Z_scope.
Open Scope go_scope.

Module Wire.

Definition Magic : Z := 0x474B.

Definition OpPublish : byte := Byte.x01.
Definition OpSubscribe : byte := Byte.x02.
Definition OpAck : byte := Byte.x03.
Definition OpFetch : byte := Byte.x04.
Definition OpError : byte := Byte.x05.
Definition OpMessage : byte := Byte.x06.
Definition OpBatchPublish : byte := Byte.x07.
Definition OpBatchAck : byte := Byte.x08.
Definition OpPublishWithKey : byte := Byte.x09.

Inductive proto_err :=
| ProtoIO (e : io_err)
| ErrBadMagic
| ErrTopicEmpty
| ErrBadPayload.

Record Frame := mkFrame { Op : byte; Topic : string; Payload : bytes }.

Definition lift_io {A} (m : result io_err A) : result proto_err A :=
  match m with
  | Ok a => Ok a
  | Err e => Err (ProtoIO e)
  end.

(** The bytes [Encode] hands to the writer. The topic length is truncated to one
    byte, the payload length to four. *)
Definition Encode (f : Frame) : bytes :=
  let topic := bs_of (Topic f) in
  be_bytes 2 Magic ++ [Op f] ++ [byte_of (zlen topic)] ++
  be_bytes 4 (zlen (Payload f)) ++ topic ++ Payload f.

(** [Decode] returns the frame and the reader after it. *)
Definition Decode (r : bytes) : result proto_err (Frame * bytes) :=
  let? (header, r) := lift_io (read_full 8 r) in
  if be_val (slice 0 2 header) =? Magic then
    let op := default Byte.x00 (header !! 2%nat) in
    let topicLen := Z.to_nat (byte_val (default Byte.x00 (header !! 3%nat))) in
    let payloadLen := Z.to_nat (be_val (slice 4 8 header)) in
    let? (body, r) := lift_io (read_full (topicLen + payloadLen) r) in
    Ok (mkFrame op (str_of (take topicLen body)) (drop topicLen body), r)
  else Err ErrBadMagic.

Record BatchMessage := mkBatchMessage { Offset : Z; MsgPayload : bytes }.

(** One round of [EncodeBatchPayload]'s loop: payloadLen(4) + payload. *)
Definition enc_payload (p : bytes) : bytes := be_bytes 4 (zlen p) ++ p.

Definition EncodeBatchPayload (payloads : list bytes) : bytes :=
  be_bytes 2 (zlen payloads) ++ concat (map enc_payload payloads).

(** The loop of [DecodeBatchPayload] with [n] rounds left, at [pos]. *)
Fixpoint decodeBatchLoop (n : nat) (payload : bytes) (pos : nat)
    (out : list bytes) : result proto_err (nat * list bytes) :=
  match n with
  | O => Ok (pos, out)
  | S n =>
      if decide (length payload < pos + 4)%nat then Err ErrBadPayload
      else
        let l := Z.to_nat (be_val (slice pos (pos + 4) payload)) in
        let pos := (pos + 4)%nat in
        if decide (length payload < pos + l)%nat then Err ErrBadPayload
        else decodeBatchLoop n payload (pos + l) (out ++ [slice pos (pos + l) payload])
  end.

Definition DecodeBatchPayload (payload : bytes) : result proto_err (list bytes) :=
  if decide (length payload < 2)%nat then Err ErrBadPayload
  else
    let n := Z.to_nat (be_val (slice 0 2 payload)) in
    let? (pos, out) := decodeBatchLoop n payload 2 [] in
    if decide (pos = length payload) then Ok out else Err ErrBadPayload.

Definition EncodeBatchAck (firstOffset lastOffset count : Z) : bytes :=
  be_bytes 8 (u64 firstOffset) ++ be_bytes 8 (u64 lastOffset) ++ be_bytes 2 (u16 count).

Definition DecodeBatchAck (payload : bytes) : result proto_err (Z * Z * Z) :=
  if decide (length payload = 18)%nat then
    Ok (i64 (be_val (slice 0 8 payload)),
        i64 (be_val (slice 8 16 payload)),
        be_val (slice 16 18 payload))
  else Err ErrBadPayload.

Definition EncodeFetchRequest (offset maxCount : Z) : bytes :=
  be_bytes 8 (u64 offset) ++ be_bytes 4 (u32 maxCount).

Definition DecodeFetchRequest (payload : bytes) : result proto_err (Z * Z) :=
  if decide (length payload = 12)%nat then
    Ok (i64 (be_val (slice 0 8 payload)), be_val (slice 8 12 payload))
  else Err ErrBadPayload.

(** One round of [EncodeFetchResponse]'s loop: offset(8) + payloadLen(4) + payload. *)
Definition enc_message (m : BatchMessage) : bytes :=
  be_bytes 8 (u64 (Offset m)) ++ be_bytes 4 (zlen (MsgPayload m)) ++ MsgPayload m.

Definition EncodeFetchResponse (messages : list BatchMessage) : bytes :=
  be_bytes 2 (zlen messages) ++ concat (map enc_message messages).

Definition EncodeKeyedPayload (key : string) (payload : bytes) : bytes :=
  let k := bs_of key in
  be_bytes 2 (zlen k) ++ k ++ payload.

Definition DecodeKeyedPayload (p : bytes) : result proto_err (string * bytes) :=
  if decide (length p < 2)%nat then Err ErrBadPayload
  else
    let kLen := Z.to_nat (be_val (slice 0 2 p)) in
    if decide (length p < 2 + kLen)%nat then Err ErrBadPayload
    else Ok (str_of (slice 2 (2 + kLen) p), drop (2 + kLen) p).

Fixpoint decodeFetchLoop (n : nat) (payload : bytes) (pos : nat)
    (out : list BatchMessage) : result proto_err (nat * list BatchMessage) :=
  match n with
  | O => Ok (pos, out)
  | S n =>
      if decide (length payload < pos + 12)%nat then Err ErrBadPayload
      else
        let offset := i64 (be_val (slice pos (pos + 8) payload)) in
        let pos := (pos + 8)%nat in
        let l := Z.to_nat (be_val (slice pos (pos + 4) payload)) in
        let pos := (pos + 4)%nat in
        if decide (length payload < pos + l)%nat then Err ErrBadPayload
        else decodeFetchLoop n payload (pos + l)
               (out ++ [mkBatchMessage offset (slice pos (pos + l) payload)])
  end.

Definition DecodeFetchResponse (payload : bytes) : result proto_err (list BatchMessage) :=
  if decide (length payload < 2)%nat then Err ErrBadPayload
  else
    let n := Z.to_nat (be_val (slice 0 2 payload)) in
    let? (pos, out) := decodeFetchLoop n payload 2 [] in
    if decide (pos = length payload) then Ok out else Err ErrBadPayload.

(** ** What fits the wire format *)

Definition frame_fits (f : Frame) : Prop :=
  zlen (bs_of (Topic f)) < 2 ^ 8 /\ zlen (Payload f) < 2 ^ 32.

Definition batch_fits (ps : list bytes) : Prop :=
  zlen ps < 2 ^ 16 /\ Forall (fun p => zlen p < 2 ^ 32) ps.

Definition fetch_fits (ms : list BatchMessage) : Prop :=
  zlen ms < 2 ^ 16 /\
  Forall (fun m => in_i64 (Offset m) /\ zlen (MsgPayload m) < 2 ^ 32) ms.

(** ** The batch codec *)

Lemma decodeBatchLoop_complete ps payload pos out rest :
  Forall (fun p => zlen p < 2 ^ 32) ps ->
  (pos <= length payload)%nat ->
  drop pos payload = concat (map enc_payload ps) ++ rest ->
  decodeBatchLoop (length ps) payload pos out =
    Ok ((pos + length (concat (map enc_payload ps)))%nat, out ++ ps).
Proof.
  intros HF. revert pos out. induction HF as [|p ps Hp HF IH]; intros pos out Hpos E.
  { simpl. by rewrite Nat.add_0_r, app_nil_r. }
  cbn [map concat length decodeBatchLoop] in E |- *.
  unfold enc_payload at 1 in E. rewrite <- !app_assoc in E.
  assert (length (be_bytes 4 (zlen p)) = 4)%nat as L4 by apply length_be_bytes.
  assert (pos + 4 <= length payload)%nat as F4 by (eapply drop_fits_weak; [exact E|lia|lia]).
  rewrite decide_False by lia.
  rewrite (slice_drop _ _ _ _ _ E) by lia.
  rewrite be_val_bytes_small by lia. rewrite Nat2Z.id.
  pose proof (drop_advance _ _ _ _ (pos + 4) E ltac:(lia)) as E2.
  rewrite decide_False by (pose proof (drop_fits_weak _ _ _ _ (pos + 4 + length p) E2); lia).
  rewrite (slice_drop _ _ _ _ _ E2) by lia.
  rewrite IH.
  - f_equal. f_equal; [unfold enc_payload; rewrite !length_app; lia|by rewrite <- app_assoc].
  - eapply drop_fits_weak; [exact E2|lia|lia].
  - eapply drop_advance; [exact E2|lia].
Qed.

Lemma decodeBatchLoop_sound n payload pos out pos' out' :
  (pos <= length payload)%nat ->
  decodeBatchLoop n payload pos out = Ok (pos', out') ->
  exists ps, length ps = n /\ out' = out ++ ps /\
    Forall (fun p => zlen p < 2 ^ 32) ps /\ (pos' <= length payload)%nat /\
    drop pos payload = concat (map enc_payload ps) ++ drop pos' payload.
Proof.
  revert pos out. induction n as [|n IH]; intros pos out Hpos H; simpl in H.
  { simplify_eq. exists []. by rewrite app_nil_r. }
  repeat case_decide; try done.
  pose proof (be_val_slice_bound payload pos (pos + 4) 4 ltac:(lia) ltac:(lia) ltac:(lia)) as Hb.
  set (l := Z.to_nat (be_val (slice pos (pos + 4) payload))) in *.
  destruct (slice_cut payload pos (pos + 4)) as [E1 L1]; [lia..|].
  destruct (slice_cut payload (pos + 4) (pos + 4 + l)) as [E2 L2]; [lia..|].
  assert (zlen (slice (pos + 4) (pos + 4 + l) payload) = be_val (slice pos (pos + 4) payload)) as EL
    by (rewrite L2; subst l; lia).
  apply IH in H as (ps & <- & -> & HF & Hle & E); [|lia].
  exists (slice (pos + 4) (pos + 4 + l) payload :: ps). split_and!; try done.
  - by rewrite <- app_assoc.
  - constructor; [|done]. rewrite EL. lia.
  - cbn [map concat]. unfold enc_payload at 1. rewrite EL, be_bytes_slice by lia.
    rewrite E1, E2, E. by rewrite <- !app_assoc.
Qed.

(** [DecodeBatchPayload] accepts a payload exactly when it is the encoding of
    a batch that fits the wire format, and then returns that batch: decoding
    inverts encoding, no second byte string decodes to the same batch, and every
    malformed payload is an error. *)
Theorem batch_payload_roundtrip payload ps :
  DecodeBatchPayload payload = Ok ps <-> batch_fits ps /\ payload = EncodeBatchPayload ps.
Proof.
  unfold DecodeBatchPayload, EncodeBatchPayload, batch_fits. split.
  - intros H. case_decide as H2; [done|].
    destruct (decodeBatchLoop _ _ _ _) as [[pos out]|] eqn:EL; [|done].
    simpl in H. case_decide as Hpos; [|done]. simplify_eq.
    apply decodeBatchLoop_sound in EL as (ps' & Hn & -> & HF & _ & E); [|lia].
    rewrite drop_all, app_nil_r in E.
    destruct (slice_cut payload 0 2) as [E0 _]; [lia..|].
    pose proof (be_val_slice_bound payload 0 2 2 ltac:(lia) ltac:(lia) ltac:(lia)) as Hb.
    simpl. split_and!; [lia|done|].
    rewrite drop_0 in E0. rewrite E0 at 1.
    rewrite E, Hn, Z2Nat.id, be_bytes_slice by lia. done.
  - intros [[Hn HF] ->].
    assert (length (be_bytes 2 (zlen ps)) = 2)%nat as L2 by apply length_be_bytes.
    rewrite decide_False by (rewrite length_app; lia).
    rewrite slice_prefix by lia. rewrite be_val_bytes_small by lia. rewrite Nat2Z.id.
    rewrite (decodeBatchLoop_complete ps _ _ _ []); [|done| |].
    + simpl. rewrite decide_True; [done|]. rewrite length_app, L2. unfold enc_payload. lia.
    + rewrite length_app. lia.
    + rewrite app_nil_r. rewrite <- L2. apply drop_app_length.
Qed.

(** ** The fetch-response codec *)

Lemma decodeFetchLoop_complete ms payload pos out rest :
  Forall (fun m => in_i64 (Offset m) /\ zlen (MsgPayload m) < 2 ^ 32) ms ->
  (pos <= length payload)%nat ->
  drop pos payload = concat (map enc_message ms) ++ rest ->
  decodeFetchLoop (length ms) payload pos out =
    Ok ((pos + length (concat (map enc_message ms)))%nat, out ++ ms).
Proof.
  intros HF. revert pos out. induction HF as [|m ms [Ho Hp] HF IH]; intros pos out Hpos E.
  { simpl. by rewrite Nat.add_0_r, app_nil_r. }
  cbn [map concat length decodeFetchLoop] in E |- *.
  unfold enc_message at 1 in E. rewrite <- !app_assoc in E.
  assert (length (be_bytes 8 (u64 (Offset m))) = 8)%nat as L8 by apply length_be_bytes.
  assert (length (be_bytes 4 (zlen (MsgPayload m))) = 4)%nat as L4 by apply length_be_bytes.
  assert (pos + 8 <= length payload)%nat as F8 by (eapply drop_fits_weak; [exact E|lia|lia]).
  pose proof (drop_advance _ _ _ _ (pos + 8) E ltac:(lia)) as E1.
  assert (pos + 12 <= length payload)%nat as F12 by (eapply drop_fits_weak; [exact E1|lia|lia]).
  rewrite decide_False by lia.
  rewrite (slice_drop _ _ _ _ _ E), (slice_drop _ _ _ _ _ E1) by lia.
  rewrite !be_val_bytes_small by (lia || (apply (wrap_u_range 64); lia)). rewrite Nat2Z.id.
  pose proof (drop_advance _ _ _ _ (pos + 8 + 4) E1 ltac:(lia)) as E2.
  rewrite decide_False
    by (pose proof (drop_fits_weak _ _ _ _ (pos + 8 + 4 + length (MsgPayload m)) E2); lia).
  rewrite (slice_drop _ _ _ _ _ E2), wrap_s_wrap_u, wrap_s_small by (done || lia).
  rewrite IH.
  - f_equal. f_equal; [unfold enc_message; rewrite !length_app; lia|].
    rewrite <- app_assoc. by destruct m.
  - eapply drop_fits_weak; [exact E2|lia|lia].
  - eapply drop_advance; [exact E2|lia].
Qed.

Lemma u64_i64 z : 0 <= z < 2 ^ 64 -> u64 (i64 z) = z /\ in_i64 (i64 z).
Proof.
  intros Hz. unfold wrap_s, wrap_u, in_i64. change (2 ^ (64 - 1)) with (2 ^ 63).
  pose proof (Z.mod_pos_bound (z + 2 ^ 63) (2 ^ 64) ltac:(lia)). split; [|lia].
  rewrite Zminus_mod_idemp_l. rewrite Z.add_simpl_r. apply Z.mod_small. lia.
Qed.

Lemma decodeFetchLoop_sound n payload pos out pos' out' :
  (pos <= length payload)%nat ->
  decodeFetchLoop n payload pos out = Ok (pos', out') ->
  exists ms, length ms = n /\ out' = out ++ ms /\
    Forall (fun m => in_i64 (Offset m) /\ zlen (MsgPayload m) < 2 ^ 32) ms /\
    (pos' <= length payload)%nat /\
    drop pos payload = concat (map enc_message ms) ++ drop pos' payload.
Proof.
  revert pos out. induction n as [|n IH]; intros pos out Hpos H; simpl in H.
  { simplify_eq. exists []. by rewrite app_nil_r. }
  repeat case_decide; try done.
  pose proof (be_val_slice_bound payload pos (pos + 8) 8 ltac:(lia) ltac:(lia) ltac:(lia)) as Hb8.
  pose proof (be_val_slice_bound payload (pos + 8) (pos + 8 + 4) 4 ltac:(lia) ltac:(lia) ltac:(lia)) as Hb.
  set (l := Z.to_nat (be_val (slice (pos + 8) (pos + 8 + 4) payload))) in *.
  destruct (slice_cut payload pos (pos + 8)) as [E0 L0]; [lia..|].
  destruct (slice_cut payload (pos + 8) (pos + 8 + 4)) as [E1 L1]; [lia..|].
  destruct (slice_cut payload (pos + 8 + 4) (pos + 8 + 4 + l)) as [E2 L2]; [lia..|].
  assert (zlen (slice (pos + 8 + 4) (pos + 8 + 4 + l) payload) =
          be_val (slice (pos + 8) (pos + 8 + 4) payload)) as EL by (rewrite L2; subst l; lia).
  destruct (u64_i64 (be_val (slice pos (pos + 8) payload))) as [EU Ei]; [lia|].
  apply IH in H as (ms & <- & -> & HF & Hle & E); [|lia].
  eexists (mkBatchMessage _ _ :: ms). split_and!; try done.
  - by rewrite <- app_assoc.
  - constructor; [|done]. simpl. split; [done|]. rewrite EL. lia.
  - cbn [map concat]. unfold enc_message at 1. cbn [Offset MsgPayload].
    rewrite EL, EU, !be_bytes_slice by lia.
    rewrite E0, E1, E2, E. by rewrite <- !app_assoc.
Qed.

(** [DecodeFetchResponse] accepts exactly the encodings of message lists that
    fit the wire format (signed 64-bit offsets included) and inverts
    [EncodeFetchResponse] on them. *)
Theorem fetch_response_roundtrip payload ms :
  DecodeFetchResponse payload = Ok ms <-> fetch_fits ms /\ payload = EncodeFetchResponse ms.
Proof.
  unfold DecodeFetchResponse, EncodeFetchResponse, fetch_fits. split.
  - intros H. case_decide as H2; [done|].
    destruct (decodeFetchLoop _ _ _ _) as [[pos out]|] eqn:EL; [|done].
    simpl in H. case_decide as Hpos; [|done]. simplify_eq.
    apply decodeFetchLoop_sound in EL as (ps' & Hn & -> & HF & _ & E); [|lia].
    rewrite drop_all, app_nil_r in E.
    destruct (slice_cut payload 0 2) as [E0 _]; [lia..|].
    pose proof (be_val_slice_bound payload 0 2 2 ltac:(lia) ltac:(lia) ltac:(lia)) as Hb.
    simpl. split_and!; [lia|done|].
    rewrite drop_0 in E0. rewrite E0 at 1.
    rewrite E, Hn, Z2Nat.id, be_bytes_slice by lia. done.
  - intros [[Hn HF] ->].
    assert (length (be_bytes 2 (zlen ms)) = 2)%nat as L2 by apply length_be_bytes.
    rewrite decide_False by (rewrite length_app; lia).
    rewrite slice_prefix by lia. rewrite be_val_bytes_small by lia. rewrite Nat2Z.id.
    rewrite (decodeFetchLoop_complete ms _ _ _ []); [|done| |].
    + simpl. rewrite decide_True; [done|]. rewrite length_app, L2. lia.
    + rewrite length_app. lia.
    + rewrite app_nil_r. rewrite <- L2. apply drop_app_length.
Qed.

(** ** Frames and the fixed-size codecs *)

(** [Decode] and [Encode] are inverse on frames that fit. *)
Lemma Decode_Encode r f rest :
  Decode r = Ok (f, rest) <-> frame_fits f /\ r = Encode f ++ rest.
Proof.
  unfold Decode, Encode, frame_fits. split.
  - intros H. destruct (read_full 8 r) as [[h r1]|] eqn:E1; [|done]. simpl in H.
    apply read_full_inv in E1 as [-> Lh].
    do 8 (destruct h as [|? h]; [done|]). destruct h; [|done].
    go_case; [|done]. go_bool. revert H. simpl.
    set (tl := Z.to_nat (byte_val b2)). set (pl := Z.to_nat (be_val _)). intros H.
    destruct (read_full (tl + pl) r1) as [[body r2]|] eqn:E2; [|done]. simpl in H. simplify_eq.
    apply read_full_inv in E2 as [-> Lb]. simpl. rewrite bs_of_str.
    pose proof (byte_val_range b2). change (slice 4 8 _) with [b3; b4; b5; b6] in pl.
    pose proof (be_val_bound [b3; b4; b5; b6]) as Hpl. pose proof (be_val_nonneg [b3; b4; b5; b6]).
    assert (zlen (take tl body) = byte_val b2) as -> by (rewrite length_take; subst tl; lia).
    assert (zlen (drop tl body) = be_val [b3; b4; b5; b6]) as -> by (rewrite length_drop; subst pl; lia).
    split; [simpl in Hpl; lia|].
    rewrite byte_of_val. rewrite (be_bytes_val_n 4) by done.
    change (slice 0 2 _) with [b; b0] in Heqb7. rewrite <- Heqb7, (be_bytes_val_n 2) by done.
    simpl. by rewrite take_drop.
  - intros [[Ht Hp] ->]. set (t := bs_of (Topic f)) in *. set (p := Payload f) in *.
    set (h := be_bytes 2 Magic ++ [Op f] ++ [byte_of (zlen t)] ++ be_bytes 4 (zlen p)).
    replace ((be_bytes 2 Magic ++ [Op f] ++ [byte_of (zlen t)] ++ be_bytes 4 (zlen p) ++ t ++ p) ++ rest)
      with (h ++ (t ++ p) ++ rest) by (subst h; by rewrite <- !app_assoc).
    assert (length h = 8)%nat as Lh by (subst h; rewrite !length_app, !length_be_bytes; done).
    rewrite (read_full_app 8 h) by done. simpl.
    assert (slice 0 2 h = be_bytes 2 Magic) as -> by (apply slice_prefix; by rewrite length_be_bytes).
    change (be_val (be_bytes 2 Magic) =? Magic) with true. cbv iota.
    assert (h !! 2%nat = Some (Op f)) as ->.
    { subst h. rewrite lookup_app_r by (rewrite length_be_bytes; lia). by rewrite length_be_bytes. }
    assert (h !! 3%nat = Some (byte_of (zlen t))) as ->.
    { subst h. rewrite lookup_app_r by (rewrite length_be_bytes; lia). by rewrite length_be_bytes. }
    assert (slice 4 8 h = be_bytes 4 (zlen p)) as ->.
    { subst h. replace (be_bytes 2 Magic ++ [Op f] ++ [byte_of (zlen t)] ++ be_bytes 4 (zlen p))
        with ((be_bytes 2 Magic ++ [Op f] ++ [byte_of (zlen t)]) ++ be_bytes 4 (zlen p) ++ [])
        by (by rewrite <- !app_assoc, app_nil_r).
      apply slice_app; rewrite !length_app, !length_be_bytes; done. }
    simpl. rewrite byte_val_of, Z.mod_small, be_val_bytes_small, !Nat2Z.id by lia.
    rewrite (read_full_app _ (t ++ p)) by (by rewrite length_app). simpl.
    rewrite take_app_length, drop_app_length. subst t p. rewrite str_of_bs. by destruct f.
Qed.

(** A frame whose topic and payload fit the header's length fields is decoded
    back from the front of any byte stream, leaving the rest of the stream; and
    every frame [Decode] returns is one that fits and whose encoding was consumed. *)
Theorem frame_roundtrip r f rest :
  Decode r = Ok (f, rest) <-> frame_fits f /\ r = Encode f ++ rest.
Proof. apply Decode_Encode. Qed.

(** The keyed-publish payload: decoding returns the key and the message for
    every key of at most 65535 bytes, and a decoded payload re-encodes to itself. *)
Theorem keyed_payload_roundtrip p key payload :
  DecodeKeyedPayload p = Ok (key, payload) <->
  zlen (bs_of key) < 2 ^ 16 /\ p = EncodeKeyedPayload key payload.
Proof.
  unfold DecodeKeyedPayload, EncodeKeyedPayload. split.
  - intros H. repeat case_decide; try done. simplify_eq.
    destruct (slice_cut p 0 2) as [E0 _]; [lia..|].
    pose proof (be_val_slice_bound p 0 2 2 ltac:(lia) ltac:(lia) ltac:(lia)) as Hb.
    set (k := Z.to_nat (be_val (slice 0 2 p))) in *.
    destruct (slice_cut p 2 (2 + k)) as [E1 L1]; [lia..|].
    rewrite bs_of_str. change (S (S k)) with (2 + k)%nat. assert (zlen (slice 2 (2 + k) p) = be_val (slice 0 2 p)) as -> by lia.
    split; [lia|]. rewrite be_bytes_slice, <- E1, <- E0 by lia. by rewrite drop_0.
  - intros [Hk ->]. set (k := bs_of key) in *.
    assert (length (be_bytes 2 (zlen k)) = 2)%nat as L2 by apply length_be_bytes.
    rewrite decide_False by (rewrite !length_app; lia).
    rewrite slice_prefix by lia. rewrite be_val_bytes_small, Nat2Z.id by lia.
    rewrite decide_False by (rewrite !length_app; lia).
    rewrite slice_app by lia. rewrite app_assoc.
    replace (2 + length k)%nat with (length (be_bytes 2 (zlen k) ++ k)) by (rewrite length_app; lia).
    rewrite drop_app_length. subst k. by rewrite str_of_bs.
Qed.

(** Batch acknowledgements and fetch requests are fixed-size: decoding gives
    back 64-bit offsets with their sign and the count at its field's width, and
    every payload of another size is refused. *)
Theorem fixed_size_roundtrips first last count offset maxCount payload :
  in_i64 first -> in_i64 last -> 0 <= count < 2 ^ 16 ->
  in_i64 offset -> 0 <= maxCount < 2 ^ 32 ->
  DecodeBatchAck (EncodeBatchAck first last count) = Ok (first, last, count) /\
  DecodeFetchRequest (EncodeFetchRequest offset maxCount) = Ok (offset, maxCount) /\
  (length payload <> 18%nat -> DecodeBatchAck payload = Err ErrBadPayload) /\
  (length payload <> 12%nat -> DecodeFetchRequest payload = Err ErrBadPayload).
Proof.
  intros Hf Hl Hc Ho Hm.
  assert (forall z, length (be_bytes 8 z) = 8%nat) as L8 by (intros; apply length_be_bytes).
  assert (forall z, be_val (be_bytes 8 (u64 z)) = u64 z) as V8.
  { intros z. apply be_val_bytes_small. apply (wrap_u_range 64). lia. }
  split_and!.
  - unfold DecodeBatchAck, EncodeBatchAck.
    rewrite decide_True by (rewrite !length_app, !length_be_bytes; done).
    rewrite slice_prefix by (by rewrite L8).
    rewrite slice_app by (rewrite !L8; done).
    rewrite <- (app_nil_r (be_bytes 2 _)), app_assoc, slice_app
      by (rewrite !length_app, !length_be_bytes; done).
    rewrite !V8, !wrap_s_wrap_u, !wrap_s_small, be_val_bytes_small by (done || (rewrite ?wrap_u_small; lia)).
    by rewrite wrap_u_small by lia.
  - unfold DecodeFetchRequest, EncodeFetchRequest.
    rewrite decide_True by (rewrite !length_app, !length_be_bytes; done).
    rewrite slice_prefix by (by rewrite L8).
    rewrite <- (app_nil_r (be_bytes 4 _)), slice_app by (rewrite ?length_be_bytes; done).
    rewrite !V8, !wrap_s_wrap_u, !wrap_s_small, be_val_bytes_small by (done || (rewrite ?wrap_u_small; lia)).
    by rewrite wrap_u_small by lia.
  - intros. unfold DecodeBatchAck. by rewrite decide_False.
  - intros. unfold DecodeFetchRequest. by rewrite decide_False.
Qed.

Lemma fixed_size_roundtrips_witness :
  DecodeBatchAck (EncodeBatchAck (-1) 41 3) = Ok (-1, 41, 3) /\
  DecodeFetchRequest (EncodeFetchRequest (-7) 4096) = Ok (-7, 4096).
Proof.
  destruct (fixed_size_roundtrips (-1) 41 3 (-7) 4096 []) as (H1 & H2 & _); unfold in_i64; try lia.
  split; assumption.
Defined.
End Wire.
