(* ===== verification/WalFormat.v ===== *)
(** * The write-ahead log's record format and replay (internal/wal/wal.go)

    [encode_record] is the part of [Log.AppendRecord] that validates a record and
    lays out its bytes (version 3: header, topic, key, payload, CRC32C trailer);
    [readV1Record], [readV2Record] and [ReplayWithOptions] are the recovery path.
    The group-commit protocol that puts the bytes on disk is in [WalLog]. *)

From S2P Require Import Prelude GoLib.
Open Scope Z_scope.
Open Scope go_scope.

Module Wal.

Inductive wal_err :=
| ErrCorruptRecord
| ErrInvalidSyncMode
| ErrPayloadTooLarge
| ErrIO (e : io_err)
| ErrCallback (code : Z)   (* an error the replay callback returned *)
| ErrSys (code : Z).       (* an error of the operating system *)

Definition MaxPayloadSize : Z := Z.shiftl 64 20.

Record WalRecord := mkRecord {
  Timestamp : Z;
  Topic : string;
  Key : string;
  Partition : Z;
  Payload : bytes
}.

Record ReplayOptions := mkReplayOptions { AllowPartialTail : bool }.

Definition DefaultReplayOptions : ReplayOptions := mkReplayOptions true.

(** [header[2:]] of a version 3 record: version, flags, timestamp, partition and
    the three lengths. *)
Definition record_header (rec : WalRecord) : bytes :=
  [Byte.x03; Byte.x00] ++
  be_bytes 8 (u64 (Timestamp rec)) ++
  be_bytes 4 (u32 (Partition rec)) ++
  be_bytes 2 (zlen (bs_of (Topic rec))) ++
  be_bytes 2 (zlen (bs_of (Key rec))) ++
  be_bytes 4 (zlen (Payload rec)).

Definition record_body (rec : WalRecord) : bytes :=
  bs_of (Topic rec) ++ bs_of (Key rec) ++ Payload rec.

(** The running checksum over the four [h.Write] calls. *)
Definition record_crc (rec : WalRecord) : Z :=
  crc_update (crc_update (crc_update (crc_update 0 (record_header rec))
    (bs_of (Topic rec))) (bs_of (Key rec))) (Payload rec).

(** The bytes the five [l.w.Write] calls put into the buffer. *)
Definition record_bytes (rec : WalRecord) : bytes :=
  [Byte.x47; Byte.x57] ++ record_header rec ++ record_body rec ++
  be_bytes 4 (record_crc rec).

(** [AppendRecord] up to the mutex: the guards, in order, and the encoding.
    [now] is [time.Now().UnixNano()], used for a zero timestamp. *)
Definition encode_record (now : Z) (rec : WalRecord) : result wal_err bytes :=
  if (Partition rec =? 0) && bool_decide (Topic rec = "") then Err ErrCorruptRecord
  else
    let rec := if Timestamp rec =? 0 then {| rec with Timestamp := now |} else rec in
    if Partition rec <? -1 then Err ErrCorruptRecord
    else if 0xFFFF <? zlen (bs_of (Topic rec)) then Err ErrCorruptRecord
    else if 0xFFFF <? zlen (bs_of (Key rec)) then Err ErrCorruptRecord
    else if MaxPayloadSize <? zlen (Payload rec) then Err ErrPayloadTooLarge
    else Ok (record_bytes rec).

(** [readFull] with the partial-tail rule that every read of a record applies:
    [None] ends the replay without an error. *)
Definition read_or_tail (opts : ReplayOptions) (n : nat) (r : bytes) :
    result wal_err (option (bytes * bytes)) :=
  match read_full n r with
  | Ok x => Ok (Some x)
  | Err UnexpectedEOF =>
      if AllowPartialTail opts then Ok None else Err (ErrIO UnexpectedEOF)
  | Err EOF => Err (ErrIO EOF)
  end.

Definition nth_byte (b : bytes) (i : nat) : byte := default Byte.x00 (b !! i).

(** The reader is past the magic. A [None] result is the [nil, nil] return. *)
Definition readV2Record (opts : ReplayOptions) (r : bytes) :
    result wal_err (option (WalRecord * bytes)) :=
  let? h := read_or_tail opts 22 r in
  match h with
  | None => Ok None
  | Some (header, r) =>
    let version := nth_byte header 0 in
    if negb (bool_decide (version = Byte.x02)) && negb (bool_decide (version = Byte.x03))
    then Err ErrCorruptRecord
    else
      let topicLen := be_val (slice 14 16 header) in
      let keyLen := be_val (slice 16 18 header) in
      let payloadLen := be_val (slice 18 22 header) in
      if (payloadLen <? 0) || (MaxPayloadSize <? payloadLen) then Err ErrCorruptRecord
      else
        let? b := read_or_tail opts (Z.to_nat (topicLen + keyLen + payloadLen)) r in
        match b with
        | None => Ok None
        | Some (body, r) =>
          let topicEnd := Z.to_nat topicLen in
          let keyEnd := Z.to_nat (topicLen + keyLen) in
          let rec := mkRecord
            (i64 (be_val (slice 2 10 header)))
            (str_of (take topicEnd body))
            (str_of (slice topicEnd keyEnd body))
            (i32 (be_val (slice 10 14 header)))
            (drop keyEnd body) in
          if bool_decide (version = Byte.x03) then
            let? c := read_or_tail opts 4 r in
            match c with
            | None => Ok None
            | Some (crcBuf, r) =>
              if crc_update (crc_update 0 header) body =? be_val crcBuf
              then Ok (Some (rec, r)) else Err ErrCorruptRecord
            end
          else Ok (Some (rec, r))
        end
  end.

Definition readV1Record (opts : ReplayOptions) (prefix r : bytes) :
    result wal_err (option (WalRecord * bytes)) :=
  let? h := read_or_tail opts 12 r in
  match h with
  | None => Ok None
  | Some (headerRest, r) =>
    let header := prefix ++ headerRest in
    let topicLen := be_val (slice 8 10 header) in
    let payloadLen := be_val (slice 10 14 header) in
    if (topicLen <? 0) || (payloadLen <? 0) || (MaxPayloadSize <? payloadLen)
    then Err ErrCorruptRecord
    else
      let? b := read_or_tail opts (Z.to_nat (topicLen + payloadLen)) r in
      match b with
      | None => Ok None
      | Some (body, r) =>
        Ok (Some (mkRecord (i64 (be_val (slice 0 8 header)))
                    (str_of (take (Z.to_nat topicLen) body)) "" (-1)
                    (drop (Z.to_nat topicLen) body), r))
      end
  end.

(** One iteration of the replay loop: [None] ends it with a nil error. *)
Definition replay_next (opts : ReplayOptions) (r : bytes) :
    result wal_err (option (WalRecord * bytes)) :=
  match read_full 2 r with
  | Err EOF => Ok None
  | Err UnexpectedEOF =>
      if AllowPartialTail opts then Ok None else Err (ErrIO UnexpectedEOF)
  | Ok (prefix, r) =>
      if bool_decide (nth_byte prefix 0 = Byte.x47) && bool_decide (nth_byte prefix 1 = Byte.x57)
      then readV2Record opts r
      else readV1Record opts prefix r
  end.

(** The loop, with the state [S] that the callback [fn] updates. [None] is out of
    fuel; the second component of the pair is the error [ReplayWithOptions] returns. *)
Fixpoint replay_loop {S : Type} (fuel : nat) (opts : ReplayOptions)
    (fn : S -> WalRecord -> S * option Z) (r : bytes) (s : S) : option (S * option wal_err) :=
  match fuel with
  | O => None
  | S fuel =>
      match replay_next opts r with
      | Err e => Some (s, Some e)
      | Ok None => Some (s, None)
      | Ok (Some (rec, r)) =>
          match fn s rec with
          | (s, Some code) => Some (s, Some (ErrCallback code))
          | (s, None) => replay_loop fuel opts fn r s
          end
      end
  end.

(** What [os.Open] finds at the path. *)
Inductive wal_file := Missing | Unreadable (code : Z) | Contents (b : bytes).

Definition ReplayWithOptions {S : Type} (f : wal_file) (opts : ReplayOptions)
    (fn : S -> WalRecord -> S * option Z) (s : S) : option (S * option wal_err) :=
  match f with
  | Missing => Some (s, None)
  | Unreadable code => Some (s, Some (ErrSys code))
  | Contents b => replay_loop (Datatypes.S (length b)) opts fn b s
  end.

Definition Replay {S : Type} (f : wal_file) (fn : S -> WalRecord -> S * option Z) (s : S) :=
  ReplayWithOptions f DefaultReplayOptions fn s.

(** The callback that collects the records in order. *)
Definition collect (acc : list WalRecord) (rec : WalRecord) : list WalRecord * option Z :=
  (acc ++ [rec], None).

(** Records as [AppendRecord] accepts them, with the timestamp already chosen and
    the fields in the range of their Go types. *)
Definition record_ok (rec : WalRecord) : Prop :=
  in_i64 (Timestamp rec) /\ in_i32 (Partition rec) /\
  zlen (bs_of (Topic rec)) <= 0xFFFF /\ zlen (bs_of (Key rec)) <= 0xFFFF /\
  zlen (Payload rec) <= MaxPayloadSize.

(** ** The layout of a record *)

Lemma length_record_header rec : length (record_header rec) = 22%nat.
Proof. unfold record_header. rewrite !length_app, !length_be_bytes. done. Qed.

Lemma header_slices rec :
  let h := record_header rec in
  slice 2 10 h = be_bytes 8 (u64 (Timestamp rec)) /\
  slice 10 14 h = be_bytes 4 (u32 (Partition rec)) /\
  slice 14 16 h = be_bytes 2 (zlen (bs_of (Topic rec))) /\
  slice 16 18 h = be_bytes 2 (zlen (bs_of (Key rec))) /\
  slice 18 22 h = be_bytes 4 (zlen (Payload rec)).
Proof.
  unfold record_header. cbv zeta.
  set (a := [Byte.x03; Byte.x00]). set (b := be_bytes 8 _). set (c := be_bytes 4 (u32 _)).
  set (d := be_bytes 2 (zlen (bs_of (Topic rec)))). set (e := be_bytes 2 (zlen (bs_of (Key rec)))).
  set (g := be_bytes 4 _).
  assert (length a = 2 /\ length b = 8 /\ length c = 4 /\ length d = 2 /\ length e = 2 /\ length g = 4)%nat
    as (La & Lb & Lc & Ld & Le & Lg) by (subst a b c d e g; rewrite !length_be_bytes; done).
  split_and!.
  - apply slice_app; lia.
  - rewrite (app_assoc a b). apply slice_app; rewrite ?length_app; lia.
  - rewrite (app_assoc a b), (app_assoc (a ++ b) c). apply slice_app; rewrite ?length_app; lia.
  - rewrite (app_assoc a b), (app_assoc (a ++ b) c), (app_assoc ((a ++ b) ++ c) d).
    apply slice_app; rewrite ?length_app; lia.
  - rewrite (app_assoc a b), (app_assoc (a ++ b) c), (app_assoc ((a ++ b) ++ c) d),
      (app_assoc (((a ++ b) ++ c) ++ d) e).
    apply slice_last; rewrite ?length_app; lia.
Qed.

Lemma header_version rec : nth_byte (record_header rec) 0 = Byte.x03.
Proof. done. Qed.

Lemma header_lengths rec :
  record_ok rec ->
  be_val (slice 14 16 (record_header rec)) = zlen (bs_of (Topic rec)) /\
  be_val (slice 16 18 (record_header rec)) = zlen (bs_of (Key rec)) /\
  be_val (slice 18 22 (record_header rec)) = zlen (Payload rec).
Proof.
  intros (_ & _ & Ht & Hk & Hp). destruct (header_slices rec) as (_ & _ & -> & -> & ->).
  unfold MaxPayloadSize in Hp. change (Z.shiftl 64 20) with 67108864 in Hp.
  rewrite !be_val_bytes_small by lia. done.
Qed.

Lemma record_crc_eq rec :
  record_crc rec = crc_update (crc_update 0 (record_header rec)) (record_body rec).
Proof. unfold record_crc, record_body. by rewrite !crc_update_app. Qed.

Lemma record_crc_range rec : 0 <= record_crc rec < 256 ^ Z.of_nat 4.
Proof. unfold record_crc. apply crc_update_range, crc_update_range, crc_update_range, crc_update_range. lia. Qed.

Lemma i64_u64 z : in_i64 z -> i64 (u64 z) = z.
Proof. intros. rewrite wrap_s_wrap_u. by apply wrap_s_small. Qed.

Lemma i32_u32 z : in_i32 z -> i32 (u32 z) = z.
Proof. intros. rewrite wrap_s_wrap_u. by apply wrap_s_small. Qed.

(** The reader sees a header with a record's lengths and a body of that size: what
    [readV2Record] then does depends only on the checksum. *)
Lemma readV2_shape opts rec header body crc rest :
  record_ok rec -> length header = 22%nat ->
  nth_byte header 0 = Byte.x03 ->
  slice 14 22 header = slice 14 22 (record_header rec) ->
  length body = length (record_body rec) -> length crc = 4%nat ->
  readV2Record opts (header ++ body ++ crc ++ rest) =
    (if crc_update (crc_update 0 header) body =? be_val crc then
       Ok (Some (mkRecord (i64 (be_val (slice 2 10 header)))
                   (str_of (take (length (bs_of (Topic rec))) body))
                   (str_of (slice (length (bs_of (Topic rec)))
                      (length (bs_of (Topic rec)) + length (bs_of (Key rec))) body))
                   (i32 (be_val (slice 10 14 header)))
                   (drop (length (bs_of (Topic rec)) + length (bs_of (Key rec))) body), rest))
     else Err ErrCorruptRecord).
Proof.
  intros Hok Lh Hv Hs Lb Lc. unfold readV2Record, read_or_tail.
  rewrite (read_full_app 22 header) by done. cbn [result_bind]. rewrite Hv. cbn [negb andb].
  change (bool_decide (Byte.x03 = Byte.x02)) with false.
  change (bool_decide (Byte.x03 = Byte.x03)) with true. cbn [negb andb].
  assert (forall i j, (14 <= i)%nat -> (i <= j)%nat -> (j <= 22)%nat ->
            slice i j header = slice i j (record_header rec)) as Hsub.
  { intros i j Hi Hij Hj.
    assert (forall h, slice i j h = slice (i - 14) (j - 14) (slice 14 22 h)) as HH.
    { intros h. unfold slice. rewrite skipn_firstn_comm, drop_drop, take_take.
      f_equal; [lia|]. f_equal. lia. }
    by rewrite HH, Hs, <- HH. }
  destruct (header_lengths rec Hok) as (Et & Ek & Ep).
  rewrite !Hsub, Et, Ek, Ep by lia.
  destruct Hok as (_ & _ & Ht & Hk & Hp).
  replace (zlen (Payload rec) <? 0) with false by (symmetry; apply Z.ltb_ge; lia).
  replace (MaxPayloadSize <? zlen (Payload rec)) with false by (symmetry; apply Z.ltb_ge; lia).
  cbn [orb].
  unfold record_body in Lb. rewrite !length_app in Lb.
  rewrite (read_full_app _ body) by lia. cbn [result_bind].
  rewrite (read_full_app 4 crc) by done. cbn [result_bind].
  rewrite Nat2Z.id. rewrite Z2Nat.inj_add, !Nat2Z.id by lia. done.
Qed.

Lemma readV2_record opts rec rest :
  record_ok rec ->
  readV2Record opts (record_header rec ++ record_body rec ++ be_bytes 4 (record_crc rec) ++ rest)
    = Ok (Some (rec, rest)).
Proof.
  intros Hok. rewrite (readV2_shape opts rec);
    [|done|apply length_record_header|done|done|done|apply length_be_bytes].
  rewrite be_val_bytes_small, <- record_crc_eq, Z.eqb_refl by apply record_crc_range.
  destruct (header_slices rec) as (-> & -> & _).
  rewrite !be_val_bytes_small by (apply (wrap_u_range 64) || apply (wrap_u_range 32); lia).
  destruct Hok as (Hts & Hpt & _). rewrite i64_u64, i32_u32 by done.
  unfold record_body.
  rewrite take_app_length, slice_app by done.
  rewrite app_assoc. rewrite <- length_app, drop_app_length, !str_of_bs. by destruct rec.
Qed.

Lemma replay_next_record opts rec rest :
  record_ok rec -> replay_next opts (record_bytes rec ++ rest) = Ok (Some (rec, rest)).
Proof.
  intros Hok. unfold replay_next, record_bytes. rewrite <- !app_assoc.
  rewrite (read_full_app 2 [Byte.x47; Byte.x57]) by done.
  change (bool_decide _ && bool_decide _) with true. by apply readV2_record.
Qed.

Lemma length_record_bytes rec :
  length (record_bytes rec) = (28 + length (record_body rec))%nat.
Proof.
  unfold record_bytes. rewrite !length_app, length_record_header, length_be_bytes. simpl. lia.
Qed.

(** ** Totality: the loop never runs out of the fuel it is given *)

Lemma read_or_tail_inv opts n r a r' :
  read_or_tail opts n r = Ok (Some (a, r')) -> r = a ++ r' /\ length a = n.
Proof.
  unfold read_or_tail. intros H. repeat go_case; simplify_eq. by apply read_full_inv.
Qed.

Lemma readV2_consumes opts r rec r' :
  readV2Record opts r = Ok (Some (rec, r')) -> (length r' < length r)%nat.
Proof.
  unfold readV2Record. intros H.
  destruct (read_or_tail opts 22 r) as [[[h r1]|]|] eqn:E1; [|done..].
  apply read_or_tail_inv in E1 as [-> L1]. cbn [result_bind] in H.
  repeat (go_case; try done); simplify_eq;
  repeat match goal with
  | H : result_bind _ _ = _ |- _ => unfold result_bind in H
  | H : match ?x with _ => _ end = _ |- _ => destruct x eqn:?; try done
  | H : read_or_tail _ _ _ = Ok (Some _) |- _ => apply read_or_tail_inv in H as [-> ?]
  | H : Ok (Some _) = Ok (Some _) |- _ => injection H as <- <-
  end; rewrite ?length_app in *; lia.
Qed.

Lemma readV1_consumes opts prefix r rec r' :
  readV1Record opts prefix r = Ok (Some (rec, r')) -> (length r' < length r)%nat.
Proof.
  unfold readV1Record. intros H.
  repeat match goal with
  | H : result_bind _ _ = _ |- _ => unfold result_bind in H
  | H : match ?x with _ => _ end = _ |- _ => destruct x eqn:?; try done
  | H : read_or_tail _ _ _ = Ok (Some _) |- _ => apply read_or_tail_inv in H as [-> ?]
  | H : Ok (Some _) = Ok (Some _) |- _ => injection H as <- <-
  end; rewrite ?length_app in *; lia.
Qed.

Lemma replay_next_consumes opts r rec r' :
  replay_next opts r = Ok (Some (rec, r')) -> (length r' < length r)%nat.
Proof.
  unfold replay_next. intros H.
  destruct (read_full 2 r) as [[p r1]|[]] eqn:E; [|done|by go_case].
  apply read_full_inv in E as [-> L]. rewrite length_app.
  go_case; [apply readV2_consumes in H|apply readV1_consumes in H]; lia.
Qed.

Lemma replay_loop_total {S} fuel opts (fn : S -> WalRecord -> S * option Z) r s :
  (length r < fuel)%nat -> is_Some (replay_loop fuel opts fn r s).
Proof.
  revert r s. induction fuel as [|fuel IH]; intros r s Hf; [lia|]. simpl.
  destruct (replay_next opts r) as [[[rec r']|]|e] eqn:E; [|by eexists..].
  destruct (fn s rec) as [s' [code|]]; [by eexists|].
  apply IH. apply replay_next_consumes in E. lia.
Qed.

Lemma replay_loop_mono {S} fuel k opts (fn : S -> WalRecord -> S * option Z) r s x :
  replay_loop fuel opts fn r s = Some x -> replay_loop (fuel + k) opts fn r s = Some x.
Proof.
  revert r s. induction fuel as [|fuel IH]; intros r s H; [done|]. simpl in *.
  destruct (replay_next opts r) as [[[rec r']|]|e]; [|done..].
  destruct (fn s rec) as [s' [code|]]; [done|]. by apply IH.
Qed.

(** ** Replaying a sequence of records *)

(** The callback run over a list of records, stopping at its first error. *)
Fixpoint run_callback {S} (fn : S -> WalRecord -> S * option Z) (recs : list WalRecord) (s : S) :
    S * option Z :=
  match recs with
  | [] => (s, None)
  | rec :: recs =>
      match fn s rec with
      | (s, Some code) => (s, Some code)
      | (s, None) => run_callback fn recs s
      end
  end.

Lemma replay_loop_records {S} recs fuel opts (fn : S -> WalRecord -> S * option Z) tail s :
  Forall record_ok recs ->
  replay_loop (length recs + fuel) opts fn (concat (map record_bytes recs) ++ tail) s =
    match run_callback fn recs s with
    | (s, Some code) => Some (s, Some (ErrCallback code))
    | (s, None) => replay_loop fuel opts fn tail s
    end.
Proof.
  intros HF. revert s. induction HF as [|rec recs Hr HF IH]; intros s; [done|].
  cbn [map concat length Nat.add replay_loop run_callback]. rewrite <- app_assoc.
  rewrite replay_next_record by done. destruct (fn s rec) as [s' [code|]]; [done|]. apply IH.
Qed.

Lemma length_concat_records recs :
  (length recs <= length (concat (map record_bytes recs)))%nat.
Proof.
  induction recs as [|rec recs IH]; cbn [map concat length]; [lia|].
  rewrite length_app, length_record_bytes. lia.
Qed.

(** Replaying whole records followed by a tail, with any callback: what the loop
    does at the tail decides the rest. *)
Lemma replay_records_tail {S} recs opts (fn : S -> WalRecord -> S * option Z) tail s s' res :
  Forall record_ok recs -> run_callback fn recs s = (s', None) ->
  replay_loop (Datatypes.S (length tail)) opts fn tail s' = Some res ->
  ReplayWithOptions (Contents (concat (map record_bytes recs) ++ tail)) opts fn s = Some res.
Proof.
  intros HF Hrun Htail. cbn [ReplayWithOptions]. rewrite length_app.
  pose proof (length_concat_records recs).
  set (k := (length (concat (map record_bytes recs)) - length recs)%nat).
  replace (Datatypes.S _) with ((length recs + Datatypes.S (length tail)) + k)%nat
    by (subst k; lia).
  apply replay_loop_mono. by rewrite replay_loop_records, Hrun.
Qed.

Lemma run_collect recs acc : run_callback collect recs acc = (acc ++ recs, None).
Proof.
  revert acc. induction recs as [|r recs IH]; intros acc; simpl; [by rewrite app_nil_r|].
  rewrite IH. by rewrite <- app_assoc.
Qed.

(** ** The claims about recovery *)

(** C34. Replay is total and faithful: the records that [AppendRecord] encoded, read
    back from a log that holds exactly their bytes, are delivered to any callback
    in order and unchanged, up to the callback's first error. *)
Theorem replay_roundtrip {S} opts (fn : S -> WalRecord -> S * option Z) recs s :
  Forall record_ok recs ->
  ReplayWithOptions (Contents (concat (map record_bytes recs))) opts fn s =
    match run_callback fn recs s with
    | (s', Some code) => Some (s', Some (ErrCallback code))
    | (s', None) => Some (s', None)
    end.
Proof.
  intros HF. destruct (run_callback fn recs s) as [s' [code|]] eqn:E.
  - cbn [ReplayWithOptions]. pose proof (length_concat_records recs).
    set (k := (length (concat (map record_bytes recs)) - length recs)%nat).
    replace (Datatypes.S _) with ((length recs + 1) + k)%nat by (subst k; lia).
    apply replay_loop_mono. rewrite <- (app_nil_r (concat _)).
    by rewrite replay_loop_records, E.
  - rewrite <- (app_nil_r (concat _)). by eapply replay_records_tail.
Qed.

Definition sample_record : WalRecord :=
  mkRecord 7 "workflow-events" "acme/bot/s1" 2 [Byte.x7b; Byte.x7d].

Lemma sample_record_ok : record_ok sample_record.
Proof. unfold record_ok, in_i64, in_i32, MaxPayloadSize. vm_compute. intuition congruence. Qed.

Lemma replay_roundtrip_witness :
  ReplayWithOptions (Contents (concat (map record_bytes [sample_record; sample_record])))
    DefaultReplayOptions collect [] = Some ([sample_record; sample_record], None).
Proof.
  rewrite (replay_roundtrip DefaultReplayOptions collect [sample_record; sample_record] []).
  - reflexivity.
  - repeat constructor; apply sample_record_ok.
Defined.

(** The encoder's guards: [AppendRecord] refuses a record with no topic and
    partition 0, a partition below -1, and a topic, key or payload longer than its
    length field or the payload cap, and encodes every other record, stamping a
    zero timestamp with the clock. *)
Theorem encode_record_spec now rec :
  in_i64 now -> in_i64 (Timestamp rec) -> in_i32 (Partition rec) ->
  match encode_record now rec with
  | Ok b =>
      let rec' := {| rec with Timestamp := if Timestamp rec =? 0 then now else Timestamp rec |} in
      record_ok rec' /\ b = record_bytes rec' /\
      (forall opts rest, replay_next opts (b ++ rest) = Ok (Some (rec', rest)))
  | Err ErrCorruptRecord =>
      (Partition rec = 0 /\ Topic rec = "") \/ Partition rec < -1 \/
      0xFFFF < zlen (bs_of (Topic rec)) \/ 0xFFFF < zlen (bs_of (Key rec))
  | Err ErrPayloadTooLarge => MaxPayloadSize < zlen (Payload rec)
  | Err _ => False
  end.
Proof.
  intros Hn Ht Hp. destruct rec as [ts tp ky pt pl]. unfold encode_record. simpl in *.
  destruct (pt =? 0) eqn:E1, (bool_decide (tp = "")) eqn:E2; simpl; go_bool; try by left.
  all: destruct (ts =? 0) eqn:E3; cbn [Timestamp Topic Key Partition Payload].
  all: destruct (pt <? -1) eqn:E4; go_bool; [by right; left|].
  all: destruct (0xFFFF <? zlen (bs_of tp)) eqn:E5; go_bool; [by right; right; left|].
  all: destruct (0xFFFF <? zlen (bs_of ky)) eqn:E6; go_bool; [by right; right; right|].
  all: destruct (MaxPayloadSize <? zlen pl) eqn:E7; go_bool; [done|].
  all: assert (forall t, in_i64 t -> record_ok (mkRecord t tp ky pt pl)) as Hok by
    (intros; unfold record_ok; simpl; split_and!; first [done|lia]).
  all: split_and!; [by apply Hok|done|intros; by apply replay_next_record, Hok].
Qed.

Lemma encode_record_spec_witness :
  encode_record 7 {| sample_record with Timestamp := 0 |} = Ok (record_bytes sample_record) /\
  record_ok sample_record.
Proof.
  pose proof (encode_record_spec 7 {| sample_record with Timestamp := 0 |}) as H.
  change (encode_record 7 {| sample_record with Timestamp := 0 |})
    with (@Ok wal_err bytes (record_bytes sample_record)) in H.
  destruct H as (H & _); [unfold in_i64; simpl; lia..|unfold in_i32; simpl; lia|].
  split; [reflexivity|exact H].
Defined.

(** Reading a record that stops after [k] of its bytes: an error exactly when the
    cut falls on the boundary of one of the reads. *)
Definition torn_outcome (opts : ReplayOptions) (rec : WalRecord) (k : nat) : option wal_err :=
  if decide (k = 0)%nat then None
  else if decide (k = 2 \/ k = 24 \/ k = 24 + length (record_body rec))%nat
  then Some (ErrIO EOF)
  else if AllowPartialTail opts then None
  else Some (ErrIO UnexpectedEOF).

Definition tail_result (o : option wal_err) : result wal_err (option (WalRecord * bytes)) :=
  match o with
  | None => Ok None
  | Some e => Err e
  end.

Lemma read_or_tail_short opts n r :
  r ≠ [] -> (length r < n)%nat ->
  read_or_tail opts n r =
    if AllowPartialTail opts then Ok None else Err (ErrIO UnexpectedEOF).
Proof. intros. unfold read_or_tail. by rewrite read_full_short. Qed.

Lemma read_or_tail_nil opts n : n ≠ 0%nat -> read_or_tail opts n [] = Err (ErrIO EOF).
Proof. intros. unfold read_or_tail. by rewrite read_full_nil. Qed.

Lemma read_or_tail_app opts n a r : length a = n -> read_or_tail opts n (a ++ r) = Ok (Some (a, r)).
Proof. intros. unfold read_or_tail. by rewrite read_full_app. Qed.

(** After a whole header: the reads of the body and of the checksum. *)
Lemma readV2_after_header opts rec r :
  record_ok rec ->
  readV2Record opts (record_header rec ++ r) =
    (let? b := read_or_tail opts (length (record_body rec)) r in
     match b with
     | None => Ok None
     | Some (body, r) =>
       let? c := read_or_tail opts 4 r in
       match c with
       | None => Ok None
       | Some (crcBuf, r) =>
         if crc_update (crc_update 0 (record_header rec)) body =? be_val crcBuf
         then Ok (Some (mkRecord (i64 (be_val (slice 2 10 (record_header rec))))
                   (str_of (take (length (bs_of (Topic rec))) body))
                   (str_of (slice (length (bs_of (Topic rec)))
                      (length (bs_of (Topic rec)) + length (bs_of (Key rec))) body))
                   (i32 (be_val (slice 10 14 (record_header rec))))
                   (drop (length (bs_of (Topic rec)) + length (bs_of (Key rec))) body), r))
         else Err ErrCorruptRecord
       end
     end).
Proof.
  intros Hok. unfold readV2Record at 1.
  rewrite (read_or_tail_app opts 22) by apply length_record_header. cbn [result_bind].
  rewrite header_version.
  change (bool_decide (Byte.x03 = Byte.x02)) with false.
  change (bool_decide (Byte.x03 = Byte.x03)) with true. cbn [negb andb].
  destruct (header_lengths rec Hok) as (-> & -> & ->). destruct Hok as (_ & _ & Ht & Hk & Hp).
  replace (zlen (Payload rec) <? 0) with false by (symmetry; apply Z.ltb_ge; lia).
  replace (MaxPayloadSize <? zlen (Payload rec)) with false by (symmetry; apply Z.ltb_ge; lia).
  cbn [orb].
  replace (Z.to_nat (zlen (bs_of (Topic rec)) + zlen (bs_of (Key rec)) + zlen (Payload rec)))
    with (length (record_body rec)) by (unfold record_body; rewrite !length_app; lia).
  rewrite Nat2Z.id, Z2Nat.inj_add, !Nat2Z.id by lia. done.
Qed.

Lemma take_nonempty {A} (l : list A) k : (0 < k)%nat -> (0 < length l)%nat -> take k l ≠ [].
Proof. intros ?? E. apply (f_equal length) in E. rewrite length_take in E. simpl in E. lia. Qed.

Lemma replay_next_torn opts rec k :
  record_ok rec -> (k < length (record_bytes rec))%nat ->
  replay_next opts (take k (record_bytes rec)) = tail_result (torn_outcome opts rec k).
Proof.
  intros Hok Hk. rewrite length_record_bytes in Hk.
  unfold replay_next, record_bytes, torn_outcome.
  pose proof (length_record_header rec) as LH.
  assert (length (be_bytes 4 (record_crc rec)) = 4)%nat as LC by apply length_be_bytes.
  destruct k as [|[|k]]; [done| |].
  { cbn. by destruct (AllowPartialTail opts). }
  change (take (S (S k)) ([Byte.x47; Byte.x57] ++ ?r)) with ([Byte.x47; Byte.x57] ++ take k r).
  rewrite (read_full_app 2) by done.
  change (bool_decide _ && bool_decide _) with true. cbv iota.
  rewrite (decide_False (P := S (S k) = 0%nat)) by lia.
  destruct (decide (k = 0)%nat) as [->|Hk0].
  { rewrite (decide_True (P := _ \/ _)) by lia. done. }
  destruct (decide (k < 22)%nat) as [Hlt|Hge].
  { rewrite (decide_False (P := _ \/ _)) by lia. unfold readV2Record.
    rewrite read_or_tail_short; [by destruct (AllowPartialTail opts)| |].
    - apply take_nonempty; rewrite ?length_app; lia.
    - rewrite length_take. lia. }
  rewrite take_app, LH, take_ge by lia. rewrite readV2_after_header by done.
  set (m := (k - 22)%nat). set (B := record_body rec) in *. set (C := be_bytes 4 _) in *.
  destruct (decide (m < length B)%nat) as [HmB|HmB].
  - rewrite take_app_le by lia.
    destruct (decide (m = 0)%nat) as [Em|Em].
    { rewrite Em, take_0, read_or_tail_nil by lia. rewrite (decide_True (P := _ \/ _)) by lia. done. }
    rewrite (decide_False (P := _ \/ _)) by lia.
    rewrite read_or_tail_short; [by destruct (AllowPartialTail opts)| |].
    + apply take_nonempty; lia.
    + rewrite length_take. lia.
  - rewrite take_app, take_ge by lia. rewrite read_or_tail_app by done. cbn [result_bind].
    destruct (decide (m = length B)%nat) as [Em|Em].
    { rewrite Em, Nat.sub_diag, take_0, read_or_tail_nil by lia.
      rewrite (decide_True (P := _ \/ _)) by lia. done. }
    rewrite (decide_False (P := _ \/ _)) by lia.
    rewrite read_or_tail_short; [by destruct (AllowPartialTail opts)| |].
    + apply take_nonempty; lia.
    + rewrite length_take. lia.
Qed.

(** Recovery after a crash that tore the last record at any byte [k]: every
    whole record before it is delivered and nothing of the torn one is; the call
    succeeds under [AllowPartialTail] except when the cut falls exactly after the
    magic, the header or the body, where the replay fails with [io.EOF]. *)
Theorem replay_torn_tail opts recs rec k :
  Forall record_ok recs -> record_ok rec -> (k < length (record_bytes rec))%nat ->
  ReplayWithOptions (Contents (concat (map record_bytes recs) ++ take k (record_bytes rec)))
    opts collect [] = Some (recs, torn_outcome opts rec k).
Proof.
  intros HF Hok Hk. eapply replay_records_tail; [done|apply run_collect|].
  cbn [replay_loop]. rewrite replay_next_torn by done.
  by destruct (torn_outcome opts rec k).
Qed.

(** A crash just after the header of the second record reached the disk: the
    replay that allows partial tails still fails. *)
Lemma replay_torn_tail_witness :
  ReplayWithOptions (Contents (concat (map record_bytes [sample_record]) ++
                               take 24 (record_bytes sample_record)))
    DefaultReplayOptions collect [] = Some ([sample_record], Some (ErrIO EOF)) /\
  ReplayWithOptions (Contents (concat (map record_bytes [sample_record]) ++
                               take 25 (record_bytes sample_record)))
    DefaultReplayOptions collect [] = Some ([sample_record], None).
Proof.
  split.
  - rewrite (replay_torn_tail DefaultReplayOptions [sample_record] sample_record 24);
      [reflexivity|repeat constructor; apply sample_record_ok|apply sample_record_ok|].
    apply Nat.ltb_lt. vm_compute. reflexivity.
  - rewrite (replay_torn_tail DefaultReplayOptions [sample_record] sample_record 25);
      [reflexivity|repeat constructor; apply sample_record_ok|apply sample_record_ok|].
    apply Nat.ltb_lt. vm_compute. reflexivity.
Defined.

(** C35. A single corrupted byte anywhere in the topic, key or payload of a record
    is caught by the checksum: the records before it are delivered, then the
    replay stops with [ErrCorruptRecord], whatever follows. *)
Theorem replay_detects_corrupt_byte opts recs rec pre x y post rest :
  Forall record_ok recs -> record_ok rec ->
  record_body rec = pre ++ x :: post -> y <> x ->
  ReplayWithOptions
    (Contents (concat (map record_bytes recs) ++
       [Byte.x47; Byte.x57] ++ record_header rec ++ (pre ++ y :: post) ++
       be_bytes 4 (record_crc rec) ++ rest))
    opts collect [] = Some (recs, Some ErrCorruptRecord).
Proof.
  intros HF Hok EB Hxy. eapply replay_records_tail; [done|apply run_collect|].
  cbn [replay_loop]. unfold replay_next. rewrite (read_full_app 2 [Byte.x47; Byte.x57]) by done.
  change (bool_decide _ && bool_decide _) with true. cbv iota.
  rewrite (readV2_shape opts rec);
    [|done|apply length_record_header|done|done|rewrite EB, !length_app; done|apply length_be_bytes].
  rewrite be_val_bytes_small by apply record_crc_range.
  rewrite record_crc_eq, EB.
  replace (_ =? _) with false; [done|]. symmetry. apply Z.eqb_neq.
  apply crc_update_single_byte; [|done]. apply crc_update_range. lia.
Qed.

Lemma replay_detects_corrupt_byte_witness :
  ReplayWithOptions
    (Contents (concat (map record_bytes [sample_record]) ++
       [Byte.x47; Byte.x57] ++ record_header sample_record ++
       (bs_of "workflow-eventsacme/bot/s1" ++ Byte.x5b :: [Byte.x7d]) ++
       be_bytes 4 (record_crc sample_record) ++ []))
    DefaultReplayOptions collect [] = Some ([sample_record], Some ErrCorruptRecord).
Proof.
  apply (replay_detects_corrupt_byte DefaultReplayOptions [sample_record] sample_record
           (bs_of "workflow-eventsacme/bot/s1") Byte.x7b Byte.x5b [Byte.x7d] []).
  - repeat constructor; apply sample_record_ok.
  - apply sample_record_ok.
  - reflexivity.
  - discriminate.
Defined.
End Wal.
