(* ===== verification/WalLog.v ===== *)
(** * The write-ahead log under concurrent appends (internal/wal/wal.go)

    [Log.AppendRecord], [groupCommitLocked] and [Close] as a transition system:
    the fields of [Log] guarded by its mutex, the buffered writer, the file and
    its durable part, and a program point per appending goroutine.  A critical
    section is one step; the fsync runs between two steps with the mutex
    released.  Generations are unbounded: 2^64 fsyncs are out of reach.

    The theorems: in mode [always] a record whose append returned nil is
    delivered by a replay of whatever a crash leaves; and the log that [Close]
    leaves replays to exactly the records appended.  The last section states the
    contract of the log towards the servers that write through it, as a class
    with the log as its instance. *)

From S2P Require Import Prelude GoLib WalFormat.
Import Wal.
Open Scope Z_scope.

Module WalCommit.

Inductive SyncMode := SyncNone | SyncAlways | SyncInterval.

Record Log := mkLog {
  syncMode : SyncMode;
  syncInterval : Z;
  lastSync : Z;
  pendingGen : Z;
  syncedGen : Z;
  syncing : bool;
  syncErr : option wal_err;
  fatal : bool;
  buf : bytes;               (* bufio.Writer: bytes not yet written *)
  werr : option Z;           (* bufio.Writer: its sticky error *)
  fd_open : bool;
  file : bytes;              (* what write(2) has put into the file *)
  disk : bytes;              (* the durable prefix of it *)
  log : list WalRecord;      (* ghost: every record written in full, in order *)
  committed : nat            (* ghost: how many of them an fsync has covered *)
}.

(** Where a goroutine inside [AppendRecord] is.  [i] is the ghost position of
    its record in [log]. *)
Inductive pc :=
| Committing (rec : WalRecord) (i : nat) (myGen : Z)
| Fsyncing (rec : WalRecord) (i : nat) (myGen syncingGen : Z) (n : nat) (flushed : bytes)
    (* in l.f.Sync(); [n] records and the bytes [flushed] were in the file *)
| Returned (rec : WalRecord) (i : nat) (r : option wal_err).

(** [OpenWithOptions] on a file that holds [contents]. *)
Definition OpenWithOptions (mode : SyncMode) (interval now : Z) (contents : bytes) (log0 : list WalRecord) : Log :=
  let interval :=
    match mode with
    | SyncInterval => if interval <=? 0 then 250000000 else interval
    | _ => interval
    end in
  mkLog mode interval now 1 0 false None false [] None true contents contents log0 (length log0).

Inductive write_out := WriteAll | WriteErr (code : Z) (n : nat).

(** [bufio.Writer.Write]: the bytes join the buffer; [spill] of them go to the
    file when it fills up, and an error sticks. *)
Definition bufio_write (s : Log) (p : bytes) (spill : nat) (err : option Z) : Log * option Z :=
  match werr s with
  | Some e => (s, Some e)
  | None =>
      ({| s with file := file s ++ take spill (buf s ++ p); buf := drop spill (buf s ++ p); werr := err |}, err)
  end.

Definition bufio_flush (s : Log) (out : write_out) : Log * option Z :=
  match werr s with
  | Some e => (s, Some e)
  | None =>
      if decide (buf s = []) then (s, None)
      else match out with
           | WriteAll => ({| s with file := file s ++ buf s; buf := [] |}, None)
           | WriteErr e n =>
               ({| s with file := file s ++ take n (buf s); buf := drop n (buf s); werr := Some e |}, Some e)
           end
  end.

Definition poisonLocked (e : wal_err) (s : Log) : Log := {| s with fatal := true; syncErr := Some e |}.

Definition set_syncing (b : bool) (s : Log) : Log := {| s with syncing := b |}.

Definition shouldSyncLocked (now : Z) (s : Log) : bool :=
  match syncMode s with
  | SyncAlways => true
  | SyncInterval => syncInterval s <=? now - lastSync s
  | SyncNone => false
  end.

(** One iteration of [groupCommitLocked]'s loop, from its head until the mutex
    is released: return, wait, or flush and start the fsync. *)
Definition commit_iter (s : Log) (rec : WalRecord) (i : nat) (myGen : Z) (out : write_out) : Log * pc :=
  if fatal s then (s, Returned rec i (syncErr s))
  else if myGen <=? syncedGen s then (s, Returned rec i (syncErr s))
  else if syncing s then (s, Committing rec i myGen)
  else
    let s := set_syncing true s in
    let syncingGen := pendingGen s in
    match bufio_flush s out with
    | (s, Some e) =>
        (set_syncing false (poisonLocked (ErrSys e) s), Returned rec i (Some (ErrSys e)))
    | (s, None) =>
        ({| s with pendingGen := pendingGen s + 1 |},
         Fsyncing rec i myGen syncingGen (length (log s)) (file s))
    end.

(** After a successful [l.f.Sync()], up to the loop's next iteration. *)
Definition sync_ok (s : Log) (syncingGen now : Z) (n : nat) (durable : bytes) : Log :=
  {| s with syncedGen := syncingGen; syncErr := None; lastSync := now; syncing := false;
            disk := durable; committed := n |}.

Definition sync_failed (s : Log) (e : Z) (durable : bytes) : Log :=
  let s := poisonLocked (ErrSys e) s in
  {| s with syncing := false; disk := durable |}.

(** The five [l.w.Write] calls, each of which poisons the log on an error. *)
Definition chunks (rec : WalRecord) : list bytes :=
  [[Byte.x47; Byte.x57] ++ record_header rec; bs_of (Topic rec); bs_of (Key rec); Payload rec;
   be_bytes 4 (record_crc rec)].

Fixpoint write_chunks (s : Log) (cs : list bytes) (outs : list (nat * option Z)) : Log * option Z :=
  match cs with
  | [] => (s, None)
  | c :: cs =>
      let '(spill, err) := default (0%nat, None) (head outs) in
      match bufio_write s c spill err with
      | (s, Some e) => (poisonLocked (ErrSys e) s, Some e)
      | (s, None) => write_chunks s cs (tl outs)
      end
  end.

(** [AppendRecord] up to the first release of the mutex; [ts] is
    [time.Now().UnixNano()] for a record without a timestamp. *)
Definition stamp (ts : Z) (rec : WalRecord) : WalRecord :=
  if Timestamp rec =? 0 then {| rec with Timestamp := ts |} else rec.

Definition append_start (s : Log) (rec : WalRecord) (ts now : Z) (outs : list (nat * option Z))
    (out : write_out) : Log * pc :=
  match encode_record ts rec with
  | Err e => (s, Returned rec 0 (Some e))
  | Ok _ =>
      let rec := stamp ts rec in
      if fatal s then (s, Returned rec 0 (syncErr s))
      else
        match write_chunks s (chunks rec) outs with
        | (s, Some e) => (s, Returned rec 0 (Some (ErrSys e)))
        | (s, None) =>
            let i := length (log s) in
            let s := {| s with log := log s ++ [rec] |} in
            let myGen := pendingGen s in
            if shouldSyncLocked now s then commit_iter s rec i myGen out else (s, Returned rec i None)
        end
  end.

(** [Close] once no fsync is in flight. *)
Definition Close (s : Log) (out : write_out) (durable : bytes) (sync_err close_err : option Z) : Log * option Z :=
  match bufio_flush s out with
  | (s, Some e) => (s, Some e)
  | (s, None) =>
      if fd_open s then
        match syncMode s, sync_err with
        | SyncNone, _ => ({| s with fd_open := false |}, close_err)
        | _, Some e => ({| s with disk := durable |}, Some e)
        | _, None => ({| s with disk := durable; fd_open := false; committed := length (log s) |}, close_err)
        end
      else (s, None)
  end.

Abbreviation config := (Log * gmap nat pc)%type.

(** The ranges of the Go types of a record's fields. *)
Definition typed (ts : Z) (rec : WalRecord) : Prop :=
  in_i64 ts /\ in_i64 (Timestamp rec) /\ in_i32 (Partition rec).

(** The interleavings of concurrent [AppendRecord]s and [Close]. What fsync
    leaves on disk extends what was durable, never exceeds the file, and on
    success holds everything that was in the file when it was called. *)
Inductive step : config -> config -> Prop :=
| step_append s ths tid rec ts now outs out :
    ths !! tid = None -> typed ts rec ->
    step (s, ths) (let (s', p) := append_start s rec ts now outs out in (s', <[tid := p]> ths))
| step_wake s ths tid rec i g out :
    ths !! tid = Some (Committing rec i g) ->
    step (s, ths) (let (s', p) := commit_iter s rec i g out in (s', <[tid := p]> ths))
| step_fsync_ok s ths tid rec i g sg n flushed now d out :
    ths !! tid = Some (Fsyncing rec i g sg n flushed) -> fd_open s = true ->
    disk s `prefix_of` d -> flushed `prefix_of` d -> d `prefix_of` file s ->
    step (s, ths)
      (let (s', p) := commit_iter (sync_ok s sg now n d) rec i g out in (s', <[tid := p]> ths))
| step_fsync_err s ths tid rec i g sg n flushed d e :
    ths !! tid = Some (Fsyncing rec i g sg n flushed) ->
    disk s `prefix_of` d -> d `prefix_of` file s ->
    step (s, ths) (sync_failed s e d, <[tid := Returned rec i (Some (ErrSys e))]> ths)
| step_close s ths out d e1 e2 :
    syncing s = false -> disk s `prefix_of` d -> d `prefix_of` file (Close s out d e1 e2).1 ->
    (e1 = None -> file (Close s out d e1 e2).1 `prefix_of` d) ->
    step (s, ths) ((Close s out d e1 e2).1, ths).

Definition initial (mode : SyncMode) (interval now : Z) (log0 : list WalRecord) : config :=
  (OpenWithOptions mode interval now (concat (map record_bytes log0)) log0, ∅).

(** Reachability by the steps that satisfy [ok]. *)
Inductive reachable (ok : config -> config -> Prop) mode interval now log0 : config -> Prop :=
| reach_init : reachable ok mode interval now log0 (initial mode interval now log0)
| reach_step c c' :
    reachable ok mode interval now log0 c -> step c c' -> ok c c' -> reachable ok mode interval now log0 c'.

(** No buffered write fails while an fsync is in flight. *)
Definition no_poison_in_flight (c c' : config) : Prop :=
  syncing c.1 = true -> syncing c'.1 = true -> fatal c'.1 = fatal c.1.

(** ** The invariant *)

Definition recs_bytes (l : list WalRecord) : bytes := concat (map record_bytes l).

Definition buffers_ok (s : Log) : Prop :=
  Forall record_ok (log s) /\
  (werr s = None -> file s ++ buf s = recs_bytes (log s)) /\
  (exists extra, Forall record_ok extra /\ file s `prefix_of` recs_bytes (log s ++ extra)) /\
  disk s `prefix_of` file s.

Definition durable_ok (s : Log) : Prop :=
  (committed s <= length (log s))%nat /\ 0 <= syncedGen s < pendingGen s /\
  recs_bytes (take (committed s) (log s)) `prefix_of` disk s.

Definition errors_ok (s : Log) : Prop :=
  (if fatal s then syncErr s <> None else syncErr s = None) /\ (syncing s = true -> fatal s = false).

Definition pc_ok (s : Log) (p : pc) : Prop :=
  match p with
  | Committing rec i g =>
      log s !! i = Some rec /\ g <= pendingGen s /\ (g <= syncedGen s -> (i < committed s)%nat)
  | Fsyncing rec i g sg n flushed =>
      syncing s = true /\ log s !! i = Some rec /\ g <= sg /\ sg + 1 = pendingGen s /\ syncedGen s < sg /\
      (i < n)%nat /\ (committed s <= n <= length (log s))%nat /\
      flushed = recs_bytes (take n (log s)) /\ flushed `prefix_of` file s
  | Returned rec i None => log s !! i = Some rec /\ (syncMode s = SyncAlways -> (i < committed s)%nat)
  | Returned _ _ (Some _) => True
  end.

Definition pair_ok (p q : pc) : Prop :=
  match p, q with
  | Committing _ i g, Fsyncing _ _ _ sg n _ => g <= sg -> (i < n)%nat
  | Fsyncing _ _ _ _ _ _, Fsyncing _ _ _ _ _ _ => False
  | _, _ => True
  end.

Definition threads_ok (s : Log) (ths : gmap nat pc) : Prop :=
  (forall t p, ths !! t = Some p -> pc_ok s p) /\
  (forall t u p q, t <> u -> ths !! t = Some p -> ths !! u = Some q -> pair_ok p q).

Record inv (c : config) : Prop := {
  inv_buffers : buffers_ok c.1;
  inv_durable : durable_ok c.1;
  inv_errors : errors_ok c.1;
  inv_threads : threads_ok c.1 c.2
}.

(** Everything but the writer's buffer, its error and the file's growth is kept. *)
Definition same_core (s s' : Log) : Prop :=
  pendingGen s' = pendingGen s /\ syncedGen s' = syncedGen s /\ syncing s' = syncing s /\
  committed s' = committed s /\ disk s' = disk s /\ log s' = log s /\ syncMode s' = syncMode s /\
  file s `prefix_of` file s'.

Lemma same_core_refl s : same_core s s.
Proof. unfold same_core. split_and!; done. Qed.

Lemma same_core_trans a b c : same_core a b -> same_core b c -> same_core a c.
Proof.
  intros (A1 & A2 & A3 & A4 & A5 & A6 & A7 & A8) (B1 & B2 & B3 & B4 & B5 & B6 & B7 & B8).
  unfold same_core. rewrite B1, B2, B3, B4, B5, B6, B7. split_and!; try done. by etrans.
Qed.

Lemma recs_bytes_app a b : recs_bytes (a ++ b) = recs_bytes a ++ recs_bytes b.
Proof. unfold recs_bytes. by rewrite map_app, concat_app. Qed.

Lemma concat_chunks rec : concat (chunks rec) = record_bytes rec.
Proof.
  unfold chunks, record_bytes, record_body. cbn [concat]. rewrite app_nil_r. by rewrite <- !app_assoc.
Qed.

(** ** The buffered writer *)

Lemma bufio_write_spec s p n err s' r :
  bufio_write s p n err = (s', r) ->
  same_core s s' /\ fatal s' = fatal s /\ syncErr s' = syncErr s /\
  match werr s with
  | Some e => s' = s /\ r = Some e
  | None => werr s' = err /\ r = err /\ file s' ++ buf s' = file s ++ buf s ++ p /\
            file s' `prefix_of` file s ++ buf s ++ p
  end.
Proof.
  unfold bufio_write. intros H. destruct (werr s) eqn:E; simplify_eq; (split; [|split; [done|split; [done|]]]).
  - apply same_core_refl.
  - done.
  - unfold same_core. cbn. split_and!; try done. by apply prefix_app_r.
  - cbn. split_and!; try done; [by rewrite <- app_assoc, take_drop|apply take_prefix_of].
Qed.

(** The writes of one record: all of it is in the writer, or the log is poisoned
    and the file holds a prefix of it. *)
Lemma write_chunks_spec cs : forall s outs s' r,
  werr s = None -> write_chunks s cs outs = (s', r) ->
  same_core s s' /\ file s' `prefix_of` file s ++ buf s ++ concat cs /\
  match r with
  | None => werr s' = None /\ file s' ++ buf s' = file s ++ buf s ++ concat cs /\
            fatal s' = fatal s /\ syncErr s' = syncErr s
  | Some e => werr s' <> None /\ fatal s' = true /\ syncErr s' = Some (ErrSys e)
  end.
Proof.
  induction cs as [|c cs IH]; intros s outs s' r Hw E; cbn [write_chunks concat] in *.
  { simplify_eq. rewrite !app_nil_r. split; [apply same_core_refl|]. split; [by apply prefix_app_r|done]. }
  destruct (default (0%nat, None) (head outs)) as [spill err].
  destruct (bufio_write s c spill err) as [s1 r1] eqn:E1. apply bufio_write_spec in E1 as (HC & Hf & He & HW).
  rewrite Hw in HW. destruct HW as (Hw1 & -> & Hfb & Hfp).
  destruct err as [e|].
  - simplify_eq. split; [|split; [|cbn; by rewrite Hw1]].
    + destruct HC as (? & ? & ? & ? & ? & ? & ? & ?). unfold same_core. cbn. split_and!; done.
    + cbn. etrans; [exact Hfp|]. rewrite !app_assoc. by apply prefix_app_r.
  - destruct (IH s1 (tl outs) s' r Hw1 E) as (HC2 & Hp2 & Hr2). rewrite app_assoc, Hfb in Hp2.
    split; [by eapply same_core_trans|]. rewrite <- !app_assoc in Hp2. split; [done|].
    destruct r; [done|]. destruct Hr2 as (? & Hr & ? & ?). rewrite app_assoc, Hfb, <- !app_assoc in Hr.
    split_and!; congruence.
Qed.

Lemma bufio_flush_spec s out s' r :
  buffers_ok s -> bufio_flush s out = (s', r) ->
  buffers_ok s' /\ same_core s s' /\ fatal s' = fatal s /\ syncErr s' = syncErr s /\ fd_open s' = fd_open s /\
  (r = None -> file s' = recs_bytes (log s')).
Proof.
  intros (Hp & Hw & Hx & Hd) H. unfold bufio_flush in H.
  destruct (werr s) as [e|] eqn:Ew; simplify_eq.
  { split; [unfold buffers_ok; by rewrite Ew|]. split; [apply same_core_refl|done]. }
  specialize (Hw eq_refl). case_decide as Eb; simplify_eq.
  { split; [by split_and!|]. split; [apply same_core_refl|]. split; [done|]. split; [done|]. split; [done|].
    intros _. by rewrite Eb, app_nil_r in Hw. }
  assert (file s ++ buf s `prefix_of` recs_bytes (log s ++ [])) as Hfull by (by rewrite Hw, app_nil_r).
  destruct out as [|e n]; simplify_eq; unfold buffers_ok, same_core; cbn.
  - split_and!; try done; try (intros _; by rewrite ?app_nil_r); try by apply prefix_app_r.
    by exists [].
  - split_and!; try done; try by apply prefix_app_r.
    exists []. split; [done|]. by etrans; [apply take_prefix_of|].
Qed.

(** ** Frame lemmas *)

Lemma pc_ok_frame s s' p :
  log s `prefix_of` log s' -> file s `prefix_of` file s' ->
  committed s' = committed s -> pendingGen s' = pendingGen s -> syncedGen s' = syncedGen s ->
  syncing s' = syncing s -> syncMode s' = syncMode s ->
  pc_ok s p -> pc_ok s' p.
Proof.
  intros Hl Hf E1 E2 E3 E4 E5. pose proof (prefix_length _ _ Hl).
  destruct p as [rec i g|rec i g sg n fl|rec i [e|]]; cbn; rewrite ?E1, ?E2, ?E3, ?E4, ?E5; [| |done|].
  - intros (? & ? & ?). split_and!; try done. by eapply lookup_prefix.
  - intros (? & ? & ? & ? & ? & ? & ? & -> & ?). split_and!; try done; try lia.
    + by eapply lookup_prefix.
    + by rewrite (take_prefix_eq (log s) (log s')) by (done || lia).
    + by etrans.
  - intros [? ?]. split; [|done]. by eapply lookup_prefix.
Qed.

Lemma durable_ok_frame s s' :
  log s `prefix_of` log s' -> committed s' = committed s -> syncedGen s' = syncedGen s ->
  pendingGen s <= pendingGen s' -> disk s `prefix_of` disk s' -> durable_ok s -> durable_ok s'.
Proof.
  intros Hl E1 E2 E3 Hd (? & ? & ?). pose proof (prefix_length _ _ Hl). unfold durable_ok. rewrite E1, E2.
  split_and!; try lia. rewrite (take_prefix_eq (log s) (log s')) by (done || lia). by etrans.
Qed.

Lemma threads_ok_insert s s' ths tid p :
  threads_ok s ths ->
  (forall u q, u <> tid -> ths !! u = Some q -> pc_ok s' q) -> pc_ok s' p ->
  (forall u q, u <> tid -> ths !! u = Some q -> pair_ok p q /\ pair_ok q p) ->
  threads_ok s' (<[tid := p]> ths).
Proof.
  intros [H1 H2] Hothers Hp Hpair. split.
  - intros t q Hq. rewrite lookup_insert in Hq. case_decide; simplify_eq; [done|]. eauto.
  - intros t u q q' Htu Hq Hq'. rewrite lookup_insert in Hq, Hq'.
    repeat case_decide; simplify_eq.
    + by destruct (Hpair t q).
    + by destruct (Hpair u q').
    + exact (H2 t u q q' Htu Hq Hq').
Qed.

Lemma threads_ok_delete s ths tid : threads_ok s ths -> threads_ok s (delete tid ths).
Proof.
  intros [H1 H2]. split.
  - intros t p Hp. apply lookup_delete_Some in Hp as [_ Hp]. eauto.
  - intros t u p q Hne Hp Hq. apply lookup_delete_Some in Hp as [_ Hp].
    apply lookup_delete_Some in Hq as [_ Hq]. exact (H2 t u p q Hne Hp Hq).
Qed.

(** A goroutine that returns with an error. *)
Lemma inv_return_err s s' ths tid rec i e :
  inv (s, ths) -> same_core s s' -> buffers_ok s' -> errors_ok s' ->
  inv (s', <[tid := Returned rec i (Some e)]> ths).
Proof.
  intros [Hb Hd He Ht] (C1 & C2 & C3 & C4 & C5 & C6 & C7 & C8) Hb' He'. cbn [fst snd] in *. split; cbn [fst snd]; try done.
  - by apply (durable_ok_frame s); rewrite ?C1, ?C5, ?C6.
  - apply (threads_ok_insert s); [done| |done|].
    + intros u q Hu Hq. apply (pc_ok_frame s); rewrite ?C6; try done. by apply Ht in Hq.
    + intros u q _ _. split; [done|by destruct q].
Qed.

(** ** Preservation *)

Lemma commit_iter_inv s ths tid rec i g out s' p :
  buffers_ok s -> durable_ok s -> errors_ok s -> threads_ok s (delete tid ths) ->
  pc_ok s (Committing rec i g) ->
  (forall u q, u <> tid -> ths !! u = Some q -> pair_ok (Committing rec i g) q) ->
  commit_iter s rec i g out = (s', p) -> inv (s', <[tid := p]> ths).
Proof.
  intros Hb Hd He Ht Hpc Hpair H. rewrite <- (insert_delete_eq ths).
  assert (forall u q, u <> tid -> delete tid ths !! u = Some q -> ths !! u = Some q) as Hdel
    by (intros u q Hu; by rewrite lookup_delete_ne).
  assert (forall r, pc_ok s (Returned rec i r) -> inv (s, <[tid := Returned rec i r]> (delete tid ths))) as Hret.
  { intros r Hr. split; cbn [fst snd]; try done. apply (threads_ok_insert s); [done| |done|].
    - intros u q _ Hq. by apply Ht in Hq.
    - intros u q Hu Hq. split; [done|]. by destruct q. }
  pose proof Hpc as (Hlk & Hg & Hs). destruct He as [He1 He2].
  unfold commit_iter in H. destruct (fatal s) eqn:Ef.
  { simplify_eq. apply Hret. by destruct (syncErr s'). }
  destruct (g <=? syncedGen s) eqn:Eg; go_bool.
  { simplify_eq. apply Hret. rewrite He1. split; [done|]. intros _. apply Hs. lia. }
  destruct (syncing s) eqn:Esy.
  { simplify_eq. split; cbn [fst snd]; try done; [by split; rewrite ?Ef, ?He1|].
    apply (threads_ok_insert s'); [done| |done|].
    - intros u q _ Hq. by apply Ht in Hq.
    - intros u q Hu Hq. split; [by eapply Hpair, Hdel|]. by destruct q. }
  assert (forall u q, u <> tid -> delete tid ths !! u = Some q ->
            match q with Fsyncing _ _ _ _ _ _ => False | _ => True end) as Hnf.
  { intros u q Hu Hq. apply Ht in Hq. destruct q; try done. destruct Hq. congruence. }
  set (s1 := set_syncing true s) in *.
  assert (buffers_ok s1) as Hb1 by done.
  destruct (bufio_flush s1 out) as [s2 r] eqn:EF.
  apply bufio_flush_spec in EF as (Hb2 & (C1 & C2 & C3 & C4 & C5 & C6 & C7 & C8) & Ff & Fe & _ & Hr); [|done].
  cbn [s1 set_syncing fatal syncErr syncing pendingGen syncedGen committed disk log syncMode file] in *.
  destruct r as [e|]; simplify_eq.
  - apply (inv_return_err s).
    + split; cbn [fst snd]; try done. by split; rewrite ?Ef, ?He1.
    + unfold same_core, poisonLocked. cbn. split_and!; done.
    + destruct Hb2 as (? & ? & ? & ?). by split_and!.
    + split; [by cbn|done].
  - specialize (Hr eq_refl). split; cbn [fst snd].
    + destruct Hb2 as (? & ? & ? & ?). by split_and!.
    + apply (durable_ok_frame s); cbn; rewrite ?C1, ?C2, ?C5, ?C6; try done; lia.
    + split; cbn; rewrite Ff, ?Fe, Ef; done.
    + apply (threads_ok_insert s); [done| | |].
      * intros u q Hu Hq. specialize (Hnf u q Hu Hq). apply Ht in Hq.
        destruct q as [rec' i' g'| |rec' i' [e'|]]; try done; cbn in *; rewrite ?C1, ?C2, ?C4, ?C6, ?C7; try done.
        destruct Hq as (? & ? & ?). split_and!; try done. lia.
      * cbn. rewrite C1, C2, C3, C4, C6, Hr, C6. apply lookup_lt_Some in Hlk as Hlt. destruct Hd as (? & ? & _).
        split_and!; try done; try lia. f_equal. symmetry. by apply take_ge.
      * intros u q Hu Hq. specialize (Hnf u q Hu Hq). split; [by destruct q|].
        apply Ht in Hq. destruct q as [rec' i' g'| |]; try done. cbn.
        intros _. destruct Hq as (Hl & _). apply lookup_lt_Some in Hl. rewrite C6. lia.
Qed.

(** What [AppendRecord] accepts is a well-formed record. *)
Lemma encode_ok ts rec b : typed ts rec -> encode_record ts rec = Ok b -> record_ok (stamp ts rec).
Proof.
  intros (H1 & H2 & H3) E. unfold encode_record in E. fold (stamp ts rec) in E.
  assert (Topic (stamp ts rec) = Topic rec /\ Key (stamp ts rec) = Key rec /\ Partition (stamp ts rec) = Partition rec /\
          Payload (stamp ts rec) = Payload rec /\ in_i64 (Timestamp (stamp ts rec))) as (E1 & E2 & E3 & E4 & E5).
  { unfold stamp. by destruct (Timestamp rec =? 0). }
  unfold record_ok. repeat (go_case; try discriminate E); go_bool; rewrite ?E3; split_and!; done || lia.
Qed.

Lemma step_append_inv s ths tid rec ts now outs out s' p :
  inv (s, ths) -> ths !! tid = None -> typed ts rec ->
  append_start s rec ts now outs out = (s', p) -> no_poison_in_flight (s, ths) (s', <[tid := p]> ths) ->
  inv (s', <[tid := p]> ths).
Proof.
  intros HI Hfree Hty H Hnp. pose proof HI as [Hb Hd [He1 He2] Ht]. cbn [fst snd] in *.
  unfold append_start in H. destruct (encode_record ts rec) as [b|e] eqn:EE.
  2:{ simplify_eq. by apply (inv_return_err s'); [|apply same_core_refl|..]. }
  pose proof (encode_ok _ _ _ Hty EE) as Hrec. set (rec' := stamp ts rec) in *.
  destruct (fatal s) eqn:Ef.
  { simplify_eq. destruct (syncErr s') eqn:E; [|done].
    apply (inv_return_err s'); [done|apply same_core_refl|done|]. split; rewrite ?Ef, ?E; done. }
  destruct Hb as (Hok & Hw & (ex & Hex & Hfx) & Hdk).
  destruct (werr s) as [e0|] eqn:Ew.
  { (* the writer's error is sticky *)
    assert (write_chunks s (chunks rec') outs = (poisonLocked (ErrSys e0) s, Some e0)) as EW.
    { unfold chunks. cbn [write_chunks]. destruct (default _ (head outs)) as [sp er]. unfold bufio_write. by rewrite Ew. }
    rewrite EW in H. simplify_eq. apply (inv_return_err s); [done|..].
    - unfold same_core, poisonLocked. cbn. split_and!; done.
    - unfold buffers_ok, poisonLocked. cbn. rewrite Ew. split_and!; try done. by exists ex.
    - unfold no_poison_in_flight in Hnp. cbn in Hnp. split; cbn; [done|]. intros Hsy.
      specialize (Hnp Hsy Hsy). congruence. }
  specialize (Hw eq_refl). destruct (write_chunks s (chunks rec') outs) as [s2 r] eqn:EW.
  apply write_chunks_spec in EW as (HC & Hp2 & Hr2); [|done].
  rewrite concat_chunks, app_assoc, Hw in Hp2.
  assert (recs_bytes (log s ++ [rec']) = recs_bytes (log s) ++ record_bytes rec') as Erb.
  { rewrite recs_bytes_app. unfold recs_bytes at 2. cbn. by rewrite app_nil_r. }
  pose proof HC as (C1 & C2 & C3 & C4 & C5 & C6 & C7 & C8).
  destruct r as [e|].
  { destruct Hr2 as (Hw2 & Hf2 & He2'). simplify_eq. apply (inv_return_err s); [done|done| |].
    - unfold buffers_ok. rewrite C5, C6. split_and!; try done.
      + exists [rec']. split; [by apply Forall_singleton|]. by rewrite Erb.
      + by etrans.
    - split; [by rewrite Hf2, He2'|]. unfold no_poison_in_flight in Hnp. cbn [fst snd] in Hnp.
      intros Hsy. rewrite Hsy, <- C3 in Hnp. specialize (Hnp Hsy eq_refl). congruence. }
  destruct Hr2 as (Hw2 & Hfb & Hf2 & Hs2). rewrite concat_chunks, app_assoc, Hw, <- Erb in Hfb.
  set (s3 := {| s2 with log := log s2 ++ [rec'] |}) in *.
  assert (log s `prefix_of` log s3) as Hlp by (cbn; rewrite C6; by apply prefix_app_r).
  assert (buffers_ok s3) as Hb3.
  { unfold buffers_ok, s3. cbn [log file buf werr disk]. rewrite C5, C6. split_and!.
    - by apply Forall_app; split; [|apply Forall_singleton].
    - done.
    - exists []. split; [done|]. rewrite (app_nil_r (log s ++ [rec'])). by rewrite Erb.
    - by etrans. }
  assert (durable_ok s3) as Hd3.
  { apply (durable_ok_frame s); cbn; rewrite ?C1, ?C2, ?C4, ?C5, ?C6; try done. by apply prefix_app_r. }
  assert (errors_ok s3) as He3 by (split; cbn; rewrite ?Hf2, ?Hs2, ?Ef; done).
  assert (threads_ok s3 ths) as Ht3.
  { split; [|apply Ht]. intros t q Hq. apply (pc_ok_frame s); cbn; rewrite ?C6; try done; [by apply prefix_app_r|].
    by apply Ht in Hq. }
  assert (log s3 !! length (log s2) = Some rec') as Hlk by (cbn; by rewrite list_lookup_middle).
  change (pendingGen s3) with (pendingGen s2) in H.
  destruct (shouldSyncLocked now s3) eqn:Esh.
  - eapply commit_iter_inv; [exact Hb3|exact Hd3|exact He3| | | |exact H].
    + by rewrite delete_id.
    + cbn [pc_ok]. split; [done|]. split; [done|]. change (syncedGen s3) with (syncedGen s2).
      rewrite C1, C2. destruct Hd as (_ & ? & _). lia.
    + intros u q _ Hq. apply Ht in Hq. destruct q as [|rec0 i0 g0 sg n fl|]; cbn; try done.
      destruct Hq as (_ & _ & _ & Hsg & _). rewrite C1. lia.
  - injection H as <- <-. split; cbn [fst snd]; try done. apply (threads_ok_insert s3); [done| | |].
    + intros u q _ Hq. by apply Ht3 in Hq.
    + cbn [pc_ok]. split; [done|]. intros Hm. unfold shouldSyncLocked in Esh. by rewrite Hm in Esh.
    + intros u q _ _. split; [done|by destruct q].
Qed.

Lemma step_wake_inv s ths tid rec i g out s' p :
  inv (s, ths) -> ths !! tid = Some (Committing rec i g) ->
  commit_iter s rec i g out = (s', p) -> inv (s', <[tid := p]> ths).
Proof.
  intros [Hb Hd He Ht] Hl H. cbn [fst snd] in *. eapply commit_iter_inv; [done..| | | |exact H].
  - by apply threads_ok_delete.
  - by apply (proj1 Ht) in Hl.
  - intros u q Hu Hq. exact (proj2 Ht tid u _ q (not_eq_sym Hu) Hl Hq).
Qed.

Lemma sync_ok_inv s ths tid rec i g sg n flushed now d :
  inv (s, ths) -> ths !! tid = Some (Fsyncing rec i g sg n flushed) ->
  disk s `prefix_of` d -> flushed `prefix_of` d -> d `prefix_of` file s ->
  buffers_ok (sync_ok s sg now n d) /\ durable_ok (sync_ok s sg now n d) /\ errors_ok (sync_ok s sg now n d) /\
  threads_ok (sync_ok s sg now n d) (delete tid ths) /\
  pc_ok (sync_ok s sg now n d) (Committing rec i g).
Proof.
  intros [Hb Hd He Ht] Hl Hd1 Hd2 Hd3. cbn [fst snd] in *.
  pose proof (proj1 Ht _ _ Hl) as (F1 & F2 & F3 & F4 & F5 & F6 & F7 & -> & F9).
  destruct Hb as (B1 & B2 & B3 & B4). split; [|split; [|split; [|split]]].
  - unfold buffers_ok, sync_ok. cbn. done.
  - destruct Hd as (D1 & D2 & D3). unfold durable_ok, sync_ok. cbn [committed log syncedGen pendingGen disk].
    split_and!; done || lia.
  - destruct He as [_ He]. specialize (He F1). split; cbn; [by rewrite He|done].
  - split.
    + intros t q Hq. apply lookup_delete_Some in Hq as [Hne Hq].
      pose proof (proj2 Ht t tid _ _ (not_eq_sym Hne) Hq Hl) as Hpair. apply (proj1 Ht) in Hq.
      destruct q as [rec' i' g'|rec' i' g' sg' n' fl'|rec' i' [e'|]]; cbn in *; try done.
      * destruct Hq as (? & ? & ?). split_and!; done.
      * destruct Hq as [? Hc]. split; [done|]. intros Hm. specialize (Hc Hm). lia.
    + exact (proj2 (threads_ok_delete s ths tid Ht)).
  - cbn. split_and!; done || lia.
Qed.

Lemma step_close_inv s ths out d e1 e2 :
  inv (s, ths) -> syncing s = false -> disk s `prefix_of` d -> d `prefix_of` file (Close s out d e1 e2).1 ->
  (e1 = None -> file (Close s out d e1 e2).1 `prefix_of` d) -> inv ((Close s out d e1 e2).1, ths).
Proof.
  intros [Hb Hd He Ht] Hsy H1 H2 H3. cbn [fst snd] in *. unfold Close in *.
  destruct (bufio_flush s out) as [s2 r] eqn:EF.
  apply bufio_flush_spec in EF as (Hb2 & (C1 & C2 & C3 & C4 & C5 & C6 & C7 & C8) & Ff & Fe & _ & Hr); [|done].
  assert (forall s3, pendingGen s3 = pendingGen s2 -> syncedGen s3 = syncedGen s2 -> syncing s3 = syncing s2 ->
    log s3 = log s2 -> file s3 = file s2 -> buf s3 = buf s2 -> werr s3 = werr s2 -> fatal s3 = fatal s2 ->
    syncErr s3 = syncErr s2 -> syncMode s3 = syncMode s2 -> disk s2 `prefix_of` disk s3 -> disk s3 `prefix_of` file s2 ->
    (committed s3 = committed s2 \/ committed s3 = length (log s2) /\ recs_bytes (log s2) `prefix_of` disk s3) ->
    inv (s3, ths)) as HH.
  { intros s3 G1 G2 G3 G4 G5 G6 G7 G8 G9 G10 G11 G12 G13. split; cbn [fst snd].
    - destruct Hb2 as (? & ? & ? & ?). unfold buffers_ok. by rewrite G4, G5, G6, G7.
    - destruct Hd as (D1 & D2 & D3). unfold durable_ok. rewrite G1, G2, G4, C1, C2, C6.
      destruct G13 as [->|[-> G]]; rewrite ?C4, ?C6 in *; split_and!; try lia.
      + etrans; [exact D3|]. by rewrite <- C5.
      + by rewrite take_ge.
    - destruct He as [? ?]. split; rewrite G8, ?G9, ?G3, Ff, ?Fe, ?C3; done.
    - split; [|apply Ht]. intros t q Hq. apply (proj1 Ht) in Hq.
      assert ((committed s <= committed s3)%nat) as Hle.
      { destruct G13 as [->|[-> _]]; rewrite ?C4, ?C6; [done|]. by destruct Hd. }
      destruct q as [rec i g|rec i g sg n fl|rec i [e|]]; cbn in *; rewrite ?G1, ?G2, ?G3, ?G4, ?G10, ?C1, ?C2, ?C3, ?C6, ?C7 in *.
      + destruct Hq as (? & ? & Hc). split_and!; try done. intros Hg. specialize (Hc Hg). lia.
      + by destruct Hq as (? & _); congruence.
      + done.
      + destruct Hq as [? Hc]. split; [done|]. intros Hm. specialize (Hc Hm). lia. }
  assert (disk s2 `prefix_of` file s2) as Hdf by (by destruct Hb2 as (_ & _ & _ & ?)).
  destruct r as [e|]; cbn [fst] in *; [by apply HH; auto|]. specialize (Hr eq_refl).
  destruct (fd_open s2); cbn [fst] in *; [|by apply HH; auto].
  destruct (syncMode s2) eqn:Em, e1 as [e|]; cbn [fst file] in *; apply HH; cbn; try done; auto; rewrite ?C5; try done.
  all: right; split; [done|]; rewrite <- Hr; by apply H3.
Qed.

Lemma step_inv c c' : inv c -> step c c' -> no_poison_in_flight c c' -> inv c'.
Proof.
  intros Hinv Hs Hnp. destruct Hs as [s ths tid rec ts now outs out Hf Hty|s ths tid rec i g out Hl|
    s ths tid rec i g sg n fl now d out Hl Ho H1 H2 H3|s ths tid rec i g sg n fl d e Hl H1 H2|
    s ths out d e1 e2 Hsy H1 H2 H3].
  - destruct (append_start s rec ts now outs out) eqn:E. by eapply step_append_inv.
  - destruct (commit_iter s rec i g out) eqn:E. by eapply step_wake_inv.
  - destruct (commit_iter (sync_ok s sg now n d) rec i g out) eqn:E.
    pose proof (sync_ok_inv _ _ _ _ _ _ _ _ _ now d Hinv Hl H1 H2 H3) as (Hb & Hd & He & Ht & Hp).
    eapply commit_iter_inv; [done..| |exact E].
    intros u q Hu Hq. destruct Hinv as [_ _ _ Hinv].
    pose proof (proj2 Hinv tid u _ _ (not_eq_sym Hu) Hl Hq). by destruct q.
  - pose proof Hinv as [Hb Hd He Ht]. cbn [fst snd] in *. split; cbn [fst snd].
    + destruct Hb as (? & ? & ? & ?). unfold buffers_ok, sync_failed. cbn. done.
    + by apply (durable_ok_frame s).
    + split; [by cbn|]. by cbn.
    + apply (threads_ok_insert s); [done| |done|].
      * intros u q Hu Hq. pose proof (proj2 Ht _ _ _ _ (not_eq_sym Hu) Hl Hq) as Hpq.
        apply (proj1 Ht) in Hq. destruct q as [| |? ? []]; cbn in *; try done.
      * intros u q _ _. split; [done|by destruct q].
  - by apply step_close_inv.
Qed.

Lemma initial_inv mode interval now log0 : Forall record_ok log0 -> inv (initial mode interval now log0).
Proof.
  intros HF. split; cbn [fst snd initial OpenWithOptions].
  - unfold buffers_ok. cbn. split_and!; try done; [by rewrite app_nil_r|]. exists []. by rewrite app_nil_r.
  - unfold durable_ok. cbn. split_and!; try done || lia. by rewrite take_ge.
  - done.
  - split; intros *; rewrite ?lookup_empty; done.
Qed.

Lemma reachable_inv mode interval now log0 c :
  Forall record_ok log0 -> reachable no_poison_in_flight mode interval now log0 c -> inv c.
Proof. intros HF H. induction H; [by apply initial_inv|by eapply step_inv]. Qed.

(** ** What a crash leaves *)

(** A replay that collects only adds to what it has. *)
Lemma collect_extends fuel opts r acc acc' e :
  replay_loop fuel opts collect r acc = Some (acc', e) -> acc `prefix_of` acc'.
Proof.
  revert r acc. induction fuel as [|fuel IH]; intros r acc H; cbn [replay_loop] in H; [done|].
  destruct (replay_next opts r) as [[[rec r']|]|e']; simplify_eq; try done.
  unfold collect in H at 1. apply IH in H. etrans; [|exact H]. by apply prefix_app_r.
Qed.

Lemma replay_prefix opts l tail :
  Forall record_ok l ->
  exists recs e, ReplayWithOptions (Contents (recs_bytes l ++ tail)) opts collect [] = Some (recs, e) /\ l `prefix_of` recs.
Proof.
  intros HF. destruct (replay_loop_total (S (length tail)) opts collect tail l) as [[recs e] Ht]; [lia|].
  exists recs, e. split; [|by eapply collect_extends].
  eapply replay_records_tail; [done|apply run_collect|]. exact Ht.
Qed.

(** The log only grows. *)
Lemma bufio_flush_log s out : log (bufio_flush s out).1 = log s.
Proof. unfold bufio_flush. destruct (werr s); [done|]. destruct (decide _); [done|]. by destruct out. Qed.

Lemma commit_iter_log s rec i g out : log (commit_iter s rec i g out).1 = log s.
Proof.
  unfold commit_iter. destruct (fatal s); [done|]. destruct (g <=? _); [done|]. destruct (syncing s); [done|].
  pose proof (bufio_flush_log (set_syncing true s) out) as H.
  by destruct (bufio_flush (set_syncing true s) out) as [s2 [e|]].
Qed.

Lemma write_chunks_log cs : forall s outs, log (write_chunks s cs outs).1 = log s.
Proof.
  induction cs as [|c cs IH]; intros s outs; cbn [write_chunks]; [done|].
  destruct (default _ (head outs)) as [sp er]. unfold bufio_write.
  destruct (werr s); [done|]. destruct er; [done|]. by rewrite IH.
Qed.

Lemma append_start_log s rec ts now outs out : log s `prefix_of` log (append_start s rec ts now outs out).1.
Proof.
  unfold append_start. destruct (encode_record ts rec); [|done]. destruct (fatal s); [done|].
  pose proof (write_chunks_log (chunks (stamp ts rec)) s outs) as H.
  destruct (write_chunks s _ outs) as [s2 [e|]]; cbn [fst] in *; [by rewrite H|].
  destruct (shouldSyncLocked _ _); [rewrite commit_iter_log|]; cbn [fst log]; rewrite H; by apply prefix_app_r.
Qed.

Lemma Close_log s out d e1 e2 : log (Close s out d e1 e2).1 = log s.
Proof.
  unfold Close. pose proof (bufio_flush_log s out) as H. destruct (bufio_flush s out) as [s2 [e|]]; [done|].
  destruct (fd_open s2); [|done]. by destruct (syncMode s2), e1.
Qed.

Lemma step_log c c' : step c c' -> log c.1 `prefix_of` log c'.1.
Proof.
  intros Hs. destruct Hs as [s ths tid rec ts now outs out _ _|s ths tid rec i g out _|
    s ths tid rec i g sg n fl now d out _ _ _ _ _|s ths tid rec i g sg n fl d e _ _ _|s ths out d e1 e2 _ _ _ _].
  - pose proof (append_start_log s rec ts now outs out) as H. by destruct (append_start s rec ts now outs out).
  - pose proof (commit_iter_log s rec i g out) as H. destruct (commit_iter s rec i g out). cbn in *. by rewrite H.
  - pose proof (commit_iter_log (sync_ok s sg now n d) rec i g out) as H.
    destruct (commit_iter (sync_ok s sg now n d) rec i g out). cbn in *. by rewrite H.
  - done.
  - cbn [fst]. by rewrite Close_log.
Qed.

Lemma reachable_log ok mode interval now log0 c : reachable ok mode interval now log0 c -> log0 `prefix_of` log c.1.
Proof. induction 1 as [|c c' _ IH Hst _]; [done|]. etrans; [exact IH|by apply step_log]. Qed.

(** A successful [Close] leaves every record in the file. *)
Lemma Close_file s out d e1 e2 s' :
  buffers_ok s -> Close s out d e1 e2 = (s', None) -> file s' = recs_bytes (log s).
Proof.
  intros Hb HC. unfold Close in HC. destruct (bufio_flush s out) as [s2 r] eqn:EF.
  apply bufio_flush_spec in EF as (_ & (_ & _ & _ & _ & _ & C6 & _) & _ & _ & _ & Hr); [|done].
  destruct r as [e|]; [done|]. rewrite <- C6, <- (Hr eq_refl).
  destruct (fd_open s2); [destruct (syncMode s2), e1|]; by simplify_eq.
Qed.

(** C3. Durability of the write-ahead log: in mode [always], whatever the
    interleaving of concurrent appends, buffer spills, short writes, failed
    fsyncs and a close, provided no buffered write fails while another
    goroutine's fsync is in flight, a record whose [AppendRecord] returned nil
    is delivered unchanged, at its position, by a replay of any file a crash can
    leave (one that holds at least the durable bytes and at most what was
    written). *)
Theorem acked_record_survives_crash interval now log0 s ths t rec i cut opts :
  Forall record_ok log0 -> reachable no_poison_in_flight SyncAlways interval now log0 (s, ths) ->
  ths !! t = Some (Returned rec i None) -> syncMode s = SyncAlways ->
  disk s `prefix_of` cut -> cut `prefix_of` file s ->
  exists recs e, ReplayWithOptions (Contents cut) opts collect [] = Some (recs, e) /\ recs !! i = Some rec.
Proof.
  intros HF HR Ht Hm [r1 ->] _. apply reachable_inv in HR as [(Hok & _) (_ & _ & [r2 Hp]) _ Hths]; [|done].
  cbn [fst snd] in *. apply (proj1 Hths) in Ht as [Hlk Hi]. specialize (Hi Hm).
  rewrite Hp, <- app_assoc.
  destruct (replay_prefix opts (take (committed s) (log s)) (r2 ++ r1)) as (recs & e & -> & Hpre).
  { by apply Forall_take. }
  exists recs, e. split; [done|]. eapply lookup_prefix; [exact Hpre|]. rewrite lookup_take.
  by rewrite decide_True.
Qed.

(** A clean shutdown keeps everything: in every mode, when [Close] returns
    nil, replaying the file delivers, without an error, exactly the records that
    were in the log when it was opened and those appended since, in order; every
    append that returned nil is among them. *)
Theorem closed_log_replays mode interval now log0 s ths out d e1 e2 s' opts :
  Forall record_ok log0 -> reachable no_poison_in_flight mode interval now log0 (s, ths) ->
  Close s out d e1 e2 = (s', None) ->
  ReplayWithOptions (Contents (file s')) opts collect [] = Some (log s, None) /\
  log0 `prefix_of` log s /\
  forall t rec i, ths !! t = Some (Returned rec i None) -> log s !! i = Some rec.
Proof.
  intros HF HR HC. pose proof (reachable_inv _ _ _ _ _ HF HR) as [Hb _ _ Hths]. cbn [fst snd] in *.
  split; [|split].
  - rewrite (Close_file _ _ _ _ _ _ Hb HC).
    rewrite <- (app_nil_r (recs_bytes (log s))).
    eapply replay_records_tail; [by destruct Hb|apply run_collect|]. done.
  - by apply (reachable_log _ _ _ _ _ (s, ths) HR).
  - intros t rec i Ht. by apply (proj1 Hths) in Ht as [? _].
Qed.

(** ** Runs *)

Definition rec_a : WalRecord := mkRecord 1 "orders" "k" 0 [Byte.x61].
Definition rec_b : WalRecord := mkRecord 2 "orders" "k" 1 [Byte.x62].
Definition rec_c : WalRecord := mkRecord 3 "orders" "k" 2 [Byte.x63].

Definition appended (c : config) (tid : nat) (rec : WalRecord) (outs : list (nat * option Z)) : config :=
  let (s', p) := append_start c.1 rec 0 0 outs WriteAll in (s', <[tid := p]> c.2).

Definition synced (c : config) (tid : nat) (rec : WalRecord) (i : nat) (g : Z) : config :=
  let (s', p) := commit_iter (sync_ok c.1 g 0 (S i) (file c.1)) rec i g WriteAll in (s', <[tid := p]> c.2).

Lemma reach_append ok mode iv now l c tid rec outs :
  reachable ok mode iv now l c -> c.2 !! tid = None -> typed 0 rec -> ok c (appended c tid rec outs) ->
  reachable ok mode iv now l (appended c tid rec outs).
Proof.
  intros HR Hf Hty Hok. eapply reach_step; [exact HR| |exact Hok]. destruct c as [s ths]. by apply step_append.
Qed.

Lemma reach_sync ok mode iv now l c tid rec i g flushed :
  reachable ok mode iv now l c -> c.2 !! tid = Some (Fsyncing rec i g g (S i) flushed) -> fd_open c.1 = true ->
  take (length (disk c.1)) (file c.1) = disk c.1 -> take (length flushed) (file c.1) = flushed ->
  ok c (synced c tid rec i g) -> reachable ok mode iv now l (synced c tid rec i g).
Proof.
  intros HR Hf Ho H1 H2 Hok. eapply reach_step; [exact HR| |exact Hok]. destruct c as [s ths].
  apply (step_fsync_ok s ths tid rec i g g (S i) flushed 0 (file s)); try done; by apply prefix_by_take.
Qed.

Lemma reach_eta ok mode iv now l c : reachable ok mode iv now l c -> reachable ok mode iv now l (c.1, c.2).
Proof. by destruct c. Qed.

Lemma rec_typed t p pl : in_i64 t -> in_i32 p -> typed 0 (mkRecord t "orders" "k" p pl).
Proof. intros. split; [unfold in_i64; lia|done]. Qed.

(** Goroutine 0 appends and fsyncs; goroutine 1 appends meanwhile. *)
Definition run1 (mode : SyncMode) : config := appended (initial mode 0 0 []) 0 rec_a [].
Definition run2 : config := synced (run1 SyncAlways) 0 rec_a 0 1.

Lemma run2_reachable : reachable no_poison_in_flight SyncAlways 0 0 [] run2.
Proof.
  unfold run2. eapply reach_sync.
  - unfold run1. apply reach_append; [apply reach_init|reflexivity| |].
    + by apply rec_typed; vm_compute.
    + unfold no_poison_in_flight. vm_compute. discriminate.
  - vm_compute. reflexivity.
  - vm_compute. reflexivity.
  - vm_compute. reflexivity.
  - vm_compute. reflexivity.
  - unfold no_poison_in_flight. vm_compute. discriminate.
Qed.

Lemma acked_record_survives_crash_witness :
  exists recs e, ReplayWithOptions (Contents (file run2.1)) DefaultReplayOptions collect [] = Some (recs, e) /\
    recs !! 0%nat = Some rec_a.
Proof.
  apply (acked_record_survives_crash 0 0 [] run2.1 run2.2 0%nat rec_a 0%nat (file run2.1)).
  - constructor.
  - apply reach_eta. exact run2_reachable.
  - vm_compute. reflexivity.
  - vm_compute. reflexivity.
  - apply prefix_by_take. vm_compute. reflexivity.
  - apply prefix_by_take. vm_compute. reflexivity.
Defined.

Lemma closed_log_replays_witness :
  ReplayWithOptions (Contents (file (Close (run1 SyncNone).1 WriteAll [] None None).1)) DefaultReplayOptions collect [] =
    Some (log (run1 SyncNone).1, None) /\
  [] `prefix_of` log (run1 SyncNone).1 /\
  forall t rec i, (run1 SyncNone).2 !! t = Some (Returned rec i None) -> log (run1 SyncNone).1 !! i = Some rec.
Proof.
  apply (closed_log_replays SyncNone 0 0 [] (run1 SyncNone).1 (run1 SyncNone).2 WriteAll [] None None).
  - constructor.
  - apply reach_eta. unfold run1. apply reach_append; [apply reach_init|reflexivity| |].
    + by apply rec_typed; vm_compute.
    + unfold no_poison_in_flight. vm_compute. discriminate.
  - vm_compute. reflexivity.
Defined.

(** While goroutine 0 fsyncs, goroutine 1's write fails and poisons the log; the
    fsync then succeeds, and goroutine 2 appends. *)
Definition bad1 : config := appended (run1 SyncAlways) 1 rec_b [(0%nat, Some 28)].
Definition bad2 : config := synced bad1 0 rec_a 0 1.
Definition bad3 : config := appended bad2 2 rec_c [].

(** A poisoned log can report success: when a buffered write fails while
    another goroutine's fsync is in flight, that fsync's success clears the
    error that [poisonLocked] recorded, and every later [AppendRecord] in mode
    [always] returns nil without writing anything; the record is in no file a
    crash or a restart leaves. *)
Theorem poisoned_log_acks_lost_record :
  reachable (fun _ _ => True) SyncAlways 0 0 [] bad3 /\ syncMode bad3.1 = SyncAlways /\ fatal bad3.1 = true /\
  bad3.2 !! 2%nat = Some (Returned rec_c 0 None) /\
  ReplayWithOptions (Contents (file bad3.1)) DefaultReplayOptions collect [] = Some ([rec_a], None) /\
  log bad3.1 = [rec_a].
Proof.
  split; [|vm_compute; repeat split].
  unfold bad3. apply reach_append; [|vm_compute; reflexivity|by apply rec_typed; vm_compute|done].
  unfold bad2. eapply reach_sync; [|vm_compute; reflexivity..|done].
  unfold bad1. apply reach_append; [|vm_compute; reflexivity|by apply rec_typed; vm_compute|done].
  unfold run1. apply reach_append; [apply reach_init|reflexivity|by apply rec_typed; vm_compute|done].
Qed.

(** A log whose last record was torn after [k] bytes by a crash, reopened; then
    one append that is fsynced. *)
Definition torn (k : nat) : bytes := record_bytes rec_a ++ take k (record_bytes rec_b).
Definition reopened (k : nat) : config :=
  synced (appended (OpenWithOptions SyncAlways 0 0 (torn k) [rec_a], ∅) 0 rec_c []) 0 rec_c 1 1.

Definition replayed (file : bytes) : option (list WalRecord * option wal_err) :=
  ReplayWithOptions (Contents file) DefaultReplayOptions collect [].

(** A torn tail is never cut off: the broker's start replays such a log
    without an error and opens it for appending as it is, so the next records
    land behind the torn one.  They are acknowledged as durable, and the next
    start loses them: it ends without an error before them (a tear within the
    header), or refuses the log as corrupt (a tear within the body). *)
Theorem append_after_torn_tail_is_lost :
  (forall k, k = 10%nat \/ k = 30%nat ->
     replayed (torn k) = Some ([rec_a], None) /\
     (reopened k).2 !! 0%nat = Some (Returned rec_c 1 None) /\ disk (reopened k).1 = file (reopened k).1) /\
  replayed (file (reopened 10).1) = Some ([rec_a], None) /\
  replayed (file (reopened 30).1) = Some ([rec_a], Some ErrCorruptRecord).
Proof. split; [intros k [-> | ->] | ]; vm_compute; repeat split. Qed.

(** ** The log as the servers see it

    A server calls [AppendRecord] and looks at the error only.  The contract it
    relies on: an append that returned nil put exactly its record at the end of
    the log; one that was refused because of the record left the log alone; one
    that failed may have put the record into the log, and no append succeeds
    after it. *)

Class WalSink (W IO : Type) := {
  sink_append : IO -> Z -> WalRecord -> W -> W * option wal_err;
  sink_log : W -> list WalRecord;
  sink_ok : W -> Prop;
  sink_dead : W -> Prop;
  sink_append_ok io ts rec w w' :
    sink_ok w -> typed ts rec -> sink_append io ts rec w = (w', None) ->
    sink_ok w' /\ sink_log w' = sink_log w ++ [stamp ts rec] /\ record_ok (stamp ts rec);
  sink_append_err io ts rec w w' e :
    sink_ok w -> typed ts rec -> sink_append io ts rec w = (w', Some e) ->
    w' = w \/
    (sink_ok w' /\ sink_dead w' /\
     (sink_log w' = sink_log w \/ sink_log w' = sink_log w ++ [stamp ts rec] /\ record_ok (stamp ts rec)));
  sink_dead_stays io ts rec w :
    sink_ok w -> sink_dead w -> exists e, sink_append io ts rec w = (w, Some e);
  sink_records w : sink_ok w -> Forall record_ok (sink_log w)
}.

(** How the system calls of one append turn out. *)
Record wal_io := mkIO { io_now : Z; io_writes : list (nat * option Z); io_flush : write_out; io_sync : option Z }.

(** [AppendRecord] by one goroutine with no other in the log. *)
Definition AppendRecord (io : wal_io) (ts : Z) (rec : WalRecord) (s : Log) : Log * option wal_err :=
  match append_start s rec ts (io_now io) (io_writes io) (io_flush io) with
  | (s, Returned _ _ r) => (s, r)
  | (s, Committing _ _ _) => (s, None)
  | (s, Fsyncing rec i g sg n flushed) =>
      match io_sync io with
      | Some e => (sync_failed s e (disk s), Some (ErrSys e))
      | None =>
          match commit_iter (sync_ok s sg (io_now io) n (file s)) rec i g WriteAll with
          | (s, Returned _ _ r) => (s, r)
          | (s, _) => (s, None)
          end
      end
  end.

Definition idle (s : Log) : Prop := inv (s, ∅) /\ syncing s = false.

Lemma idle_of s p : inv (s, <[0%nat := p]> ∅) -> syncing s = false -> idle s.
Proof.
  intros [Hb Hd He Ht] Hs. split; [|done]. by split.
Qed.

Lemma commit_iter_idle s rec i g out s' p :
  syncing s = false -> commit_iter s rec i g out = (s', p) ->
  log s' = log s /\
  match p with
  | Returned _ _ r => syncing s' = false /\ (fatal s = false -> syncErr s = None -> r <> None -> fatal s' = true)
  | Fsyncing rec' i' g' sg n fl => rec' = rec /\ i' = i /\ g' = g /\ fatal s' = fatal s /\ sg = pendingGen s
  | Committing _ _ _ => False
  end.
Proof.
  intros Hs H. pose proof (commit_iter_log s rec i g out) as HL. rewrite H in HL. split; [done|]. clear HL.
  unfold commit_iter in H. rewrite Hs in H. destruct (fatal s) eqn:Ef; [by simplify_eq|].
  destruct (g <=? syncedGen s); [simplify_eq; split; [done|]; intros _ -> ?; done|].
  unfold bufio_flush in H. change (werr (set_syncing true s)) with (werr s) in H.
  destruct (werr s); [by simplify_eq|]. destruct (decide _); [simplify_eq; by cbn|].
  destruct out; simplify_eq; by cbn.
Qed.

(** Where [append_start] stops when no fsync is in flight. *)
Lemma append_start_idle s rec ts now outs out s' p :
  errors_ok s -> syncing s = false -> append_start s rec ts now outs out = (s', p) ->
  match p with
  | Returned _ _ None => syncing s' = false /\ log s' = log s ++ [stamp ts rec]
  | Returned _ _ (Some _) =>
      syncing s' = false /\
      (s' = s \/ fatal s' = true /\ (log s' = log s \/ log s' = log s ++ [stamp ts rec]))
  | Fsyncing rec' i g sg n fl => fatal s' = false /\ log s' = log s ++ [stamp ts rec] /\ g <= sg
  | Committing _ _ _ => False
  end.
Proof.
  intros [He1 He2] Hs H. unfold append_start in H. destruct (encode_record ts rec); [|by simplify_eq; auto].
  destruct (fatal s) eqn:Ef; [destruct (syncErr s) eqn:Ee; simplify_eq; auto|].
  pose proof (write_chunks_log (chunks (stamp ts rec)) s outs) as HL.
  assert (forall s2 r, write_chunks s (chunks (stamp ts rec)) outs = (s2, r) -> syncing s2 = false /\
    pendingGen s2 = pendingGen s /\
    match r with Some _ => fatal s2 = true | None => fatal s2 = false /\ syncErr s2 = None end) as HW.
  { clear HL H. generalize (chunks (stamp ts rec)). intros cs. revert s outs He1 He2 Hs Ef.
    induction cs as [|c cs IH]; intros s outs He1 He2 Hs Ef s2 r E; cbn [write_chunks] in E; [by simplify_eq|].
    destruct (default _ (head outs)) as [sp er]. unfold bufio_write in E.
    destruct (werr s); [by simplify_eq|]. destruct er; [by simplify_eq|]. by apply IH in E. }
  destruct (write_chunks s (chunks (stamp ts rec)) outs) as [s2 r]. cbn [fst] in HL.
  destruct (HW s2 r eq_refl) as (Hs2 & Hg2 & Hr2). destruct r as [e|]; [simplify_eq; auto|].
  destruct Hr2 as [Hf2 He3]. destruct (shouldSyncLocked _ _); [|simplify_eq; cbn; by rewrite HL].
  apply commit_iter_idle in H as [HL2 Hp]; [|exact Hs2]. cbn [log] in HL2. rewrite HL in HL2.
  destruct p as [|rec' i' g' sg n fl|rec' i' [e|]]; [done| | |].
  - destruct Hp as (-> & -> & -> & Hff & ->). cbn in *. split; [congruence|]. by split.
  - destruct Hp as [Hsy Hf]. split; [done|]. right. split; [by apply Hf|]. by right.
  - by destruct Hp.
Qed.

Lemma AppendRecord_spec io ts rec s s' r :
  idle s -> typed ts rec -> AppendRecord io ts rec s = (s', r) ->
  idle s' /\
  match r with
  | None => log s' = log s ++ [stamp ts rec]
  | Some _ => s' = s \/ fatal s' = true /\ (log s' = log s \/ log s' = log s ++ [stamp ts rec])
  end.
Proof.
  intros [HI Hsy] Hty H. unfold AppendRecord in H.
  destruct (append_start s rec ts (io_now io) (io_writes io) (io_flush io)) as [s1 p] eqn:E.
  assert (inv (s1, <[0%nat := p]> ∅)) as HI1.
  { eapply step_append_inv; [exact HI|done|exact Hty|exact E|]. intros Hc. cbn in Hc. congruence. }
  apply append_start_idle in E; [|by destruct HI|done].
  destruct p as [|rec' i g sg n fl|rec' i [e|]]; [done| | |].
  - destruct E as (Hf & HL & Hgs).
    assert (pc_ok s1 (Fsyncing rec' i g sg n fl)) as Hpc by (by apply (proj1 (inv_threads _ HI1) 0%nat)).
    destruct (io_sync io) as [e|].
    + simplify_eq. split.
      * apply (idle_of _ (Returned rec' i (Some (ErrSys e)))); [|done].
        rewrite <- (insert_insert_eq ∅ 0%nat _ (Fsyncing rec' i g sg n fl)). eapply step_inv; [exact HI1| |by intros _ [=]].
        eapply step_fsync_err; [by rewrite lookup_insert_eq|done|]. by destruct (inv_buffers _ HI1) as (_ & _ & _ & ?).
      * right. split; [done|]. by right.
    + destruct (commit_iter (sync_ok s1 sg (io_now io) n (file s1)) rec' i g WriteAll) as [s2 p2] eqn:E2.
      destruct (sync_ok_inv s1 _ 0%nat _ _ _ _ _ _ (io_now io) (file s1) HI1 (ltac:(by rewrite lookup_insert_eq)))
        as (Hb & Hd & He & Ht & Hp).
      { by destruct (inv_buffers _ HI1) as (_ & _ & _ & ?). }
      { by destruct Hpc as (_ & _ & _ & _ & _ & _ & _ & _ & ?). }
      { done. }
      assert (s2 = sync_ok s1 sg (io_now io) n (file s1) /\ p2 = Returned rec' i None) as [-> ->].
      { unfold commit_iter in E2. cbn [fatal sync_ok syncedGen syncErr] in E2. rewrite Hf in E2.
        rewrite (proj2 (Z.leb_le g sg)) in E2 by lia. by simplify_eq. }
      simplify_eq. split; [|done]. split; [|done]. split; cbn [fst snd]; try done.
  - destruct E as [Hs1 Hc]. simplify_eq. split; [by eapply idle_of|done].
  - destruct E as [Hs1 Hc]. simplify_eq. split; [by eapply idle_of|done].
Qed.

Lemma idle_records s : idle s -> Forall record_ok (log s).
Proof. intros [[(H & _) _ _ _] _]. exact H. Qed.

#[export] Program Instance wal_log_sink : WalSink Log wal_io := {
  sink_append := AppendRecord;
  sink_log := log;
  sink_ok := idle;
  sink_dead s := fatal s = true
}.
Next Obligation.
  intros io ts rec w w' Hok Hty H. destruct (AppendRecord_spec _ _ _ _ _ _ Hok Hty H) as [Hi HL].
  split; [done|]. split; [done|]. apply idle_records in Hi. rewrite HL in Hi.
  apply Forall_app in Hi as [_ Hi]. exact (proj1 (list.Forall_cons_1 _ _ _ Hi)).
Qed.
Next Obligation.
  intros io ts rec w w' e Hok Hty H. destruct (AppendRecord_spec _ _ _ _ _ _ Hok Hty H) as [Hi [->|[Hf HL]]]; [by left|].
  right. split; [done|]. split; [done|]. destruct HL as [HL|HL]; [by left|right]. split; [done|].
  apply idle_records in Hi. rewrite HL in Hi. apply Forall_app in Hi as [_ Hi]. exact (proj1 (list.Forall_cons_1 _ _ _ Hi)).
Qed.
Next Obligation.
  intros io ts rec w [HI _] Hf. destruct HI as [_ _ [He _] _]. cbn [fst] in He. rewrite Hf in He.
  unfold AppendRecord, append_start. destruct (encode_record ts rec) as [b|e]; [|by exists e].
  rewrite Hf. destruct (syncErr w) as [e|]; [by exists e|done].
Qed.
Next Obligation. intros w. apply idle_records. Qed.

Lemma idle_open mode interval now log0 :
  Forall record_ok log0 -> idle (OpenWithOptions mode interval now (concat (map record_bytes log0)) log0).
Proof. intros HF. split; [|done]. exact (initial_inv mode interval now log0 HF). Qed.
End WalCommit.
