(* ===== verification/ShardFormat.v ===== *)
(** * The per-shard log file (internal/cluster/shardwal/shardwal.go)

    The record layout [Shard.Append] writes, the scan [recoverTail] makes when a
    shard is opened, and [Shard.Replay]. The group commit of concurrent appends is
    in [ShardLog]. *)

From S2P Require Import Prelude GoLib.
Open Scope Z_scope.
Open Scope go_scope.

Module ShardFile.

Definition MaxPayloadSize : Z := Z.shiftl 64 20.

(** A record: its offset is its position in the file. *)
Record ShardRecord := mkShardRecord { Offset : Z; Payload : bytes }.

Inductive shard_err :=
| ErrTooLarge (n : Z)          (* "payload too large", "record too large" *)
| ErrCRC (offset : Z)          (* "CRC mismatch at offset" *)
| ErrClosed                    (* "shardwal: closed" *)
| ErrStop                      (* the io.EOF a replay callback returns to stop *)
| ErrOther (code : Z).         (* an error of the operating system or the callback *)

(** The header and payload that [Append] writes. *)
Definition shard_record_bytes (payload : bytes) : bytes :=
  be_bytes 4 (u32 (zlen payload)) ++ be_bytes 4 (crc32c payload) ++ payload.

(** One step of the scan both [recoverTail] and [Replay] make. *)
Inductive scan :=
| ScanEOF                              (* clean end of file *)
| ScanPartial                          (* the file ends inside a record *)
| ScanTooLarge (n : Z)
| ScanBadCRC
| ScanRecord (body rest : bytes).

Definition scan_record (r : bytes) : scan :=
  match read_full 8 r with
  | Err EOF => ScanEOF
  | Err UnexpectedEOF => ScanPartial
  | Ok (hdr, r) =>
      let payloadLen := be_val (slice 0 4 hdr) in
      if MaxPayloadSize <? payloadLen then ScanTooLarge payloadLen
      else
        match read_full (Z.to_nat payloadLen) r with
        | Err _ => ScanPartial
        | Ok (body, r) =>
            let want := be_val (slice 4 8 hdr) in
            if crc32c body =? want then ScanRecord body r else ScanBadCRC
        end
  end.

(** The loop of [recoverTail]: [s.tail] is [tail] on entry and becomes the count
    only at a clean end of file; a partial tail returns early. *)
Fixpoint recover_loop (fuel : nat) (r : bytes) (count tail : Z) : option (Z * option shard_err) :=
  match fuel with
  | O => None
  | S fuel =>
      match scan_record r with
      | ScanEOF => Some (count, None)
      | ScanPartial => Some (tail, None)
      | ScanTooLarge n => Some (tail, Some (ErrTooLarge n))
      | ScanBadCRC => Some (tail, Some (ErrCRC count))
      | ScanRecord _ r => recover_loop fuel r (u64 (count + 1)) tail
      end
  end.

(** [recoverTail] on a freshly allocated handle, whose tail is 0. *)
Definition recoverTail (file : bytes) : option (Z * option shard_err) :=
  recover_loop (S (length file)) file 0 0.

(** The fields [Open] sets; the write position is the end of the file. *)
Record opened := mkOpened {
  o_tail : Z;
  o_synced : Z;
  o_pendingGen : Z;
  o_file : bytes
}.

Definition Open (file : bytes) : option (result shard_err opened) :=
  match recoverTail file with
  | None => None
  | Some (_, Some e) => Some (Err e)
  | Some (tail, None) => Some (Ok (mkOpened tail tail 1 file))
  end.

(** [Replay]: a callback over every record at or after [fromOffset]; a partial
    tail ends the replay without an error. *)
Fixpoint shard_replay_loop {S : Type} (fuel : nat) (fromOffset : Z)
    (fn : S -> Z -> bytes -> S * option shard_err) (r : bytes) (offset : Z) (s : S) :
    option (S * option shard_err) :=
  match fuel with
  | O => None
  | S fuel =>
      match scan_record r with
      | ScanEOF => Some (s, None)
      | ScanPartial => Some (s, None)
      | ScanTooLarge _ => Some (s, Some (ErrTooLarge offset))
      | ScanBadCRC => Some (s, Some (ErrCRC offset))
      | ScanRecord body r =>
          if fromOffset <=? offset then
            match fn s offset body with
            | (s, Some e) => Some (s, Some e)
            | (s, None) => shard_replay_loop fuel fromOffset fn r (u64 (offset + 1)) s
            end
          else shard_replay_loop fuel fromOffset fn r (u64 (offset + 1)) s
      end
  end.

Definition ShardReplay {S : Type} (file : bytes) (fromOffset : Z)
    (fn : S -> Z -> bytes -> S * option shard_err) (s : S) : option (S * option shard_err) :=
  shard_replay_loop (Datatypes.S (length file)) fromOffset fn file 0 s.

(** The callback that collects the records. *)
Definition collect (acc : list ShardRecord) (offset : Z) (body : bytes) :
    list ShardRecord * option shard_err := (acc ++ [mkShardRecord offset body], None).

(** The file that holds the given payloads. *)
Definition shard_bytes (log : list bytes) : bytes := concat (map shard_record_bytes log).

Definition payload_ok (p : bytes) : Prop := zlen p <= MaxPayloadSize.

(** The records of a log with their offsets. *)
Definition numbered (from : Z) (log : list bytes) : list ShardRecord :=
  imap (fun i p => mkShardRecord (from + Z.of_nat i) p) log.

(** ** Scanning one record *)

Lemma MaxPayloadSize_val : MaxPayloadSize = 67108864.
Proof. done. Qed.

Lemma payload_hdr p :
  payload_ok p -> be_val (be_bytes 4 (u32 (zlen p))) = zlen p /\ u32 (zlen p) = zlen p.
Proof.
  unfold payload_ok. rewrite MaxPayloadSize_val. intros H.
  rewrite wrap_u_small by lia. by rewrite be_val_bytes_small by lia.
Qed.

Lemma scan_hdr p r :
  payload_ok p ->
  scan_record (be_bytes 4 (u32 (zlen p)) ++ be_bytes 4 (crc32c p) ++ r) =
    match read_full (length p) r with
    | Err _ => ScanPartial
    | Ok (body, r) => if crc32c body =? crc32c p then ScanRecord body r else ScanBadCRC
    end.
Proof.
  intros Hp. unfold scan_record.
  assert (forall z, length (be_bytes 4 z) = 4%nat) as L4 by (intros; apply length_be_bytes).
  rewrite app_assoc, read_full_app by (rewrite length_app, !L4; done).
  rewrite slice_prefix by (by rewrite L4).
  rewrite slice_last by (rewrite ?L4; done).
  destruct (payload_hdr p Hp) as [-> _].
  unfold payload_ok in Hp.
  replace (MaxPayloadSize <? zlen p) with false by (symmetry; apply Z.ltb_ge; lia).
  rewrite Nat2Z.id, be_val_bytes_small by apply crc32c_range. done.
Qed.

Lemma scan_record_ok p rest :
  payload_ok p -> scan_record (shard_record_bytes p ++ rest) = ScanRecord p rest.
Proof.
  intros Hp. unfold shard_record_bytes. rewrite <- !app_assoc, scan_hdr by done.
  by rewrite read_full_app, Z.eqb_refl.
Qed.

Lemma length_shard_record_bytes p : length (shard_record_bytes p) = (8 + length p)%nat.
Proof. unfold shard_record_bytes. rewrite !length_app, !length_be_bytes. lia. Qed.

Lemma scan_torn p k :
  payload_ok p -> (0 < k < length (shard_record_bytes p))%nat ->
  scan_record (take k (shard_record_bytes p)) = ScanPartial.
Proof.
  intros Hp Hk. rewrite length_shard_record_bytes in Hk. unfold shard_record_bytes.
  assert (forall z, length (be_bytes 4 z) = 4%nat) as L4 by (intros; apply length_be_bytes).
  destruct (decide (k < 8)%nat).
  - unfold scan_record. rewrite read_full_short; [done| |rewrite length_take; lia].
    intros E. apply (f_equal length) in E. rewrite length_take, !length_app, !L4 in E. simpl in E. lia.
  - rewrite app_assoc, take_app, (take_ge (be_bytes 4 _ ++ _)) by (rewrite length_app, !L4; lia).
    rewrite <- app_assoc, scan_hdr by done. rewrite length_app, !L4.
    destruct (read_full (length p) (take (k - (4 + 4)) p)) as [[b r]|e] eqn:E; [|done].
    apply read_full_inv in E as [E L]. apply (f_equal length) in E.
    rewrite length_take, length_app in E. lia.
Qed.

(** ** Totality of the scans *)

Lemma scan_consumes r body rest :
  scan_record r = ScanRecord body rest -> (length rest < length r)%nat.
Proof.
  unfold scan_record. intros H.
  destruct (read_full 8 r) as [[h r1]|[]] eqn:E; [|done..].
  apply read_full_inv in E as [-> L].
  repeat (go_case; try done). simplify_eq.
  match goal with H : read_full _ _ = Ok _ |- _ => apply read_full_inv in H as [-> ?] end.
  rewrite !length_app. lia.
Qed.

Lemma recover_loop_mono fuel k r c t x :
  recover_loop fuel r c t = Some x -> recover_loop (fuel + k) r c t = Some x.
Proof.
  revert r c. induction fuel as [|fuel IH]; intros r c H; [done|]. simpl in *.
  destruct (scan_record r); try done. by apply IH.
Qed.

Lemma recover_loop_total fuel r c t :
  (length r < fuel)%nat -> is_Some (recover_loop fuel r c t).
Proof.
  revert r c. induction fuel as [|fuel IH]; intros r c H; [lia|]. simpl.
  destruct (scan_record r) eqn:E; try by eexists.
  apply IH. apply scan_consumes in E. lia.
Qed.

Lemma shard_replay_mono {S} fuel k from (fn : S -> Z -> bytes -> S * option shard_err) r o s x :
  shard_replay_loop fuel from fn r o s = Some x ->
  shard_replay_loop (fuel + k) from fn r o s = Some x.
Proof.
  revert r o s. induction fuel as [|fuel IH]; intros r o s H; [done|]. simpl in *.
  destruct (scan_record r); try done. destruct (from <=? o); [|by apply IH].
  destruct (fn s o body) as [s' [e|]]; [done|]. by apply IH.
Qed.

Lemma length_shard_bytes log : (length log <= length (shard_bytes log))%nat.
Proof.
  unfold shard_bytes. induction log as [|p log IH]; cbn [map concat length]; [lia|].
  rewrite length_app, length_shard_record_bytes. lia.
Qed.

Lemma recover_loop_records log fuel tail c t :
  Forall payload_ok log -> 0 <= c -> c + zlen log < 2 ^ 64 ->
  recover_loop (length log + fuel) (shard_bytes log ++ tail) c t =
    recover_loop fuel tail (c + zlen log) t.
Proof.
  intros HF. revert c. induction HF as [|p log Hp HF IH]; intros c Hc Hb.
  { simpl. by rewrite Z.add_0_r. }
  unfold shard_bytes in *. cbn [map concat length Nat.add recover_loop] in *.
  rewrite <- app_assoc, scan_record_ok by done.
  rewrite wrap_u_small by lia. rewrite IH by lia. f_equal. lia.
Qed.

Lemma numbered_cons from p log : numbered from (p :: log) = mkShardRecord from p :: numbered (from + 1) log.
Proof.
  unfold numbered. cbn [imap]. rewrite Z.add_0_r. f_equal. apply imap_ext.
  intros i x _. simpl. f_equal. lia.
Qed.

(** Replaying whole records from position [o] on delivers those at or past [from]. *)
Lemma shard_replay_records log fuel from tail o acc :
  Forall payload_ok log -> 0 <= o -> o + zlen log < 2 ^ 64 ->
  shard_replay_loop (length log + fuel) from collect (shard_bytes log ++ tail) o acc =
    shard_replay_loop fuel from collect tail (o + zlen log)
      (acc ++ filter (fun r => from <= Offset r) (numbered o log)).
Proof.
  intros HF. revert o acc. induction HF as [|p log Hp HF IH]; intros o acc Ho Hb.
  { simpl. by rewrite Z.add_0_r, app_nil_r. }
  rewrite numbered_cons. unfold shard_bytes in *.
  cbn [map concat length Nat.add shard_replay_loop] in *.
  rewrite <- app_assoc, scan_record_ok by done.
  rewrite wrap_u_small by lia. rewrite filter_cons. cbn [Offset].
  destruct (from <=? o) eqn:E; go_bool; simpl.
  - rewrite decide_True by lia. rewrite IH by lia.
    rewrite <- app_assoc. simpl. f_equal. lia.
  - rewrite decide_False by lia. rewrite IH by lia. f_equal. lia.
Qed.

(** ** The claims *)

Lemma replay_file log tail from acc res :
  Forall payload_ok log -> zlen log < 2 ^ 64 ->
  shard_replay_loop (S (length tail)) from collect tail (zlen log)
    (acc ++ filter (fun r => from <= Offset r) (numbered 0 log)) = Some res ->
  ShardReplay (shard_bytes log ++ tail) from collect acc = Some res.
Proof.
  intros HF Hb H. unfold ShardReplay. rewrite length_app.
  pose proof (length_shard_bytes log).
  set (k := (length (shard_bytes log) - length log)%nat).
  replace (Datatypes.S _) with ((length log + S (length tail)) + k)%nat by (subst k; lia).
  apply shard_replay_mono. rewrite shard_replay_records by (done || lia). done.
Qed.

Lemma recover_file log tail res :
  Forall payload_ok log -> zlen log < 2 ^ 64 ->
  recover_loop (S (length tail)) tail (zlen log) 0 = Some res ->
  recoverTail (shard_bytes log ++ tail) = Some res.
Proof.
  intros HF Hb H. unfold recoverTail. rewrite length_app.
  pose proof (length_shard_bytes log).
  set (k := (length (shard_bytes log) - length log)%nat).
  replace (S _) with ((length log + S (length tail)) + k)%nat by (subst k; lia).
  apply recover_loop_mono. rewrite recover_loop_records by (done || lia). done.
Qed.

Lemma replay_torn_file log p k from :
  Forall payload_ok log -> payload_ok p -> zlen log < 2 ^ 64 ->
  (k < length (shard_record_bytes p))%nat ->
  ShardReplay (shard_bytes log ++ take k (shard_record_bytes p)) from collect [] =
    Some (filter (fun r => from <= Offset r) (numbered 0 log), None).
Proof.
  intros HF Hp Hb Hk. apply replay_file; [done..|]. cbn [shard_replay_loop].
  destruct k as [|k]; [done|]. rewrite scan_torn by (done || lia). done.
Qed.

Lemma filter_numbered from log : 0 <= from ->
  filter (fun r => 0 <= Offset r) (numbered from log) = numbered from log.
Proof.
  intros Hf. revert from Hf. induction log as [|p log IH]; intros from Hf; [done|].
  rewrite numbered_cons, filter_cons_True by (simpl; lia). by rewrite IH by lia.
Qed.

(** [Replay] over a shard file whose last record was torn at any byte delivers
    exactly the whole records with an offset of at least [from], in order, each with
    its position as the offset, and reports no error. *)
Theorem shard_replay_spec log p k from :
  Forall payload_ok log -> payload_ok p -> zlen log < 2 ^ 64 ->
  (k < length (shard_record_bytes p))%nat ->
  ShardReplay (shard_bytes log ++ take k (shard_record_bytes p)) from collect [] =
    Some (filter (fun r => from <= Offset r) (numbered 0 log), None).
Proof. apply replay_torn_file. Qed.

Lemma shard_replay_spec_witness :
  ShardReplay (shard_bytes [[Byte.x61]; [Byte.x62]; []] ++ take 8 (shard_record_bytes [Byte.x63]))
    1 collect [] = Some ([mkShardRecord 1 [Byte.x62]; mkShardRecord 2 []], None).
Proof.
  rewrite (shard_replay_spec [[Byte.x61]; [Byte.x62]; []] [Byte.x63] 8 1).
  - reflexivity.
  - repeat constructor; vm_compute; discriminate.
  - vm_compute. discriminate.
  - reflexivity.
  - apply Nat.ltb_lt. vm_compute. reflexivity.
Defined.

(** Opening a shard file that ends with a whole record sets the tail and the
    durable count to the number of records, so the next append gets the next offset. *)
Theorem open_clean_file log :
  Forall payload_ok log -> zlen log < 2 ^ 64 ->
  Open (shard_bytes log) = Some (Ok (mkOpened (zlen log) (zlen log) 1 (shard_bytes log))).
Proof.
  intros HF Hb. unfold Open. rewrite <- (app_nil_r (shard_bytes log)) at 1.
  by rewrite (recover_file log [] (zlen log, None)).
Qed.

Lemma open_clean_file_witness :
  Open (shard_bytes [[Byte.x61]; [Byte.x62]]) =
    Some (Ok (mkOpened 2 2 1 (shard_bytes [[Byte.x61]; [Byte.x62]]))).
Proof.
  apply (open_clean_file [[Byte.x61]; [Byte.x62]]).
  - repeat constructor; vm_compute; discriminate.
  - reflexivity.
Defined.

(** Opening a shard file whose last record was torn by a crash does not count
    the whole records before it: [recoverTail] returns early, the tail stays 0, and
    the next append will be given offset 0 again, after the torn bytes. *)
Theorem open_torn_file_loses_tail log p k :
  Forall payload_ok log -> payload_ok p -> zlen log < 2 ^ 64 ->
  (0 < k < length (shard_record_bytes p))%nat ->
  Open (shard_bytes log ++ take k (shard_record_bytes p)) =
    Some (Ok (mkOpened 0 0 1 (shard_bytes log ++ take k (shard_record_bytes p)))).
Proof.
  intros HF Hp Hb Hk. unfold Open. rewrite (recover_file log _ (0, None)); [done..|].
  cbn [recover_loop]. by rewrite scan_torn.
Qed.

Lemma open_torn_file_loses_tail_witness :
  Open (shard_bytes [[Byte.x61]; [Byte.x62]] ++ take 3 (shard_record_bytes [Byte.x63])) =
    Some (Ok (mkOpened 0 0 1
      (shard_bytes [[Byte.x61]; [Byte.x62]] ++ take 3 (shard_record_bytes [Byte.x63])))).
Proof.
  apply (open_torn_file_loses_tail [[Byte.x61]; [Byte.x62]] [Byte.x63] 3).
  - repeat constructor; vm_compute; discriminate.
  - vm_compute. discriminate.
  - reflexivity.
  - split; apply Nat.ltb_lt; vm_compute; reflexivity.
Defined.
End ShardFile.
