(* ===== verification/ShardLog.v ===== *)
(** * Group commit of a shard's concurrent appends (internal/cluster/shardwal/shardwal.go)

    [Shard.Append] and [groupCommitLocked] as a transition system: the fields of
    [Shard] guarded by its mutex, the buffered writer, the file and its durable
    part, and a program point per appending goroutine. Every critical section is
    one step; the goroutine that fsyncs does so between two steps, with the mutex
    released, so other goroutines append meanwhile. Generations and offsets are
    unbounded here: 2^64 appends to one file are out of reach.

    The theorem: an append that returned its offset without an error is on disk,
    at that offset, and is delivered by a replay of whatever a crash leaves. *)

From S2P Require Import Prelude GoLib ShardFormat.
Import ShardFile.
Open Scope Z_scope.

Module ShardCommit.

Record Shard := mkShard {
  tail : Z;                  (* records appended; the next offset *)
  synced : Z;                (* records durably fsynced *)
  closed : bool;
  pendingGen : Z;
  syncedGen : Z;
  syncing : bool;
  syncErr : option Z;
  buf : bytes;               (* bufio.Writer: bytes not yet written *)
  werr : option Z;           (* bufio.Writer: its sticky error *)
  fd_open : bool;
  file : bytes;              (* what write(2) has put into the file *)
  disk : bytes;              (* the durable prefix of it *)
  log : list bytes           (* every payload given an offset, in order *)
}.

(** Where a goroutine inside [Append(payload)] is. *)
Inductive pc :=
| Committing (payload : bytes) (myGen off : Z)
    (* in groupCommitLocked, about to (re)take the mutex at the loop's head *)
| Fsyncing (payload : bytes) (myGen off syncingGen flushedTail : Z) (flushed : bytes)
    (* in f.Sync() for a generation; [flushed] is the file when it was called *)
| Returned (payload : bytes) (r : result shard_err Z).

(** A write(2) outcome: complete, or an error after [n] bytes. *)
Inductive write_out := WriteAll | WriteErr (code : Z) (n : nat).

(** [bufio.Writer.Write]: the bytes join the buffer; it spills [n] bytes of the
    buffer to the file when it fills up, and an error sticks. *)
Definition bufio_write (s : Shard) (p : bytes) (spill : nat) (err : option Z) :
    Shard * option Z :=
  match werr s with
  | Some e => (s, Some e)
  | None =>
      ({| s with file := file s ++ take spill (buf s ++ p);
                 buf := drop spill (buf s ++ p);
                 werr := err |}, err)
  end.

Definition bufio_flush (s : Shard) (out : write_out) : Shard * option Z :=
  match werr s with
  | Some e => (s, Some e)
  | None =>
      if decide (buf s = []) then (s, None)
      else match out with
           | WriteAll => ({| s with file := file s ++ buf s; buf := [] |}, None)
           | WriteErr e n =>
               ({| s with file := file s ++ take n (buf s);
                          buf := drop n (buf s);
                          werr := Some e |}, Some e)
           end
  end.

(** One iteration of [groupCommitLocked]'s loop, from its head until the mutex is
    released: return, wait, or flush and start the fsync. *)
Definition commit_iter (s : Shard) (payload : bytes) (myGen off : Z) (out : write_out) :
    Shard * pc :=
  if myGen <=? syncedGen s then
    (s, Returned payload
          (match syncErr s with None => Ok off | Some e => Err (ErrOther e) end))
  else if syncing s then (s, Committing payload myGen off)
  else
    let s := {| s with syncing := true |} in
    let syncingGen := pendingGen s in
    let flushedTail := tail s in
    match bufio_flush s out with
    | (s, Some e) =>
        ({| s with syncErr := Some e; syncing := false |}, Returned payload (Err (ErrOther e)))
    | (s, None) =>
        ({| s with pendingGen := pendingGen s + 1 |},
         Fsyncing payload myGen off syncingGen flushedTail (file s))
    end.

(** After a successful [f.Sync()], up to the loop's next iteration. *)
Definition sync_ok (s : Shard) (syncingGen flushedTail : Z) (durable : bytes) : Shard :=
  {| s with syncedGen := syncingGen; synced := flushedTail; syncErr := None;
            syncing := false; disk := durable |}.

Definition sync_failed (s : Shard) (e : Z) (durable : bytes) : Shard :=
  {| s with syncErr := Some e; syncing := false; disk := durable |}.

(** [Append] up to the first release of the mutex. *)
Definition append_start (s : Shard) (payload : bytes)
    (spill1 spill2 : nat) (err1 err2 : option Z) (out : write_out) : Shard * pc :=
  if MaxPayloadSize <? zlen payload then
    (s, Returned payload (Err (ErrTooLarge (zlen payload))))
  else if closed s then (s, Returned payload (Err ErrClosed))
  else
    let hdr := be_bytes 4 (u32 (zlen payload)) ++ be_bytes 4 (crc32c payload) in
    match bufio_write s hdr spill1 err1 with
    | (s, Some e) => (s, Returned payload (Err (ErrOther e)))
    | (s, None) =>
        match bufio_write s payload spill2 err2 with
        | (s, Some e) => (s, Returned payload (Err (ErrOther e)))
        | (s, None) =>
            let off := tail s in
            let s := {| s with tail := tail s + 1; log := log s ++ [payload] |} in
            commit_iter s payload (pendingGen s) off out
        end
    end.

(** [Close] once no fsync is in flight; [sync_err] and [close_err] are what
    [f.Sync] and [f.Close] return. *)
Definition close_shard (s : Shard) (out : write_out) (durable : bytes)
    (sync_err close_err : option Z) : Shard :=
  if closed s then s
  else
    match bufio_flush {| s with closed := true |} out with
    | (s, Some _) => s
    | (s, None) =>
        match sync_err with
        | Some _ => {| s with disk := durable |}
        | None => {| s with disk := durable; fd_open := false |}
        end
    end.

Abbreviation config := (Shard * gmap nat pc)%type.

(** The interleavings of concurrent [Append]s and a [Close]. What fsync leaves on
    disk always extends what was durable, never exceeds the file, and on success
    holds everything that was in the file when it was called. *)
Inductive step : config -> config -> Prop :=
| step_append s ths tid payload n1 n2 e1 e2 out :
    ths !! tid = None ->
    step (s, ths)
      (let (s', p) := append_start s payload n1 n2 e1 e2 out in (s', <[tid := p]> ths))
| step_wake s ths tid payload g off out :
    ths !! tid = Some (Committing payload g off) ->
    step (s, ths)
      (let (s', p) := commit_iter s payload g off out in (s', <[tid := p]> ths))
| step_fsync_ok s ths tid payload g off sg ft flushed d out :
    ths !! tid = Some (Fsyncing payload g off sg ft flushed) ->
    fd_open s = true ->
    disk s `prefix_of` d -> flushed `prefix_of` d -> d `prefix_of` file s ->
    step (s, ths)
      (let (s', p) := commit_iter (sync_ok s sg ft d) payload g off out in
       (s', <[tid := p]> ths))
| step_fsync_err s ths tid payload g off sg ft flushed d e :
    ths !! tid = Some (Fsyncing payload g off sg ft flushed) ->
    disk s `prefix_of` d -> d `prefix_of` file s ->
    step (s, ths)
      (sync_failed s e d, <[tid := Returned payload (Err (ErrOther e))]> ths)
| step_close s ths out d e1 e2 :
    syncing s = false -> disk s `prefix_of` d ->
    d `prefix_of` file (close_shard s out d e1 e2) ->
    step (s, ths) (close_shard s out d e1 e2, ths).

(** The state [Open] makes of a file that holds the records [log0]. *)
Definition initial (log0 : list bytes) : config :=
  (mkShard (zlen log0) (zlen log0) false 1 0 false None [] None true
     (shard_bytes log0) (shard_bytes log0) log0, ∅).

Inductive reachable (log0 : list bytes) : config -> Prop :=
| reach_init : reachable log0 (initial log0)
| reach_step c c' : reachable log0 c -> step c c' -> reachable log0 c'.

(** ** The invariant *)

Definition buffers_ok (s : Shard) : Prop :=
  tail s = zlen (log s) /\ Forall payload_ok (log s) /\
  (werr s = None -> file s ++ buf s = shard_bytes (log s)) /\
  (exists extra, Forall payload_ok extra /\ file s `prefix_of` shard_bytes (log s ++ extra)) /\
  disk s `prefix_of` file s.

Definition durable_ok (s : Shard) : Prop :=
  0 <= synced s <= tail s /\ 0 <= syncedGen s < pendingGen s /\
  shard_bytes (take (Z.to_nat (synced s)) (log s)) `prefix_of` disk s.

Definition pc_ok (s : Shard) (p : pc) : Prop :=
  match p with
  | Committing payload g off =>
      0 <= off /\ log s !! Z.to_nat off = Some payload /\ g <= pendingGen s /\
      (g <= syncedGen s -> off < synced s)
  | Fsyncing payload g off sg ft flushed =>
      syncing s = true /\ log s !! Z.to_nat off = Some payload /\
      g <= sg /\ sg + 1 = pendingGen s /\ syncedGen s < sg /\
      0 <= off < ft /\ synced s <= ft <= tail s /\
      flushed = shard_bytes (take (Z.to_nat ft) (log s)) /\ flushed `prefix_of` file s
  | Returned payload (Ok off) =>
      log s !! Z.to_nat off = Some payload /\ 0 <= off < synced s
  | Returned _ (Err _) => True
  end.

Definition pair_ok (p q : pc) : Prop :=
  match p, q with
  | Committing _ g off, Fsyncing _ _ _ sg ft _ => g <= sg -> off < ft
  | Fsyncing _ _ _ _ _ _, Fsyncing _ _ _ _ _ _ => False
  | _, _ => True
  end.

Definition threads_ok (s : Shard) (ths : gmap nat pc) : Prop :=
  (forall t p, ths !! t = Some p -> pc_ok s p) /\
  (forall t u p q, t <> u -> ths !! t = Some p -> ths !! u = Some q -> pair_ok p q).

Definition inv (c : config) : Prop :=
  buffers_ok c.1 /\ durable_ok c.1 /\ threads_ok c.1 c.2.

(** Everything but the writer's buffer, its error and the file's growth is kept. *)
Definition same_core (s s' : Shard) : Prop :=
  tail s' = tail s /\ synced s' = synced s /\ pendingGen s' = pendingGen s /\
  syncedGen s' = syncedGen s /\ syncing s' = syncing s /\ syncErr s' = syncErr s /\
  disk s' = disk s /\ log s' = log s /\ file s `prefix_of` file s'.

(** ** The buffered writer *)

Lemma shard_bytes_app a b : shard_bytes (a ++ b) = shard_bytes a ++ shard_bytes b.
Proof. unfold shard_bytes. by rewrite map_app, concat_app. Qed.

Lemma shard_bytes_one p : shard_bytes [p] = shard_record_bytes p.
Proof. unfold shard_bytes. simpl. by rewrite app_nil_r. Qed.

Lemma shard_bufio_write_spec s p n err s' r :
  bufio_write s p n err = (s', r) ->
  same_core s s' /\
  match werr s with
  | Some e => s' = s /\ r = Some e
  | None => werr s' = err /\ r = err /\ file s' ++ buf s' = file s ++ buf s ++ p /\
            file s' `prefix_of` file s ++ buf s ++ p
  end.
Proof.
  unfold bufio_write. intros H. destruct (werr s); simplify_eq; (split; [|try done]).
  - unfold same_core. split_and!; done.
  - unfold same_core. simpl. split_and!; try done. by apply prefix_app_r.
  - simpl. split_and!; try done.
    + by rewrite <- app_assoc, take_drop.
    + apply take_prefix_of.
Qed.

Lemma shard_bufio_flush_spec s out s' r :
  buffers_ok s -> bufio_flush s out = (s', r) ->
  buffers_ok s' /\ same_core s s' /\ (r = None -> file s' = shard_bytes (log s')).
Proof.
  intros (Ht & Hp & Hw & Hx & Hd) H. unfold bufio_flush in H.
  destruct (werr s) as [e|] eqn:Ew; simplify_eq.
  { split; [|split; [|done]].
    - unfold buffers_ok. rewrite Ew. done.
    - unfold same_core. split_and!; done. }
  specialize (Hw eq_refl).
  case_decide as Eb; simplify_eq.
  { split; [|split].
    - unfold buffers_ok. split_and!; done.
    - unfold same_core. split_and!; done.
    - intros _. by rewrite Eb, app_nil_r in Hw. }
  assert (file s ++ buf s `prefix_of` shard_bytes (log s ++ [])) as Hfull
    by (by rewrite Hw, app_nil_r).
  destruct out as [|e n]; simplify_eq; unfold buffers_ok, same_core; simpl.
  - split_and!; try done; try (intros _; by rewrite ?app_nil_r); try by apply prefix_app_r.
    by exists [].
  - split_and!; try done; try by apply prefix_app_r.
    exists []. split; [done|]. by etrans; [apply take_prefix_of|].
Qed.

(** ** Frame lemmas *)

Lemma shard_pc_ok_frame s s' p :
  tail s = zlen (log s) -> tail s <= tail s' ->
  log s `prefix_of` log s' -> file s `prefix_of` file s' ->
  synced s' = synced s -> pendingGen s' = pendingGen s -> syncedGen s' = syncedGen s ->
  syncing s' = syncing s ->
  pc_ok s p -> pc_ok s' p.
Proof.
  intros Ht Htt Hl Hf E1 E2 E3 E4. destruct p as [pl g off|pl g off sg ft fl|pl [off|e]]; simpl;
    rewrite ?E1, ?E2, ?E3, ?E4; [| | |done].
  - intros (? & ? & ? & ?). split_and!; try done. by eapply lookup_prefix.
  - intros (? & ? & ? & ? & ? & ? & ? & -> & ?). split_and!; try done; try lia.
    + by eapply lookup_prefix.
    + by rewrite (take_prefix_eq (log s) (log s')) by (done || lia).
    + by etrans.
  - intros [? ?]. split; [|done]. by eapply lookup_prefix.
Qed.

Lemma shard_durable_ok_frame s s' :
  tail s = zlen (log s) -> tail s <= tail s' -> log s `prefix_of` log s' ->
  synced s' = synced s -> syncedGen s' = syncedGen s -> pendingGen s <= pendingGen s' ->
  disk s `prefix_of` disk s' -> durable_ok s -> durable_ok s'.
Proof.
  intros Ht Htt Hl E1 E2 E3 Hd (? & ? & ?). unfold durable_ok. rewrite E1, E2.
  split_and!; try lia. rewrite (take_prefix_eq (log s) (log s')) by (done || lia). by etrans.
Qed.

Lemma shard_threads_ok_insert s s' ths tid p :
  threads_ok s ths ->
  (forall u q, u <> tid -> ths !! u = Some q -> pc_ok s' q) ->
  pc_ok s' p ->
  (forall u q, u <> tid -> ths !! u = Some q -> pair_ok p q /\ pair_ok q p) ->
  threads_ok s' (<[tid := p]> ths).
Proof.
  intros [H1 H2] Hothers Hp Hpair. split.
  - intros t q Hq. rewrite lookup_insert in Hq. case_decide; simplify_eq; [done|]. eauto.
  - intros t u q q' Htu Hq Hq'. rewrite lookup_insert in Hq, Hq'.
    repeat case_decide; simplify_eq.
    + by destruct (Hpair t q).
    + by destruct (Hpair u q').
    + exact (H2 t u q q' Htu Hq Hq').
Qed.

(** ** Preservation *)

(** Entering the loop: the goroutine's own record is in the log and its generation
    is at most the pending one. *)
Lemma shard_commit_iter_inv s ths tid payload g off out s' p :
  buffers_ok s -> durable_ok s -> threads_ok s (delete tid ths) ->
  pc_ok s (Committing payload g off) ->
  (forall u q, u <> tid -> ths !! u = Some q -> pair_ok (Committing payload g off) q) ->
  commit_iter s payload g off out = (s', p) ->
  inv (s', <[tid := p]> ths).
Proof.
  intros Hb Hd Ht Hpc Hpair H. rewrite <- (insert_delete_eq ths).
  assert (forall u q, u <> tid -> delete tid ths !! u = Some q -> ths !! u = Some q) as Hdel
    by (intros u q Hu; by rewrite lookup_delete_ne).
  pose proof Hpc as (Ho & Hlk & Hg & Hs). pose proof Hb as (Htail & _).
  unfold commit_iter in H. destruct (g <=? syncedGen s) eqn:Eg; go_bool.
  { simplify_eq. split_and!; [done..|]. apply (shard_threads_ok_insert s'); [done| | |].
    - intros u q _ Hq. by apply Ht in Hq.
    - destruct (syncErr s'); simpl; [done|]. split; [done|]. specialize (Hs ltac:(lia)). lia.
    - intros u q Hu Hq. split; [done|]. by destruct q. }
  destruct (syncing s) eqn:Esy.
  { simplify_eq. split_and!; [done..|]. apply (shard_threads_ok_insert s'); [done| |done|].
    - intros u q _ Hq. by apply Ht in Hq.
    - intros u q Hu Hq. split; [by eapply Hpair, Hdel|]. by destruct q. }
  assert (forall u q, u <> tid -> delete tid ths !! u = Some q ->
            match q with Fsyncing _ _ _ _ _ _ => False | _ => True end) as Hnf.
  { intros u q Hu Hq. apply Ht in Hq. destruct q; try done. destruct Hq. congruence. }
  set (s1 := {| s with syncing := true |}) in *.
  assert (buffers_ok s1) as Hb1 by done.
  destruct (bufio_flush s1 out) as [s2 r] eqn:EF.
  apply shard_bufio_flush_spec in EF as (Hb2 & (C1 & C2 & C3 & C4 & C5 & C6 & C7 & C8 & C9) & Hr); [|done].
  simpl in *. destruct r as [e|]; simplify_eq.
  - split_and!; [done| |].
    + apply (shard_durable_ok_frame s); simpl; rewrite ?C1, ?C2, ?C3, ?C4, ?C7, ?C8; done.
    + apply (shard_threads_ok_insert s); [done| |done|].
      * intros u q Hu Hq. apply (shard_pc_ok_frame s); simpl; rewrite ?C1, ?C2, ?C3, ?C4, ?C8; try done.
        by apply Ht in Hq.
      * intros u q Hu Hq. split; [done|]. by destruct q.
  - specialize (Hr eq_refl). split_and!; [done| |].
    + apply (shard_durable_ok_frame s); simpl; rewrite ?C1, ?C2, ?C3, ?C4, ?C7, ?C8; try done; lia.
    + apply (shard_threads_ok_insert s); [done| | |].
      * intros u q Hu Hq. specialize (Hnf u q Hu Hq). apply Ht in Hq.
        destruct q as [pl g' off'| |pl [off'|]]; try done; simpl in *;
          rewrite ?C2, ?C3, ?C4, ?C8; try done.
        destruct Hq as (? & ? & ? & ?). split_and!; try done. lia.
      * simpl. rewrite C1, C2, C3, C4, C5, C8, Hr.
        apply lookup_lt_Some in Hlk as Hlt. destruct Hd as (? & ? & _).
        split_and!; try done; try lia.
        rewrite C8. f_equal. symmetry. apply take_ge. lia.
      * intros u q Hu Hq. specialize (Hnf u q Hu Hq). split; [by destruct q|].
        apply Ht in Hq. destruct q as [pl g' off'| |]; try done. simpl.
        intros _. destruct Hq as (? & Hl & _). apply lookup_lt_Some in Hl. lia.
Qed.

Lemma shard_step_append_inv s ths tid payload n1 n2 e1 e2 out s' p :
  inv (s, ths) -> ths !! tid = None ->
  append_start s payload n1 n2 e1 e2 out = (s', p) -> inv (s', <[tid := p]> ths).
Proof.
  intros (Hb & Hd & Ht) Hfree H. simpl in *.
  assert (forall s2, buffers_ok s2 -> same_core s s2 -> inv (s2, <[tid := Returned payload (Err ErrClosed)]> ths)
    /\ forall e, inv (s2, <[tid := Returned payload (Err e)]> ths)) as Hret.
  { intros s2 Hb2 (C1 & C2 & C3 & C4 & C5 & C6 & C7 & C8 & C9).
    assert (forall e, inv (s2, <[tid := Returned payload (Err e)]> ths)) as HH.
    { intros e. unfold inv. cbn [fst snd]. split_and!; [done| |].
      - apply (shard_durable_ok_frame s); rewrite ?C1, ?C2, ?C3, ?C4, ?C7, ?C8; try done; apply Hb.
      - apply (shard_threads_ok_insert s); [done| |done|].
        + intros u q Hu Hq. apply (shard_pc_ok_frame s); rewrite ?C1, ?C2, ?C3, ?C4, ?C5, ?C8; try done;
            [apply Hb|by apply Ht in Hq].
        + intros u q _ _. split; [done|by destruct q]. }
    split; [apply HH|done]. }
  assert (same_core s s) as Hrefl by (unfold same_core; split_and!; done).
  unfold append_start in H. destruct (MaxPayloadSize <? zlen payload) eqn:Esz; go_bool.
  { simplify_eq. by apply Hret. }
  destruct (closed s); [simplify_eq; by apply Hret|].
  destruct Hb as (Htl & Hpl & Hw & (ex & Hex & Hfx) & Hdk).
  set (hdr := be_bytes 4 (u32 (zlen payload)) ++ be_bytes 4 (crc32c payload)) in *.
  assert (shard_bytes (log s ++ [payload]) = shard_bytes (log s) ++ hdr ++ payload) as Esb.
  { rewrite shard_bytes_app, shard_bytes_one. unfold shard_record_bytes, hdr. by rewrite <- app_assoc. }
  assert (Forall payload_ok [payload]) as Hp1 by (by repeat constructor).
  destruct (bufio_write s hdr n1 e1) as [s1 r1] eqn:E1. apply shard_bufio_write_spec in E1 as [HC1 HW1].
  destruct (werr s) as [e0|] eqn:Ew.
  { destruct HW1 as [-> ->]. simplify_eq. apply Hret; [|done].
    unfold buffers_ok. rewrite Ew. split_and!; try done. by exists ex. }
  specialize (Hw eq_refl). destruct HW1 as (Hw1 & -> & Hf1 & Hp1').
  pose proof HC1 as (C1 & C2 & C3 & C4 & C5 & C6 & C7 & C8 & C9).
  rewrite app_assoc, Hw in Hf1, Hp1'.
  destruct e1 as [e1|].
  { simplify_eq. apply Hret; [|done]. unfold buffers_ok. rewrite Hw1, C1, C7, C8.
    split_and!; try done; [|by etrans].
    exists [payload]. split; [done|]. rewrite Esb. etrans; [exact Hp1'|].
    rewrite app_assoc. by apply prefix_app_r. }
  destruct (bufio_write s1 payload n2 e2) as [s2 r2] eqn:E2. apply shard_bufio_write_spec in E2 as [HC2 HW2].
  rewrite Hw1 in HW2. destruct HW2 as (Hw2 & -> & Hf2 & Hp2).
  pose proof HC2 as (D1 & D2 & D3 & D4 & D5 & D6 & D7 & D8 & D9).
  rewrite app_assoc, Hf1, <- app_assoc, <- Esb in Hf2, Hp2.
  assert (same_core s s2) as HC.
  { unfold same_core. rewrite D1, D2, D3, D4, D5, D6, D7, D8. split_and!; try done. by etrans. }
  destruct e2 as [e2|].
  { simplify_eq. apply Hret; [|done]. unfold buffers_ok. rewrite Hw2, D1, C1, D7, C7, D8, C8.
    split_and!; try done; [by exists [payload]|by do 2 (etrans; [done|])]. }
  set (s3 := {| s2 with tail := tail s2 + 1; log := log s2 ++ [payload] |}) in *.
  assert (log s `prefix_of` log s3) as Hlp by (simpl; rewrite D8, C8; by apply prefix_app_r).
  assert (file s `prefix_of` file s3) as Hfp by (simpl; by etrans).
  assert (buffers_ok s3) as Hb3.
  { unfold buffers_ok. simpl. rewrite D1, C1, D7, C7, D8, C8, Hw2.
    split_and!; try done.
    - rewrite length_app. simpl. lia.
    - by apply Forall_app.
    - exists []. split; [done|]. by rewrite app_nil_r.
    - by etrans. }
  eapply shard_commit_iter_inv; [exact Hb3| | | | |exact H].
  - apply (shard_durable_ok_frame s); simpl; rewrite ?D1, ?D2, ?D3, ?D4, ?D7, ?D8, ?C1, ?C2, ?C3, ?C4, ?C7, ?C8;
      try done; try lia. by apply prefix_app_r.
  - rewrite delete_id by done. split; [|apply Ht].
    intros t q Hq. apply (shard_pc_ok_frame s); simpl;
      rewrite ?D1, ?D2, ?D3, ?D4, ?D5, ?D8, ?C1, ?C2, ?C3, ?C4, ?C5, ?C8; try done; try lia.
    + by apply prefix_app_r.
    + by apply Ht in Hq.
  - simpl. rewrite D1, D2, D3, D4, D8, C1, C2, C3, C4, C8. destruct Hd as (? & ? & _).
    split_and!; try lia. rewrite Htl, Nat2Z.id. by rewrite list_lookup_middle.
  - intros u q _ Hq. apply Ht in Hq. destruct q as [|pl g' o' sg ft fl|]; simpl; try done.
    destruct Hq as (_ & _ & _ & Hsg & _). rewrite D3, C3. lia.
Qed.

Lemma shard_threads_ok_delete s ths tid : threads_ok s ths -> threads_ok s (delete tid ths).
Proof.
  intros [H1 H2]. split.
  - intros t p Hp. apply lookup_delete_Some in Hp as [_ Hp]. eauto.
  - intros t u p q Hne Hp Hq. apply lookup_delete_Some in Hp as [_ Hp].
    apply lookup_delete_Some in Hq as [_ Hq]. exact (H2 t u p q Hne Hp Hq).
Qed.

Lemma shard_step_wake_inv s ths tid payload g off out s' p :
  inv (s, ths) -> ths !! tid = Some (Committing payload g off) ->
  commit_iter s payload g off out = (s', p) -> inv (s', <[tid := p]> ths).
Proof.
  intros (Hb & Hd & Ht) Hl H. simpl in *. eapply shard_commit_iter_inv; [done..| | | |exact H].
  - by apply shard_threads_ok_delete.
  - by apply (proj1 Ht) in Hl.
  - intros u q Hu Hq. exact (proj2 Ht tid u _ q (not_eq_sym Hu) Hl Hq).
Qed.

Lemma shard_sync_ok_inv s ths tid payload g off sg ft flushed d :
  inv (s, ths) -> ths !! tid = Some (Fsyncing payload g off sg ft flushed) ->
  disk s `prefix_of` d -> flushed `prefix_of` d -> d `prefix_of` file s ->
  buffers_ok (sync_ok s sg ft d) /\ durable_ok (sync_ok s sg ft d) /\
  threads_ok (sync_ok s sg ft d) (delete tid ths) /\
  pc_ok (sync_ok s sg ft d) (Committing payload g off).
Proof.
  intros (Hb & Hd & Ht) Hl Hd1 Hd2 Hd3. simpl in *.
  pose proof (proj1 Ht _ _ Hl) as (F1 & F2 & F3 & F4 & F5 & F6 & F7 & -> & F9).
  destruct Hb as (B1 & B2 & B3 & B4 & B5). split; [|split; [|split]].
  - unfold buffers_ok, sync_ok. simpl. done.
  - destruct Hd as (D1 & D2 & D3). unfold durable_ok, sync_ok. simpl. split_and!; done || lia.
  - split.
    + intros t q Hq. apply lookup_delete_Some in Hq as [Hne Hq].
      pose proof (proj2 Ht t tid _ _ (not_eq_sym Hne) Hq Hl) as Hpair.
      apply (proj1 Ht) in Hq.
      destruct q as [pl g' o'|pl g' o' sg' ft' fl'|pl [o'|e']]; simpl in *; try done.
      * destruct Hq as (? & ? & ? & ?). split_and!; done.
      * destruct Hq. split; [done|lia].
    + exact (proj2 (shard_threads_ok_delete s ths tid Ht)).
  - simpl. split_and!; done || lia.
Qed.

Lemma shard_step_inv c c' : inv c -> step c c' -> inv c'.
Proof.
  intros Hinv Hs. destruct Hs as [s ths tid pl n1 n2 e1 e2 out Hf|s ths tid pl g off out Hl|
    s ths tid pl g off sg ft fl d out Hl Ho H1 H2 H3|s ths tid pl g off sg ft fl d e Hl H1 H2|
    s ths out d e1 e2 Hsy H1 H2].
  - destruct (append_start s pl n1 n2 e1 e2 out) eqn:E. by eapply shard_step_append_inv.
  - destruct (commit_iter s pl g off out) eqn:E. by eapply shard_step_wake_inv.
  - destruct (commit_iter (sync_ok s sg ft d) pl g off out) eqn:E.
    pose proof (shard_sync_ok_inv _ _ _ _ _ _ _ _ _ d Hinv Hl H1 H2 H3) as (Hb & Hd & Ht & Hp).
    eapply shard_commit_iter_inv; [done..| |exact E].
    intros u q Hu Hq. destruct Hinv as (_ & _ & Hinv).
    pose proof (proj2 Hinv tid u _ _ (not_eq_sym Hu) Hl Hq). by destruct q.
  - destruct Hinv as (Hb & Hd & Ht). simpl in *.
    pose proof Hb as (B1 & B2 & B3 & B4 & B5).
    pose proof (proj1 Ht _ _ Hl) as (F1 & _).
    unfold inv. cbn [fst snd]. split_and!.
    + unfold buffers_ok, sync_failed. simpl. done.
    + by apply (shard_durable_ok_frame s).
    + apply (shard_threads_ok_insert s); [done| |done|].
      * intros u q Hu Hq. pose proof (proj2 Ht _ _ _ _ (not_eq_sym Hu) Hl Hq) as Hpq.
        apply (proj1 Ht) in Hq. destruct q as [| |? []]; simpl in *; try done.
      * intros u q _ _. split; [done|by destruct q].
  - destruct Hinv as (Hb & Hd & Ht). simpl in *. unfold close_shard in *.
    destruct (closed s); [done|].
    destruct (bufio_flush {| s with closed := true |} out) as [s2 r] eqn:EF.
    apply shard_bufio_flush_spec in EF as (Hb2 & (C1 & C2 & C3 & C4 & C5 & C6 & C7 & C8 & C9) & _); [|done].
    simpl in *. pose proof Hb as (Htl & _).
    assert (forall s3, tail s3 = tail s2 -> synced s3 = synced s2 -> pendingGen s3 = pendingGen s2 ->
      syncedGen s3 = syncedGen s2 -> syncing s3 = syncing s2 -> log s3 = log s2 -> file s3 = file s2 ->
      buf s3 = buf s2 -> werr s3 = werr s2 -> disk s `prefix_of` disk s3 ->
      disk s3 `prefix_of` file s3 -> inv (s3, ths)) as HH.
    { intros s3 G1 G2 G3 G4 G5 G6 G7 G8 G9 G10 G11. unfold inv. cbn [fst snd]. split_and!.
      - destruct Hb2 as (? & ? & ? & ? & ?). unfold buffers_ok. rewrite G1, G6, G7, G8, G9.
        rewrite G7 in G11. done.
      - apply (shard_durable_ok_frame s); rewrite ?G1, ?G2, ?G3, ?G4, ?G6, ?C1, ?C2, ?C3, ?C4, ?C8; done.
      - split; [|apply Ht]. intros t q Hq.
        apply (shard_pc_ok_frame s); rewrite ?G1, ?G2, ?G3, ?G4, ?G5, ?G6, ?G7, ?C1, ?C2, ?C3, ?C4, ?C5, ?C8;
          try done. by apply (proj1 Ht) in Hq. }
    destruct r as [e|]; [|destruct e1 as [e|]]; apply HH; try done.
    + by rewrite C7.
    + by destruct Hb2 as (_ & _ & _ & _ & ?).
Qed.

Lemma shard_initial_inv log0 : Forall payload_ok log0 -> inv (initial log0).
Proof.
  intros HF. unfold inv, initial. simpl. split_and!.
  - unfold buffers_ok. simpl. split_and!; try done; [by rewrite app_nil_r|].
    exists []. by rewrite app_nil_r.
  - unfold durable_ok. simpl. split_and!; try lia. rewrite Nat2Z.id, take_ge by lia. done.
  - split; intros *; rewrite ?lookup_empty; done.
Qed.

Lemma shard_reachable_inv log0 c : Forall payload_ok log0 -> reachable log0 c -> inv c.
Proof. intros HF H. induction H; [by apply shard_initial_inv|by eapply shard_step_inv]. Qed.

(** ** What a crash leaves *)

(** Any prefix of a file of records is whole records and at most one torn one. *)
Lemma prefix_of_records l r :
  Forall payload_ok l -> r `prefix_of` shard_bytes l ->
  exists a p k, a `prefix_of` l /\ payload_ok p /\ (k < length (shard_record_bytes p))%nat /\
    r = shard_bytes a ++ take k (shard_record_bytes p).
Proof.
  intros HF. revert r. induction HF as [|p l Hp HF IH]; intros r Hr.
  - apply prefix_nil_inv in Hr as ->. exists [], [], 0%nat. split_and!; try done.
    rewrite length_shard_record_bytes. lia.
  - change (shard_bytes (p :: l)) with (shard_record_bytes p ++ shard_bytes l) in Hr.
    destruct (decide (length r < length (shard_record_bytes p))%nat) as [Hlt|Hge].
    + exists [], p, (length r). split_and!; try done; [apply prefix_nil|].
      destruct Hr as [k Hk]. apply (f_equal (take (length r))) in Hk.
      rewrite take_app_length, take_app_le in Hk by lia. by symmetry.
    + destruct Hr as [k Hk]. pose proof (f_equal (take (length (shard_record_bytes p))) Hk) as H1.
      rewrite take_app_length, take_app_le in H1 by lia.
      pose proof (f_equal (drop (length (shard_record_bytes p))) Hk) as H2.
      rewrite drop_app_length, drop_app_le in H2 by lia.
      destruct (IH (drop (length (shard_record_bytes p)) r)) as (a & q & j & Ha & Hq & Hj & E).
      { by exists k. }
      exists (p :: a), q, j. split_and!; try done; [by apply prefix_cons|].
      rewrite <- (take_drop (length (shard_record_bytes p)) r), <- H1, E.
      by rewrite app_assoc.
Qed.

Lemma lookup_numbered l n x : l !! n = Some x -> numbered 0 l !! n = Some (mkShardRecord (Z.of_nat n) x).
Proof. intros H. unfold numbered. by rewrite list_lookup_imap, H. Qed.

Lemma durable_delivered s off payload cut :
  buffers_ok s -> durable_ok s -> log s !! Z.to_nat off = Some payload -> 0 <= off < synced s ->
  disk s `prefix_of` cut -> cut `prefix_of` file s -> zlen cut < 2 ^ 64 ->
  exists recs, ShardReplay cut 0 collect [] = Some (recs, None) /\
    recs !! Z.to_nat off = Some (mkShardRecord off payload).
Proof.
  intros (Htl & Hpl & _ & (ex & Hex & Hfx) & _) (Hs & _ & Hdk) Hlk Hoff Hc1 Hc2 Hlen.
  set (n := Z.to_nat (synced s)) in *.
  assert (shard_bytes (take n (log s)) `prefix_of` cut) as [rest ->] by (by etrans).
  assert (rest `prefix_of` shard_bytes (drop n (log s) ++ ex)) as Hrest.
  { eapply (prefix_app_inv (shard_bytes (take n (log s)))). rewrite <- shard_bytes_app, app_assoc, take_drop.
    by etrans. }
  apply prefix_of_records in Hrest as (a & p & k & Ha & Hp & Hk & ->);
    [|apply Forall_app; split; [by apply Forall_drop|done]].
  assert (Forall payload_ok a) as Hap.
  { destruct Ha as [l' Hl']. assert (Forall payload_ok (drop n (log s) ++ ex)) as HH
      by (apply Forall_app; split; [by apply Forall_drop|done]).
    rewrite Hl' in HH. by apply Forall_app in HH as [? _]. }
  rewrite app_assoc, <- shard_bytes_app in *.
  set (recs := take n (log s) ++ a) in *.
  assert (zlen recs < 2 ^ 64).
  { rewrite length_app in Hlen. pose proof (length_shard_bytes recs). lia. }
  exists (numbered 0 recs). split.
  - rewrite replay_torn_file, filter_numbered; try done.
    by apply Forall_app; split; [apply Forall_take|].
  - rewrite (lookup_numbered recs (Z.to_nat off) payload); [by rewrite Z2Nat.id by lia|].
    apply lookup_app_l_Some. rewrite lookup_take. rewrite decide_True by lia. done.
Qed.

(** C4. Durability of group commit: whatever the interleaving of concurrent appends,
    buffer spills, short writes, failed fsyncs and a close, an [Append] that returned
    an offset without an error is delivered at exactly that offset, with its payload,
    by a replay of any file a crash can leave (one that holds at least the durable
    bytes and at most what was written). *)
Theorem acked_append_survives_crash log0 s ths t payload off cut :
  Forall payload_ok log0 -> reachable log0 (s, ths) ->
  ths !! t = Some (Returned payload (Ok off)) ->
  disk s `prefix_of` cut -> cut `prefix_of` file s -> zlen cut < 2 ^ 64 ->
  exists recs, ShardReplay cut 0 collect [] = Some (recs, None) /\
    recs !! Z.to_nat off = Some (mkShardRecord off payload).
Proof.
  intros HF HR Ht. apply shard_reachable_inv in HR as (Hb & Hd & Hths); [|done].
  apply (proj1 Hths) in Ht as [Hlk Hoff]. by apply durable_delivered.
Qed.

(** ** Offsets are given out once *)

Definition pc_off (p : pc) : option Z :=
  match p with
  | Committing _ _ off | Fsyncing _ _ off _ _ _ | Returned _ (Ok off) => Some off
  | Returned _ (Err _) => None
  end.

Definition offsets_ok (c : config) : Prop :=
  forall t p o, c.2 !! t = Some p -> pc_off p = Some o ->
    o < tail c.1 /\ forall u q, u <> t -> c.2 !! u = Some q -> pc_off q <> Some o.

Lemma bufio_flush_tail s out : tail (bufio_flush s out).1 = tail s.
Proof. unfold bufio_flush. repeat case_match; done. Qed.

Lemma bufio_write_tail s p n e : tail (bufio_write s p n e).1 = tail s.
Proof. unfold bufio_write. by case_match. Qed.

Lemma commit_iter_off s payload g off out s' p :
  commit_iter s payload g off out = (s', p) ->
  tail s' = tail s /\ (pc_off p = Some off \/ pc_off p = None).
Proof.
  unfold commit_iter. intros H.
  pose proof (bufio_flush_tail {| s with syncing := true |} out) as HT.
  repeat case_match; simplify_eq; simpl in *; auto.
Qed.

Lemma append_start_off s payload n1 n2 e1 e2 out s' p :
  append_start s payload n1 n2 e1 e2 out = (s', p) ->
  tail s <= tail s' /\ (pc_off p = None \/ (pc_off p = Some (tail s) /\ tail s < tail s')).
Proof.
  unfold append_start. intros H.
  repeat case_match; simplify_eq; simpl; try (split; [lia|by left]).
  all: repeat match goal with
       | E : bufio_write ?s ?p ?n ?e = (?s', _) |- _ =>
           pose proof (bufio_write_tail s p n e); rewrite E in *; clear E; simpl in *
       end.
  all: try (split; [lia|by left]).
  apply commit_iter_off in H as [HT Ho]. simpl in HT. split; [lia|].
  destruct Ho as [Ho|]; [right|by left]. split; [congruence|lia].
Qed.

(** A step that moves one goroutine on, its offset fresh or kept. *)
Lemma offsets_ok_update s s' ths tid p :
  offsets_ok (s, ths) -> tail s <= tail s' ->
  (forall o, pc_off p = Some o ->
     (tail s <= o < tail s') \/ (exists q, ths !! tid = Some q /\ pc_off q = Some o)) ->
  offsets_ok (s', <[tid := p]> ths).
Proof.
  intros Hok Htl Hp t q o Hq Ho. simpl in *. rewrite lookup_insert in Hq. case_decide; simplify_eq.
  - destruct (Hp o Ho) as [Hf|(q0 & Hq0 & Ho0)].
    + split; [lia|]. intros u q' Hu Hq' Ho'. rewrite lookup_insert_ne in Hq' by done.
      destruct (Hok u q' o Hq' Ho') as [? _]. simpl in *. lia.
    + destruct (Hok t q0 o Hq0 Ho0) as [? Hn]. simpl in *. split; [lia|].
      intros u q' Hu Hq'. rewrite lookup_insert_ne in Hq' by done. eauto.
  - destruct (Hok t q o Hq Ho) as [? Hn]. simpl in *. split; [lia|].
    intros u q' Hu Hq' Ho'. rewrite lookup_insert in Hq'. case_decide; simplify_eq.
    + destruct (Hp o Ho') as [?|(q0 & Hq0 & Ho0)]; [lia|]. by apply (Hn u q0).
    + by apply (Hn u q').
Qed.

Lemma close_shard_tail s out d e1 e2 : tail (close_shard s out d e1 e2) = tail s.
Proof.
  unfold close_shard. pose proof (bufio_flush_tail {| s with closed := true |} out).
  repeat case_match; simplify_eq; simpl in *; done.
Qed.

Lemma offsets_step c c' : offsets_ok c -> step c c' -> offsets_ok c'.
Proof.
  intros Hok Hs. destruct Hs as [s ths tid pl n1 n2 e1 e2 out Hf|s ths tid pl g off out Hl|
    s ths tid pl g off sg ft fl d out Hl Ho H1 H2 H3|s ths tid pl g off sg ft fl d e Hl H1 H2|
    s ths out d e1 e2 Hsy H1 H2].
  - destruct (append_start s pl n1 n2 e1 e2 out) as [s' p] eqn:E. apply append_start_off in E as [? Hp].
    apply (offsets_ok_update s); [done..|]. intros o Ho.
    destruct Hp as [|[]]; [congruence|]. left. simplify_eq. split; congruence || lia.
  - destruct (commit_iter s pl g off out) as [s' p] eqn:E. apply commit_iter_off in E as [HT Hp].
    apply (offsets_ok_update s); [done|lia|]. intros o Ho. right. eexists. split; [done|].
    destruct Hp; simpl; congruence.
  - destruct (commit_iter _ pl g off out) as [s' p] eqn:E. apply commit_iter_off in E as [HT Hp].
    simpl in HT. apply (offsets_ok_update s); [done|lia|]. intros o Hoo. right. eexists.
    split; [done|]. destruct Hp; simpl; congruence.
  - by apply (offsets_ok_update s).
  - unfold offsets_ok in *. simpl in *. by rewrite close_shard_tail.
Qed.

Lemma reachable_offsets log0 c : reachable log0 c -> offsets_ok c.
Proof.
  intros H. induction H; [|by eapply offsets_step]. intros t p o Hp. simpl in Hp.
  by rewrite lookup_empty in Hp.
Qed.

(** Each offset is given to one append only: two different appends that both
    returned an offset returned different ones, both below the tail. *)
Theorem acked_offsets_distinct log0 s ths t u p q off off' :
  reachable log0 (s, ths) -> t <> u ->
  ths !! t = Some (Returned p (Ok off)) -> ths !! u = Some (Returned q (Ok off')) ->
  off <> off' /\ off < tail s /\ off' < tail s.
Proof.
  intros HR Hne Ht Hu. apply reachable_offsets in HR.
  destruct (HR t _ off Ht eq_refl) as [? Hn], (HR u _ off' Hu eq_refl) as [? _].
  split; [|done]. intros <-. by apply (Hn u _ (not_eq_sym Hne) Hu).
Qed.

(** ** A run: two appends in one batch window, committed by two fsyncs *)

Definition run1 : config :=
  let (s', p) := append_start (initial []).1 [Byte.x61] 0 0 None None WriteAll in
  (s', <[0%nat := p]> ∅).
Definition run2 : config :=
  let (s', p) := append_start run1.1 [Byte.x62] 0 5 None None WriteAll in
  (s', <[1%nat := p]> run1.2).
Definition run3 : config :=
  let (s', p) := commit_iter (sync_ok run2.1 1 1 (file run2.1)) [Byte.x61] 1 0 WriteAll in
  (s', <[0%nat := p]> run2.2).
Definition run4 : config :=
  let (s', p) := commit_iter run3.1 [Byte.x62] 2 1 WriteAll in (s', <[1%nat := p]> run3.2).
Definition run5 : config :=
  let (s', p) := commit_iter (sync_ok run4.1 2 2 (file run4.1)) [Byte.x62] 2 1 WriteAll in
  (s', <[1%nat := p]> run4.2).

Lemma shard_reach_eta log0 c c' : reachable log0 c -> step (c.1, c.2) c' -> reachable log0 c'.
Proof. destruct c. apply reach_step. Qed.

Lemma shard_run2_reachable : reachable [] run2.
Proof.
  apply (shard_reach_eta [] run1).
  - apply (shard_reach_eta [] (initial [])); [apply reach_init|]. unfold run1.
    apply (step_append (initial []).1 ∅ 0%nat). reflexivity.
  - unfold run2. apply step_append. vm_compute. reflexivity.
Qed.

Lemma run5_reachable : reachable [] run5.
Proof.
  assert (reachable [] run3) as H3.
  { apply (shard_reach_eta [] run2); [apply shard_run2_reachable|]. unfold run3.
    apply (step_fsync_ok run2.1 run2.2 0%nat [Byte.x61] 1 0 1 1 (file run1.1));
      try (apply prefix_by_take); vm_compute; reflexivity. }
  assert (reachable [] run4) as H4.
  { apply (shard_reach_eta [] run3); [exact H3|]. unfold run4.
    apply step_wake. vm_compute. reflexivity. }
  apply (shard_reach_eta [] run4); [exact H4|]. unfold run5.
  apply (step_fsync_ok run4.1 run4.2 1%nat [Byte.x62] 2 1 2 2 (file run4.1));
    try (apply prefix_by_take); vm_compute; reflexivity.
Qed.

Lemma acked_append_survives_crash_witness :
  exists recs, ShardReplay (file run5.1) 0 collect [] = Some (recs, None) /\
    recs !! 1%nat = Some (mkShardRecord 1 [Byte.x62]).
Proof.
  apply (acked_append_survives_crash [] run5.1 run5.2 1%nat [Byte.x62] 1 (file run5.1)).
  - constructor.
  - exact run5_reachable.
  - vm_compute. reflexivity.
  - apply prefix_by_take. vm_compute. reflexivity.
  - apply prefix_by_take. vm_compute. reflexivity.
  - vm_compute. reflexivity.
Defined.

Lemma acked_offsets_distinct_witness : 0 <> 1 /\ 0 < tail run5.1 /\ 1 < tail run5.1.
Proof.
  apply (acked_offsets_distinct [] run5.1 run5.2 0%nat 1%nat [Byte.x61] [Byte.x62]).
  - exact run5_reachable.
  - discriminate.
  - vm_compute. reflexivity.
  - vm_compute. reflexivity.
Defined.
End ShardCommit.
