(* ===== verification/ShardStore.v ===== *)
(** * What the replication layer is promised by a shard log

    The class [ShardStore] is the contract between [shardwal.Shard] and its
    callers (the replication handler, the manager, the publish path): the tail is
    the number of records, an append that succeeds returns the old tail and adds
    its payload at the end, one that fails adds it or adds nothing, and records
    never change.  [Shard] discharges it with [Append] run by one goroutine at a
    time, whatever its writes and fsyncs return. *)

From S2P Require Import Prelude GoLib ShardFormat ShardLog.
Import ShardFile ShardCommit.

Module Store.
Local Open Scope Z_scope.

Class ShardStore (S IO : Type) := {
  sh_append : IO -> bytes -> S -> S * result shard_err Z;
  sh_tail : S -> Z;
  sh_log : S -> list bytes;
  sh_ok : S -> Prop;
  sh_tail_law s : sh_ok s -> sh_tail s = zlen (sh_log s);
  sh_append_law io p s s' r :
    sh_ok s -> sh_append io p s = (s', r) ->
    sh_ok s' /\
    match r with
    | Ok off => off = zlen (sh_log s) /\ sh_log s' = sh_log s ++ [p]
    | Err _ => sh_log s' = sh_log s \/ sh_log s' = sh_log s ++ [p]
    end
}.

(** How the system calls of one append turn out. *)
Record shard_io := mkShardIO {
  io_spill1 : nat; io_spill2 : nat; io_err1 : option Z; io_err2 : option Z; io_flush : write_out; io_sync : option Z
}.

(** [Append] by one goroutine with no other in the log. *)
Definition Append (io : shard_io) (payload : bytes) (s : Shard) : Shard * result shard_err Z :=
  match append_start s payload (io_spill1 io) (io_spill2 io) (io_err1 io) (io_err2 io) (io_flush io) with
  | (s, Returned _ r) => (s, r)
  | (s, Committing _ _ _) => (s, Err ErrClosed)
  | (s, Fsyncing payload g off sg ft _) =>
      match io_sync io with
      | Some e => (sync_failed s e (disk s), Err (ErrOther e))
      | None =>
          match commit_iter (sync_ok s sg ft (file s)) payload g off WriteAll with
          | (s, Returned _ r) => (s, r)
          | (s, _) => (s, Err ErrClosed)
          end
      end
  end.

Definition Tail (s : Shard) : Z := tail s.

(** No append is under way. *)
Definition idle (s : Shard) : Prop := inv (s, ∅) /\ syncing s = false.

Lemma shard_idle_of s p : inv (s, <[0%nat := p]> ∅) -> syncing s = false -> idle s.
Proof.
  intros (Hb & Hd & Ht) Hs. split; [|done]. split_and!; [done..|].
  split; intros *; by rewrite ?lookup_empty.
Qed.

Lemma bufio_write_log s p n e :
  let s' := (bufio_write s p n e).1 in
  log s' = log s /\ syncing s' = syncing s /\ pendingGen s' = pendingGen s /\ syncedGen s' = syncedGen s.
Proof. unfold bufio_write. by case_match. Qed.

Lemma shard_bufio_flush_log s out : log (bufio_flush s out).1 = log s /\ syncing (bufio_flush s out).1 = syncing s.
Proof. unfold bufio_flush. repeat case_match; by cbn. Qed.

Lemma commit_iter_alone s payload g off out s' p :
  syncing s = false -> syncedGen s < g -> commit_iter s payload g off out = (s', p) ->
  log s' = log s /\
  match p with
  | Returned _ (Ok _) => False
  | Returned _ (Err _) => syncing s' = false
  | Fsyncing payload' g' off' sg ft fl => payload' = payload /\ g' = g /\ off' = off /\ sg = pendingGen s
  | Committing _ _ _ => False
  end.
Proof.
  intros Hs Hg H. unfold commit_iter in H. rewrite (proj2 (Z.leb_gt _ _)), Hs in H by lia.
  set (s1 := {| s with syncing := true |}) in H. pose proof (shard_bufio_flush_log s1 out) as [HL _].
  destruct (bufio_flush s1 out) as [s2 [e|]] eqn:E; simplify_eq; cbn in *; [done|].
  split; [done|]. unfold bufio_flush in E. repeat case_match; simplify_eq; by cbn.
Qed.

(** Where [append_start] stops when no fsync is in flight. *)
Lemma append_start_alone s payload n1 n2 e1 e2 out s' p :
  durable_ok s -> syncing s = false -> append_start s payload n1 n2 e1 e2 out = (s', p) ->
  match p with
  | Returned _ (Ok _) => False
  | Returned _ (Err _) => syncing s' = false /\ (log s' = log s \/ log s' = log s ++ [payload])
  | Fsyncing payload' g off sg ft fl =>
      payload' = payload /\ g <= sg /\ off = tail s /\ log s' = log s ++ [payload]
  | Committing _ _ _ => False
  end.
Proof.
  intros (_ & Hg & _) Hs H. unfold append_start in H.
  destruct (MaxPayloadSize <? zlen payload); [simplify_eq; auto|]. destruct (closed s); [simplify_eq; auto|].
  set (hdr := be_bytes 4 _ ++ _) in H. pose proof (bufio_write_log s hdr n1 e1) as (L1 & S1 & P1 & G1).
  pose proof (bufio_write_tail s hdr n1 e1) as T1.
  destruct (bufio_write s hdr n1 e1) as [s1 [r|]]; cbn [fst] in *; [simplify_eq; rewrite S1, L1; auto|].
  pose proof (bufio_write_log s1 payload n2 e2) as (L2 & S2 & P2 & G2). pose proof (bufio_write_tail s1 payload n2 e2) as T2.
  destruct (bufio_write s1 payload n2 e2) as [s2 [r|]]; cbn [fst] in *;
    [simplify_eq; rewrite S2, S1, L2, L1; auto|].
  apply commit_iter_alone in H as [HL HP]; [|cbn; congruence|cbn; lia]. cbn in HL. rewrite L2, L1 in HL.
  destruct p as [|payload' g off sg ft fl|pl [o|e]]; try done.
  - cbn in HP. destruct HP as (-> & -> & -> & ->). split_and!; [done|lia|congruence|done].
  - auto.
Qed.

Lemma Append_spec io payload s s' r :
  idle s -> Append io payload s = (s', r) ->
  idle s' /\
  match r with
  | Ok off => off = zlen (log s) /\ log s' = log s ++ [payload]
  | Err _ => log s' = log s \/ log s' = log s ++ [payload]
  end.
Proof.
  intros [HI Hsy] H. unfold Append in H.
  destruct (append_start s payload _ _ _ _ _) as [s1 p] eqn:E.
  assert (inv (s1, <[0%nat := p]> ∅)) as HI1 by (eapply shard_step_append_inv; [exact HI|done|exact E]).
  apply append_start_alone in E; [|by destruct HI as (_ & ? & _)|done].
  destruct p as [|payload' g off sg ft fl|pl [o|e]]; try done.
  - destruct E as (-> & Hg & Ho & HL).
    assert (pc_ok s1 (Fsyncing payload g off sg ft fl)) as Hpc.
    { destruct HI1 as (_ & _ & HT & _). by apply (HT 0%nat). }
    assert (disk s1 `prefix_of` file s1) as Hdisk by by destruct HI1 as ((_ & _ & _ & _ & ?) & _).
    destruct (io_sync io) as [e|].
    + injection H as <- <-. split; [|by right]. apply (shard_idle_of _ (Returned payload (Err (ErrOther e)))); [|done].
      rewrite <- (insert_insert_eq ∅ 0%nat _ (Fsyncing payload g off sg ft fl)).
      eapply shard_step_inv; [exact HI1|]. eapply step_fsync_err; [by rewrite lookup_insert_eq|done|done].
    + destruct (shard_sync_ok_inv s1 _ 0%nat _ _ _ _ _ _ (file s1) HI1 (ltac:(by rewrite lookup_insert_eq)))
        as (Hb & Hd & Ht & Hp); [done|by destruct Hpc as (_ & _ & _ & _ & _ & _ & _ & _ & ?)|done|].
      unfold commit_iter in H. cbn [syncedGen sync_ok syncErr] in H. rewrite (proj2 (Z.leb_le g sg)) in H by lia.
      injection H as <- <-. split; [|split; [|done]].
      * split; [|done]. split_and!; [done..|]. cbn [snd]. rewrite delete_insert_id in Ht by done. exact Ht.
      * rewrite Ho. by destruct HI as ((? & _) & _).
  - destruct E as [Hs1 HL]. simplify_eq. split; [by eapply shard_idle_of|done].
Qed.

#[export] Program Instance shard_store : ShardStore Shard shard_io := {
  sh_append := Append;
  sh_tail := Tail;
  sh_log := log;
  sh_ok := idle
}.
Next Obligation. intros s ((H & _) & _). exact (proj1 H). Qed.
Next Obligation. intros io p s s' r. apply Append_spec. Qed.

(** A shard opened on a file of whole records starts with them. *)
Lemma idle_opened log0 : Forall payload_ok log0 -> idle (initial log0).1.
Proof. intros HF. split; [exact (shard_initial_inv log0 HF)|done]. Qed.

End Store.
