(* ===== verification/Replication.v ===== *)
(** * Replication of a shard (internal/cluster/shardwal/hwm.go, manager.go,
    internal/cluster/transport/server.go, internal/cluster/replicator/replicator.go)

    [Module Replica] models the path of a record from a shard's leader to its
    followers: the high-water mark that publishers wait for, the manager that
    opens shards, the follower's [Replicate] handler, and the leader's streams.
    Shard logs are any implementation of [ShardStore].

    A [world] holds the leader's and the followers' logs, the mark and the streams;
    its steps interleave appends, sends, the two halves of the handler (the tail
    is read, then the record is appended, without a lock around both),
    acknowledgements, cancelled streams and changes of the replica set.  Offsets
    are unbounded: 2^64 records to one shard are out of reach.

    The theorems: the mark is the least acknowledged offset; if the followers start with
    prefixes of the leader's log and the streams to a follower do not overlap, every
    record below the mark is on every tracked replica; a stream brings a follower up to
    date whatever prefix it has; and two runs in which the mark lies, one from logs that
    differ and one with overlapping streams. *)

From S2P Require Import Prelude GoLib ShardFormat ShardLog ShardStore.
Import ShardFile Store.

Module Replica.
Local Open Scope Z_scope.

(** ** The high-water mark (hwm.go) *)

Record HighWaterMark := mkHWM { selfID : string; offsets : gmap string Z; current : Z }.

Definition NewHWM (selfID : string) : HighWaterMark := mkHWM selfID {[ selfID := 0 ]} 0.

Definition min_step (id : string) (off : Z) (acc : option Z) : option Z :=
  match acc with
  | None => Some off
  | Some min => Some (if off <? min then off else min)
  end.

Definition recomputeLocked (h : HighWaterMark) : HighWaterMark :=
  {| h with current := default 0 (map_fold min_step None (offsets h)) |}.

Definition SetReplicas (ids : list string) (h : HighWaterMark) : HighWaterMark :=
  let want : gset string := {[ selfID h ]} ∪ list_to_set ids in
  let kept := filter (fun ko => ko.1 ∈ want) (offsets h) in
  recomputeLocked {| h with offsets := kept ∪ gset_to_gmap 0 want |}.

Definition Update (replicaID : string) (offset : Z) (h : HighWaterMark) : HighWaterMark :=
  match offsets h !! replicaID with
  | None => h
  | Some cur =>
      if cur <? offset then recomputeLocked {| h with offsets := <[replicaID := offset]> (offsets h) |} else h
  end.

Definition Mark (h : HighWaterMark) : Z := current h.

(** One pass of [WaitFor]'s loop under the lock: it returns, or waits for a
    broadcast ([None]). *)
Definition WaitFor (ctx_err : option Z) (offset : Z) (h : HighWaterMark) : option (result Z unit) :=
  if current h <? offset then match ctx_err with Some e => Some (Err e) | None => None end else Some (Ok tt).

Section Shards.
Context {S IO : Type} `{ST : !ShardStore S IO}.

(** ** The manager (manager.go); a nil map after [Close] is [None] *)

Record Manager := mkManager {
  mg_self : string; mg_closed : bool; mg_shards : option (gmap Z S); mg_hwms : option (gmap Z HighWaterMark)
}.

Inductive mgr_err := ErrManagerClosed | ErrOpen (e : shard_err).

Definition NewManager (selfID : string) : Manager := mkManager selfID false (Some ∅) (Some ∅).

(** [hwmLocked]; assigning to a nil map panics ([None]). *)
Definition hwmLocked (shardID : Z) (m : Manager) : option (HighWaterMark * Manager) :=
  match mg_hwms m with
  | None => None
  | Some hs =>
      match hs !! shardID with
      | Some h => Some (h, m)
      | None =>
          let h := NewHWM (mg_self m) in
          Some (h, {| m with mg_hwms := Some (<[shardID := h]> hs) |})
      end
  end.

Definition HWM (shardID : Z) (m : Manager) : option (HighWaterMark * Manager) := hwmLocked shardID m.

(** [Shard] up to the first unlock: an answer, or the shard must be opened. *)
Definition shard_lookup (shardID : Z) (m : Manager) : option (result mgr_err S) :=
  if mg_closed m then Some (Err ErrManagerClosed)
  else match mg_shards m ≫= lookup shardID with Some s => Some (Ok s) | None => None end.

(** [Shard] after [Open] returned [s]: another goroutine may have closed the
    manager or opened the shard meanwhile. *)
Definition shard_install (shardID : Z) (s : S) (m : Manager) : option (result mgr_err S * Manager) :=
  if mg_closed m then Some (Err ErrManagerClosed, m)
  else
    match mg_shards m with
    | None => None
    | Some ss =>
        match ss !! shardID with
        | Some existing => Some (Ok existing, m)
        | None =>
            let m := {| m with mg_shards := Some (<[shardID := s]> ss) |} in
            match hwmLocked shardID m with
            | None => None
            | Some (h, m) =>
                let h := Update (mg_self m) (sh_tail s) h in
                Some (Ok s, {| m with mg_hwms := (fun hs => <[shardID := h]> hs) <$> mg_hwms m |})
            end
        end
    end.

Definition Manager_Shard (open : Z -> result shard_err S) (shardID : Z) (m : Manager) :
    option (result mgr_err S * Manager) :=
  match shard_lookup shardID m with
  | Some r => Some (r, m)
  | None =>
      match open shardID with
      | Err e => Some (Err (ErrOpen e), m)
      | Ok s => shard_install shardID s m
      end
  end.

Definition Manager_Close (m : Manager) : Manager :=
  if mg_closed m then m else mkManager (mg_self m) true None None.

(** ** The follower's handler (transport/server.go) *)

Record AppendEntry := mkEntry { e_Offset : Z; e_Payload : bytes }.
Record AppendAck := mkAck { a_NodeId : string; a_LastOffset : Z }.

Inductive rep_err := ErrAppend (e : shard_err) | ErrGap (tail offset : Z).

(** What the switch decides from the tail it read. *)
Inductive verdict := Skip | Apply | Gap.

Definition check_entry (tail : Z) (e : AppendEntry) : verdict :=
  if e_Offset e <? tail then Skip else if e_Offset e =? tail then Apply else Gap.

Definition ack_of (node : string) (s : S) : AppendAck := mkAck node (sh_tail s - 1).

Definition replicate_entry (io : IO) (node : string) (e : AppendEntry) (s : S) : S * result rep_err AppendAck :=
  match check_entry (sh_tail s) e with
  | Skip => (s, Ok (ack_of node s))
  | Apply =>
      match sh_append io (e_Payload e) s with
      | (s, Err e) => (s, Err (ErrAppend e))
      | (s, Ok _) => (s, Ok (ack_of node s))
      end
  | Gap => (s, Err (ErrGap (sh_tail s) (e_Offset e)))
  end.

(** [Replicate] over the entries of a stream, up to its end or the first error. *)
Fixpoint Replicate (ios : nat -> IO) (node : string) (es : list AppendEntry) (s : S) :
    S * list AppendAck * option rep_err :=
  match es with
  | [] => (s, [], None)
  | e :: es =>
      match replicate_entry (ios 0%nat) node e s with
      | (s, Err err) => (s, [], Some err)
      | (s, Ok a) =>
          let '(s, acks, err) := Replicate (fun i => ios (Datatypes.S i)) node es s in (s, a :: acks, err)
      end
  end.

(** [CatchUp]: the records of the shard's file from an offset on. *)
Definition CatchUp (file : bytes) (fromOffset : Z) : option (list AppendEntry * option shard_err) :=
  ShardReplay file fromOffset (fun acc offset payload => (acc ++ [mkEntry offset payload], None)) [].

(** ** The leader's streams (replicator.go) and the interleavings *)

(** Where a follower's handler is. *)
Inductive handler :=
| Receiving
| Appending (e : AppendEntry)      (* the tail was read, [Append] comes next *)
| Returned.

(** One [runOneFollowerSession] and its handler: [next] is the subscription's
    cursor, [connected] whether the leader still reads acknowledgements. *)
Record session := mkSession {
  ss_follower : string; ss_next : Z; ss_wire : list AppendEntry; ss_acks : list AppendAck;
  ss_connected : bool; ss_handler : handler
}.

Definition new_session (f : string) : session := mkSession f 0 [] [] true Receiving.

Record world := mkWorld {
  leader : S; followers : gmap string S; hwm : HighWaterMark; sessions : list session
}.

Definition set_session (i : nat) (ss : session) (w : world) : world :=
  {| w with sessions := <[i := ss]> (sessions w) |}.

(** [excl]: a stream to a follower is only opened when its earlier handlers have
    returned. *)
Inductive step (excl : bool) : world -> world -> Prop :=
| step_append io p w : step excl w {| w with leader := (sh_append io p (leader w)).1 |}
| step_replicas ids w : step excl w {| w with hwm := SetReplicas ids (hwm w) |}
| step_self t w :
    0 <= t <= sh_tail (leader w) ->
    step excl w {| w with hwm := Update (selfID (hwm w)) t (hwm w) |}
| step_open f w :
    f <> selfID (hwm w) -> is_Some (followers w !! f) ->
    (excl = true -> forall i ss, sessions w !! i = Some ss -> ss_follower ss = f -> ss_handler ss = Returned) ->
    step excl w {| w with sessions := sessions w ++ [new_session f] |}
| step_send i ss p w :
    sessions w !! i = Some ss -> ss_connected ss = true -> sh_log (leader w) !! Z.to_nat (ss_next ss) = Some p ->
    step excl w (set_session i {| ss with ss_next := ss_next ss + 1;
                                          ss_wire := ss_wire ss ++ [mkEntry (ss_next ss) p] |} w)
| step_cancel i ss w :
    sessions w !! i = Some ss -> step excl w (set_session i {| ss with ss_connected := false |} w)
| step_hangup i ss w :
    sessions w !! i = Some ss -> ss_handler ss = Receiving ->
    step excl w (set_session i {| ss with ss_handler := Returned |} w)
| step_recv i ss e es s w :
    sessions w !! i = Some ss -> ss_handler ss = Receiving -> ss_wire ss = e :: es ->
    followers w !! ss_follower ss = Some s ->
    step excl w (set_session i
      (match check_entry (sh_tail s) e with
       | Skip => {| ss with ss_wire := es; ss_acks := ss_acks ss ++ [ack_of (ss_follower ss) s] |}
       | Apply => {| ss with ss_wire := es; ss_handler := Appending e |}
       | Gap => {| ss with ss_wire := es; ss_handler := Returned |}
       end) w)
| step_write i ss e s s' r io w :
    sessions w !! i = Some ss -> ss_handler ss = Appending e -> followers w !! ss_follower ss = Some s ->
    sh_append io (e_Payload e) s = (s', r) ->
    step excl w (set_session i
      (match r with
       | Ok _ => {| ss with ss_handler := Receiving; ss_acks := ss_acks ss ++ [ack_of (ss_follower ss) s'] |}
       | Err _ => {| ss with ss_handler := Returned |}
       end) {| w with followers := <[ss_follower ss := s']> (followers w) |})
| step_ack i ss a acks w :
    sessions w !! i = Some ss -> ss_connected ss = true -> ss_acks ss = a :: acks ->
    step excl w (set_session i {| ss with ss_acks := acks |}
                   {| w with hwm := Update (a_NodeId a) (a_LastOffset a + 1) (hwm w) |}).

Inductive reachable (excl : bool) (w0 : world) : world -> Prop :=
| reach_init : reachable excl w0 w0
| reach_step w w' : reachable excl w0 w -> step excl w w' -> reachable excl w0 w'.

End Shards.

(** ** The mark is the minimum *)

Definition hwm_ok (h : HighWaterMark) : Prop :=
  is_Some (offsets h !! selfID h) /\
  (exists id, offsets h !! id = Some (current h)) /\
  (forall id o, offsets h !! id = Some o -> current h <= o).

Lemma min_fold (m : gmap string Z) :
  match map_fold min_step None m with
  | None => m = ∅
  | Some x => (exists id, m !! id = Some x) /\ forall id o, m !! id = Some o -> x <= o
  end.
Proof.
  apply (map_fold_weak_ind (fun acc m => match acc with
    | None => m = ∅
    | Some x => (exists id, m !! id = Some x) /\ forall id o, m !! id = Some o -> x <= o end)); [done|].
  intros i x m' [y|] Hi IH; cbn [min_step].
  - destruct IH as [[id Hid] HM]. assert (id <> i) as Hne by congruence.
    destruct (x <? y) eqn:E; go_bool; split.
    + exists i. apply lookup_insert_eq.
    + intros j o Hj. apply lookup_insert_Some in Hj as [[_ <-]|[_ Hj]]; [done|]. specialize (HM j o Hj). lia.
    + exists id. by rewrite lookup_insert_ne.
    + intros j o Hj. apply lookup_insert_Some in Hj as [[_ <-]|[_ Hj]]; [done|]. by apply (HM j).
  - subst m'. split; [exists i; apply lookup_insert_eq|].
    intros j o Hj. apply lookup_insert_Some in Hj as [[_ <-]|[_ Hj]]; [done|]. by rewrite lookup_empty in Hj.
Qed.

Lemma recompute_ok h : is_Some (offsets h !! selfID h) -> hwm_ok (recomputeLocked h).
Proof.
  intros [o Ho]. unfold hwm_ok, recomputeLocked. cbn [offsets selfID current]. split; [by eexists|].
  pose proof (min_fold (offsets h)) as H. destruct (map_fold min_step None (offsets h)) as [x|]; [done|].
  rewrite H in Ho. by rewrite lookup_empty in Ho.
Qed.

Lemma NewHWM_ok id : hwm_ok (NewHWM id).
Proof.
  unfold hwm_ok, NewHWM. cbn [offsets selfID current]. rewrite lookup_singleton_eq. split_and!; [done|exists id; apply lookup_singleton_eq|].
  by intros j o [_ <-]%lookup_singleton_Some.
Qed.

Lemma Update_ok id o h : hwm_ok h -> hwm_ok (Update id o h).
Proof.
  intros Hh. unfold Update. destruct (offsets h !! id) as [c|] eqn:E; [|done]. destruct (c <? o); [|done].
  apply recompute_ok. cbn [offsets selfID]. rewrite lookup_insert_is_Some. destruct (decide (id = selfID h)); [by left|].
  right. split; [done|]. apply Hh.
Qed.

Lemma SetReplicas_lookup ids h id :
  offsets (SetReplicas ids h) !! id =
    if decide (id = selfID h \/ id ∈ ids) then Some (default 0 (offsets h !! id)) else None.
Proof.
  unfold SetReplicas, recomputeLocked. cbn [offsets]. set (want := {[selfID h]} ∪ list_to_set ids : gset string).
  assert (id ∈ want <-> id = selfID h \/ id ∈ ids) as Hw by set_solver.
  rewrite lookup_union, map_lookup_filter, lookup_gset_to_gmap. destruct (decide (id ∈ want)) as [Hi|Hi].
  - rewrite decide_True by by apply Hw. rewrite (option_guard_True (id ∈ want)) by done.
    destruct (offsets h !! id); cbn; [by rewrite option_guard_True|done].
  - rewrite decide_False by by rewrite <- Hw. rewrite (option_guard_False (id ∈ want)) by done.
    destruct (offsets h !! id); cbn; [by rewrite option_guard_False|done].
Qed.

Lemma SetReplicas_ok ids h : hwm_ok (SetReplicas ids h).
Proof.
  apply recompute_ok. change (is_Some (offsets (SetReplicas ids h) !! selfID h)).
  rewrite SetReplicas_lookup, decide_True by by left. by eexists.
Qed.

Lemma Update_lookup id o h j x : offsets (Update id o h) !! j = Some x ->
  offsets h !! j = Some x \/ (j = id /\ x = o).
Proof.
  unfold Update. destruct (offsets h !! id) as [c|] eqn:E; [|by left]. destruct (c <? o); [|by left].
  cbn. intros [[-> ->]|[_ H]]%lookup_insert_Some; auto.
Qed.

Lemma Update_self id o h : selfID (Update id o h) = selfID h.
Proof. unfold Update. repeat case_match; done. Qed.

(** ** The handler *)

Section Theorems.
Context {S IO : Type} `{ST : !ShardStore S IO}.

Definition entries_of (L : list bytes) : list AppendEntry := imap (fun i p => mkEntry (Z.of_nat i) p) L.

Lemma imap_drop_entries (L : list bytes) k p : L !! k = Some p ->
  drop k (entries_of L) = mkEntry (Z.of_nat k) p :: drop (Datatypes.S k) (entries_of L).
Proof.
  intros E. apply drop_S. unfold entries_of. by rewrite list_lookup_imap, E.
Qed.

(** From any record on that the follower has or comes next. *)
Lemma Replicate_from ios node L k (s : S) :
  sh_ok s -> sh_log s `prefix_of` L -> (k <= length (sh_log s))%nat ->
  let '(s', acks, err) := Replicate ios node (drop k (entries_of L)) s in
  sh_ok s' /\ sh_log s `prefix_of` sh_log s' /\ sh_log s' `prefix_of` L /\
  Forall (fun a => a_NodeId a = node /\ a_LastOffset a < zlen (sh_log s')) acks /\
  match err with
  | Some e => exists e', e = ErrAppend e'
  | None => sh_log s' = L /\ ((k < length L)%nat -> acks !! (length L - Datatypes.S k)%nat = Some (mkAck node (zlen L - 1)))
  end.
Proof.
  remember (length L - k)%nat as n eqn:En. revert ios k s En.
  induction n as [|n IH]; intros ios k s En Hok Hp Hk.
  { rewrite drop_ge by (unfold entries_of; rewrite length_imap; lia). cbn. split_and!; try done; [|lia].
    destruct Hp as [r ->]. rewrite length_app in En. destruct r; [by rewrite app_nil_r|cbn in En; lia]. }
  destruct (lookup_lt_is_Some_2 L k) as [p Ep]; [lia|]. rewrite (imap_drop_entries L k p Ep).
  cbn [Replicate]. pose proof (sh_tail_law s Hok) as HT.
  assert (let '(s1, r) := replicate_entry (ios 0%nat) node (mkEntry (Z.of_nat k) p) s in
    sh_ok s1 /\ sh_log s `prefix_of` sh_log s1 /\ sh_log s1 `prefix_of` L /\
    match r with
    | Err e => exists e', e = ErrAppend e'
    | Ok a => a = ack_of node s1 /\ (Datatypes.S k <= length (sh_log s1))%nat
    end) as HR.
  { unfold replicate_entry, check_entry. cbn [e_Offset e_Payload]. destruct (Z.of_nat k <? sh_tail s) eqn:E; go_bool.
    - split_and!; try done. lia.
    - assert (k = length (sh_log s)) as -> by lia. rewrite HT, Z.eqb_refl.
      assert (sh_log s ++ [p] `prefix_of` L) as Hp1 by by apply prefix_snoc_lookup.
      destruct (sh_append (ios 0%nat) p s) as [s1 [off|e]] eqn:Ea;
        destruct (sh_append_law _ _ _ _ _ Hok Ea) as [Hok1 HL].
      + destruct HL as [_ HL]. rewrite HL, length_app. split_and!; try done; [by apply prefix_app_r|cbn; lia].
      + destruct HL as [-> | ->]; split_and!; eauto; by apply prefix_app_r. }
  destruct (replicate_entry _ node _ s) as [s1 [a|e]]; destruct HR as (Hok1 & Hg1 & Hp1 & HR); [|by split_and!].
  destruct HR as [-> Hk1]. specialize (IH (fun i => ios (Datatypes.S i)) (Datatypes.S k) s1 ltac:(lia) Hok1 Hp1 Hk1).
  destruct (Replicate _ node (drop (Datatypes.S k) (entries_of L)) s1) as [[s' acks] err].
  destruct IH as (Hok' & Hg & HL & HF & Herr). split_and!; [done|by etrans|done| |].
  - apply Forall_cons; [|done]. cbn. split; [done|]. rewrite (sh_tail_law s1 Hok1). apply prefix_length in Hg. lia.
  - destruct err as [e|]; [done|]. destruct Herr as [HL' Hlast]. split; [done|]. intros _.
    destruct (decide (Datatypes.S k < length L)%nat) as [Hlt|Hge].
    + rewrite lookup_cons_ne_0 by lia. replace (pred _) with (length L - Datatypes.S (Datatypes.S k))%nat by lia. by apply Hlast.
    + replace (length L - Datatypes.S k)%nat with 0%nat by lia. cbn. unfold ack_of.
      rewrite (sh_tail_law s1 Hok1). apply prefix_length in Hp1. do 2 f_equal. lia.
Qed.

(** A stream brings a follower up to date.  A leader streams its log from the
    first record on; a follower that holds any prefix of it, empty or complete,
    skips what it has and appends the rest: its log only grows and stays a prefix
    of the leader's, no gap is reported, and unless one of its own writes fails
    the follower ends with the leader's log and has acknowledged its last record. *)
Theorem stream_catches_up ios node L (s : S) :
  sh_ok s -> sh_log s `prefix_of` L ->
  let '(s', acks, err) := Replicate ios node (entries_of L) s in
  sh_ok s' /\ sh_log s `prefix_of` sh_log s' /\ sh_log s' `prefix_of` L /\
  Forall (fun a => a_NodeId a = node /\ a_LastOffset a < zlen (sh_log s')) acks /\
  match err with
  | Some e => exists e', e = ErrAppend e'
  | None => sh_log s' = L /\ (L <> [] -> acks !! (length L - 1)%nat = Some (mkAck node (zlen L - 1)))
  end.
Proof.
  intros Hok Hp. pose proof (Replicate_from ios node L 0 s Hok Hp ltac:(lia)) as H. rewrite drop_0 in H.
  destruct (Replicate ios node (entries_of L) s) as [[s' acks] err]. destruct H as (H1 & H2 & H3 & H4 & H5).
  split_and!; try done. destruct err; [done|]. destruct H5 as [H5 H6]. split; [done|]. intros HL. apply H6.
  destruct L; [done|cbn; lia].
Qed.

(** ** The invariant of the streams *)

Definition entry_ok (L : list bytes) (e : AppendEntry) : Prop :=
  0 <= e_Offset e /\ L !! Z.to_nat (e_Offset e) = Some (e_Payload e).

(** The length of a follower's log. *)
Definition held (w : world) (f : string) : Z :=
  match followers w !! f with Some s => zlen (sh_log s) | None => 0 end.

Definition session_ok (L : list bytes) (held : string -> Z) (self : string) (ss : session) : Prop :=
  ss_follower ss <> self /\ 0 <= ss_next ss /\ Forall (entry_ok L) (ss_wire ss) /\
  Forall (fun a => a_NodeId a = ss_follower ss /\ a_LastOffset a < held (ss_follower ss)) (ss_acks ss) /\
  match ss_handler ss with
  | Appending e => entry_ok L e /\ e_Offset e = held (ss_follower ss)
  | _ => True
  end.

Definition disjoint (sss : list session) : Prop :=
  forall i j ss ss', i <> j -> sss !! i = Some ss -> sss !! j = Some ss' -> ss_follower ss = ss_follower ss' ->
    ss_handler ss = Returned \/ ss_handler ss' = Returned.

Definition stores_ok (w : world) : Prop :=
  sh_ok (leader w) /\ forall f s, followers w !! f = Some s -> sh_ok s /\ sh_log s `prefix_of` sh_log (leader w).

Definition marks_ok (w : world) : Prop :=
  hwm_ok (hwm w) /\
  forall id o, offsets (hwm w) !! id = Some o ->
    if decide (id = selfID (hwm w)) then o <= zlen (sh_log (leader w)) else o <= held w id.

Definition inv (w : world) : Prop :=
  stores_ok w /\ marks_ok w /\
  (forall i ss, sessions w !! i = Some ss -> session_ok (sh_log (leader w)) (held w) (selfID (hwm w)) ss) /\
  disjoint (sessions w).

Lemma entry_ok_grow L L' e : L `prefix_of` L' -> entry_ok L e -> entry_ok L' e.
Proof. intros HL [H1 H2]. split; [done|]. by eapply lookup_prefix. Qed.

Lemma session_ok_grow L L' h h' self ss :
  L `prefix_of` L' -> (forall f, h f <= h' f) ->
  (forall e, ss_handler ss = Appending e -> h' (ss_follower ss) = h (ss_follower ss)) ->
  session_ok L h self ss -> session_ok L' h' self ss.
Proof.
  intros HL Hh He (H1 & H2 & H3 & H4 & H5). split_and!; [done..| | |].
  - eapply list.Forall_impl; [exact H3|]. intros e. by apply entry_ok_grow.
  - eapply list.Forall_impl; [exact H4|]. intros a [Ha Hl]. split; [done|]. specialize (Hh (ss_follower ss)). lia.
  - destruct (ss_handler ss) as [|e|]; [done| |done]. destruct H5 as [H5 H6]. split; [by eapply entry_ok_grow|].
    rewrite (He e eq_refl). done.
Qed.

(** Replacing one session, nothing else changing. *)
Lemma disjoint_update sss i ss ss' :
  disjoint sss -> sss !! i = Some ss -> ss_follower ss' = ss_follower ss ->
  (ss_handler ss = Returned -> ss_handler ss' = Returned) -> disjoint (<[i := ss']> sss).
Proof.
  intros Hd Hi Hf Hr a b x y Hab Ha Hb Hxy. pose proof (lookup_lt_Some _ _ _ Hi).
  destruct (decide (a = i)) as [->|Hai]; [|destruct (decide (b = i)) as [->|Hbi]].
  - rewrite list_lookup_insert_eq in Ha by done. rewrite list_lookup_insert_ne in Hb by done. simplify_eq.
    destruct (Hd i b ss y Hab Hi Hb) as [E|E]; [congruence|auto|auto].
  - rewrite list_lookup_insert_ne in Ha by done. rewrite list_lookup_insert_eq in Hb by done. simplify_eq.
    destruct (Hd a i x ss Hab Ha Hi) as [E|E]; [congruence|auto|auto].
  - rewrite list_lookup_insert_ne in Ha, Hb by done. eauto.
Qed.

Lemma inv_session i ss ss' w :
  inv w -> sessions w !! i = Some ss -> ss_follower ss' = ss_follower ss ->
  (ss_handler ss = Returned -> ss_handler ss' = Returned) ->
  session_ok (sh_log (leader w)) (held w) (selfID (hwm w)) ss' -> inv (set_session i ss' w).
Proof.
  intros (Hs & Hm & Hss & Hd) Hi Hf Hr Hok. split_and!; [done|done| |by eapply disjoint_update].
  intros j x Hj. cbn in Hj. destruct (decide (j = i)) as [->|Hne].
  - rewrite list_lookup_insert_eq in Hj by by eapply lookup_lt_Some. by simplify_eq.
  - rewrite list_lookup_insert_ne in Hj by done. exact (Hss j x Hj).
Qed.

Lemma held_tail w f s : stores_ok w -> followers w !! f = Some s -> sh_tail s = held w f.
Proof. intros [_ Hf] E. unfold held. rewrite E. apply sh_tail_law. by apply (Hf f s). Qed.

Lemma held_nonneg w f : 0 <= held w f.
Proof. unfold held. case_match; lia. Qed.

Lemma replica_inv_append io p w : inv w -> inv {| w with leader := (sh_append io p (leader w)).1 |}.
Proof.
  intros ([Hl Hf] & [Hh Hm] & Hss & Hd). destruct (sh_append io p (leader w)) as [s' r] eqn:E.
  destruct (sh_append_law _ _ _ _ _ Hl E) as [Hok HL]. cbn [fst].
  assert (sh_log (leader w) `prefix_of` sh_log s') as Hp.
  { destruct r; [destruct HL as [_ ->]|destruct HL as [-> | ->]]; by try apply prefix_app_r. }
  split_and!; [split|split| |]; cbn [leader followers hwm sessions]; try done.
  - intros f s Es. destruct (Hf f s Es). split; [done|]. by etrans.
  - intros id o Eo. specialize (Hm id o Eo). apply prefix_length in Hp. case_decide; [lia|exact Hm].
  - intros i ss Hi. eapply session_ok_grow; [exact Hp| |by intros|exact (Hss i ss Hi)]. done.
Qed.

Lemma inv_replicas ids w : inv w -> inv {| w with hwm := SetReplicas ids (hwm w) |}.
Proof.
  intros (Hs & [Hh Hm] & Hss & Hd). split_and!; [done| |done|done]. split; [apply SetReplicas_ok|].
  cbn [hwm leader]. intros id o. rewrite SetReplicas_lookup. case_decide as Hin; [|done]. intros [= <-].
  change (selfID (SetReplicas ids (hwm w))) with (selfID (hwm w)).
  destruct (offsets (hwm w) !! id) as [o|] eqn:E; [exact (Hm id o E)|]. cbn [default].
  case_decide; [lia|]. apply held_nonneg.
Qed.

Lemma inv_update id o w : inv w ->
  (if decide (id = selfID (hwm w)) then o <= zlen (sh_log (leader w)) else o <= held w id) ->
  inv {| w with hwm := Update id o (hwm w) |}.
Proof.
  intros (Hs & [Hh Hm] & Hss & Hd) Ho. split_and!; [done| | |done].
  - split; [by apply Update_ok|]. cbn [hwm leader]. rewrite Update_self.
    intros j x [Hj|[-> ->]]%Update_lookup; [exact (Hm j x Hj)|exact Ho].
  - cbn [hwm leader sessions]. rewrite Update_self. exact Hss.
Qed.

Lemma inv_open f w : inv w -> f <> selfID (hwm w) ->
  (forall i ss, sessions w !! i = Some ss -> ss_follower ss = f -> ss_handler ss = Returned) ->
  inv {| w with sessions := sessions w ++ [new_session f] |}.
Proof.
  intros (Hs & Hm & Hss & Hd) Hne Hx. split_and!; [done|done| |]; cbn [sessions leader hwm].
  - intros i ss [Hi|[_ Hi]]%lookup_app_Some; [exact (Hss i ss Hi)|].
    apply list_lookup_singleton_Some in Hi as [_ <-]. split_and!; done || constructor.
  - intros i j a b Hij Ha Hb Hab.
    apply lookup_app_Some in Ha as [Ha|[La Ha]], Hb as [Hb|[Lb Hb]].
    + eauto.
    + apply list_lookup_singleton_Some in Hb as [_ <-]. left. by eapply Hx.
    + apply list_lookup_singleton_Some in Ha as [_ <-]. right. by eapply Hx.
    + apply list_lookup_singleton_Some in Ha as [Ea _], Hb as [Eb _]. lia.
Qed.

Lemma inv_recv i ss e es s w :
  inv w -> sessions w !! i = Some ss -> ss_handler ss = Receiving -> ss_wire ss = e :: es ->
  followers w !! ss_follower ss = Some s ->
  inv (set_session i
    (match check_entry (sh_tail s) e with
     | Skip => {| ss with ss_wire := es; ss_acks := ss_acks ss ++ [ack_of (ss_follower ss) s] |}
     | Apply => {| ss with ss_wire := es; ss_handler := Appending e |}
     | Gap => {| ss with ss_wire := es; ss_handler := Returned |}
     end) w).
Proof.
  intros HI Hi Hh Hw Hs. pose proof HI as (Hst & _ & Hss & _).
  destruct (Hss i ss Hi) as (H1 & H2 & H3 & H4 & _). rewrite Hw in H3. apply list.Forall_cons_1 in H3 as [He Hes].
  pose proof (held_tail w _ s Hst Hs) as HT.
  eapply inv_session; [done|exact Hi|by case_match|rewrite Hh; by case_match|].
  unfold check_entry. destruct (e_Offset e <? sh_tail s) eqn:E1; [|destruct (e_Offset e =? sh_tail s) eqn:E2]; go_bool;
    unfold session_ok; cbn [ss_follower ss_next ss_wire ss_acks ss_handler]; split_and!; try done.
  - apply Forall_app. split; [done|]. apply Forall_singleton. cbn. split; [done|lia].
  - by rewrite Hh.
  - lia.
Qed.

Lemma inv_write i ss e s s' r io w :
  inv w -> sessions w !! i = Some ss -> ss_handler ss = Appending e -> followers w !! ss_follower ss = Some s ->
  sh_append io (e_Payload e) s = (s', r) ->
  inv (set_session i
    (match r with
     | Ok _ => {| ss with ss_handler := Receiving; ss_acks := ss_acks ss ++ [ack_of (ss_follower ss) s'] |}
     | Err _ => {| ss with ss_handler := Returned |}
     end) {| w with followers := <[ss_follower ss := s']> (followers w) |}).
Proof.
  intros (Hst & [Hhw Hm] & Hss & Hd) Hi Hh Hs Ha. set (f := ss_follower ss) in *.
  destruct (Hss i ss Hi) as (H1 & H2 & H3 & H4 & H5). rewrite Hh in H5. destruct H5 as [[He1 He2] He3].
  pose proof Hst as [Hl Hf]. destruct (Hf f s Hs) as [Hok Hp].
  destruct (sh_append_law _ _ _ _ _ Hok Ha) as [Hok' HL].
  assert (e_Offset e = zlen (sh_log s)) as Eo by (fold f in He3; unfold held in He3; by rewrite Hs in He3).
  assert (sh_log s ++ [e_Payload e] `prefix_of` sh_log (leader w)) as Hp1
    by (apply prefix_snoc_lookup; [done|]; by rewrite Eo, Nat2Z.id in He2).
  assert (sh_log s `prefix_of` sh_log s' /\ sh_log s' `prefix_of` sh_log (leader w)) as [Hg Hp'].
  { destruct r; [destruct HL as [_ ->]|destruct HL as [-> | ->]]; split; try done; by apply prefix_app_r. }
  set (w1 := {| w with followers := _ |}).
  assert (forall g, held w g <= held w1 g) as Hheld.
  { intros g. unfold held, w1. cbn [followers]. rewrite lookup_insert. case_decide as Eg; [|done]. subst g. rewrite Hs.
    apply prefix_length in Hg. lia. }
  assert (forall j x, j <> i -> sessions w !! j = Some x ->
    session_ok (sh_log (leader w)) (held w1) (selfID (hwm w)) x) as Hoth.
  { intros j x Hne Hj. apply (session_ok_grow _ _ _ _ _ _ (reflexivity _) Hheld); [|exact (Hss j x Hj)]. intros e' He'.
    unfold held, w1. cbn [followers]. rewrite lookup_insert. case_decide as Eg; [|done]. exfalso.
    destruct (Hd i j ss x (not_eq_sym Hne) Hi Hj Eg) as [E|E]; congruence. }
  assert (stores_ok w1) as Hst1.
  { split; [done|]. intros g x Hx. unfold w1 in Hx. cbn [followers] in Hx.
    apply lookup_insert_Some in Hx as [[<- <-]|[_ Hx]]; [done|exact (Hf g x Hx)]. }
  assert (followers w1 !! f = Some s') as Hs' by (unfold w1; cbn [followers]; apply lookup_insert_eq).
  assert (Forall (fun a => a_NodeId a = f /\ a_LastOffset a < held w1 f) (ss_acks ss)) as H4'.
  { eapply list.Forall_impl; [exact H4|]. intros a [Ha1 Ha2]. split; [done|]. specialize (Hheld f). fold f in Ha2. lia. }
  split_and!; [exact Hst1| | |].
  - split; [done|]. intros id o Eid. specialize (Hm id o Eid). cbn [hwm leader set_session w1]. case_decide; [done|].
    specialize (Hheld id). change (o <= held w1 id). lia.
  - intros j x Hj. cbn [sessions set_session] in Hj. destruct (decide (j = i)) as [->|Hne].
    + rewrite list_lookup_insert_eq in Hj by by eapply lookup_lt_Some. injection Hj as <-.
      destruct r; unfold session_ok; cbn [ss_follower ss_next ss_wire ss_acks ss_handler]; fold f; split_and!; try done.
      apply Forall_app. split; [done|]. apply Forall_singleton. cbn. split; [done|].
      rewrite (held_tail w1 f s' Hst1 Hs'). change (held w1 f - 1 < held w1 f). lia.
    + rewrite list_lookup_insert_ne in Hj by done. exact (Hoth j x Hne Hj).
  - eapply disjoint_update; [exact Hd|exact Hi|by destruct r|by rewrite Hh].
Qed.

Lemma replica_step_inv w w' : inv w -> step true w w' -> inv w'.
Proof.
  intros HI Hs. destruct Hs as [io p w|ids w|t w Ht|f w Hf Hin Hx|i ss p w Hi Hc Hp|i ss w Hi|i ss w Hi Hh|
    i ss e es s w Hi Hh Hw Hs|i ss e s s' r io w Hi Hh Hs Ha|i ss a acks w Hi Hc Ha].
  - by apply replica_inv_append.
  - by apply inv_replicas.
  - apply inv_update; [done|]. rewrite decide_True by done. destruct HI as ([Hl _] & _).
    rewrite sh_tail_law in Ht by done. lia.
  - apply inv_open; [done|done|]. by apply Hx.
  - pose proof HI as (_ & _ & Hss & _). destruct (Hss i ss Hi) as (H1 & H2 & H3 & H4 & H5).
    eapply inv_session; [done|exact Hi|done|done|]. split_and!; cbn [ss_follower ss_next ss_wire ss_acks ss_handler]; try done; [lia|].
    apply Forall_app. split; [done|]. by apply Forall_singleton.
  - pose proof HI as (_ & _ & Hss & _). by eapply inv_session; [|exact Hi|..|exact (Hss i ss Hi)].
  - pose proof HI as (_ & _ & Hss & _). destruct (Hss i ss Hi) as (H1 & H2 & H3 & H4 & H5).
    by eapply inv_session; [|exact Hi|..].
  - by eapply inv_recv.
  - by eapply inv_write.
  - pose proof HI as (_ & _ & Hss & _). destruct (Hss i ss Hi) as (H1 & H2 & H3 & H4 & H5).
    rewrite Ha in H4. apply list.Forall_cons_1 in H4 as [[Hn Hl] H4].
    set (w1 := {| w with hwm := Update (a_NodeId a) (a_LastOffset a + 1) (hwm w) |}).
    assert (inv w1) as HI1.
    { apply inv_update; [done|]. rewrite Hn, decide_False by done. lia. }
    apply (inv_session i ss); [done..|]. subst w1. cbn [hwm leader]. rewrite Update_self. by split_and!.
Qed.

(** The state replication starts from: every follower holds a prefix of the
    leader's log, and nothing is acknowledged or on the way. *)
Definition starts (w : world) : Prop := stores_ok w /\ hwm w = NewHWM (selfID (hwm w)) /\ sessions w = [].

Lemma starts_inv w : starts w -> inv w.
Proof.
  intros (Hst & Hh & Hss). split_and!; [done| |..].
  - split; [rewrite Hh; apply NewHWM_ok|]. intros id o E. rewrite Hh in E. cbn [NewHWM offsets] in E. revert E.
    intros [<- <-]%lookup_singleton_Some. rewrite decide_True by done. lia.
  - intros i ss. by rewrite Hss.
  - intros i j a b _. by rewrite Hss.
Qed.

Lemma replica_reachable_inv w0 w : starts w0 -> reachable true w0 w -> inv w.
Proof. intros H0 H. induction H; [by apply starts_inv|by eapply replica_step_inv]. Qed.

(** The leader's log only grows. *)
Lemma leader_grows w0 w : starts w0 -> reachable true w0 w -> forall w', reachable true w w' ->
  sh_log (leader w) `prefix_of` sh_log (leader w').
Proof.
  intros H0 Hr w' Hr'. assert (inv w) as HI by by eapply replica_reachable_inv. clear H0 Hr.
  assert (inv w' /\ sh_log (leader w) `prefix_of` sh_log (leader w')) as [_ ?]; [|done].
  induction Hr' as [|w1 w2 Hr' [HI1 IH] Hst]; [done|]. split; [by eapply replica_step_inv|]. etrans; [exact IH|].
  destruct Hst as [io p w1| | | | | | | | |]; try done.
  destruct HI1 as ([Hl _] & _). cbn [leader]. destruct (sh_append io p (leader w1)) as [s' r] eqn:E. cbn [fst].
  destruct (sh_append_law _ _ _ _ _ Hl E) as [_ HL].
  destruct r; [destruct HL as [_ ->]|destruct HL as [-> | ->]]; by try apply prefix_app_r.
Qed.

Lemma marked_is_replicated w0 w off :
  starts w0 -> reachable true w0 w -> 0 <= off -> WaitFor None (off + 1) (hwm w) = Some (Ok tt) ->
  exists p, sh_log (leader w) !! Z.to_nat off = Some p /\
    forall id, is_Some (offsets (hwm w) !! id) -> id <> selfID (hwm w) ->
      exists s, followers w !! id = Some s /\ sh_log s !! Z.to_nat off = Some p.
Proof.
  intros H0 Hr Ho Hw. destruct (replica_reachable_inv w0 w H0 Hr) as ([Hl Hf] & [(Hself & _ & Hmin) Hm] & _).
  assert (off < current (hwm w)) as Hoff by (unfold WaitFor in Hw; destruct (current (hwm w) <? off + 1) eqn:E; go_bool; [done|lia]).
  destruct Hself as [o Eo]. pose proof (Hm _ _ Eo) as HL. rewrite decide_True in HL by done.
  pose proof (Hmin _ _ Eo). destruct (lookup_lt_is_Some_2 (sh_log (leader w)) (Z.to_nat off)) as [p Ep]; [lia|].
  exists p. split; [done|]. intros id [x Ex] Hne. pose proof (Hm _ _ Ex) as Hx. rewrite decide_False in Hx by done.
  pose proof (Hmin _ _ Ex). unfold held in Hx. destruct (followers w !! id) as [s|] eqn:Es; [|lia].
  exists s. split; [done|]. destruct (Hf id s Es) as [_ Hp].
  destruct (lookup_lt_is_Some_2 (sh_log s) (Z.to_nat off)) as [q Eq]; [lia|]. rewrite Eq.
  rewrite <- Ep. symmetry. by eapply lookup_prefix.
Qed.

(** C5. A record below the mark is replicated, under two conditions that the code does not
    ensure.  The first: replication starts ([starts]) with every follower's log a prefix of
    the leader's and nothing acknowledged or on the way.  The second: a stream to a follower
    is opened only after its earlier handlers have returned.  Then, whatever the interleaving
    of appends, sends, handlers, acknowledgements, broken and reopened streams, failed writes
    and changes of the replica set: when the wait for an offset succeeds, the leader's record
    at that offset is at the same offset in the log of every other replica that is tracked.
    [diverged_follower_acks] and [overlapping_streams_fork] show a mark that covers a missing
    record when the first and when the second condition fails. *)
Theorem mark_is_replicated w0 w off :
  starts w0 -> reachable true w0 w -> 0 <= off -> WaitFor None (off + 1) (hwm w) = Some (Ok tt) ->
  exists p, sh_log (leader w) !! Z.to_nat off = Some p /\
    forall id, is_Some (offsets (hwm w) !! id) -> id <> selfID (hwm w) ->
      exists s, followers w !! id = Some s /\ sh_log s !! Z.to_nat off = Some p.
Proof. apply marked_is_replicated. Qed.

(** *** The mark *)

Inductive mark_op := OpReplicas (ids : list string) | OpUpdate (id : string) (off : Z).

Definition mark_run (op : mark_op) (h : HighWaterMark) : HighWaterMark :=
  match op with OpReplicas ids => SetReplicas ids h | OpUpdate id off => Update id off h end.

(** The mark is the least offset that every tracked replica, this node
    included, has acknowledged, after any sequence of acknowledgements and changes
    of the replica set; an acknowledgement never lowers it, and one of a replica
    that is not tracked changes nothing. *)
Theorem mark_is_least_ack self ops :
  let h := foldl (fun h op => mark_run op h) (NewHWM self) ops in
  (exists id, offsets h !! id = Some (Mark h)) /\ is_Some (offsets h !! self) /\
  (forall id o, offsets h !! id = Some o -> Mark h <= o) /\
  (forall id o, Mark h <= Mark (Update id o h) /\ (offsets h !! id = None -> Update id o h = h)).
Proof.
  intros h. assert (hwm_ok h /\ selfID h = self) as [(H1 & H2 & H3) Hs].
  { subst h. induction ops as [|[ids|id o] ops IH] using rev_ind; [split; [apply NewHWM_ok|done]|..];
      rewrite foldl_app; cbn [foldl mark_run]; destruct IH as [IH1 IH2].
    - split; [apply SetReplicas_ok|done].
    - split; [by apply Update_ok|by rewrite Update_self]. }
  split_and!; [done|by rewrite <- Hs|done|]. intros id o. split.
  - destruct (Update_ok id o h) as (_ & [j Ej] & _); [done|]. unfold Mark.
    destruct (Update_lookup _ _ _ _ _ Ej) as [E|[-> E]]; [by apply (H3 j)|].
    unfold Update in E |- *. destruct (offsets h !! id) as [c|] eqn:E1; [|lia].
    destruct (c <? o) eqn:Ec; go_bool; [|lia]. specialize (H3 _ _ E1). lia.
  - intros E. unfold Update. by rewrite E.
Qed.

End Theorems.

(** ** Runs *)

Section Runs.
Context {S IO : Type} `{ST : !ShardStore S IO}.

Inductive label :=
| LAppend (io : IO) (p : bytes) | LReplicas (ids : list string) | LSelf (t : Z) | LOpen (f : string)
| LSend (i : nat) | LCancel (i : nat) | LRecv (i : nat) | LWrite (i : nat) (io : IO) | LAck (i : nat).

Definition busy (f : string) (ss : session) : bool :=
  bool_decide (ss_follower ss = f) && match ss_handler ss with Returned => false | _ => true end.

(** The step a label names, when its guards hold. *)
Definition run_step (excl : bool) (l : label) (w : world) : option world :=
  match l with
  | LAppend io p => Some {| w with leader := (sh_append io p (leader w)).1 |}
  | LReplicas ids => Some {| w with hwm := SetReplicas ids (hwm w) |}
  | LSelf t =>
      if (0 <=? t) && (t <=? sh_tail (leader w))
      then Some {| w with hwm := Update (selfID (hwm w)) t (hwm w) |} else None
  | LOpen f =>
      if bool_decide (f = selfID (hwm w)) || negb (bool_decide (is_Some (followers w !! f))) ||
         (excl && existsb (busy f) (sessions w))
      then None else Some {| w with sessions := sessions w ++ [new_session f] |}
  | LSend i =>
      match sessions w !! i with
      | Some ss =>
          if ss_connected ss then
            match sh_log (leader w) !! Z.to_nat (ss_next ss) with
            | Some p => Some (set_session i {| ss with ss_next := ss_next ss + 1;
                                                       ss_wire := ss_wire ss ++ [mkEntry (ss_next ss) p] |} w)
            | None => None
            end
          else None
      | None => None
      end
  | LCancel i =>
      match sessions w !! i with
      | Some ss => Some (set_session i {| ss with ss_connected := false |} w)
      | None => None
      end
  | LRecv i =>
      match sessions w !! i with
      | Some ss =>
          match ss_handler ss, ss_wire ss, followers w !! ss_follower ss with
          | Receiving, e :: es, Some s =>
              Some (set_session i
                (match check_entry (sh_tail s) e with
                 | Skip => {| ss with ss_wire := es; ss_acks := ss_acks ss ++ [ack_of (ss_follower ss) s] |}
                 | Apply => {| ss with ss_wire := es; ss_handler := Appending e |}
                 | Gap => {| ss with ss_wire := es; ss_handler := Returned |}
                 end) w)
          | _, _, _ => None
          end
      | None => None
      end
  | LWrite i io =>
      match sessions w !! i with
      | Some ss =>
          match ss_handler ss, followers w !! ss_follower ss with
          | Appending e, Some s =>
              let '(s', r) := sh_append io (e_Payload e) s in
              Some (set_session i
                (match r with
                 | Ok _ => {| ss with ss_handler := Receiving; ss_acks := ss_acks ss ++ [ack_of (ss_follower ss) s'] |}
                 | Err _ => {| ss with ss_handler := Returned |}
                 end) {| w with followers := <[ss_follower ss := s']> (followers w) |})
          | _, _ => None
          end
      | None => None
      end
  | LAck i =>
      match sessions w !! i with
      | Some ss =>
          match ss_connected ss, ss_acks ss with
          | true, a :: acks =>
              Some (set_session i {| ss with ss_acks := acks |}
                      {| w with hwm := Update (a_NodeId a) (a_LastOffset a + 1) (hwm w) |})
          | _, _ => None
          end
      | None => None
      end
  end.

Lemma not_busy f l i ss :
  existsb (busy f) l = false -> l !! i = Some ss -> ss_follower ss = f -> ss_handler ss = Returned.
Proof.
  intros Hb Hi Hf. destruct (busy f ss) eqn:E.
  - assert (existsb (busy f) l = true); [|congruence].
    apply existsb_exists. exists ss. split; [apply list_elem_of_In; by eapply list_elem_of_lookup_2|done].
  - unfold busy in E. rewrite bool_decide_eq_true_2 in E by done. by destruct (ss_handler ss).
Qed.

Lemma run_step_sound excl l w w' : run_step excl l w = Some w' -> step excl w w'.
Proof.
  destruct l as [io p|ids|t|f|i|i|i|i io|i]; cbn [run_step]; intros E.
  - simplify_eq. apply step_append.
  - simplify_eq. apply step_replicas.
  - destruct (_ && _) eqn:Eg; go_bool; simplify_eq. apply step_self. lia.
  - destruct (_ || _) eqn:Eg; [done|]. go_bool. simplify_eq.
    apply step_open; [done|done|]. intros -> i ss Hi Hf. destruct H0 as [?|Hb]; [done|].
    by eapply not_busy.
  - destruct (sessions w !! i) as [ss|] eqn:Ei; [|done]. destruct (ss_connected ss) eqn:Ec; [|done].
    destruct (sh_log _ !! _) eqn:El; [|done]. injection E as <-. rewrite <- Ec. by eapply step_send.
  - destruct (sessions w !! i) as [ss|] eqn:Ei; [|done]. injection E as <-. by eapply step_cancel.
  - destruct (sessions w !! i) as [ss|] eqn:Ei; [|done]. destruct (ss_handler ss) eqn:Eh; [|done|done].
    destruct (ss_wire ss) as [|e es] eqn:Ew; [done|]. destruct (followers w !! _) as [s|] eqn:Es; [|done].
    injection E as <-.
    pose proof (step_recv excl _ _ _ _ _ _ Ei Eh Ew Es) as Hs. by rewrite Eh in Hs.
  - destruct (sessions w !! i) as [ss|] eqn:Ei; [|done]. destruct (ss_handler ss) as [|e|] eqn:Eh; [done| |done].
    destruct (followers w !! _) as [s|] eqn:Es; [|done]. destruct (sh_append io _ s) as [s' r] eqn:Ea.
    injection E as <-.
    pose proof (step_write excl _ _ _ _ _ _ _ _ Ei Eh Es Ea) as Hs. by destruct r.
  - destruct (sessions w !! i) as [ss|] eqn:Ei; [|done]. destruct (ss_connected ss) eqn:Ec; [|done].
    destruct (ss_acks ss) as [|a acks] eqn:Ea; [done|]. injection E as <-.
    pose proof (step_ack excl _ _ _ _ _ Ei Ec Ea) as Hs. by rewrite Ec in Hs.
Qed.

Fixpoint run (excl : bool) (ls : list label) (w : world) : option world :=
  match ls with
  | [] => Some w
  | l :: ls => match run_step excl l w with Some w => run excl ls w | None => None end
  end.

Lemma reach_cons excl w0 w w' : step excl w0 w -> reachable excl w w' -> reachable excl w0 w'.
Proof.
  intros Hs Hr. induction Hr as [|a b _ IH Hab]; [by eapply reach_step; [apply reach_init|]|by eapply reach_step].
Qed.

Lemma run_reachable excl ls w w' : run excl ls w = Some w' -> reachable excl w w'.
Proof.
  revert w. induction ls as [|l ls IH]; intros w E; cbn [run] in E; [simplify_eq; apply reach_init|].
  destruct (run_step excl l w) as [w1|] eqn:E1; [|done]. eapply reach_cons; [by eapply run_step_sound|by apply IH].
Qed.
End Runs.

(** ** Runs over the shard logs of [shardwal] *)

Definition calm : shard_io := mkShardIO 0 0 None None ShardCommit.WriteAll None.

(** A leader ["n1"] and a follower ["n2"], both logs empty. *)
Definition pair_world : world (S := ShardCommit.Shard) :=
  {| leader := (ShardCommit.initial []).1; followers := {[ "n2"%string := (ShardCommit.initial []).1 ]};
     hwm := NewHWM "n1"; sessions := [] |}.

Lemma pair_world_starts : starts pair_world.
Proof.
  split_and!; [|done|done]. split; [by apply idle_opened|]. intros id s E.
  cbn [pair_world followers] in E. apply lookup_singleton_Some in E as [<- <-].
  split; [by apply idle_opened|done].
Qed.

(** The leader appends a record and streams it, and the mark
    reaches 1. *)
Definition one_record : list label :=
  [LAppend calm [Byte.x61]; LReplicas ["n1"%string; "n2"%string]; LSelf 1; LOpen "n2"; LSend 0; LRecv 0;
   LWrite 0 calm; LAck 0].

Definition one_record_world : world (S := ShardCommit.Shard) := default pair_world (run true one_record pair_world).

Example mark_is_replicated_witness :
  exists p, sh_log (leader one_record_world) !! 0%nat = Some p /\
    forall id, is_Some (offsets (hwm one_record_world) !! id) -> id <> selfID (hwm one_record_world) ->
      exists s, followers one_record_world !! id = Some s /\ sh_log s !! 0%nat = Some p.
Proof.
  apply (mark_is_replicated pair_world one_record_world 0);
    [exact pair_world_starts|apply (run_reachable true one_record); vm_compute; reflexivity|lia|vm_compute; reflexivity].
Defined.

Definition three : list bytes := [[Byte.x61]; [Byte.x62]; [Byte.x63]].
Definition behind : ShardCommit.Shard := (ShardCommit.initial [[Byte.x61]]).1.

Example stream_catches_up_witness :
  (let '(s', acks, err) := Replicate (fun _ => calm) "n2" (entries_of three) behind in
   err = None /\ acks = [mkAck "n2" 0; mkAck "n2" 1; mkAck "n2" 2]) /\
  let '(s', acks, err) := Replicate (fun _ => calm) "n2" (entries_of three) behind in
  sh_ok s' /\ sh_log behind `prefix_of` sh_log s' /\ sh_log s' `prefix_of` three /\
  Forall (fun a => a_NodeId a = "n2"%string /\ a_LastOffset a < zlen (sh_log s')) acks /\
  match err with
  | Some e => exists e', e = ErrAppend e'
  | None => sh_log s' = three /\
      (three <> [] -> acks !! (length three - 1)%nat = Some (mkAck "n2" (zlen three - 1)))
  end.
Proof.
  split; [vm_compute; repeat split|].
  apply (stream_catches_up (fun _ => calm) "n2" three behind);
    [apply idle_opened; by repeat constructor|by exists [[Byte.x62]; [Byte.x63]]].
Defined.

(** A leader and a follower whose logs differ at offset 0, as after a failover from a leader
    that had replicated to neither. *)
Definition diverged_world : world (S := ShardCommit.Shard) :=
  {| leader := (ShardCommit.initial [[Byte.x61]]).1; followers := {[ "n2"%string := (ShardCommit.initial [[Byte.x62]]).1 ]};
     hwm := NewHWM "n1"; sessions := [] |}.

Definition diverged_run : list (label (IO := shard_io)) :=
  [LReplicas ["n1"%string; "n2"%string]; LSelf 1; LOpen "n2"; LSend 0; LRecv 0; LAck 0].

(** The follower skips an offset it already holds and acknowledges it without comparing the
    payloads: with one stream only, the mark covers a record that the follower has not. *)
Theorem diverged_follower_acks :
  exists w s, reachable true diverged_world w /\ followers w !! "n2"%string = Some s /\
    sh_log (leader w) = [[Byte.x61]] /\ sh_log s = [[Byte.x62]] /\ WaitFor None 1 (hwm w) = Some (Ok tt).
Proof.
  destruct (run true diverged_run diverged_world) as [w|] eqn:E; [|exfalso; vm_compute in E; done].
  pose proof (run_reachable _ _ _ _ E) as Hr. vm_compute in E. injection E as <-.
  do 2 eexists. split; [exact Hr|]. split; [vm_compute; reflexivity|]. by vm_compute.
Qed.

(** A stream to ["n2"] is cancelled and reopened while its first handler is
    between the tail check and the append. *)
Definition overlapped : list label :=
  [LAppend calm [Byte.x61]; LAppend calm [Byte.x62]; LReplicas ["n1"%string; "n2"%string]; LSelf 2;
   LOpen "n2"; LSend 0; LRecv 0; LCancel 0;
   LOpen "n2"; LSend 1; LRecv 1; LWrite 0 calm; LWrite 1 calm;
   LSend 1; LRecv 1; LAck 1; LAck 1].

(** Two streams to one follower can fork its log.  When the replicator replaces
    a stream while the old stream's handler on the follower has checked the tail
    but not yet appended, both handlers append the same record; the follower then
    skips the leader's next record as already held, and the mark covers a record
    the follower does not have. *)
Theorem overlapping_streams_fork :
  exists w s, reachable false pair_world w /\ followers w !! "n2"%string = Some s /\
    sh_log (leader w) = [[Byte.x61]; [Byte.x62]] /\ sh_log s = [[Byte.x61]; [Byte.x61]] /\
    WaitFor None 2 (hwm w) = Some (Ok tt).
Proof.
  destruct (run false overlapped pair_world) as [w|] eqn:E; [|exfalso; vm_compute in E; done].
  pose proof (run_reachable _ _ _ _ E) as Hr. vm_compute in E. injection E as <-.
  do 2 eexists. split; [exact Hr|]. split; [vm_compute; reflexivity|]. by vm_compute.
Qed.

End Replica.
