(* ===== verification/ShardFeed.v ===== *)
(** * Subscriptions to a shard log (internal/cluster/shardwal/shardwal.go, replicator.go)

    [Shard.Subscribe] starts a goroutine that first replays the shard's file into a
    channel of 128 records and then follows the log: it waits on the shard's condition
    variable until more records are fsynced, and replays the file up to there.  The
    goroutine is a function, one call per step; it is interleaved with the appends,
    fsyncs and the close of [ShardLog], with the reader of the channel and with the
    cancellation of the context.  A replay reads the file record by record while it grows.

    Theorems: what is delivered is the log from the requested offset on, in order and
    without gaps; the goroutine never sleeps while fsynced records are undelivered, and
    every run of it and its reader ends with all of them received; a goroutine that is
    cancelled while its channel is full and records are left keeps re-reading the file
    until the shard is closed.  Offsets are unbounded, as in [ShardLog]. *)

From S2P Require Import Prelude GoLib ShardFormat ShardLog ShardStore Replication.
Import ShardFile.

Module Feed.
Local Open Scope Z_scope.

Abbreviation Shard := ShardCommit.Shard.

(** ** The goroutine *)

(** Where it is.  A replay carries the [currentTail] at which its callback stops ([None]
    in the backfill), the offset it was called with, the bytes and the records read. *)
Inductive feed_at :=
| Opening (limit : option Z)
| Replaying (limit : option Z) (from : Z) (pos : nat) (off : Z)
| Sending (limit : option Z) (from : Z) (pos : nat) (off : Z) (payload : bytes)
| Locking
| Waiting
| Exited.

Record feed := mkFeed {
  f_from : Z; f_next : Z; f_chan : list ShardRecord; f_received : list ShardRecord; f_cancelled : bool; f_at : feed_at
}.

Definition chan_size : nat := 128.

Definition Subscribe (fromOffset : Z) : feed := mkFeed fromOffset fromOffset [] [] false (Opening None).

(** Where the goroutine goes when a replay has returned without an error or with [io.EOF]:
    after the backfill the context is checked, in the live loop it is not. *)
Definition replay_returns (limit : option Z) (f : feed) : feed :=
  {| f with f_at := match limit with None => if f_cancelled f then Exited else Locking | Some _ => Locking end |}.

(** One record of a replay: the callback is called from [from] on, and refuses what is not
    below the limit. *)
Definition replay_record (limit : option Z) (from : Z) (pos : nat) (off : Z) (file : bytes) (f : feed) : feed :=
  match scan_record (drop pos file) with
  | ScanEOF | ScanPartial => replay_returns limit f
  | ScanTooLarge _ | ScanBadCRC => {| f with f_at := Exited |}
  | ScanRecord body _ =>
      let pos := (pos + length (shard_record_bytes body))%nat in
      if off <? from then {| f with f_at := Replaying limit from pos (off + 1) |}
      else if match limit with Some l => l <=? off | None => false end then replay_returns limit f
      else {| f with f_at := Sending limit from pos off body |}
  end.

(** The [select]: a send if the channel has room, the end if the context is done, either if
    both can be. *)
Definition send_record (pick_send : bool) (limit : option Z) (from : Z) (pos : nat) (off : Z) (payload : bytes) (f : feed) :
    option feed :=
  let room := bool_decide (length (f_chan f) < chan_size)%nat in
  if room && (pick_send || negb (f_cancelled f)) then
    Some {| f with f_chan := f_chan f ++ [mkShardRecord off payload]; f_next := off + 1;
                   f_at := Replaying limit from pos (off + 1) |}
  else if f_cancelled f then Some (replay_returns limit f)
  else None.

(** The live loop's critical section. *)
Definition live_check (s : Shard) (f : feed) : feed :=
  if negb (ShardCommit.closed s) && (ShardCommit.synced s <=? f_next f) then
    {| f with f_at := if f_cancelled f then Exited else Waiting |}
  else if ShardCommit.closed s then {| f with f_at := Exited |}
  else {| f with f_at := Opening (Some (ShardCommit.synced s)) |}.

(** A step of the goroutine; [None] where it is blocked or has returned.  [open_ok] is what
    [os.Open] says, [pick_send] what the [select] picks. *)
Definition feed_next (s : Shard) (open_ok pick_send : bool) (f : feed) : option feed :=
  match f_at f with
  | Opening limit => Some {| f with f_at := if open_ok then Replaying limit (f_next f) 0 0 else Exited |}
  | Replaying limit from pos off => Some (replay_record limit from pos off (ShardCommit.file s) f)
  | Sending limit from pos off payload => send_record pick_send limit from pos off payload f
  | Locking => Some (live_check s f)
  | Waiting | Exited => None
  end.

(** The condition variable is broadcast where an fsync has succeeded, which moves the synced
    generation, and where the shard is closed. *)
Definition wakes (s s' : Shard) : bool :=
  negb (ShardCommit.syncedGen s' =? ShardCommit.syncedGen s) || negb (Bool.eqb (ShardCommit.closed s) (ShardCommit.closed s')).

Definition woken (f : feed) : feed := match f_at f with Waiting => {| f with f_at := Locking |} | _ => f end.

Inductive step : ShardCommit.config * feed -> ShardCommit.config * feed -> Prop :=
| st_shard c c' f :
    ShardCommit.step c c' -> step (c, f) (c', if wakes c.1 c'.1 then woken f else f)
| st_run c f f' open_ok pick_send : feed_next c.1 open_ok pick_send f = Some f' -> step (c, f) (c, f')
| st_recv c f r rest :
    f_chan f = r :: rest -> step (c, f) (c, {| f with f_chan := rest; f_received := f_received f ++ [r] |})
| st_cancel c f : step (c, f) (c, {| f with f_cancelled := true |}).

Inductive reachable (log0 : list bytes) (from : Z) : ShardCommit.config * feed -> Prop :=
| reach_init : reachable log0 from (ShardCommit.initial log0, Subscribe from)
| reach_step x y : reachable log0 from x -> step x y -> reachable log0 from y.

(** What the reader has or will get. *)
Definition delivered (f : feed) : list ShardRecord := f_received f ++ f_chan f.

(** ** Reading a file of records *)

(** A file of records, torn at most at its end. *)
Definition records_file (file : bytes) : Prop := exists L, Forall payload_ok L /\ file `prefix_of` shard_bytes L.

(** [R] is what the file holds first. *)
Definition holds (R : list bytes) (file : bytes) : Prop := Forall payload_ok R /\ shard_bytes R `prefix_of` file.

Lemma holds_longer R file file' : file `prefix_of` file' -> holds R file -> holds R file'.
Proof. intros Hf [HR Hp]. split; [done|by etrans]. Qed.

Lemma holds_nil file : holds [] file.
Proof. split; [done|apply prefix_nil]. Qed.

Lemma drop_holds R file : holds R file -> file = shard_bytes R ++ drop (length (shard_bytes R)) file.
Proof. intros [_ [k ->]]. by rewrite drop_app_length. Qed.

Lemma holds_prefix a b file : holds a file -> holds b file -> (length a <= length b)%nat -> a `prefix_of` b.
Proof.
  intros [Ha Pa] [Hb Pb]. revert b file Hb Pa Pb. induction Ha as [|p a Hp Ha IH]; intros b file Hb Pa Pb L; [apply prefix_nil|].
  destruct Hb as [|q b Hq Hb]; [simpl in L; lia|]. change (shard_bytes (p :: a)) with (shard_record_bytes p ++ shard_bytes a) in Pa.
  change (shard_bytes (q :: b)) with (shard_record_bytes q ++ shard_bytes b) in Pb.
  destruct Pa as [x Ex], Pb as [y Ey]. rewrite <- app_assoc in Ex, Ey. pose proof (scan_record_ok p (shard_bytes a ++ x) Hp) as S1.
  pose proof (scan_record_ok q (shard_bytes b ++ y) Hq) as S2. rewrite <- Ex, Ey in S1. rewrite S2 in S1. injection S1 as -> E.
  apply prefix_cons. apply (IH b (shard_bytes a ++ x) Hb); [by apply prefix_app_r|rewrite <- E; by apply prefix_app_r|simpl in L; lia].
Qed.

(** The scan behind what was read finds the next record or the end. *)
Lemma scan_next R file : records_file file -> holds R file ->
  match scan_record (drop (length (shard_bytes R)) file) with
  | ScanRecord body _ => holds (R ++ [body]) file
  | ScanEOF | ScanPartial => forall p, ~ holds (R ++ [p]) file
  | ScanTooLarge _ | ScanBadCRC => False
  end.
Proof.
  intros (L & HL & Hf) HR. pose proof (drop_holds R file HR) as E. destruct HR as [HR Hp].
  assert (forall p, holds (R ++ [p]) file -> exists r, payload_ok p /\ drop (length (shard_bytes R)) file = shard_record_bytes p ++ r) as Hnext.
  { intros p [Hrp [k Hk]]. apply Forall_app in Hrp as [_ Hpp]. rewrite ShardCommit.shard_bytes_app, ShardCommit.shard_bytes_one, <- app_assoc in Hk.
    exists k. split; [by apply Forall_inv in Hpp|]. rewrite Hk. by rewrite drop_app_length. }
  destruct (ShardCommit.prefix_of_records L file HL Hf) as (a & p & k & Ha & Hpk & Hk & Ef).
  assert (Forall payload_ok a) as HFa by (destruct Ha as [l' ->]; by apply Forall_app in HL as [? _]).
  assert (holds a file) as Hha by (split; [done|rewrite Ef; by apply prefix_app_r]).
  assert (holds R file) as HhR by done.
  destruct (decide (length R < length a)%nat) as [Hlt|Hge].
  - destruct (holds_prefix R a file HhR Hha ltac:(lia)) as [[|q l] ->]; [rewrite app_nil_r in Hlt; lia|].
    rewrite Ef, ShardCommit.shard_bytes_app, <- app_assoc, drop_app_length.
    apply Forall_app in HFa as [_ Hq]. apply Forall_inv in Hq.
    change (shard_bytes (q :: l)) with (shard_record_bytes q ++ shard_bytes l). rewrite <- app_assoc, scan_record_ok by done.
    split; [apply Forall_app; split; [done|by repeat constructor]|].
    rewrite (app_assoc (shard_record_bytes q)).
    change (shard_bytes R ++ shard_bytes (q :: l) ++ take k (shard_record_bytes p)) with
      (shard_bytes R ++ (shard_record_bytes q ++ shard_bytes l) ++ take k (shard_record_bytes p)).
    rewrite ShardCommit.shard_bytes_app, ShardCommit.shard_bytes_one. rewrite <- !app_assoc. apply prefix_app. by apply prefix_app_r.
  - destruct (holds_prefix a R file Hha HhR ltac:(lia)) as [b Eb]. set (d := drop (length (shard_bytes R)) file) in *.
    pose proof Ef as E2. rewrite E, Eb, ShardCommit.shard_bytes_app, <- app_assoc in E2. apply app_inv_head in E2.
    assert (scan_record (take k (shard_record_bytes p)) = ScanEOF \/ scan_record (take k (shard_record_bytes p)) = ScanPartial) as Hs.
    { destruct k as [|k]; [by left|right]. apply scan_torn; [done|lia]. }
    destruct b as [|q l].
    + cbn [shard_bytes map concat app] in E2.
      destruct Hs as [Hs|Hs]; rewrite E2, Hs; intros q Hq; destruct (Hnext q Hq) as (r & Hqok & Er);
        rewrite <- E2, Er, scan_record_ok in Hs by done; done.
    + rewrite <- E2 in Hs. change (shard_bytes (q :: l)) with (shard_record_bytes q ++ shard_bytes l) in Hs.
      rewrite Eb in HR. apply Forall_app in HR as [_ Hq]. apply Forall_inv in Hq. rewrite <- app_assoc, scan_record_ok in Hs by done.
      by destruct Hs.
Qed.

(** ** The shard's steps *)

(** What a step of the shard does to what a subscription reads. *)
Definition shard_grows (s s' : Shard) : Prop :=
  ShardCommit.file s `prefix_of` ShardCommit.file s' /\ ShardCommit.synced s <= ShardCommit.synced s' /\
  (wakes s s' = false -> ShardCommit.synced s' = ShardCommit.synced s /\ ShardCommit.closed s' = ShardCommit.closed s).

(** The steps that leave the synced part alone. *)
Definition same_synced (s s' : Shard) : Prop :=
  ShardCommit.file s `prefix_of` ShardCommit.file s' /\ ShardCommit.synced s' = ShardCommit.synced s /\
  ShardCommit.syncedGen s' = ShardCommit.syncedGen s /\ ShardCommit.closed s' = ShardCommit.closed s.

#[local] Instance same_synced_pre : PreOrder same_synced.
Proof.
  split; [by intros s|]. intros a b c (?&?&?&?) (?&?&?&?). split_and!; [by etrans|congruence..].
Qed.

Lemma same_synced_grows s s' : same_synced s s' -> shard_grows s s'.
Proof. intros (? & ? & ? & ?). split_and!; [done|lia|done]. Qed.

Lemma bufio_write_same s p n e : same_synced s (ShardCommit.bufio_write s p n e).1.
Proof. unfold ShardCommit.bufio_write. destruct (ShardCommit.werr s); [done|]. split_and!; try done. by apply prefix_app_r. Qed.

Lemma bufio_flush_same s out : same_synced s (ShardCommit.bufio_flush s out).1.
Proof.
  unfold ShardCommit.bufio_flush. repeat case_match; try done; split_and!; try done; by apply prefix_app_r.
Qed.

Lemma commit_iter_same s p g off out : same_synced s (ShardCommit.commit_iter s p g off out).1.
Proof.
  unfold ShardCommit.commit_iter. destruct (g <=? _); [done|]. destruct (ShardCommit.syncing s); [done|].
  match goal with |- context [ShardCommit.bufio_flush ?s1 out] => pose proof (bufio_flush_same s1 out) as H;
    destruct (ShardCommit.bufio_flush s1 out) as [s2 [e|]] end; exact H.
Qed.

Lemma append_start_same s p n1 n2 e1 e2 out : same_synced s (ShardCommit.append_start s p n1 n2 e1 e2 out).1.
Proof.
  unfold ShardCommit.append_start. destruct (_ <? _); [done|]. destruct (ShardCommit.closed s); [done|].
  match goal with |- context [ShardCommit.bufio_write s ?h n1 e1] => pose proof (bufio_write_same s h n1 e1) as H1;
    destruct (ShardCommit.bufio_write s h n1 e1) as [s1 [e|]] end; [exact H1|].
  pose proof (bufio_write_same s1 p n2 e2) as H2. destruct (ShardCommit.bufio_write s1 p n2 e2) as [s2 [e|]]; [by etrans|].
  do 2 (etrans; [eassumption|]). match goal with |- context [ShardCommit.commit_iter ?a ?b ?c ?d ?e] =>
    etrans; [|apply (commit_iter_same a b c d e)] end. done.
Qed.

Lemma step_grows c c' : ShardCommit.inv c -> ShardCommit.step c c' -> shard_grows c.1 c'.1.
Proof.
  intros (_ & _ & Hths & _) Hs. destruct Hs as [s ths tid p n1 n2 e1 e2 out H|s ths tid p g off out H|s ths tid p g off sg ft fl d out H Ho Hd Hf Hd'
    |s ths tid p g off sg ft fl d e H Hd Hd'|s ths out d e1 e2 Hs Hd Hd']; cbn [fst].
  - apply same_synced_grows. pose proof (append_start_same s p n1 n2 e1 e2 out) as X. by destruct (ShardCommit.append_start s p n1 n2 e1 e2 out).
  - apply same_synced_grows. pose proof (commit_iter_same s p g off out) as X. by destruct (ShardCommit.commit_iter s p g off out).
  - apply Hths in H as (_ & _ & _ & _ & Hg & _ & Hft & _).
    pose proof (commit_iter_same (ShardCommit.sync_ok s sg ft d) p g off out) as (X1 & X2 & X3 & X4).
    destruct (ShardCommit.commit_iter (ShardCommit.sync_ok s sg ft d) p g off out) as [s' q]. cbn in *.
    split_and!; [done|lia|]. unfold wakes. rewrite X3. cbn. destruct (Z.eqb_spec sg (ShardCommit.syncedGen s)); [lia|done].
  - by apply same_synced_grows.
  - unfold ShardCommit.close_shard. destruct (ShardCommit.closed s) eqn:Ec; [split_and!; [done|lia|done]|].
    match goal with |- context [ShardCommit.bufio_flush ?s1 out] => pose proof (bufio_flush_same s1 out) as (X1 & X2 & X3 & X4);
      destruct (ShardCommit.bufio_flush s1 out) as [s2 [e|]] end; [|destruct e1]; cbn in *;
      (split_and!; [done|rewrite X2; apply Z.le_refl|]; unfold wakes; cbn; rewrite X4, Ec, orb_true_r; done).
Qed.

(** ** The invariant *)

Definition limit_ok (s : Shard) (f : feed) (limit : option Z) (from : Z) : Prop :=
  match limit with None => from = f_from f | Some l => from < l <= ShardCommit.synced s end.

Definition at_ok (s : Shard) (f : feed) : Prop :=
  match f_at f with
  | Opening limit => limit_ok s f limit (f_next f)
  | Replaying limit from pos off =>
      limit_ok s f limit from /\
      exists R, holds R (ShardCommit.file s) /\ pos = length (shard_bytes R) /\ off = zlen R /\ f_next f = Z.max from off
  | Sending limit from pos off payload =>
      limit_ok s f limit from /\ (forall l, limit = Some l -> off < l) /\
      exists R, holds (R ++ [payload]) (ShardCommit.file s) /\ pos = length (shard_bytes (R ++ [payload])) /\
        off = zlen R /\ f_next f = off /\ from <= off
  | Waiting => ShardCommit.closed s = false /\ ShardCommit.synced s <= f_next f
  | Locking | Exited => True
  end.

Definition delivered_ok (s : Shard) (f : feed) : Prop :=
  0 <= f_from f /\ f_next f = f_from f + zlen (delivered f) /\ (length (f_chan f) <= chan_size)%nat /\
  exists D, holds D (ShardCommit.file s) /\ zlen D <= f_next f /\
    delivered f = numbered (f_from f) (drop (Z.to_nat (f_from f)) D).

Definition feed_ok (s : Shard) (f : feed) : Prop := delivered_ok s f /\ at_ok s f.

Definition inv (x : ShardCommit.config * feed) : Prop := ShardCommit.inv x.1 /\ feed_ok x.1.1 x.2.

Lemma inv_records c : ShardCommit.inv c -> records_file (ShardCommit.file c.1).
Proof.
  intros ((_ & Hp & _ & (ex & Hex & Hf) & _) & _). exists (ShardCommit.log c.1 ++ ex). split; [by apply Forall_app|done].
Qed.

(** A state that differs only in where the goroutine is. *)
Lemma delivered_ok_at s f a : delivered_ok s f -> delivered_ok s {| f with f_at := a |}.
Proof. done. Qed.

Lemma feed_ok_grows s s' f : shard_grows s s' -> feed_ok s f -> feed_ok s' (if wakes s s' then woken f else f).
Proof.
  intros (Hf & Hs & Hw) [(H0 & Hn & Hc & D & HD & Hd & Ed) Ha].
  assert (delivered_ok s' f) as Hdel by (split_and!; try done; exists D; split_and!; try done; by eapply holds_longer).
  assert (forall l fr, limit_ok s f l fr -> limit_ok s' f l fr) as Hl by (intros [l|] fr; cbn; [lia|done]).
  split; [destruct (wakes s s'); [|done]; unfold woken; by destruct (f_at f)|].
  unfold at_ok, woken in *. destruct (f_at f) as [l|l fr pos off|l fr pos off p| | |] eqn:E.
  - destruct (wakes s s'); rewrite E; auto.
  - destruct Ha as (? & R & HR & ?). destruct (wakes s s'); rewrite E; (split; [auto|]); exists R; (split; [by eapply holds_longer|done]).
  - destruct Ha as (? & ? & R & HR & ?). destruct (wakes s s'); rewrite E; (split; [auto|]); (split; [done|]);
      exists R; (split; [by eapply holds_longer|done]).
  - destruct (wakes s s'); by rewrite E.
  - destruct (wakes s s'); [done|]. rewrite E. destruct (Hw eq_refl) as [-> ->]. done.
  - destruct (wakes s s'); by rewrite E.
Qed.

Lemma replay_record_ok s f limit from pos off :
  records_file (ShardCommit.file s) -> feed_ok s f -> f_at f = Replaying limit from pos off ->
  feed_ok s (replay_record limit from pos off (ShardCommit.file s) f).
Proof.
  intros HL [Hd Ha] E. unfold at_ok in Ha. rewrite E in Ha. destruct Ha as (Hl & R & HR & -> & -> & Hn).
  pose proof (scan_next R _ HL HR) as Hs. unfold replay_record.
  assert (feed_ok s (replay_returns limit f)) as Hret.
  { split; [done|]. unfold at_ok, replay_returns. cbn. by destruct limit, (f_cancelled f). }
  destruct (scan_record _) as [| | | |body rest]; [done..|].
  assert ((length (shard_bytes R) + length (shard_record_bytes body))%nat = length (shard_bytes (R ++ [body]))) as Hlen
    by by rewrite ShardCommit.shard_bytes_app, ShardCommit.shard_bytes_one, length_app.
  destruct (Z.ltb_spec (zlen R) from).
  - split; [done|]. cbn. split; [by destruct limit|]. exists (R ++ [body]). split_and!; [done|done| |]; rewrite ?length_app; cbn [length f_next]; lia.
  - destruct (match limit with Some l => _ | None => false end) eqn:El; [done|]. split; [done|]. cbn.
    split; [by destruct limit|]. split; [intros l ->; go_bool; lia|]. exists R. split_and!; try done; lia.
Qed.

Lemma numbered_snoc from l p : numbered from (l ++ [p]) = numbered from l ++ [mkShardRecord (from + zlen l) p].
Proof. unfold numbered. rewrite imap_app. cbn. by rewrite Nat.add_0_r. Qed.

Lemma length_numbered from l : length (numbered from l) = length l.
Proof. apply length_imap. Qed.

Lemma send_record_ok s f f' b limit from pos off p :
  feed_ok s f -> f_at f = Sending limit from pos off p -> send_record b limit from pos off p f = Some f' -> feed_ok s f'.
Proof.
  intros [Hd Ha] E H. unfold at_ok in Ha. rewrite E in Ha. destruct Ha as (Hl & Hlt & R & HR & -> & -> & Hn & Hfr).
  unfold send_record in H. case_bool_decide as Hroom; cbn [andb] in H.
  2: { destruct (f_cancelled f) eqn:Ec; [|done]. injection H as <-. split; [done|]. unfold at_ok, replay_returns. cbn. by destruct limit, (f_cancelled f). }
  destruct (b || negb (f_cancelled f)) eqn:Eb.
  2: { destruct (f_cancelled f) eqn:Ec; [|done]. injection H as <-. split; [done|]. unfold at_ok, replay_returns. cbn. by destruct limit, (f_cancelled f). }
  injection H as <-. destruct Hd as (H0 & Hnx & Hc & D & HD & HDl & Ed).
  assert (delivered {| f with f_chan := f_chan f ++ [mkShardRecord (zlen R) p]; f_next := zlen R + 1;
                              f_at := Replaying limit from (length (shard_bytes (R ++ [p]))) (zlen R + 1) |}
          = delivered f ++ [mkShardRecord (zlen R) p]) as Edel by (unfold delivered; cbn; by rewrite app_assoc).
  assert (holds R (ShardCommit.file s)) as HR0.
  { destruct HR as [HR1 HR2]. apply Forall_app in HR1 as [? _]. split; [done|]. etrans; [|exact HR2].
    rewrite ShardCommit.shard_bytes_app. by apply prefix_app_r. }
  assert (drop (Z.to_nat (f_from f)) R = drop (Z.to_nat (f_from f)) D) as Edrop.
  { destruct (holds_prefix D R _ HD HR0 ltac:(lia)) as [l ->]. rewrite length_app in *. rewrite Ed, length_numbered, length_drop in Hnx.
    destruct (decide (l = [])) as [->|Hne]; [by rewrite app_nil_r|].
    assert (length l <> 0%nat) by (by destruct l). rewrite !drop_ge; [done|lia|rewrite length_app; lia]. }
  split.
  - split_and!; [done| | |].
    + rewrite Edel, length_app. cbn [f_next f_from length]. lia.
    + cbn [f_chan]. rewrite length_app. cbn. unfold chan_size in *. lia.
    + exists (R ++ [p]). split_and!; [done|cbn [f_next]; rewrite length_app; cbn; lia|]. rewrite Edel. cbn [f_from].
      assert (zlen R >= f_from f) by lia. rewrite drop_app_le, numbered_snoc, Edrop, <- Ed by lia. repeat f_equal.
      rewrite <- Edrop, length_drop. lia.
  - unfold at_ok. cbn. split; [by destruct limit|]. exists (R ++ [p]). split_and!; try done; rewrite ?length_app; cbn; lia.
Qed.

Lemma feed_next_ok s b1 b2 f f' :
  records_file (ShardCommit.file s) -> feed_ok s f -> feed_next s b1 b2 f = Some f' -> feed_ok s f'.
Proof.
  intros HL Hf. unfold feed_next. destruct (f_at f) as [l|l fr pos off|l fr pos off p| | |] eqn:E; [| | | |done..].
  - intros [= <-]. destruct Hf as [Hd Ha]. split; [done|]. unfold at_ok in *. rewrite E in Ha. cbn. destruct b1; [|done]. split; [done|].
    exists []. split_and!; try done; [apply holds_nil|]. destruct Hd as (? & ? & _). cbn. lia.
  - intros [= <-]. by apply replay_record_ok.
  - by apply send_record_ok.
  - intros [= <-]. destruct Hf as [Hd _]. unfold live_check. destruct (ShardCommit.closed s) eqn:Ec; cbn [negb andb]; [by split|].
    destruct (Z.leb_spec (ShardCommit.synced s) (f_next f)); (split; [done|]); unfold at_ok; cbn; [by destruct (f_cancelled f)|lia].
Qed.

Lemma recv_ok s f r rest :
  feed_ok s f -> f_chan f = r :: rest -> feed_ok s {| f with f_chan := rest; f_received := f_received f ++ [r] |}.
Proof.
  intros [(H0 & Hn & Hl & D & HD) Ha] H. rewrite H in Hl. cbn in Hl.
  assert (delivered {| f with f_chan := rest; f_received := f_received f ++ [r] |} = delivered f) as E
    by (unfold delivered; cbn; by rewrite <- app_assoc, H).
  split; [|done]. unfold delivered_ok. rewrite E. split_and!; [done|done|cbn; lia|by exists D].
Qed.

Lemma feed_step_inv x y : inv x -> step x y -> inv y.
Proof.
  intros [Hc Hf] Hs. destruct Hs as [c c' f Hs|c f f' b1 b2 H|c f r rest H|c f]; cbn [fst snd] in *; split; cbn [fst snd].
  - by eapply ShardCommit.shard_step_inv.
  - apply feed_ok_grows; [by apply step_grows|done].
  - done.
  - eapply feed_next_ok; [by apply inv_records|done|done].
  - done.
  - by apply recv_ok.
  - done.
  - exact Hf.
Qed.

Lemma feed_reachable_inv log0 from x : Forall payload_ok log0 -> 0 <= from -> reachable log0 from x -> inv x.
Proof.
  intros HF H0 H. induction H as [|x y _ IH Hs]; [|by eapply feed_step_inv]. split; [by apply ShardCommit.shard_initial_inv|].
  split; [|done]. split_and!; cbn; [done|lia|unfold chan_size; lia|]. exists []. split_and!; [apply holds_nil|done|]. by rewrite drop_nil.
Qed.

(** ** What is delivered *)

Lemma feed_next_from s b1 b2 f f' : feed_next s b1 b2 f = Some f' -> f_from f' = f_from f /\ f_cancelled f' = f_cancelled f.
Proof.
  unfold feed_next, replay_record, send_record, live_check, replay_returns. intros H. repeat case_match; simplify_eq; done.
Qed.

Lemma reachable_from log0 from x : reachable log0 from x -> f_from x.2 = from.
Proof.
  intros H. induction H as [|x y _ IH Hs]; [done|]. destruct Hs as [c c' f Hs|c f f' b1 b2 H|c f r rest H|c f]; cbn [snd] in *; try done.
  - unfold woken. repeat case_match; done.
  - apply feed_next_from in H as [-> _]. done.
Qed.

Lemma holds_in D L file : Forall payload_ok L -> file `prefix_of` shard_bytes L -> holds D file -> D `prefix_of` L.
Proof.
  intros HL Hf HD. assert (holds L (shard_bytes L)) as HLL by done. apply (holds_longer _ _ _ Hf) in HD.
  destruct (decide (length D <= length L)%nat) as [Hle|Hgt]; [by eapply holds_prefix|].
  destruct (holds_prefix L D _ HLL HD ltac:(lia)) as [l ->]. destruct HD as [_ [k Hk]].
  apply (f_equal length) in Hk. rewrite ShardCommit.shard_bytes_app, !length_app in Hk. pose proof (length_shard_bytes l).
  destruct l; [by rewrite app_nil_r|cbn in *; lia].
Qed.

Lemma numbered_prefix from a b : a `prefix_of` b -> numbered from a `prefix_of` numbered from b.
Proof. intros [l ->]. unfold numbered. rewrite imap_app. by apply prefix_app_r. Qed.

Lemma drop_prefix {A} n (a b : list A) : a `prefix_of` b -> drop n a `prefix_of` drop n b.
Proof. intros [l ->]. rewrite drop_app. by apply prefix_app_r. Qed.

(** C6. A subscription delivers the log.  Whatever appends, buffer spills, failed writes and
    fsyncs, reads and a cancellation are interleaved: what its reader has received, followed
    by what waits in the channel, are the records from the requested offset on, in order,
    each once and with its payload, a prefix of the log while no write has failed (after a
    failed write the file can end with one record whose append returned the error); the
    cursor is behind the last of them, the channel keeps its bound, and the live loop sends
    only records that are fsynced. *)
Theorem subscription_in_order log0 from s ths f :
  Forall payload_ok log0 -> 0 <= from -> reachable log0 from ((s, ths), f) ->
  f_next f = from + zlen (delivered f) /\ (length (f_chan f) <= chan_size)%nat /\
  (exists extra, (ShardCommit.werr s = None -> extra = []) /\
     delivered f `prefix_of` numbered from (drop (Z.to_nat from) (ShardCommit.log s ++ extra))) /\
  forall l fr pos off p, f_at f = Sending (Some l) fr pos off p -> off < ShardCommit.synced s.
Proof.
  intros HF H0 HR. pose proof (reachable_from _ _ _ HR) as Efrom. cbn in Efrom.
  apply feed_reachable_inv in HR as [Hc [(_ & Hn & Hl & D & HD & _ & Ed) Ha]]; [|done..]. cbn [fst snd] in *. rewrite Efrom in *.
  split_and!; [done|done| |].
  - destruct Hc as ((_ & Hp & Hw & (ex & Hex & Hfx) & _) & _). cbn [fst] in *. rewrite Ed.
    assert (exists extra, (ShardCommit.werr s = None -> extra = []) /\ D `prefix_of` ShardCommit.log s ++ extra) as (extra & Hx & HDx).
    { destruct (ShardCommit.werr s) as [e|] eqn:Ew.
      - exists ex. split; [done|]. eapply holds_in; [by apply Forall_app|exact Hfx|done].
      - exists []. split; [done|]. rewrite app_nil_r. eapply holds_in; [exact Hp| |exact HD]. rewrite <- Hw by done. by apply prefix_app_r. }
    exists extra. split; [done|]. by apply numbered_prefix, drop_prefix.
  - intros l fr pos off p E. unfold at_ok in Ha. rewrite E in Ha. destruct Ha as ((_ & Hs) & Hlt & _). specialize (Hlt l eq_refl). lia.
Qed.

(** ** It catches up *)

(** A step of the goroutine or of its reader, while the shard does nothing and its file can
    be opened. *)
Inductive runs (s : Shard) : feed -> feed -> Prop :=
| run_step f f' pick : feed_next s true pick f = Some f' -> runs s f f'
| run_recv f r rest : f_chan f = r :: rest -> runs s f {| f with f_chan := rest; f_received := f_received f ++ [r] |}.

(** The steps left: a record read and sent and received for each record of a replay, the
    replay that may follow the one under way, and the way to the condition variable. *)
Definition round (s : Shard) : nat := 3 * length (ShardCommit.file s) + 4.

Definition replays_left (s : Shard) (limit : option Z) : nat :=
  match limit with
  | None => round s
  | Some l => if l <? ShardCommit.synced s then round s else 0
  end.

Definition at_rank (s : Shard) (f : feed) : nat :=
  match f_at f with
  | Opening limit => 3 * length (ShardCommit.file s) + 3 + replays_left s limit
  | Replaying limit _ pos _ => 3 * (length (ShardCommit.file s) - pos) + 2 + replays_left s limit
  | Sending limit _ pos _ _ => 3 * (length (ShardCommit.file s) - pos) + 4 + replays_left s limit
  | Locking => if f_next f <? ShardCommit.synced s then round s else 1
  | Waiting | Exited => 0
  end.

Definition rank (s : Shard) (f : feed) : nat := at_rank s f + length (f_chan f).

Section CatchUp.
Variables (s : Shard) (P : list bytes).
Hypothesis Hfile : records_file (ShardCommit.file s).
Hypothesis Hopen : ShardCommit.closed s = false.
Hypothesis Hdurable : holds P (ShardCommit.file s) /\ zlen P = ShardCommit.synced s.

Definition live (f : feed) : Prop := feed_ok s f /\ f_cancelled f = false /\ f_at f <> Exited.

(** Where a replay ends it has passed its limit. *)
Lemma replay_end_rank f limit from (R : list bytes) :
  limit_ok s f limit from -> f_next f = Z.max from (zlen R) -> f_cancelled f = false ->
  (forall l, limit = Some l -> l <= zlen R) ->
  f_at (replay_returns limit f) = Locking /\ (at_rank s (replay_returns limit f) < 2 + replays_left s limit)%nat.
Proof.
  intros Hl Hn Hc Hend. unfold replay_returns, at_rank, replays_left, round in *. cbn. rewrite Hc.
  destruct limit as [l|]; cbn in *; (split; [done|]).
  - specialize (Hend l eq_refl). destruct (Z.ltb_spec (f_next f) (ShardCommit.synced s)), (Z.ltb_spec l (ShardCommit.synced s)); lia.
  - destruct (_ <? _); lia.
Qed.

Lemma replay_record_rank f limit from pos off :
  live f -> f_at f = Replaying limit from pos off ->
  let f' := replay_record limit from pos off (ShardCommit.file s) f in
  f_at f' <> Exited /\ (at_rank s f' < at_rank s f)%nat /\ f_chan f' = f_chan f.
Proof.
  intros ([Hd Ha] & Hc & _) E. unfold at_ok in Ha. rewrite E in Ha. destruct Ha as (Hl & R & HR & -> & -> & Hn).
  pose proof (scan_next R _ Hfile HR) as Hs. unfold replay_record.
  assert (at_rank s f = 3 * (length (ShardCommit.file s) - length (shard_bytes R)) + 2 + replays_left s limit)%nat as Er
    by (unfold at_rank; by rewrite E).
  assert (f_chan (replay_returns limit f) = f_chan f) as Ech by done.
  assert ((forall p, ~ holds (R ++ [p]) (ShardCommit.file s)) -> forall l, limit = Some l -> l <= zlen R) as Hend.
  { intros Hno l ->. destruct Hdurable as [HP HPl]. destruct (decide (l <= zlen R)) as [|Hlt]; [done|exfalso]. cbn in Hl.
    destruct (holds_prefix R P _ HR HP ltac:(lia)) as [[|q k] ->]; [rewrite app_nil_r in HPl; lia|]. apply (Hno q).
    destruct HP as [HP1 HP2]. rewrite cons_middle, app_assoc in HP1, HP2. apply Forall_app in HP1 as [HP1 _]. split; [done|]. etrans; [|exact HP2].
    rewrite (ShardCommit.shard_bytes_app (R ++ [q])). by apply prefix_app_r. }
  destruct (scan_record _) as [| | | |body rest]; [| |done..|].
  1, 2: destruct (replay_end_rank f limit from R Hl Hn Hc (Hend Hs)) as [E1 E2]; split_and!; [by rewrite E1|lia|done].
  assert (length (shard_bytes R) + length (shard_record_bytes body) <= length (ShardCommit.file s))%nat as Hle.
  { destruct Hs as [_ Hp%prefix_length]. by rewrite ShardCommit.shard_bytes_app, ShardCommit.shard_bytes_one, length_app in Hp. }
  pose proof (length_shard_record_bytes body) as Hb.
  destruct (zlen R <? from); [split_and!; [done|unfold at_rank at 1; cbn [f_at]; lia|done]|].
  destruct (match limit with Some l => _ | None => false end) eqn:El; [|split_and!; [done|unfold at_rank at 1; cbn [f_at]; lia|done]].
  destruct (replay_end_rank f limit from R Hl Hn Hc) as [E1 E2]; [intros l ->; go_bool; lia|]. split_and!; [by rewrite E1|lia|done].
Qed.

Lemma runs_rank f f' : live f -> runs s f f' -> live f' /\ (rank s f' < rank s f)%nat.
Proof.
  intros Hf Hr. pose proof Hf as (Hok & Hc & Hx). destruct Hr as [f f' pick H|f r rest H].
  2: { split; [by split; [apply recv_ok|]|]. unfold rank, at_rank. cbn. rewrite H. cbn. lia. }
  assert (feed_ok s f') as Hok' by (by eapply feed_next_ok).
  assert (f_cancelled f' = false) as Hc' by (apply feed_next_from in H as [_ ->]; done).
  cut (f_at f' <> Exited /\ (rank s f' < rank s f)%nat); [by intros [? ?]|]. unfold feed_next in H.
  destruct (f_at f) as [l|l fr pos off|l fr pos off p| | |] eqn:E; [..|done|done].
  - injection H as <-. split; [done|]. unfold rank, at_rank. rewrite E. cbn. lia.
  - injection H as <-. destruct (replay_record_rank f l fr pos off Hf E) as (H1 & H2 & H3). split; [done|]. unfold rank. rewrite H3. lia.
  - unfold send_record in H. rewrite Hc in H. destruct (_ && _) in H; [|done]. injection H as <-. split; [done|].
    unfold rank, at_rank. rewrite E. cbn. rewrite length_app. cbn. lia.
  - injection H as <-. unfold live_check, rank, at_rank. rewrite Hopen, Hc, E. cbn [negb andb].
    destruct (Z.leb_spec (ShardCommit.synced s) (f_next f)), (Z.ltb_spec (f_next f) (ShardCommit.synced s)); try lia; cbn [f_at f_chan];
      (split; [done|]); unfold replays_left, round; rewrite ?Z.ltb_irrefl; lia.
Qed.

Lemma runs_live f f' : live f -> rtc (runs s) f f' -> live f'.
Proof. intros Hf Hr. induction Hr as [|f f1 f2 H1 _ IH]; [done|]. by apply IH, (runs_rank f). Qed.

Lemma runs_bounded n f f' : live f -> nsteps (runs s) n f f' -> (n <= rank s f)%nat.
Proof.
  intros Hf Hr. induction Hr as [f|n f f1 f2 H1 _ IH]; [lia|]. destruct (runs_rank f f1 Hf H1) as [Hf1 Hlt]. specialize (IH Hf1). lia.
Qed.

End CatchUp.

Lemma runs_from s f f' : rtc (runs s) f f' -> f_from f' = f_from f.
Proof.
  intros Hr. induction Hr as [|f f1 f2 H1 _ IH]; [done|]. rewrite IH. destruct H1 as [f f1 pick H|]; [|done]. by apply feed_next_from in H as [-> _].
Qed.

Lemma live_progress s f : live s f ->
  (exists f', runs s f f') \/ (f_at f = Waiting /\ f_chan f = [] /\ ShardCommit.synced s <= f_next f).
Proof.
  intros ([_ Ha] & Hc & Hx). destruct (f_chan f) as [|r rest] eqn:Ech; [|left; eexists; by eapply run_recv].
  unfold at_ok in Ha. destruct (f_at f) as [l|l fr pos off|l fr pos off p| | |] eqn:E; [| | | |right; split_and!; try done; apply Ha|done];
    left; eexists; apply (run_step s f _ true); unfold feed_next, send_record; rewrite E; [done..| |done].
  rewrite Ech, bool_decide_true by (cbn; unfold chan_size; lia). done.
Qed.

(** C16. A subscription catches up and no wake-up is lost.  From every state with an open shard
    and a subscription that is neither cancelled nor ended, while the shard rests and the
    reader takes what comes: every run of the goroutine and the reader is finite, and it
    stops only where the goroutine waits on the condition variable and the reader has
    received every record that is fsynced. *)
Theorem subscription_catches_up log0 from s ths f :
  Forall payload_ok log0 -> 0 <= from -> reachable log0 from ((s, ths), f) ->
  ShardCommit.closed s = false -> f_cancelled f = false -> f_at f <> Exited ->
  (forall n f', nsteps (runs s) n f f' -> (n <= rank s f)%nat) /\
  forall f', rtc (runs s) f f' ->
    (exists f'', runs s f' f'') \/
    (f_at f' = Waiting /\ f_chan f' = [] /\ ShardCommit.synced s <= from + zlen (f_received f')).
Proof.
  intros HF H0 HR Hopen Hc Hx. pose proof (reachable_from _ _ _ HR) as Efrom. cbn in Efrom.
  apply feed_reachable_inv in HR as [Hci Hf]; [|done..]. cbn [fst snd] in *.
  pose proof (inv_records _ Hci) as Hfile. destruct Hci as ((Ht & Hp & _ & _ & Hdf) & (Hs & _ & Hd) & _). cbn [fst] in *.
  set (P := take (Z.to_nat (ShardCommit.synced s)) (ShardCommit.log s)) in *.
  assert (holds P (ShardCommit.file s) /\ zlen P = ShardCommit.synced s) as HP.
  { split; [split; [by apply Forall_take|by etrans]|]. unfold P. rewrite length_take. lia. }
  assert (live s f) as Hlive by done. split.
  - intros n f' Hr. by eapply runs_bounded.
  - intros f' Hr. pose proof (runs_live s P Hfile Hopen HP f f' Hlive Hr) as Hlive'.
    destruct (live_progress s f' Hlive') as [?|(E1 & E2 & E3)]; [by left|right]. split_and!; try done.
    destruct Hlive' as [[(_ & Hn & _) _] _]. rewrite Hn, (runs_from s f f' Hr), Efrom in E3. unfold delivered in E3. by rewrite E2, app_nil_r in E3.
Qed.
(** ** A cancelled subscription *)

(** The steps while nobody reads the channel and the shard stays open. *)
Inductive quiet : ShardCommit.config * feed -> ShardCommit.config * feed -> Prop :=
| q_shard c c' f :
    ShardCommit.step c c' -> ShardCommit.closed c'.1 = false -> quiet (c, f) (c', if wakes c.1 c'.1 then woken f else f)
| q_run c f f' pick : feed_next c.1 true pick f = Some f' -> quiet (c, f) (c, f').

Lemma quiet_step x y : quiet x y -> step x y.
Proof. intros [c c' f H _|c f f' pick H]; by econstructor. Qed.

Definition in_live_loop (a : feed_at) : Prop :=
  match a with Locking | Opening (Some _) | Replaying (Some _) _ _ _ | Sending (Some _) _ _ _ _ => True | _ => False end.

(** Cancelled in the live loop, the channel full and records left. *)
Definition stranded (s : Shard) (f : feed) : Prop :=
  f_cancelled f = true /\ length (f_chan f) = chan_size /\ f_next f < ShardCommit.synced s /\ ShardCommit.closed s = false /\
  in_live_loop (f_at f).

Lemma stranded_run s f pick : records_file (ShardCommit.file s) -> feed_ok s f -> stranded s f ->
  exists f', feed_next s true pick f = Some f' /\ stranded s f' /\ delivered f' = delivered f.
Proof.
  intros HL [_ Ha] (Hc & Hch & Hn & Hop & Hat). unfold feed_next, at_ok in *.
  destruct (f_at f) as [[l|]|[l|] fr pos off|[l|] fr pos off p| | |] eqn:E; try done.
  - eexists. split; [done|]. by split.
  - destruct Ha as (_ & R & HR & -> & -> & _). pose proof (scan_next R _ HL HR) as Hs. unfold replay_record.
    destruct (scan_record _); try done; [by eexists..|]. eexists. split; [done|]. repeat case_match; by split.
  - unfold send_record. rewrite bool_decide_false by lia. rewrite Hc. cbn. eexists. split; [done|]. by split.
  - eexists. split; [done|]. unfold live_check. rewrite Hop. cbn. destruct (Z.leb_spec (ShardCommit.synced s) (f_next f)); [lia|]. by split.
Qed.

Lemma stranded_quiet x y : inv x -> stranded x.1.1 x.2 -> quiet x y -> stranded y.1.1 y.2 /\ delivered y.2 = delivered x.2.
Proof.
  intros [Hci Hf] Hx Hq. destruct Hq as [c c' f Hs Hop|c f f' pick H]; cbn [fst snd] in *.
  - destruct (step_grows c c' Hci Hs) as (_ & Hsy & _). destruct Hx as (? & ? & ? & _ & Hat).
    assert (woken f = f) as Hw by (unfold woken; by destruct (f_at f)). rewrite Hw. destruct (wakes c.1 c'.1); (split; [unfold stranded; split_and!; try done; lia|done]).
  - destruct (stranded_run c.1 f pick (inv_records c Hci) Hf Hx) as (f1 & E & ? & ?). rewrite E in H. by injection H as <-.
Qed.

(** C40. A cancelled subscription does not end.  When its context is cancelled while it follows
    the log, its channel is full and fsynced records are left, then, as long as nobody reads
    the channel and the shard stays open, whatever is appended meanwhile: the goroutine is
    never blocked and never returns, it delivers nothing more, and reads the file over and
    over. *)
Theorem cancelled_subscription_spins log0 from c f c' f' pick :
  Forall payload_ok log0 -> 0 <= from -> reachable log0 from (c, f) -> stranded c.1 f -> rtc quiet (c, f) (c', f') ->
  f_at f' <> Exited /\ delivered f' = delivered f /\ exists f'', feed_next c'.1 true pick f' = Some f''.
Proof.
  intros HF H0 HR Hst Hq. apply feed_reachable_inv in HR; [|done..].
  assert (inv (c', f') /\ stranded c'.1 f' /\ delivered f' = delivered f) as (Hi & Hst' & Ed).
  { remember (c, f) as x. remember (c', f') as y. replace c with x.1 in Hst by by subst. replace f with x.2 in * by by subst.
    replace c' with y.1 by by subst. replace f' with y.2 by by subst. clear Heqx Heqy.
    induction Hq as [x|x z y Hxz _ IH]; [done|]. destruct (stranded_quiet x z HR Hst Hxz) as [Hz <-]. apply IH; [|done].
    by eapply feed_step_inv, quiet_step. }
  destruct Hi as [Hci Hf]. split_and!; [|done|].
  - destruct Hst' as (_ & _ & _ & _ & Hat). by destruct (f_at f').
  - destruct (stranded_run c'.1 f' pick (inv_records c' Hci) Hf Hst') as (f1 & E & _). by exists f1.
Qed.

(** A cancelled goroutine that waits sleeps on until an fsync succeeds or the shard is
    closed: the cancellation does not wake it. *)
Lemma cancelled_waiter_sleeps s f b1 b2 s' : f_at f = Waiting -> wakes s s' = false ->
  feed_next s b1 b2 f = None /\ f_at (if wakes s s' then woken f else f) = Waiting.
Proof. intros E Hw. unfold feed_next. by rewrite Hw, E. Qed.

(** ** Examples *)

(** A schedule of the goroutine ([true]) and its reader ([false]). *)
Fixpoint play (acts : list bool) (s : Shard) (f : feed) : option feed :=
  match acts with
  | [] => Some f
  | true :: acts => feed_next s true true f ≫= play acts s
  | false :: acts =>
      match f_chan f with
      | [] => None
      | r :: rest => play acts s {| f with f_chan := rest; f_received := f_received f ++ [r] |}
      end
  end.

Lemma play_reachable log0 from acts c : forall f f', reachable log0 from (c, f) -> play acts c.1 f = Some f' -> reachable log0 from (c, f').
Proof.
  induction acts as [|[] acts IH]; intros f f' HR; cbn [play]; [by intros [= <-]|..].
  - destruct (feed_next c.1 true true f) as [f1|] eqn:E; [|done]. apply IH. eapply reach_step; [exact HR|]. by eapply st_run.
  - destruct (f_chan f) as [|r rest] eqn:E; [done|]. apply IH. eapply reach_step; [exact HR|]. by apply st_recv.
Qed.

(** 129 empty records, of which the reader takes one; then one more is appended, and the
    context is cancelled. *)
Definition ex_log : list bytes := replicate 129 [].
Definition ex_acts : list bool := replicate 258 true ++ [false] ++ replicate 2 true.
Definition ex_feed : feed := default (Subscribe 0) (play ex_acts (ShardCommit.initial ex_log).1 (Subscribe 0)).
Definition ex_append : ShardCommit.config :=
  let (s, p) := ShardCommit.append_start (ShardCommit.initial ex_log).1 [] 0 0 None None ShardCommit.WriteAll in (s, {[0%nat := p]}).
Definition ex_synced : ShardCommit.config :=
  let (s, p) := ShardCommit.commit_iter (ShardCommit.sync_ok ex_append.1 1 130 (ShardCommit.file ex_append.1)) [] 1 129 ShardCommit.WriteAll in
  (s, {[0%nat := p]}).
Lemma ex_log_ok : Forall payload_ok ex_log.
Proof. apply Forall_replicate. vm_compute. discriminate. Qed.

Lemma ex_feed_reachable : reachable ex_log 0 (ShardCommit.initial ex_log, ex_feed).
Proof.
  apply (play_reachable ex_log 0 ex_acts _ (Subscribe 0)); [constructor|]. vm_compute. reflexivity.
Qed.

Lemma ex_synced_reachable : reachable ex_log 0 (ex_synced, {| ex_feed with f_cancelled := true |}).
Proof.
  eapply reach_step; [|apply st_cancel]. assert (f_at ex_feed = Locking) as Ea by (vm_compute; reflexivity).
  assert (woken ex_feed = ex_feed) as Ew by (unfold woken; by rewrite Ea).
  assert (reachable ex_log 0 (ex_append, ex_feed)) as H1.
  { pose proof (st_shard (ShardCommit.initial ex_log) ex_append ex_feed) as X. rewrite Ew in X.
    eapply reach_step; [exact ex_feed_reachable|]. destruct (wakes _ _); (apply X;
      exact (ShardCommit.step_append (ShardCommit.initial ex_log).1 ∅ 0 [] 0 0 None None ShardCommit.WriteAll (lookup_empty 0%nat))). }
  pose proof (st_shard ex_append ex_synced ex_feed) as X. rewrite Ew in X. eapply reach_step; [exact H1|].
  assert (ShardCommit.step ex_append ex_synced) as Hs.
  { eapply (ShardCommit.step_fsync_ok ex_append.1 ex_append.2 0 [] 1 129 1 130 (ShardCommit.file ex_append.1) (ShardCommit.file ex_append.1) ShardCommit.WriteAll).
    - vm_compute. reflexivity.
    - vm_compute. reflexivity.
    - exists (shard_record_bytes []). vm_compute. reflexivity.
    - done.
    - done. }
  destruct (wakes _ _); by apply X.
Qed.

Lemma subscription_in_order_witness :
  f_next ex_feed = 129 /\ exists extra, delivered ex_feed `prefix_of` numbered 0 (ex_log ++ extra).
Proof.
  destruct (subscription_in_order ex_log 0 _ _ ex_feed ex_log_ok (Z.le_refl 0) ex_feed_reachable) as (_ & _ & (extra & _ & H) & _).
  split; [vm_compute; reflexivity|]. exists extra. exact H.
Defined.

Lemma subscription_catches_up_witness :
  (forall n f', nsteps (runs (ShardCommit.initial ex_log).1) n (Subscribe 0) f' -> (n <= rank (ShardCommit.initial ex_log).1 (Subscribe 0))%nat) /\
  forall f', rtc (runs (ShardCommit.initial ex_log).1) (Subscribe 0) f' ->
    (exists f'', runs (ShardCommit.initial ex_log).1 f' f'') \/
    (f_at f' = Waiting /\ f_chan f' = [] /\ 129 <= 0 + zlen (f_received f')).
Proof.
  apply (subscription_catches_up ex_log 0 (ShardCommit.initial ex_log).1 ∅ (Subscribe 0) ex_log_ok (Z.le_refl 0) (reach_init _ _)); done.
Defined.

Lemma cancelled_subscription_spins_witness :
  exists f'', feed_next ex_synced.1 true false {| ex_feed with f_cancelled := true |} = Some f''.
Proof.
  apply (cancelled_subscription_spins ex_log 0 ex_synced {| ex_feed with f_cancelled := true |} ex_synced
           {| ex_feed with f_cancelled := true |} false ex_log_ok (Z.le_refl 0) ex_synced_reachable); [|apply rtc_refl].
  split_and!; vm_compute; done || reflexivity.
Defined.

(** ** The leader's own entry of the high-water mark (replicator.go) *)

Section Worker.
Context {S IO : Type} `{ST : !Store.ShardStore S IO}.

(** [run] up to its goroutines: the replica set, and the shard, which is opened when it is
    not yet; a panic of the manager is [None]. *)
Definition set_hwm (shardID : Z) (h : Replica.HighWaterMark) (m : @Replica.Manager S) : @Replica.Manager S :=
  {| m with Replica.mg_hwms := (fun hs => <[shardID := h]> hs) <$> Replica.mg_hwms m |}.

Definition run (open : Z -> result shard_err S) (shardID : Z) (followers : list string) (m : @Replica.Manager S) :
    option (result (@Replica.mgr_err) S * @Replica.Manager S) :=
  '(h, m) ← Replica.HWM shardID m;
  let m := set_hwm shardID (Replica.SetReplicas (Replica.mg_self m :: followers) h) m in
  Replica.Manager_Shard open shardID m.

(** [selfUpdateLoop] over the records its subscription delivers. *)
Definition selfUpdateLoop (self : string) (start : Z) (recs : list ShardRecord) (h : Replica.HighWaterMark) : Replica.HighWaterMark :=
  fold_left (fun h r => Replica.Update self (Offset r + 1) h) recs (Replica.Update self start h).

Lemma Update_entry id o h c : Replica.offsets h !! id = Some c ->
  Replica.offsets (Replica.Update id o h) !! id = Some (Z.max c o).
Proof.
  intros E. unfold Replica.Update. rewrite E. destruct (Z.ltb_spec c o); cbn; [rewrite lookup_insert_eq; f_equal; lia|]. rewrite E. f_equal. lia.
Qed.

(** The leader's entry is the tail it started from and then follows the records. *)
Lemma self_entry_follows self start l h c :
  Replica.offsets h !! self = Some c -> 0 <= c <= start ->
  Replica.offsets (selfUpdateLoop self start (numbered start l) h) !! self = Some (start + zlen l).
Proof.
  intros E Hc. unfold selfUpdateLoop. induction l as [|p l IH] using rev_ind.
  - cbn. rewrite (Update_entry _ _ _ _ E). f_equal. lia.
  - rewrite numbered_snoc, fold_left_app. cbn [fold_left Offset]. rewrite (Update_entry _ _ _ _ IH), length_app. f_equal. cbn. lia.
Qed.

(** A worker that gets its shard tracks this node and the followers, and nothing else. *)
Lemma run_tracks open shardID followers (m m' : @Replica.Manager S) s :
  (forall h, Replica.mg_hwms m ≫= lookup shardID = Some h -> Replica.selfID h = Replica.mg_self m) ->
  run open shardID followers m = Some (Ok s, m') ->
  exists h, Replica.mg_hwms m' ≫= lookup shardID = Some h /\
    forall id, is_Some (Replica.offsets h !! id) <-> id = Replica.mg_self m \/ id ∈ followers.
Proof.
  intros Hself H. unfold run, Replica.HWM in H. destruct (Replica.hwmLocked shardID m) as [[h m1]|] eqn:Eh; [|done]. cbn in H.
  assert (Replica.selfID h = Replica.mg_self m /\ Replica.mg_self m1 = Replica.mg_self m /\ is_Some (Replica.mg_hwms m1)) as (Eid & Em & [hs Ehs]).
  { unfold Replica.hwmLocked in Eh. destruct (Replica.mg_hwms m) as [hs|] eqn:E1; [|done].
    destruct (hs !! shardID) as [h0|] eqn:E2; injection Eh as <- <-; [|by split_and!].
    split_and!; [|done|by rewrite E1]. apply Hself. cbn. by rewrite E2. }
  set (h1 := Replica.SetReplicas (Replica.mg_self m1 :: followers) h) in *.
  assert (forall id, is_Some (Replica.offsets h1 !! id) <-> id = Replica.mg_self m \/ id ∈ followers) as Hdom.
  { intros id. unfold h1. rewrite Replica.SetReplicas_lookup, Eid, Em. destruct (decide _) as [Hd|Hd].
    - split; [intros _|by eexists]. set_solver.
    - split; [by intros []|]. set_solver. }
  assert (Replica.mg_hwms (set_hwm shardID h1 m1) ≫= lookup shardID = Some h1) as Hm1
    by (unfold set_hwm; cbn; rewrite Ehs; cbn; apply lookup_insert_eq).
  unfold Replica.Manager_Shard, Replica.shard_lookup in H. destruct (Replica.mg_closed _); [done|].
  destruct (_ ≫= lookup shardID) as [s0|] in H; [injection H as <- <-; by exists h1|].
  destruct (open shardID) as [s1|e]; [|done]. unfold Replica.shard_install in H. destruct (Replica.mg_closed _); [done|].
  destruct (Replica.mg_shards _) as [ss|]; [|done]. destruct (ss !! shardID); [injection H as <- <-; by exists h1|].
  unfold Replica.hwmLocked in H. cbn in Hm1, H. rewrite Ehs in Hm1, H. cbn in Hm1, H. rewrite Hm1 in H. injection H as <- <-.
  cbn. rewrite ?Ehs. cbn. rewrite ?lookup_insert_eq. eexists. split; [done|]. intros id. rewrite <- Hdom.
  unfold Replica.Update. destruct (Replica.offsets h1 !! _) as [c|] eqn:Ec; [|done]. destruct (c <? _); [|done]. cbn.
  rewrite lookup_insert_is_Some. cbn in Ec. destruct (decide (id = Replica.mg_self m1)) as [->|Hne].
  { split; [intros _; by rewrite Ec|by left]. }
  split; [by intros [?|[_ ?]]|by right].
Qed.
End Worker.

(** The start is the tail, which counts records that are still to be fsynced: the leader's
    entry can be ahead of what its disk holds. *)
Example self_entry_ahead_of_disk :
  ShardCommit.synced ex_append.1 = 129 /\
  Replica.offsets (selfUpdateLoop "n1" (ShardCommit.tail ex_append.1) [] (Replica.NewHWM "n1")) !! "n1"%string = Some 130.
Proof. vm_compute. done. Qed.
End Feed.
