(* ===== verification/GoJson.v ===== *)
(** * What the sources use of encoding/json, encoding/base64 and unicode/utf8

    The envelopes on the log and the payloads of the workflow events are JSON
    written by [json.Marshal] and read by [json.Unmarshal]. Both are modelled on
    bytes: the string encoder with its HTML escapes and its replacement of
    invalid UTF-8, the scanner's grammar with its nesting limit, the unquoting of
    strings with surrogate pairs, numbers as literals, base64 for byte slices,
    and [json.RawMessage] with its compaction. The lemmas at the end say that the
    parser reads back what the encoder wrote. *)

From S2P Require Import Prelude GoLib.
Open Scope Z_scope.

Module Json.

Definition isc (c : Z) (b : byte) : bool := byte_val b =? c.
Definition in_range (lo hi : Z) (b : byte) : bool := (lo <=? byte_val b) && (byte_val b <=? hi).
Definition ch (c : Z) : byte := byte_of c.

(** ** unicode/utf8 *)

Definition RuneError : Z := 65533.
Definition cont (b : byte) : bool := in_range 128 191 b.

(** [utf8.DecodeRune] of a non-empty slice: the rune and its size. *)
Definition decode_rune (s : bytes) : Z * nat :=
  let bad := (RuneError, 1%nat) in
  match s with
  | [] => (RuneError, 0%nat)
  | b0 :: s1 =>
      let c0 := byte_val b0 in
      if c0 <? 128 then (c0, 1%nat)
      else if in_range 194 223 b0 then
        match s1 with
        | b1 :: _ => if cont b1 then ((c0 - 192) * 64 + (byte_val b1 - 128), 2%nat) else bad
        | [] => bad
        end
      else if in_range 224 239 b0 then
        match s1 with
        | b1 :: b2 :: _ =>
            if in_range (if c0 =? 224 then 160 else 128) (if c0 =? 237 then 159 else 191) b1 && cont b2
            then ((c0 - 224) * 4096 + (byte_val b1 - 128) * 64 + (byte_val b2 - 128), 3%nat)
            else bad
        | _ => bad
        end
      else if in_range 240 244 b0 then
        match s1 with
        | b1 :: b2 :: b3 :: _ =>
            if in_range (if c0 =? 240 then 144 else 128) (if c0 =? 244 then 143 else 191) b1 &&
               cont b2 && cont b3
            then ((c0 - 240) * 262144 + (byte_val b1 - 128) * 4096 + (byte_val b2 - 128) * 64 +
                  (byte_val b3 - 128), 4%nat)
            else bad
        | _ => bad
        end
      else bad
  end.

(** [utf8.EncodeRune]. *)
Definition encode_rune (r : Z) : bytes :=
  if (0 <=? r) && (r <=? 127) then [ch r]
  else if (0 <=? r) && (r <=? 2047) then [ch (192 + r / 64); ch (128 + r mod 64)]
  else if (r <? 0) || (1114111 <? r) || ((55296 <=? r) && (r <=? 57343)) then
    [ch 239; ch 191; ch 189]
  else if r <=? 65535 then
    [ch (224 + r / 4096); ch (128 + r / 64 mod 64); ch (128 + r mod 64)]
  else [ch (240 + r / 262144); ch (128 + r / 4096 mod 64); ch (128 + r / 64 mod 64);
        ch (128 + r mod 64)].

(** ** Writing strings ([appendString] with HTML escapes) *)

Definition hex_digit (n : Z) : byte := if n <? 10 then ch (48 + n) else ch (87 + n).
Definition esc_u (n : Z) : bytes :=
  [ch 92; ch 117; hex_digit (n / 4096 mod 16); hex_digit (n / 256 mod 16);
   hex_digit (n / 16 mod 16); hex_digit (n mod 16)].

Definition html_safe (c : Z) : bool :=
  (32 <=? c) && (c <=? 127) &&
  negb ((c =? 34) || (c =? 38) || (c =? 60) || (c =? 62) || (c =? 92)).

(** One round of the encoder's loop: what it writes and how far it advances. *)
Definition quote_step (s : bytes) : bytes * nat :=
  match s with
  | [] => ([], 0%nat)
  | b :: _ =>
      let c := byte_val b in
      if c <? 128 then
        (if html_safe c then [b]
         else if (c =? 92) || (c =? 34) then [ch 92; b]
         else if c =? 8 then [ch 92; ch 98]
         else if c =? 12 then [ch 92; ch 102]
         else if c =? 10 then [ch 92; ch 110]
         else if c =? 13 then [ch 92; ch 114]
         else if c =? 9 then [ch 92; ch 116]
         else esc_u c, 1%nat)
      else
        let (r, size) := decode_rune s in
        if (r =? RuneError) && (size =? 1)%nat then (esc_u RuneError, 1%nat)
        else if (r =? 8232) || (r =? 8233) then (esc_u r, size)
        else (take size s, size)
  end.

Fixpoint quote_loop (fuel : nat) (s : bytes) : bytes :=
  match fuel, s with
  | S fuel, _ :: _ => let (out, k) := quote_step s in out ++ quote_loop fuel (drop k s)
  | _, _ => []
  end.

Definition quote (s : bytes) : bytes := ch 34 :: quote_loop (length s) s ++ [ch 34].

(** What is left of a string after a trip through JSON: invalid bytes become
    U+FFFD. *)
Definition valid_step (s : bytes) : bytes * nat :=
  let (r, size) := decode_rune s in (encode_rune r, size).

Fixpoint valid_loop (fuel : nat) (s : bytes) : bytes :=
  match fuel, s with
  | S fuel, _ :: _ => let (out, k) := valid_step s in out ++ valid_loop fuel (drop k s)
  | _, _ => []
  end.

Definition to_valid_utf8 (s : bytes) : bytes := valid_loop (length s) s.

(** ** Reading strings (the scanner's string states and [unquoteBytes]) *)

Definition hex_val (b : byte) : option Z :=
  let c := byte_val b in
  if (48 <=? c) && (c <=? 57) then Some (c - 48)
  else if (97 <=? c) && (c <=? 102) then Some (c - 87)
  else if (65 <=? c) && (c <=? 70) then Some (c - 55)
  else None.

(** [getu4]: the value of a leading [\uXXXX]. *)
Definition getu4 (s : bytes) : option Z :=
  match s with
  | b0 :: b1 :: h3 :: h2 :: h1 :: h0 :: _ =>
      if isc 92 b0 && isc 117 b1 then
        match hex_val h3, hex_val h2, hex_val h1, hex_val h0 with
        | Some a, Some b, Some c, Some d => Some (a * 4096 + b * 256 + c * 16 + d)
        | _, _, _, _ => None
        end
      else None
  | _ => None
  end.

Definition is_surrogate (r : Z) : bool := (55296 <=? r) && (r <? 57344).

(** [utf16.DecodeRune]. *)
Definition utf16_decode (r1 r2 : Z) : Z :=
  if (55296 <=? r1) && (r1 <? 56320) && (56320 <=? r2) && (r2 <? 57344)
  then (r1 - 55296) * 1024 + (r2 - 56320) + 65536
  else RuneError.

Inductive str_tok :=
| TEnd                          (* the closing quote *)
| TBad                          (* a syntax error *)
| TOut (out : bytes) (n : nat). (* [n] bytes read, [out] written *)

Definition unquote_escape (s : bytes) : str_tok :=
  match s with
  | _ :: e :: _ =>
      let c := byte_val e in
      if (c =? 34) || (c =? 92) || (c =? 47) then TOut [e] 2
      else if c =? 98 then TOut [ch 8] 2
      else if c =? 102 then TOut [ch 12] 2
      else if c =? 110 then TOut [ch 10] 2
      else if c =? 114 then TOut [ch 13] 2
      else if c =? 116 then TOut [ch 9] 2
      else if c =? 117 then
        match getu4 s with
        | None => TBad
        | Some rr =>
            if is_surrogate rr then
              match getu4 (drop 6 s) with
              | Some rr1 =>
                  if utf16_decode rr rr1 =? RuneError then TOut (encode_rune RuneError) 6
                  else TOut (encode_rune (utf16_decode rr rr1)) 12
              | None => TOut (encode_rune RuneError) 6
              end
            else TOut (encode_rune rr) 6
        end
      else TBad
  | _ => TBad
  end.

Definition unquote_step (s : bytes) : str_tok :=
  match s with
  | [] => TBad
  | b :: _ =>
      let c := byte_val b in
      if c =? 34 then TEnd
      else if c =? 92 then unquote_escape s
      else if c <? 32 then TBad
      else if c <? 128 then TOut [b] 1
      else let (r, size) := decode_rune s in TOut (encode_rune r) size
  end.

(** The rest of a string literal after its opening quote: its value and what
    follows the closing quote. *)
Fixpoint unquote_loop (fuel : nat) (s : bytes) : option (bytes * bytes) :=
  match fuel with
  | O => None
  | S fuel =>
      match unquote_step s with
      | TEnd => Some ([], drop 1 s)
      | TBad => None
      | TOut out k =>
          match unquote_loop fuel (drop k s) with
          | Some (v, r) => Some (out ++ v, r)
          | None => None
          end
      end
  end.

Definition read_string (s : bytes) : option (bytes * bytes) := unquote_loop (S (length s)) s.

(** ** Values and the scanner's grammar *)

(** A parsed value. A member keeps the text of its value, which is what a
    [json.RawMessage] field receives. *)
Inductive json :=
| JNull
| JBool (b : bool)
| JNum (lit : bytes)
| JStr (s : bytes)
| JArr (l : jlist)
| JObj (m : jmembers)
with jlist := ANil | ACons (v : json) (l : jlist)
with jmembers := MNil | MCons (key raw : bytes) (v : json) (m : jmembers).

Definition is_space (b : byte) : bool := isc 32 b || isc 9 b || isc 13 b || isc 10 b.

Fixpoint skip_ws (s : bytes) : bytes :=
  match s with
  | b :: r => if is_space b then skip_ws r else s
  | [] => []
  end.

Definition is_digit (b : byte) : bool := in_range 48 57 b.

Fixpoint span_digits (s : bytes) : bytes * bytes :=
  match s with
  | b :: r => if is_digit b then let (d, r) := span_digits r in (b :: d, r) else ([], s)
  | [] => ([], [])
  end.

(** The integer part: a single zero, or digits that do not start with one. *)
Definition scan_int (s : bytes) : option (bytes * bytes) :=
  match s with
  | b :: r =>
      if isc 48 b then Some ([b], r)
      else if in_range 49 57 b then Some (span_digits s)
      else None
  | [] => None
  end.

Definition scan_frac (s : bytes) : option (bytes * bytes) :=
  match s with
  | b :: r =>
      if isc 46 b then
        let (d, r) := span_digits r in
        if decide (d = []) then None else Some (b :: d, r)
      else Some ([], s)
  | [] => Some ([], s)
  end.

Definition scan_exp (s : bytes) : option (bytes * bytes) :=
  match s with
  | b :: r =>
      if isc 101 b || isc 69 b then
        let (sign, r) := match r with
                         | c :: r' => if isc 43 c || isc 45 c then ([c], r') else ([], r)
                         | [] => ([], r)
                         end in
        let (d, r) := span_digits r in
        if decide (d = []) then None else Some (b :: sign ++ d, r)
      else Some ([], s)
  | [] => Some ([], s)
  end.

Definition scan_number (s : bytes) : option (bytes * bytes) :=
  let (sign, s) := match s with
                   | b :: r => if isc 45 b then ([b], r) else ([], s)
                   | [] => ([], s)
                   end in
  match scan_int s with
  | None => None
  | Some (i, s) =>
      match scan_frac s with
      | None => None
      | Some (f, s) =>
          match scan_exp s with
          | None => None
          | Some (e, s) => Some (sign ++ i ++ f ++ e, s)
          end
      end
  end.

Definition maxNestingDepth : Z := 10000.

(** A value at nesting depth [d] (the arrays and objects around it). *)
Fixpoint p_value (n : nat) (d : Z) (s : bytes) : option (json * bytes) :=
  match n with
  | O => None
  | S n =>
      match s with
      | [] => None
      | b :: r =>
          if isc 123 b then
            if maxNestingDepth <? d + 1 then None
            else match skip_ws r with
                 | c :: r' =>
                     if isc 125 c then Some (JObj MNil, r')
                     else match p_members n (d + 1) (c :: r') with
                          | Some (m, r) => Some (JObj m, r)
                          | None => None
                          end
                 | [] => None
                 end
          else if isc 91 b then
            if maxNestingDepth <? d + 1 then None
            else match skip_ws r with
                 | c :: r' =>
                     if isc 93 c then Some (JArr ANil, r')
                     else match p_elems n (d + 1) (c :: r') with
                          | Some (l, r) => Some (JArr l, r)
                          | None => None
                          end
                 | [] => None
                 end
          else if isc 34 b then
            match read_string r with Some (v, r) => Some (JStr v, r) | None => None end
          else match strip_prefix (bs_of "true") s with
          | Some r => Some (JBool true, r)
          | None =>
          match strip_prefix (bs_of "false") s with
          | Some r => Some (JBool false, r)
          | None =>
          match strip_prefix (bs_of "null") s with
          | Some r => Some (JNull, r)
          | None =>
              match scan_number s with Some (l, r) => Some (JNum l, r) | None => None end
          end end end
      end
  end
with p_elems (n : nat) (d : Z) (s : bytes) : option (jlist * bytes) :=
  match n with
  | O => None
  | S n =>
      match p_value n d s with
      | None => None
      | Some (v, r) =>
          match skip_ws r with
          | c :: r =>
              if isc 44 c then
                match p_elems n d (skip_ws r) with
                | Some (l, r) => Some (ACons v l, r)
                | None => None
                end
              else if isc 93 c then Some (ACons v ANil, r)
              else None
          | [] => None
          end
      end
  end
with p_members (n : nat) (d : Z) (s : bytes) : option (jmembers * bytes) :=
  match n with
  | O => None
  | S n =>
      match s with
      | q :: r =>
          if isc 34 q then
            match read_string r with
            | None => None
            | Some (key, r) =>
                match skip_ws r with
                | c :: r =>
                    if isc 58 c then
                      let s := skip_ws r in
                      match p_value n d s with
                      | None => None
                      | Some (v, r) =>
                          let raw := take (length s - length r) s in
                          match skip_ws r with
                          | c :: r =>
                              if isc 44 c then
                                match p_members n d (skip_ws r) with
                                | Some (m, r) => Some (MCons key raw v m, r)
                                | None => None
                                end
                              else if isc 125 c then Some (MCons key raw v MNil, r)
                              else None
                          | [] => None
                          end
                      end
                    else None
                | [] => None
                end
            end
          else None
      | [] => None
      end
  end.

(** The whole input is one value, with white space around it. *)
Definition parse (data : bytes) : option json :=
  match p_value (S (2 * length data)) 0 (skip_ws data) with
  | Some (v, r) => if decide (skip_ws r = []) then Some v else None
  | None => None
  end.

(** [json.Valid]. *)
Definition valid (data : bytes) : bool :=
  match parse data with Some _ => true | None => false end.

(** ** Integers ([strconv.AppendInt], [strconv.ParseInt] in base 10) *)

Fixpoint dec_loop (fuel : nat) (n : Z) (acc : bytes) : bytes :=
  match fuel with
  | O => acc
  | S fuel =>
      let acc := ch (48 + n mod 10) :: acc in
      if n <? 10 then acc else dec_loop fuel (n / 10) acc
  end.

Definition format_nat (n : Z) : bytes := dec_loop (S (Z.to_nat (Z.log2 n))) n [].

Definition format_int (z : Z) : bytes :=
  if z <? 0 then ch 45 :: format_nat (- z) else format_nat z.

Definition digits_val (ds : bytes) : Z :=
  fold_left (fun acc b => acc * 10 + (byte_val b - 48)) ds 0.

Definition parse_int (s : bytes) : option Z :=
  let (neg, ds) := match s with
                   | b :: r => if isc 45 b then (true, r)
                               else if isc 43 b then (false, r) else (false, s)
                   | [] => (false, [])
                   end in
  if decide (ds = []) then None
  else if forallb is_digit ds then
    let v := if neg : bool then - digits_val ds else digits_val ds in
    if (- 2 ^ 63 <=? v) && (v <? 2 ^ 63) then Some v else None
  else None.

(** ** Base64 ([base64.StdEncoding]) *)

Definition b64_char (n : Z) : byte :=
  if n <? 26 then ch (65 + n)
  else if n <? 52 then ch (71 + n)
  else if n <? 62 then ch (n - 4)
  else if n =? 62 then ch 43 else ch 47.

Definition b64_val (b : byte) : option Z :=
  let c := byte_val b in
  if (65 <=? c) && (c <=? 90) then Some (c - 65)
  else if (97 <=? c) && (c <=? 122) then Some (c - 71)
  else if (48 <=? c) && (c <=? 57) then Some (c + 4)
  else if c =? 43 then Some 62
  else if c =? 47 then Some 63
  else None.

Fixpoint b64_encode (s : bytes) : bytes :=
  match s with
  | a :: b :: c :: r =>
      let v := byte_val a * 65536 + byte_val b * 256 + byte_val c in
      b64_char (v / 262144) :: b64_char (v / 4096 mod 64) :: b64_char (v / 64 mod 64) ::
      b64_char (v mod 64) :: b64_encode r
  | [a; b] =>
      let v := byte_val a * 65536 + byte_val b * 256 in
      [b64_char (v / 262144); b64_char (v / 4096 mod 64); b64_char (v / 64 mod 64); ch 61]
  | [a] =>
      let v := byte_val a * 65536 in
      [b64_char (v / 262144); b64_char (v / 4096 mod 64); ch 61; ch 61]
  | [] => []
  end.

Fixpoint b64_quads (s : bytes) : option bytes :=
  match s with
  | [] => Some []
  | a :: b :: c :: d :: r =>
      match b64_val a, b64_val b with
      | Some va, Some vb =>
          match b64_val c, b64_val d with
          | Some vc, Some vd =>
              let v := va * 262144 + vb * 4096 + vc * 64 + vd in
              match b64_quads r with
              | Some out => Some (ch (v / 65536) :: ch (v / 256 mod 256) :: ch (v mod 256) :: out)
              | None => None
              end
          | Some vc, None =>
              if isc 61 d && bool_decide (r = []) then
                let v := va * 262144 + vb * 4096 + vc * 64 in
                Some [ch (v / 65536); ch (v / 256 mod 256)]
              else None
          | None, _ =>
              if isc 61 c && isc 61 d && bool_decide (r = []) then
                let v := va * 262144 + vb * 4096 in Some [ch (v / 65536)]
              else None
          end
      | _, _ => None
      end
  | _ => None
  end.

(** The decoder skips line breaks wherever they are. *)
Definition b64_decode (s : bytes) : option bytes :=
  b64_quads (filter (fun b => negb (isc 10 b || isc 13 b) = true) s).

(** ** Unmarshalling into struct fields

    A decode that meets a value of the wrong type goes on and reports the first
    such error at the end; every caller of the sources drops the value then, so
    the model returns [None]. *)

(** [foldName], exact for comparisons with an ASCII name: besides the ASCII
    letters only U+212A and U+017F fold into ASCII. *)
Fixpoint fold_name (s : bytes) : bytes :=
  match s with
  | [] => []
  | b :: r =>
      match r with
      | c :: r' =>
          if isc 197 b && isc 191 c then ch 83 :: fold_name r'
          else match r' with
               | e :: r'' => if isc 226 b && isc 132 c && isc 170 e then ch 75 :: fold_name r''
                             else (if in_range 97 122 b then ch (byte_val b - 32) else b) :: fold_name r
               | [] => (if in_range 97 122 b then ch (byte_val b - 32) else b) :: fold_name r
               end
      | [] => [if in_range 97 122 b then ch (byte_val b - 32) else b]
      end
  end.

Definition field_is (name : string) (key : bytes) : bool :=
  bool_decide (fold_name key = fold_name (bs_of name)).

Definition dec_string (v : json) (old : string) : option string :=
  match v with JStr s => Some (str_of s) | JNull => Some old | _ => None end.

Definition dec_bool (v : json) (old : bool) : option bool :=
  match v with JBool b => Some b | JNull => Some old | _ => None end.

Definition dec_int (v : json) (old : Z) : option Z :=
  match v with JNum l => parse_int l | JNull => Some old | _ => None end.

Fixpoint dec_uint8s (l : jlist) (old : bytes) : option bytes :=
  match l with
  | ANil => Some []
  | ACons v l =>
      let keep := match old with b :: _ => b | [] => Byte.x00 end in
      let b := match v with
               | JNum lit =>
                   match parse_int lit with
                   | Some z => if forallb is_digit lit && (z <=? 255) then Some (ch z) else None
                   | None => None
                   end
               | JNull => Some keep
               | _ => None
               end in
      match b, dec_uint8s l (drop 1 old) with
      | Some b, Some bs => Some (b :: bs)
      | _, _ => None
      end
  end.

Definition dec_bytes (v : json) (old : bytes) : option bytes :=
  match v with
  | JStr s => b64_decode s
  | JNull => Some []
  | JArr l => dec_uint8s l old
  | _ => None
  end.

Fixpoint dec_members {A} (set : bytes -> bytes -> json -> A -> option A) (m : jmembers) (a : A) :
    option A :=
  match m with
  | MNil => Some a
  | MCons key raw v m =>
      match set key raw v a with
      | Some a => dec_members set m a
      | None => None
      end
  end.

(** [json.Unmarshal(data, &a)] for a struct whose fields [set] assigns. *)
Definition unmarshal {A} (set : bytes -> bytes -> json -> A -> option A) (zero : A) (data : bytes) :
    option A :=
  match parse data with
  | Some (JObj m) => dec_members set m zero
  | Some JNull => Some zero
  | _ => None
  end.

(** ** Marshalling structs

    The fields that are present, each with its encoded value. *)

Fixpoint enc_fields (fields : list (string * bytes)) : bytes :=
  match fields with
  | [] => []
  | [(name, v)] => quote (bs_of name) ++ ch 58 :: v
  | (name, v) :: fields => quote (bs_of name) ++ ch 58 :: v ++ ch 44 :: enc_fields fields
  end.

Definition enc_object (fields : list (string * bytes)) : bytes :=
  ch 123 :: enc_fields fields ++ [ch 125].

Definition enc_string (s : string) : bytes := quote (bs_of s).
Definition enc_bytes (b : bytes) : bytes := ch 34 :: b64_encode b ++ [ch 34].
Definition enc_bool (b : bool) : bytes := if b then bs_of "true" else bs_of "false".

(** [compact] as [json.RawMessage] is written: white space between tokens goes,
    and the characters HTML cares about are escaped. *)
Inductive compact_state := Outside | InString | InEscape.

Definition compact_next (st : compact_state) (b : byte) : compact_state :=
  match st with
  | Outside => if isc 34 b then InString else Outside
  | InString => if isc 34 b then Outside else if isc 92 b then InEscape else InString
  | InEscape => InString
  end.

Fixpoint compact_loop (st : compact_state) (s : bytes) : bytes :=
  match s with
  | [] => []
  | b :: r =>
      let st' := compact_next st b in
      if isc 60 b || isc 62 b || isc 38 b then esc_u (byte_val b) ++ compact_loop st' r
      else
        match st, is_space b with
        | Outside, true => compact_loop st' r
        | _, _ =>
            match r with
            | c :: e :: r' =>
                if isc 226 b && isc 128 c && (isc 168 e || isc 169 e)
                then esc_u (8192 + (byte_val e - 128)) ++ compact_loop st' r'
                else b :: compact_loop st' r
            | _ => b :: compact_loop st' r
            end
        end
  end.

Definition compact (raw : bytes) : option bytes :=
  if valid raw then Some (compact_loop Outside raw) else None.

(** ** The parser consumes its input, and its fuel is enough *)

Lemma decode_rune_size s : s <> [] -> (1 <= (decode_rune s).2)%nat.
Proof.
  intros Hs. destruct s as [|b0 s1]; [done|]. unfold decode_rune.
  repeat case_match; simpl; lia.
Qed.

Lemma unquote_step_size s out k : unquote_step s = TOut out k -> (1 <= k)%nat /\ s <> [].
Proof.
  unfold unquote_step, unquote_escape. destruct s as [|b r]; [done|].
  intros H. split; [|done].
  pose proof (decode_rune_size (b :: r)) as HD. destruct (decode_rune (b :: r)) as [rr sz].
  simpl in HD. repeat case_match; simplify_eq; try lia. apply HD. done.
Qed.

Lemma unquote_loop_fuel n m s :
  (length s < n)%nat -> (length s < m)%nat -> unquote_loop n s = unquote_loop m s.
Proof.
  revert m s. induction n as [|n IH]; intros m s Hn Hm; [lia|]. destruct m as [|m]; [lia|].
  simpl. destruct (unquote_step s) as [| |out k] eqn:E; try done.
  apply unquote_step_size in E as [Hk Hs].
  assert (length s <> 0)%nat by (destruct s; simpl; lia || done).
  rewrite (IH m); [done|rewrite length_drop; lia..].
Qed.

Lemma unquote_loop_consumes n s v r : unquote_loop n s = Some (v, r) -> (length r < length s)%nat.
Proof.
  revert s v. induction n as [|n IH]; intros s v H; [done|]. simpl in H.
  destruct (unquote_step s) as [| |out k] eqn:E; simplify_eq.
  - destruct s; [done|]. simpl. rewrite drop_0. lia.
  - destruct (unquote_loop n (drop k s)) as [[v' r']|] eqn:E2; simplify_eq.
    apply IH in E2. rewrite length_drop in E2. lia.
Qed.

Lemma read_string_consumes s v r : read_string s = Some (v, r) -> (length r < length s)%nat.
Proof. apply unquote_loop_consumes. Qed.

Lemma skip_ws_length s : (length (skip_ws s) <= length s)%nat.
Proof. induction s; simpl; [done|]. case_match; simpl; lia. Qed.

Lemma span_digits_app s : s = (span_digits s).1 ++ (span_digits s).2.
Proof.
  induction s as [|b s IH]; [done|]. simpl. destruct (is_digit b); [|done].
  destruct (span_digits s) as [d r]. simpl in *. by rewrite IH at 1.
Qed.

Lemma scan_int_consumes s i r : scan_int s = Some (i, r) -> (length r < length s)%nat.
Proof.
  unfold scan_int. destruct s as [|b s]; [done|]. intros H. repeat case_match; simplify_eq; [simpl; lia|].
  assert (is_digit b = true) as Hd. { unfold is_digit, in_range in *. go_bool. apply andb_true_intro. lia. }
  simpl in H. rewrite Hd in H. pose proof (span_digits_app s) as HS.
  destruct (span_digits s) as [d r']. simpl in HS. simplify_eq. simpl. rewrite length_app. lia.
Qed.

Lemma scan_frac_length s f r : scan_frac s = Some (f, r) -> (length r <= length s)%nat.
Proof.
  unfold scan_frac. destruct s as [|b s]; intros H; [by simplify_eq|].
  pose proof (span_digits_app s) as HS. destruct (span_digits s) as [d r'].
  simpl in HS. repeat case_match; simplify_eq; [|done]. simpl. rewrite length_app. lia.
Qed.

Lemma scan_exp_length s f r : scan_exp s = Some (f, r) -> (length r <= length s)%nat.
Proof.
  unfold scan_exp. destruct s as [|b s]; intros H; [by simplify_eq|].
  destruct (isc 101 b || isc 69 b); [|by simplify_eq].
  destruct (match s with [] => _ | _ => _ end) as [sg s'] eqn:E.
  assert (length s' <= length s)%nat. { repeat case_match; simplify_eq; simpl; lia. }
  pose proof (span_digits_app s') as HS. destruct (span_digits s') as [d r'].
  simpl in HS. case_decide; simplify_eq. simpl. rewrite length_app in *. lia.
Qed.

Lemma scan_number_consumes s l r : scan_number s = Some (l, r) -> (length r < length s)%nat.
Proof.
  unfold scan_number. destruct (match s with [] => _ | _ => _ end) as [sg s'] eqn:E.
  assert (length s' <= length s)%nat. { repeat case_match; simplify_eq; simpl; lia. }
  destruct (scan_int s') as [[i s1]|] eqn:E1; [|done]. apply scan_int_consumes in E1.
  destruct (scan_frac s1) as [[f s2]|] eqn:E2; [|done]. apply scan_frac_length in E2.
  destruct (scan_exp s2) as [[e s3]|] eqn:E3; [|done]. apply scan_exp_length in E3.
  intros. simplify_eq. lia.
Qed.

Lemma strip_prefix_length w s r : w <> [] -> strip_prefix w s = Some r -> (length r < length s)%nat.
Proof.
  intros Hw H. assert (length s = length w + length r)%nat as ->.
  { revert s H. clear Hw. induction w as [|a w IH]; intros s H; simpl in *; [by simplify_eq|].
    destruct s as [|b s]; [done|]. case_decide; [|done]. simpl. by rewrite (IH s). }
  destruct w; [done|]. simpl. lia.
Qed.

Ltac json_step :=
  match goal with
  | H : read_string ?s = Some (?v, ?r) |- _ => apply read_string_consumes in H
  | H : scan_number ?s = Some (?v, ?r) |- _ => apply scan_number_consumes in H
  | H : strip_prefix (bs_of ?w) ?s = Some ?r |- _ => apply strip_prefix_length in H; [|done]
  | H : skip_ws ?s = ?r |- _ =>
      let HL := fresh in pose proof (skip_ws_length s) as HL; rewrite H in HL; clear H
  | H : context [skip_ws ?s] |- _ =>
      lazymatch goal with
      | _ : (length (skip_ws s) <= length s)%nat |- _ => fail
      | _ => pose proof (skip_ws_length s)
      end
  end.

Lemma p_consumes n :
  (forall d s v r, p_value n d s = Some (v, r) -> (length r < length s)%nat) /\
  (forall d s v r, p_elems n d s = Some (v, r) -> (length r < length s)%nat) /\
  (forall d s v r, p_members n d s = Some (v, r) -> (length r < length s)%nat).
Proof.
  induction n as [|n (IHv & IHe & IHm)]; [done|]. split_and!; intros d s v r H; cbn [p_value p_elems p_members] in H.
  - repeat case_match; simplify_eq;
      repeat match goal with
             | H : p_elems _ _ _ = Some _ |- _ => apply IHe in H
             | H : p_members _ _ _ = Some _ |- _ => apply IHm in H
             | _ => json_step
             end; simpl in *; lia.
  - repeat case_match; simplify_eq;
      repeat match goal with
             | H : p_value _ _ _ = Some _ |- _ => apply IHv in H
             | H : p_elems _ _ _ = Some _ |- _ => apply IHe in H
             | _ => json_step
             end; simpl in *; lia.
  - repeat case_match; simplify_eq;
      repeat match goal with
             | H : p_value _ _ _ = Some _ |- _ => apply IHv in H
             | H : p_members _ _ _ = Some _ |- _ => apply IHm in H
             | _ => json_step
             end; simpl in *; lia.
Qed.

Lemma p_fuel n : forall m,
  (forall d s, (2 * length s < n)%nat -> (2 * length s < m)%nat -> p_value n d s = p_value m d s) /\
  (forall d s, (2 * length s + 1 < n)%nat -> (2 * length s + 1 < m)%nat -> p_elems n d s = p_elems m d s) /\
  (forall d s, (2 * length s < n)%nat -> (2 * length s < m)%nat -> p_members n d s = p_members m d s).
Proof.
  induction n as [|n IH]; intros m; [split_and!; intros; lia|].
  destruct m as [|m]; [split_and!; intros; lia|].
  destruct (IH m) as (IHv & IHe & IHm). pose proof (p_consumes n) as (Cv & _ & _).
  split_and!; intros d s Hn Hm; cbn [p_value p_elems p_members].
  - destruct s as [|b r]; [done|]. pose proof (skip_ws_length r).
    destruct (skip_ws r) as [|c r'] eqn:E; [done|]. simpl in *.
    rewrite IHm, IHe by (simpl; lia). done.
  - rewrite IHv by lia. destruct (p_value m d s) as [[v r]|] eqn:E; [|done].
    rewrite <- IHv in E by lia. apply Cv in E. pose proof (skip_ws_length r).
    destruct (skip_ws r) as [|c r'] eqn:E2; [done|]. simpl in *.
    pose proof (skip_ws_length r'). rewrite IHe by lia. done.
  - destruct s as [|q r]; [done|]. destruct (isc 34 q); [|done].
    destruct (read_string r) as [[key r1]|] eqn:E; [|done]. apply read_string_consumes in E.
    pose proof (skip_ws_length r1). destruct (skip_ws r1) as [|c r2]; [done|].
    destruct (isc 58 c); [|done]. pose proof (skip_ws_length r2). simpl in *.
    rewrite IHv by lia. destruct (p_value m d (skip_ws r2)) as [[v r3]|] eqn:E2; [|done].
    rewrite <- IHv in E2 by lia. apply Cv in E2. pose proof (skip_ws_length r3).
    destruct (skip_ws r3) as [|c2 r4]; [done|]. simpl in *.
    pose proof (skip_ws_length r4). rewrite IHm by lia. done.
Qed.

(** ** UTF-8 round trips *)

Lemma byte_val_ch c : 0 <= c < 256 -> byte_val (ch c) = c.
Proof. intros. unfold ch. rewrite byte_val_of. by apply Z.mod_small. Qed.

Lemma ch_byte_val b c : byte_val b = c -> ch c = b.
Proof. intros <-. apply byte_of_val. Qed.

Lemma encode_rune_1 r : 0 <= r <= 127 -> encode_rune r = [ch r].
Proof. intros. unfold encode_rune. repeat case_match; go_bool; lia || done. Qed.

Lemma encode_rune_2 r : 128 <= r <= 2047 -> encode_rune r = [ch (192 + r / 64); ch (128 + r mod 64)].
Proof. intros. unfold encode_rune. repeat case_match; go_bool; lia || done. Qed.

Lemma encode_rune_3 r : 2048 <= r <= 65535 -> r < 55296 \/ 57343 < r ->
  encode_rune r = [ch (224 + r / 4096); ch (128 + r / 64 mod 64); ch (128 + r mod 64)].
Proof. intros. unfold encode_rune. repeat case_match; go_bool; lia || done. Qed.

Lemma encode_rune_4 r : 65536 <= r <= 1114111 ->
  encode_rune r = [ch (240 + r / 262144); ch (128 + r / 4096 mod 64); ch (128 + r / 64 mod 64);
                   ch (128 + r mod 64)].
Proof. intros. unfold encode_rune. repeat case_match; go_bool; lia || done. Qed.

(** A rune that decodes: either an invalid byte, or its bytes, which encode it. *)
Lemma encode_decode s r size :
  s <> [] -> decode_rune s = (r, size) ->
  (r = RuneError /\ size = 1%nat /\ (match s with b :: _ => 128 <= byte_val b | [] => False end)) \/
  (encode_rune r = take size s /\ (1 <= size <= 4)%nat /\ (size <= length s)%nat).
Proof.
  intros Hs H. destruct s as [|b0 s1]; [done|]. unfold decode_rune in H.
  pose proof (byte_val_range b0).
  destruct (byte_val b0 <? 128) eqn:E0; go_bool.
  { simplify_eq. right. rewrite encode_rune_1 by lia. simpl. rewrite (ch_byte_val b0) by done.
    split_and!; done || lia. }
  destruct (in_range 194 223 b0) eqn:E1.
  { destruct s1 as [|b1 s1]; [simplify_eq; left; split_and!; done|].
    destruct (cont b1) eqn:E2; simplify_eq; [|left; split_and!; done]. right.
    unfold cont, in_range in *. go_bool. rewrite encode_rune_2 by lia.
    simpl. rewrite (ch_byte_val b0), (ch_byte_val b1) by divmod. split_and!; done || lia. }
  destruct (in_range 224 239 b0) eqn:E2.
  { destruct s1 as [|b1 [|b2 s1]]; [simplify_eq; left; split_and!; done..|].
    match type of H with (if ?c then _ else _) = _ => destruct c eqn:E3 end;
      simplify_eq; [|left; split_and!; done]. right.
    unfold cont, in_range in *. go_bool. pose proof (byte_val_range b1).
    assert ((byte_val b0 = 224 -> 160 <= byte_val b1) /\ (byte_val b0 = 237 -> byte_val b1 <= 159) /\
      128 <= byte_val b1 <= 191) as (X1 & X2 & X3).
    { destruct (byte_val b0 =? 224) eqn:?, (byte_val b0 =? 237) eqn:?; go_bool; lia. }
    rewrite encode_rune_3 by lia.
    simpl. rewrite (ch_byte_val b0), (ch_byte_val b1), (ch_byte_val b2) by divmod.
    split_and!; done || lia. }
  destruct (in_range 240 244 b0) eqn:E3; [|simplify_eq; left; split_and!; done].
  destruct s1 as [|b1 [|b2 [|b3 s1]]]; [simplify_eq; left; split_and!; done..|].
  match type of H with (if ?c then _ else _) = _ => destruct c eqn:E4 end;
    simplify_eq; [|left; split_and!; done]. right.
  unfold cont, in_range in *. go_bool. pose proof (byte_val_range b1).
  assert ((byte_val b0 = 240 -> 144 <= byte_val b1) /\ (byte_val b0 = 244 -> byte_val b1 <= 143) /\
    128 <= byte_val b1 <= 191) as (X1 & X2 & X3).
  { destruct (byte_val b0 =? 240) eqn:?, (byte_val b0 =? 244) eqn:?; go_bool; lia. }
  rewrite encode_rune_4 by lia.
  simpl. rewrite (ch_byte_val b0), (ch_byte_val b1), (ch_byte_val b2), (ch_byte_val b3) by divmod.
  split_and!; done || lia.
Qed.

(** Decoding looks at no more than the bytes of the rune it returns. *)
Lemma decode_rune_app s t r size :
  s <> [] -> decode_rune s = (r, size) -> ~ (r = RuneError /\ size = 1%nat) ->
  decode_rune (take size s ++ t) = (r, size).
Proof.
  intros Hs H Hv. destruct s as [|b0 s1]; [done|].
  unfold decode_rune in *. destruct (byte_val b0 <? 128) eqn:E0.
  { simplify_eq. simpl. by rewrite E0. }
  destruct (in_range 194 223 b0) eqn:E1; [|destruct (in_range 224 239 b0) eqn:E2;
    [|destruct (in_range 240 244 b0) eqn:E3; [|by simplify_eq; destruct Hv]]].
  - destruct s1 as [|b1 s1]; [by simplify_eq; destruct Hv|].
    destruct (cont b1) eqn:E2; [|by simplify_eq; destruct Hv]. simplify_eq.
    simpl. by rewrite E0, E1, E2.
  - destruct s1 as [|b1 [|b2 s1]]; [by simplify_eq; destruct Hv..|].
    match type of H with (if ?c then _ else _) = _ => destruct c eqn:E4 end;
      [|by simplify_eq; destruct Hv]. simplify_eq. cbn [take app]. by rewrite E0, E1, E2, E4.
  - destruct s1 as [|b1 [|b2 [|b3 s1]]]; [by simplify_eq; destruct Hv..|].
    match type of H with (if ?c then _ else _) = _ => destruct c eqn:E4 end;
      [|by simplify_eq; destruct Hv]. simplify_eq. cbn [take app]. by rewrite E0, E1, E2, E3, E4.
Qed.

(** ** Reading back an encoded string *)

Lemma isc_ch a c : 0 <= c < 256 -> isc a (ch c) = (c =? a).
Proof. intros. unfold isc. by rewrite byte_val_ch. Qed.

Lemma hex_val_digit n : 0 <= n < 16 -> hex_val (hex_digit n) = Some n.
Proof.
  intros. unfold hex_val, hex_digit. destruct (n <? 10) eqn:E; go_bool; rewrite byte_val_ch by lia.
  - rewrite (proj2 (andb_true_iff _ _)) by lia. f_equal. lia.
  - rewrite (proj2 (andb_false_iff _ _)) by lia. rewrite (proj2 (andb_true_iff _ _)) by lia. f_equal. lia.
Qed.

Lemma getu4_esc n t : 0 <= n < 65536 -> getu4 (esc_u n ++ t) = Some n.
Proof.
  intros. unfold esc_u. cbn [app getu4]. rewrite !isc_ch by lia. simpl.
  rewrite !hex_val_digit by divmod. f_equal. divmod.
Qed.

Lemma unquote_esc n t :
  0 <= n < 65536 -> is_surrogate n = false ->
  unquote_step (esc_u n ++ t) = TOut (encode_rune n) 6.
Proof.
  intros Hn Hs. pose proof (getu4_esc n t Hn) as HG. unfold esc_u in *. cbn [app] in *.
  change (unquote_step (ch 92 :: ?r)) with (unquote_escape (ch 92 :: r)).
  unfold unquote_escape. rewrite HG, Hs. reflexivity.
Qed.

Lemma unquote_simple e c t :
  (c = 34 /\ e = 34) \/ (c = 92 /\ e = 92) \/ (c = 8 /\ e = 98) \/ (c = 12 /\ e = 102) \/
  (c = 10 /\ e = 110) \/ (c = 13 /\ e = 114) \/ (c = 9 /\ e = 116) ->
  unquote_step (ch 92 :: ch e :: t) = TOut [ch c] 2.
Proof. intros H. destruct H as [[-> ->]|[[-> ->]|[[-> ->]|[[-> ->]|[[-> ->]|[[-> ->]|[-> ->]]]]]]]; reflexivity. Qed.

Lemma unquote_quote_step s out k t :
  s <> [] -> quote_step s = (out, k) ->
  exists v, valid_step s = (v, k) /\ unquote_step (out ++ t) = TOut v (length out) /\
    (1 <= k <= length s)%nat.
Proof.
  intros Hs H. destruct s as [|b s1]; [done|]. unfold quote_step, valid_step in *.
  pose proof (byte_val_range b) as Hb. pose proof (encode_decode (b :: s1)) as HED.
  destruct (byte_val b <? 128) eqn:E0.
  - clear HED. assert (decode_rune (b :: s1) = (byte_val b, 1%nat)) as ED by (unfold decode_rune; by rewrite E0).
    rewrite ED. simplify_eq. go_bool. rewrite encode_rune_1 by lia. eexists. split; [done|].
    split; [|simpl; lia]. rewrite (ch_byte_val b _ eq_refl).
    assert (forall e c, byte_val b = c -> ((c = 34 /\ e = 34) \/ (c = 92 /\ e = 92) \/ (c = 8 /\ e = 98) \/
      (c = 12 /\ e = 102) \/ (c = 10 /\ e = 110) \/ (c = 13 /\ e = 114) \/ (c = 9 /\ e = 116)) ->
      unquote_step (ch 92 :: ch e :: t) = TOut [b] 2) as HS.
    { intros e c Ec Hc. rewrite (unquote_simple e c t Hc). by rewrite <- Ec, (ch_byte_val b _ eq_refl). }
    unfold html_safe. repeat case_match; go_bool; cbn [app length].
    + unfold unquote_step. repeat case_match; go_bool; done || lia.
    + rewrite <- (byte_of_val b) at 1. apply (HS (byte_val b) (byte_val b)); [done|]. lia.
    + apply (HS 98 8); lia.
    + apply (HS 102 12); lia.
    + apply (HS 110 10); lia.
    + apply (HS 114 13); lia.
    + apply (HS 116 9); lia.
    + rewrite unquote_esc; [|lia|unfold is_surrogate; by rewrite (proj2 (andb_false_iff _ _)) by lia].
      rewrite encode_rune_1 by lia. by rewrite (ch_byte_val b _ eq_refl).
  - destruct (decode_rune (b :: s1)) as [r size] eqn:ED. specialize (HED r size Hs eq_refl).
    destruct ((r =? RuneError) && (size =? 1)%nat) eqn:EB.
    { go_bool. apply Nat.eqb_eq in H1. simplify_eq. eexists. split; [done|]. split; [|simpl; lia].
      by rewrite unquote_esc. }
    assert (~ (r = RuneError /\ size = 1%nat)) as Hv.
    { intros [-> ->]. done. }
    destruct HED as [(? & ? & _)|(HE & Hsz & Hle)]; [by destruct Hv|].
    destruct ((r =? 8232) || (r =? 8233)) eqn:ES; simplify_eq.
    + eexists. split; [done|]. split; [|lia]. go_bool.
      rewrite unquote_esc; [done|lia|unfold is_surrogate; by rewrite (proj2 (andb_false_iff _ _)) by lia].
    + eexists. split; [done|]. split; [|lia].
      pose proof (decode_rune_app (b :: s1) t r k Hs ED Hv) as HD.
      rewrite length_take_le by lia. destruct k as [|k']; [lia|]. cbn [take app] in *.
      unfold unquote_step. rewrite HD. go_bool. repeat case_match; go_bool; done || lia.
Qed.

Lemma quote_loop_S n s : s <> [] ->
  quote_loop (S n) s = (quote_step s).1 ++ quote_loop n (drop (quote_step s).2 s).
Proof. intros. destruct s; [done|]. cbn [quote_loop]. by destruct (quote_step (b :: s)). Qed.

Lemma valid_loop_S n s : s <> [] ->
  valid_loop (S n) s = (valid_step s).1 ++ valid_loop n (drop (valid_step s).2 s).
Proof. intros. destruct s; [done|]. cbn [valid_loop]. by destruct (valid_step (b :: s)). Qed.

Lemma unquote_quote_loop n s rest m :
  (length s <= n)%nat -> (length (quote_loop n s ++ ch 34 :: rest) < m)%nat ->
  unquote_loop m (quote_loop n s ++ ch 34 :: rest) = Some (valid_loop n s, rest).
Proof.
  revert s m. induction n as [|n IH]; intros s m Hs Hm; (destruct m as [|m]; [lia|]).
  { destruct s; [|simpl in *; lia]. reflexivity. }
  destruct (decide (s = [])) as [->|Hne]; [reflexivity|].
  rewrite quote_loop_S in * by done. rewrite valid_loop_S by done.
  destruct (quote_step s) as [out k] eqn:E. cbn [fst snd] in *.
  destruct (unquote_quote_step s out k (quote_loop n (drop k s) ++ ch 34 :: rest))
    as (v & Hv & Hu & Hk); [done..|].
  rewrite Hv. rewrite <- app_assoc in Hm |- *. cbn [unquote_loop fst snd]. rewrite Hu, drop_app_length.
  apply unquote_step_size in Hu as [Ho _].
  assert (1 <= length out)%nat by lia. rewrite length_app in Hm.
  rewrite IH; [done|rewrite length_drop; lia|lia].
Qed.

Lemma read_quote s rest :
  read_string (drop 1 (quote s) ++ rest) = Some (to_valid_utf8 s, rest).
Proof.
  unfold quote, read_string, to_valid_utf8. cbn [drop]. rewrite drop_0, <- app_assoc. cbn [app].
  apply unquote_quote_loop; lia.
Qed.

(** ** Reading back an integer *)

Lemma digits_val_snoc ds b : digits_val (ds ++ [b]) = digits_val ds * 10 + (byte_val b - 48).
Proof. unfold digits_val. by rewrite fold_left_app. Qed.

Definition canonical (ds : bytes) (n : Z) : Prop :=
  forallb is_digit ds = true /\ digits_val ds = n /\
  ((n = 0 /\ ds = [ch 48]) \/ (0 < n /\ exists b r, ds = b :: r /\ in_range 49 57 b = true)).

Lemma canonical_snoc ds n d :
  canonical ds n -> 0 < n -> 0 <= d <= 9 -> canonical (ds ++ [ch (48 + d)]) (n * 10 + d).
Proof.
  intros (Hf & Hv & Hc) Hn Hd. destruct Hc as [[? _]|[_ (b & r & -> & Hb)]]; [lia|]. split_and!.
  - rewrite forallb_app, Hf. simpl. unfold is_digit, in_range. rewrite byte_val_ch by lia.
    rewrite (proj2 (andb_true_iff _ _)) by lia. done.
  - rewrite digits_val_snoc, Hv, byte_val_ch by lia. lia.
  - right. split; [lia|]. exists b, (r ++ [ch (48 + d)]). done.
Qed.

Lemma canonical_digit n : 0 <= n <= 9 -> canonical [ch (48 + n)] n.
Proof.
  intros. unfold canonical, digits_val, is_digit, in_range. simpl. rewrite byte_val_ch by lia.
  split_and!; [|lia|].
  - rewrite (proj2 (andb_true_iff _ _)) by lia. done.
  - destruct (decide (n = 0)) as [->|]; [by left|]. right. split; [lia|]. eexists _, _. split; [done|].
    rewrite byte_val_ch by lia. apply andb_true_intro. lia.
Qed.

Lemma dec_loop_spec fuel n acc :
  (1 <= fuel)%nat -> 0 <= n < 2 ^ Z.of_nat fuel ->
  exists ds, dec_loop fuel n acc = ds ++ acc /\ canonical ds n.
Proof.
  revert n acc. induction fuel as [|fuel IH]; intros n acc Hf Hn; [lia|].
  cbn [dec_loop]. destruct (n <? 10) eqn:E; go_bool.
  - exists [ch (48 + n mod 10)]. rewrite Z.mod_small by lia. split; [done|]. apply canonical_digit. lia.
  - rewrite Nat2Z.inj_succ, Z.pow_succ_r in Hn by lia.
    assert (0 < n / 10) by divmod. assert (0 <= n mod 10 <= 9) by divmod.
    destruct fuel as [|fuel]; [simpl in Hn; lia|].
    destruct (IH (n / 10) (ch (48 + n mod 10) :: acc)) as (ds & -> & Hc); [lia|divmod|].
    exists (ds ++ [ch (48 + n mod 10)]). split; [by rewrite <- app_assoc|].
    replace n with (n / 10 * 10 + n mod 10) at 2 by divmod. by apply canonical_snoc.
Qed.

Lemma format_nat_canonical n : 0 <= n -> canonical (format_nat n) n.
Proof.
  intros Hn. unfold format_nat.
  destruct (dec_loop_spec (S (Z.to_nat (Z.log2 n))) n []) as (ds & -> & Hc); [lia| |].
  - rewrite Nat2Z.inj_succ, Z2Nat.id by apply Z.log2_nonneg.
    destruct (decide (n = 0)) as [->|]; [done|]. pose proof (Z.log2_spec n ltac:(lia)). lia.
  - by rewrite app_nil_r.
Qed.

Lemma parse_format_int z : in_i64 z -> parse_int (format_int z) = Some z.
Proof.
  intros Hz. unfold in_i64 in Hz. unfold parse_int, format_int.
  destruct (z <? 0) eqn:E; go_bool.
  - rewrite isc_ch by lia. simpl. destruct (format_nat_canonical (- z) ltac:(lia)) as (Hf & Hv & Hc).
    rewrite decide_False by (destruct Hc as [[_ ->]|[_ (? & ? & -> & _)]]; done).
    rewrite Hf, Hv, Z.opp_involutive. by rewrite (proj2 (andb_true_iff _ _)) by lia.
  - destruct (format_nat_canonical z ltac:(lia)) as (Hf & Hv & Hc).
    destruct Hc as [[-> _]|[_ (b & r & Hb & Hr)]]; [reflexivity|]. rewrite Hb in *.
    unfold isc. unfold in_range in Hr. go_bool.
    rewrite (proj2 (Z.eqb_neq _ 45)), (proj2 (Z.eqb_neq _ 43)) by lia.
    rewrite decide_False, Hf, Hv by done. by rewrite (proj2 (andb_true_iff _ _)) by lia.
Qed.

(** ** Reading back base64 *)

Lemma b64_val_char n : 0 <= n < 64 -> b64_val (b64_char n) = Some n.
Proof.
  intros. unfold b64_char, b64_val.
  destruct (n <? 26) eqn:?; [|destruct (n <? 52) eqn:?; [|destruct (n <? 62) eqn:?; [|destruct (n =? 62) eqn:?]]];
    go_bool; rewrite byte_val_ch by lia; repeat case_match; go_bool; f_equal; lia.
Qed.

Definition b64_text (b : byte) : Prop := (exists n, 0 <= n < 64 /\ b = b64_char n) \/ b = ch 61.

Lemma b64_encode_text s : Forall b64_text (b64_encode s).
Proof.
  assert (forall n, (length s <= n)%nat -> Forall b64_text (b64_encode s)) as H; [|by eapply H].
  intros n. revert s. induction n as [|n IH]; intros s Hn; (destruct s as [|a [|b [|c r]]]; [constructor|..]);
    simpl in Hn; try lia;
    pose proof (byte_val_range a); try pose proof (byte_val_range b); try pose proof (byte_val_range c);
    cbn [b64_encode]; repeat apply List.Forall_cons; try apply List.Forall_nil;
    try (left; eexists; split; [|reflexivity]; divmod); try (by right).
  apply IH. lia.
Qed.

Lemma b64_text_range b : b64_text b -> 43 <= byte_val b <= 122 /\ byte_val b <> 92.
Proof.
  intros [(n & Hn & ->)| ->]; [|rewrite byte_val_ch; lia].
  unfold b64_char. repeat case_match; go_bool; rewrite byte_val_ch by lia; lia.
Qed.

Lemma b64_quads_encode s : b64_quads (b64_encode s) = Some s.
Proof.
  assert (forall n, (length s <= n)%nat -> b64_quads (b64_encode s) = Some s) as H; [|by eapply H].
  intros n. revert s. induction n as [|n IH]; intros s Hn; (destruct s as [|a [|b [|c r]]]; [done|..]);
    simpl in Hn; try lia;
    pose proof (byte_val_range a); try pose proof (byte_val_range b); try pose proof (byte_val_range c);
    cbn [b64_encode b64_quads]; rewrite !b64_val_char by divmod.
  - rewrite !isc_ch by lia. simpl. rewrite (ch_byte_val a) by divmod. done.
  - rewrite !isc_ch by lia. simpl. rewrite (ch_byte_val a), (ch_byte_val b) by divmod. done.
  - rewrite IH by lia. rewrite (ch_byte_val a), (ch_byte_val b), (ch_byte_val c) by divmod. done.
Qed.

Lemma b64_roundtrip s : b64_decode (b64_encode s) = Some s.
Proof.
  unfold b64_decode. rewrite filter_Forall_id; [apply b64_quads_encode|].
  eapply List.Forall_impl; [|apply b64_encode_text]. intros b Hb. apply b64_text_range in Hb as [Hb _].
  unfold isc. rewrite !(proj2 (Z.eqb_neq _ _)) by lia. done.
Qed.

Lemma unquote_plain s rest m :
  Forall (fun b => 32 <= byte_val b < 128 /\ byte_val b <> 34 /\ byte_val b <> 92) s ->
  (length (s ++ ch 34 :: rest) < m)%nat ->
  unquote_loop m (s ++ ch 34 :: rest) = Some (s, rest).
Proof.
  intros HF. revert m. induction HF as [|b s Hb HF IH]; intros m Hm; (destruct m as [|m]; [simpl in *; lia|]).
  { reflexivity. }
  cbn [app unquote_loop unquote_step]. simpl in Hm.
  rewrite (proj2 (Z.eqb_neq _ 34)), (proj2 (Z.eqb_neq _ 92)), (proj2 (Z.ltb_ge _ 32)), (proj2 (Z.ltb_lt _ 128))
    by lia.
  cbn [drop]. rewrite drop_0, IH by lia. done.
Qed.

Lemma read_enc_bytes s rest :
  read_string (drop 1 (enc_bytes s) ++ rest) = Some (b64_encode s, rest).
Proof.
  unfold enc_bytes, read_string. cbn [drop]. rewrite drop_0, <- app_assoc. cbn [app].
  apply unquote_plain; [|lia]. eapply List.Forall_impl; [|apply b64_encode_text].
  intros b Hb. apply b64_text_range in Hb. lia.
Qed.

(** ** Reading back values and objects *)

Definition delim (t : bytes) : Prop :=
  match t with [] => True | b :: _ => isc 44 b || isc 125 b || isc 93 b = true end.

(** [txt] is the text of [v]: the parser reads it up to whatever delimiter follows. *)
Definition reads (d : Z) (txt : bytes) (v : json) : Prop :=
  (exists b r, txt = b :: r /\ is_space b = false) /\
  forall n t, delim t -> (2 * length (txt ++ t) < n)%nat -> p_value n d (txt ++ t) = Some (v, t).

Lemma reads_skip d txt v t : reads d txt v -> skip_ws (txt ++ t) = txt ++ t.
Proof. intros [(b & r & -> & Hb) _]. cbn [app skip_ws]. by rewrite Hb. Qed.

(** Whatever parses on its own reads the same in front of nothing. *)
Lemma reads_parse txt v : reads 0 txt v -> parse txt = Some v.
Proof.
  intros H. unfold parse. pose proof (reads_skip 0 txt v [] H) as Hs. rewrite app_nil_r in Hs.
  destruct H as [_ H]. specialize (H (S (2 * length txt)) [] I). rewrite app_nil_r in H.
  rewrite Hs, H by lia. done.
Qed.

Lemma reads_string d s : reads d (quote s) (JStr (to_valid_utf8 s)).
Proof.
  split; [by eexists _, _|]. intros n t _ Hn. destruct n as [|n]; [lia|].
  pose proof (read_quote s t) as HR. unfold quote in *. cbn [drop app p_value] in *. rewrite drop_0 in HR.
  rewrite !isc_ch by lia. simpl Z.eqb. cbv iota. by rewrite HR.
Qed.

Lemma reads_bytes d s : reads d (enc_bytes s) (JStr (b64_encode s)).
Proof.
  split; [by eexists _, _|]. intros n t _ Hn. destruct n as [|n]; [lia|].
  pose proof (read_enc_bytes s t) as HR. unfold enc_bytes in *. cbn [drop app p_value] in *. rewrite drop_0 in HR.
  rewrite !isc_ch by lia. simpl Z.eqb. cbv iota. by rewrite HR.
Qed.

Lemma reads_bool d b : reads d (enc_bool b) (JBool b).
Proof.
  split; [by destruct b; eexists _, _|]. intros n t _ Hn. destruct n as [|n]; [lia|].
  destruct b; reflexivity.
Qed.

Lemma span_digits_all ds t :
  forallb is_digit ds = true -> match t with b :: _ => is_digit b = false | [] => True end ->
  span_digits (ds ++ t) = (ds, t).
Proof.
  intros Hd Ht. induction ds as [|b ds IH]; simpl in *.
  - destruct t as [|b t]; [done|]. simpl. by rewrite Ht.
  - apply andb_prop in Hd as [Hb Hd]. rewrite Hb, IH by done. done.
Qed.

Lemma delim_head t : delim t ->
  match t with b :: _ => is_digit b = false /\ isc 46 b = false /\ isc 101 b = false /\ isc 69 b = false
  | [] => True end.
Proof.
  destruct t as [|b t]; [done|]. unfold delim, is_digit, in_range, isc. intros H. go_bool.
  rewrite !(proj2 (Z.eqb_neq _ _)) by lia. rewrite (proj2 (andb_false_iff _ _)) by lia. done.
Qed.

Lemma scan_number_canonical ds n sign t :
  canonical ds n -> delim t -> sign = [] \/ sign = [ch 45] ->
  scan_number (sign ++ ds ++ t) = Some (sign ++ ds, t).
Proof.
  intros (Hd & _ & Hc) Ht Hsign. apply delim_head in Ht.
  assert (scan_int (ds ++ t) = Some (ds, t)) as HI.
  { destruct Hc as [[_ ->]|[_ (b & r & -> & Hb)]]; [done|]. unfold scan_int. cbn [app].
    assert (isc 48 b = false) as ->. { unfold isc, in_range in *. go_bool. apply Z.eqb_neq. lia. }
    rewrite Hb, app_comm_cons. f_equal. apply span_digits_all; [done|]. destruct t; [done|apply Ht]. }
  assert (scan_frac t = Some ([], t)) as HF. { destruct t; [done|]. simpl. by destruct Ht as (_ & -> & _). }
  assert (scan_exp t = Some ([], t)) as HE. { destruct t; [done|]. simpl. by destruct Ht as (_ & _ & -> & ->). }
  unfold scan_number. destruct Hsign as [-> | ->].
  - cbn [app]. destruct (ds ++ t) as [|b r] eqn:E; [by destruct Hc as [[_ ->]|[_ (? & ? & -> & _)]]|].
    assert (isc 45 b = false) as ->.
    { destruct Hc as [[_ ->]|[_ (? & ? & -> & Hb)]]; cbn [app] in E; simplify_eq; [done|].
      unfold isc, in_range in *. go_bool. apply Z.eqb_neq. lia. }
    rewrite HI, HF, HE. by rewrite !app_nil_r.
  - cbn [app]. rewrite isc_ch by lia. simpl. rewrite HI, HF, HE. by rewrite !app_nil_r.
Qed.

Lemma reads_int d z : reads d (format_int z) (JNum (format_int z)).
Proof.
  assert (exists sign ds n, format_int z = sign ++ ds /\ canonical ds n /\ (sign = [] \/ sign = [ch 45]))
    as (sign & ds & n & E & Hc & Hs).
  { unfold format_int. destruct (z <? 0) eqn:Ez; go_bool.
    - exists [ch 45], (format_nat (- z)), (- z). split_and!; [done|apply format_nat_canonical; lia|by right].
    - exists [], (format_nat z), z. split_and!; [done|apply format_nat_canonical; lia|by left]. }
  rewrite E. assert (exists b r, sign ++ ds = b :: r /\ (45 = byte_val b \/ 48 <= byte_val b <= 57)) as
    (b & r & Eb & Hb).
  { destruct Hs as [-> | ->]; [|eexists _, _; split; [done|]; left; done].
    destruct Hc as (_ & _ & [[_ ->]|[_ (b & r & -> & Hb)]]); eexists _, _; (split; [done|]); right; [done|].
    unfold in_range in Hb. go_bool. lia. }
  split.
  - exists b, r. split; [done|]. unfold is_space, isc. rewrite !(proj2 (Z.eqb_neq _ _)) by lia. done.
  - intros m t Ht Hm. destruct m as [|m]; [lia|].
    pose proof (scan_number_canonical ds n sign t Hc Ht Hs) as HN. rewrite app_assoc in HN.
    rewrite Eb in *. cbn [app p_value] in *. rewrite HN. unfold isc.
    rewrite !(proj2 (Z.eqb_neq _ _)) by lia.
    assert (forall c w s, byte_val c > 57 -> strip_prefix (c :: w) (b :: s) = None) as HS.
    { intros c w s Hcw. simpl. case_decide; [|done]. subst. lia. }
    change (bs_of "true") with (Byte.x74 :: bs_of "rue"). change (bs_of "false") with (Byte.x66 :: bs_of "alse").
    change (bs_of "null") with (Byte.x6e :: bs_of "ull"). by rewrite !HS.
Qed.

Fixpoint members_of (fields : list (string * bytes)) (vals : list json) : jmembers :=
  match fields, vals with
  | (name, raw) :: fields, v :: vals => MCons (bs_of name) raw v (members_of fields vals)
  | _, _ => MNil
  end.

(** A string the JSON encoder leaves unchanged: valid UTF-8. *)
Definition utf8_ok (s : string) : Prop := to_valid_utf8 (bs_of s) = bs_of s.

Lemma enc_fields_cons name v f fields :
  enc_fields ((name, v) :: f :: fields) = quote (bs_of name) ++ ch 58 :: v ++ ch 44 :: enc_fields (f :: fields).
Proof. reflexivity. Qed.

Lemma enc_fields_head fields : fields <> [] -> exists r, enc_fields fields = ch 34 :: r.
Proof.
  destruct fields as [|[name v] [|f fields]]; [done|..]; intros _; cbn [enc_fields]; unfold quote;
    cbn [app]; eauto.
Qed.

(** One member, up to the delimiter after its value. *)
Lemma p_member_step n d name raw v t :
  utf8_ok name -> reads d raw v -> delim t ->
  (2 * length (quote (bs_of name) ++ ch 58 :: raw ++ t) < S n)%nat ->
  p_members (S n) d (quote (bs_of name) ++ ch 58 :: raw ++ t) =
    match skip_ws t with
    | c :: r =>
        if isc 44 c then
          match p_members n d (skip_ws r) with
          | Some (m, r) => Some (MCons (bs_of name) raw v m, r)
          | None => None
          end
        else if isc 125 c then Some (MCons (bs_of name) raw v MNil, r)
        else None
    | [] => None
    end.
Proof.
  intros Hname Hraw Ht Hn. cbn [p_members].
  pose proof (read_quote (bs_of name) (ch 58 :: raw ++ t)) as HR. unfold quote in *.
  cbn [app drop] in *. rewrite drop_0 in HR. rewrite isc_ch by lia. simpl Z.eqb. cbv iota.
  rewrite HR, Hname. change (skip_ws (ch 58 :: ?r)) with (ch 58 :: r). cbv iota.
  rewrite isc_ch by lia. simpl Z.eqb. cbv iota zeta. rewrite (reads_skip _ _ _ _ Hraw).
  destruct Hraw as [_ Hraw]. rewrite Hraw; [|done|].
  - rewrite length_app. replace (length raw + length t - length t)%nat with (length raw) by lia.
    by rewrite take_app_length.
  - cbn [length] in Hn. rewrite !length_app in *. cbn [length] in Hn. rewrite length_app in Hn. lia.
Qed.

Lemma p_members_fields n d fields vals t :
  fields <> [] -> Forall (fun f => utf8_ok f.1) fields ->
  Forall2 (fun f v => reads d f.2 v) fields vals ->
  (2 * length (enc_fields fields ++ ch 125 :: t) < n)%nat ->
  p_members n d (enc_fields fields ++ ch 125 :: t) = Some (members_of fields vals, t).
Proof.
  intros Hne Hnames HF. revert n Hne Hnames.
  induction HF as [|[name raw] v fields vals Hv HF IH]; intros n Hne Hnames Hn; [done|].
  apply List.Forall_cons_iff in Hnames as [Hname Hnames]. destruct n as [|n]; [lia|]. cbn [fst snd] in *.
  destruct fields as [|f fields].
  - inversion HF; subst. cbn [enc_fields] in *. rewrite <- app_assoc in *. cbn [app] in *.
    rewrite (p_member_step n d name raw v) by done.
    change (skip_ws (ch 125 :: t)) with (ch 125 :: t). reflexivity.
  - rewrite enc_fields_cons in *. rewrite <- app_assoc in *. cbn [app] in *.
    rewrite <- app_assoc in *. cbn [app] in *. rewrite (p_member_step n d name raw v) by done.
    change (skip_ws (ch 44 :: ?r)) with (ch 44 :: r). cbv iota. rewrite isc_ch by lia. simpl Z.eqb. cbv iota.
    assert (skip_ws (enc_fields (f :: fields) ++ ch 125 :: t) = enc_fields (f :: fields) ++ ch 125 :: t) as ->.
    { destruct (enc_fields_head (f :: fields)) as [r ->]; done. }
    rewrite IH; [done..|]. rewrite length_app in Hn. cbn [length] in Hn. rewrite length_app in Hn.
    cbn [length] in Hn. lia.
Qed.

(** An object is read to its brace, whatever follows. *)
Lemma p_value_object n d fields vals t :
  fields <> [] -> Forall (fun f => utf8_ok f.1) fields -> d < maxNestingDepth ->
  Forall2 (fun f v => reads (d + 1) f.2 v) fields vals -> (2 * length (enc_object fields ++ t) < n)%nat ->
  p_value n d (enc_object fields ++ t) = Some (JObj (members_of fields vals), t).
Proof.
  intros Hne Hnames Hd HF Hn. destruct n as [|n]; [lia|].
  unfold enc_object in *. cbn [app p_value]. rewrite isc_ch by lia. simpl Z.eqb. cbv iota.
  rewrite (proj2 (Z.ltb_ge _ _)) by lia. rewrite <- app_assoc in *. cbn [app] in *.
  destruct (enc_fields_head fields) as [r Hr]; [done|].
  assert (forall u, skip_ws (enc_fields fields ++ u) = enc_fields fields ++ u) as ->.
  { intros u. by rewrite Hr. }
  pose proof (p_members_fields n (d + 1) fields vals t Hne Hnames HF) as HP.
  rewrite Hr in *. cbn [app] in *. rewrite isc_ch by lia. simpl Z.eqb. cbv iota.
  rewrite HP; [done|]. cbn [length] in *. rewrite !length_app in *. cbn [length] in *. lia.
Qed.

Lemma reads_object d fields vals :
  fields <> [] -> Forall (fun f => utf8_ok f.1) fields -> d < maxNestingDepth ->
  Forall2 (fun f v => reads (d + 1) f.2 v) fields vals ->
  reads d (enc_object fields) (JObj (members_of fields vals)).
Proof. intros. split; [by eexists _, _|]. intros n t _ Hn. by apply p_value_object. Qed.

(** ** Compaction leaves encoded text alone *)

(** Reading [a] from state [st] to state [st'] copies it. *)
Definition stable (st st' : compact_state) (a : bytes) : Prop :=
  forall t, compact_loop st (a ++ t) = a ++ compact_loop st' t.

Lemma stable_nil st : stable st st [].
Proof. by intros t. Qed.

Lemma stable_app st st1 st2 a b : stable st st1 a -> stable st1 st2 b -> stable st st2 (a ++ b).
Proof. intros Ha Hb t. by rewrite <- app_assoc, Ha, Hb, <- app_assoc. Qed.

(** A byte that is neither escaped nor dropped nor the start of U+2028. *)
Lemma stable_byte st b :
  isc 60 b = false -> isc 62 b = false -> isc 38 b = false -> isc 226 b = false ->
  (st = Outside -> is_space b = false) -> stable st (compact_next st b) [b].
Proof.
  intros H1 H2 H3 H4 H5 t. cbn [app compact_loop]. rewrite H1, H2, H3. cbn [orb].
  destruct st; [rewrite H5 by done|..]; destruct t as [|c [|e t]]; rewrite ?H4; cbn [andb]; try done;
    by destruct (is_space b).
Qed.

Lemma stable_in_string b :
  byte_val b <> 60 -> byte_val b <> 62 -> byte_val b <> 38 -> byte_val b <> 226 ->
  byte_val b <> 34 -> byte_val b <> 92 -> stable InString InString [b].
Proof.
  intros. pose proof (stable_byte InString b) as HB. unfold compact_next, isc in HB.
  rewrite !(proj2 (Z.eqb_neq _ _)) in HB by done. by apply HB.
Qed.

Lemma stable_plain s :
  Forall (fun b => 32 <= byte_val b < 128 /\ html_safe (byte_val b) = true) s -> stable InString InString s.
Proof.
  induction 1 as [|b s [Hb Hh] HF IH]; [apply stable_nil|].
  change (b :: s) with ([b] ++ s). eapply stable_app; [|exact IH].
  unfold html_safe in Hh. go_bool. apply stable_in_string; lia.
Qed.

Lemma stable_escape b : 32 <= byte_val b < 128 ->
  isc 60 b = false -> isc 62 b = false -> isc 38 b = false -> stable InString InString [ch 92; b].
Proof.
  intros Hb H1 H2 H3. change [ch 92; b] with ([ch 92] ++ [b]).
  apply (stable_app _ InEscape); [by apply (stable_byte InString)|].
  apply (stable_byte InEscape); try done. unfold isc. apply Z.eqb_neq. lia.
Qed.

Lemma hex_digit_plain n : 0 <= n < 16 ->
  32 <= byte_val (hex_digit n) < 128 /\ html_safe (byte_val (hex_digit n)) = true.
Proof.
  intros. unfold hex_digit. destruct (n <? 10) eqn:E; go_bool; rewrite byte_val_ch by lia;
    (split; [lia|]); unfold html_safe; rewrite !(proj2 (Z.eqb_neq _ _)) by lia;
    rewrite (proj2 (Z.leb_le _ _)), (proj2 (Z.leb_le _ 127)) by lia; done.
Qed.

Lemma stable_esc_u n : 0 <= n < 65536 -> stable InString InString (esc_u n).
Proof.
  intros Hn. unfold esc_u.
  change ([?a; ?b; ?c; ?d; ?e; ?f]) with ([a; b] ++ [c; d; e; f]).
  eapply stable_app; [by apply stable_escape|].
  apply stable_plain. repeat constructor; apply hex_digit_plain; divmod.
Qed.

(** The bytes of a rune other than U+2028 and U+2029. *)
Lemma stable_rune s r size :
  s <> [] -> 128 <= byte_val (hd Byte.x00 s) -> decode_rune s = (r, size) ->
  ~ (r = RuneError /\ size = 1%nat) -> r <> 8232 -> r <> 8233 ->
  stable InString InString (take size s).
Proof.
  intros Hs Hb H Hv H1 H2. destruct s as [|b0 s1]; [done|]. cbn [hd] in Hb.
  unfold decode_rune in H. rewrite (proj2 (Z.ltb_ge _ _)) in H by lia.
  assert (forall b, cont b = true -> stable InString InString [b]) as HC.
  { intros b Hcb. unfold cont, in_range in Hcb. go_bool. apply stable_in_string; lia. }
  destruct (in_range 194 223 b0) eqn:E1; [|destruct (in_range 224 239 b0) eqn:E2;
    [|destruct (in_range 240 244 b0) eqn:E3; [|by simplify_eq; destruct Hv]]].
  - destruct s1 as [|b1 s1]; [by simplify_eq; destruct Hv|].
    destruct (cont b1) eqn:E2; [|by simplify_eq; destruct Hv]. simplify_eq.
    change (take 2 (b0 :: b1 :: s1)) with ([b0] ++ [b1]). eapply stable_app; [|by apply HC].
    unfold in_range in E1. go_bool. apply stable_in_string; lia.
  - destruct s1 as [|b1 [|b2 s1]]; [by simplify_eq; destruct Hv..|].
    match type of H with (if ?c then _ else _) = _ => destruct c eqn:E4 end;
      [|by simplify_eq; destruct Hv]. simplify_eq. apply andb_prop in E4 as [E4 E5].
    change (take 3 (b0 :: b1 :: b2 :: s1)) with ([b0] ++ [b1] ++ [b2]).
    assert (stable InString InString ([b1] ++ [b2])) as Hrest.
    { eapply stable_app; apply HC; [|done]. unfold in_range, cont, in_range in *. go_bool.
      apply andb_true_intro. destruct (byte_val b0 =? 224), (byte_val b0 =? 237); lia. }
    intros t. rewrite <- app_assoc. cbn [app compact_loop]. unfold in_range, cont, in_range in *. go_bool.
    assert (isc 226 b0 && isc 128 b1 && (isc 168 b2 || isc 169 b2) = false) as ->.
    { unfold isc. destruct (byte_val b0 =? 226) eqn:?, (byte_val b1 =? 128) eqn:?, (byte_val b2 =? 168) eqn:?,
        (byte_val b2 =? 169) eqn:?; go_bool; try done; lia. }
    unfold isc at 1 2 3. rewrite !(proj2 (Z.eqb_neq _ _)) by lia. cbn [orb].
    assert (compact_next InString b0 = InString) as ->.
    { simpl. unfold isc. by rewrite !(proj2 (Z.eqb_neq _ _)) by lia. }
    destruct (is_space b0); f_equal; apply (Hrest t).
  - destruct s1 as [|b1 [|b2 [|b3 s1]]]; [by simplify_eq; destruct Hv..|].
    match type of H with (if ?c then _ else _) = _ => destruct c eqn:E4 end;
      [|by simplify_eq; destruct Hv]. simplify_eq.
    apply andb_prop in E4 as [E4 E5]. apply andb_prop in E4 as [E4 E6].
    change (take 4 (b0 :: b1 :: b2 :: b3 :: s1)) with ([b0] ++ [b1] ++ [b2] ++ [b3]).
    repeat (eapply stable_app); try (by apply HC).
    + unfold in_range in E3. go_bool. apply stable_in_string; lia.
    + apply HC. unfold in_range, cont, in_range in *. go_bool.
      apply andb_true_intro. destruct (byte_val b0 =? 240), (byte_val b0 =? 244); lia.
Qed.

Lemma stable_quote_step s out k :
  s <> [] -> quote_step s = (out, k) -> stable InString InString out.
Proof.
  intros Hs H. destruct s as [|b s1]; [done|]. unfold quote_step in H.
  pose proof (byte_val_range b) as Hb.
  destruct (byte_val b <? 128) eqn:E0.
  - simplify_eq. destruct (html_safe (byte_val b)) eqn:Es.
    { apply stable_plain. repeat constructor; [| |done]; unfold html_safe in Es; go_bool; lia. }
    repeat case_match; try (by apply stable_escape); go_bool; [|apply stable_esc_u; lia].
    apply stable_escape; [lia|unfold isc; apply Z.eqb_neq; lia..].
  - destruct (decode_rune (b :: s1)) as [r size] eqn:ED.
    destruct ((r =? RuneError) && (size =? 1)%nat) eqn:EB; simplify_eq; [by apply stable_esc_u|].
    destruct ((r =? 8232) || (r =? 8233)) eqn:ES; simplify_eq; go_bool; [apply stable_esc_u; lia|].
    apply (stable_rune _ r); try done. intros [-> ->]. destruct EB; done.
Qed.

Lemma quote_step_size s : s <> [] -> (1 <= (quote_step s).2 <= length s)%nat.
Proof.
  intros Hs. destruct (quote_step s) as [out k] eqn:E.
  by destruct (unquote_quote_step s out k [] Hs E) as (_ & _ & _ & ?).
Qed.

Lemma stable_quote_loop n s : stable InString InString (quote_loop n s).
Proof.
  revert s. induction n as [|n IH]; intros s; [apply stable_nil|].
  destruct (decide (s = [])) as [->|Hs]; [apply stable_nil|]. rewrite quote_loop_S by done.
  eapply stable_app; [|apply IH]. destruct (quote_step s) as [out k] eqn:E. by eapply stable_quote_step.
Qed.

Lemma stable_quoted a : stable InString InString a -> stable Outside Outside (ch 34 :: a ++ [ch 34]).
Proof.
  intros Ha. change (ch 34 :: a ++ [ch 34]) with ([ch 34] ++ a ++ [ch 34]).
  apply (stable_app _ InString); [by apply (stable_byte Outside)|].
  apply (stable_app _ InString); [done|]. by apply (stable_byte InString).
Qed.

Lemma stable_quote s : stable Outside Outside (quote s).
Proof. apply stable_quoted, stable_quote_loop. Qed.

Lemma stable_outside s :
  Forall (fun b => is_space b = false /\ byte_val b <> 60 /\ byte_val b <> 62 /\ byte_val b <> 38 /\
    byte_val b <> 226 /\ byte_val b <> 34) s -> stable Outside Outside s.
Proof.
  induction 1 as [|b s (H0 & H1 & H2 & H3 & H4 & H5) HF IH]; [apply stable_nil|].
  change (b :: s) with ([b] ++ s). eapply stable_app; [|exact IH].
  pose proof (stable_byte Outside b) as HB. unfold compact_next, isc in HB.
  rewrite !(proj2 (Z.eqb_neq _ _)) in HB by done. by apply HB.
Qed.

Lemma stable_bytes s : stable Outside Outside (enc_bytes s).
Proof.
  apply stable_quoted. pose proof (b64_encode_text s) as HF.
  induction HF as [|b l Hb HF IH]; [apply stable_nil|]. change (b :: l) with ([b] ++ l).
  eapply stable_app; [|exact IH]. destruct (b64_text_range b Hb). apply stable_in_string; try lia.
  all: destruct Hb as [(n & Hn & ->)| ->]; [|by rewrite byte_val_ch by lia];
    unfold b64_char; repeat case_match; go_bool; rewrite byte_val_ch by lia; lia.
Qed.

Lemma stable_bool b : stable Outside Outside (enc_bool b).
Proof. by destruct b; apply stable_outside; repeat constructor. Qed.

Lemma stable_int z : stable Outside Outside (format_int z).
Proof.
  assert (forall n, 0 <= n -> stable Outside Outside (format_nat n)) as HN.
  { intros n Hn. destruct (format_nat_canonical n Hn) as (Hf & _). apply stable_outside.
    apply List.Forall_forall. intros b Hb. rewrite forallb_forall in Hf. specialize (Hf b Hb).
    unfold is_digit, in_range, is_space, isc in *. go_bool. rewrite !(proj2 (Z.eqb_neq _ _)) by lia.
    split_and!; done || lia. }
  unfold format_int. destruct (z <? 0) eqn:E; go_bool; [|apply HN; lia].
  change (ch 45 :: ?r) with ([ch 45] ++ r). eapply stable_app; [|apply HN; lia].
  apply stable_outside. by repeat constructor.
Qed.

Lemma stable_fields fields :
  Forall (fun f => stable Outside Outside f.2) fields -> stable Outside Outside (enc_fields fields).
Proof.
  assert (forall c, c = 58 \/ c = 44 -> stable Outside Outside [ch c]) as HC.
  { intros c Hc. apply stable_outside. destruct Hc as [-> | ->]; by repeat constructor. }
  induction 1 as [|[name v] fields Hv HF IH]; [apply stable_nil|]. cbn [snd] in Hv.
  destruct fields as [|f fields].
  - cbn [enc_fields]. eapply stable_app; [apply stable_quote|].
    change (ch 58 :: v) with ([ch 58] ++ v). eapply stable_app; [by apply HC; left|done].
  - rewrite enc_fields_cons. eapply stable_app; [apply stable_quote|].
    change (ch 58 :: v ++ ch 44 :: ?r) with ([ch 58] ++ v ++ [ch 44] ++ r).
    repeat (eapply stable_app); try done; apply HC; auto.
Qed.

Lemma stable_object fields :
  Forall (fun f => stable Outside Outside f.2) fields -> stable Outside Outside (enc_object fields).
Proof.
  intros HF. unfold enc_object. change (ch 123 :: ?r) with ([ch 123] ++ r).
  repeat (eapply stable_app); [|by apply stable_fields|];
    apply stable_outside; by repeat constructor.
Qed.

Lemma compact_stable raw : stable Outside Outside raw -> valid raw = true -> compact raw = Some raw.
Proof.
  intros Hs Hv. unfold compact. rewrite Hv. specialize (Hs []). rewrite !app_nil_r in Hs. by rewrite Hs.
Qed.

(** ** Unmarshalling what was marshalled *)

Lemma field_is_refl name : field_is name (bs_of name) = true.
Proof. unfold field_is. by apply bool_decide_eq_true. Qed.

(** Decide which field a literal name is. *)
Ltac eval_fields :=
  repeat match goal with
  | |- context [field_is ?a (bs_of ?b)] =>
      let r := eval vm_compute in (field_is a (bs_of b)) in change (field_is a (bs_of b)) with r
  end; cbv iota.

Lemma unmarshal_object {A} (set : bytes -> bytes -> json -> A -> option A) zero fields vals :
  fields <> [] -> Forall (fun f => utf8_ok f.1) fields ->
  Forall2 (fun f v => reads 1 f.2 v) fields vals ->
  unmarshal set zero (enc_object fields) = dec_members set (members_of fields vals) zero.
Proof.
  intros Hne Hn HF. unfold unmarshal. rewrite (reads_parse _ (JObj (members_of fields vals))); [done|].
  by apply reads_object.
Qed.

Lemma reads_enc_string d s : utf8_ok s -> reads d (enc_string s) (JStr (bs_of s)).
Proof. unfold utf8_ok, enc_string. intros H. rewrite <- H at 2. apply reads_string. Qed.

End Json.
