(* ===== verification/GoJsonMap.v ===== *)
(** * JSON maps, arrays and unsigned integers (encoding/json, strconv)

    What [json.Marshal] and [json.Unmarshal] do with Go maps and unsigned
    fields, on top of [GoJson]: a map is written as an object with its keys in
    order and read back member by member, an array element by element.  Two facts
    carry the users: an encoded map is read back as it was, and every string the
    decoder produces is valid UTF-8, so it survives another trip. *)

From S2P Require Import Prelude GoLib GoJson.
Import Json.

Module JsonMap.
Local Open Scope Z_scope.

(** [strconv.ParseUint(s, 10, 64)] followed by the field's width check. *)
Definition parse_uint (bits : Z) (s : bytes) : option Z :=
  if decide (s = []) then None
  else if forallb is_digit s then
    if digits_val s <? 2 ^ bits then Some (digits_val s) else None
  else None.

Definition dec_uint32 (v : json) (old : Z) : option Z :=
  match v with JNum l => parse_uint 32 l | JNull => Some old | _ => None end.

(** [json.Marshal] of a [map[string]V]. *)
Definition map_fields {V} (enc : V -> bytes) (m : gmap string V) : list (string * bytes) :=
  omap (fun k => v ← m !! k; Some (k, enc v)) (sort_strings (elements (dom m))).

Definition enc_map {V} (enc : V -> bytes) (m : gmap string V) : bytes := enc_object (map_fields enc m).

(** The decimal text of an integer key. *)
Definition int_key (k : Z) : string := str_of (format_int k).

Definition enc_imap {V} (enc : V -> bytes) (m : gmap Z V) : bytes := enc_map enc (kmap int_key m).

(** [json.Unmarshal] into a map: an object adds its members to the map that is
    there, [null] makes it nil ([None]).  Every element starts from its type's
    zero value. *)
Definition set_entry {K V} `{Countable K} (key : bytes -> option K) (elem : json -> option V)
    (k raw : bytes) (v : json) (m : gmap K V) : option (gmap K V) :=
  match key k, elem v with
  | Some k, Some x => Some (<[k := x]> m)
  | _, _ => None
  end.

Definition dec_map {K V} `{Countable K} (key : bytes -> option K) (elem : json -> option V)
    (v : json) (old : option (gmap K V)) : option (option (gmap K V)) :=
  match v with
  | JObj ms =>
      match dec_members (set_entry key elem) ms (default ∅ old) with
      | Some m => Some (Some m)
      | None => None
      end
  | JNull => Some None
  | _ => None
  end.

Definition string_key (k : bytes) : option string := Some (str_of k).

(** ** Integer keys *)

Lemma format_nat_inj a b : 0 <= a -> 0 <= b -> format_nat a = format_nat b -> a = b.
Proof.
  intros Ha Hb E. destruct (format_nat_canonical a Ha) as (_ & <- & _).
  destruct (format_nat_canonical b Hb) as (_ & <- & _). by rewrite E.
Qed.

Lemma format_nat_sign n r : 0 <= n -> format_nat n <> ch 45 :: r.
Proof.
  intros Hn E. destruct (format_nat_canonical n Hn) as (Hd & _). rewrite E in Hd.
  done.
Qed.

#[export] Instance int_key_inj : Inj (=) (=) int_key.
Proof.
  intros a b E. unfold int_key in E. apply (f_equal bs_of) in E. rewrite !bs_of_str in E. unfold format_int in E.
  destruct (a <? 0) eqn:Ea, (b <? 0) eqn:Eb; go_bool.
  - injection E as E. apply format_nat_inj in E; lia.
  - symmetry in E. by apply format_nat_sign in E.
  - by apply format_nat_sign in E.
  - by apply format_nat_inj.
Qed.

Lemma parse_uint_format bits z : 0 <= z < 2 ^ bits -> parse_uint bits (format_int z) = Some z.
Proof.
  intros Hz. unfold format_int. rewrite (proj2 (Z.ltb_ge z 0)) by lia.
  destruct (format_nat_canonical z ltac:(lia)) as (Hd & Hv & Hc). unfold parse_uint. rewrite Hd, Hv.
  rewrite decide_False by (destruct Hc as [[_ ->]|[_ (? & ? & -> & _)]]; done).
  by rewrite (proj2 (Z.ltb_lt _ _)) by lia.
Qed.

Lemma digits_val_nonneg s : forallb is_digit s = true -> 0 <= digits_val s.
Proof.
  unfold digits_val. assert (forall acc, 0 <= acc -> forallb is_digit s = true ->
    0 <= fold_left (fun acc b => acc * 10 + (byte_val b - 48)) s acc) as H; [|by apply H].
  induction s as [|b s IH]; intros acc Ha Hs; [done|]. simpl in *. go_bool.
  apply IH; [|done]. unfold is_digit, in_range in *. go_bool. lia.
Qed.

Lemma parse_uint_range bits s z : parse_uint bits s = Some z -> 0 <= z < 2 ^ bits.
Proof.
  unfold parse_uint. case_decide; [done|]. destruct (forallb is_digit s) eqn:Ed; [|done].
  destruct (digits_val s <? 2 ^ bits) eqn:E; [|done]. intros [= <-]. go_bool.
  split; [by apply digits_val_nonneg|done].
Qed.

Lemma dec_uint32_range v old z : 0 <= old < 2 ^ 32 -> dec_uint32 v old = Some z -> 0 <= z < 2 ^ 32.
Proof. destruct v; intros Ho E; simplify_eq/=; [done|by eapply parse_uint_range]. Qed.

(** ** Decoded strings are valid UTF-8 *)

(** What the encoder of runes writes decodes to a rune with the same bytes. *)
Lemma decode_encode r t :
  exists r', decode_rune (encode_rune r ++ t) = (r', length (encode_rune r)) /\ encode_rune r' = encode_rune r.
Proof.
  unfold encode_rune at 1 2 4.
  destruct ((0 <=? r) && (r <=? 127)) eqn:E1; [|destruct ((0 <=? r) && (r <=? 2047)) eqn:E2;
    [|destruct ((r <? 0) || (1114111 <? r) || ((55296 <=? r) && (r <=? 57343))) eqn:E3;
    [|destruct (r <=? 65535) eqn:E4]]]; go_bool.
  - exists r. cbn [app length]. unfold decode_rune. rewrite byte_val_ch by lia.
    rewrite (proj2 (Z.ltb_lt _ _)) by lia. by rewrite encode_rune_1 by lia.
  - exists r. cbn [app length]. unfold decode_rune, cont, in_range. rewrite !byte_val_ch by divmod.
    rewrite (proj2 (Z.ltb_ge _ _)) by divmod.
    rewrite !(proj2 (andb_true_iff _ _)) by (split; apply Z.leb_le; divmod).
    split; [f_equal; divmod|]. by rewrite encode_rune_2 by lia.
  - exists RuneError. split; reflexivity.
  - exists r. cbn [app length]. unfold decode_rune, cont, in_range. rewrite !byte_val_ch by divmod.
    rewrite (proj2 (Z.ltb_ge _ _)) by divmod.
    rewrite (proj2 (andb_false_iff _ (_ <=? 223))) by (right; apply Z.leb_gt; divmod).
    rewrite (proj2 (andb_true_iff _ (_ <=? 239))) by (split; apply Z.leb_le; divmod).
    assert (forall c d, (c && d) = true <-> c = true /\ d = true) as HA by apply andb_true_iff.
    match goal with |- context [if ?b then _ else _] => assert (b = true) as -> end.
    { repeat (apply andb_true_iff; split); apply Z.leb_le; try divmod.
      - destruct (224 + r / 4096 =? 224) eqn:E; go_bool; divmod.
      - destruct (224 + r / 4096 =? 237) eqn:E; go_bool; divmod. }
    split; [f_equal; divmod|]. by rewrite encode_rune_3 by lia.
  - exists r. cbn [app length]. unfold decode_rune, cont, in_range. rewrite !byte_val_ch by divmod.
    rewrite (proj2 (Z.ltb_ge _ _)) by divmod.
    rewrite (proj2 (andb_false_iff _ (_ <=? 223))) by (right; apply Z.leb_gt; divmod).
    rewrite (proj2 (andb_false_iff _ (_ <=? 239))) by (right; apply Z.leb_gt; divmod).
    rewrite (proj2 (andb_true_iff _ (_ <=? 244))) by (split; apply Z.leb_le; divmod).
    match goal with |- context [if ?b then _ else _] => assert (b = true) as -> end.
    { repeat (apply andb_true_iff; split); apply Z.leb_le; try divmod.
      - destruct (240 + r / 262144 =? 240) eqn:E; go_bool; divmod.
      - destruct (240 + r / 262144 =? 244) eqn:E; go_bool; divmod. }
    split; [f_equal; divmod|]. by rewrite encode_rune_4 by lia.
Qed.

Lemma encode_rune_length r : (1 <= length (encode_rune r))%nat.
Proof. unfold encode_rune. repeat case_match; simpl; lia. Qed.

Lemma valid_loop_fuel n m s : (length s <= n)%nat -> (length s <= m)%nat -> valid_loop n s = valid_loop m s.
Proof.
  revert m s. induction n as [|n IH]; intros m s Hn Hm.
  { destruct s; [by destruct m|simpl in Hn; lia]. }
  destruct (decide (s = [])) as [->|Hne]; [by destruct m|]. destruct m as [|m]; [destruct s; simpl in *; [done|lia]|].
  rewrite !valid_loop_S by done. f_equal. pose proof (decode_rune_size s Hne) as Hk.
  unfold valid_step. destruct (decode_rune s) as [r k]. cbn [fst snd] in *.
  apply IH; rewrite length_drop; destruct s; simpl in *; [done|lia|done|lia].
Qed.

Lemma valid_rune_app r t : to_valid_utf8 (encode_rune r ++ t) = encode_rune r ++ to_valid_utf8 t.
Proof.
  unfold to_valid_utf8. pose proof (encode_rune_length r) as Hl.
  destruct (decode_encode r t) as (r' & E & Er).
  assert (encode_rune r ++ t <> []) as Hne by (destruct (encode_rune r); simpl in *; [lia|done]).
  rewrite (valid_loop_fuel _ (S (length (encode_rune r ++ t)))) by lia. rewrite valid_loop_S by done.
  unfold valid_step. rewrite E. cbn [fst snd]. rewrite Er, drop_app_length. f_equal.
  apply valid_loop_fuel; rewrite ?length_app; lia.
Qed.

Definition runes (s : bytes) : Prop := exists rs, s = concat (map encode_rune rs).

Lemma runes_valid s : runes s -> to_valid_utf8 s = s.
Proof.
  intros [rs ->]. induction rs as [|r rs IH]; [done|]. cbn [map concat]. by rewrite valid_rune_app, IH.
Qed.

Lemma runes_cons r s : runes s -> runes (encode_rune r ++ s).
Proof. intros [rs ->]. by exists (r :: rs). Qed.

Lemma ascii_rune b : byte_val b < 128 -> [b] = encode_rune (byte_val b).
Proof. intros. pose proof (byte_val_range b). rewrite encode_rune_1 by lia. by rewrite (ch_byte_val b). Qed.

Lemma ascii_utf8 s : Forall (fun b => byte_val b < 128) s -> runes s.
Proof.
  induction 1 as [|b s Hb _ IH]; [by exists []|]. change (b :: s) with ([b] ++ s).
  rewrite ascii_rune by done. by apply runes_cons.
Qed.

Lemma unquote_step_rune s out k : unquote_step s = TOut out k -> exists r, out = encode_rune r.
Proof.
  unfold unquote_step, unquote_escape. intros H. repeat case_match; simplify_eq; eauto;
    go_bool; try (eexists; apply ascii_rune; rewrite ?byte_val_ch by lia; lia).
Qed.

Lemma unquote_loop_runes n s v r : unquote_loop n s = Some (v, r) -> runes v.
Proof.
  revert s v. induction n as [|n IH]; intros s v H; [done|]. cbn [unquote_loop] in H.
  destruct (unquote_step s) as [| |out k] eqn:E; simplify_eq; [by exists []|].
  destruct (unquote_loop n (drop k s)) as [[v' r']|] eqn:E'; [|done]. simplify_eq.
  apply unquote_step_rune in E as [c ->]. apply runes_cons. by eapply IH.
Qed.

(** Every string of a value, member names included, is valid. *)
Fixpoint strs_ok (v : json) : Prop :=
  match v with
  | JStr s => runes s
  | JArr l => list_ok l
  | JObj m => members_ok m
  | _ => True
  end
with list_ok (l : jlist) : Prop := match l with ANil => True | ACons v l => strs_ok v /\ list_ok l end
with members_ok (m : jmembers) : Prop :=
  match m with MNil => True | MCons key _ v m => runes key /\ strs_ok v /\ members_ok m end.

Lemma p_strs_ok n :
  (forall d s v r, p_value n d s = Some (v, r) -> strs_ok v) /\
  (forall d s v r, p_elems n d s = Some (v, r) -> list_ok v) /\
  (forall d s v r, p_members n d s = Some (v, r) -> members_ok v).
Proof.
  induction n as [|n (IHv & IHe & IHm)]; [done|].
  split_and!; intros d s v r H; cbn [p_value p_elems p_members] in H; repeat case_match; simplify_eq;
    cbn [strs_ok list_ok members_ok]; split_and?;
    eauto using unquote_loop_runes.
Qed.

Lemma parse_strs_ok data v : parse data = Some v -> strs_ok v.
Proof.
  unfold parse. destruct (p_value _ _ _) as [[v' r]|] eqn:E; [|done]. case_decide; [|done].
  intros [= <-]. by apply (p_strs_ok _) in E.
Qed.

Lemma dec_string_utf8 v old s : strs_ok v -> utf8_ok old -> dec_string v old = Some s -> utf8_ok s.
Proof.
  intros Hv Ho E. destruct v; simplify_eq/=; [done|]. unfold utf8_ok. rewrite bs_of_str. by apply runes_valid.
Qed.

(** An invariant of the decoded value, from one of each member. *)
Lemma dec_members_inv {A} (P : A -> Prop) set ms a a' :
  members_ok ms -> P a ->
  (forall k raw v a a', runes k -> strs_ok v -> P a -> set k raw v a = Some a' -> P a') ->
  dec_members set ms a = Some a' -> P a'.
Proof.
  intros Hms Ha Hset. revert a Ha. induction ms as [|k raw v ms IH]; intros a Ha E; cbn [dec_members] in E;
    [by simplify_eq|].
  destruct Hms as (Hk & Hv & Hms). destruct (set k raw v a) as [a1|] eqn:E1; [|done].
  exact (IH Hms a1 (Hset _ _ _ _ _ Hk Hv Ha E1) E).
Qed.

Lemma unmarshal_inv {A} (P : A -> Prop) set (zero a' : A) data :
  P zero ->
  (forall k raw v a a', runes k -> strs_ok v -> P a -> set k raw v a = Some a' -> P a') ->
  unmarshal set zero data = Some a' -> P a'.
Proof.
  unfold unmarshal. intros Hz Hset E. destruct (parse data) as [v|] eqn:Ep; [|done]. apply parse_strs_ok in Ep.
  destruct v; try done; [by simplify_eq|]. by eapply dec_members_inv.
Qed.

Lemma dec_map_inv {K V} `{Countable K} (P : K -> V -> Prop) key (elem : json -> option V) v old m :
  strs_ok v -> map_Forall P (default ∅ old) ->
  (forall k v k' x, runes k -> strs_ok v -> key k = Some k' -> elem v = Some x -> P k' x) ->
  dec_map key elem v old = Some m -> map_Forall P (default ∅ m).
Proof.
  intros Hv Ho HP E. destruct v; cbn [dec_map] in E; simplify_eq; [apply map_Forall_empty|].
  destruct (dec_members _ _ _) as [m'|] eqn:Em; [|done]. simplify_eq. cbn [default].
  refine (dec_members_inv (map_Forall P) _ _ _ _ Hv Ho _ Em).
  intros k raw x a a' Hk Hx Ha E. unfold set_entry in E. destruct (key k) eqn:?, (elem x) eqn:?; simplify_eq.
  apply map_Forall_insert_2; eauto.
Qed.

(** ** Reading an encoded map back *)

Lemma int_key_utf8 z : utf8_ok (int_key z).
Proof.
  unfold utf8_ok, int_key. rewrite bs_of_str. apply runes_valid, ascii_utf8.
  assert (forall n, 0 <= n -> Forall (fun b => byte_val b < 128) (format_nat n)) as Hf.
  { intros n Hn. destruct (format_nat_canonical n Hn) as (Hd & _). apply list.Forall_forall. intros b Hb.
    rewrite forallb_forall in Hd. apply list_elem_of_In in Hb. apply Hd in Hb.
    unfold is_digit, in_range in Hb. go_bool. lia. }
  unfold format_int. destruct (z <? 0) eqn:E; go_bool; [|apply Hf; lia].
  apply Forall_cons; [|apply Hf; lia]. rewrite byte_val_ch; lia.
Qed.

Lemma reads_empty d : d < maxNestingDepth -> reads d (enc_object []) (JObj MNil).
Proof.
  intros Hd. split; [by eexists _, _|]. intros n t _ Hn. destruct n as [|n]; [lia|].
  unfold enc_object. cbn [app enc_fields p_value]. rewrite isc_ch by lia. simpl Z.eqb. cbv iota.
  rewrite (proj2 (Z.ltb_ge _ _)) by lia. reflexivity.
Qed.

Section MapRoundTrip.
Context {V : Type} (enc : V -> bytes) (val : V -> json).

(** The values of the members [map_fields] writes. *)
Definition map_vals (m : gmap string V) : list json :=
  omap (fun k => v ← m !! k; Some (val v)) (sort_strings (elements (dom m))).

Definition map_json (m : gmap string V) : json := JObj (members_of (map_fields enc m) (map_vals m)).

Lemma reads_map d (m : gmap string V) :
  d < maxNestingDepth -> map_Forall (fun k v => utf8_ok k /\ reads (d + 1) (enc v) (val v)) m ->
  reads d (enc_map enc m) (map_json m).
Proof.
  intros Hd Hm. unfold enc_map, map_json, map_fields, map_vals.
  generalize (sort_strings (elements (dom m))) as ks. intros ks.
  set (fs := omap (fun k => v ← m !! k; Some (k, enc v)) ks).
  destruct (decide (fs = [])) as [->|Hne]; [by apply reads_empty|].
  apply reads_object; [done| |done|]; subst fs; clear Hne.
  - apply list.Forall_forall. intros [k raw] Hk. apply list_elem_of_omap in Hk as (k' & _ & Hk').
    destruct (m !! k') as [v|] eqn:E; simplify_eq/=. by destruct (Hm _ _ E).
  - induction ks as [|k ks IH]; cbn [omap list_omap]; [done|]. destruct (m !! k) as [v|] eqn:E; cbn; [|done].
    constructor; [|done]. by destruct (Hm _ _ E).
Qed.

Context {K : Type} `{Countable K} (name : K -> string) `{!Inj (=) (=) name}
  (key : bytes -> option K) (elem : json -> option V).

Lemma dec_map_roundtrip (m : gmap K V) :
  map_Forall (fun k v => key (bs_of (name k)) = Some k /\ elem (val v) = Some v) m ->
  dec_map key elem (map_json (kmap name m)) None = Some (Some m).
Proof.
  intros Hm. unfold dec_map, map_json, map_fields, map_vals. cbn [default].
  set (M := kmap name m : gmap string V).
  assert (forall ks acc, exists m', dec_members (set_entry key elem)
      (members_of (omap (fun k => v ← M !! k; Some (k, enc v)) ks) (omap (fun k => v ← M !! k; Some (val v)) ks)) acc
      = Some m' /\ forall k, m' !! k = if decide (name k ∈ ks /\ is_Some (m !! k)) then m !! k else acc !! k) as HD.
  { induction ks as [|s ks IH]; intros acc; cbn [omap list_omap].
    { exists acc. split; [done|]. intros k. rewrite decide_False; [done|]. intros [Hk _]. by apply not_elem_of_nil in Hk. }
    destruct (M !! s) as [v|] eqn:Es; cbn [mbind option_bind].
    - subst M. apply lookup_kmap_Some in Es as (k & -> & Ek); [|done]. destruct (Hm _ _ Ek) as [Hk Hv].
      cbn [members_of dec_members]. unfold set_entry at 1. rewrite Hk, Hv.
      destruct (IH (<[k := v]> acc)) as (m' & E & Hm'). exists m'. split; [done|]. intros j. rewrite Hm'.
      destruct (decide (j = k)) as [->|Hne].
      + rewrite (decide_True (P := name k ∈ name k :: ks /\ _)) by (split; [by left|by eexists]).
        case_decide; [done|]. by rewrite lookup_insert_eq.
      + rewrite lookup_insert_ne by done. destruct (decide (name j ∈ ks /\ _)) as [[Hj Hs]|Hn].
        * rewrite decide_True; [done|]. split; [by right|done].
        * rewrite decide_False; [done|]. intros [[Hj|Hj]%elem_of_cons Hs]; [by simplify_eq|by destruct Hn].
    - destruct (IH acc) as (m' & E & Hm'). exists m'. split; [done|]. intros j. rewrite Hm'.
      assert (is_Some (m !! j) -> name j <> s) as Hne.
      { intros [v Ev] <-. subst M. rewrite lookup_kmap in Es by done. congruence. }
      apply decide_ext. split; intros [Hj Hs]; (split; [|done]).
      + by right.
      + apply elem_of_cons in Hj as [Hj|Hj]; [by apply Hne in Hs|done]. }
  destruct (HD (sort_strings (elements (dom M))) ∅) as (m' & -> & Hm'). do 2 f_equal.
  apply map_eq. intros k. rewrite Hm', lookup_empty. case_decide as Hk; [done|].
  destruct (m !! k) as [v|] eqn:Ev; [|done]. destruct Hk. split; [|by eexists].
  rewrite sort_strings_perm, elem_of_elements. apply elem_of_dom. subst M. rewrite lookup_kmap by done. by eexists.
Qed.
End MapRoundTrip.

Lemma kmap_id {V} (m : gmap string V) : kmap id m = m.
Proof. apply map_eq. intros k. exact (lookup_kmap id m k). Qed.

(** ** Arrays *)

Fixpoint enc_elems (vs : list bytes) : bytes :=
  match vs with
  | [] => []
  | [v] => v
  | v :: vs => v ++ ch 44 :: enc_elems vs
  end.

Definition enc_array (vs : list bytes) : bytes := ch 91 :: enc_elems vs ++ [ch 93].

Fixpoint elems_of (vs : list json) : jlist :=
  match vs with [] => ANil | v :: vs => ACons v (elems_of vs) end.

(** A text that is read does not start with a closing bracket. *)
Lemma reads_head d txt v : reads d txt v -> exists b r, txt = b :: r /\ is_space b = false /\ isc 93 b = false.
Proof.
  intros [(b & r & -> & Hb) H]. exists b, r. split_and!; [done..|]. destruct (isc 93 b) eqn:E; [|done].
  assert (b = ch 93) as -> by (destruct b; try discriminate E; reflexivity).
  by pose proof (H (S (2 * length ((ch 93 :: r) ++ []))) [] I (Nat.lt_succ_diag_r _)).
Qed.

Lemma enc_elems_head d vs vals : vs <> [] -> Forall2 (reads d) vs vals ->
  exists b r, enc_elems vs = b :: r /\ is_space b = false /\ isc 93 b = false.
Proof.
  intros Hne HF. destruct HF as [|x v vs vals Hx HF]; [done|]. destruct (reads_head _ _ _ Hx) as (b & r & -> & Hb & Hc).
  destruct vs; cbn; eauto.
Qed.

Lemma p_elems_array n d vs vals t : vs <> [] -> Forall2 (reads d) vs vals ->
  (2 * length (enc_elems vs ++ ch 93 :: t) + 1 < n)%nat -> p_elems n d (enc_elems vs ++ ch 93 :: t) = Some (elems_of vals, t).
Proof.
  intros Hne HF. revert n Hne. induction HF as [|x v vs vals Hx HF IH]; intros n Hne Hn; [done|]. destruct n as [|n]; [lia|].
  destruct vs as [|y vs]; cbn [p_elems].
  - inversion HF; subst. cbn [enc_elems] in *. destruct Hx as [_ Hx]. rewrite (Hx n (ch 93 :: t)); [done|done|lia].
  - assert (enc_elems (x :: y :: vs) = x ++ ch 44 :: enc_elems (y :: vs)) as E by done. rewrite E, <- app_assoc in *. cbn [app] in *.
    destruct Hx as [(b & r & -> & _) Hx]. rewrite (Hx n); [|done|lia].
    change (skip_ws (ch 44 :: ?r)) with (ch 44 :: r). cbv iota. rewrite isc_ch by lia. simpl Z.eqb. cbv iota.
    assert (skip_ws (enc_elems (y :: vs) ++ ch 93 :: t) = enc_elems (y :: vs) ++ ch 93 :: t) as ->.
    { destruct (enc_elems_head d (y :: vs) vals) as (b' & r' & -> & Hb' & _); [done|done|]. cbn. by rewrite Hb'. }
    rewrite IH; [done|done|]. rewrite length_app in Hn. cbn [length] in *. lia.
Qed.

(** An array is read to its bracket, whatever follows. *)
Lemma p_value_array n d vs vals t : d < maxNestingDepth -> Forall2 (reads (d + 1)) vs vals ->
  (2 * length (enc_array vs ++ t) < n)%nat -> p_value n d (enc_array vs ++ t) = Some (JArr (elems_of vals), t).
Proof.
  intros Hd HF Hn. destruct n as [|n]; [lia|]. unfold enc_array in *. cbn [app p_value].
  rewrite !isc_ch by lia. simpl Z.eqb. cbv iota. rewrite (proj2 (Z.ltb_ge _ _)) by lia. rewrite <- app_assoc in *. cbn [app] in *.
  destruct (decide (vs = [])) as [->|Hne]; [by inversion HF; subst|].
  destruct (enc_elems_head _ vs vals Hne HF) as (b & r & E & Hb & Hc).
  pose proof (p_elems_array n _ vs vals t Hne HF) as HP. rewrite E in *. cbn [app skip_ws] in *. rewrite Hb, Hc.
  rewrite HP; [done|]. repeat (rewrite ?length_app in *; cbn [length] in *). lia.
Qed.
End JsonMap.
