(* ===== verification/GoTime.v ===== *)
(** * What the sources use of package time

    A [time.Time] is the number of nanoseconds since the zero time, 1 January of
    year 1 in UTC, as an integer: [Add], [Before] and [IsZero] are arithmetic.
    The envelopes carry times as RFC 3339 text with nanoseconds, so [Format] and
    [Parse] for that layout are modelled on bytes, with both of [Parse]'s paths:
    the strict one and the general layout parser it falls back to. *)

From S2P Require Import Prelude GoLib GoJson.
Import Json.
Open Scope Z_scope.

Module Time.

Definition second : Z := 1000000000.
Definition millisecond : Z := 1000000.
Definition day_ns : Z := 86400 * second.

Definition IsZero (t : Z) : bool := t =? 0.
Definition Before (t u : Z) : bool := t <? u.

(** Nanoseconds of the Unix epoch. *)
Definition unix_epoch : Z := 719162 * day_ns.
Definition UnixNano (t : Z) : Z := i64 (t - unix_epoch).

(** [Duration.Milliseconds], truncated towards zero. *)
Definition Milliseconds (d : Z) : Z := Z.quot d millisecond.

(** ** The calendar *)

Definition is_leap (y : Z) : bool := (y mod 4 =? 0) && (negb (y mod 100 =? 0) || (y mod 400 =? 0)).

Definition month_lens (leap : bool) : list Z :=
  [31; if leap then 29 else 28; 31; 30; 31; 30; 31; 31; 30; 31; 30; 31].

Definition daysIn (m y : Z) : Z := nth (Z.to_nat (m - 1)) (month_lens (is_leap y)) 0.

(** Days from the zero time to the first of January of year [y]. *)
Definition days_before_year (y : Z) : Z :=
  let n := y - 1 in 365 * n + n / 4 - n / 100 + n / 400.

Definition days_of_civil (y m d : Z) : Z :=
  days_before_year y + fold_right Z.add 0 (take (Z.to_nat (m - 1)) (month_lens (is_leap y))) + (d - 1).

(** The year and the day of the year of a day. *)
Definition year_of_days (n : Z) : Z * Z :=
  let n400 := n / 146097 in
  let d := n - 146097 * n400 in
  let n100 := d / 36524 in
  let n100 := n100 - n100 / 4 in
  let d := d - 36524 * n100 in
  let n4 := d / 1461 in
  let d := d - 1461 * n4 in
  let n1 := d / 365 in
  let n1 := n1 - n1 / 4 in
  (400 * n400 + 100 * n100 + 4 * n4 + n1 + 1, d - 365 * n1).

Fixpoint split_yday (lens : list Z) (m d : Z) : Z * Z :=
  match lens with
  | [] => (m, d + 1)
  | l :: lens => if d <? l then (m, d + 1) else split_yday lens (m + 1) (d - l)
  end.

Definition civil_of_days (n : Z) : Z * Z * Z :=
  let (y, yd) := year_of_days n in
  let (m, d) := split_yday (month_lens (is_leap y)) 1 yd in
  (y, m, d).

Definition date (y m d hour min sec nsec : Z) : Z :=
  days_of_civil y m d * day_ns + (hour * 3600 + min * 60 + sec) * second + nsec.

(** ** [Format(time.RFC3339Nano)] in UTC *)

(** [appendInt]: at least [w] digits. *)
Definition append_int (x : Z) (w : nat) : bytes :=
  let ds := format_nat (Z.abs x) in
  (if x <? 0 then [ch 45] else []) ++ replicate (w - length ds) (ch 48) ++ ds.

Fixpoint trim_zeros (rev_ds : bytes) : bytes :=
  match rev_ds with
  | b :: r => if isc 48 b then trim_zeros r else rev_ds
  | [] => []
  end.

(** [appendNano] for the layout's [.999999999]. *)
Definition append_nano (nsec : Z) : bytes :=
  match trim_zeros (rev (append_int nsec 9)) with
  | [] => []
  | ds => ch 46 :: rev ds
  end.

Definition Format (t : Z) : bytes :=
  let '(y, m, d) := civil_of_days (t / day_ns) in
  let sod := t mod day_ns / second in
  append_int y 4 ++ ch 45 :: append_int m 2 ++ ch 45 :: append_int d 2 ++ ch 84 ::
  append_int (sod / 3600) 2 ++ ch 58 :: append_int (sod / 60 mod 60) 2 ++ ch 58 ::
  append_int (sod mod 60) 2 ++ append_nano (t mod second) ++ [ch 90].

(** ** [Parse(time.RFC3339Nano, value)] *)

Definition parse_uint (s : bytes) (lo hi : Z) : option Z :=
  if forallb is_digit s then
    let x := digits_val s in if (lo <=? x) && (x <=? hi) then Some x else None
  else None.

Definition at_byte (s : bytes) (i : nat) (c : Z) : bool :=
  match s !! i with Some b => isc c b | None => false end.

Definition digit_at (s : bytes) (i : nat) : bool :=
  match s !! i with Some b => is_digit b | None => false end.

(** [parseNanoseconds] of a period or comma and [ds] digits: nine count. *)
Definition parse_nanoseconds (ds : bytes) : Z :=
  let ds := take 9 ds in digits_val ds * 10 ^ (9 - zlen ds).

(** The time zone at the end of the strict form: [Z] or [+hh:mm]. *)
Definition strict_zone (s : bytes) : option Z :=
  if (length s =? 1)%nat && at_byte s 0 90 then Some 0
  else if (length s =? 6)%nat then
    hr ← parse_uint (slice 1 3 s) 0 23;
    mm ← parse_uint (slice 4 6 s) 0 59;
    if (at_byte s 0 45 || at_byte s 0 43) && at_byte s 3 58 then
      let off := (hr * 60 + mm) * 60 in Some (if at_byte s 0 45 then - off else off)
    else None
  else None.

Definition parse_strict (s : bytes) : option Z :=
  if (length s <? 19)%nat then None
  else
    year ← parse_uint (slice 0 4 s) 0 9999;
    month ← parse_uint (slice 5 7 s) 1 12;
    day ← parse_uint (slice 8 10 s) 1 (daysIn month year);
    hour ← parse_uint (slice 11 13 s) 0 23;
    min ← parse_uint (slice 14 16 s) 0 59;
    sec ← parse_uint (slice 17 19 s) 0 59;
    if at_byte s 4 45 && at_byte s 7 45 && at_byte s 10 84 && at_byte s 13 58 && at_byte s 16 58 then
      let s := drop 19 s in
      let (nsec, s) :=
        if at_byte s 0 46 && digit_at s 1 then
          let (ds, r) := span_digits (drop 1 s) in (parse_nanoseconds ds, r)
        else (0, s) in
      off ← strict_zone s;
      Some (date year month day hour min sec nsec - off * second)
    else None.

(** The general layout parser's number: two digits, or one where that is allowed. *)
Definition getnum (s : bytes) (fixed : bool) : option (Z * bytes) :=
  match s with
  | a :: r =>
      if is_digit a then
        match r with
        | b :: r' => if is_digit b then Some (digits_val [a; b], r')
                     else if fixed then None else Some (digits_val [a], r)
        | [] => if fixed then None else Some (digits_val [a], r)
        end
      else None
  | [] => None
  end.

Definition skip_byte (c : Z) (s : bytes) : option bytes :=
  match s with b :: r => if isc c b then Some r else None | [] => None end.

Definition in_bounds (lo hi x : Z) : option unit := if (lo <=? x) && (x <=? hi) then Some tt else None.

Definition layout_zone (s : bytes) : option (Z * bytes) :=
  if at_byte s 0 90 then Some (0, drop 1 s)
  else if (length s <? 6)%nat || negb (at_byte s 3 58) then None
  else
    '(hr, _) ← getnum (slice 1 3 s) true;
    '(mm, _) ← getnum (slice 4 6 s) true;
    _ ← in_bounds 0 24 hr;
    _ ← in_bounds 0 60 mm;
    let off := (hr * 60 + mm) * 60 in
    if at_byte s 0 43 then Some (off, drop 6 s)
    else if at_byte s 0 45 then Some (- off, drop 6 s)
    else None.

Definition parse_layout (s : bytes) : option Z :=
  if (length s <? 4)%nat || negb (forallb is_digit (take 4 s)) then None
  else
    let year := digits_val (take 4 s) in
    s ← skip_byte 45 (drop 4 s);
    '(month, s) ← getnum s true;
    _ ← in_bounds 1 12 month;
    s ← skip_byte 45 s;
    '(day, s) ← getnum s true;
    s ← skip_byte 84 s;
    '(hour, s) ← getnum s false;
    _ ← in_bounds 0 23 hour;
    s ← skip_byte 58 s;
    '(min, s) ← getnum s true;
    _ ← in_bounds 0 59 min;
    s ← skip_byte 58 s;
    '(sec, s) ← getnum s true;
    _ ← in_bounds 0 59 sec;
    let (nsec, s) :=
      if (at_byte s 0 46 || at_byte s 0 44) && digit_at s 1 then
        let (ds, r) := span_digits (drop 1 s) in (parse_nanoseconds ds, r)
      else (0, s) in
    '(off, s) ← layout_zone s;
    _ ← in_bounds 1 (daysIn month year) day;
    if decide (s = []) then Some (date year month day hour min sec nsec - off * second) else None.

Definition Parse (value : bytes) : option Z :=
  match parse_strict value with
  | Some t => Some t
  | None => parse_layout value
  end.

(** ** The calendar is a bijection on days *)

(** A day is [a] cycles of 400 years, [b] centuries, [c] cycles of four years and
    [e] years, and what is left; only the last year of a cycle has a day 366. *)
Definition year_parts (n a b c e r : Z) : Prop :=
  n = 146097 * a + 36524 * b + 1461 * c + 365 * e + r /\
  0 <= b <= 3 /\ 0 <= c <= 24 /\ 0 <= e <= 3 /\ 0 <= r <= 365 /\
  (r = 365 -> e = 3 /\ (c = 24 -> b = 3)).

Lemma year_of_days_parts n : exists a b c e r,
  year_of_days n = (400 * a + 100 * b + 4 * c + e + 1, r) /\ year_parts n a b c e r.
Proof.
  unfold year_of_days. cbv zeta.
  remember (n / 146097) as a eqn:Ea. remember (n - 146097 * a) as d1 eqn:E1.
  assert (0 <= d1 < 146097) as H1 by divmod.
  remember (d1 / 36524 - d1 / 36524 / 4) as b eqn:Eb. remember (d1 - 36524 * b) as d2 eqn:E2.
  assert (0 <= b <= 3 /\ 0 <= d2 <= 36524 /\ (d2 = 36524 -> b = 3)) as (Hb & Hd2 & Hb3).
  { clear Ea E1. split_and!; divmod. }
  remember (d2 / 1461) as c eqn:Ec. remember (d2 - 1461 * c) as d3 eqn:E3.
  assert (0 <= c <= 24 /\ 0 <= d3 <= 1460 /\ (b < 3 -> c = 24 -> d3 <= 1459)) as (Hc & Hd3 & Hc24).
  { clear Ea E1 Eb E2. split_and!; divmod. }
  remember (d3 / 365 - d3 / 365 / 4) as e eqn:Ee.
  assert (0 <= e <= 3 /\ 0 <= d3 - 365 * e <= 365 /\ (d3 - 365 * e = 365 -> e = 3)) as (He & Hd4 & He3).
  { clear Ea E1 Eb E2 Ec E3. split_and!; divmod. }
  exists a, b, c, e, (d3 - 365 * e). split; [done|]. unfold year_parts.
  clear Ea Eb Ec Ee. split_and!; lia.
Qed.

Lemma year_of_parts a b c e :
  0 <= b <= 3 -> 0 <= c <= 24 -> 0 <= e <= 3 ->
  let y := 400 * a + 100 * b + 4 * c + e + 1 in
  days_before_year y = 146097 * a + 36524 * b + 1461 * c + 365 * e /\
  (is_leap y = true <-> e = 3 /\ (c = 24 -> b = 3)).
Proof.
  intros Hb Hc He y. subst y. split.
  - unfold days_before_year.
    replace (400 * a + 100 * b + 4 * c + e + 1 - 1) with (400 * a + 100 * b + 4 * c + e) by lia. cbv zeta.
    assert ((400 * a + 100 * b + 4 * c + e) / 4 = 100 * a + 25 * b + c) as -> by divmod.
    assert ((400 * a + 100 * b + 4 * c + e) / 100 = 4 * a + b) as -> by divmod.
    assert ((400 * a + 100 * b + 4 * c + e) / 400 = a) as -> by divmod. lia.
  - unfold is_leap. rewrite andb_true_iff, orb_true_iff, negb_true_iff, !Z.eqb_eq, Z.eqb_neq.
    assert ((400 * a + 100 * b + 4 * c + e + 1) mod 4 = 0 <-> e = 3) as -> by divmod.
    assert ((400 * a + 100 * b + 4 * c + e + 1) mod 100 = 0 <-> (e = 3 /\ c = 24)) as -> by divmod.
    assert ((400 * a + 100 * b + 4 * c + e + 1) mod 400 = 0 <-> (e = 3 /\ c = 24 /\ b = 3)) as -> by divmod.
    lia.
Qed.

Lemma year_of_days_spec n y yd :
  year_of_days n = (y, yd) ->
  days_before_year y + yd = n /\ 0 <= yd < (if is_leap y then 366 else 365).
Proof.
  intros H. destruct (year_of_days_parts n) as (a & b & c & e & r & E & Hp & Hb & Hc & He & Hr & H365).
  rewrite H in E. injection E as -> ->. destruct (year_of_parts a b c e Hb Hc He) as [Hd Hl].
  rewrite Hd. split; [lia|]. destruct (is_leap _); [lia|].
  destruct (decide (r = 365)) as [E|]; [|lia]. apply H365, Hl in E. done.
Qed.

Lemma split_yday_spec lens m0 d m day :
  0 <= d < fold_right Z.add 0 lens -> split_yday lens m0 d = (m, day) ->
  exists k, m = m0 + Z.of_nat k /\ (k < length lens)%nat /\
    fold_right Z.add 0 (take k lens) + (day - 1) = d /\ 1 <= day <= nth k lens 0.
Proof.
  revert m0 d. induction lens as [|l lens IH]; intros m0 d Hd H; simpl in *; [lia|].
  destruct (d <? l) eqn:E; go_bool.
  - simplify_eq. exists 0%nat. simpl. split_and!; lia.
  - apply IH in H as (k & -> & Hk & Hs & Hn); [|lia]. exists (S k). simpl. split_and!; lia.
Qed.

Lemma civil_roundtrip n y m d :
  civil_of_days n = (y, m, d) ->
  days_of_civil y m d = n /\ 1 <= m <= 12 /\ 1 <= d <= daysIn m y /\
  days_before_year y <= n < days_before_year y + 366.
Proof.
  unfold civil_of_days. destruct (year_of_days n) as [y' yd] eqn:E.
  apply year_of_days_spec in E as [Hy Hyd].
  destruct (split_yday (month_lens (is_leap y')) 1 yd) as [m' d'] eqn:E. intros. simplify_eq.
  apply split_yday_spec in E as (k & -> & Hk & Hs & Hd); [|by destruct (is_leap y)].
  unfold days_of_civil, daysIn. replace (Z.to_nat (1 + Z.of_nat k - 1)) with k by lia.
  assert (length (month_lens (is_leap y)) = 12%nat) as HL by done. rewrite HL in Hk.
  destruct (is_leap y); split_and!; lia.
Qed.

(** ** Digits *)

Lemma digits_val_app a b : digits_val (a ++ b) = digits_val a * 10 ^ zlen b + digits_val b.
Proof.
  induction b as [|c b IH] using rev_ind; [rewrite app_nil_r; unfold digits_val; simpl; lia|].
  rewrite app_assoc, !digits_val_snoc, IH, length_app. simpl.
  rewrite Nat2Z.inj_add, Z.pow_add_r by lia. lia.
Qed.

Lemma digits_val_bound ds : forallb is_digit ds = true -> 0 <= digits_val ds < 10 ^ zlen ds.
Proof.
  induction ds as [|c ds IH] using rev_ind; intros H; [done|].
  rewrite forallb_app in H. apply andb_prop in H as [H Hc]. simpl in Hc. rewrite andb_true_r in Hc.
  unfold is_digit, in_range in Hc. go_bool. specialize (IH H).
  rewrite digits_val_snoc, length_app, Nat2Z.inj_add, Z.pow_add_r by lia. simpl. lia.
Qed.

Lemma digits_val_zeros k ds : digits_val (replicate k (ch 48) ++ ds) = digits_val ds.
Proof.
  induction k as [|k IH]; [done|]. cbn [replicate app].
  rewrite <- IH. change (ch 48 :: ?r) with ([ch 48] ++ r). by rewrite digits_val_app.
Qed.

Lemma canonical_length ds n w : canonical ds n -> n < 10 ^ Z.of_nat w -> (1 <= w)%nat -> (length ds <= w)%nat.
Proof.
  intros (Hf & Hv & Hc) Hn Hw. destruct Hc as [[_ ->]|[_ (b & r & -> & Hb)]]; [done|].
  destruct (decide (length (b :: r) <= w)%nat) as [|Hgt]; [done|exfalso].
  change (b :: r) with ([b] ++ r) in *. rewrite digits_val_app in Hv.
  rewrite forallb_app in Hf. apply andb_prop in Hf as [_ Hf]. apply digits_val_bound in Hf.
  assert (10 ^ Z.of_nat w <= 10 ^ zlen r) by (apply Z.pow_le_mono_r; simpl in Hgt; lia).
  assert (1 <= digits_val [b]). { unfold digits_val, in_range in *. simpl. go_bool. lia. }
  nia.
Qed.

Lemma append_int_spec x w :
  0 <= x < 10 ^ Z.of_nat w -> (1 <= w)%nat ->
  length (append_int x w) = w /\ forallb is_digit (append_int x w) = true /\
  digits_val (append_int x w) = x.
Proof.
  intros Hx Hw. unfold append_int. rewrite (proj2 (Z.ltb_ge _ _)), Z.abs_eq by lia. cbn [app].
  pose proof (format_nat_canonical x ltac:(lia)) as Hc.
  pose proof (canonical_length _ _ w Hc ltac:(lia) Hw) as HL. destruct Hc as (Hf & Hv & _).
  rewrite length_app, length_replicate, digits_val_zeros. split_and!; [lia| |done].
  rewrite forallb_app, Hf, andb_true_r. induction (w - _)%nat as [|k IH]; [done|]. cbn [replicate forallb].
  by rewrite IH.
Qed.

Lemma trim_zeros_spec ds : exists k, ds = replicate k (ch 48) ++ trim_zeros ds.
Proof.
  induction ds as [|b ds [k IH]]; [by exists 0%nat|]. simpl. destruct (isc 48 b) eqn:E; [|by exists 0%nat].
  exists (S k). simpl. rewrite <- IH. f_equal. unfold isc in E. go_bool. rewrite <- E. symmetry. apply byte_of_val.
Qed.

Lemma rev_replicate k (b : byte) : rev (replicate k b) = replicate k b.
Proof.
  induction k as [|k IH]; [done|]. cbn [replicate rev]. rewrite IH.
  change [b] with (replicate 1 b). rewrite <- replicate_add. by rewrite Nat.add_1_r.
Qed.

(** The fraction: nothing, or a period and at most nine digits worth [nsec]. *)
Lemma append_nano_spec nsec :
  0 <= nsec < second ->
  (append_nano nsec = [] /\ nsec = 0) \/
  exists ds, append_nano nsec = ch 46 :: ds /\ ds <> [] /\ forallb is_digit ds = true /\
    parse_nanoseconds ds = nsec.
Proof.
  intros Hn. unfold append_nano. destruct (append_int_spec nsec 9) as (HL & Hf & Hv); [done|lia|].
  destruct (trim_zeros_spec (rev (append_int nsec 9))) as [k Hk].
  destruct (trim_zeros (rev (append_int nsec 9))) as [|b r] eqn:E.
  - left. split; [done|]. rewrite app_nil_r in Hk. apply (f_equal (@rev _)) in Hk.
    rewrite rev_involutive, rev_replicate in Hk. rewrite <- Hv, Hk.
    rewrite <- (app_nil_r (replicate k _)), digits_val_zeros. done.
  - right. exists (rev (b :: r)). apply (f_equal (@rev _)) in Hk.
    rewrite rev_involutive, rev_app_distr, rev_replicate in Hk.
    set (ds := rev (b :: r)) in *. rewrite Hk in HL, Hf, Hv.
    rewrite length_app, length_replicate in HL. rewrite forallb_app in Hf. apply andb_prop in Hf as [Hf _].
    split_and!; [done| |done|].
    + subst ds. simpl. by destruct (rev r).
    + unfold parse_nanoseconds. rewrite take_ge by lia. rewrite <- Hv, digits_val_app, length_replicate.
      rewrite <- (app_nil_r (replicate k _)), digits_val_zeros.
      replace (9 - zlen ds) with (Z.of_nat k) by lia. change (digits_val []) with 0. lia.
Qed.

(** ** Parsing what was formatted *)

(** The times of the years 1 to 9999, whose year has four digits. *)
Definition in_calendar (t : Z) : Prop := 0 <= t < days_before_year 10000 * day_ns.

Lemma days_before_year_mono x y : x <= y -> days_before_year x <= days_before_year y.
Proof. intros. unfold days_before_year. cbv zeta. divmod. Qed.

Lemma four_digits l : length l = 4%nat -> exists a b c d : byte, l = [a; b; c; d].
Proof. destruct l as [|a [|b [|c [|d [|e l]]]]]; try done. eauto. Qed.

Lemma two_digits l : length l = 2%nat -> exists a b : byte, l = [a; b].
Proof. destruct l as [|a [|b [|c l]]]; try done. eauto. Qed.

Lemma parse_uint_ok s x lo hi :
  forallb is_digit s = true -> digits_val s = x -> lo <= x <= hi -> parse_uint s lo hi = Some x.
Proof.
  intros Hf Hv Hx. unfold parse_uint. rewrite Hf, Hv. by rewrite (proj2 (andb_true_iff _ _)) by lia.
Qed.

Lemma span_digits_Z ds : forallb is_digit ds = true -> span_digits (ds ++ [ch 90]) = (ds, [ch 90]).
Proof. intros. by apply span_digits_all. Qed.

Lemma sod_fields t : let sod := t mod day_ns / second in
  0 <= sod / 3600 <= 23 /\ 0 <= sod / 60 mod 60 <= 59 /\ 0 <= sod mod 60 <= 59 /\ 0 <= t mod second < second /\
  t / day_ns * day_ns + (sod / 3600 * 3600 + sod / 60 mod 60 * 60 + sod mod 60) * second + t mod second = t.
Proof.
  cbv zeta. unfold day_ns, second. set (q := t / (86400 * 1000000000)).
  remember (t mod (86400 * 1000000000)) as r eqn:Er.
  assert (t = q * 86400000000000 + r /\ 0 <= r < 86400000000000) as [Et Hr] by (subst q r; divmod).
  assert (t mod 1000000000 = r mod 1000000000) as -> by (clear Er; clearbody q; divmod).
  clearbody q. clear Er. remember (r / 1000000000) as sod eqn:Es.
  assert (0 <= sod < 86400 /\ r = sod * 1000000000 + r mod 1000000000) as [Hs Hr2] by divmod.
  assert (sod / 3600 * 3600 + sod / 60 mod 60 * 60 + sod mod 60 = sod) as -> by (clear - Hs; divmod).
  split_and!; try (clear - Hs; divmod); try (clear - Hr; divmod). lia.
Qed.

Lemma daysIn_le m y : daysIn m y <= 31.
Proof.
  unfold daysIn. generalize (Z.to_nat (m - 1)). intros k.
  destruct (is_leap y); do 12 (destruct k as [|k]; [simpl; lia|]); destruct k; simpl; lia.
Qed.

Lemma parse_strict_format t : in_calendar t -> parse_strict (Format t) = Some t.
Proof.
  intros [H0 H1]. unfold Format. destruct (civil_of_days (t / day_ns)) as [[y m] d] eqn:Ec.
  apply civil_roundtrip in Ec as (Hcd & Hm & Hd & Hy).
  assert (0 <= t / day_ns < days_before_year 10000) as Hn by (unfold day_ns, second in *; divmod).
  assert (0 <= y <= 9999) as Hyr.
  { split.
    - destruct (decide (0 <= y)) as [|Hneg]; [done|]. pose proof (days_before_year_mono y (-1) ltac:(lia)).
      change (days_before_year (-1)) with (-731) in *. lia.
    - destruct (decide (y <= 9999)) as [|Hgt]; [done|].
      pose proof (days_before_year_mono 10000 y ltac:(lia)). lia. }
  pose proof (daysIn_le m y) as HdI. destruct (sod_fields t) as (S1 & S2 & S3 & S4 & Et).
  set (sod := t mod day_ns / second) in *.
  destruct (append_int_spec y 4) as (LY & FY & VY); [lia..|].
  destruct (append_int_spec m 2) as (LM & FM & VM); [lia..|].
  destruct (append_int_spec d 2) as (LD & FD & VD); [lia..|].
  destruct (append_int_spec (sod / 3600) 2) as (LH & FH & VH); [lia..|].
  destruct (append_int_spec (sod / 60 mod 60) 2) as (LI & FI & VI); [lia..|].
  destruct (append_int_spec (sod mod 60) 2) as (LS & FS & VS); [lia..|].
  apply four_digits in LY as (y1 & y2 & y3 & y4 & EY). apply two_digits in LM as (m1 & m2 & EM).
  apply two_digits in LD as (d1 & d2 & ED). apply two_digits in LH as (h1 & h2 & EH).
  apply two_digits in LI as (i1 & i2 & EI). apply two_digits in LS as (s1 & s2 & ES).
  rewrite EY, EM, ED, EH, EI, ES in *. cbn [app].
  unfold parse_strict. cbn [length Nat.ltb Nat.leb]. unfold slice. cbn [Nat.sub take drop].
  rewrite (parse_uint_ok [y1; y2; y3; y4] y) by (done || lia). cbn [mbind option_bind].
  rewrite (parse_uint_ok [m1; m2] m) by (done || lia). cbn [mbind option_bind].
  rewrite (parse_uint_ok [d1; d2] d) by (done || lia). cbn [mbind option_bind].
  rewrite (parse_uint_ok [h1; h2] (sod / 3600)) by (done || lia). cbn [mbind option_bind].
  rewrite (parse_uint_ok [i1; i2] (sod / 60 mod 60)) by (done || lia). cbn [mbind option_bind].
  rewrite (parse_uint_ok [s1; s2] (sod mod 60)) by (done || lia). cbn [mbind option_bind].
  unfold at_byte at 1 2 3 4 5. cbn [lookup list_lookup]. rewrite !isc_ch by lia. simpl Z.eqb. cbn [andb].
  assert (date y m d (sod / 3600) (sod / 60 mod 60) (sod mod 60) (t mod second) = t) as HD.
  { unfold date. rewrite Hcd. lia. }
  destruct (append_nano_spec (t mod second)) as [[-> Hz]|(ds & -> & Hne & Hds & Hns)]; [done|..].
  - cbn [app]. rewrite Hz in HD. unfold strict_zone. simpl. f_equal. lia.
  - cbn [app drop]. rewrite ?drop_0, span_digits_Z, Hns by done.
    destruct ds as [|b r]; [done|]. unfold at_byte at 1, digit_at. cbn [lookup list_lookup app].
    rewrite isc_ch by lia. simpl Z.eqb. cbn [forallb] in Hds. apply andb_prop in Hds as [Hb _].
    rewrite Hb. cbn [andb]. unfold strict_zone. simpl. f_equal. lia.
Qed.

Lemma Parse_Format t : in_calendar t -> Parse (Format t) = Some t.
Proof. intros H. unfold Parse. by rewrite parse_strict_format. Qed.

(** The text is ASCII, so it passes through JSON unchanged. *)
Lemma ascii_valid s : Forall (fun b => byte_val b < 128) s -> to_valid_utf8 s = s.
Proof.
  unfold to_valid_utf8. induction 1 as [|b s Hb HF IH]; [done|].
  cbn [length]. rewrite valid_loop_S by done. unfold valid_step, decode_rune.
  rewrite (proj2 (Z.ltb_lt _ _)) by done. pose proof (byte_val_range b).
  rewrite encode_rune_1 by lia. cbn [fst snd app drop]. rewrite drop_0, IH. f_equal.
  by apply ch_byte_val.
Qed.

Lemma digits_ascii ds : forallb is_digit ds = true -> Forall (fun b => byte_val b < 128) ds.
Proof.
  rewrite forallb_forall. intros H. apply List.Forall_forall. intros b Hb. specialize (H b Hb).
  unfold is_digit, in_range in H. go_bool. lia.
Qed.

Lemma append_int_ascii x w : Forall (fun b => byte_val b < 128) (append_int x w).
Proof.
  unfold append_int. rewrite !Forall_app. split_and!.
  - destruct (x <? 0); repeat constructor.
  - apply Forall_replicate. done.
  - apply digits_ascii. by destruct (format_nat_canonical (Z.abs x) ltac:(lia)).
Qed.

Lemma append_nano_ascii x : Forall (fun b => byte_val b < 128) (append_nano x).
Proof.
  unfold append_nano. destruct (trim_zeros_spec (rev (append_int x 9))) as [k Hk].
  destruct (trim_zeros (rev (append_int x 9))) as [|b r]; [constructor|]. constructor; [done|].
  apply Forall_rev. pose proof (append_int_ascii x 9) as HA. apply Forall_rev in HA. rewrite Hk in HA.
  by apply Forall_app in HA as [_ HA].
Qed.

Lemma Format_ascii t : Forall (fun b => byte_val b < 128) (Format t).
Proof.
  unfold Format. destruct (civil_of_days (t / day_ns)) as [[y m] d].
  repeat (apply Forall_app; split; [apply append_int_ascii|]; apply List.Forall_cons; [done|]).
  rewrite !Forall_app. split_and!; [apply append_int_ascii|apply append_nano_ascii|by repeat constructor].
Qed.

Lemma Format_utf8 t : utf8_ok (str_of (Format t)).
Proof. unfold utf8_ok. rewrite bs_of_str. apply ascii_valid, Format_ascii. Qed.

End Time.
