(* ===== verification/GoFmt.v ===== *)
(** * Printing (Go's fmt, time and encoding/json)

    The verbs the command line prints with, on bytes: widths of [%-14s], [%2d] and [%-6d]
    counted in runes, the decimals of [%.1f], the layouts [time.RFC3339] and [15:04:05.000], and [json.Indent].
    Indenting adds white space between tokens and nothing else. *)

From S2P Require Import Prelude GoLib GoFloat GoJson GoTime.
Import Json.

Module Fmt.
Local Open Scope Z_scope.

(** ** Widths *)

Fixpoint runes (fuel : nat) (s : bytes) : nat :=
  match fuel, s with
  | _, [] => 0
  | O, _ => 0
  | S fuel, _ => S (runes fuel (drop (decode_rune s).2 s))
  end.

Definition rune_count (s : bytes) : nat := runes (length s) s.

Definition pad_right (width : nat) (s : bytes) : bytes := s ++ replicate (width - rune_count s) (ch 32).
Definition pad_left (width : nat) (s : bytes) : bytes := replicate (width - rune_count s) (ch 32) ++ s.

(** ** Decimals *)

(** [%.1f] and [%.2f]: the exact value of the float64 to [prec] decimals, ties to even. *)
Definition fixed (prec : nat) (x : Float.float64) : bytes :=
  match x with
  | Float.NaN => bs_of "NaN"
  | Float.PosInf => bs_of "+Inf"
  | Float.NegInf => bs_of "-Inf"
  | Float.Fin u =>
      let n := Float.round_half_even (Z.abs u * 10 ^ Z.of_nat prec) Float.one_units in
      (if u <? 0 then [ch 45] else []) ++ format_nat (n / 10 ^ Z.of_nat prec) ++
      ch 46 :: Time.append_int (n mod 10 ^ Z.of_nat prec) prec
  end.

(** ** Times; [off] is the zone's offset from UTC in seconds *)

Definition date_time (t : Z) : bytes :=
  let '(y, m, d) := Time.civil_of_days (t / Time.day_ns) in
  let sod := t mod Time.day_ns / Time.second in
  Time.append_int y 4 ++ ch 45 :: Time.append_int m 2 ++ ch 45 :: Time.append_int d 2 ++ ch 84 ::
  Time.append_int (sod / 3600) 2 ++ ch 58 :: Time.append_int (sod / 60 mod 60) 2 ++ ch 58 :: Time.append_int (sod mod 60) 2.

Definition zone (off : Z) : bytes :=
  let m := Z.quot off 60 in
  if m =? 0 then [ch 90]
  else (if m <? 0 then ch 45 else ch 43) :: Time.append_int (Z.abs m / 60) 2 ++ ch 58 :: Time.append_int (Z.abs m mod 60) 2.

Definition RFC3339 (off t : Z) : bytes := date_time (t + off * Time.second) ++ zone off.
Definition RFC3339Nano (off t : Z) : bytes := date_time (t + off * Time.second) ++ Time.append_nano (t mod Time.second) ++ zone off.

(** [t.UTC().Format("15:04:05.000")]. *)
Definition clock_ms (t : Z) : bytes :=
  let sod := t mod Time.day_ns / Time.second in
  Time.append_int (sod / 3600) 2 ++ ch 58 :: Time.append_int (sod / 60 mod 60) 2 ++ ch 58 :: Time.append_int (sod mod 60) 2 ++
  ch 46 :: Time.append_int (t mod Time.second / Time.millisecond) 3.

(** In UTC the nanosecond layout is the one events carry. *)
Lemma rfc3339_utc t : RFC3339Nano 0 t = Time.Format t.
Proof.
  unfold RFC3339Nano, Time.Format, date_time, zone. rewrite Z.mul_0_l, Z.add_0_r.
  destruct (Time.civil_of_days (t / Time.day_ns)) as [[y m] d]. cbn [Z.quot Z.eqb].
  by repeat progress (rewrite <- ?app_assoc; cbn [app]).
Qed.

(** ** [json.Indent] *)

Definition newline (prefix indent : bytes) (depth : nat) : bytes := ch 10 :: prefix ++ concat (replicate depth indent).

(** [need] says that an object or array was just opened, [started] that a token was seen;
    white space is dropped up to the end of the value and copied behind it. *)
Fixpoint indent_loop (prefix indent : bytes) (st : compact_state) (started need : bool) (depth : nat) (s : bytes) : bytes :=
  match s with
  | [] => []
  | c :: s =>
      match st with
      | InString | InEscape => c :: indent_loop prefix indent (compact_next st c) started need depth s
      | Outside =>
          if is_space c then
            if started && negb need && Nat.eqb depth 0 then c :: indent_loop prefix indent st started need depth s
            else indent_loop prefix indent st started need depth s
          else
            let closes := isc 125 c || isc 93 c in
            let open_first := need && negb closes in
            let depth1 := if open_first then S depth else depth in
            let lead := if open_first then newline prefix indent depth1 else [] in
            if isc 123 c || isc 91 c then lead ++ c :: indent_loop prefix indent st true true depth1 s
            else if isc 44 c then lead ++ c :: newline prefix indent depth1 ++ indent_loop prefix indent st true false depth1 s
            else if isc 58 c then lead ++ c :: ch 32 :: indent_loop prefix indent st true false depth1 s
            else if closes then
              if need then c :: indent_loop prefix indent st true false depth s
              else newline prefix indent (pred depth) ++ c :: indent_loop prefix indent st true false (pred depth) s
            else lead ++ c :: indent_loop prefix indent (compact_next st c) true false depth1 s
      end
  end.

Definition Indent (prefix indent src : bytes) : option bytes :=
  if valid src then Some (indent_loop prefix indent Outside false false 0 src) else None.

(** The text without the white space between its tokens. *)
Fixpoint strip (st : compact_state) (s : bytes) : bytes :=
  match s with
  | [] => []
  | c :: s =>
      match st with
      | Outside => if is_space c then strip st s else c :: strip (compact_next st c) s
      | _ => c :: strip (compact_next st c) s
      end
  end.

Definition blank (s : bytes) : Prop := forallb is_space s = true.

Lemma strip_blank s r : blank s -> strip Outside (s ++ r) = strip Outside r.
Proof. intros H. induction s as [|c s IH]; [done|]. cbn in *. apply andb_true_iff in H as [-> H]. by apply IH. Qed.

Lemma newline_blank prefix indent depth : blank prefix -> blank indent -> blank (newline prefix indent depth).
Proof.
  intros Hp Hi. unfold blank, newline in *. cbn. rewrite forallb_app, Hp. cbn. induction depth as [|d IH]; [done|]. cbn. by rewrite forallb_app, Hi.
Qed.

Lemma strip_token c r : is_space c = false -> isc 34 c = false -> strip Outside (c :: r) = c :: strip Outside r.
Proof. intros H1 H2. cbn. by rewrite H1, H2. Qed.

Lemma structural_not_quote c k : isc k c = true -> k <> 34 -> isc 34 c = false.
Proof. unfold isc. intros H Hk. apply Z.eqb_eq in H as ->. by apply Z.eqb_neq. Qed.

(** Indenting with white space keeps every token. *)
Lemma indent_strip prefix indent s : blank prefix -> blank indent -> forall st started need depth,
  strip st (indent_loop prefix indent st started need depth s) = strip st s.
Proof.
  intros Hp Hi. induction s as [|c s IH]; intros st started need depth; [done|]. cbn [indent_loop].
  destruct st; [|cbn; by rewrite IH..]. destruct (is_space c) eqn:Esp.
  { destruct (started && negb need && Nat.eqb depth 0); cbn [strip]; rewrite ?Esp; by rewrite IH. }
  set (open_first := need && negb (isc 125 c || isc 93 c)). set (depth1 := if open_first then S depth else depth).
  assert (forall r, strip Outside ((if open_first then newline prefix indent depth1 else []) ++ r) = strip Outside r) as Hlead
    by (intros r; destruct open_first; [by apply strip_blank, newline_blank|done]).
  assert (forall d r, strip Outside (newline prefix indent d ++ r) = strip Outside r) as Hnl by (intros; by apply strip_blank, newline_blank).
  destruct (isc 123 c || isc 91 c) eqn:E1.
  { rewrite Hlead. cbn [strip]. rewrite Esp. cbn [compact_next]. apply orb_true_iff in E1 as [E|E];
      rewrite (structural_not_quote c _ E ltac:(done)), IH; done. }
  destruct (isc 44 c) eqn:E2.
  { rewrite Hlead. cbn [strip]. rewrite Esp. cbn [compact_next]. rewrite (structural_not_quote c _ E2 ltac:(done)), Hnl, IH. done. }
  destruct (isc 58 c) eqn:E3.
  { rewrite Hlead. cbn [strip]. rewrite Esp. cbn [compact_next]. rewrite (structural_not_quote c _ E3 ltac:(done)).
    change (is_space (ch 32)) with true. cbv iota. by rewrite IH. }
  destruct (isc 125 c || isc 93 c) eqn:E4.
  { assert (isc 34 c = false) as Eq by (apply orb_true_iff in E4 as [E|E]; by eapply structural_not_quote).
    destruct need; [|rewrite Hnl]; rewrite !strip_token by done; by rewrite IH. }
  rewrite Hlead. cbn [strip]. rewrite Esp. by rewrite IH.
Qed.

Definition lines (ls : list string) : bytes := concat (map (fun l => bs_of l ++ [ch 10]) ls).

(** A nested value, its empty object kept closed. *)
Example indent_example :
  (fun b => b ++ [ch 10]) <$> Indent (bs_of "  ") (bs_of " ") (bs_of "[1, {}, [true]]") =
  Some (lines ["["; "   1,"; "   {},"; "   ["; "    true"; "   ]"; "  ]"]).
Proof. vm_compute. reflexivity. Qed.
End Fmt.
