(* ===== verification/GoUrl.v ===== *)
(** * Query strings (Go's net/url)

    What the sources use of [net/url] on bytes: [QueryEscape], [QueryUnescape], the parsing
    of a query ([URL.Query] drops what it cannot parse), [Values.Get] and [Values.Encode] of
    values with one entry per key.  Escaping and parsing round-trip for every byte. *)

From S2P Require Import Prelude GoLib GoJson.
Import Json.

Module Url.
Local Open Scope Z_scope.

(** Letters, digits and [-_.~] stand for themselves. *)
Definition unreserved (b : byte) : bool :=
  in_range 97 122 b || in_range 65 90 b || in_range 48 57 b || isc 45 b || isc 95 b || isc 46 b || isc 126 b.

Definition upper_hex (n : Z) : byte := if n <? 10 then ch (48 + n) else ch (55 + n).

Definition escape_byte (b : byte) : bytes :=
  if unreserved b then [b]
  else if isc 32 b then [ch 43]
  else [ch 37; upper_hex (byte_val b / 16); upper_hex (byte_val b mod 16)].

Definition QueryEscape (s : bytes) : bytes := concat (map escape_byte s).

Fixpoint unescape_loop (fuel : nat) (s : bytes) : option bytes :=
  match fuel, s with
  | _, [] => Some []
  | O, _ => None
  | S fuel, b :: r =>
      if isc 37 b then
        match r with
        | h :: l :: r =>
            x ← hex_val h; y ← hex_val l; t ← unescape_loop fuel r; Some (byte_of (x * 16 + y) :: t)
        | _ => None
        end
      else t ← unescape_loop fuel r; Some ((if isc 43 b then ch 32 else b) :: t)
  end.

Definition QueryUnescape (s : bytes) : option bytes := unescape_loop (length s) s.

(** [strings.Cut] at the first [c]; without one, all of it and nothing. *)
Fixpoint cut (c : Z) (s : bytes) : bytes * bytes :=
  match s with
  | [] => ([], [])
  | b :: r => if isc c b then ([], r) else let (x, y) := cut c r in (b :: x, y)
  end.

Fixpoint has (c : Z) (s : bytes) : bool := match s with [] => false | b :: r => isc c b || has c r end.

(** One setting of a query; [None] where it is dropped. *)
Definition parse_setting (part : bytes) : option (bytes * bytes) :=
  if has 59 part || bool_decide (part = []) then None
  else let (k, v) := cut 61 part in k ← QueryUnescape k; v ← QueryUnescape v; Some (k, v).

Fixpoint parse_query (fuel : nat) (q : bytes) : list (bytes * bytes) :=
  match fuel, q with
  | _, [] => []
  | O, _ => []
  | S fuel, _ =>
      let (part, rest) := cut 38 q in
      match parse_setting part with Some kv => [kv] | None => [] end ++ parse_query fuel rest
  end.

Definition ParseQuery (q : bytes) : list (bytes * bytes) := parse_query (length q) q.

(** [Values.Get]: the first value of the key, empty without one. *)
Fixpoint Get (key : string) (vs : list (bytes * bytes)) : string :=
  match vs with
  | [] => ""
  | (k, v) :: vs => if decide (k = bs_of key) then str_of v else Get key vs
  end.

(** [Values.Encode] of settings in the order of their keys. *)
Fixpoint Encode (vs : list (string * string)) : bytes :=
  match vs with
  | [] => []
  | [(k, v)] => QueryEscape (bs_of k) ++ [ch 61] ++ QueryEscape (bs_of v)
  | (k, v) :: vs => QueryEscape (bs_of k) ++ [ch 61] ++ QueryEscape (bs_of v) ++ [ch 38] ++ Encode vs
  end.

(** The query of a URL: behind the question mark, up to a fragment. *)
Definition url_query (url : bytes) : bytes := (cut 63 (cut 35 url).1).2.

(** ** Escaping round-trips *)

Lemma has_app c a b : has c (a ++ b) = has c a || has c b.
Proof. induction a as [|x a IH]; [done|]. cbn. by rewrite IH, orb_assoc. Qed.

Lemma cut_at c a r : has c a = false -> 0 <= c < 256 -> cut c (a ++ ch c :: r) = (a, r).
Proof.
  intros Ha Hc. induction a as [|x a IH]; cbn [app cut].
  - by rewrite isc_ch, Z.eqb_refl by done.
  - cbn in Ha. apply orb_false_iff in Ha as [Hx Ha]. by rewrite Hx, IH.
Qed.

Lemma cut_none c a : has c a = false -> cut c a = (a, []).
Proof.
  induction a as [|x a IH]; [done|]. cbn. intros [Hx Ha]%orb_false_iff. by rewrite Hx, IH.
Qed.

(** Escaped text holds none of the characters that structure a URL. *)
Lemma escape_plain c s : In c [35; 38; 59; 61; 63] -> has c (QueryEscape s) = false.
Proof.
  intros Hc. unfold QueryEscape. induction s as [|b s IH]; [done|]. cbn [map concat]. rewrite has_app, IH, orb_false_r. clear IH.
  destruct Hc as [<-|[<-|[<-|[<-|[<-|[]]]]]]; destruct b; reflexivity.
Qed.

Lemma unescape_fuel n s : (length s <= n)%nat -> unescape_loop n s = unescape_loop (length s) s.
Proof.
  revert s. induction n as [n IH] using lt_wf_ind. intros s Hn. destruct s as [|b r]; [by destruct n|].
  destruct n as [|n]; [cbn in Hn; lia|]. cbn [length] in *. cbn [unescape_loop]. destruct (isc 37 b).
  - destruct r as [|h [|l r]]; [done..|]. cbn [length] in *. rewrite (IH n), (IH (S (S (length r)))) by lia. done.
  - by rewrite (IH n) by lia.
Qed.

Lemma unescape_step b r : unescape_loop (length (escape_byte b ++ r)) (escape_byte b ++ r) = t ← unescape_loop (length r) r; Some (b :: t).
Proof.
  rewrite length_app. rewrite <- (unescape_fuel (length (escape_byte b) + length r - 1) r) by (destruct b; cbn; lia).
  destruct b; cbn; rewrite ?Nat.sub_0_r; reflexivity.
Qed.

Theorem query_escape_roundtrip s : QueryUnescape (QueryEscape s) = Some s.
Proof.
  unfold QueryUnescape, QueryEscape. induction s as [|b s IH]; [done|]. cbn [map concat]. by rewrite unescape_step, IH.
Qed.

Lemma parse_setting_escaped k v :
  parse_setting (QueryEscape k ++ [ch 61] ++ QueryEscape v) = Some (k, v).
Proof.
  unfold parse_setting. rewrite !has_app, !escape_plain by (cbn; tauto). cbn [has]. rewrite isc_ch by lia. cbn [Z.eqb Pos.eqb orb].
  rewrite bool_decide_false by (by destruct (QueryEscape k)). change ([ch 61] ++ QueryEscape v) with (ch 61 :: QueryEscape v).
  rewrite (cut_at 61) by (lia || by apply escape_plain; cbn; tauto).
  by rewrite !query_escape_roundtrip.
Qed.

Lemma parse_query_fuel n q : (length q <= n)%nat -> parse_query n q = parse_query (length q) q.
Proof.
  assert (forall s, s <> [] -> (length (cut 38 s).2 < length s)%nat) as Hc.
  { induction s as [|b s IH]; [done|]. intros _. cbn. destruct (isc 38 b); [cbn; lia|].
    destruct s as [|b' s]; [cbn; lia|]. specialize (IH ltac:(done)). destruct (cut 38 (b' :: s)) as [x y]. cbn in *. lia. }
  revert q. induction n as [n IH] using lt_wf_ind. intros q Hn. destruct q as [|b q]; [by destruct n|].
  destruct n as [|n]; [cbn in Hn; lia|]. specialize (Hc (b :: q) ltac:(done)). cbn [length parse_query] in *. destruct (cut 38 (b :: q)) as [part rest]. cbn [snd] in Hc.
  f_equal. rewrite (IH n), (IH (length q)) by lia. done.
Qed.

(** What was encoded is what is parsed, in the same order. *)
Theorem encode_parse_roundtrip vs : ParseQuery (Encode vs) = map (fun kv => (bs_of kv.1, bs_of kv.2)) vs.
Proof.
  unfold ParseQuery. induction vs as [|[k v] vs IH]; [done|]. destruct vs as [|kv vs].
  - cbn [Encode map]. destruct (QueryEscape (bs_of k) ++ [ch 61] ++ QueryEscape (bs_of v)) as [|x l] eqn:E; [by destruct (QueryEscape (bs_of k))|].
    cbn [length parse_query]. rewrite <- E, (cut_none 38), parse_setting_escaped; [by destruct (length l)|].
    rewrite !has_app, !escape_plain by (cbn; tauto). cbn. by rewrite isc_ch by lia.
  - set (rest := kv :: vs) in *. change (Encode ((k, v) :: rest)) with
      (QueryEscape (bs_of k) ++ [ch 61] ++ QueryEscape (bs_of v) ++ [ch 38] ++ Encode rest).
    rewrite (app_assoc [ch 61]), (app_assoc (QueryEscape (bs_of k))). set (part := QueryEscape (bs_of k) ++ [ch 61] ++ QueryEscape (bs_of v)).
    destruct (part ++ [ch 38] ++ Encode rest) as [|x l] eqn:E; [by destruct part|]. cbn [length parse_query]. rewrite <- E.
    assert (has 38 part = false) as Hp by (unfold part; rewrite !has_app, !escape_plain by (cbn; tauto); cbn; by rewrite isc_ch by lia).
    change ([ch 38] ++ Encode rest) with (ch 38 :: Encode rest). rewrite (cut_at 38 part) by (done || lia). unfold part. rewrite parse_setting_escaped. cbn [app map].
    assert (length (Encode rest) <= length l)%nat as Hl.
    { apply (f_equal length) in E. rewrite (length_app part), length_app in E. cbn [length] in E. lia. }
    by rewrite (parse_query_fuel _ _ Hl), IH.
Qed.

(** A query of a URL whose path has no special character. *)
Lemma encode_no_fragment vs : has 35 (Encode vs) = false.
Proof.
  induction vs as [|[k v] vs IH]; [done|]. destruct vs as [|kv vs].
  - cbn [Encode]. by rewrite !has_app, !escape_plain by (cbn; tauto).
  - change (Encode ((k, v) :: kv :: vs)) with (QueryEscape (bs_of k) ++ [ch 61] ++ QueryEscape (bs_of v) ++ [ch 38] ++ Encode (kv :: vs)).
    by rewrite !has_app, !escape_plain, IH by (cbn; tauto).
Qed.

Lemma url_query_of path q : has 35 path = false -> has 63 path = false -> has 35 q = false -> url_query (path ++ ch 63 :: q) = q.
Proof.
  intros H1 H2 H3. unfold url_query. rewrite (cut_none 35) by (rewrite has_app, H1; cbn; by rewrite isc_ch, H3 by lia).
  cbn [fst]. by rewrite (cut_at 63) by (done || lia).
Qed.
End Url.
