(* ===== verification/GoSha.v ===== *)
(** * SHA-256 (Go's crypto/sha256)

    [sha256.Sum256] on bytes, with 32-bit words as [Z]: the padding, the message schedule,
    the 64 rounds of a block and the chaining; checked on the standard's test vectors.
    The trace ids of sessions are derived from it. *)

From S2P Require Import Prelude.

Module Sha.
Local Open Scope Z_scope.

(** ** The constants, as the standard defines them

    The first 32 bits of the fractional parts of the cube roots of the first 64 primes, and of
    the square roots of the first eight. *)

Definition primes (n : Z) : list Z :=
  filter (fun p => forallb (fun d => negb (p mod d =? 0)) (seqZ 2 (p - 2)) = true) (seqZ 2 (n - 1)).

(** The integer cube root, bit by bit. *)
Fixpoint cube_root (bits : nat) (r x : Z) : Z :=
  match bits with
  | O => r
  | S bits => let r' := r + 2 ^ Z.of_nat bits in cube_root bits (if r' ^ 3 <=? x then r' else r) x
  end.

Definition K : list Z := Eval vm_compute in map (fun p => u32 (cube_root 40 0 (p * 2 ^ 96))) (primes 311).
Definition init : list Z := Eval vm_compute in map (fun p => u32 (Z.sqrt (p * 2 ^ 64))) (primes 19).

Definition rotr (n x : Z) : Z := Z.lor (Z.shiftr x n) (u32 (Z.shiftl x (32 - n))).

Definition sigma0 (x : Z) : Z := Z.lxor (Z.lxor (rotr 7 x) (rotr 18 x)) (Z.shiftr x 3).
Definition sigma1 (x : Z) : Z := Z.lxor (Z.lxor (rotr 17 x) (rotr 19 x)) (Z.shiftr x 10).
Definition Sigma0 (x : Z) : Z := Z.lxor (Z.lxor (rotr 2 x) (rotr 13 x)) (rotr 22 x).
Definition Sigma1 (x : Z) : Z := Z.lxor (Z.lxor (rotr 6 x) (rotr 11 x)) (rotr 25 x).
Definition Ch (x y z : Z) : Z := Z.lxor (Z.land x y) (Z.land (Z.lxor x 0xffffffff) z).
Definition Maj (x y z : Z) : Z := Z.lxor (Z.lxor (Z.land x y) (Z.land x z)) (Z.land y z).

Definition word (l : list Z) (i : nat) : Z := default 0 (l !! i).

(** The schedule, the latest word first. *)
Fixpoint schedule (n : nat) (w : list Z) : list Z :=
  match n with
  | O => w
  | S n => schedule n (u32 (sigma1 (word w 1) + word w 6 + sigma0 (word w 14) + word w 15) :: w)
  end.

Definition round (st : list Z) (kw : Z) : list Z :=
  match st with
  | [a; b; c; d; e; f; g; h] =>
      let t1 := h + Sigma1 e + Ch e f g + kw in
      let t2 := Sigma0 a + Maj a b c in
      [u32 (t1 + t2); a; b; c; u32 (d + t1); e; f; g]
  | _ => st
  end.

Fixpoint words (n : nat) (p : bytes) : list Z :=
  match n with O => [] | S n => be_val (take 4 p) :: words n (drop 4 p) end.

Definition block (st : list Z) (p : bytes) : list Z :=
  let w := rev (schedule 48 (rev (words 16 p))) in
  zip_with (fun a b => u32 (a + b)) st (fold_left round (zip_with Z.add K w) st).

(** A 1 bit, zeros up to 8 bytes before the end of a block, and the length in bits. *)
Definition pad (p : bytes) : bytes :=
  p ++ [Byte.x80] ++ replicate (Z.to_nat ((55 - zlen p) mod 64)) Byte.x00 ++ be_bytes 8 (8 * zlen p).

Fixpoint blocks (n : nat) (st : list Z) (p : bytes) : list Z :=
  match n with O => st | S n => blocks n (block st (take 64 p)) (drop 64 p) end.

Definition Sum256 (p : bytes) : bytes :=
  let m := pad p in concat (map (be_bytes 4) (blocks (length m / 64) init m)).

(** ** Lengths *)

Lemma pad_blocks p : zlen (pad p) mod 64 = 0.
Proof.
  unfold pad. rewrite !length_app, length_replicate, length_be_bytes. cbn [length].
  rewrite !Nat2Z.inj_add, Z2Nat.id by (apply Z.mod_pos_bound; lia). cbn [Z.of_nat]. divmod.
Qed.

Lemma length_round st kw : length (round st kw) = length st.
Proof. unfold round. do 8 (destruct st as [|? st]; [done|]). by destruct st. Qed.

Lemma length_rounds l : forall st, length (fold_left round l st) = length st.
Proof. induction l as [|x l IH]; intros st; [done|]. cbn. by rewrite IH, length_round. Qed.

Lemma length_block st p : length (block st p) = length st.
Proof. unfold block. rewrite length_zip_with, length_rounds. lia. Qed.

Lemma length_blocks n : forall st p, length (blocks n st p) = length st.
Proof. induction n as [|n IH]; intros st p; [done|]. cbn. by rewrite IH, length_block. Qed.

Lemma length_sum256 p : length (Sum256 p) = 32%nat.
Proof.
  unfold Sum256. assert (forall l, length (concat (map (be_bytes 4) l)) = (4 * length l)%nat) as H.
  { induction l as [|x l IH]; [done|]. cbn [map concat]. rewrite length_app, length_be_bytes, IH. cbn. lia. }
  by rewrite H, length_blocks.
Qed.

(** ** The standard's test vectors *)

Example sha256_empty :
  be_val (Sum256 []) = 0xe3b0c44298fc1c149afbf4c8996fb92427ae41e4649b934ca495991b7852b855.
Proof. vm_compute. reflexivity. Qed.

Example sha256_abc :
  be_val (Sum256 (bs_of "abc")) = 0xba7816bf8f01cfea414140de5dae2223b00361a396177a9cb410ff61f20015ad.
Proof. vm_compute. reflexivity. Qed.

Example sha256_two_blocks :
  be_val (Sum256 (bs_of "abcdbcdecdefdefgefghfghighijhijkijkljklmklmnlmnomnopnopq")) =
  0x248d6a61d20638b8e5c026930c3e6039a33ce45964ff2167f6ecedd419db06c1.
Proof. vm_compute. reflexivity. Qed.
End Sha.
