(* ===== verification/RateLimit.v ===== *)
(** * The rate limiter (internal/ratelimit/ratelimit.go)

    [Module Limit]: a token bucket per key under one lock, refilled in float64 arithmetic
    from the time since the key's last request, with an inline sweep of idle buckets.
    Every [Allow] call carries the time it read.  The theorems: each key's verdicts are
    those of a bucket of its own, whatever the other keys do; a key that keeps to its rate
    is never refused; no key gets more than its burst at one instant; and where the sweep
    does change a verdict. *)

From Stdlib Require Import Sorting.Sorted.
From S2P Require Import Prelude GoFloat GoTime.
Import Float Time.

Module Limit.
Local Open Scope Z_scope.

(** ** Durations (package time) *)

Definition max_duration : Z := 2 ^ 63 - 1.
Definition min_duration : Z := - 2 ^ 63.

(** [Time.Sub], which saturates. *)
Definition Sub (t u : Z) : Z := Z.max min_duration (Z.min max_duration (t - u)).

(** [Duration.Seconds]. *)
Definition Seconds (d : Z) : float64 :=
  add (of_int (Z.quot d second)) (div (of_int (Z.rem d second)) (of_int second)).

(** ** The limiter *)

Definition gcEvery : Z := 1024.
Definition defaultTTL : Z := 5 * 60 * second.

Record bucket := mkBucket { tokens : float64; lastFill : Z; lastSeen : Z }.

Record Limiter := mkLimiter {
  rate : float64;
  burst : float64;
  ttl : Z;
  buckets : gmap string bucket;
  opsSinceGC : Z;
}.

Definition New (ratePerSec burst : float64) : Limiter :=
  let burst := if ltb (Fin 0) ratePerSec && ltb burst (of_int 1) then of_int 1 else burst in
  mkLimiter ratePerSec burst defaultTTL ∅ 0.

(** The receiver may be nil. *)
Definition Enabled (l : option Limiter) : bool :=
  match l with
  | None => false
  | Some l => ltb (Fin 0) (rate l)
  end.

Definition sweepIdleLocked (l : Limiter) (now : Z) : Limiter :=
  mkLimiter (rate l) (burst l) (ttl l) (filter (fun kb => ~ ttl l < Sub now (lastSeen kb.2)) (buckets l)) (opsSinceGC l).

(** The bucket of the key after the refill: a new one, or the old one topped up. *)
Definition refill (rate burst : float64) (o : option bucket) (now : Z) : bucket :=
  match o with
  | None => mkBucket burst now now
  | Some b =>
      let elapsed := Seconds (Sub now (lastFill b)) in
      if ltb (Fin 0) elapsed then
        let t := add (tokens b) (mul elapsed rate) in
        mkBucket (if ltb burst t then burst else t) now now
      else mkBucket (tokens b) (lastFill b) now
  end.

(** [if b.tokens >= 1 { b.tokens--; return true }; return false]. *)
Definition take_token (b : bucket) : bool * bucket :=
  if leb (of_int 1) (tokens b) then (true, mkBucket (sub (tokens b) (of_int 1)) (lastFill b) (lastSeen b))
  else (false, b).

Definition allow_locked (l : Limiter) (key : string) (now : Z) : bool * Limiter :=
  let l :=
    if gcEvery <=? opsSinceGC l + 1 then
      let l := sweepIdleLocked l now in mkLimiter (rate l) (burst l) (ttl l) (buckets l) 0
    else mkLimiter (rate l) (burst l) (ttl l) (buckets l) (opsSinceGC l + 1) in
  let (ok, b) := take_token (refill (rate l) (burst l) (buckets l !! key) now) in
  (ok, mkLimiter (rate l) (burst l) (ttl l) (<[key := b]> (buckets l)) (opsSinceGC l)).

Definition Allow (l : option Limiter) (key : string) (now : Z) : bool * option Limiter :=
  match l with
  | Some l' => if Enabled l then let (ok, l'') := allow_locked l' key now in (ok, Some l'') else (true, l)
  | None => (true, l)
  end.

(** [size]. *)
Definition size_ (l : Limiter) : nat := size (buckets l).

(** Requests in the order in which they take the lock, with their verdicts. *)
Fixpoint allow_all (l : option Limiter) (reqs : list (string * Z)) : list (string * Z * bool) * option Limiter :=
  match reqs with
  | [] => ([], l)
  | (k, now) :: reqs =>
      let (ok, l) := Allow l k now in
      let (vs, l) := allow_all l reqs in
      ((k, now, ok) :: vs, l)
  end.

(** The reference: one bucket, never swept, serving the requests of one key. *)
Fixpoint own_bucket (rate burst : float64) (o : option bucket) (times : list Z) : list bool :=
  match times with
  | [] => []
  | now :: times =>
      let (ok, b) := take_token (refill rate burst o now) in
      ok :: own_bucket rate burst (Some b) times
  end.

Definition verdicts_of (k : string) (vs : list (string * Z * bool)) : list bool :=
  map snd (filter (fun v => v.1.1 = k) vs).

Definition times_of (k : string) (reqs : list (string * Z)) : list Z :=
  map snd (filter (fun r => r.1 = k) reqs).

(** ** Seconds *)

Lemma second_pos : 0 < second.
Proof. done. Qed.

Lemma of_int_second : of_int second = Fin (second * one_units).
Proof. apply of_int_small. vm_compute. split; discriminate. Qed.

(** The fraction of a second, in units. *)
Lemma nanos_fin n : 0 <= n < second -> exists u, div (of_int n) (of_int second) = Fin u /\ nonneg (Fin u) /\ u <= one_units.
Proof.
  intros Hn. rewrite of_int_second, of_int_small by (unfold second in *; lia). unfold div.
  pose proof one_units_pos as Ho. pose proof second_pos.
  destruct (Z.eqb_spec (second * one_units) 0); [nia|]. destruct (Z.ltb_spec (second * one_units) 0); [nia|].
  assert (0 <= n * one_units * one_units) by nia. assert (0 < second * one_units) by nia.
  pose proof (round_nonneg (n * one_units * one_units) (second * one_units) ltac:(lia) ltac:(lia)) as Hr.
  pose proof (round_mono (n * one_units * one_units) (second * one_units) (1 * one_units) 1 ltac:(lia) ltac:(lia) ltac:(lia)) as Hm.
  rewrite (round_exact (1 * one_units)) in Hm by (apply nonneg_int; lia).
  assert (n * one_units * one_units * 1 <= 1 * one_units * (second * one_units)) as Hc.
  { assert (n * (one_units * one_units) <= second * (one_units * one_units)) by (apply Z.mul_le_mono_nonneg_r; nia). lia. }
  specialize (Hm Hc). destruct (round _ _) as [| |u|]; simpl in Hm, Hr; try done.
  exists u. split; [done|]. split; [done|]. apply Z.leb_le in Hm. lia.
Qed.

Lemma nanos_mono n n' : 0 <= n <= n' -> n' < second ->
  leb (div (of_int n) (of_int second)) (div (of_int n') (of_int second)) = true.
Proof.
  intros Hn Hn'. rewrite of_int_second, !of_int_small by (unfold second in *; lia). unfold div.
  pose proof one_units_pos as Ho. pose proof second_pos.
  destruct (Z.eqb_spec (second * one_units) 0); [nia|]. destruct (Z.ltb_spec (second * one_units) 0); [nia|].
  assert (n * one_units <= n' * one_units) by nia.
  apply round_mono; [nia|nia|nia|]. apply Z.mul_le_mono_nonneg_r; [nia|]. apply Z.mul_le_mono_nonneg_r; nia.
Qed.

Lemma whole_secs d : 0 <= d <= max_duration -> 0 <= d / second /\ d / second + 1 <= 2 ^ 53.
Proof. unfold max_duration, second. intros. divmod. Qed.

Lemma Seconds_eq d : 0 <= d <= max_duration ->
  Seconds d = add (Fin (d / second * one_units)) (div (of_int (d mod second)) (of_int second)).
Proof.
  intros Hd. pose proof (whole_secs d Hd). pose proof second_pos. unfold Seconds.
  rewrite Z.quot_div_nonneg, Z.rem_mod_nonneg by lia. by rewrite of_int_small by lia.
Qed.

(** Between the whole seconds and one second more. *)
Lemma Seconds_spec d : 0 <= d <= max_duration -> exists u,
  Seconds d = Fin u /\ nonneg (Fin u) /\ d / second * one_units <= u <= (d / second + 1) * one_units.
Proof.
  intros Hd. rewrite Seconds_eq by done. pose proof (whole_secs d Hd) as Hw. set (s := d / second) in *.
  destruct (nanos_fin (d mod second)) as (v & -> & Hv & Hv1); [apply Z.mod_pos_bound; done|].
  pose proof (nonneg_int s ltac:(lia)) as Hs. pose proof one_units_pos as Ho. pose proof (representable_nonneg v (proj1 Hv)).
  pose proof (add_nonneg _ _ Hs Hv) as Hn. unfold add in *.
  assert (0 <= s * one_units) by nia.
  pose proof (round_mono (s * one_units) 1 (s * one_units + v) 1 ltac:(lia) ltac:(lia) ltac:(lia) ltac:(lia)) as Hl.
  pose proof (round_mono (s * one_units + v) 1 ((s + 1) * one_units) 1 ltac:(lia) ltac:(lia) ltac:(lia) ltac:(lia)) as Hu.
  rewrite (round_exact (s * one_units)) in Hl by done. rewrite (round_exact ((s + 1) * one_units)) in Hu by (apply nonneg_int; lia).
  destruct (round _ _) as [| |u|]; try done.
  exists u. split; [done|]. split; [done|]. split; by apply Z.leb_le.
Qed.

Lemma Seconds_mono d d' : 0 <= d <= d' -> d' <= max_duration -> leb (Seconds d) (Seconds d') = true.
Proof.
  intros Hd Hd'. pose proof second_pos. assert (d / second <= d' / second) as Hs by (apply Z.div_le_mono; lia).
  destruct (Z.eq_dec (d / second) (d' / second)) as [E|Hne].
  - rewrite !Seconds_eq by lia. rewrite <- E.
    pose proof (nanos_mono (d mod second) (d' mod second)) as Hm.
    destruct (nanos_fin (d mod second)) as (v & Ev & Hv & _); [apply Z.mod_pos_bound; done|].
    destruct (nanos_fin (d' mod second)) as (v' & Ev' & Hv' & _); [apply Z.mod_pos_bound; done|].
    rewrite Ev, Ev' in *. simpl in Hm. rewrite Z.leb_le in Hm.
    pose proof (Z.div_mod d second ltac:(lia)). pose proof (Z.div_mod d' second ltac:(lia)).
    pose proof (Z.mod_pos_bound d second ltac:(lia)). pose proof (Z.mod_pos_bound d' second ltac:(lia)).
    specialize (Hm ltac:(nia) ltac:(lia)). pose proof (whole_secs d ltac:(lia)). pose proof one_units_pos.
    pose proof (representable_nonneg v (proj1 Hv)). unfold add. apply round_mono; nia.
  - destruct (Seconds_spec d) as (u & -> & _ & Hu); [lia|]. destruct (Seconds_spec d') as (u' & -> & _ & Hu'); [lia|].
    pose proof one_units_pos. apply Z.leb_le. nia.
Qed.

(** Any positive duration counts. *)
Lemma Seconds_pos d : 0 < d <= max_duration -> ltb (Fin 0) (Seconds d) = true.
Proof.
  intros Hd. pose proof (Seconds_mono 1 d ltac:(lia) ltac:(lia)) as Hm.
  assert (leb (Fin 1) (Seconds 1) = true) as H1 by (vm_compute; reflexivity).
  pose proof (leb_trans _ _ _ H1 Hm) as H. clear H1 Hm. destruct (Seconds d); simpl in *; try done.
  apply Z.leb_le in H. apply Z.ltb_lt. lia.
Qed.

Lemma Seconds_zero : Seconds 0 = Fin 0.
Proof. vm_compute. reflexivity. Qed.

(** ** One bucket *)

Lemma Sub_ge t u : u <= t -> 0 <= Sub t u <= max_duration.
Proof. unfold Sub, min_duration, max_duration. lia. Qed.

Lemma Sub_mono t t' u : t <= t' -> Sub t u <= Sub t' u.
Proof. unfold Sub. lia. Qed.

#[local] Opaque one_units max_units of_int round.

Section bucket.
Context (r c : Z) (Hr : nonneg (Fin r)) (Hc : nonneg (Fin c)).

(** A bucket as the limiter leaves it: between empty and full, filled when last seen. *)
Definition good (b : bucket) : Prop :=
  (exists u, tokens b = Fin u /\ nonneg (Fin u) /\ u <= c) /\ lastFill b = lastSeen b.

(** What the refill of a good bucket adds. *)
Lemma refill_some b now : good b -> lastFill b <= now ->
  exists u, refill (Fin r) (Fin c) (Some b) now = mkBucket (Fin u) now now /\ nonneg (Fin u) /\ u <= c /\
    leb (if leb (Fin c) (mul (Seconds (Sub now (lastFill b))) (Fin r)) then Fin c
         else mul (Seconds (Sub now (lastFill b))) (Fin r)) (Fin u) = true.
Proof.
  intros [(u & Et & Hu & Huc) Hls] Hnow. unfold refill. rewrite Et.
  pose proof (Sub_ge now (lastFill b) Hnow) as Hs. destruct (Z.eq_dec (Sub now (lastFill b)) 0) as [E|Hne].
  - assert (now = lastFill b) as Hn by (unfold Sub, min_duration, max_duration in E; lia).
    rewrite E, Seconds_zero, <- Hn. exists u. split; [done|]. split; [done|]. split; [done|].
    pose proof (representable_nonneg u (proj1 Hu)). pose proof (representable_nonneg c (proj1 Hc)).
    assert (mul (Fin 0) (Fin r) = Fin 0) as -> by (vm_compute; done). cbn [leb]. destruct (c <=? 0) eqn:Ec; cbn [leb]; apply Z.leb_le; go_bool; lia.
  - rewrite Seconds_pos by lia. destruct (Seconds_spec _ Hs) as (v & -> & Hv & _).
    pose proof (mul_nonneg v r Hv Hr) as Hm. set (m := mul (Fin v) (Fin r)) in *.
    pose proof (add_nonneg (Fin u) m Hu Hm) as Ha. pose proof (add_ge (Fin u) m Hu Hm) as Hge. set (a := add (Fin u) m) in *.
    clearbody a. clearbody m. rewrite ltb_leb by done.
    destruct a as [| |x|]; try done.
    + destruct (leb (Fin x) (Fin c)) eqn:Ex; cbn [negb].
      * exists x. split; [done|]. split; [done|]. apply Z.leb_le in Ex. split; [done|].
        destruct (leb (Fin c) m) eqn:Em; [|done]. exact (leb_trans _ _ _ Em Hge).
      * exists c. split; [done|]. split; [done|]. split; [done|].
        destruct (leb (Fin c) m) eqn:Em; [by apply leb_refl|].
        destruct m as [| |y|]; simpl in *; try done. apply Z.leb_le. apply Z.leb_gt in Em. lia.
    + change (leb PosInf (Fin c)) with false. cbn [negb]. exists c. split; [done|]. split; [done|]. split; [done|].
      destruct (leb (Fin c) m) eqn:Em; [by apply leb_refl|].
      destruct m as [| |y|]; simpl in *; try done. apply Z.leb_le. apply Z.leb_gt in Em. lia.
Qed.

Lemma refill_good o now :
  (forall b, o = Some b -> good b /\ lastFill b <= now) ->
  good (refill (Fin r) (Fin c) o now) /\ lastFill (refill (Fin r) (Fin c) o now) = now.
Proof.
  intros Ho. destruct o as [b|].
  - destruct (Ho b eq_refl) as [Hg Hl]. destruct (refill_some b now Hg Hl) as (u & -> & ? & ? & _). unfold good. simpl. eauto 10.
  - unfold good. simpl. split; [|done]. split; [|done]. exists c. split; [done|]. split; [done|lia].
Qed.

Lemma take_good b ok b' : good b -> take_token b = (ok, b') -> good b' /\ lastFill b' = lastFill b.
Proof.
  intros [(u & Et & Hu & Huc) Hls]. unfold take_token. rewrite Et, of_int_small by lia. rewrite Z.mul_1_l.
  destruct (leb (Fin one_units) (Fin u)) eqn:E; intros [= <- <-]; [|unfold good; eauto 10].
  apply Z.leb_le in E. destruct (sub_one_nonneg u Hu E) as (v & Ev & Hv & Hle).
  rewrite of_int_small, Z.mul_1_l in Ev by lia.
  split; [|done]. split; [|done]. exists v. split; [done|]. split; [done|lia].
Qed.

(** Idle for longer than the eviction threshold, a bucket refills to its burst. *)
Lemma refill_full b now : leb (Fin c) (mul (of_int 300) (Fin r)) = true -> good b -> lastFill b <= now ->
  defaultTTL < Sub now (lastSeen b) -> refill (Fin r) (Fin c) (Some b) now = refill (Fin r) (Fin c) None now.
Proof.
  intros Hb Hg Hl Hidle. destruct (refill_some b now Hg Hl) as (u & -> & Hu & Huc & Hle). cbn [refill].
  destruct Hg as [_ Hls]. rewrite Hls in *.
  pose proof (Sub_ge now (lastSeen b) ltac:(lia)) as Hs.
  destruct (Seconds_spec _ Hs) as (v & Ev & Hv & Hvl). rewrite Ev in Hle.
  assert (leb (mul (of_int 300) (Fin r)) (mul (Fin v) (Fin r)) = true) as Hm.
  { rewrite of_int_small by lia. apply (mul_mono_l (300 * one_units) v r); [exact (nonneg_int 300 ltac:(lia))|done|done|].
    assert (300 <= Sub now (lastSeen b) / second) by (apply Z.div_le_lower_bound; unfold defaultTTL, second in *; lia).
    pose proof one_units_pos. nia. }
  rewrite (leb_trans _ _ _ Hb Hm) in Hle. apply Z.leb_le in Hle. do 2 f_equal. lia.
Qed.
End bucket.

(** ** The limiter *)

(** The state before the bucket is read: counted, swept when due. *)
Definition counted (l : Limiter) (now : Z) : Limiter :=
  if gcEvery <=? opsSinceGC l + 1 then
    let l := sweepIdleLocked l now in mkLimiter (rate l) (burst l) (ttl l) (buckets l) 0
  else mkLimiter (rate l) (burst l) (ttl l) (buckets l) (opsSinceGC l + 1).

Lemma allow_locked_eq l key now :
  allow_locked l key now =
  let (ok, b) := take_token (refill (rate l) (burst l) (buckets (counted l now) !! key) now) in
  (ok, mkLimiter (rate l) (burst l) (ttl l) (<[key := b]> (buckets (counted l now))) (opsSinceGC (counted l now))).
Proof. unfold allow_locked. fold (counted l now). unfold counted. by destruct (gcEvery <=? opsSinceGC l + 1). Qed.

(** Counting keeps a bucket, or drops it when it was idle too long. *)
Lemma counted_lookup l now k :
  buckets (counted l now) !! k = buckets l !! k \/
  buckets (counted l now) !! k = None /\ exists b, buckets l !! k = Some b /\ ttl l < Sub now (lastSeen b).
Proof.
  unfold counted. destruct (gcEvery <=? opsSinceGC l + 1); [|by left]. simpl.
  destruct (buckets l !! k) as [b|] eqn:E.
  - destruct (decide (ttl l < Sub now (lastSeen b))) as [Hi|Hi].
    + right. split; [|eauto]. apply map_lookup_filter_None. right. intros b' [= <-]%(eq_trans (eq_sym E)) H. by apply H.
    + left. apply map_lookup_filter_Some. done.
  - left. apply map_lookup_filter_None. by left.
Qed.

Section limiter.
Context (r c : Z) (Hr : nonneg (Fin r)) (Hc : nonneg (Fin c)) (Hpos : 0 < r).

Definition configured (l : Limiter) : Prop := rate l = Fin r /\ burst l = Fin c /\ ttl l = defaultTTL.

Lemma allow_configured l k now : configured l ->
  Allow (Some l) k now = (let (ok, l') := allow_locked l k now in (ok, Some l')) /\ configured (allow_locked l k now).2.
Proof.
  intros (E1 & E2 & E3). split.
  - unfold Allow, Enabled. rewrite E1. simpl. by destruct (Z.ltb_spec 0 r); [|lia].
  - rewrite allow_locked_eq. destruct (take_token _). done.
Qed.

(** What the limiter knows of [k] against the reference's bucket [o], at time [now]. *)
Definition agrees (l : Limiter) (k : string) (now : Z) (o : option bucket) : Prop :=
  (forall b, o = Some b -> good c b /\ lastFill b <= now) /\
  (buckets l !! k = o \/ buckets l !! k = None /\ exists b, o = Some b /\ defaultTTL < Sub now (lastSeen b)).

Lemma agrees_counted l k now now' o :
  configured l -> now <= now' -> agrees l k now o -> agrees (counted l now') k now' o.
Proof.
  intros (_ & _ & Ht) Hn [Hg Ha]. split; [intros b Hb; destruct (Hg b Hb); split; [done|lia]|].
  destruct Ha as [E|(E & b & -> & Hi)].
  - destruct (counted_lookup l now' k) as [E'|(E' & b & Eb & Hi)]; [left; congruence|].
    right. split; [done|]. exists b. rewrite <- Ht. split; [congruence|done].
  - right. split; [|exists b; split; [done|]; pose proof (Sub_mono now now' (lastSeen b) Hn); lia].
    destruct (counted_lookup l now' k) as [E'|(E' & _)]; congruence.
Qed.

Lemma agrees_refill l k now o : leb (Fin c) (mul (of_int 300) (Fin r)) = true -> agrees l k now o ->
  refill (Fin r) (Fin c) (buckets l !! k) now = refill (Fin r) (Fin c) o now.
Proof.
  intros Hb [Hg [->|(-> & b & -> & Hi)]]; [done|]. destruct (Hg b eq_refl). symmetry. by apply refill_full.
Qed.

Lemma allow_all_own k reqs : leb (Fin c) (mul (of_int 300) (Fin r)) = true -> forall l now o,
  configured l -> agrees l k now o -> StronglySorted Z.le (now :: map snd reqs) ->
  verdicts_of k (allow_all (Some l) reqs).1 = own_bucket (Fin r) (Fin c) o (times_of k reqs).
Proof.
  intros Hb. induction reqs as [|[k' t] reqs IH]; intros l now o Hl Ha Hs; [done|].
  apply StronglySorted_inv in Hs as [Hs Hall]. simpl in Hall. apply list.Forall_cons in Hall as [Ht _].
  destruct (allow_configured l k' t Hl) as [Ea Hl']. pose proof (agrees_counted l k now t o Hl Ht Ha) as Hc'.
  cbn [allow_all]. rewrite Ea. clear Ea. rewrite allow_locked_eq in *. destruct Hl as (E1 & E2 & _). rewrite E1, E2 in *.
  destruct (take_token _) as [ok b] eqn:Et. set (l' := mkLimiter _ _ _ _ _) in *.
  destruct (allow_all (Some l') reqs) as [vs l''] eqn:Ev. unfold verdicts_of, times_of in *. cbn [fst].
  rewrite !filter_cons. cbn [fst snd]. destruct (decide (k' = k)) as [->|Hne]; cbn [map snd own_bucket].
  - rewrite (agrees_refill _ k t o Hb Hc') in Et. rewrite Et. f_equal.
    destruct Hc' as [Hg _]. destruct (refill_good r c Hr Hc o t) as [Hgr Hlf]; [done|].
    destruct (take_good c _ _ _ Hgr Et) as [Hgb Hlb].
    specialize (IH l' t (Some b)). rewrite Ev in IH. apply IH; [done| |done].
    split; [intros ? [= <-]; split; [done|lia]|]. left. subst l'. simpl. by rewrite lookup_insert_eq.
  - specialize (IH l' t o). rewrite Ev in IH. apply IH; [done| |done].
    destruct Hc' as [Hg Ho]. split; [done|]. subst l'. simpl. by rewrite lookup_insert_ne by done.
Qed.
End limiter.

(** A key's requests are at least [d] apart. *)
Fixpoint spaced (d : Z) (last : option Z) (times : list Z) : Prop :=
  match times with
  | [] => True
  | t :: ts => (match last with Some t0 => t0 + d <= t | None => True end) /\ spaced d (Some t) ts
  end.

Definition allowed_of (k : string) (vs : list (string * Z * bool)) : nat := length (filter (fun ok => ok = true) (verdicts_of k vs)).

Section verdicts.
Context (r c : Z) (Hr : nonneg (Fin r)) (Hc : nonneg (Fin c)) (Hpos : 0 < r).

Lemma verdicts_cons k k' t ok vs :
  verdicts_of k ((k', t, ok) :: vs) = (if decide (k' = k) then [ok] else []) ++ verdicts_of k vs.
Proof. unfold verdicts_of. rewrite filter_cons. cbn [fst snd]. by destruct (decide (k' = k)). Qed.

(** A bucket that had [d] to refill holds a token. *)
Lemma refill_ready o t d : 0 <= d <= max_duration -> one_units <= c ->
  leb (of_int 1) (mul (Seconds d) (Fin r)) = true ->
  (forall b, o = Some b -> good c b /\ lastFill b + d <= t) ->
  leb (of_int 1) (tokens (refill (Fin r) (Fin c) o t)) = true.
Proof.
  intros Hd Hc1 Hpace Ho. assert (leb (of_int 1) (Fin c) = true) as Hcc.
  { rewrite of_int_small, Z.mul_1_l by lia. by apply Z.leb_le. }
  destruct o as [b|]; [|done]. destruct (Ho b eq_refl) as [Hg Hl].
  destruct (refill_some r c Hr Hc b t Hg ltac:(lia)) as (u & -> & _ & _ & Hle). cbn [tokens].
  eapply leb_trans; [|exact Hle]. set (m := mul (Seconds (Sub t (lastFill b))) (Fin r)).
  destruct (leb (Fin c) m); [done|]. eapply leb_trans; [exact Hpace|].
  pose proof (Sub_ge t (lastFill b) ltac:(lia)) as Hs. destruct (Seconds_spec d Hd) as (v & Ev & Hv & _).
  assert (d <= Sub t (lastFill b)) as Hds by (unfold Sub, min_duration, max_duration in *; lia).
  pose proof (Seconds_mono d (Sub t (lastFill b)) ltac:(lia) ltac:(lia)) as Hm.
  destruct (Seconds_spec _ Hs) as (v' & Ev' & Hv' & _). subst m. rewrite Ev, Ev' in *.
  apply (mul_mono_l v v' r Hv Hv' Hr). apply Z.leb_le. exact Hm.
Qed.

Lemma allow_all_paced k d reqs : 0 <= d <= max_duration -> one_units <= c ->
  leb (of_int 1) (mul (Seconds d) (Fin r)) = true -> forall l last,
  configured r c l -> (forall b, buckets l !! k = Some b -> good c b /\ last = Some (lastFill b)) ->
  spaced d last (times_of k reqs) ->
  Forall (fun ok => ok = true) (verdicts_of k (allow_all (Some l) reqs).1).
Proof.
  intros Hd Hc1 Hpace. induction reqs as [|[k' t] reqs IH]; intros l last Hl Hk Hs; [done|].
  destruct (allow_configured r c Hpos l k' t Hl) as [Ea Hl']. cbn [allow_all]. rewrite Ea. clear Ea.
  rewrite allow_locked_eq in *. destruct Hl as (E1 & E2 & _). rewrite E1, E2 in *.
  assert (forall b, buckets (counted l t) !! k = Some b -> good c b /\ last = Some (lastFill b)) as Hk'.
  { intros b Hb. apply Hk. destruct (counted_lookup l t k) as [E|[E _]]; congruence. }
  destruct (take_token _) as [ok b] eqn:Et. set (l' := mkLimiter _ _ _ _ _) in *.
  destruct (allow_all (Some l') reqs) as [vs l''] eqn:Ev. cbn [fst]. rewrite verdicts_cons.
  unfold times_of in Hs. rewrite filter_cons in Hs. cbn [fst] in Hs. destruct (decide (k' = k)) as [->|Hne].
  - cbn [map snd spaced] in Hs. destruct Hs as [Hsp Hs].
    assert (forall b, buckets (counted l t) !! k = Some b -> good c b /\ lastFill b + d <= t) as Hb.
    { intros b0 Hb0. destruct (Hk' b0 Hb0) as [Hg0 ->]. split; [exact Hg0|exact Hsp]. }
    pose proof (refill_ready _ t d Hd Hc1 Hpace Hb) as Hready.
    destruct (refill_good r c Hr Hc (buckets (counted l t) !! k) t) as [Hg Hlf].
    { intros b0 Hb0. destruct (Hb b0 Hb0) as [Hg0 Hd0]. split; [exact Hg0|lia]. }
    destruct (take_good c _ _ _ Hg Et) as [Hgb Hlb].
    unfold take_token in Et. rewrite Hready in Et. injection Et as <- Eb. apply list.Forall_app. split; [by constructor|].
    specialize (IH l' (Some t)). rewrite Ev in IH. apply IH; [exact Hl'| |exact Hs].
    subst l'. simpl. intros b1. rewrite lookup_insert_eq. intros [= <-]. split; [exact Hgb|]. f_equal. lia.
  - apply list.Forall_app. split; [constructor|].
    specialize (IH l' last). rewrite Ev in IH. apply IH; [exact Hl'| |exact Hs].
    subst l'. simpl. intros b1. rewrite lookup_insert_ne by done. apply Hk'.
Qed.
End verdicts.

(** ** Requests at one instant *)

Section instant.
Context (r c : Z) (Hr : nonneg (Fin r)) (Hc : nonneg (Fin c)) (Hpos : 0 < r).

(** A limiter all of whose requests came by [now]. *)
Definition wf (now : Z) (l : Limiter) : Prop :=
  configured r c l /\ forall k b, buckets l !! k = Some b -> good c b /\ lastFill b <= now.

Lemma wf_counted now now' l k b : wf now l -> now <= now' ->
  buckets (counted l now') !! k = Some b -> good c b /\ lastFill b <= now'.
Proof.
  intros [_ Hl] Hn Hb. destruct (Hl k b) as [Hg Hb']; [|split; [exact Hg|lia]].
  destruct (counted_lookup l now' k) as [E|[E _]]; congruence.
Qed.

Lemma allow_wf now now' l k : wf now l -> now <= now' -> wf now' (allow_locked l k now').2.
Proof.
  intros Hl Hn. destruct (allow_configured r c Hpos l k now' (proj1 Hl)) as [_ Hcfg]. split; [exact Hcfg|]. clear Hcfg.
  rewrite allow_locked_eq. destruct (proj1 Hl) as (-> & -> & _).
  destruct (take_token _) as [ok b] eqn:Et. cbn [snd buckets]. intros k' b'.
  destruct (decide (k = k')) as [<-|Hne].
  - rewrite lookup_insert_eq. intros [= <-].
    destruct (refill_good r c Hr Hc (buckets (counted l now') !! k) now') as [Hg Hlf]; [intros ?; by eapply wf_counted|].
    destruct (take_good c _ _ _ Hg Et) as [Hgb Hlb]. split; [exact Hgb|lia].
  - rewrite lookup_insert_ne by done. by eapply wf_counted.
Qed.

Lemma allow_all_wf reqs : forall now l t, wf now l -> StronglySorted Z.le (now :: map snd reqs) ->
  Forall (fun t' => t' <= t) (now :: map snd reqs) -> exists l', (allow_all (Some l) reqs).2 = Some l' /\ wf t l'.
Proof.
  induction reqs as [|[k t0] reqs IH]; intros now l t Hl Hs Ht.
  - exists l. split; [done|]. apply list.Forall_cons in Ht as [Hn _]. destruct Hl as [Hcfg Hb]. split; [exact Hcfg|].
    intros k b Hkb. destruct (Hb k b Hkb). split; [assumption|lia].
  - apply StronglySorted_inv in Hs as [Hs Hall]. apply list.Forall_cons in Hall as [Hn _]. simpl in Hn.
    apply list.Forall_cons in Ht as [_ Ht]. cbn [allow_all]. destruct (allow_configured r c Hpos l k t0 (proj1 Hl)) as [-> _].
    pose proof (allow_wf now t0 l k Hl Hn) as Hl'. destruct (allow_locked l k t0) as [ok l'].
    destruct (IH t0 l' t Hl' Hs Ht) as (l'' & E & Hw). exists l''. destruct (allow_all (Some l') reqs). by split.
Qed.

Lemma allowed_cons k k' t ok vs :
  allowed_of k ((k', t, ok) :: vs) = ((if decide (k' = k) then if ok then 1 else 0 else 0) + allowed_of k vs)%nat.
Proof.
  unfold allowed_of. rewrite verdicts_cons. destruct (decide (k' = k)); [|done]. cbn [app]. rewrite filter_cons. by destruct ok.
Qed.

(** A bucket with at most [n] tokens has at most [n - 1] left after a grant. *)
Lemma take_bound b u n ok b' : 0 <= n <= 2 ^ 53 -> good c b -> tokens b = Fin u -> u <= n * one_units ->
  take_token b = (ok, b') ->
  exists u' n', tokens b' = Fin u' /\ u' <= n' * one_units /\ 0 <= n' <= 2 ^ 53 /\ n = n' + (if ok then 1 else 0).
Proof.
  intros Hn [(u0 & Etok & Hnn & _) _] Htok Hu. rewrite Htok in Etok. injection Etok as <-.
  unfold take_token. rewrite Htok. destruct (leb (of_int 1) (Fin u)) eqn:El; intros [= <- <-].
  - rewrite of_int_small, Z.mul_1_l in El by lia. apply Z.leb_le in El. pose proof one_units_pos.
    assert (1 <= n) by nia. destruct (sub_one_nonneg u Hnn El) as (v & Esub & _ & _).
    pose proof (sub_one_le_int u v n Hnn El Hu ltac:(lia) Esub) as Hv. exists v, (n - 1). cbn [tokens]. repeat split; [exact Esub|exact Hv|lia..].
  - exists u, n. repeat split; [exact Htok|exact Hu|lia..].
Qed.

(** A bucket with at most [n] tokens grants at most [n] requests before time passes. *)
Lemma allowed_held k n t reqs : 0 <= n <= 2 ^ 53 -> Forall (fun q => snd q = t) reqs -> forall l,
  wf t l -> (exists b u, buckets l !! k = Some b /\ lastFill b = t /\ tokens b = Fin u /\ u <= n * one_units) ->
  Z.of_nat (allowed_of k (allow_all (Some l) reqs).1) <= n.
Proof.
  intros Hn Hall. revert n Hn. induction Hall as [|[k' t'] reqs Ht' Hall IH]; intros n Hn l Hl (b & u & Hk & Hlf & Htok & Hu).
  { cbn. lia. }
  cbn [snd] in Ht'. subst t'. destruct (allow_configured r c Hpos l k' t (proj1 Hl)) as [Ea _].
  pose proof (allow_wf t t l k' Hl ltac:(lia)) as Hl'. cbn [allow_all]. rewrite Ea. rewrite allow_locked_eq in *.
  destruct (proj1 Hl) as (E1 & E2 & E3). rewrite E1, E2 in *.
  assert (buckets (counted l t) !! k = Some b) as Hkc.
  { destruct (counted_lookup l t k) as [->|(_ & b0 & Hb0 & Hi)]; [done|]. exfalso.
    destruct (proj2 Hl k b Hk) as [[_ Hls] _]. rewrite Hk in Hb0. injection Hb0 as <-.
    rewrite E3, <- Hls, Hlf in Hi. unfold Sub, min_duration, max_duration, defaultTTL, second in Hi. lia. }
  destruct (take_token _) as [ok b'] eqn:Et. set (l' := mkLimiter _ _ _ _ _) in *.
  specialize (fun n Hn => IH n Hn l' Hl'). destruct (allow_all (Some l') reqs) as [vs l''] eqn:Ev. cbn [fst] in *.
  rewrite allowed_cons. destruct (decide (k' = k)) as [->|Hne].
  - rewrite Hkc in Et. destruct (proj2 Hl k b Hk) as [Hg _].
    assert (refill (Fin r) (Fin c) (Some b) t = mkBucket (Fin u) t t) as Erf.
    { unfold refill. assert (Sub t (lastFill b) = 0) as -> by (rewrite Hlf; unfold Sub, min_duration, max_duration; lia).
      rewrite Seconds_zero. change (ltb (Fin 0) (Fin 0)) with false. by rewrite Htok, Hlf. }
    destruct (refill_good r c Hr Hc (Some b) t) as [Hgr _]; [intros ? [= <-]; split; [exact Hg|lia]|].
    rewrite Erf in *. destruct (take_bound _ u n ok b' Hn Hgr eq_refl Hu Et) as (u' & n' & Hu' & Hle & Hn' & ->).
    destruct (take_good c _ _ _ Hgr Et) as [_ Hlb]. cbn [lastFill] in Hlb.
    assert (Z.of_nat (allowed_of k vs) <= n'); [|destruct ok; lia].
    apply IH; [exact Hn'|]. subst l'. cbn [buckets]. rewrite lookup_insert_eq. exists b', u'. repeat split; assumption.
  - apply IH; [done|]. subst l'. cbn [buckets]. rewrite lookup_insert_ne by done. eauto 10.
Qed.

(** From any state, a key gets at most its burst at one instant. *)
Lemma allowed_instant k n t reqs : 0 <= n <= 2 ^ 53 -> c <= n * one_units -> Forall (fun q => snd q = t) reqs ->
  forall now l, now <= t -> wf now l -> Z.of_nat (allowed_of k (allow_all (Some l) reqs).1) <= n.
Proof.
  intros Hn Hcn Hall. induction Hall as [|[k' t'] reqs Ht' Hall IH]; intros now l Hnow Hl; [cbn; lia|].
  cbn [snd] in Ht'. subst t'. destruct (allow_configured r c Hpos l k' t (proj1 Hl)) as [Ea _].
  pose proof (allow_wf now t l k' Hl Hnow) as Hl'. cbn [allow_all]. rewrite Ea. rewrite allow_locked_eq in *.
  destruct (proj1 Hl) as (E1 & E2 & E3). rewrite E1, E2 in *.
  destruct (take_token _) as [ok b'] eqn:Et. set (l' := mkLimiter _ _ _ _ _) in *.
  pose proof (allowed_held k) as Hheld. specialize (IH t l' ltac:(lia) Hl').
  destruct (decide (k' = k)) as [->|Hne].
  - destruct (refill_good r c Hr Hc (buckets (counted l t) !! k) t) as [Hgr Hlr]; [intros ?; by eapply wf_counted|].
    pose proof Hgr as [(u & Etok & _ & Huc) _].
    destruct (take_bound _ u n ok b' Hn Hgr Etok ltac:(lia) Et) as (u' & n' & Hu' & Hle & Hn' & ->).
    destruct (take_good c _ _ _ Hgr Et) as [_ Hlb].
    specialize (Hheld n' t reqs Hn' Hall l' Hl'). destruct (allow_all (Some l') reqs) as [vs l''] eqn:Ev. cbn [fst] in *.
    rewrite allowed_cons. rewrite decide_True by reflexivity.
    assert (Z.of_nat (allowed_of k vs) <= n'); [|destruct ok; lia].
    apply Hheld. subst l'. cbn [buckets]. rewrite lookup_insert_eq. exists b', u'. repeat split; [lia|assumption|assumption].
  - destruct (allow_all (Some l') reqs) as [vs l''] eqn:Ev. cbn [fst] in *.
    rewrite allowed_cons. destruct (decide (k' = k)) as [E|_]; [by destruct (Hne E)|exact IH].
Qed.
End instant.

(** ** Theorems *)

Ltac times_tac :=
  cbn; repeat first [apply SSorted_nil | apply SSorted_cons | apply Forall_nil_2 | apply Forall_cons_2]; unfold second; cbn; lia.

(** [New] raises the burst to one token. *)
Lemma New_burst r b : nonneg (Fin r) -> 0 < r -> nonneg (Fin b) ->
  exists c, burst (New (Fin r) (Fin b)) = Fin c /\ nonneg (Fin c) /\ one_units <= c /\ configured r c (New (Fin r) (Fin b)).
Proof.
  intros Hr Hpos Hb.
  assert (burst (New (Fin r) (Fin b)) = Fin (if b <? one_units then one_units else b)) as E.
  { unfold New. rewrite of_int_small, Z.mul_1_l by lia. cbn [ltb burst]. destruct (Z.ltb_spec 0 r); [|lia]. cbn [andb].
    by destruct (b <? one_units). }
  rewrite E. eexists. split; [reflexivity|]. split; [|split; [destruct (Z.ltb_spec b one_units); lia|unfold configured; rewrite E; repeat split]].
  destruct (b <? one_units); [|exact Hb]. pose proof (nonneg_int 1 ltac:(lia)) as H1. by rewrite Z.mul_1_l in H1.
Qed.

(** C27. Noisy tenants are isolated: as long as a burst takes no more than the five minutes of
    the eviction threshold to refill, the verdicts a key gets, among any requests of other
    keys and whatever is swept, are those of a bucket of its own that sees only that key's
    requests. *)
Theorem limiter_isolates r b k reqs :
  nonneg (Fin r) -> 0 < r -> nonneg (Fin b) ->
  leb (burst (New (Fin r) (Fin b))) (mul (of_int 300) (Fin r)) = true ->
  StronglySorted Z.le (map snd reqs) ->
  verdicts_of k (allow_all (Some (New (Fin r) (Fin b))) reqs).1 =
  own_bucket (Fin r) (burst (New (Fin r) (Fin b))) None (times_of k reqs).
Proof.
  intros Hr Hpos Hb Hfull Hs. destruct (New_burst r b Hr Hpos Hb) as (c & Ec & Hc & Hc1 & Hcfg). rewrite Ec in *.
  destruct reqs as [|[k0 t0] reqs]; [reflexivity|].
  apply (allow_all_own r c Hr Hc Hpos k _ Hfull _ t0 None Hcfg).
  - split; [discriminate|]. left. reflexivity.
  - apply StronglySorted_inv in Hs as [Hs Hall]. constructor; [by constructor|]. constructor; [simpl; lia|exact Hall].
Qed.

Lemma limiter_isolates_witness :
  verdicts_of "a" (allow_all (Some (New (Fin (2 * one_units)) (Fin (2 * one_units))))
    [("a", 0); ("b", 0); ("a", 1); ("b", 2); ("a", 3); ("a", 4 * second)]).1 = [true; true; false; true].
Proof.
  rewrite (limiter_isolates (2 * one_units) (2 * one_units) "a").
  - vm_compute. reflexivity.
  - exact (nonneg_int 2 ltac:(lia)).
  - vm_compute. reflexivity.
  - exact (nonneg_int 2 ltac:(lia)).
  - vm_compute. reflexivity.
  - times_tac.
Defined.

(** A tenant that keeps to its rate is never refused, whatever the others send and however
    often the idle buckets are swept: if a token accrues in [d], a key whose requests are
    at least [d] apart has every one of them allowed. *)
Theorem paced_never_refused r b d k reqs :
  nonneg (Fin r) -> 0 < r -> nonneg (Fin b) -> 0 <= d <= max_duration ->
  leb (of_int 1) (mul (Seconds d) (Fin r)) = true ->
  spaced d None (times_of k reqs) ->
  Forall (fun ok => ok = true) (verdicts_of k (allow_all (Some (New (Fin r) (Fin b))) reqs).1).
Proof.
  intros Hr Hpos Hb Hd Hpace Hsp. destruct (New_burst r b Hr Hpos Hb) as (c & _ & Hc & Hc1 & Hcfg).
  apply (allow_all_paced r c Hr Hc Hpos k d reqs Hd Hc1 Hpace _ None Hcfg); [|exact Hsp].
  intros b0 Hb0. discriminate.
Qed.

Lemma paced_never_refused_witness :
  Forall (fun ok => ok = true) (verdicts_of "a" (allow_all (Some (New (Fin (2 * one_units)) (Fin 0)))
    [("a", 0); ("b", 0); ("b", 1); ("a", second); ("b", 2); ("a", 2 * second)]).1).
Proof.
  apply (paced_never_refused (2 * one_units) 0 (second / 2) "a").
  - exact (nonneg_int 2 ltac:(lia)).
  - vm_compute. reflexivity.
  - exact (nonneg_int 0 ltac:(lia)).
  - vm_compute. split; discriminate.
  - vm_compute. reflexivity.
  - vm_compute. repeat split; discriminate.
Defined.

(** *** A burst that is not a finite number *)

Section Fixed.
Context (r : Z) (Hpos : 0 < r) (v : float64) (ok : bool).
Hypothesis refill_fixed : forall o now, (forall b, o = Some b -> tokens b = v) -> tokens (refill (Fin r) v o now) = v.
Hypothesis take_fixed : leb (of_int 1) v = ok /\ (ok = true -> sub v (of_int 1) = v).

(** A bucket that always holds [v] gives one verdict for ever. *)
Lemma allow_all_fixed reqs : forall l, rate l = Fin r -> burst l = v -> map_Forall (fun _ b => tokens b = v) (buckets l) ->
  Forall (fun x => x.2 = ok) (allow_all (Some l) reqs).1.
Proof.
  induction reqs as [|[k t] reqs IH]; intros l Er Eb Hall; [constructor|]. cbn [allow_all].
  unfold Allow, Enabled. rewrite Er. assert (ltb (Fin 0) (Fin r) = true) as -> by by apply Z.ltb_lt.
  rewrite allow_locked_eq, Er, Eb.
  assert (map_Forall (fun _ b => tokens b = v) (buckets (counted l t))) as Hall'.
  { intros k' b Hb. destruct (counted_lookup l t k') as [E|[E _]]; rewrite E in Hb; [by eapply Hall|done]. }
  pose proof (refill_fixed (buckets (counted l t) !! k) t (fun b Hb => Hall' k b Hb)) as Hv.
  set (b0 := refill (Fin r) v _ t) in *. destruct (take_token b0) as [o b] eqn:Et.
  assert (o = ok /\ tokens b = v) as [-> Hb].
  { unfold take_token in Et. destruct take_fixed as [H1 H2]. rewrite Hv, H1 in Et. destruct ok; simplify_eq; split; [done| |done|done].
    by apply H2. }
  set (l' := mkLimiter _ _ _ _ _). specialize (IH l' eq_refl eq_refl). destruct (allow_all (Some l') reqs) as [vs l''].
  constructor; [done|]. apply IH. by apply map_Forall_insert_2.
Qed.
End Fixed.

(** An infinite burst never refuses. *)
Lemma infinite_burst_allows r reqs : 0 < r ->
  Forall (fun x => x.2 = true) (allow_all (Some (New (Fin r) PosInf)) reqs).1.
Proof.
  intros Hpos. apply (allow_all_fixed r Hpos PosInf true).
  - intros [b|] now Hb; [|done]. unfold refill. rewrite (Hb b eq_refl).
    destruct (Seconds (Sub now (lastFill b))) as [| |e|]; cbn [ltb tokens]; try done.
    + destruct (Z.ltb_spec 0 e); [|done]. cbn [mul].
      pose proof (round_nonneg (e * r) one_units ltac:(nia) one_units_pos) as Hn. by destruct (round (e * r) one_units).
    + cbn [mul]. unfold inf_times. destruct (Z.eqb_spec r 0); [lia|]. destruct (Z.ltb_spec 0 r); [done|lia].
  - done.
  - reflexivity.
  - unfold New. cbn. by rewrite andb_false_r.
  - apply map_Forall_empty.
Qed.

(** A burst that is not a number refuses everything. *)
Lemma nan_burst_refuses r reqs : 0 < r ->
  Forall (fun x => x.2 = false) (allow_all (Some (New (Fin r) NaN)) reqs).1.
Proof.
  intros Hpos. apply (allow_all_fixed r Hpos NaN false).
  - intros [b|] now Hb; [|done]. unfold refill. rewrite (Hb b eq_refl). by destruct (ltb _ _).
  - done.
  - reflexivity.
  - unfold New. cbn. by rewrite andb_false_r.
  - apply map_Forall_empty.
Qed.

(** No key gets more than its burst at once: after any requests in the order of their
    times, of the requests that come at one instant at most [burst], rounded up to an
    integer, are allowed. *)
Theorem burst_is_bounded r b k before reqs t n :
  nonneg (Fin r) -> 0 < r -> nonneg (Fin b) -> 0 <= n <= 2 ^ 53 ->
  leb (burst (New (Fin r) (Fin b))) (of_int n) = true ->
  StronglySorted Z.le (map snd before) -> Forall (fun q => snd q <= t) before -> Forall (fun q => snd q = t) reqs ->
  Z.of_nat (allowed_of k (allow_all (allow_all (Some (New (Fin r) (Fin b))) before).2 reqs).1) <= n.
Proof.
  intros Hr Hpos Hb Hn Hbn Hs Hbef Hall. destruct (New_burst r b Hr Hpos Hb) as (c & Ec & Hc & Hc1 & Hcfg).
  rewrite Ec, of_int_small in Hbn by lia. apply Z.leb_le in Hbn.
  set (now := match before with [] => t | (_, t0) :: _ => t0 end).
  assert (now <= t) as Hnow by (destruct before as [|[k0 t0] before]; [simpl; lia|apply list.Forall_cons in Hbef as [H _]; exact H]).
  destruct (allow_all_wf r c Hr Hc Hpos before now (New (Fin r) (Fin b)) t) as (l & -> & Hl).
  - split; [exact Hcfg|]. intros k0 b0 Hb0. discriminate.
  - destruct before as [|[k0 t0] before]; [by repeat constructor|].
    apply StronglySorted_inv in Hs as [Hs Ha]. constructor; [by constructor|]. constructor; [simpl; lia|exact Ha].
  - constructor; [exact Hnow|]. rewrite list.Forall_fmap. exact Hbef.
  - apply (allowed_instant r c Hr Hc Hpos k n t reqs Hn Hbn Hall t l); [lia|exact Hl].
Qed.

Lemma burst_is_bounded_witness :
  Z.of_nat (allowed_of "a" (allow_all (allow_all (Some (New (Fin (5 * one_units)) (Fin (3 * one_units)))) [("a", 0); ("b", 1)]).2
    [("a", 9); ("a", 9); ("b", 9); ("a", 9); ("a", 9); ("a", 9)]).1) <= 3.
Proof.
  apply (burst_is_bounded (5 * one_units) (3 * one_units) "a" _ _ 9 3).
  - exact (nonneg_int 5 ltac:(lia)).
  - vm_compute. reflexivity.
  - exact (nonneg_int 3 ltac:(lia)).
  - lia.
  - vm_compute. reflexivity.
  - times_tac.
  - times_tac.
  - times_tac.
Defined.

(** When a burst takes longer than the threshold to refill, the sweep does change a
    verdict: at one token per 1024 seconds and a burst of two, a key that used its burst is
    allowed two more requests 301 seconds later if other traffic triggered a sweep, where
    its own bucket would have refused both. *)
Theorem eviction_refills_burst :
  let reqs := [("a", 0); ("a", 0)] ++ replicate 1022 ("b", 301 * second) ++ [("a", 301 * second); ("a", 301 * second)] in
  let l := New (Fin (one_units / 1024)) (Fin (2 * one_units)) in
  verdicts_of "a" (allow_all (Some l) reqs).1 = [true; true; true; true] /\
  own_bucket (rate l) (burst l) None (times_of "a" reqs) = [true; true; false; false].
Proof. split; vm_compute; reflexivity. Qed.

End Limit.
