(* ===== verification/AgentStream.v ===== *)
(** * The event envelope (internal/agentstream: envelope.go, retry.go, otel.go)

    [Event] with its validation, its JSON form and its parser; the session key
    that orders and shards events; the routing of retries. The theorems: an
    envelope that was published and read back from the log is the envelope that
    was published, and what a session key can tell apart. *)

From S2P Require Import Prelude GoLib GoJson GoTime.
Import Json.
Open Scope Z_scope.

Module Envelope.

Record Event := mkEvent {
  Version : string;
  Type_ : string;
  Tenant : string;
  Project : string;
  SessionID : string;
  AgentID : string;
  Step : string;
  Attempt : Z;
  CreatedAt : string;
  Payload : option bytes      (* None is a nil json.RawMessage *)
}.

Definition zero_event : Event := mkEvent "" "" "" "" "" "" "" 0 "" None.

#[global] Instance event_eq_dec : EqDecision Event.
Proof. solve_decision. Defined.

Definition SessionKey (tenant project sessionID : string) : string :=
  TrimSpace tenant +:+ "/" +:+ TrimSpace project +:+ "/" +:+ TrimSpace sessionID.

Inductive envelope_err :=
| TypeRequired | TenantRequired | ProjectRequired | SessionRequired | AgentRequired
| BadPayload.                 (* json.Marshal refuses the raw payload *)

(** [Validate]: the first missing field. *)
Definition Validate (e : Event) : option envelope_err :=
  if decide (TrimSpace (Type_ e) = "") then Some TypeRequired
  else if decide (TrimSpace (Tenant e) = "") then Some TenantRequired
  else if decide (TrimSpace (Project e) = "") then Some ProjectRequired
  else if decide (TrimSpace (SessionID e) = "") then Some SessionRequired
  else if decide (TrimSpace (AgentID e) = "") then Some AgentRequired
  else None.

(** The members [json.Marshal] writes, [raw] the encoded payload. *)
Definition event_fields (e : Event) (raw : bytes) : list (string * bytes) :=
  [("version"%string, enc_string (Version e)); ("type"%string, enc_string (Type_ e));
   ("tenant"%string, enc_string (Tenant e)); ("project"%string, enc_string (Project e));
   ("session_id"%string, enc_string (SessionID e)); ("agent_id"%string, enc_string (AgentID e))] ++
  (if decide (Step e = "") then [] else [("step"%string, enc_string (Step e))]) ++
  (if Attempt e =? 0 then [] else [("attempt"%string, format_int (Attempt e))]) ++
  [("created_at"%string, enc_string (CreatedAt e)); ("payload"%string, raw)].

Definition json_event (e : Event) : option bytes :=
  raw ← (match Payload e with None => Some (bs_of "null") | Some p => compact p end);
  Some (enc_object (event_fields e raw)).

(** [Event.Marshal] at time [now]. *)
Definition Marshal (now : Z) (e : Event) : result envelope_err bytes :=
  let out := {| e with
    Version := if decide (Version e = "") then "v1"%string else Version e;
    CreatedAt := if decide (CreatedAt e = "") then str_of (Time.Format now) else CreatedAt e;
    Payload := match Payload e with None => Some (bs_of "{}") | Some p => Some p end |} in
  match Validate out with
  | Some err => Err err
  | None => match json_event out with
            | Some data => Ok data
            | None => Err BadPayload
            end
  end.

(** The assignment of one member by [json.Unmarshal]. *)
Definition set_event (key raw : bytes) (v : json) (e : Event) : option Event :=
  if field_is "version" key then x ← dec_string v (Version e); Some {| e with Version := x |}
  else if field_is "type" key then x ← dec_string v (Type_ e); Some {| e with Type_ := x |}
  else if field_is "tenant" key then x ← dec_string v (Tenant e); Some {| e with Tenant := x |}
  else if field_is "project" key then x ← dec_string v (Project e); Some {| e with Project := x |}
  else if field_is "session_id" key then x ← dec_string v (SessionID e); Some {| e with SessionID := x |}
  else if field_is "agent_id" key then x ← dec_string v (AgentID e); Some {| e with AgentID := x |}
  else if field_is "step" key then x ← dec_string v (Step e); Some {| e with Step := x |}
  else if field_is "attempt" key then x ← dec_int v (Attempt e); Some {| e with Attempt := x |}
  else if field_is "created_at" key then x ← dec_string v (CreatedAt e); Some {| e with CreatedAt := x |}
  else if field_is "payload" key then Some {| e with Payload := Some raw |}
  else Some e.

Definition ParseEvent (payload : bytes) : option Event :=
  if decide (payload = []) then None
  else if negb (valid payload) then None
  else
    ev ← unmarshal set_event zero_event payload;
    match Validate ev with None => Some ev | Some _ => None end.

(** [PeekEnvelope] of otel.go: no trimming, and the project and agent may be missing. *)
Definition PeekEnvelope (payload : bytes) : option Event :=
  match payload with
  | b :: _ =>
      if isc 123 b then
        ev ← unmarshal set_event zero_event payload;
        if decide (Tenant ev = "" \/ SessionID ev = "" \/ Type_ ev = "") then None else Some ev
      else None
  | [] => None
  end.

(** ** retry.go *)

Definition DecideRetryRoute (currentAttempt maxAttempts : Z) : bool * Z :=
  let currentAttempt := if currentAttempt <? 1 then 1 else currentAttempt in
  let nextAttempt := i64 (currentAttempt + 1) in
  if maxAttempts <=? 0 then (false, nextAttempt) else (maxAttempts <? nextAttempt, nextAttempt).

Definition ResolveDLQTopic (primaryTopic dlqTopic : string) : string :=
  if decide (TrimSpace dlqTopic = "") then primaryTopic +:+ ".dlq" else TrimSpace dlqTopic.

Definition has_suffix (s suffix : bytes) : bool :=
  bool_decide (drop (length s - length suffix) s = suffix).

Definition IsDLQTopic (topic : string) : bool := has_suffix (bs_of (TrimSpace topic)) (bs_of ".dlq").

(** ** The JSON round trip *)

(** A payload that compaction leaves alone and that parses, inside an object too. *)
Definition payload_text (raw : bytes) : Prop :=
  stable Outside Outside raw /\ exists v, forall d, d <= 1 -> reads d raw v.

Definition strings_ok (e : Event) : Prop :=
  utf8_ok (Version e) /\ utf8_ok (Type_ e) /\ utf8_ok (Tenant e) /\ utf8_ok (Project e) /\
  utf8_ok (SessionID e) /\ utf8_ok (AgentID e) /\ utf8_ok (Step e) /\ utf8_ok (CreatedAt e).

(** What the members of an envelope parse to. *)
Definition event_vals (e : Event) (v : json) : list json :=
  [JStr (bs_of (Version e)); JStr (bs_of (Type_ e)); JStr (bs_of (Tenant e)); JStr (bs_of (Project e));
   JStr (bs_of (SessionID e)); JStr (bs_of (AgentID e))] ++
  (if decide (Step e = "") then [] else [JStr (bs_of (Step e))]) ++
  (if Attempt e =? 0 then [] else [JNum (format_int (Attempt e))]) ++
  [JStr (bs_of (CreatedAt e)); v].

Lemma event_fields_read d e raw v :
  strings_ok e -> reads d raw v ->
  Forall2 (fun f w => reads d f.2 w) (event_fields e raw) (event_vals e v).
Proof.
  intros (? & ? & ? & ? & ? & ? & ? & ?) Hv. unfold event_fields, event_vals.
  destruct (decide (Step e = "")), (Attempt e =? 0); cbn [app];
    repeat first [apply List.Forall2_nil
                 |apply List.Forall2_cons;
                   [by first [apply reads_enc_string|apply reads_int|exact Hv]|]].
Qed.

Lemma event_fields_names e raw : Forall (fun f => utf8_ok f.1) (event_fields e raw).
Proof.
  unfold event_fields. destruct (decide (Step e = "")), (Attempt e =? 0); cbn [app];
    by repeat constructor.
Qed.

Lemma set_version raw s e :
  set_event (bs_of "version") raw (JStr (bs_of s)) e = Some {| e with Version := s |}.
Proof. unfold set_event. eval_fields. simpl. by rewrite str_of_bs. Qed.
Lemma set_type raw s e :
  set_event (bs_of "type") raw (JStr (bs_of s)) e = Some {| e with Type_ := s |}.
Proof. unfold set_event. eval_fields. simpl. by rewrite str_of_bs. Qed.
Lemma set_tenant raw s e :
  set_event (bs_of "tenant") raw (JStr (bs_of s)) e = Some {| e with Tenant := s |}.
Proof. unfold set_event. eval_fields. simpl. by rewrite str_of_bs. Qed.
Lemma set_project raw s e :
  set_event (bs_of "project") raw (JStr (bs_of s)) e = Some {| e with Project := s |}.
Proof. unfold set_event. eval_fields. simpl. by rewrite str_of_bs. Qed.
Lemma set_session_id raw s e :
  set_event (bs_of "session_id") raw (JStr (bs_of s)) e = Some {| e with SessionID := s |}.
Proof. unfold set_event. eval_fields. simpl. by rewrite str_of_bs. Qed.
Lemma set_agent_id raw s e :
  set_event (bs_of "agent_id") raw (JStr (bs_of s)) e = Some {| e with AgentID := s |}.
Proof. unfold set_event. eval_fields. simpl. by rewrite str_of_bs. Qed.
Lemma set_step raw s e :
  set_event (bs_of "step") raw (JStr (bs_of s)) e = Some {| e with Step := s |}.
Proof. unfold set_event. eval_fields. simpl. by rewrite str_of_bs. Qed.
Lemma set_created_at raw s e :
  set_event (bs_of "created_at") raw (JStr (bs_of s)) e = Some {| e with CreatedAt := s |}.
Proof. unfold set_event. eval_fields. simpl. by rewrite str_of_bs. Qed.
Lemma set_attempt raw z e :
  in_i64 z -> set_event (bs_of "attempt") raw (JNum (format_int z)) e = Some {| e with Attempt := z |}.
Proof. intros. unfold set_event. eval_fields. simpl. by rewrite parse_format_int. Qed.
Lemma set_payload raw v e :
  set_event (bs_of "payload") raw v e = Some {| e with Payload := Some raw |}.
Proof. unfold set_event. eval_fields. done. Qed.

Lemma dec_members_cons {A} (set : bytes -> bytes -> json -> A -> option A) key raw v m a a' :
  set key raw v a = Some a' -> dec_members set (MCons key raw v m) a = dec_members set m a'.
Proof. intros H. simpl. by rewrite H. Qed.

Ltac set_fields :=
  repeat first
    [erewrite dec_members_cons by
       first [apply set_version|apply set_type|apply set_tenant|apply set_project|apply set_session_id
             |apply set_agent_id|apply set_step|apply set_created_at|apply set_payload|by apply set_attempt];
     cbn [Version Type_ Tenant Project SessionID AgentID Step Attempt CreatedAt Payload]].

#[local] Opaque set_event bs_of.

Lemma decode_event e raw v :
  in_i64 (Attempt e) ->
  dec_members set_event (members_of (event_fields e raw) (event_vals e v)) zero_event =
    Some {| e with Payload := Some raw |}.
Proof.
  intros Ha. unfold event_fields, event_vals, zero_event.
  destruct (decide (Step e = "")) as [Es|Es], (Attempt e =? 0) eqn:Ea; go_bool;
    cbn [app members_of]; set_fields; cbn [dec_members]; destruct e; simpl in *; by subst.
Qed.

#[local] Transparent set_event bs_of.

Lemma event_fields_stable e raw :
  stable Outside Outside raw -> Forall (fun f => stable Outside Outside f.2) (event_fields e raw).
Proof.
  intros Hr. unfold event_fields.
  destruct (decide (Step e = "")), (Attempt e =? 0); cbn [app];
    repeat constructor; try apply stable_quote; try apply stable_int; done.
Qed.

Lemma json_event_roundtrip e raw :
  strings_ok e -> in_i64 (Attempt e) -> Payload e = Some raw -> payload_text raw ->
  exists data, json_event e = Some data /\ data <> [] /\ valid data = true /\
    unmarshal set_event zero_event data = Some e.
Proof.
  intros Hs Ha Hp [Hst (v & Hv)]. unfold json_event. rewrite Hp.
  assert (valid raw = true) as Hval. { unfold valid. by rewrite (reads_parse raw v) by (apply Hv; lia). }
  rewrite (compact_stable raw Hst Hval). cbn [mbind option_bind]. eexists. split; [done|]. split; [done|].
  assert (event_fields e raw <> []) as Hne by done.
  pose proof (event_fields_read 1 e raw v Hs (Hv 1 ltac:(lia))) as HF.
  pose proof (event_fields_names e raw) as HN. split.
  - unfold valid. by rewrite (reads_parse _ (JObj (members_of (event_fields e raw) (event_vals e v))))
      by (by apply reads_object).
  - rewrite (unmarshal_object _ _ _ (event_vals e v)) by done. rewrite decode_event by done.
    f_equal. destruct e. simpl in *. by subst.
Qed.

Lemma marshal_parse e raw now :
  strings_ok e -> in_i64 (Attempt e) -> Payload e = Some raw -> payload_text raw ->
  Version e <> "" -> CreatedAt e <> "" -> Validate e = None ->
  exists data, Marshal now e = Ok data /\ ParseEvent data = Some e.
Proof.
  intros Hs Ha Hp Ht HV HC Hok. unfold Marshal. rewrite Hp, !decide_False by done.
  assert ({| e with Version := Version e; CreatedAt := CreatedAt e; Payload := Some raw |} = e) as ->.
  { destruct e. simpl in *. by subst. }
  rewrite Hok. destruct (json_event_roundtrip e raw) as (data & -> & Hne & Hv & Hu); [done..|].
  exists data. split; [done|]. unfold ParseEvent. rewrite decide_False, Hv, Hu by done. simpl. by rewrite Hok.
Qed.

(** ** Session keys *)

Fixpoint no_slash (s : string) : bool :=
  match s with
  | EmptyString => true
  | String a s => negb (Ascii.eqb a (Ascii.ascii_of_byte Byte.x2f)) && no_slash s
  end.

Lemma slash_split a b r r' :
  no_slash a = true -> no_slash b = true -> a +:+ "/" +:+ r = b +:+ "/" +:+ r' -> a = b /\ r = r'.
Proof.
  revert b. induction a as [|x a IH]; intros [|y b] Ha Hb H; simpl in *; simplify_eq.
  - done.
  - apply andb_prop in Ha as [_ Ha], Hb as [_ Hb]. destruct (IH b) as [-> ->]; done.
Qed.

(** Session keys identify sessions: as long as tenants and projects hold no slash,
    two sessions share a key exactly when their three names agree up to surrounding
    white space. (With a slash they need not: ["a/b"] and ["c"] give the key of
    ["a"] and ["b/c"].) *)
Theorem session_key_identifies t p s t' p' s' :
  no_slash (TrimSpace t) = true -> no_slash (TrimSpace p) = true ->
  no_slash (TrimSpace t') = true -> no_slash (TrimSpace p') = true ->
  SessionKey t p s = SessionKey t' p' s' <->
  TrimSpace t = TrimSpace t' /\ TrimSpace p = TrimSpace p' /\ TrimSpace s = TrimSpace s'.
Proof.
  intros Ht Hp Ht' Hp'. unfold SessionKey. split.
  - intros H. apply slash_split in H as [-> H]; [|done..]. by apply slash_split in H as [-> ->].
  - by intros (-> & -> & ->).
Qed.

Lemma session_key_identifies_witness :
  SessionKey "acme" " research" "run-1/a" = SessionKey "acme " "research" "run-1/a" <->
  TrimSpace "acme" = TrimSpace "acme " /\ TrimSpace " research" = TrimSpace "research" /\
  TrimSpace "run-1/a" = TrimSpace "run-1/a".
Proof.
  apply (session_key_identifies "acme" " research" "run-1/a" "acme " "research" "run-1/a");
    vm_compute; reflexivity.
Defined.

Lemma session_key_collision : SessionKey "a/b" "c" "s" = SessionKey "a" "b/c" "s".
Proof. reflexivity. Qed.

(** An envelope that is published and read back is the envelope that was published:
    [ParseEvent] of what [Marshal] wrote returns every field, the raw payload included,
    for valid UTF-8 fields, a 64-bit attempt and a payload [json.Marshal] produced. *)
Theorem envelope_roundtrip e raw now :
  strings_ok e -> in_i64 (Attempt e) -> Payload e = Some raw -> payload_text raw ->
  Version e <> "" -> CreatedAt e <> "" -> Validate e = None ->
  exists data, Marshal now e = Ok data /\ ParseEvent data = Some e.
Proof. apply marshal_parse. Qed.

Definition sample_event : Event :=
  mkEvent "v1" "wf.leased" "acme" "research" "run-1" "w<1>" "" 2 "2026-01-02T03:04:05.5Z"
    (Some (enc_object [("worker_id"%string, enc_string "w<1>")])).

Lemma envelope_roundtrip_witness :
  exists data, Marshal 0 sample_event = Ok data /\ ParseEvent data = Some sample_event.
Proof.
  apply (envelope_roundtrip sample_event (enc_object [("worker_id"%string, enc_string "w<1>")]) 0).
  - unfold strings_ok, utf8_ok. simpl. split_and!; vm_compute; reflexivity.
  - unfold in_i64. simpl. lia.
  - reflexivity.
  - split; [apply stable_object; repeat constructor; apply stable_quote|].
    exists (JObj (members_of [("worker_id"%string, enc_string "w<1>")] [JStr (bs_of "w<1>")])).
    intros d Hd. apply reads_object.
    + discriminate.
    + repeat constructor.
    + unfold maxNestingDepth. lia.
    + constructor; [|constructor]. apply reads_enc_string. vm_compute. reflexivity.
  - discriminate.
  - discriminate.
  - vm_compute. reflexivity.
Defined.

End Envelope.
