(* ===== verification/WfState.v ===== *)
(** * Workflow events and the fold of one execution (internal/workflow: event.go, state.go)

    The payloads of the workflow events with their JSON forms, [newEnvelope], and
    [Execution.apply]: the fold that turns the events of the log into the state of
    an execution. The theorems: terminal states absorb every event, attempts count
    granted leases, the fold does not look at the runtime flags, re-delivered
    events change nothing except for retries and heartbeats, and what a re-delivered
    retry does. *)

From S2P Require Import Prelude GoLib GoJson GoTime AgentStream.
Import Json Envelope.
Open Scope Z_scope.

Module Workflow.

(** ** event.go *)

Definition Topic : string := "workflow-events".
Definition CoordinatorAgentID : string := "wf-coordinator".

Definition EventSubmitted : string := "wf.submitted".
Definition EventLeased : string := "wf.leased".
Definition EventHeartbeat : string := "wf.heartbeat".
Definition EventCompleted : string := "wf.completed".
Definition EventFailed : string := "wf.failed".
Definition EventRetry : string := "wf.retry".
Definition EventDead : string := "wf.dead".

Record SubmitPayload := mkSubmit {
  sp_TaskType : string; sp_Input : bytes; sp_MaxAttempts : Z; sp_LeaseTTLMS : Z }.
Record LeasePayload := mkLeaseP { lp_WorkerID : string }.
Record CompletePayload := mkComplete { cp_WorkerID : string; cp_Result : bytes }.
Record FailPayload := mkFail { fp_WorkerID : string; fp_Error : string; fp_Retryable : bool }.
Record ReasonPayload := mkReason { rp_Reason : string }.

Definition ReasonLeaseExpired : string := "lease_expired".
Definition ReasonAttemptFailed : string := "attempt_failed".
Definition ReasonNotRetryable : string := "not_retryable".
Definition ReasonAttemptsExhausted : string := "attempts_exhausted".

(** *** The JSON of the payloads, as their struct tags say *)

Definition omit_empty (name : string) (b : bytes) : list (string * bytes) :=
  if decide (b = []) then [] else [(name, enc_bytes b)].

Definition marshal_submit (p : SubmitPayload) : bytes :=
  enc_object ([("task_type"%string, enc_string (sp_TaskType p))] ++ omit_empty "input" (sp_Input p) ++
    [("max_attempts"%string, format_int (sp_MaxAttempts p));
     ("lease_ttl_ms"%string, format_int (sp_LeaseTTLMS p))]).

Definition marshal_lease (p : LeasePayload) : bytes :=
  enc_object [("worker_id"%string, enc_string (lp_WorkerID p))].

Definition marshal_complete (p : CompletePayload) : bytes :=
  enc_object ([("worker_id"%string, enc_string (cp_WorkerID p))] ++ omit_empty "result" (cp_Result p)).

Definition marshal_fail (p : FailPayload) : bytes :=
  enc_object [("worker_id"%string, enc_string (fp_WorkerID p)); ("error"%string, enc_string (fp_Error p));
              ("retryable"%string, enc_bool (fp_Retryable p))].

Definition marshal_reason (p : ReasonPayload) : bytes :=
  enc_object [("reason"%string, enc_string (rp_Reason p))].

Definition set_submit (key raw : bytes) (v : json) (p : SubmitPayload) : option SubmitPayload :=
  if field_is "task_type" key then x ← dec_string v (sp_TaskType p); Some {| p with sp_TaskType := x |}
  else if field_is "input" key then x ← dec_bytes v (sp_Input p); Some {| p with sp_Input := x |}
  else if field_is "max_attempts" key then
    x ← dec_int v (sp_MaxAttempts p); Some {| p with sp_MaxAttempts := x |}
  else if field_is "lease_ttl_ms" key then
    x ← dec_int v (sp_LeaseTTLMS p); Some {| p with sp_LeaseTTLMS := x |}
  else Some p.

Definition set_lease (key raw : bytes) (v : json) (p : LeasePayload) : option LeasePayload :=
  if field_is "worker_id" key then x ← dec_string v (lp_WorkerID p); Some (mkLeaseP x) else Some p.

Definition set_complete (key raw : bytes) (v : json) (p : CompletePayload) : option CompletePayload :=
  if field_is "worker_id" key then x ← dec_string v (cp_WorkerID p); Some {| p with cp_WorkerID := x |}
  else if field_is "result" key then x ← dec_bytes v (cp_Result p); Some {| p with cp_Result := x |}
  else Some p.

Definition set_fail (key raw : bytes) (v : json) (p : FailPayload) : option FailPayload :=
  if field_is "worker_id" key then x ← dec_string v (fp_WorkerID p); Some {| p with fp_WorkerID := x |}
  else if field_is "error" key then x ← dec_string v (fp_Error p); Some {| p with fp_Error := x |}
  else if field_is "retryable" key then x ← dec_bool v (fp_Retryable p); Some {| p with fp_Retryable := x |}
  else Some p.

Definition set_reason (key raw : bytes) (v : json) (p : ReasonPayload) : option ReasonPayload :=
  if field_is "reason" key then x ← dec_string v (rp_Reason p); Some (mkReason x) else Some p.

(** [json.Unmarshal] of an event's payload; a nil payload is not JSON. *)
Definition unmarshal_payload {A} (set : bytes -> bytes -> json -> A -> option A) (zero : A) (e : Event) :
    option A :=
  match Payload e with Some raw => unmarshal set zero raw | None => None end.

Definition submit_of (e : Event) : option SubmitPayload :=
  unmarshal_payload set_submit (mkSubmit "" [] 0 0) e.
Definition lease_of (e : Event) : option LeasePayload := unmarshal_payload set_lease (mkLeaseP "") e.
Definition complete_of (e : Event) : option CompletePayload :=
  unmarshal_payload set_complete (mkComplete "" []) e.
Definition fail_of (e : Event) : option FailPayload := unmarshal_payload set_fail (mkFail "" "" false) e.
Definition reason_of (e : Event) : option ReasonPayload := unmarshal_payload set_reason (mkReason "") e.

(** [newEnvelope]; marshalling these payloads never fails, so neither does it. *)
Definition newEnvelope (evType tenant project workflowID agentID : string) (attempt : Z)
    (payload : bytes) (now : Z) : Event :=
  mkEvent "v1" evType tenant project workflowID agentID "" attempt (str_of (Time.Format now))
    (Some payload).

Definition IsWorkflowEvent (evType : string) : bool :=
  bool_decide (evType ∈ [EventSubmitted; EventLeased; EventHeartbeat; EventCompleted; EventFailed;
                         EventRetry; EventDead]).

Definition eventTime (e : Event) : Z :=
  match Time.Parse (bs_of (CreatedAt e)) with Some t => t | None => 0 end.

(** ** state.go *)

Inductive Status := StatusPending | StatusRunning | StatusRetrying | StatusCompleted | StatusFailed.

#[global] Instance status_eq_dec : EqDecision Status.
Proof. solve_decision. Defined.

Record Transition := mkTransition {
  tr_EventType : string; tr_Status : Status; tr_Attempt : Z; tr_WorkerID : string;
  tr_Detail : string; tr_At : Z }.

Record Execution := mkExecution {
  x_Tenant : string; x_Project : string; x_WorkflowID : string;
  x_TaskType : string; x_Status : Status; x_Attempt : Z; x_MaxAttempts : Z; x_LeaseTTL : Z;
  x_WorkerID : string; x_Input : bytes; x_Result : bytes; x_Error : string;
  x_SubmittedAt : Z; x_UpdatedAt : Z; x_LeaseDeadline : Z;
  x_Transitions : list Transition;
  x_reserved : bool; x_completing : bool }.

Definition Key (x : Execution) : string := SessionKey (x_Tenant x) (x_Project x) (x_WorkflowID x).

Definition Terminal (x : Execution) : bool :=
  match x_Status x with StatusCompleted | StatusFailed => true | _ => false end.

Definition is_status (x : Execution) (st : Status) : bool := bool_decide (x_Status x = st).

(** [record]. *)
Definition record_ (evType : string) (attempt : Z) (worker detail : string) (at_ : Z) (x : Execution) :
    Execution :=
  {| x with x_UpdatedAt := at_;
            x_Transitions := x_Transitions x ++
              [mkTransition evType (x_Status x) attempt worker detail at_] |}.

Definition apply_leased (x : Execution) (e : Event) : Execution * bool :=
  match lease_of e with
  | None => (x, false)
  | Some p =>
      if Terminal x || negb (is_status x StatusPending) || negb (Attempt e =? i64 (x_Attempt x + 1))
      then (x, false)
      else
        let at_ := eventTime e in
        (record_ EventLeased (Attempt e) (lp_WorkerID p) "" at_
           {| x with x_Status := StatusRunning; x_Attempt := Attempt e; x_WorkerID := lp_WorkerID p;
                     x_LeaseDeadline := at_ + x_LeaseTTL x; x_reserved := false |}, true)
  end.

Definition apply_heartbeat (x : Execution) (e : Event) : Execution * bool :=
  match lease_of e with
  | None => (x, false)
  | Some p =>
      if negb (is_status x StatusRunning) || negb (Attempt e =? x_Attempt x) ||
         negb (bool_decide (lp_WorkerID p = x_WorkerID x))
      then (x, false)
      else
        let at_ := eventTime e in
        ({| x with x_LeaseDeadline := at_ + x_LeaseTTL x; x_UpdatedAt := at_ |}, true)
  end.

Definition apply_completed (x : Execution) (e : Event) : Execution * bool :=
  match complete_of e with
  | None => (x, false)
  | Some p =>
      if Terminal x || negb (Attempt e =? x_Attempt x) || (Attempt e =? 0) then (x, false)
      else
        (record_ EventCompleted (Attempt e) (cp_WorkerID p) "" (eventTime e)
           {| x with x_Status := StatusCompleted; x_Result := cp_Result p; x_WorkerID := cp_WorkerID p;
                     x_completing := false |}, true)
  end.

Definition apply_failed (x : Execution) (e : Event) : Execution * bool :=
  match fail_of e with
  | None => (x, false)
  | Some p =>
      if Terminal x || negb (is_status x StatusRunning) || negb (Attempt e =? x_Attempt x) then (x, false)
      else
        (record_ EventFailed (Attempt e) (fp_WorkerID p) (fp_Error p) (eventTime e)
           {| x with x_Status := StatusRetrying; x_Error := fp_Error p |}, true)
  end.

Definition apply_retry (x : Execution) (e : Event) : Execution * bool :=
  match reason_of e with
  | None => (x, false)
  | Some p =>
      if Terminal x || is_status x StatusPending then (x, false)
      else
        (record_ EventRetry (x_Attempt x) "" (rp_Reason p) (eventTime e)
           {| x with x_Status := StatusPending; x_WorkerID := ""%string; x_LeaseDeadline := 0 |}, true)
  end.

Definition apply_dead (x : Execution) (e : Event) : Execution * bool :=
  match reason_of e with
  | None => (x, false)
  | Some p =>
      if Terminal x then (x, false)
      else
        (record_ EventDead (x_Attempt x) "" (rp_Reason p) (eventTime e)
           {| x with x_Status := StatusFailed;
                     x_Error := if decide (x_Error x = "") then rp_Reason p else x_Error x |}, true)
  end.

(** [Execution.apply]. *)
Definition apply (x : Execution) (e : Event) : Execution * bool :=
  if decide (Type_ e = EventLeased) then apply_leased x e
  else if decide (Type_ e = EventHeartbeat) then apply_heartbeat x e
  else if decide (Type_ e = EventCompleted) then apply_completed x e
  else if decide (Type_ e = EventFailed) then apply_failed x e
  else if decide (Type_ e = EventRetry) then apply_retry x e
  else if decide (Type_ e = EventDead) then apply_dead x e
  else (x, false).

(** [newExecution]. *)
Definition newExecution (e : Event) : option Execution :=
  p ← submit_of e;
  if decide (sp_TaskType p = "") then None
  else
    let at_ := eventTime e in
    Some (record_ EventSubmitted 0 (AgentID e) (sp_TaskType p) at_
      (mkExecution (Tenant e) (Project e) (SessionID e) (sp_TaskType p) StatusPending 0
         (sp_MaxAttempts p) (i64 (sp_LeaseTTLMS p * Time.millisecond)) "" (sp_Input p) [] ""
         at_ 0 0 [] false false)).

(** The fold of a list of events. *)
Definition apply_all (x : Execution) (es : list Event) : Execution :=
  fold_left (fun x e => (apply x e).1) es x.

(** ** The cases of the fold *)

Ltac apply_cases :=
  unfold apply in *; repeat case_decide;
  unfold apply_leased, apply_heartbeat, apply_completed, apply_failed, apply_retry, apply_dead in *;
  repeat case_match; simplify_eq; go_bool.

(** The transitions an accepted event can make, with the attempt afterwards. *)
Inductive transition (x : Execution) (e : Event) : Status -> Z -> Prop :=
| t_leased : Type_ e = EventLeased -> x_Status x = StatusPending ->
    Attempt e = i64 (x_Attempt x + 1) -> transition x e StatusRunning (Attempt e)
| t_heartbeat : Type_ e = EventHeartbeat -> x_Status x = StatusRunning ->
    Attempt e = x_Attempt x -> transition x e StatusRunning (x_Attempt x)
| t_completed : Type_ e = EventCompleted -> Terminal x = false ->
    Attempt e = x_Attempt x -> x_Attempt x <> 0 -> transition x e StatusCompleted (x_Attempt x)
| t_failed : Type_ e = EventFailed -> x_Status x = StatusRunning ->
    Attempt e = x_Attempt x -> transition x e StatusRetrying (x_Attempt x)
| t_retry : Type_ e = EventRetry -> x_Status x = StatusRunning \/ x_Status x = StatusRetrying ->
    transition x e StatusPending (x_Attempt x)
| t_dead : Type_ e = EventDead -> Terminal x = false -> transition x e StatusFailed (x_Attempt x).

Lemma is_status_spec x st : is_status x st = true <-> x_Status x = st.
Proof. unfold is_status. apply bool_decide_eq_true. Qed.

Lemma is_status_false x st : is_status x st = false <-> x_Status x <> st.
Proof. unfold is_status. apply bool_decide_eq_false. Qed.

(** The fields no event changes. *)
Definition same_identity (x x' : Execution) : Prop :=
  x_Tenant x' = x_Tenant x /\ x_Project x' = x_Project x /\ x_WorkflowID x' = x_WorkflowID x /\
  x_TaskType x' = x_TaskType x /\ x_MaxAttempts x' = x_MaxAttempts x /\ x_LeaseTTL x' = x_LeaseTTL x /\
  x_Input x' = x_Input x /\ x_SubmittedAt x' = x_SubmittedAt x.

Lemma apply_rejected x e x' : apply x e = (x', false) -> x' = x.
Proof. intros H. apply_cases; done. Qed.

Lemma apply_accepted x e x' :
  apply x e = (x', true) -> transition x e (x_Status x') (x_Attempt x') /\ same_identity x x'.
Proof.
  intros H. apply_cases; simpl in *;
    repeat match goal with
    | H : is_status _ _ = true |- _ => apply is_status_spec in H
    | H : is_status _ _ = false |- _ => apply is_status_false in H
    end; (split; [|unfold same_identity; simpl; done]).
  - by apply t_leased.
  - replace (x_Status x) with StatusRunning by done. by apply t_heartbeat.
  - apply t_completed; congruence.
  - by apply t_failed.
  - apply t_retry; [done|]. unfold Terminal in *. destruct (x_Status x); auto; done.
  - by apply t_dead.
  - by apply t_dead.
Qed.

Lemma apply_identity x e : same_identity x (apply x e).1.
Proof.
  destruct (apply x e) as [x' [|]] eqn:E; simpl.
  - by apply apply_accepted in E as [_ ?].
  - apply apply_rejected in E as ->. by unfold same_identity.
Qed.

Lemma terminal_rejects x e : Terminal x = true -> apply x e = (x, false).
Proof.
  intros Ht. destruct (apply x e) as [x' [|]] eqn:E; [|by apply apply_rejected in E as ->].
  apply apply_accepted in E as [E _].
  destruct E as [_ H|_ H|_ H|_ H|_ [H|H]|_ H]; unfold Terminal in *; destruct (x_Status x); congruence.
Qed.

Lemma terminal_rejects_all x es : Terminal x = true -> apply_all x es = x.
Proof. intros Ht. induction es as [|e es IH]; [done|]. unfold apply_all in *. simpl. by rewrite terminal_rejects. Qed.

(** ** Claims about the fold *)

(** Terminal states are final: a completed or failed execution is unchanged by any
    sequence of events, so its result, error and history never change again. *)
Theorem terminal_absorbs x es e :
  Terminal x = true -> apply_all x es = x /\ apply (apply_all x es) e = (x, false).
Proof. intros Ht. rewrite terminal_rejects_all by done. split; [done|]. by apply terminal_rejects. Qed.

(** A run-time flag does not reach the folded fields. *)
Definition folded (x : Execution) : Execution := {| x with x_reserved := false; x_completing := false |}.

Lemma folded_apply x e :
  (apply (folded x) e).2 = (apply x e).2 /\ folded (apply (folded x) e).1 = folded (apply x e).1.
Proof.
  destruct x as [a1 a2 a3 a4 st a6 a7 a8 a9 a10 a11 a12 a13 a14 a15 a16 res comp].
  unfold apply. repeat case_decide; [..|done];
    unfold apply_leased, apply_heartbeat, apply_completed, apply_failed, apply_retry, apply_dead;
    (case_match; [|done]); unfold Terminal, is_status, folded, record_; simpl; case_match; done.
Qed.

(** The fold is deterministic in the events: the flags the coordinator keeps in an
    execution ([reserved], [completing]) influence neither which events are accepted nor
    any other field, so a store rebuilt from the log folds to the same executions. *)
Theorem fold_ignores_runtime_flags x y es e :
  folded x = folded y ->
  folded (apply_all x es) = folded (apply_all y es) /\
  (apply (apply_all x es) e).2 = (apply (apply_all y es) e).2.
Proof.
  intros H. assert (folded (apply_all x es) = folded (apply_all y es)) as HF.
  { revert x y H. induction es as [|e' es IH]; intros x y H; [done|]. apply (IH (apply x e').1 (apply y e').1).
    rewrite <- (proj2 (folded_apply x e')), <- (proj2 (folded_apply y e')). by rewrite H. }
  split; [done|].
  by rewrite <- (proj1 (folded_apply (apply_all x es) e)), <- (proj1 (folded_apply (apply_all y es) e)), HF.
Qed.

Lemma apply_attempt x e :
  0 <= x_Attempt x < 2 ^ 63 - 1 ->
  x_Attempt (apply x e).1 = x_Attempt x \/
  (x_Attempt (apply x e).1 = x_Attempt x + 1 /\ x_Status x = StatusPending /\
   x_Status (apply x e).1 = StatusRunning).
Proof.
  intros Hx. destruct (apply x e) as [x' [|]] eqn:E; simpl; [|apply apply_rejected in E as ->; by left].
  apply apply_accepted in E as [E _]. destruct E as [_ Hp Ha| | | | |]; try (by left).
  right. rewrite Ha, wrap_s_small by (simpl; lia). done.
Qed.

(** An invariant of the executions whose attempts stay below the integer range. *)
Lemma apply_all_ind (P : Execution -> Prop) x es :
  (forall x e, 0 <= x_Attempt x < 2 ^ 63 - 1 -> P x -> P (apply x e).1) ->
  0 <= x_Attempt x -> x_Attempt x + zlen es < 2 ^ 63 -> P x ->
  P (apply_all x es) /\ x_Attempt x <= x_Attempt (apply_all x es) <= x_Attempt x + zlen es.
Proof.
  intros HP. revert x. induction es as [|e es IH]; intros x H0 Hn Hx; cbn [length] in *.
  - unfold apply_all. simpl. split; [done|lia].
  - change (apply_all x (e :: es)) with (apply_all (apply x e).1 es).
    pose proof (apply_attempt x e ltac:(lia)) as Ha.
    destruct (IH (apply x e).1) as [? ?]; [lia|lia|apply HP; done || lia|]. split; [done|lia].
Qed.

Definition leases (x : Execution) : list Transition :=
  filter (fun t => tr_EventType t = EventLeased) (x_Transitions x).

Lemma leases_apply x e :
  0 <= x_Attempt x < 2 ^ 63 - 1 ->
  map tr_Attempt (leases x) = seqZ 1 (x_Attempt x) ->
  map tr_Attempt (leases (apply x e).1) = seqZ 1 (x_Attempt (apply x e).1).
Proof.
  intros Hx HL. unfold leases in *. unfold apply. repeat case_decide; [..|done].
  all: unfold apply_leased, apply_heartbeat, apply_completed, apply_failed, apply_retry, apply_dead.
  all: case_match; [|done]; case_match; [done|]; unfold record_; simpl; try done.
  all: rewrite list.filter_app, map_app, HL.
  1: { rewrite filter_cons_True, filter_nil by done. simpl. go_bool.
       match goal with H : Attempt e = _ |- _ => rewrite H, wrap_s_small by (simpl; lia) end.
       rewrite (seqZ_app 1 (x_Attempt x) 1) by lia. f_equal. simpl.
       replace (seqZ (1 + x_Attempt x) 1) with [1 + x_Attempt x] by reflexivity. f_equal. lia. }
  all: rewrite filter_cons_False, filter_nil by done; by rewrite app_nil_r.
Qed.

(** Attempts count granted leases: in the history of an execution the attempts of
    the accepted lease events are exactly 1, 2, ..., up to its current attempt. *)
Theorem attempts_count_leases e0 x0 es :
  newExecution e0 = Some x0 -> zlen es < 2 ^ 63 ->
  map tr_Attempt (leases (apply_all x0 es)) = seqZ 1 (x_Attempt (apply_all x0 es)) /\
  0 <= x_Attempt (apply_all x0 es) <= zlen es.
Proof.
  intros H Hn. unfold newExecution in H. destruct (submit_of e0) as [p|]; simpl in H; [|done].
  case_decide; simplify_eq.
  match goal with |- context [apply_all ?x0 es] =>
    destruct (apply_all_ind (fun x => map tr_Attempt (leases x) = seqZ 1 (x_Attempt x)) x0 es) as [? ?] end;
    simpl in *; [|done|lia|done|by split].
  intros. by apply leases_apply.
Qed.

(** ** Re-delivery *)

(** The attempt [a] is over: its lease is not running any more and never will be. *)
Definition attempt_over (a : Z) (x : Execution) : Prop :=
  a < x_Attempt x \/ (x_Attempt x = a /\ x_Status x <> StatusRunning).

Lemma attempt_over_apply a x e :
  0 <= x_Attempt x < 2 ^ 63 - 1 -> attempt_over a x -> attempt_over a (apply x e).1.
Proof.
  intros Hx Ho. unfold attempt_over in *. destruct (apply_attempt x e Hx) as [Ha|(Ha & Hp & Hr)]; [|lia].
  rewrite Ha. destruct Ho as [?|[Ho Hs]]; [by left|]. right. split; [done|].
  destruct (apply x e) as [x' [|]] eqn:E; simpl in *; [|by apply apply_rejected in E as ->].
  apply apply_accepted in E as [E _]. inversion E as [T P A|T R A|T R A|T R A|T R|T R]; try congruence.
  rewrite wrap_s_small in A by (simpl; lia). lia.
Qed.

(** Re-delivery is harmless for the events that advance an execution: once a lease,
    a failure, a completion or a death was folded, delivering it again after any other
    events changes nothing. *)
Theorem redelivery_is_noop x e es :
  Type_ e <> EventRetry -> Type_ e <> EventHeartbeat ->
  0 <= x_Attempt x -> x_Attempt x + zlen es + 2 < 2 ^ 63 ->
  (apply x e).2 = true ->
  let x' := apply_all (apply x e).1 es in apply x' e = (x', false).
Proof.
  intros HR HH H0 Hn Hacc x'. subst x'. pose proof (apply_attempt x e ltac:(lia)) as Hat.
  destruct (apply x e) as [x1 b] eqn:E. simpl in *. subst b.
  destruct (apply (apply_all x1 es) e) as [x2 [|]] eqn:E2; [|by apply apply_rejected in E2 as ->].
  exfalso. apply apply_accepted in E as [E _]. apply apply_accepted in E2 as [E2 _].
  destruct (apply_all_ind (fun _ => True) x1 es) as [_ Hm]; [done|lia..|done|].
  inversion E as [T1 _ A1|T1 _ _|T1 _ _ _|T1 _ A1|T1 _|T1 _]; try congruence.
  - inversion E2 as [T2 _ A2|T2|T2|T2|T2|T2]; try (rewrite T1 in T2; discriminate T2).
    rewrite wrap_s_small in A2 by (simpl; lia). lia.
  - assert (Terminal x1 = true) as Ht by (unfold Terminal; by destruct (x_Status x1)).
    rewrite terminal_rejects_all in E2 by done.
    unfold Terminal in Ht. inversion E2 as [T2|T2|T2 F2|T2|T2|T2 F2];
      try (rewrite T1 in T2; discriminate T2); unfold Terminal in F2; congruence.
  - assert (attempt_over (Attempt e) x1) as Ho. { right. split; [congruence|by destruct (x_Status x1)]. }
    destruct (apply_all_ind (attempt_over (Attempt e)) x1 es) as [Ho' _]; [|lia..|done|].
    { intros. by apply attempt_over_apply. }
    inversion E2 as [T2|T2|T2|T2 R2 A2|T2|T2]; try (rewrite T1 in T2; discriminate T2).
    destruct Ho' as [|[]]; [lia|done].
  - assert (Terminal x1 = true) as Ht by (unfold Terminal; by destruct (x_Status x1)).
    rewrite terminal_rejects_all in E2 by done.
    unfold Terminal in Ht. inversion E2 as [T2|T2|T2 F2|T2|T2|T2 F2];
      try (rewrite T1 in T2; discriminate T2); unfold Terminal in F2; congruence.
Qed.

(** A retry event is accepted by whatever attempt is running when it arrives: its
    attempt is not compared, so a re-delivered retry of an earlier attempt takes the
    lease away from the worker that holds the current one. *)
Theorem stale_retry_requeues x e p :
  Type_ e = EventRetry -> reason_of e = Some p -> x_Status x = StatusRunning ->
  let (x', accepted) := apply x e in
  accepted = true /\ x_Status x' = StatusPending /\ x_WorkerID x' = ""%string /\
  x_Attempt x' = x_Attempt x.
Proof.
  intros HT Hp Hs. unfold apply. rewrite HT. cbn. unfold apply_retry. rewrite Hp.
  unfold Terminal, is_status. rewrite Hs. simpl. done.
Qed.

(** ** The payloads survive the trip through the log *)

Section Payloads.

Lemma omit_empty_read d name b :
  Forall2 (fun f v => reads d f.2 v) (omit_empty name b)
    (if decide (b = []) then [] else [JStr (b64_encode b)]).
Proof. unfold omit_empty. case_decide; constructor; [apply reads_bytes|constructor]. Qed.

Lemma omit_empty_names name b : utf8_ok name -> Forall (fun f => utf8_ok f.1) (omit_empty name b).
Proof. intros. unfold omit_empty. case_decide; by repeat constructor. Qed.

Lemma omit_empty_stable name b : Forall (fun f => stable Outside Outside f.2) (omit_empty name b).
Proof. unfold omit_empty. case_decide; repeat constructor. apply stable_bytes. Qed.

Ltac payload_fields :=
  repeat first [apply List.Forall2_nil
               |apply List.Forall2_cons;
                 [first [by apply reads_enc_string|apply reads_int|apply reads_bool|apply reads_bytes]|]].

Lemma lease_payload d p : utf8_ok (lp_WorkerID p) -> d <= 1 ->
  reads d (marshal_lease p) (JObj (members_of [("worker_id"%string, enc_string (lp_WorkerID p))]
    [JStr (bs_of (lp_WorkerID p))])).
Proof.
  intros. apply reads_object; [done|by repeat constructor|unfold maxNestingDepth; lia|]. payload_fields.
Qed.

Lemma unmarshal_lease p : utf8_ok (lp_WorkerID p) ->
  unmarshal set_lease (mkLeaseP "") (marshal_lease p) = Some p.
Proof.
  intros H. unfold unmarshal. rewrite (reads_parse _ _ (lease_payload 0 p H ltac:(lia))).
  cbn [members_of dec_members]. unfold set_lease. eval_fields. simpl. rewrite str_of_bs. by destruct p.
Qed.

Lemma reason_payload d p : utf8_ok (rp_Reason p) -> d <= 1 ->
  reads d (marshal_reason p) (JObj (members_of [("reason"%string, enc_string (rp_Reason p))]
    [JStr (bs_of (rp_Reason p))])).
Proof.
  intros. apply reads_object; [done|by repeat constructor|unfold maxNestingDepth; lia|]. payload_fields.
Qed.

Lemma unmarshal_reason p : utf8_ok (rp_Reason p) ->
  unmarshal set_reason (mkReason "") (marshal_reason p) = Some p.
Proof.
  intros H. unfold unmarshal. rewrite (reads_parse _ _ (reason_payload 0 p H ltac:(lia))).
  cbn [members_of dec_members]. unfold set_reason. eval_fields. simpl. rewrite str_of_bs. by destruct p.
Qed.

Lemma fail_payload d p : utf8_ok (fp_WorkerID p) -> utf8_ok (fp_Error p) -> d <= 1 ->
  reads d (marshal_fail p) (JObj (members_of
    [("worker_id"%string, enc_string (fp_WorkerID p)); ("error"%string, enc_string (fp_Error p));
     ("retryable"%string, enc_bool (fp_Retryable p))]
    [JStr (bs_of (fp_WorkerID p)); JStr (bs_of (fp_Error p)); JBool (fp_Retryable p)])).
Proof.
  intros. apply reads_object; [done|by repeat constructor|unfold maxNestingDepth; lia|]. payload_fields.
Qed.

Lemma unmarshal_fail p : utf8_ok (fp_WorkerID p) -> utf8_ok (fp_Error p) ->
  unmarshal set_fail (mkFail "" "" false) (marshal_fail p) = Some p.
Proof.
  intros H1 H2. unfold unmarshal. rewrite (reads_parse _ _ (fail_payload 0 p H1 H2 ltac:(lia))).
  cbn [members_of dec_members]. unfold set_fail. eval_fields. simpl. rewrite !str_of_bs. by destruct p.
Qed.

Lemma complete_payload d p : utf8_ok (cp_WorkerID p) -> d <= 1 ->
  reads d (marshal_complete p) (JObj (members_of
    ([("worker_id"%string, enc_string (cp_WorkerID p))] ++ omit_empty "result" (cp_Result p))
    ([JStr (bs_of (cp_WorkerID p))] ++ if decide (cp_Result p = []) then [] else [JStr (b64_encode (cp_Result p))]))).
Proof.
  intros. apply reads_object; [done| |unfold maxNestingDepth; lia|].
  - constructor; [done|]. by apply omit_empty_names.
  - constructor; [by apply reads_enc_string|apply omit_empty_read].
Qed.

Lemma unmarshal_complete p : utf8_ok (cp_WorkerID p) ->
  unmarshal set_complete (mkComplete "" []) (marshal_complete p) = Some p.
Proof.
  intros H. unfold unmarshal. rewrite (reads_parse _ _ (complete_payload 0 p H ltac:(lia))).
  unfold omit_empty. destruct (decide (cp_Result p = [])) as [E|E];
    cbn [app members_of dec_members]; unfold set_complete; eval_fields; simpl; rewrite ?b64_roundtrip, str_of_bs;
    simpl; destruct p; simpl in *; by subst.
Qed.

Lemma submit_payload d p : utf8_ok (sp_TaskType p) -> d <= 1 ->
  reads d (marshal_submit p) (JObj (members_of
    ([("task_type"%string, enc_string (sp_TaskType p))] ++ omit_empty "input" (sp_Input p) ++
     [("max_attempts"%string, format_int (sp_MaxAttempts p)); ("lease_ttl_ms"%string, format_int (sp_LeaseTTLMS p))])
    ([JStr (bs_of (sp_TaskType p))] ++ (if decide (sp_Input p = []) then [] else [JStr (b64_encode (sp_Input p))]) ++
     [JNum (format_int (sp_MaxAttempts p)); JNum (format_int (sp_LeaseTTLMS p))]))).
Proof.
  intros. apply reads_object; [done| |unfold maxNestingDepth; lia|].
  - constructor; [done|]. apply Forall_app. split; [by apply omit_empty_names|by repeat constructor].
  - constructor; [by apply reads_enc_string|]. apply Forall2_app; [apply omit_empty_read|]. payload_fields.
Qed.

Lemma unmarshal_submit p :
  utf8_ok (sp_TaskType p) -> in_i64 (sp_MaxAttempts p) -> in_i64 (sp_LeaseTTLMS p) ->
  unmarshal set_submit (mkSubmit "" [] 0 0) (marshal_submit p) = Some p.
Proof.
  intros H HM HL. unfold unmarshal. rewrite (reads_parse _ _ (submit_payload 0 p H ltac:(lia))).
  unfold omit_empty. destruct (decide (sp_Input p = [])) as [E|E];
    cbn [app members_of dec_members]; unfold set_submit; eval_fields; simpl; rewrite ?b64_roundtrip, ?str_of_bs;
    simpl; rewrite !parse_format_int by done; simpl; rewrite ?parse_format_int by done; simpl;
    rewrite ?str_of_bs; destruct p; simpl in *; by subst.
Qed.

End Payloads.

(** The payloads the coordinator writes. *)
Inductive wf_payload : bytes -> Prop :=
| wp_submit p : utf8_ok (sp_TaskType p) -> wf_payload (marshal_submit p)
| wp_lease p : utf8_ok (lp_WorkerID p) -> wf_payload (marshal_lease p)
| wp_complete p : utf8_ok (cp_WorkerID p) -> wf_payload (marshal_complete p)
| wp_fail p : utf8_ok (fp_WorkerID p) -> utf8_ok (fp_Error p) -> wf_payload (marshal_fail p)
| wp_reason p : utf8_ok (rp_Reason p) -> wf_payload (marshal_reason p).

Lemma wf_payload_text raw : wf_payload raw -> payload_text raw.
Proof.
  assert (forall name b, Forall (fun f => stable Outside Outside f.2) (omit_empty name b)) as HO
    by apply omit_empty_stable.
  intros H. destruct H as [p H|p H|p H|p H1 H2|p H]; (split; [|eexists; intros d Hd]);
    [|by apply submit_payload| |by apply lease_payload| |by apply complete_payload| |by apply fail_payload
     | |by apply reason_payload]; apply stable_object.
  - constructor; [apply stable_quote|]. apply Forall_app. split; [apply HO|].
    repeat constructor; apply stable_int.
  - repeat constructor. apply stable_quote.
  - constructor; [apply stable_quote|apply HO].
  - repeat constructor; [apply stable_quote..|apply stable_bool].
  - repeat constructor. apply stable_quote.
Qed.

Lemma newEnvelope_time ty t p w ag att raw now :
  Time.in_calendar now -> eventTime (newEnvelope ty t p w ag att raw now) = now.
Proof. intros H. unfold eventTime, newEnvelope. simpl. by rewrite bs_of_str, Time.Parse_Format. Qed.

(** The local fold and the poller fold the same event: an envelope the coordinator
    builds is read back from its published bytes unchanged, and its timestamp parses to
    the clock reading it was made at. *)
Theorem workflow_event_roundtrip ty t p w ag att raw now pubnow :
  let e := newEnvelope ty t p w ag att raw now in
  wf_payload raw -> utf8_ok ty -> utf8_ok t -> utf8_ok p -> utf8_ok w -> utf8_ok ag -> in_i64 att ->
  Time.in_calendar now -> Validate e = None ->
  eventTime e = now /\ exists data, Marshal pubnow e = Ok data /\ ParseEvent data = Some e.
Proof.
  intros e Hw Hty Ht Hp Hw' Hag Hatt Hnow Hv. split; [by apply newEnvelope_time|].
  apply (marshal_parse e raw); try done.
  - unfold strings_ok. simpl. split_and!; try done. apply Time.Format_utf8.
  - by apply wf_payload_text.
  - simpl. intros H. apply (f_equal bs_of) in H. rewrite bs_of_str in H.
    pose proof (Time.Parse_Format now Hnow) as HP. rewrite H in HP. done.
Qed.

Definition sample_lease : Event :=
  newEnvelope EventLeased "acme" "research" "run-1" "w1" 1 (marshal_lease (mkLeaseP "w1"))
    (Time.unix_epoch + 1700000000123000000).

Lemma workflow_event_roundtrip_witness :
  eventTime sample_lease = Time.unix_epoch + 1700000000123000000 /\
  exists data, Marshal 0 sample_lease = Ok data /\ ParseEvent data = Some sample_lease.
Proof.
  apply (workflow_event_roundtrip EventLeased "acme" "research" "run-1" "w1" 1
    (marshal_lease (mkLeaseP "w1")) (Time.unix_epoch + 1700000000123000000) 0).
  - apply wp_lease. vm_compute. reflexivity.
  - vm_compute. reflexivity.
  - vm_compute. reflexivity.
  - vm_compute. reflexivity.
  - vm_compute. reflexivity.
  - vm_compute. reflexivity.
  - unfold in_i64. lia.
  - split; vm_compute; done || discriminate.
  - vm_compute. reflexivity.
Defined.

(** ** Witnesses *)

Definition sample_submit : Event :=
  newEnvelope EventSubmitted "acme" "research" "run-1" CoordinatorAgentID 0
    (marshal_submit (mkSubmit "index" [] 3 30000)) Time.unix_epoch.

Definition sample_exec : Execution :=
  match newExecution sample_submit with
  | Some x => x
  | None => mkExecution "" "" "" "" StatusPending 0 0 0 "" [] [] "" 0 0 0 [] false false
  end.

Definition sample_completed : Event :=
  newEnvelope EventCompleted "acme" "research" "run-1" "w1" 1
    (marshal_complete (mkComplete "w1" [Byte.x2a])) (Time.unix_epoch + 5).

Definition sample_retry : Event :=
  newEnvelope EventRetry "acme" "research" "run-1" CoordinatorAgentID 1
    (marshal_reason (mkReason ReasonLeaseExpired)) (Time.unix_epoch + 4).

Definition sample_lease2 : Event :=
  newEnvelope EventLeased "acme" "research" "run-1" "w2" 2 (marshal_lease (mkLeaseP "w2"))
    (Time.unix_epoch + 6).

Lemma terminal_absorbs_witness :
  let x := apply_all sample_exec [sample_lease; sample_completed] in
  apply_all x [sample_retry; sample_lease2] = x /\
  apply (apply_all x [sample_retry; sample_lease2]) sample_completed = (x, false).
Proof.
  intros x. apply (terminal_absorbs x [sample_retry; sample_lease2] sample_completed).
  vm_compute. reflexivity.
Defined.

Lemma fold_ignores_runtime_flags_witness :
  let y := {| sample_exec with x_reserved := true |} in
  folded (apply_all sample_exec [sample_lease]) = folded (apply_all y [sample_lease]) /\
  (apply (apply_all sample_exec [sample_lease]) sample_completed).2 =
    (apply (apply_all y [sample_lease]) sample_completed).2.
Proof. intros y. apply (fold_ignores_runtime_flags sample_exec y [sample_lease] sample_completed). reflexivity. Defined.

Lemma attempts_count_leases_witness :
  let es := [sample_lease; sample_retry; sample_lease2] in
  map tr_Attempt (leases (apply_all sample_exec es)) = seqZ 1 (x_Attempt (apply_all sample_exec es)) /\
  0 <= x_Attempt (apply_all sample_exec es) <= zlen es.
Proof.
  intros es. apply (attempts_count_leases sample_submit sample_exec es); vm_compute; reflexivity.
Defined.

Lemma redelivery_is_noop_witness :
  let x' := apply_all (apply sample_exec sample_lease).1 [sample_retry; sample_lease2] in
  apply x' sample_lease = (x', false).
Proof.
  apply (redelivery_is_noop sample_exec sample_lease [sample_retry; sample_lease2]).
  - vm_compute. discriminate.
  - vm_compute. discriminate.
  - vm_compute. discriminate.
  - vm_compute. reflexivity.
  - vm_compute. reflexivity.
Defined.

(** The retry of attempt 1, delivered again while worker w2 holds attempt 2. *)
Lemma stale_retry_requeues_witness :
  let x := apply_all sample_exec [sample_lease; sample_retry; sample_lease2] in
  let (x', accepted) := apply x sample_retry in
  accepted = true /\ x_Status x' = StatusPending /\ x_WorkerID x' = ""%string /\ x_Attempt x' = x_Attempt x.
Proof.
  intros x. apply (stale_retry_requeues x sample_retry (mkReason ReasonLeaseExpired));
    vm_compute; reflexivity.
Defined.

End Workflow.
