(* ===== verification/WfStore.v ===== *)
(** * The workflow store (internal/workflow/store.go)

    The executions and the scheduling indexes derived from them: a FIFO queue of
    pending executions per task type, the counts by status, the running index, the
    queue of terminal executions with its retention cap, and the wake-up channels.
    Executions are Go pointers: [execs] maps a key to a location of [heap], because
    a pointer that [ReserveNext] handed out stays valid after the store forgot the
    execution. The theorems: the invariant that ties the indexes to the executions
    is kept by every operation, scheduling is first in, first out, and no pending
    execution is stranded. *)

From S2P Require Import Prelude GoLib GoJson GoTime AgentStream WfState.
Import Json Envelope Workflow.
Open Scope Z_scope.

#[global] Instance status_countable : Countable Status.
Proof.
  refine (inj_countable'
    (fun s => match s with StatusPending => 0 | StatusRunning => 1 | StatusRetrying => 2
              | StatusCompleted => 3 | StatusFailed => 4 end)%nat
    (fun n => match n with 0 => StatusPending | 1 => StatusRunning | 2 => StatusRetrying
              | 3 => StatusCompleted | _ => StatusFailed end)%nat _).
  by intros [].
Defined.

Module Executions.

(** The strings behind the [Status] constants. *)
Definition status_string (st : Status) : string :=
  match st with
  | StatusPending => "pending" | StatusRunning => "running" | StatusRetrying => "retrying"
  | StatusCompleted => "completed" | StatusFailed => "failed"
  end.

Record Store := mkStore {
  execs : gmap string nat;              (* key -> location of the execution *)
  heap : gmap nat Execution;
  next_loc : nat;
  queues : gmap string (list string);
  queued : gmap string bool;
  wake : gmap string nat;               (* task type -> channel *)
  fired : gset nat;                     (* the closed channels *)
  next_chan : nat;
  counts : gmap Status Z;
  running : gset string;
  terminalQ : list string;
  retainTerminal : Z
}.

Definition NewStore : Store := mkStore ∅ ∅ 0 ∅ ∅ ∅ ∅ 0 ∅ ∅ [] 0.

(** Reads of Go maps, with the zero value for a missing key. *)
Definition queue_of (s : Store) (t : string) : list string := default [] (queues s !! t).
Definition is_queued (s : Store) (k : string) : bool := default false (queued s !! k).
Definition count_of (s : Store) (st : Status) : Z := default 0 (counts s !! st).
Definition add_count (st : Status) (d : Z) (s : Store) : Store :=
  {| s with counts := <[st := count_of s st + d]> (counts s) |}.

(** [s.execs[key]], followed to the execution. *)
Definition find (s : Store) (key : string) : option (nat * Execution) :=
  l ← execs s !! key; x ← heap s !! l; Some (l, x).

Definition set_exec (l : nat) (x : Execution) (s : Store) : Store := {| s with heap := <[l := x]> (heap s) |}.

Definition reconcileQueueLocked (key : string) (x : Execution) (s : Store) : Store :=
  if is_status x StatusPending && negb (is_queued s key) && negb (x_reserved x) then
    let s := {| s with queues := <[x_TaskType x := queue_of s (x_TaskType x) ++ [key]]> (queues s);
                       queued := <[key := true]> (queued s) |} in
    match wake s !! x_TaskType x with
    | Some ch => {| s with fired := {[ch]} ∪ fired s; wake := delete (x_TaskType x) (wake s) |}
    | None => s
    end
  else s.

(** One retired execution leaves the counts, the map and the queued set. *)
Definition forget (key : string) (x : Execution) (s : Store) : Store :=
  let s := add_count (x_Status x) (-1) s in
  {| s with execs := delete key (execs s); queued := delete key (queued s) |}.

(** The loop of [evictTerminalLocked] over the remaining queue. *)
Fixpoint evict_loop (q : list string) (s : Store) : Store :=
  match q with
  | [] => {| s with terminalQ := [] |}
  | key :: q' =>
      if retainTerminal s <? zlen q then
        match find s key with
        | Some (_, x) =>
            if Terminal x then evict_loop q' (forget key x s) else evict_loop q' s
        | None => evict_loop q' s
        end
      else {| s with terminalQ := q |}
  end.

Definition evictTerminalLocked (s : Store) : Store :=
  if retainTerminal s <=? 0 then s else evict_loop (terminalQ s) s.

(** The index updates of [Apply] for an execution whose status went from [prev] to
    [x]'s. *)
Definition reindex (key : string) (prev : Status) (x : Execution) (s : Store) : Store :=
  if decide (x_Status x = prev) then s
  else
    let s := add_count (x_Status x) 1 (add_count prev (-1) s) in
    let s := if decide (prev = StatusRunning) then {| s with running := running s ∖ {[key]} |} else s in
    let s := if is_status x StatusRunning then {| s with running := {[key]} ∪ running s |} else s in
    if Terminal x then evictTerminalLocked {| s with terminalQ := terminalQ s ++ [key] |} else s.

Definition Apply (s : Store) (e : Event) : Store * bool :=
  if negb (IsWorkflowEvent (Type_ e)) then (s, false)
  else
    let key := SessionKey (Tenant e) (Project e) (SessionID e) in
    if decide (Type_ e = EventSubmitted) then
      match find s key with
      | Some _ => (s, false)
      | None =>
          match newExecution e with
          | None => (s, false)
          | Some nx =>
              let l := next_loc s in
              let s := {| s with execs := <[key := l]> (execs s); heap := <[l := nx]> (heap s);
                                 next_loc := S l |} in
              (reconcileQueueLocked key nx (add_count (x_Status nx) 1 s), true)
          end
      end
    else
      match find s key with
      | None => (s, false)
      | Some (l, x) =>
          match apply x e with
          | (_, false) => (s, false)
          | (x', true) =>
              (reconcileQueueLocked key x' (reindex key (x_Status x) x' (set_exec l x' s)), true)
          end
      end.

(** The loop of [ReserveNext] over the remaining queue. *)
Fixpoint reserve_loop (taskType : string) (q : list string) (s : Store) : Store * option nat :=
  match q with
  | [] => ({| s with queues := <[taskType := []]> (queues s) |}, None)
  | key :: q =>
      let s := {| s with queued := <[key := false]> (queued s) |} in
      match find s key with
      | Some (l, x) =>
          if is_status x StatusPending && negb (x_reserved x) then
            let s := {| s with queues := <[taskType := q]> (queues s) |} in
            (set_exec l {| x with x_reserved := true |} s, Some l)
          else reserve_loop taskType q s
      | None => reserve_loop taskType q s
      end
  end.

Definition ReserveNext (taskType : string) (s : Store) : Store * option nat :=
  reserve_loop taskType (queue_of s taskType) s.

Definition Unreserve (l : nat) (s : Store) : Store :=
  match heap s !! l with
  | None => s
  | Some x =>
      if negb (x_reserved x) then s
      else
        let x := {| x with x_reserved := false |} in
        let s := set_exec l x s in
        if is_status x StatusPending && negb (is_queued s (Key x)) then
          {| s with queues := <[x_TaskType x := Key x :: queue_of s (x_TaskType x)]> (queues s);
                    queued := <[Key x := true]> (queued s) |}
        else s
  end.

Definition WaitChan (taskType : string) (s : Store) : Store * nat :=
  match wake s !! taskType with
  | Some ch => (s, ch)
  | None =>
      let ch := next_chan s in
      ({| s with wake := <[taskType := ch]> (wake s); next_chan := S ch |}, ch)
  end.

(** [snapshot] copies the slices of an execution; as a value it is the execution. *)
Definition Get (tenant project workflowID : string) (s : Store) : option Execution :=
  snd <$> find s (SessionKey tenant project workflowID).

(** [(ok, duplicate)]. *)
Definition BeginComplete (tenant project workflowID : string) (attempt : Z) (s : Store) :
    Store * (bool * bool) :=
  match find s (SessionKey tenant project workflowID) with
  | None => (s, (false, false))
  | Some (l, x) =>
      if is_status x StatusCompleted then (s, (false, true))
      else if Terminal x || negb (x_Attempt x =? attempt) || (attempt =? 0) || x_completing x
      then (s, (false, false))
      else (set_exec l {| x with x_completing := true |} s, (true, false))
  end.

Definition AbortComplete (tenant project workflowID : string) (s : Store) : Store :=
  match find s (SessionKey tenant project workflowID) with
  | None => s
  | Some (l, x) => set_exec l {| x with x_completing := false |} s
  end.

(** The loop of [ExpiredLeases], over the running keys in the order the map yields
    them; keys of unknown executions are dropped from the index. *)
Fixpoint expired_loop (now : Z) (keys : list string) (s : Store) : Store * list Execution :=
  match keys with
  | [] => (s, [])
  | key :: keys =>
      match find s key with
      | None => expired_loop now keys {| s with running := running s ∖ {[key]} |}
      | Some (_, x) =>
          let (s, out) := expired_loop now keys s in
          if is_status x StatusRunning && negb (x_reserved x) && negb (x_completing x) &&
             Time.Before (x_LeaseDeadline x) now
          then (s, x :: out) else (s, out)
      end
  end.

Definition ExpiredLeases (now : Z) (order : list string) (s : Store) : Store * list Execution :=
  expired_loop now order s.

Definition CountByStatus (s : Store) : gmap Status Z := filter (fun p => p.2 <> 0) (counts s).

(** [List], over the keys in the order the map yields them. *)
Fixpoint list_loop (status : string) (limit : Z) (keys : list string) (n : Z) (s : Store) :
    list Execution :=
  match keys with
  | [] => []
  | key :: keys =>
      match find s key with
      | None => list_loop status limit keys n s
      | Some (_, x) =>
          if bool_decide (status <> "" /\ status_string (x_Status x) <> status)
          then list_loop status limit keys n s
          else if (0 <? limit) && (limit <=? n) then []
          else x :: list_loop status limit keys (n + 1) s
      end
  end.

Definition List_ (status : string) (limit : Z) (order : list string) (s : Store) :
    list Execution * gmap Status Z :=
  (list_loop status limit order 0 s, CountByStatus s).

Definition Len (s : Store) : Z := Z.of_nat (size (execs s)).

(** ** The executions of a store as one map *)

Definition exmap (s : Store) : gmap string Execution := omap (fun l => heap s !! l) (execs s).

Lemma exmap_find s key : exmap s !! key = snd <$> find s key.
Proof. unfold exmap, find. rewrite lookup_omap. destruct (execs s !! key); simpl; [|done]. by destruct (heap s !! n). Qed.

(** The number of executions with a status. *)
Definition nstat (st : Status) (m : gmap string Execution) : Z :=
  Z.of_nat (size (filter (fun p => x_Status p.2 = st) m)).

Definition has (st : Status) (x : Execution) : Z := if decide (x_Status x = st) then 1 else 0.

Lemma nstat_delete st m k x : m !! k = Some x -> nstat st (delete k m) = nstat st m - has st x.
Proof.
  intros Hk. unfold nstat, has. rewrite map_filter_delete. case_decide as Hs.
  - rewrite map_size_delete_Some by (exists x; by apply map_lookup_filter_Some).
    assert (size (filter (fun p => x_Status p.2 = st) m) <> 0%nat).
    { intros H. apply map_size_empty_inv in H.
      assert (filter (fun p => x_Status p.2 = st) m !! k = Some x) as HL by (by apply map_lookup_filter_Some).
      by rewrite H, lookup_empty in HL. }
    lia.
  - rewrite delete_id; [lia|]. apply map_lookup_filter_None. right. intros y Hy. simpl. congruence.
Qed.

Lemma nstat_new st m k x : m !! k = None -> nstat st (<[k := x]> m) = nstat st m + has st x.
Proof.
  intros Hk. unfold nstat, has. case_decide as Hs.
  - rewrite map_filter_insert_True by done. rewrite map_size_insert_None; [lia|].
    apply map_lookup_filter_None. by left.
  - rewrite map_filter_insert_False by done. rewrite map_filter_delete, delete_id; [lia|].
    apply map_lookup_filter_None. by left.
Qed.

Lemma nstat_update st m k x y :
  m !! k = Some y -> nstat st (<[k := x]> m) = nstat st m - has st y + has st x.
Proof.
  intros Hk. rewrite <- (insert_delete_eq m), nstat_new by apply lookup_delete_eq.
  by rewrite (nstat_delete st m k y).
Qed.

Lemma nstat_nonneg st m : 0 <= nstat st m.
Proof. unfold nstat. lia. Qed.

(** ** The invariant *)

(** The indexes agree with the executions. [K] holds the keys whose queueing is
    still to be reconciled. *)
Record store_inv (K : string -> Prop) (s : Store) : Prop := {
  ok_loc : forall key l, execs s !! key = Some l -> exists x, heap s !! l = Some x /\ Key x = key;
  ok_fresh : forall l x, heap s !! l = Some x -> (l < next_loc s)%nat;
  ok_dangling : forall l x, heap s !! l = Some x -> execs s !! Key x = Some l \/ Terminal x = true;
  ok_reserved : forall l x, heap s !! l = Some x -> x_reserved x = true ->
    x_Status x = StatusPending \/ Terminal x = true;
  ok_counts : forall st, count_of s st = nstat st (exmap s);
  ok_running : forall key, key ∈ running s <->
    exists x, exmap s !! key = Some x /\ x_Status x = StatusRunning;
  ok_queued : forall key, is_queued s key = true ->
    exists x, exmap s !! key = Some x /\ key ∈ queue_of s (x_TaskType x);
  ok_pending : forall key x, ~ K key -> exmap s !! key = Some x -> x_Status x = StatusPending ->
    x_reserved x = false -> is_queued s key = true
}.

Abbreviation store_ok := (store_inv (fun _ => False)).

Lemma find_exmap s key l x : find s key = Some (l, x) -> exmap s !! key = Some x.
Proof. intros H. by rewrite exmap_find, H. Qed.

Lemma find_inv s key l x :
  find s key = Some (l, x) -> execs s !! key = Some l /\ heap s !! l = Some x.
Proof.
  unfold find. destruct (execs s !! key) as [l'|]; simpl; [|done].
  destruct (heap s !! l') as [x'|] eqn:E; simpl; [|done]. intros. by simplify_eq.
Qed.

Lemma find_key K s key l x : store_inv K s -> find s key = Some (l, x) -> Key x = key.
Proof.
  intros Hok H. apply find_inv in H as [H1 H2]. destruct (ok_loc _ _ Hok key l H1) as (y & Hy & <-).
  by simplify_eq.
Qed.

Lemma exmap_key K s key x : store_inv K s -> exmap s !! key = Some x -> Key x = key.
Proof.
  rewrite exmap_find. destruct (find s key) as [[l y]|] eqn:E; simpl; [|done].
  intros Hok ?. simplify_eq. by eapply find_key.
Qed.

(** Writing an execution back through its pointer changes it for its own key only. *)
Lemma exmap_set_exec K s l x x' key :
  store_inv K s -> heap s !! l = Some x ->
  exmap (set_exec l x' s) !! key =
    if decide (execs s !! key = Some l) then Some x' else exmap s !! key.
Proof.
  intros Hok Hl. unfold exmap, set_exec. rewrite !lookup_omap. simpl.
  destruct (execs s !! key) as [l'|] eqn:E; simpl.
  - rewrite lookup_insert. case_decide as H1; case_decide as H2; simplify_eq; done.
  - done.
Qed.

Lemma exmap_set_found K s key l x x' :
  store_inv K s -> find s key = Some (l, x) -> exmap (set_exec l x' s) = <[key := x']> (exmap s).
Proof.
  intros Hok Hf. pose proof (find_inv _ _ _ _ Hf) as [He Hl]. apply map_eq. intros k.
  rewrite (exmap_set_exec K s l x) by done. rewrite lookup_insert.
  case_decide as H1; case_decide as H2; try done; [|congruence].
  destruct (ok_loc _ _ Hok k l H1) as (y & Hy & <-). destruct (ok_loc _ _ Hok key l He) as (z & Hz & <-).
  congruence.
Qed.

Lemma NewStore_ok n : store_ok {| NewStore with retainTerminal := n |}.
Proof.
  constructor; simpl; intros *; rewrite ?lookup_empty; try done.
  split; [set_solver|]. by intros (x & H & _).
Qed.

(** ** The operations keep it *)

Lemma is_queued_insert s k b key :
  default false (<[k := b]> (queued s) !! key) = if decide (k = key) then b else is_queued s key.
Proof. unfold is_queued. rewrite lookup_insert. by case_decide. Qed.

Lemma queue_of_insert s t q t' :
  default [] (<[t := q]> (queues s) !! t') = if decide (t = t') then q else queue_of s t'.
Proof. unfold queue_of. rewrite lookup_insert. by case_decide. Qed.

Lemma reconcile_ok key x s :
  store_inv (fun k => k = key) s ->
  exmap s !! key = Some x \/ (exmap s !! key = None /\ Terminal x = true) ->
  store_ok (reconcileQueueLocked key x s).
Proof.
  intros Hok Hx. unfold reconcileQueueLocked.
  destruct (is_status x StatusPending && negb (is_queued s key) && negb (x_reserved x)) eqn:E.
  - go_bool. apply is_status_spec in H.
    destruct Hx as [Hx|[_ Hx]]; [|unfold Terminal in Hx; by rewrite H in Hx].
    assert (forall s', execs s' = execs s -> heap s' = heap s -> next_loc s' = next_loc s -> counts s' = counts s ->
      running s' = running s ->
      queues s' = <[x_TaskType x := queue_of s (x_TaskType x) ++ [key]]> (queues s) ->
      queued s' = <[key := true]> (queued s) -> store_ok s') as HH.
    { intros s' E1 E2 E3 E4 E5 E6 E7.
      assert (exmap s' = exmap s) as EX by (unfold exmap; by rewrite E1, E2).
      constructor; rewrite ?E1, ?E2, ?E3, ?E5, ?EX; try apply Hok.
      - intros st. unfold count_of. rewrite E4. apply Hok.
      - intros k. unfold is_queued, queue_of. rewrite E6, E7, is_queued_insert.
        destruct (decide (key = k)) as [<-|Hne]; intros Hq.
        + exists x. split; [done|]. rewrite queue_of_insert, decide_True by done. apply elem_of_app. right. by left.
        + destruct (ok_queued _ _ Hok k Hq) as (y & Hy & Hm). exists y. split; [done|].
          rewrite queue_of_insert. case_decide as Ht; [|done]. rewrite Ht. apply elem_of_app. by left.
      - intros k y _ Hk Hp Hr. unfold is_queued. rewrite E7, is_queued_insert. case_decide; [done|].
        by apply (ok_pending _ _ Hok k y). }
    repeat case_match; by apply HH.
  - constructor; try apply Hok. intros k y _ Hk Hp Hr.
    destruct (decide (k = key)) as [->|Hne]; [|by apply (ok_pending _ _ Hok k y)].
    destruct Hx as [Hx|[Hx _]]; rewrite Hx in Hk; simplify_eq.
    apply andb_false_iff in E as [E|E]; [apply andb_false_iff in E as [E|E]|].
    + by apply is_status_false in E.
    + by apply negb_false_iff in E.
    + rewrite Hr in E. done.
Qed.

Lemma evict_one K s key l x :
  store_inv K s -> find s key = Some (l, x) -> Terminal x = true ->
  store_inv K (forget key x s).
Proof.
  intros Hok Hf Ht. pose proof (find_exmap _ _ _ _ Hf) as Hx.
  assert (forall s', execs s' = delete key (execs s) -> heap s' = heap s -> exmap s' = delete key (exmap s)) as HE.
  { intros s' E1 E2. unfold exmap. by rewrite E1, E2, omap_delete. }
  set (s' := forget key x s).
  assert (exmap s' = delete key (exmap s)) as EX by (by apply HE).
  constructor; rewrite ?EX; try apply Hok.
  - intros k l' Hl. simpl in Hl. apply lookup_delete_Some in Hl as [_ Hl]. by apply (ok_loc _ _ Hok).
  - intros l' y Hy. simpl in *. rewrite lookup_delete. case_decide as Hk.
    + right. destruct (ok_dangling _ _ Hok l' y Hy) as [Hl|]; [|done]. rewrite <- Hk in Hl.
      apply find_inv in Hf as [He Hl2]. simplify_eq. congruence.
    + apply (ok_dangling _ _ Hok l' y Hy).
  - intros st. rewrite (nstat_delete st _ key x) by done. subst s'. unfold count_of, forget, add_count. simpl.
    pose proof (ok_counts _ _ Hok st) as HC. unfold count_of in HC.
    rewrite lookup_insert. unfold has. case_decide as Hs; simpl; [subst st; unfold count_of|]; lia.
  - intros k. change (running s') with (running s). rewrite (ok_running _ _ Hok k).
    setoid_rewrite lookup_delete_Some.
    split; intros (y & Hy & Hr); exists y; (split; [|done]); [|tauto]. split; [|done].
    intros <-. rewrite Hx in Hy. simplify_eq. unfold Terminal in Ht. by rewrite Hr in Ht.
  - intros k Hq. subst s'. unfold is_queued in Hq. simpl in Hq.
    rewrite lookup_delete in Hq. case_decide as Hk; [done|]. rewrite lookup_delete_ne by done.
    by apply (ok_queued _ _ Hok).
  - intros k y HK Hk Hp Hr. apply lookup_delete_Some in Hk as [Hne Hk]. subst s'. unfold is_queued. simpl.
    rewrite lookup_delete_ne by done. by apply (ok_pending _ _ Hok k y).
Qed.

Lemma exmap_evict_one s key x :
  exmap (forget key x s) = delete key (exmap s).
Proof. unfold exmap. simpl. by rewrite omap_delete. Qed.

(** Eviction forgets terminal executions only. *)
Lemma evict_loop_spec K q s :
  store_inv K s -> store_inv K (evict_loop q s) /\
  forall key, exmap (evict_loop q s) !! key = exmap s !! key \/
    (exmap (evict_loop q s) !! key = None /\ exists x, exmap s !! key = Some x /\ Terminal x = true).
Proof.
  revert s. induction q as [|k q IH]; intros s Hok; cbn [evict_loop].
  { split; [destruct Hok; by constructor|by left]. }
  destruct (retainTerminal s <? zlen (k :: q)); [|split; [destruct Hok; by constructor|by left]].
  destruct (find s k) as [[l x]|] eqn:Hf; [|by apply IH].
  destruct (Terminal x) eqn:Ht; [|by apply IH].
  destruct (IH _ (evict_one K s k l x Hok Hf Ht)) as [H1 H2]. split; [done|].
  intros key. specialize (H2 key). rewrite exmap_evict_one in H2.
  apply find_exmap in Hf. rewrite lookup_delete in H2. case_decide as Hk; [subst key|].
  - right. destruct H2 as [-> |[-> _]]; (split; [done|]); eauto.
  - destruct H2 as [-> |[-> (y & Hy & Hty)]]; [by left|right; eauto].
Qed.

(** Writing back an execution with the same status: only its flags moved. *)
Lemma set_exec_flags (K K' : string -> Prop) s l x x' :
  store_inv K s -> heap s !! l = Some x ->
  Key x' = Key x -> x_Status x' = x_Status x -> x_TaskType x' = x_TaskType x ->
  (x_reserved x' = true -> x_reserved x = true \/ x_Status x = StatusPending) ->
  (forall k, K k -> K' k) -> (x_reserved x' = false -> x_reserved x = true -> execs s !! Key x = Some l -> K' (Key x)) ->
  store_inv K' (set_exec l x' s).
Proof.
  intros Hok Hl EK ES ET HR HK HU.
  pose proof (fun key => exmap_set_exec K s l x x' key Hok Hl) as EX.
  assert (forall key, execs s !! key = Some l -> key = Key x /\ exmap s !! key = Some x) as HL.
  { intros key Hk. destruct (ok_loc _ _ Hok key l Hk) as (y & Hy & <-). simplify_eq. split; [done|].
    unfold exmap. rewrite lookup_omap, Hk. done. }
  constructor; try apply Hok.
  - intros key l' Hk. simpl in *. rewrite lookup_insert. case_decide as E; [subst l'|by apply (ok_loc _ _ Hok)].
    exists x'. split; [done|]. by destruct (HL key Hk) as [-> _].
  - intros l' y Hy. simpl in *. rewrite lookup_insert in Hy. case_decide as E; [subst l'|by apply (ok_fresh _ _ Hok l' y)].
    by apply (ok_fresh _ _ Hok l x).
  - intros l' y Hy. simpl in *. rewrite lookup_insert in Hy. case_decide as E; simplify_eq.
    + unfold Terminal. rewrite ES, EK. apply (ok_dangling _ _ Hok l' x Hl).
    + by apply (ok_dangling _ _ Hok).
  - intros l' y Hy Hr. simpl in *. rewrite lookup_insert in Hy. case_decide as E; simplify_eq.
    + unfold Terminal. rewrite ES. destruct (HR Hr) as [Hx|Hx]; [|by left].
      by apply (ok_reserved _ _ Hok l' x).
    + by apply (ok_reserved _ _ Hok l' y).
  - intros st. change (count_of (set_exec l x' s) st) with (count_of s st). rewrite (ok_counts _ _ Hok).
    unfold nstat. f_equal.
    assert (forall k y, exmap (set_exec l x' s) !! k = Some y ->
      exists z, exmap s !! k = Some z /\ x_Status y = x_Status z) as HS.
    { intros k y Hy. rewrite EX in Hy. case_decide as E; simplify_eq; [|eauto].
      destruct (HL k E) as [_ ?]. eauto. }
    destruct (decide (execs s !! Key x = Some l)) as [E|E].
    + assert (exmap (set_exec l x' s) = <[Key x := x']> (exmap s)) as ->.
      { apply map_eq. intros k. rewrite EX, lookup_insert. repeat case_decide; try congruence.
        destruct (HL k) as [? _]; congruence. }
      destruct (HL _ E) as [_ Hx]. pose proof (nstat_update st (exmap s) (Key x) x' x Hx) as HN.
      unfold nstat, has in HN. rewrite ES in HN. case_decide; lia.
    + f_equal. f_equal. apply map_eq. intros k. rewrite EX. case_decide as E2; [|done].
      destruct (HL k E2) as [-> _]. done.
  - intros key. change (running (set_exec l x' s)) with (running s). rewrite (ok_running _ _ Hok), EX.
    case_decide as E; [|done]. destruct (HL key E) as [_ Hx]. rewrite Hx.
    split; intros (y & Hy & Hr); simplify_eq; eexists; (split; [done|]); congruence.
  - intros key Hq. destruct (ok_queued _ _ Hok key Hq) as (y & Hy & Hm). rewrite EX. case_decide as E; [|eauto].
    destruct (HL key E) as [_ Hx]. simplify_eq. exists x'. split; [done|]. by rewrite ET.
  - intros key y HnK Hy Hp Hr. rewrite EX in Hy.
    case_decide as E; simplify_eq; [|apply (ok_pending _ _ Hok key y); [|done..]; auto].
    destruct (HL key E) as [-> Hx]. apply (ok_pending _ _ Hok (Key x) x); [auto|done|congruence|].
    destruct (x_reserved x) eqn:Er; [|done]. by destruct HnK; apply HU.
Qed.

(** Writing back an execution with new indexes for its status. *)
Lemma status_change_ok s key l x x' s2 :
  store_ok s -> find s key = Some (l, x) ->
  Key x' = Key x -> x_TaskType x' = x_TaskType x ->
  (x_reserved x' = true -> x_Status x' = StatusPending \/ Terminal x' = true) ->
  execs s2 = execs s -> heap s2 = <[l := x']> (heap s) -> next_loc s2 = next_loc s ->
  queues s2 = queues s -> queued s2 = queued s ->
  (forall st, count_of s2 st = count_of s st - has st x + has st x') ->
  (forall k, k ∈ running s2 <-> if decide (k = key) then x_Status x' = StatusRunning else k ∈ running s) ->
  store_inv (fun k => k = key) s2 /\ exmap s2 = <[key := x']> (exmap s).
Proof.
  intros Hok Hf EK ET HR E1 E2 E3 E4 E5 HC Hrun.
  pose proof (find_inv _ _ _ _ Hf) as [He Hl]. pose proof (find_exmap _ _ _ _ Hf) as Hx.
  pose proof (find_key _ _ _ _ _ Hok Hf) as Hkey.
  assert (exmap s2 = <[key := x']> (exmap s)) as EX.
  { rewrite <- (exmap_set_found _ s key l x x') by done. unfold exmap. by rewrite E1, E2. }
  split; [|done]. constructor; rewrite ?EX.
  - intros k l' Hk. rewrite E1 in Hk. rewrite E2, lookup_insert.
    destruct (ok_loc _ _ Hok k l' Hk) as (y & Hy & <-). case_decide; [subst l'|by eauto].
    exists x'. split; [done|]. congruence.
  - intros l' y Hy. rewrite E2, lookup_insert in Hy. rewrite E3.
    case_decide; [subst l'; by apply (ok_fresh _ _ Hok l x)|by apply (ok_fresh _ _ Hok l' y)].
  - intros l' y Hy. rewrite E2, lookup_insert in Hy. rewrite E1. case_decide; simplify_eq.
    + left. congruence.
    + by apply (ok_dangling _ _ Hok).
  - intros l' y Hy Hr. rewrite E2, lookup_insert in Hy. case_decide; simplify_eq; [auto|].
    by apply (ok_reserved _ _ Hok l' y).
  - intros st. rewrite HC, (nstat_update st _ key x' x) by done. by rewrite (ok_counts _ _ Hok).
  - intros k. rewrite Hrun, lookup_insert. case_decide as D; [subst k; rewrite decide_True by done|
      rewrite decide_False by congruence; apply (ok_running _ _ Hok)].
    split; [intros; by eexists|]. by intros (y & ? & ?); simplify_eq.
  - intros k Hq. unfold is_queued, queue_of in *. rewrite E4. rewrite E5 in Hq.
    destruct (ok_queued _ _ Hok k Hq) as (y & Hy & Hm). rewrite lookup_insert.
    case_decide as D; [subst k|eauto]. simplify_eq. exists x'. split; [done|]. by rewrite ET.
  - intros k y Hne Hk Hp Hr. rewrite lookup_insert_ne in Hk by congruence. unfold is_queued. rewrite E5.
    apply (ok_pending _ _ Hok k y); [intros []|done..].
Qed.

Lemma count_add s st d st' : count_of (add_count st d s) st' = count_of s st' + if decide (st' = st) then d else 0.
Proof.
  unfold add_count, count_of at 1. simpl. rewrite lookup_insert.
  repeat case_decide; simplify_eq; simpl; try done. unfold count_of. lia.
Qed.

Lemma reindex_ok s key l x x' :
  store_ok s -> find s key = Some (l, x) -> Key x' = Key x -> x_TaskType x' = x_TaskType x ->
  (x_reserved x' = true -> x_Status x' = StatusPending \/ Terminal x' = true) ->
  let s' := reindex key (x_Status x) x' (set_exec l x' s) in
  store_inv (fun k => k = key) s' /\
  (exmap s' !! key = Some x' \/ (exmap s' !! key = None /\ Terminal x' = true)).
Proof.
  intros Hok Hf EK ET HR s'. subst s'. pose proof (find_exmap _ _ _ _ Hf) as Hx.
  pose proof (fun s2 => status_change_ok s key l x x' s2 Hok Hf EK ET HR) as HS.
  unfold reindex. case_decide as Est.
  { destruct (HS (set_exec l x' s)) as [H1 H2]; try done.
    - intros st. unfold has. rewrite Est. change (count_of (set_exec l x' s) st) with (count_of s st). lia.
    - intros k. case_decide; [subst k|done]. change (running (set_exec l x' s)) with (running s).
      rewrite (ok_running _ _ Hok), Hx, Est. split; [by intros (? & ? & ?); simplify_eq|eauto].
    - split; [done|]. left. rewrite H2. by rewrite lookup_insert_eq. }
  set (s1 := add_count (x_Status x') 1 (add_count (x_Status x) (-1) (set_exec l x' s))).
  set (s2 := if decide (x_Status x = StatusRunning) then _ else s1).
  set (s3 := if is_status x' StatusRunning then _ else s2).
  assert (execs s3 = execs s /\ heap s3 = <[l := x']> (heap s) /\ next_loc s3 = next_loc s /\
    queues s3 = queues s /\ queued s3 = queued s /\ counts s3 = counts s1) as (F1 & F2 & F3 & F4 & F5 & F6).
  { subst s3 s2 s1. repeat case_match; done. }
  destruct (HS s3) as [H1 H2]; try done.
  - intros st. unfold count_of at 1. rewrite F6. change (default 0 (counts s1 !! st)) with (count_of s1 st).
    subst s1. rewrite !count_add. change (count_of (set_exec l x' s) st) with (count_of s st).
    unfold has. repeat case_decide; congruence || lia.
  - intros k. assert (key ∈ running s -> x_Status x = StatusRunning) as HRk.
    { rewrite (ok_running _ _ Hok), Hx. by intros (? & ? & ?); simplify_eq. }
    clear - HRk. subst s3 s2 s1. destruct (is_status x' StatusRunning) eqn:Er;
      [apply is_status_spec in Er|apply is_status_false in Er];
      destruct (decide (x_Status x = StatusRunning)), (decide (k = key)) as [->|]; simpl;
      rewrite ?elem_of_union, ?elem_of_difference, ?elem_of_singleton; tauto.
  - clearbody s3. destruct (Terminal x') eqn:Ht; [|by split; [|left; rewrite H2, lookup_insert_eq]].
    assert (store_inv (fun k => k = key) {| s3 with terminalQ := terminalQ s3 ++ [key] |}) as H4.
    { destruct H1. by constructor. }
    unfold evictTerminalLocked. case_match.
    { split; [done|]. left. change (exmap {| s3 with terminalQ := terminalQ s3 ++ [key] |}) with (exmap s3).
      by rewrite H2, lookup_insert_eq. }
    destruct (evict_loop_spec _ (terminalQ s3 ++ [key]) _ H4) as [H5 H6]. split; [done|].
    specialize (H6 key). change (exmap {| s3 with terminalQ := terminalQ s3 ++ [key] |}) with (exmap s3) in H6.
    rewrite H2, lookup_insert_eq in H6. destruct H6 as [H6|[H6 _]]; [by left|by right].
Qed.

Lemma apply_reserved x e x' :
  apply x e = (x', true) ->
  (x_reserved x = true -> x_Status x = StatusPending \/ Terminal x = true) ->
  x_reserved x' = true -> x_Status x' = StatusPending \/ Terminal x' = true.
Proof.
  intros H HR. apply_cases; simpl in *; intros; try done; unfold Terminal; simpl;
    repeat match goal with
    | H : is_status _ _ = true |- _ => apply is_status_spec in H
    end; auto; unfold Terminal in *; destruct (x_Status x); try done; destruct HR; done.
Qed.

Lemma same_identity_key x x' : same_identity x x' -> Key x' = Key x /\ x_TaskType x' = x_TaskType x.
Proof. intros (H1 & H2 & H3 & H4 & _). unfold Key. by rewrite H1, H2, H3. Qed.

Lemma newExecution_spec e x :
  newExecution e = Some x ->
  Key x = SessionKey (Tenant e) (Project e) (SessionID e) /\ x_Status x = StatusPending /\
  x_reserved x = false /\ x_Attempt x = 0 /\ x_completing x = false.
Proof.
  unfold newExecution. destruct (submit_of e); simpl; [|done]. case_decide; [done|]. intros. by simplify_eq.
Qed.

Lemma Apply_ok s e : store_ok s -> store_ok (Apply s e).1.
Proof.
  intros Hok. unfold Apply. destruct (negb _); [done|].
  set (key := SessionKey (Tenant e) (Project e) (SessionID e)). case_decide.
  - destruct (find s key) as [[l x]|] eqn:Hf; [done|]. destruct (newExecution e) as [nx|] eqn:Hn; [|done].
    apply newExecution_spec in Hn as (EK & ES & ER & _). simpl.
    assert (exmap s !! key = None) as Hnone by (by rewrite exmap_find, Hf).
    assert (heap s !! next_loc s = None) as Hfresh.
    { destruct (heap s !! next_loc s) eqn:E; [|done]. apply (ok_fresh _ _ Hok) in E. lia. }
    assert (execs s !! key = None) as Hek.
    { destruct (execs s !! key) as [l|] eqn:E; [|done]. destruct (ok_loc _ _ Hok key l E) as (y & Hy & _).
      unfold exmap in Hnone. rewrite lookup_omap, E in Hnone. simpl in Hnone. congruence. }
    set (s1 := add_count _ _ _).
    assert (exmap s1 = <[key := nx]> (exmap s)) as EX.
    { subst s1. unfold exmap. simpl. apply map_eq. intros k.
      rewrite !lookup_omap, !lookup_insert, lookup_omap. case_decide; simpl; [by rewrite lookup_insert_eq|].
      destruct (execs s !! k) as [l|] eqn:E; [|done]. simpl. apply lookup_insert_ne. intros <-.
      destruct (ok_loc _ _ Hok k _ E) as (y & Hy & _). congruence. }
    apply reconcile_ok; [|left; by rewrite EX, lookup_insert_eq].
    constructor; rewrite ?EX.
    + intros k l Hk. simpl in *. rewrite lookup_insert in Hk. case_decide; simplify_eq.
      * rewrite lookup_insert_eq. eauto.
      * destruct (ok_loc _ _ Hok k l Hk) as (y & Hy & Hy2). rewrite lookup_insert_ne by congruence. eauto.
    + intros l y Hy. simpl in *. rewrite lookup_insert in Hy. case_decide; [lia|].
      apply (ok_fresh _ _ Hok) in Hy. lia.
    + intros l y Hy. simpl in *. rewrite lookup_insert in Hy. case_decide; simplify_eq.
      * left. by rewrite EK, lookup_insert_eq.
      * destruct (ok_dangling _ _ Hok l y Hy) as [Hl|]; [left|by right].
        rewrite lookup_insert_ne; [done|]. congruence.
    + intros l y Hy Hr. simpl in *. rewrite lookup_insert in Hy. case_decide; simplify_eq; [congruence|].
      by apply (ok_reserved _ _ Hok l y).
    + intros st. rewrite nstat_new by done. subst s1. rewrite count_add, <- (ok_counts _ _ Hok).
      unfold has, count_of. simpl. repeat case_decide; congruence || done.
    + intros k. change (running s1) with (running s). rewrite (ok_running _ _ Hok k), lookup_insert.
      case_decide; [subst k|done]. rewrite Hnone. split; [by intros (? & ? & ?)|].
      intros (? & ? & ?). simplify_eq. congruence.
    + intros k Hq. change (is_queued s1 k) with (is_queued s k) in Hq.
      change (queue_of s1) with (queue_of s). destruct (ok_queued _ _ Hok k Hq) as (y & Hy & Hm).
      rewrite lookup_insert_ne by congruence. eauto.
    + intros k y Hne Hk Hp Hr. rewrite lookup_insert_ne in Hk by congruence.
      apply (ok_pending _ _ Hok k y); [intros []|done..].
  - destruct (find s key) as [[l x]|] eqn:Hf; [|done].
    destruct (apply x e) as [x' [|]] eqn:Ha; [|done]. simpl.
    pose proof (apply_accepted _ _ _ Ha) as [_ Hid]. apply same_identity_key in Hid as [EK ET].
    apply find_inv in Hf as Hl. destruct Hl as [_ Hl].
    destruct (reindex_ok s key l x x') as [H1 H2]; [done..| |by apply reconcile_ok].
    intros. eapply apply_reserved; [done| |done]. intros. by apply (ok_reserved _ _ Hok l x).
Qed.

(** The head of the queue is popped. *)
Lemma pop_ok s key :
  store_ok s -> store_inv (fun k => k = key) {| s with queued := <[key := false]> (queued s) |}.
Proof.
  intros Hok. constructor; try apply Hok.
  - intros k. unfold is_queued. simpl. rewrite is_queued_insert. case_decide; [done|]. apply Hok.
  - intros k x Hne Hk Hp Hr. unfold is_queued. simpl. rewrite is_queued_insert, decide_False by congruence.
    apply (ok_pending _ _ Hok k x); [intros []|done..].
Qed.

(** Setting the queue of a task type to what a loop has left of it. *)
Lemma set_queue_ok K s t q :
  store_inv K s ->
  (forall k x, exmap s !! k = Some x -> x_TaskType x = t -> is_queued s k = true -> k ∈ q) ->
  store_inv K {| s with queues := <[t := q]> (queues s) |}.
Proof.
  intros Hok Hq. constructor; try apply Hok.
  intros k Hk. change (is_queued s k = true) in Hk. destruct (ok_queued _ _ Hok k Hk) as (x & Hx & Hm).
  exists x. split; [done|]. unfold queue_of. simpl. rewrite queue_of_insert. case_decide; [|done].
  by apply (Hq k x).
Qed.

Definition available (x : Execution) : bool := is_status x StatusPending && negb (x_reserved x).

Lemma available_spec x : available x = true <-> x_Status x = StatusPending /\ x_reserved x = false.
Proof. unfold available. by rewrite andb_true_iff, is_status_spec, negb_true_iff. Qed.

Lemma weaken_inv (K K' : string -> Prop) s :
  store_inv K s -> (forall k x, K k -> ~ K' k -> exmap s !! k = Some x -> available x = true -> False) ->
  store_inv K' s.
Proof.
  intros Hok HK. constructor; try apply Hok. intros k x Hn Hx Hp Hr.
  destruct (is_queued s k) eqn:E; [done|exfalso].
  destruct (decide (is_queued s k = true)); [congruence|].
  assert (~ K k) as HnK. { intros Hk. apply (HK k x); try done. by apply available_spec. }
  rewrite (ok_pending _ _ Hok k x) in E by done. done.
Qed.

Lemma reserve_loop_ok taskType q s :
  store_ok s ->
  (forall k x, exmap s !! k = Some x -> x_TaskType x = taskType -> is_queued s k = true -> k ∈ q) ->
  store_ok (reserve_loop taskType q s).1.
Proof.
  revert s. induction q as [|key q IH]; intros s Hok Hq; cbn [reserve_loop].
  { by apply set_queue_ok. }
  set (s1 := {| s with queued := <[key := false]> (queued s) |}).
  assert (store_inv (fun k => k = key) s1) as Hok1 by (by apply pop_ok).
  assert (forall k x, exmap s1 !! k = Some x -> x_TaskType x = taskType -> is_queued s1 k = true -> k ∈ q) as Hq1.
  { intros k x Hk HT Hqk. unfold is_queued in Hqk. simpl in Hqk. rewrite is_queued_insert in Hqk.
    case_decide as Hne; [done|]. pose proof (Hq k x Hk HT Hqk) as Hm.
    apply elem_of_cons in Hm as [|]; [congruence|done]. }
  destruct (find s1 key) as [[l x]|] eqn:Hf.
  - destruct (is_status x StatusPending && negb (x_reserved x)) eqn:Ea.
    + cbn [fst]. pose proof (find_inv _ _ _ _ Hf) as [He Hl].
      set (s2 := {| s1 with queues := <[taskType := q]> (queues s1) |}).
      assert (store_inv (fun k => k = key) s2) as Hok2 by (by apply set_queue_ok).
      apply (weaken_inv (fun k => k = key)).
      * apply (set_exec_flags (fun k => k = key) _ s2 l x); try done.
        intros _. right. by apply available_spec in Ea as [? _].
      * intros k y -> _ Hy Ha. apply available_spec in Ha as [_ Ha].
        rewrite (exmap_set_exec (fun k => k = key) s2 l x) in Hy by done.
        rewrite decide_True in Hy by done. by simplify_eq.
    + apply IH; [|done]. apply (weaken_inv (fun k => k = key)); [done|].
      intros k y -> _ Hk Ha. apply find_exmap in Hf. simplify_eq. unfold available in Ha. congruence.
  - apply IH; [|done]. apply (weaken_inv (fun k => k = key)); [done|].
    intros k y -> _ Hk _. rewrite exmap_find, Hf in Hk. done.
Qed.

Lemma ReserveNext_ok t s : store_ok s -> store_ok (ReserveNext t s).1.
Proof.
  intros Hok. apply reserve_loop_ok; [done|]. intros k x Hx <- Hq.
  destruct (ok_queued _ _ Hok k Hq) as (y & Hy & Hm). congruence.
Qed.

Lemma Unreserve_ok l s : store_ok s -> store_ok (Unreserve l s).
Proof.
  intros Hok. unfold Unreserve. destruct (heap s !! l) as [x|] eqn:Hl; [|done].
  destruct (x_reserved x) eqn:Hr; [|done]. cbn [negb].
  set (x' := {| x with x_reserved := false |}). set (s1 := set_exec l x' s).
  assert (store_inv (fun k => k = Key x /\ execs s !! k = Some l) s1) as Hok1.
  { by apply (set_exec_flags (fun _ => False) _ s l x). }
  assert (forall k, exmap s1 !! k = if decide (execs s !! k = Some l) then Some x' else exmap s !! k) as EX.
  { intros k. by apply (exmap_set_exec (fun _ => False) s l x). }
  destruct (is_status x' StatusPending && negb (is_queued s1 (Key x'))) eqn:E.
  - go_bool. apply is_status_spec in H. change (x_Status x') with (x_Status x) in H.
    assert (execs s !! Key x = Some l) as He.
    { destruct (ok_dangling _ _ Hok l x Hl) as [|Ht]; [done|]. unfold Terminal in Ht. by rewrite H in Ht. }
    constructor; try apply Hok1.
    + intros k. unfold is_queued. simpl. rewrite is_queued_insert. case_decide as Hk.
      * intros _. subst k. exists x'. split; [by rewrite EX, decide_True|]. unfold queue_of. simpl.
        rewrite queue_of_insert, decide_True by done. by left.
      * intros Hq. destruct (ok_queued _ _ Hok1 k Hq) as (y & Hy & Hm). exists y. split; [done|].
        unfold queue_of. simpl. rewrite queue_of_insert. case_decide as Ht; [|done]. right. by rewrite Ht.
    + intros k y _ Hy Hp Hry. unfold is_queued. simpl. rewrite is_queued_insert. case_decide as Hk; [done|].
      apply (ok_pending _ _ Hok1 k y); [|done..]. intros [-> _]. done.
  - constructor; try apply Hok1. intros k y _ Hy Hp Hry.
    destruct (decide (execs s !! k = Some l)) as [Hk|Hk].
    + destruct (ok_loc _ _ Hok k l Hk) as (z & Hz & <-). simplify_eq.
      rewrite EX, decide_True in Hy by done. simplify_eq. apply andb_false_iff in E as [E|E].
      * by apply is_status_false in E.
      * by apply negb_false_iff in E.
    + apply (ok_pending _ _ Hok1 k y); try done. by intros [_ ?].
Qed.

Lemma BeginComplete_ok t p w a s : store_ok s -> store_ok (BeginComplete t p w a s).1.
Proof.
  intros Hok. unfold BeginComplete. repeat case_match; try done. simpl.
  match goal with H : find _ _ = Some _ |- _ => apply find_inv in H as [_ ?] end.
  apply (set_exec_flags (fun _ => False) _ s n e); try done; [by left|]. simpl. congruence.
Qed.

Lemma AbortComplete_ok t p w s : store_ok s -> store_ok (AbortComplete t p w s).
Proof.
  intros Hok. unfold AbortComplete. repeat case_match; try done.
  match goal with H : find _ _ = Some _ |- _ => apply find_inv in H as [_ ?] end.
  apply (set_exec_flags (fun _ => False) _ s n e); try done; [by left|]. simpl. congruence.
Qed.

Lemma WaitChan_ok t s : store_ok s -> store_ok (WaitChan t s).1.
Proof. intros Hok. unfold WaitChan. case_match; [done|]. destruct Hok. by constructor. Qed.

(** With the invariant no running key is unknown, so the sweep drops none. *)
Lemma expired_loop_spec now keys s :
  store_ok s -> (forall k, k ∈ keys -> k ∈ running s) ->
  expired_loop now keys s =
    (s, omap (fun k => x ← exmap s !! k;
                       if is_status x StatusRunning && negb (x_reserved x) && negb (x_completing x) &&
                          Time.Before (x_LeaseDeadline x) now then Some x else None) keys).
Proof.
  intros Hok. induction keys as [|k keys IH]; intros Hk; [done|]. cbn [expired_loop].
  destruct (proj1 (ok_running _ _ Hok k) (Hk k ltac:(by left))) as (x & Hx & _).
  pose proof Hx as Hx'. rewrite exmap_find in Hx'. destruct (find s k) as [[l y]|]; [|done].
  simpl in Hx'. simplify_eq. rewrite IH by (intros; apply Hk; by right).
  cbn [omap list_omap]. rewrite Hx. cbn [mbind option_bind]. by destruct (_ && _).
Qed.

Lemma expired_loop_ok now keys s : store_ok s -> store_ok (expired_loop now keys s).1.
Proof.
  revert s. induction keys as [|k keys IH]; intros s Hok; [done|]. cbn [expired_loop].
  destruct (find s k) as [[l x]|] eqn:Hf.
  - specialize (IH s Hok). destruct (expired_loop now keys s) as [s' out]. simpl in *. by destruct (_ && _).
  - apply IH. constructor; try apply Hok. intros key. simpl. rewrite elem_of_difference, elem_of_singleton.
    rewrite (ok_running _ _ Hok). split; [tauto|]. intros (x & Hx & Hr). split; [by exists x|].
    intros ->. change (exmap s !! k = Some x) in Hx. rewrite exmap_find, Hf in Hx. done.
Qed.

(** The operations that change a store, as data. *)
Inductive store_op :=
| OpApply (e : Event) | OpReserve (t : string) | OpUnreserve (l : nat) | OpWait (t : string)
| OpBegin (t p w : string) (a : Z) | OpAbort (t p w : string) | OpExpired (now : Z) (order : list string).

Definition run_op (s : Store) (o : store_op) : Store :=
  match o with
  | OpApply e => (Apply s e).1
  | OpReserve t => (ReserveNext t s).1
  | OpUnreserve l => Unreserve l s
  | OpWait t => (WaitChan t s).1
  | OpBegin t p w a => (BeginComplete t p w a s).1
  | OpAbort t p w => AbortComplete t p w s
  | OpExpired now order => (ExpiredLeases now order s).1
  end.

Definition run_ops (retain : Z) (ops : list store_op) : Store :=
  fold_left run_op ops {| NewStore with retainTerminal := retain |}.

Lemma run_op_ok s o : store_ok s -> store_ok (run_op s o).
Proof.
  intros Hok. destruct o; simpl;
    eauto using Apply_ok, ReserveNext_ok, Unreserve_ok, WaitChan_ok, BeginComplete_ok, AbortComplete_ok,
      expired_loop_ok.
Qed.

Lemma run_ops_ok retain ops : store_ok (run_ops retain ops).
Proof.
  unfold run_ops. assert (store_ok {| NewStore with retainTerminal := retain |}) as H by apply NewStore_ok.
  revert H. generalize {| NewStore with retainTerminal := retain |}.
  induction ops as [|o ops IH]; intros s Hok; [done|]. apply IH. by apply run_op_ok.
Qed.

(** C20. After any sequence of store operations, in any order and with any retention cap,
    the indexes agree with the executions: the counts are the numbers of executions per
    status, the running index holds exactly the running ones, and every execution that is
    pending and not reserved is in the queue of its task type, so none is stranded. *)
Theorem store_indexes_agree retain ops :
  let s := run_ops retain ops in
  (forall st, count_of s st = nstat st (exmap s)) /\
  (forall key, key ∈ running s <-> exists x, exmap s !! key = Some x /\ x_Status x = StatusRunning) /\
  (forall key x, exmap s !! key = Some x -> x_Status x = StatusPending -> x_reserved x = false ->
     key ∈ queue_of s (x_TaskType x)).
Proof.
  intros s. pose proof (run_ops_ok retain ops) as Hok. split_and!; try apply Hok.
  intros key x Hx Hp Hr. pose proof (ok_pending _ _ Hok key x) as Hq.
  destruct (ok_queued _ _ Hok key) as (y & Hy & Hm); [apply Hq; [intros []|done..]|]. subst s. congruence.
Qed.

(** ** Scheduling *)

Definition stale (s : Store) (key : string) : Prop :=
  match exmap s !! key with Some x => available x = false | None => True end.

Lemma exmap_ext s s' : execs s' = execs s -> heap s' = heap s -> exmap s' = exmap s.
Proof. intros E1 E2. unfold exmap. by rewrite E1, E2. Qed.

Lemma find_ext s s' key : execs s' = execs s -> heap s' = heap s -> find s' key = find s key.
Proof. intros E1 E2. unfold find. by rewrite E1, E2. Qed.

Lemma reserve_loop_spec t q s s1 :
  execs s1 = execs s -> heap s1 = heap s ->
  match reserve_loop t q s1 with
  | (s', Some l) => exists q1 key q2 x, q = q1 ++ key :: q2 /\ find s key = Some (l, x) /\
      available x = true /\ Forall (stale s) q1 /\ queue_of s' t = q2 /\
      execs s' = execs s /\ heap s' = <[l := {| x with x_reserved := true |}]> (heap s)
  | (s', None) => Forall (stale s) q /\ queue_of s' t = [] /\ execs s' = execs s /\ heap s' = heap s
  end.
Proof.
  revert s1. induction q as [|key q IH]; intros s1 E1 E2; cbn [reserve_loop].
  { unfold queue_of. simpl. rewrite lookup_insert_eq. done. }
  set (s2 := {| s1 with queued := <[key := false]> (queued s1) |}).
  assert (find s2 key = find s key) as EF by (by apply find_ext). rewrite EF.
  assert (stale s key -> match reserve_loop t q s2 with
    | (s', Some l) => exists q1 k q2 x, key :: q = q1 ++ k :: q2 /\ find s k = Some (l, x) /\
        available x = true /\ Forall (stale s) q1 /\ queue_of s' t = q2 /\
        execs s' = execs s /\ heap s' = <[l := {| x with x_reserved := true |}]> (heap s)
    | (s', None) => Forall (stale s) (key :: q) /\ queue_of s' t = [] /\ execs s' = execs s /\ heap s' = heap s
    end) as Hskip.
  { intros Hst. specialize (IH s2 E1 E2). destruct (reserve_loop t q s2) as [s' [l|]].
    - destruct IH as (q1 & k & q2 & x & -> & H1 & H2 & H3 & H4 & H5 & H6).
      exists (key :: q1), k, q2, x. split_and!; try done. by constructor.
    - destruct IH as (H1 & H2). split; [by constructor|done]. }
  destruct (find s key) as [[l x]|] eqn:Hf.
  - destruct (is_status x StatusPending && negb (x_reserved x)) eqn:Ea.
    + exists [], key, q, x. split_and!; try done.
      * unfold queue_of. simpl. by rewrite lookup_insert_eq.
      * simpl. by rewrite E2.
    + apply Hskip. unfold stale. by rewrite (find_exmap s key l x).
  - apply Hskip. unfold stale. by rewrite exmap_find, Hf.
Qed.

(** [ReserveNext] serves the oldest available execution and misses none: it returns
    the first queue entry that is pending and not reserved, marks it reserved and leaves
    the entries behind it; it returns nothing only when no execution of that task type is
    available. *)
Theorem reserve_next_spec retain ops t :
  let s := run_ops retain ops in
  match ReserveNext t s with
  | (s', Some l) => exists q1 key q2 x, queue_of s t = q1 ++ key :: q2 /\ find s key = Some (l, x) /\
      available x = true /\ Forall (stale s) q1 /\ queue_of s' t = q2 /\
      execs s' = execs s /\ heap s' = <[l := {| x with x_reserved := true |}]> (heap s)
  | (s', None) => (forall key x, exmap s !! key = Some x -> x_TaskType x = t -> available x = false) /\
      queue_of s' t = [] /\ execs s' = execs s /\ heap s' = heap s
  end.
Proof.
  intros s. pose proof (run_ops_ok retain ops) as Hok. fold s in Hok.
  pose proof (reserve_loop_spec t (queue_of s t) s s eq_refl eq_refl) as H. unfold ReserveNext.
  destruct (reserve_loop t (queue_of s t) s) as [s' [l|]]; [done|]. destruct H as (H & H2). split; [|done].
  intros key x Hx HT. destruct (available x) eqn:Ea; [|done]. pose proof Ea as Ha. apply available_spec in Ha as [Hp Hr].
  destruct (ok_queued _ _ Hok key) as (y & Hy & Hm); [by apply (ok_pending _ _ Hok key x); [intros []|..]|].
  simplify_eq. rewrite list.Forall_forall in H. specialize (H key Hm). unfold stale in H. rewrite Hx in H. congruence.
Qed.

(** ** Wake-ups *)

Lemma reconcile_wakes key x s ch :
  wake s !! x_TaskType x = Some ch -> is_queued s key = false ->
  is_queued (reconcileQueueLocked key x s) key = true -> ch ∈ fired (reconcileQueueLocked key x s).
Proof.
  intros Hw Hq. unfold reconcileQueueLocked. case_match; [|congruence]. simpl. rewrite Hw. simpl. set_solver.
Qed.

(** A submission of a fresh execution. *)
Lemma Apply_submit s e nx :
  Type_ e = EventSubmitted -> newExecution e = Some nx ->
  find s (SessionKey (Tenant e) (Project e) (SessionID e)) = None ->
  Apply s e =
    (let key := SessionKey (Tenant e) (Project e) (SessionID e) in
     let l := next_loc s in
     let s := {| s with execs := <[key := l]> (execs s); heap := <[l := nx]> (heap s); next_loc := S l |} in
     reconcileQueueLocked key nx (add_count (x_Status nx) 1 s), true).
Proof. intros HT Hn Hf. unfold Apply. rewrite HT. simpl. by rewrite Hf, Hn. Qed.

(** A waiting worker is woken by new work: when a channel was handed out for a task
    type, a submission of that type that is accepted closes it. *)
Theorem submit_wakes_waiter s e nx ch :
  store_ok s -> Type_ e = EventSubmitted -> newExecution e = Some nx ->
  find s (SessionKey (Tenant e) (Project e) (SessionID e)) = None ->
  wake s !! x_TaskType nx = Some ch -> ch ∈ fired (Apply s e).1.
Proof.
  intros Hok HT Hn Hf Hw. rewrite (Apply_submit s e nx HT Hn Hf). cbn [fst].
  apply newExecution_spec in Hn as (EK & ES & ER & _).
  set (key := SessionKey _ _ _) in *. cbv zeta. set (s2 := add_count _ _ _).
  assert (is_queued s2 key = false) as Hq.
  { change (is_queued s2 key) with (is_queued s key). destruct (is_queued s key) eqn:E; [|done].
    destruct (ok_queued _ _ Hok key E) as (x & Hx & _). rewrite exmap_find, Hf in Hx. done. }
  apply reconcile_wakes; [done|done|]. unfold reconcileQueueLocked, is_status.
  rewrite ES, ER, Hq, bool_decide_true by done. simpl. change (wake s2) with (wake s). rewrite Hw.
  unfold is_queued. simpl. by rewrite lookup_insert_eq.
Qed.

(** A wake-up can be lost between the two calls of the lease loop: when work arrives
    after [ReserveNext] found none and before [WaitChan] is called, the channel the
    worker gets is open although an execution of its task type is available. *)
Theorem wakeup_lost_between_reserve_and_wait s e nx :
  Type_ e = EventSubmitted -> newExecution e = Some nx ->
  find s (SessionKey (Tenant e) (Project e) (SessionID e)) = None ->
  is_queued s (SessionKey (Tenant e) (Project e) (SessionID e)) = false ->
  queue_of s (x_TaskType nx) = [] -> wake s !! x_TaskType nx = None -> next_chan s ∉ fired s ->
  let (s1, none) := ReserveNext (x_TaskType nx) s in
  let s2 := (Apply s1 e).1 in
  let (s3, ch) := WaitChan (x_TaskType nx) s2 in
  none = None /\ (ch ∉ fired s3) /\
  exists x, exmap s3 !! SessionKey (Tenant e) (Project e) (SessionID e) = Some x /\
    x_TaskType x = x_TaskType nx /\ available x = true.
Proof.
  intros HT Hn Hf Hq Hempty Hw Hch. unfold ReserveNext. rewrite Hempty. cbn [reserve_loop].
  set (s1 := {| s with queues := _ |}). pose proof Hn as Hn'. apply newExecution_spec in Hn' as (_ & ES & ER & _).
  rewrite (Apply_submit s1 e nx HT Hn Hf). cbn [fst]. set (key := SessionKey _ _ _) in *. cbv zeta.
  set (s2 := add_count _ _ _).
  assert (reconcileQueueLocked key nx s2 =
    {| s2 with queues := <[x_TaskType nx := queue_of s2 (x_TaskType nx) ++ [key]]> (queues s2);
               queued := <[key := true]> (queued s2) |}) as ->.
  { unfold reconcileQueueLocked, is_status. rewrite ES, ER.
    change (is_queued s2 key) with (is_queued s key). rewrite Hq. rewrite bool_decide_true by done. simpl.
    change (wake s2) with (wake s). by rewrite Hw. }
  unfold WaitChan. simpl. rewrite Hw. simpl. split_and!; [done|done|].
  exists nx. split_and!; [|done|by apply available_spec].
  unfold exmap. simpl. rewrite lookup_omap, lookup_insert_eq. simpl. by rewrite lookup_insert_eq.
Qed.

(** ** The store refines a fold over a map of executions *)

(** The specification: what one event does to the executions. *)
Definition fold_event (m : gmap string Execution) (e : Event) : gmap string Execution :=
  let key := SessionKey (Tenant e) (Project e) (SessionID e) in
  if negb (IsWorkflowEvent (Type_ e)) then m
  else if decide (Type_ e = EventSubmitted) then
    match m !! key, newExecution e with
    | None, Some nx => <[key := nx]> m
    | _, _ => m
    end
  else match m !! key with
       | Some x => <[key := (apply x e).1]> m
       | None => m
       end.

Lemma reconcile_exmap key x s : exmap (reconcileQueueLocked key x s) = exmap s.
Proof. unfold reconcileQueueLocked. repeat case_match; by apply exmap_ext. Qed.

(** The next execution to become final evicts nothing: there is no cap on the retained
    ones, or it is not reached. *)
Definition room (s : Store) : Prop := retainTerminal s <= 0 \/ zlen (terminalQ s) < retainTerminal s.

Lemma room_uncapped s : retainTerminal s <= 0 -> room s.
Proof. by left. Qed.

Lemma evict_room s : retainTerminal s <= 0 \/ zlen (terminalQ s) <= retainTerminal s ->
  execs (evictTerminalLocked s) = execs s /\ heap (evictTerminalLocked s) = heap s /\ terminalQ (evictTerminalLocked s) = terminalQ s.
Proof.
  intros Hr. unfold evictTerminalLocked. destruct (Z.leb_spec (retainTerminal s) 0); [done|].
  destruct (terminalQ s) as [|k q] eqn:E; [by cbn|]. cbn [evict_loop].
  destruct (Z.ltb_spec (retainTerminal s) (zlen (k :: q))); [lia|done].
Qed.

(** With room, the indices are all that [reindex] changes. *)
Lemma reindex_room key prev x s : room s ->
  execs (reindex key prev x s) = execs s /\ heap (reindex key prev x s) = heap s /\
  exists q, terminalQ (reindex key prev x s) = terminalQ s ++ q /\ zlen q <= 1 /\ (Terminal x = false -> q = []).
Proof.
  intros Hr. unfold reindex. destruct (decide (x_Status x = prev)).
  { split_and!; [done..|]. exists []. rewrite app_nil_r. done. }
  set (s1 := if is_status x StatusRunning then _ else _).
  assert (execs s1 = execs s /\ heap s1 = heap s /\ terminalQ s1 = terminalQ s /\ retainTerminal s1 = retainTerminal s) as (E1 & E2 & E3 & E4).
  { subst s1. by destruct (is_status x StatusRunning), (decide (prev = StatusRunning)). }
  clearbody s1. destruct (Terminal x).
  - destruct (evict_room {| s1 with terminalQ := terminalQ s1 ++ [key] |}) as (F1 & F2 & F3).
    { unfold room in Hr. cbn. rewrite E3, E4, length_app. cbn. lia. }
    rewrite F1, F2, F3. cbn. rewrite E1, E2, E3. split_and!; [done..|]. by exists [key].
  - rewrite E1, E2, E3. split_and!; [done..|]. exists []. by rewrite app_nil_r.
Qed.

Lemma reindex_exmap key prev x s : room s -> exmap (reindex key prev x s) = exmap s.
Proof. intros Hr. destruct (reindex_room key prev x s Hr) as (E1 & E2 & _). by apply exmap_ext. Qed.

Lemma reconcile_terminalQ key x s : terminalQ (reconcileQueueLocked key x s) = terminalQ s.
Proof. unfold reconcileQueueLocked. by repeat case_match. Qed.

(** An event retires at most one execution, the one it is about, if it makes it final. *)
Lemma Apply_terminalQ s e : room s ->
  exists q, terminalQ (Apply s e).1 = terminalQ s ++ q /\ zlen q <= 1 /\
    ((forall x, exmap s !! SessionKey (Tenant e) (Project e) (SessionID e) = Some x -> Terminal (apply x e).1 = false) -> q = []).
Proof.
  intros Hr. assert (exists q, terminalQ s = terminalQ s ++ q /\ zlen q <= 1 /\ q = []) as (q0 & H0 & H1 & H2) by (by exists []; rewrite app_nil_r).
  unfold Apply. destruct (negb _); [by exists q0|]. set (key := SessionKey _ _ _). rewrite exmap_find. case_decide.
  - destruct (find s key) as [[l x]|]; [by exists q0|]. destruct (newExecution e); [|by exists q0].
    cbn [fst]. rewrite reconcile_terminalQ. by exists q0.
  - destruct (find s key) as [[l x]|]; [|by exists q0]. destruct (apply x e) as [x' [|]] eqn:Ea; [|by exists q0].
    cbn [fst]. rewrite reconcile_terminalQ.
    destruct (reindex_room key (x_Status x) x' (set_exec l x' s)) as (_ & _ & q & E & Hq & Hx); [exact Hr|].
    exists q. split_and!; [done..|]. intros Hnt. apply Hx. specialize (Hnt x eq_refl). by rewrite Ea in Hnt.
Qed.

Lemma Apply_exmap s e :
  store_ok s -> room s -> exmap (Apply s e).1 = fold_event (exmap s) e.
Proof.
  intros Hok Hr. unfold Apply, fold_event. destruct (negb _); [done|].
  set (key := SessionKey _ _ _). rewrite exmap_find. case_decide.
  - destruct (find s key) as [[l x]|] eqn:Hf; simpl; [done|].
    destruct (newExecution e) as [nx|] eqn:Hn; [|done]. simpl. rewrite reconcile_exmap.
    unfold exmap. simpl. apply map_eq. intros k. rewrite !lookup_omap, !lookup_insert, lookup_omap.
    case_decide; simpl; [by rewrite lookup_insert_eq|].
    destruct (execs s !! k) as [l|] eqn:E; [|done]. simpl. apply lookup_insert_ne. intros <-.
    destruct (ok_loc _ _ Hok k _ E) as (y & Hy & _). apply (ok_fresh _ _ Hok) in Hy. lia.
  - destruct (find s key) as [[l x]|] eqn:Hf; simpl; [|done].
    destruct (apply x e) as [x' [|]] eqn:Ha; simpl.
    + rewrite reconcile_exmap, reindex_exmap by done. by apply (exmap_set_found (fun _ => False) s key l x).
    + apply apply_rejected in Ha as ->. symmetry. apply insert_id. by apply find_exmap in Hf.
Qed.

Lemma reserve_exmap t s :
  store_ok s -> exists k x, exmap (ReserveNext t s).1 = exmap s \/
    (exmap s !! k = Some x /\ exmap (ReserveNext t s).1 = <[k := {| x with x_reserved := true |}]> (exmap s)).
Proof.
  intros Hok. pose proof (reserve_loop_spec t (queue_of s t) s s eq_refl eq_refl) as H. unfold ReserveNext.
  destruct (reserve_loop t (queue_of s t) s) as [s' [l|]].
  - destruct H as (q1 & k & q2 & x & _ & Hf & _ & _ & _ & E1 & E2). exists k, x. right.
    split; [by apply find_exmap in Hf|]. simpl. rewrite <- (exmap_set_found (fun _ => False) s k l x) by done.
    by apply exmap_ext.
  - destruct H as (_ & _ & E1 & E2). exists ""%string, (mkExecution "" "" "" "" StatusPending 0 0 0 "" [] [] "" 0 0 0 [] false false).
    left. by apply exmap_ext.
Qed.

Lemma expired_exmap now keys s : exmap (expired_loop now keys s).1 = exmap s.
Proof.
  revert s. induction keys as [|k keys IH]; intros s; [done|]. cbn [expired_loop].
  destruct (find s k) as [[l x]|]; [|by rewrite IH].
  specialize (IH s). destruct (expired_loop now keys s). simpl in *. by destruct (_ && _).
Qed.

Lemma run_op_retain s o : retainTerminal (run_op s o) = retainTerminal s.
Proof.
  assert (forall key x s, retainTerminal (reconcileQueueLocked key x s) = retainTerminal s) as HRq.
  { intros. unfold reconcileQueueLocked. by repeat case_match. }
  assert (forall q s, retainTerminal (evict_loop q s) = retainTerminal s) as HE.
  { intros q. induction q as [|k q IH]; intros s'; cbn [evict_loop]; [done|].
    repeat case_match; try done; by rewrite IH. }
  assert (forall key prev x s, retainTerminal (reindex key prev x s) = retainTerminal s) as HRi.
  { intros key prev x s'. unfold reindex, evictTerminalLocked. case_decide; [done|].
    destruct (decide (prev = StatusRunning)), (is_status x StatusRunning), (Terminal x); try done;
      cbn [retainTerminal]; case_match; rewrite ?HE; done. }
  destruct o as [e|t|l|t|t p w a|t p w|now order]; simpl.
  - unfold Apply. destruct (negb _); [done|]. case_decide.
    + destruct (find _ _); [done|]. destruct (newExecution e); [|done]. cbn [fst]. by rewrite HRq.
    + destruct (find _ _) as [[l x]|]; [|done]. destruct (apply x e) as [x' [|]]; [|done]. cbn [fst]. by rewrite HRq, HRi.
  - unfold ReserveNext. generalize (queue_of s t). intros q. revert s. induction q as [|k q IH]; intros s; [done|].
    cbn [reserve_loop]. repeat case_match; try done; by rewrite IH.
  - unfold Unreserve. by repeat case_match.
  - unfold WaitChan. by repeat case_match.
  - unfold BeginComplete. by repeat case_match.
  - unfold AbortComplete. by repeat case_match.
  - unfold ExpiredLeases. revert s. induction order as [|k keys IH]; intros s; [done|]. cbn [expired_loop].
    destruct (find s k) as [[l x]|]; [|by rewrite IH].
    specialize (IH s). destruct (expired_loop now keys s). simpl in *. by destruct (_ && _).
Qed.

Lemma run_ops_retain n ops : retainTerminal (run_ops n ops) = n.
Proof.
  unfold run_ops. assert (retainTerminal {| NewStore with retainTerminal := n |} = n) as H by done.
  revert H. generalize {| NewStore with retainTerminal := n |}.
  induction ops as [|o ops IH]; intros s H; [done|]. apply IH. by rewrite run_op_retain.
Qed.

(** Only [Apply] retires executions. *)
Lemma run_op_terminalQ s o : match o with OpApply _ => False | _ => True end -> terminalQ (run_op s o) = terminalQ s.
Proof.
  destruct o as [e|t|l|t|t p w a|t p w|now order]; simpl; intros H; try done.
  - unfold ReserveNext. generalize (queue_of s t). intros q. revert s. induction q as [|k q IH]; intros s; [done|].
    cbn [reserve_loop]. repeat case_match; try done; by rewrite IH.
  - unfold Unreserve. by repeat case_match.
  - unfold WaitChan. by repeat case_match.
  - unfold BeginComplete. by repeat case_match.
  - unfold AbortComplete. by repeat case_match.
  - unfold ExpiredLeases. revert s. induction order as [|k keys IH]; intros s; [done|]. cbn [expired_loop].
    destruct (find s k) as [[l x]|]; [|by rewrite IH].
    specialize (IH s). destruct (expired_loop now keys s). simpl in *. by destruct (_ && _).
Qed.

Lemma run_op_room s o : match o with OpApply _ => False | _ => True end -> room s -> room (run_op s o).
Proof. intros Ho Hr. unfold room. by rewrite run_op_retain, run_op_terminalQ. Qed.

(** An event that does not make its execution final leaves the room there is. *)
Lemma Apply_room s e x : room s -> exmap s !! SessionKey (Tenant e) (Project e) (SessionID e) = Some x ->
  Terminal (apply x e).1 = false -> room (Apply s e).1.
Proof.
  intros Hr Hx Ht. destruct (Apply_terminalQ s e Hr) as (q & E & _ & Hq).
  pose proof (run_op_retain s (OpApply e)) as HR. simpl in HR. unfold room. rewrite HR, E, Hq; [by rewrite app_nil_r|].
  intros y Hy. by simplify_eq.
Qed.

(** The executions of a store up to the run-time flags. *)
Definition view (s : Store) : gmap string Execution := folded <$> exmap s.

Lemma run_op_view_same s o :
  store_ok s -> match o with OpApply _ => False | _ => True end -> view (run_op s o) = view s.
Proof.
  intros Hok Ho. unfold view.
  assert (forall l x x', heap s !! l = Some x -> folded x' = folded x ->
    folded <$> exmap (set_exec l x' s) = folded <$> exmap s) as HF.
  { intros l x x' Hl Hx. apply map_eq. intros k. rewrite !lookup_fmap, (exmap_set_exec (fun _ => False) s l x) by done.
    case_decide as E; [|done]. unfold exmap. rewrite lookup_omap, E. simpl. rewrite Hl. simpl. by rewrite Hx. }
  destruct o as [e|t|l|t|t p w a|t p w|now order]; simpl; [done|..].
  - destruct (reserve_exmap t s Hok) as (k & x & [-> |[Hx ->]]); [done|].
    rewrite fmap_insert. apply insert_id. rewrite lookup_fmap, Hx. done.
  - unfold Unreserve. destruct (heap s !! l) as [x|] eqn:Hl; [|done]. repeat case_match; try done;
      by apply (HF l x).
  - unfold WaitChan. by case_match.
  - unfold BeginComplete. repeat case_match; try done. simpl.
    match goal with H : find _ _ = Some (?l, ?x) |- _ => apply find_inv in H as [_ ?]; by apply (HF l x) end.
  - unfold AbortComplete. repeat case_match; try done.
    match goal with H : find _ _ = Some (?l, ?x) |- _ => apply find_inv in H as [_ ?]; by apply (HF l x) end.
  - f_equal. apply expired_exmap.
Qed.

Lemma run_op_view s o :
  store_ok s -> room s ->
  view (run_op s o) = match o with OpApply e => folded <$> fold_event (exmap s) e | _ => view s end.
Proof.
  intros Hok Hr. destruct o as [e|t|l|t|t p w a|t p w|now order]; [|by apply run_op_view_same..].
  unfold view. simpl. by rewrite Apply_exmap.
Qed.

(** C19. The store implements the fold: without a retention cap, [Apply] changes the
    executions exactly as the specification says, and no other store operation changes
    any of their folded fields. *)
Theorem store_refines_fold ops o :
  let s := run_ops 0 ops in
  view (run_op s o) = match o with OpApply e => folded <$> fold_event (exmap s) e | _ => view s end.
Proof.
  intros s. apply run_op_view; [apply run_ops_ok|]. apply room_uncapped. subst s. by rewrite run_ops_retain.
Qed.

(** ** Witnesses and a run with retention *)

Definition submit_event (id task : string) : Event :=
  newEnvelope EventSubmitted "acme" "research" id CoordinatorAgentID 0
    (marshal_submit (mkSubmit task [] 3 30000)) Time.unix_epoch.

Definition dead_event (id : string) : Event :=
  newEnvelope EventDead "acme" "research" id CoordinatorAgentID 1
    (marshal_reason (mkReason ReasonNotRetryable)) Time.unix_epoch.

Definition exec_of (e : Event) : Execution :=
  match newExecution e with
  | Some x => x
  | None => mkExecution "" "" "" "" StatusPending 0 0 0 "" [] [] "" 0 0 0 [] false false
  end.

Lemma submit_wakes_waiter_witness :
  0%nat ∈ fired (Apply (run_ops 0 [OpWait "index"]) (submit_event "run-1" "index")).1.
Proof.
  apply (submit_wakes_waiter (run_ops 0 [OpWait "index"]) (submit_event "run-1" "index")
    (exec_of (submit_event "run-1" "index")) 0%nat).
  - apply run_ops_ok.
  - reflexivity.
  - vm_compute. reflexivity.
  - vm_compute. reflexivity.
  - vm_compute. reflexivity.
Defined.

Lemma wakeup_lost_between_reserve_and_wait_witness :
  let e := submit_event "run-1" "index" in
  let (s1, none) := ReserveNext "index" NewStore in
  let s2 := (Apply s1 e).1 in
  let (s3, ch) := WaitChan "index" s2 in
  none = None /\ (ch ∉ fired s3) /\
  exists x, exmap s3 !! SessionKey (Tenant e) (Project e) (SessionID e) = Some x /\
    x_TaskType x = "index"%string /\ available x = true.
Proof.
  intros e. apply (wakeup_lost_between_reserve_and_wait NewStore e (exec_of e)).
  - reflexivity.
  - vm_compute. reflexivity.
  - reflexivity.
  - reflexivity.
  - reflexivity.
  - reflexivity.
  - apply not_elem_of_empty.
Defined.

(** With a retention cap a worker can be handed an execution of another task type:
    a queue entry of an execution that died and was retired survives, and when the same
    id is submitted again under a new task type the old entry leases it. *)
Theorem retention_misroutes_resubmitted_id :
  let s := run_ops 1 [OpApply (submit_event "a" "index"); OpApply (dead_event "a");
                      OpApply (submit_event "b" "index"); OpApply (dead_event "b");
                      OpApply (submit_event "a" "publish")] in
  exists l x, (ReserveNext "index" s).2 = Some l /\ heap s !! l = Some x /\
    x_TaskType x = "publish"%string.
Proof. eexists _, _. split_and!; vm_compute; reflexivity. Qed.

End Executions.
