(* ===== verification/WfCoord.v ===== *)
(** * The workflow coordinator (internal/workflow/coordinator.go)

    The coordinator's calls as programs: each store method is one atomic command,
    and so are a clock reading, a durable publish, an unsynchronised read through an
    [Execution] pointer and the wait for new work. The same program runs alone, on a
    list of environment answers ([run]), and interleaved with others at every command
    ([step]), with the poller delivering published events again at any time. The
    metrics sink is not modelled: it is written to and never read.

    The theorems: while the retention cap evicts nothing, at most one [Complete] per
    execution reports acceptance, whatever the interleaving, and an evicted execution can be
    completed again; a coordinator that runs its calls one after the other agrees with the
    fold of the log; what each call does. *)

From S2P Require Import Prelude GoLib GoJson GoTime AgentStream WfState WfStore.
Import Json Envelope Workflow Executions.
Open Scope Z_scope.

Module Coordination.

Inductive coord_err := ErrNotFound | ErrPublish (code : Z) | ErrContext.

#[global] Instance coord_err_eq_dec : EqDecision coord_err.
Proof. solve_decision. Defined.

(** ** Commands, their answers and programs *)

Inductive wake_reason := Woken | TimedOut | Cancelled.

Inductive cmd :=
| CApply (e : Event)
| CReserveNext (taskType : string)
| CUnreserve (l : nat)
| CWaitChan (taskType : string)
| CGet (tenant project workflowID : string)
| CBegin (tenant project workflowID : string) (attempt : Z)
| CAbort (tenant project workflowID : string)
| CExpired (now : Z)
| CRead (l : nat)                (* the fields of [*x], without the lock *)
| CNow                           (* c.now() *)
| CWall                          (* time.Now() *)
| CPublish (e : Event)           (* c.pub.PublishEnvelope; answers its error *)
| CSelect (ch : nat).            (* the select of the lease loop *)

Definition ans (c : cmd) : Type :=
  match c with
  | CApply _ => bool
  | CReserveNext _ => option nat
  | CUnreserve _ | CAbort _ _ _ => unit
  | CWaitChan _ => nat
  | CGet _ _ _ | CRead _ => option Execution
  | CBegin _ _ _ _ => bool * bool
  | CExpired _ => list Execution
  | CNow | CWall => Z
  | CPublish _ => option Z
  | CSelect _ => wake_reason
  end.

Inductive prog (A : Type) : Type :=
| Ret (a : A)
| Do (c : cmd) (k : ans c -> prog A).
Arguments Ret {A} a.
Arguments Do {A} c k.

Fixpoint bind {A B} (p : prog A) (f : A -> prog B) : prog B :=
  match p with
  | Ret a => f a
  | Do c k => Do c (fun b => bind (k b) f)
  end.

Notation "x <- p ;; k" := (bind p (fun x => k)) (at level 100, p at next level, right associativity).

(** ** The coordinator *)

Record Coordinator := mkCoordinator { maxAttempts : Z; leaseTTL : Z }.

Definition DefaultMaxAttempts : Z := 3.
Definition DefaultLeaseTTL : Z := 30 * Time.second.
Definition maxLeaseWait : Z := 30 * Time.second.

(** [NewCoordinator] with [WithDefaults(maxAttempts, leaseTTL)]. *)
Definition NewCoordinator (max ttl : Z) : Coordinator :=
  mkCoordinator (if 0 <? max then max else DefaultMaxAttempts) (if 0 <? ttl then ttl else DefaultLeaseTTL).

(** [append]: publish, then fold locally. *)
Definition append (env : Event) : prog (option coord_err) :=
  Do (CPublish env) (fun err =>
    match err with
    | Some code => Ret (Some (ErrPublish code))
    | None => Do (CApply env) (fun _ => Ret None)
    end).

(** [Ingest]. *)
Definition Ingest (e : Event) : prog unit := Do (CApply e) (fun _ => Ret tt).

Record SubmitSpec := mkSpec {
  s_Tenant : string; s_Project : string; s_WorkflowID : string; s_TaskType : string;
  s_Input : bytes; s_MaxAttempts : Z; s_LeaseTTL : Z }.

Definition submit_envelope (c : Coordinator) (spec : SubmitSpec) (now : Z) : Event :=
  let max := if s_MaxAttempts spec <=? 0 then maxAttempts c else s_MaxAttempts spec in
  let ttl := if s_LeaseTTL spec <=? 0 then leaseTTL c else s_LeaseTTL spec in
  newEnvelope EventSubmitted (s_Tenant spec) (s_Project spec) (s_WorkflowID spec) CoordinatorAgentID 0
    (marshal_submit (mkSubmit (s_TaskType spec) (s_Input spec) max (Time.Milliseconds ttl))) now.

(** [Submit]: [(alreadyExists, err)]. *)
Definition Submit (c : Coordinator) (spec : SubmitSpec) : prog (bool * option coord_err) :=
  Do (CGet (s_Tenant spec) (s_Project spec) (s_WorkflowID spec)) (fun x =>
    match x with
    | Some _ => Ret (true, None)
    | None =>
        Do CNow (fun now =>
          err <- append (submit_envelope c spec now) ;; Ret (false, err))
    end).

Record Lease := mkLease {
  l_Tenant : string; l_Project : string; l_WorkflowID : string; l_TaskType : string;
  l_Input : bytes; l_Attempt : Z; l_LeaseDeadline : Z }.

Definition lease_envelope (x : Execution) (workerID : string) (attempt now : Z) : Event :=
  newEnvelope EventLeased (x_Tenant x) (x_Project x) (x_WorkflowID x) workerID attempt
    (marshal_lease (mkLeaseP workerID)) now.

(** [grant] of the execution behind a reserved pointer. *)
Definition grant (l : nat) (workerID : string) : prog (result coord_err Lease) :=
  Do (CRead l) (fun ox =>
    match ox with
    | None => Ret (Err ErrNotFound)      (* a pointer is never nil here *)
    | Some x =>
        let attempt := i64 (x_Attempt x + 1) in
        Do CNow (fun now =>
          err <- append (lease_envelope x workerID attempt now) ;;
          match err with
          | Some err => Ret (Err err)
          | None =>
              Do (CGet (x_Tenant x) (x_Project x) (x_WorkflowID x)) (fun granted =>
                Ret (Ok (mkLease (x_Tenant x) (x_Project x) (x_WorkflowID x) (x_TaskType x) (x_Input x)
                  attempt (match granted with Some g => x_LeaseDeadline g | None => 0 end))))
          end)
    end).

(** The loop of [LeaseBatch]; [fuel] bounds its rounds, [None] is running out of it. *)
Fixpoint lease_loop (fuel : nat) (taskType workerID : string) (max deadline : Z) (out : list Lease) :
    prog (option (result coord_err (list Lease))) :=
  match fuel with
  | O => Ret None
  | S fuel =>
      if max <=? zlen out then Ret (Some (Ok out))
      else
        Do (CReserveNext taskType) (fun r =>
          match r with
          | None =>
              if decide (out = []) then
                Do CWall (fun wall =>
                  if deadline - wall <=? 0 then Ret (Some (Ok []))
                  else
                    Do (CWaitChan taskType) (fun ch =>
                      Do (CSelect ch) (fun w =>
                        match w with
                        | Cancelled => Ret (Some (Err ErrContext))
                        | TimedOut => Ret (Some (Ok []))
                        | Woken => lease_loop fuel taskType workerID max deadline out
                        end)))
              else Ret (Some (Ok out))
          | Some l =>
              g <- grant l workerID ;;
              match g with
              | Err err =>
                  Do (CUnreserve l) (fun _ =>
                    Ret (Some (if decide (out = []) then Err err else Ok out)))
              | Ok lease => lease_loop fuel taskType workerID max deadline (out ++ [lease])
              end
          end)
  end.

Definition LeaseBatch (fuel : nat) (taskType workerID : string) (max wait : Z) :
    prog (option (result coord_err (list Lease))) :=
  let max := if max <=? 0 then 1 else max in
  let wait := if maxLeaseWait <? wait then maxLeaseWait else wait in
  Do CNow (fun now => lease_loop fuel taskType workerID max (now + wait) []).

Definition Lease_ (fuel : nat) (taskType workerID : string) (wait : Z) :
    prog (option (result coord_err (option Lease))) :=
  r <- LeaseBatch fuel taskType workerID 1 wait ;;
  match r with
  | None => Ret None
  | Some (Err err) => Ret (Some (Err err))
  | Some (Ok leases) => Ret (Some (Ok (head leases)))
  end.

Definition heartbeat_envelope (tenant project workflowID workerID : string) (attempt now : Z) : Event :=
  newEnvelope EventHeartbeat tenant project workflowID workerID attempt (marshal_lease (mkLeaseP workerID)) now.

(** [Heartbeat]: [(valid, deadline, err)]. *)
Definition Heartbeat (tenant project workflowID workerID : string) (attempt : Z) :
    prog (bool * Z * option coord_err) :=
  Do (CGet tenant project workflowID) (fun ox =>
    match ox with
    | None => Ret (false, 0, Some ErrNotFound)
    | Some x =>
        if negb (is_status x StatusRunning) || negb (x_Attempt x =? attempt) ||
           negb (bool_decide (x_WorkerID x = workerID))
        then Ret (false, 0, None)
        else
          Do CNow (fun now =>
            err <- append (heartbeat_envelope tenant project workflowID workerID attempt now) ;;
            match err with
            | Some err => Ret (false, 0, Some err)
            | None =>
                Do (CGet tenant project workflowID) (fun cur =>
                  Ret (true, match cur with Some c => x_LeaseDeadline c | None => 0 end, None))
            end)
    end).

Definition complete_envelope (tenant project workflowID workerID : string) (attempt : Z) (res : bytes)
    (now : Z) : Event :=
  newEnvelope EventCompleted tenant project workflowID workerID attempt
    (marshal_complete (mkComplete workerID res)) now.

(** After the append: release the fence, or report success. *)
Definition complete_end (tenant project workflowID : string) (err : option coord_err) :
    prog (bool * bool * option coord_err) :=
  match err with
  | Some err => Do (CAbort tenant project workflowID) (fun _ => Ret (false, false, Some err))
  | None => Ret (true, false, None)
  end.

(** [Complete]: [(accepted, duplicate, err)]. *)
Definition Complete (tenant project workflowID workerID : string) (attempt : Z) (res : bytes) :
    prog (bool * bool * option coord_err) :=
  Do (CBegin tenant project workflowID attempt) (fun r : bool * bool =>
    let (ok, dup) := r in
    if negb ok then Ret (false, dup, None)
    else
      Do CNow (fun now =>
        err <- append (complete_envelope tenant project workflowID workerID attempt res now) ;;
        complete_end tenant project workflowID err)).

Definition appendReason (x : Execution) (evType reason : string) : prog (option coord_err) :=
  Do CNow (fun now =>
    append (newEnvelope evType (x_Tenant x) (x_Project x) (x_WorkflowID x) CoordinatorAgentID
              (x_Attempt x) (marshal_reason (mkReason reason)) now)).

(** [Fail]: [(accepted, willRetry, err)]. *)
Definition Fail_ (tenant project workflowID workerID : string) (attempt : Z) (errMsg : string)
    (retryable : bool) : prog (bool * bool * option coord_err) :=
  Do (CGet tenant project workflowID) (fun ox =>
    match ox with
    | None => Ret (false, false, Some ErrNotFound)
    | Some x =>
        if Terminal x || negb (is_status x StatusRunning) || negb (x_Attempt x =? attempt) ||
           negb (bool_decide (x_WorkerID x = workerID))
        then Ret (false, false, None)
        else
          Do CNow (fun now =>
            err <- append (newEnvelope EventFailed tenant project workflowID workerID attempt
                             (marshal_fail (mkFail workerID errMsg retryable)) now) ;;
            match err with
            | Some err => Ret (false, false, Some err)
            | None =>
                if retryable && (attempt <? x_MaxAttempts x) then
                  err <- appendReason x EventRetry ReasonAttemptFailed ;;
                  match err with
                  | Some err => Ret (true, false, Some err)
                  | None => Ret (true, true, None)
                  end
                else
                  let reason := if retryable then ReasonAttemptsExhausted else ReasonNotRetryable in
                  err <- appendReason x EventDead reason ;; Ret (true, false, err)
            end)
    end).

Fixpoint sweep_loop (expired : list Execution) : prog unit :=
  match expired with
  | [] => Ret tt
  | x :: expired =>
      _err <- (if x_Attempt x <? x_MaxAttempts x then appendReason x EventRetry ReasonLeaseExpired
               else appendReason x EventDead ReasonAttemptsExhausted) ;;
      sweep_loop expired
  end.

Definition SweepExpired : prog Z :=
  Do CNow (fun now =>
    Do (CExpired now) (fun expired : list Execution =>
      _done <- sweep_loop expired ;; Ret (zlen expired))).

(** ** What the commands do *)

Record World := mkWorld { store : Store; log : list Event }.

(** The answer of a publish; an error may come back although the event is on the log
    (a quorum that timed out). *)
Inductive pub_outcome := PubOk | PubErr (code : Z) (logged : bool).

(** What the environment decides at one command. *)
Record oracle := mkOracle {
  o_now : Z; o_wall : Z; o_pub : pub_outcome; o_select : wake_reason; o_order : list string }.

Definition on_store (f : Store -> Store) (w : World) : World := {| w with store := f (store w) |}.

Definition publish (e : Event) (o : pub_outcome) (w : World) : World * option Z :=
  match o with
  | PubOk => ({| w with log := log w ++ [e] |}, None)
  | PubErr code true => ({| w with log := log w ++ [e] |}, Some code)
  | PubErr code false => (w, Some code)
  end.

Definition exec (c : cmd) (o : oracle) (w : World) : World * ans c :=
  match c return World * ans c with
  | CApply e => let (s, b) := Apply (store w) e in ({| w with store := s |}, b)
  | CReserveNext t => let (s, r) := ReserveNext t (store w) in ({| w with store := s |}, r)
  | CUnreserve l => (on_store (Unreserve l) w, tt)
  | CWaitChan t => let (s, ch) := WaitChan t (store w) in ({| w with store := s |}, ch)
  | CGet t p i => (w, Get t p i (store w))
  | CBegin t p i a => let (s, r) := BeginComplete t p i a (store w) in ({| w with store := s |}, r)
  | CAbort t p i => (on_store (AbortComplete t p i) w, tt)
  | CExpired now => let (s, r) := ExpiredLeases now (o_order o) (store w) in ({| w with store := s |}, r)
  | CRead l => (w, heap (store w) !! l)
  | CNow => (w, o_now o)
  | CWall => (w, o_wall o)
  | CPublish e => publish e (o_pub o) w
  | CSelect ch => (w, o_select o)
  end.

(** A worker wakes only on a closed channel, and the sweep visits each running key once. *)
Definition allowed (c : cmd) (o : oracle) (w : World) : Prop :=
  match c with
  | CSelect ch => o_select o = Woken -> ch ∈ fired (store w)
  | CExpired _ => o_order o ≡ₚ elements (running (store w))
  | _ => True
  end.

(** The next command of a program; a finished one stays. *)
Definition step1 {A} (p : prog A) (o : oracle) (w : World) : World * prog A :=
  match p with
  | Ret a => (w, Ret a)
  | Do c k => let (w, b) := exec c o w in (w, k b)
  end.

Definition may_step {A} (p : prog A) (o : oracle) (w : World) : Prop :=
  match p with Ret _ => True | Do c _ => allowed c o w end.

(** Running alone, one answer of the environment per command. *)
Fixpoint run {A} (os : list oracle) (p : prog A) (w : World) : option (World * A) :=
  match p, os with
  | Ret a, _ => Some (w, a)
  | Do c k, o :: os => let (w, b) := exec c o w in run os (k b) w
  | Do _ _, [] => None
  end.

(** ** Concurrent calls *)

Inductive call :=
| CallSubmit (spec : SubmitSpec)
| CallLease (fuel : nat) (taskType workerID : string) (max wait : Z)
| CallHeartbeat (t p i worker : string) (attempt : Z)
| CallComplete (t p i worker : string) (attempt : Z) (res : bytes)
| CallFail (t p i worker : string) (attempt : Z) (errMsg : string) (retryable : bool)
| CallSweep.

Inductive outcome :=
| OutSubmit (r : bool * option coord_err)
| OutLease (r : option (result coord_err (list Lease)))
| OutHeartbeat (r : bool * Z * option coord_err)
| OutComplete (r : bool * bool * option coord_err)
| OutFail (r : bool * bool * option coord_err)
| OutSweep (n : Z).

Definition program (c : Coordinator) (k : call) : prog outcome :=
  match k with
  | CallSubmit spec => r <- Submit c spec ;; Ret (OutSubmit r)
  | CallLease fuel t w max wait => r <- LeaseBatch fuel t w max wait ;; Ret (OutLease r)
  | CallHeartbeat t p i w a => r <- Heartbeat t p i w a ;; Ret (OutHeartbeat r)
  | CallComplete t p i w a res => r <- Complete t p i w a res ;; Ret (OutComplete r)
  | CallFail t p i w a m b => r <- Fail_ t p i w a m b ;; Ret (OutFail r)
  | CallSweep => n <- SweepExpired ;; Ret (OutSweep n)
  end.

Record config := mkConfig { world : World; threads : gmap nat (call * prog outcome) }.

(** A call arrives, a call makes one command, or the poller folds an event of the topic:
    one of the log, again or for the first time, or one another producer put there. *)
Inductive step (c : Coordinator) : config -> config -> Prop :=
| step_call w ths tid k : ths !! tid = None ->
    step c (mkConfig w ths) (mkConfig w (<[tid := (k, program c k)]> ths))
| step_run w ths tid k p o : ths !! tid = Some (k, p) -> may_step p o w ->
    step c (mkConfig w ths) (mkConfig (step1 p o w).1 (<[tid := (k, (step1 p o w).2)]> ths))
| step_deliver w ths e :
    step c (mkConfig w ths) (mkConfig (on_store (fun s => (Apply s e).1) w) ths).

(** A store that retains at most [cap] executions that are final, or all of them if [cap]
    is not positive. *)
Definition capped (cap : Z) : Store := {| NewStore with retainTerminal := cap |}.

(** The configurations of runs that evict nothing: a step is taken only from a store that
    has room for one more execution to become final. *)
Inductive reachable (c : Coordinator) (cap : Z) : config -> Prop :=
| reach_init : reachable c cap (mkConfig (mkWorld (capped cap) []) ∅)
| reach_step cf cf' : reachable c cap cf -> room (store (world cf)) -> step c cf cf' -> reachable c cap cf'.

(** ** Exactly-once completion *)

(** The execution of a key is fenced by a completion in flight, or final. *)
Definition claimed (s : Store) (key : string) : Prop :=
  exists x, exmap s !! key = Some x /\ (x_completing x = true \/ Terminal x = true).

Lemma apply_claimed x e :
  x_completing x = true \/ Terminal x = true ->
  x_completing (apply x e).1 = true \/ Terminal (apply x e).1 = true.
Proof.
  intros H. destruct (Terminal x) eqn:Ht; [rewrite terminal_rejects by done; by right|].
  destruct H as [H|]; [|done]. unfold apply. repeat case_decide;
    unfold apply_leased, apply_heartbeat, apply_completed, apply_failed, apply_retry, apply_dead;
    repeat case_match; simpl; auto.
Qed.

Lemma claimed_ext s s' key : exmap s' = exmap s -> claimed s key -> claimed s' key.
Proof. intros E (x & Hx & Hc). exists x. by rewrite E. Qed.

Lemma claimed_insert s s' k x' key :
  exmap s' = <[k := x']> (exmap s) ->
  (forall x, exmap s !! k = Some x -> x_completing x = true \/ Terminal x = true ->
     x_completing x' = true \/ Terminal x' = true) ->
  claimed s key -> claimed s' key.
Proof.
  intros E Hk (x & Hx & Hc). unfold claimed. setoid_rewrite E. setoid_rewrite lookup_insert.
  case_decide; [subst k|by exists x]. exists x'. split; [done|]. by apply (Hk x).
Qed.

Lemma Apply_claimed s e key :
  store_ok s -> room s -> claimed s key -> claimed (Apply s e).1 key.
Proof.
  intros Hok Hr Hc. pose proof (Apply_exmap s e Hok Hr) as E. unfold fold_event in E.
  destruct (negb _); [by apply (claimed_ext s)|]. set (k := SessionKey _ _ _) in *. case_decide.
  - destruct (exmap s !! k) eqn:Hk; [by apply (claimed_ext s)|].
    destruct (newExecution e); [|by apply (claimed_ext s)].
    eapply claimed_insert; [done| |done]. intros. congruence.
  - destruct (exmap s !! k) as [x|] eqn:Hk; [|by apply (claimed_ext s)].
    eapply claimed_insert; [done| |done]. intros y Hy Hcy. simplify_eq. by apply apply_claimed.
Qed.

Lemma set_exec_claimed s l x x' key :
  store_ok s -> heap s !! l = Some x ->
  (x_completing x = true \/ Terminal x = true -> x_completing x' = true \/ Terminal x' = true) ->
  claimed s key -> claimed (set_exec l x' s) key.
Proof.
  intros Hok Hl Hx (y & Hy & Hc). unfold claimed. setoid_rewrite (exmap_set_exec (fun _ => False) s l x); [|done..].
  case_decide as E; [|by exists y]. exists x'. split; [done|]. apply Hx. unfold exmap in Hy.
  rewrite lookup_omap, E in Hy. simpl in Hy. by simplify_eq.
Qed.

(** No command but an abort of the same key releases a claim. *)
Lemma exec_claimed c o w key :
  store_ok (store w) -> room (store w) ->
  (forall t p i, c = CAbort t p i -> SessionKey t p i <> key) ->
  claimed (store w) key -> claimed (store (exec c o w).1) key.
Proof.
  intros Hok Hr Hab Hc. destruct c as [e|t|l|t|t p i|t p i a|t p i|now|l| | |e|ch]; try done; simpl.
  - pose proof (Apply_claimed (store w) e key Hok Hr Hc). by destruct (Apply (store w) e).
  - destruct (reserve_exmap t (store w) Hok) as (k & x & HE).
    destruct (ReserveNext t (store w)) as [s r]. simpl in *. destruct HE as [HE|[Hx HE]].
    + by apply (claimed_ext (store w)).
    + eapply claimed_insert; [done| |done]. intros. by simplify_eq.
  - unfold Unreserve. destruct (heap (store w) !! l) as [x|] eqn:Hl; [|done]. repeat case_match; try done;
      (eapply claimed_ext; [by apply exmap_ext|]; by apply (set_exec_claimed _ l x)).
  - unfold WaitChan. destruct (wake (store w) !! t); exact Hc.
  - unfold BeginComplete. repeat case_match; simplify_eq; try done. simpl.
    match goal with H : find _ _ = Some (?l, ?x) |- _ => apply find_inv in H as [_ ?] end.
    eapply set_exec_claimed; [done..| |done]. by left.
  - unfold AbortComplete. destruct (find _ _) as [[l x]|] eqn:Hf; [|done].
    destruct Hc as (y & Hy & Hc). exists y. split; [|done].
    rewrite (exmap_set_found (fun _ => False) _ (SessionKey t p i) l x) by done.
    rewrite lookup_insert_ne; [done|]. by apply Hab.
  - eapply claimed_ext; [|done]. pose proof (expired_exmap now (o_order o) (store w)) as HE.
    unfold ExpiredLeases. by destruct (expired_loop now (o_order o) (store w)).
  - unfold publish. by repeat case_match.
Qed.

Lemma exec_ok c o w : store_ok (store w) -> store_ok (store (exec c o w).1).
Proof.
  intros Hok. destruct c as [e|t|l|t|t p i|t p i a|t p i|now|l| | |e|ch]; try done; simpl.
  - pose proof (Apply_ok (store w) e Hok). by destruct (Apply (store w) e).
  - pose proof (ReserveNext_ok t (store w) Hok). by destruct (ReserveNext t (store w)).
  - by apply Unreserve_ok.
  - pose proof (WaitChan_ok t (store w) Hok). by destruct (WaitChan t (store w)).
  - pose proof (BeginComplete_ok t p i a (store w) Hok). by destruct (BeginComplete t p i a (store w)).
  - by apply AbortComplete_ok.
  - pose proof (expired_loop_ok now (o_order o) (store w) Hok). unfold ExpiredLeases.
    by destruct (expired_loop now (o_order o) (store w)).
  - unfold publish. by repeat case_match.
Qed.

(** What a command does to the store is a store operation, or nothing. *)
Lemma exec_store c o w :
  store (exec c o w).1 = store w \/ exists op, store (exec c o w).1 = run_op (store w) op.
Proof.
  destruct c as [e|t|l|t|t p i|t p i a|t p i|now|l| | |e|ch]; try (by left); simpl.
  - right. exists (OpApply e). simpl. by destruct (Apply (store w) e).
  - right. exists (OpReserve t). simpl. by destruct (ReserveNext t (store w)).
  - right. by exists (OpUnreserve l).
  - right. exists (OpWait t). simpl. by destruct (WaitChan t (store w)).
  - right. exists (OpBegin t p i a). simpl. by destruct (BeginComplete t p i a (store w)).
  - right. by exists (OpAbort t p i).
  - right. exists (OpExpired now (o_order o)). simpl. by destruct (ExpiredLeases now (o_order o) (store w)).
  - left. unfold publish. by repeat case_match.
Qed.

Lemma exec_retain c o w : retainTerminal (store (exec c o w).1) = retainTerminal (store w).
Proof. destruct (exec_store c o w) as [->|[op ->]]; [done|]. apply run_op_retain. Qed.

(** A program that never touches a completion fence. *)
Fixpoint quiet {A} (p : prog A) : Prop :=
  match p with
  | Ret _ => True
  | Do c k => (match c with CBegin _ _ _ _ | CAbort _ _ _ => False | _ => True end) /\ forall b, quiet (k b)
  end.

Lemma quiet_bind {A B} (p : prog A) (f : A -> prog B) : quiet p -> (forall a, quiet (f a)) -> quiet (bind p f).
Proof. induction p as [a|c k IH]; simpl; [auto|]. intros [H1 H2] Hf. split; [done|]. intros b. by apply IH. Qed.

Lemma quiet_append e : quiet (append e).
Proof. simpl. split; [done|]. by intros [|]. Qed.

Lemma quiet_reason x ty r : quiet (appendReason x ty r).
Proof. split; [done|]. intros. apply quiet_append. Qed.

Lemma quiet_lease fuel t w max d out : quiet (lease_loop fuel t w max d out).
Proof.
  revert out. induction fuel as [|fuel IH]; intros out; cbn [lease_loop]; [done|].
  case_match; [done|]. split; [done|]. intros [l|].
  - apply quiet_bind.
    + split; [done|]. intros [x|]; [|done]. split; [done|]. intros now.
      apply quiet_bind; [apply quiet_append|]. intros [err|]; [done|]. split; [done|]. done.
    + intros [lease|err]; [apply IH|]. by split.
  - case_decide; [|done]. split; [done|]. intros wall. case_match; [done|]. split; [done|]. intros ch.
    split; [done|]. intros [| |]; [apply IH|done|done].
Qed.

Lemma quiet_sweep xs : quiet (sweep_loop xs).
Proof.
  induction xs as [|x xs IH]; [done|]. cbn [sweep_loop]. apply quiet_bind; [|done].
  case_match; apply quiet_reason.
Qed.

Definition is_complete (k : call) : bool := match k with CallComplete _ _ _ _ _ _ => true | _ => false end.

Lemma quiet_program c k : is_complete k = false -> quiet (program c k).
Proof.
  intros Hk. destruct k as [spec|fuel t w max wait|t p i w a|t p i w a res|t p i w a m b|]; try done;
    cbn [program]; (apply quiet_bind; [|done]).
  - split; [done|]. intros [x|]; [done|]. split; [done|]. intros now. apply quiet_bind; [apply quiet_append|done].
  - split; [done|]. intros now. apply quiet_lease.
  - split; [done|]. intros [x|]; [|done]. case_match; [done|]. split; [done|]. intros now.
    apply quiet_bind; [apply quiet_append|]. intros [err|]; [done|]. by split.
  - split; [done|]. intros [x|]; [|done]. case_match; [done|]. split; [done|]. intros now.
    apply quiet_bind; [apply quiet_append|]. intros [err|]; [done|].
    case_match; (apply quiet_bind; [apply quiet_reason|]); [by intros [|]|done].
  - split; [done|]. intros now. split; [done|]. intros xs. apply quiet_bind; [apply quiet_sweep|done].
Qed.

(** The points of a [Complete] call; the flag says whether it holds the fence, or held
    it to the end and won. *)
Inductive cpoint (c : Coordinator) (t p i w : string) (a : Z) (res : bytes) : prog outcome -> bool -> Prop :=
| cp_begin : cpoint c t p i w a res (program c (CallComplete t p i w a res)) false
| cp_now : cpoint c t p i w a res
    (Do CNow (fun now => r <- (err <- append (complete_envelope t p i w a res now) ;; complete_end t p i err) ;;
                         Ret (OutComplete r))) true
| cp_publish now : cpoint c t p i w a res
    (r <- (err <- append (complete_envelope t p i w a res now) ;; complete_end t p i err) ;;
     Ret (OutComplete r)) true
| cp_apply now : cpoint c t p i w a res
    (Do (CApply (complete_envelope t p i w a res now)) (fun _ => Ret (OutComplete (true, false, None)))) true
| cp_abort err : cpoint c t p i w a res
    (Do (CAbort t p i) (fun _ => Ret (OutComplete (false, false, Some err)))) true
| cp_won : cpoint c t p i w a res (Ret (OutComplete (true, false, None))) true
| cp_lost d err : cpoint c t p i w a res (Ret (OutComplete (false, d, err))) false.

(** The thread's claim on a key. *)
Inductive claims (c : Coordinator) (key : string) : call * prog outcome -> Prop :=
| claims_intro t p i w a res pr : SessionKey t p i = key -> cpoint c t p i w a res pr true ->
    claims c key (CallComplete t p i w a res, pr).

Definition thread_ok (c : Coordinator) (th : call * prog outcome) : Prop :=
  match th.1 with
  | CallComplete t p i w a res => exists b, cpoint c t p i w a res th.2 b
  | _ => quiet th.2
  end.

Record once (c : Coordinator) (cf : config) : Prop := {
  once_store : store_ok (store (world cf));
  once_threads : forall tid th, threads cf !! tid = Some th -> thread_ok c th;
  once_claimed : forall tid th key, threads cf !! tid = Some th -> claims c key th ->
    claimed (store (world cf)) key;
  once_unique : forall tid tid' th th' key, threads cf !! tid = Some th -> threads cf !! tid' = Some th' ->
    claims c key th -> claims c key th' -> tid = tid'
}.

Lemma once_update c w ths tid th w' th' :
  once c (mkConfig w ths) -> ths !! tid = Some th ->
  store_ok (store w') -> thread_ok c th' ->
  (forall key, claimed (store w) key -> (claims c key th -> claims c key th') -> claimed (store w') key) ->
  (forall key, claims c key th' ->
     claims c key th \/ (~ claimed (store w) key /\ claimed (store w') key)) ->
  once c (mkConfig w' (<[tid := th']> ths)).
Proof.
  intros [H1 H3 H4 H5] Hth Hok Ht Hkeep Hnew. simpl in *. constructor; simpl; try done.
  - intros tid2 th2 Hl. rewrite lookup_insert in Hl. case_decide; simplify_eq; [done|eauto].
  - intros tid2 th2 key Hl Hc. rewrite lookup_insert in Hl. case_decide as E; simplify_eq.
    + destruct (Hnew key Hc) as [Ho|[_ ?]]; [|done]. apply Hkeep; [by eapply H4|done].
    + apply Hkeep; [by eapply H4|]. intros Ho. exfalso. apply E. by eapply (H5 tid tid2).
  - assert (forall tid2 th2 key, tid2 <> tid -> ths !! tid2 = Some th2 -> claims c key th2 -> claims c key th' -> False)
      as Hx.
    { intros tid2 th2 key Hne Hl2 Hc2 Hc. destruct (Hnew key Hc) as [Ho|[Hn _]].
      - apply Hne. by eapply (H5 tid2 tid).
      - apply Hn. by eapply H4. }
    intros tid1 tid2 th1 th2 key Hl1 Hl2 Hc1 Hc2. rewrite lookup_insert in Hl1, Hl2.
    repeat case_decide; simplify_eq; try done.
    + exfalso. apply (Hx tid1 th1 key); congruence || done.
    + exfalso. apply (Hx tid2 th2 key); congruence || done.
    + by eapply (H5 tid1 tid2).
Qed.

(** A program of a call that can still win, or has. *)
Definition may_win (p : prog outcome) : bool :=
  match p with
  | Ret (OutComplete (b, _, _)) => b
  | Ret _ => false
  | Do _ _ => true
  end.

Lemma claims_may_win c key k p : claims c key (k, p) -> may_win p = true.
Proof. intros H. inversion H as [? ? ? ? ? ? ? _ Hp]; subst. by inversion Hp. Qed.

Lemma begin_claim t p i a s s' dup :
  store_ok s -> BeginComplete t p i a s = (s', (true, dup)) ->
  ~ claimed s (SessionKey t p i) /\ claimed s' (SessionKey t p i).
Proof.
  intros Hok H. unfold BeginComplete in H. destruct (find s (SessionKey t p i)) as [[l x]|] eqn:Hf; [|done].
  repeat case_match; simplify_eq. pose proof (find_exmap _ _ _ _ Hf) as Hx.
  match goal with H : _ || x_completing x = false |- _ => apply orb_false_elim in H as [H ?] end. split.
  - intros (y & Hy & Hc). simplify_eq. go_bool. destruct Hc; congruence.
  - eexists. rewrite (exmap_set_found (fun _ => False) s _ l x) by done. rewrite lookup_insert_eq.
    split; [done|]. by left.
Qed.

Lemma begin_refused t p i a s s' dup : BeginComplete t p i a s = (s', (false, dup)) -> s' = s.
Proof. unfold BeginComplete. intros H. repeat case_match; by simplify_eq. Qed.

Lemma step1_do {A} cm (cont : ans cm -> prog A) o w :
  step1 (Do cm cont) o w = ((exec cm o w).1, cont (exec cm o w).2).
Proof. simpl. by destruct (exec cm o w). Qed.

(** One command of a [Complete] call. *)
Lemma once_complete_step c w ths tid t p i wk a res pr b o :
  once c (mkConfig w ths) -> room (store w) -> ths !! tid = Some (CallComplete t p i wk a res, pr) ->
  cpoint c t p i wk a res pr b ->
  once c (mkConfig (step1 pr o w).1 (<[tid := (CallComplete t p i wk a res, (step1 pr o w).2)]> ths)).
Proof.
  intros Hinv Hr Hth Hp. pose proof Hinv as [Hok _ _ _]. simpl in Hok.
  set (k := CallComplete t p i wk a res) in *.
  assert (forall pr', cpoint c t p i wk a res pr' true -> claims c (SessionKey t p i) (k, pr')) as Hcl.
  { intros. by constructor. }
  assert (forall key pr', claims c key (k, pr') -> key = SessionKey t p i) as Hkey.
  { intros key pr' Hc. by inversion Hc. }
  (* a command that is no abort, from a claiming point to a claiming point *)
  assert (forall cm (cont : ans cm -> prog outcome), pr = Do cm cont -> b = true ->
    (forall t p i, cm <> CAbort t p i) -> cpoint c t p i wk a res (cont (exec cm o w).2) true ->
    once c (mkConfig (exec cm o w).1 (<[tid := (k, cont (exec cm o w).2)]> ths))) as Hgo.
  { intros cm cont -> -> Hna Hp'. eapply once_update; [done..| | | |].
    - by apply exec_ok.
    - by exists true.
    - intros key Hc _. apply exec_claimed; try done. intros t' p' i' E. by apply Hna in E.
    - intros key Hc. left. rewrite (Hkey _ _ Hc). by apply Hcl. }
  destruct Hp as [| |now|now|err| |d err].
  - change (program c (CallComplete t p i wk a res)) with (program c k). cbn [step1 program k bind Complete].
    cbn [exec]. destruct (BeginComplete t p i a (store w)) as [s' [[|] dup]] eqn:EB; cbn [fst snd negb bind].
    + destruct (begin_claim _ _ _ _ _ _ _ Hok EB) as [Hn Hc].
      pose proof (exec_ok (CBegin t p i a) o w Hok) as Hok'.
      pose proof (exec_claimed (CBegin t p i a) o w) as Hcl'. cbn [exec] in Hok', Hcl'.
      rewrite EB in Hok', Hcl'. cbn [fst store] in Hok', Hcl'.
      eapply once_update; [done..| | | |]; simpl.
      * done.
      * exists true. apply cp_now.
      * intros key Hk _. by apply Hcl'.
      * intros key Hk. rewrite (Hkey _ _ Hk). by right.
    + apply begin_refused in EB as ->. eapply once_update; [done..| | | |]; simpl; try done.
      * exists false. apply cp_lost.
      * intros key Hk. apply claims_may_win in Hk. done.
  - apply (Hgo CNow _ eq_refl eq_refl); [done|]. apply cp_publish.
  - cbn [append bind] in Hgo |- *. rewrite step1_do. apply (Hgo _ _ eq_refl eq_refl); [done|].
    cbn [exec]. unfold publish.
    destruct (o_pub o) as [|code [|]]; cbn [fst snd bind complete_end]; [apply cp_apply|apply cp_abort..].
  - rewrite step1_do. apply (Hgo _ _ eq_refl eq_refl); [done|]. apply cp_won.
  - cbn [step1 exec]. eapply once_update; [done..| | | |]; simpl.
    + by apply AbortComplete_ok.
    + exists false. apply cp_lost.
    + intros key Hk Hcc. apply (exec_claimed (CAbort t p i) o w); try done.
      intros t' p' i' E. injection E as <- <- <-. intros <-.
      specialize (Hcc (Hcl _ (cp_abort _ _ _ _ _ _ _ err))). by apply claims_may_win in Hcc.
    + intros key Hk. by apply claims_may_win in Hk.
  - cbn [step1 fst snd]. eapply once_update; [done..| | |]; simpl; try done; [by exists true; apply cp_won|by left].
  - cbn [step1 fst snd]. eapply once_update; [done..| | |]; simpl; try done; [by exists false; apply cp_lost|].
    intros key Hk. apply claims_may_win in Hk as Hw. simpl in Hw. done.
Qed.

Lemma once_step c cf cf' : once c cf -> room (store (world cf)) -> step c cf cf' -> once c cf'.
Proof.
  intros Hinv Hr Hs. destruct Hs as [w ths tid k Hf|w ths tid k p o Hth Hm|w ths e].
  - destruct Hinv as [H1 H3 H4 H5]. simpl in *.
    assert (forall key, ~ claims c key (k, program c k)) as Hno.
    { intros key Hc. inversion Hc as [t p i wk a res pr _ Hp]; subst. inversion Hp. }
    constructor; simpl; try done.
    + intros tid2 th Hl. rewrite lookup_insert in Hl. case_decide; simplify_eq; [|eauto].
      unfold thread_ok. simpl. destruct k; try (by apply quiet_program). exists false. apply cp_begin.
    + intros tid2 th key Hl Hc. rewrite lookup_insert in Hl. case_decide; simplify_eq; [by apply Hno in Hc|eauto].
    + intros tid1 tid2 th1 th2 key Hl1 Hl2 Hc1 Hc2. rewrite lookup_insert in Hl1, Hl2.
      repeat case_decide; simplify_eq; try done;
        first [by apply Hno in Hc1|by apply Hno in Hc2|by eapply H5].
  - pose proof (once_threads _ _ Hinv tid (k, p) Hth) as Ht. unfold thread_ok in Ht. simpl in Ht.
    assert (quiet p -> (forall key, ~ claims c key (k, p)) -> (forall p' key, ~ claims c key (k, p')) ->
      thread_ok c (k, (step1 p o w).2) ->
      once c (mkConfig (step1 p o w).1 (<[tid := (k, (step1 p o w).2)]> ths))) as Hq.
    { intros Hqp Hno Hno' Hok'. pose proof Hinv as [H1 _ _ _]. simpl in H1, Hr.
      destruct p as [a|cm cont].
      - eapply once_update; [done..| |]; intros key; [done|]. intros Hc. by apply Hno' in Hc.
      - rewrite step1_do in *. cbn [fst snd] in *. destruct Hqp as [Hcm _]. eapply once_update; [done..| | | |].
        + by apply exec_ok.
        + done.
        + intros key Hc _. apply exec_claimed; try done. by intros t p i ->.
        + intros key Hc. by apply Hno' in Hc. }
    destruct k; try (apply Hq; [done|intros key Hc; by inversion Hc|intros p' key Hc; by inversion Hc|];
      unfold thread_ok; simpl; destruct p as [x|cm cont]; [done|rewrite step1_do; by apply Ht]).
    destruct Ht as [b Hb]. by eapply once_complete_step.
  - destruct Hinv as [H1 H3 H4 H5]. simpl in *. constructor; simpl; try done.
    + by apply Apply_ok.
    + intros tid th key Hl Hc. apply Apply_claimed; [done..|]. by eapply H4.
Qed.

Lemma reachable_once c cap cf : reachable c cap cf -> once c cf.
Proof.
  intros H. induction H; [|by eapply once_step].
  constructor; simpl; try (intros *; rewrite lookup_empty; done).
  apply (NewStore_ok cap).
Qed.

(** C1. Exactly-once completion, as long as nothing is evicted.  In one process whose store
    retains at most [cap] final executions (all of them if [cap] is not positive), and in a
    run in which fewer than [cap] are retained at every step: whatever the interleaving of
    calls, publishes that fail or time out, sweeps and re-delivered or foreign events, at
    most one [Complete] call per execution reports that its result was accepted.  Beyond the
    cap the claim is false: [evicted_execution_completes_again] completes an execution twice
    after its eviction. *)
Theorem at_most_one_completion c cap cf tid tid' t p i w a res t' p' i' w' a' res' d d' e e' :
  reachable c cap cf -> SessionKey t p i = SessionKey t' p' i' ->
  threads cf !! tid = Some (CallComplete t p i w a res, Ret (OutComplete (true, d, e))) ->
  threads cf !! tid' = Some (CallComplete t' p' i' w' a' res', Ret (OutComplete (true, d', e'))) ->
  tid = tid'.
Proof.
  intros HR EK H1 H2. apply reachable_once in HR.
  assert (forall t p i w a res d e, thread_ok c (CallComplete t p i w a res, Ret (OutComplete (true, d, e))) ->
    claims c (SessionKey t p i) (CallComplete t p i w a res, Ret (OutComplete (true, d, e)))) as Hcl.
  { intros ? ? ? ? ? ? ? ? [b Hb]. constructor; [done|]. inversion Hb. apply cp_won. }
  apply (once_unique _ _ HR tid tid' _ _ (SessionKey t p i) H1 H2).
  - apply Hcl. by apply (once_threads _ _ HR tid).
  - rewrite EK. apply Hcl. by apply (once_threads _ _ HR tid').
Qed.

(** ** The live store is the fold of the log *)

(** A program that folds every event it publishes right after publishing it, and folds
    nothing else; [pend] is the published event that is not folded yet. *)
Fixpoint disciplined {A} (pend : option Event) (p : prog A) : Prop :=
  match p with
  | Ret _ => pend = None
  | Do c k =>
      match c return (ans c -> prog A) -> Prop with
      | CPublish e => fun k => pend = None /\ (forall code, disciplined None (k (Some code))) /\
                               disciplined (Some e) (k None)
      | CApply e => fun k => pend = Some e /\ forall b, disciplined None (k b)
      | _ => fun k => pend = None /\ forall b, disciplined None (k b)
      end k
  end.

Lemma disciplined_bind {A B} (p : prog A) (f : A -> prog B) pend :
  disciplined pend p -> (forall a, disciplined None (f a)) -> disciplined pend (bind p f).
Proof.
  revert pend. induction p as [a|c k IH]; intros pend; cbn [disciplined bind].
  - intros -> Hf. apply Hf.
  - destruct c; intros H Hf; destruct H as [-> H]; (split; [done|]); try (intros b; by apply IH).
    destruct H as [H1 H2]. split; [intros code; by apply IH|by apply IH].
Qed.

Lemma disciplined_append e : disciplined None (append e).
Proof. simpl. split_and!; done. Qed.

Lemma disciplined_reason x ty r : disciplined None (appendReason x ty r).
Proof. split; [done|]. intros. apply disciplined_append. Qed.

Lemma disciplined_lease fuel t w max d out : disciplined None (lease_loop fuel t w max d out).
Proof.
  revert out. induction fuel as [|fuel IH]; intros out; cbn [lease_loop]; [done|].
  case_match; [done|]. split; [done|]. intros [l|].
  - apply disciplined_bind.
    + split; [done|]. intros [x|]; [|done]. split; [done|]. intros now.
      apply disciplined_bind; [apply disciplined_append|]. intros [err|]; [done|]. split; [done|]. done.
    + intros [lease|err]; [apply IH|]. by split.
  - case_decide; [|done]. split; [done|]. intros wall. case_match; [done|]. split; [done|]. intros ch.
    split; [done|]. intros [| |]; [apply IH|done|done].
Qed.

Lemma disciplined_sweep xs : disciplined None (sweep_loop xs).
Proof.
  induction xs as [|x xs IH]; [done|]. cbn [sweep_loop]. apply disciplined_bind; [|done].
  case_match; apply disciplined_reason.
Qed.

Lemma disciplined_program c k : disciplined None (program c k).
Proof.
  destruct k as [spec|fuel t w max wait|t p i w a|t p i w a res|t p i w a m b|];
    cbn [program]; (apply disciplined_bind; [|done]).
  - split; [done|]. intros [x|]; [done|]. split; [done|]. intros now.
    apply disciplined_bind; [apply disciplined_append|done].
  - split; [done|]. intros now. apply disciplined_lease.
  - split; [done|]. intros [x|]; [|done]. case_match; [done|]. split; [done|]. intros now.
    apply disciplined_bind; [apply disciplined_append|]. intros [err|]; [done|]. by split.
  - split; [done|]. intros [[|] dup]; [|done]. split; [done|]. intros now.
    apply disciplined_bind; [apply disciplined_append|]. intros [err|]; [by split|done].
  - split; [done|]. intros [x|]; [|done]. case_match; [done|]. split; [done|]. intros now.
    apply disciplined_bind; [apply disciplined_append|]. intros [err|]; [done|].
    case_match; (apply disciplined_bind; [apply disciplined_reason|]); [by intros [|]|done].
  - split; [done|]. intros now. split; [done|]. intros xs. apply disciplined_bind; [apply disciplined_sweep|done].
Qed.

Lemma folded_idemp x : folded (folded x) = folded x.
Proof. done. Qed.

(** The fold does not see the flags. *)
Lemma fold_event_view m m' e :
  folded <$> m = folded <$> m' -> folded <$> fold_event m e = folded <$> fold_event m' e.
Proof.
  intros H. unfold fold_event. destruct (negb _); [done|]. set (key := SessionKey _ _ _).
  assert (folded <$> (m !! key) = folded <$> (m' !! key)) as Hk by (by rewrite <- !lookup_fmap, H).
  case_decide.
  - destruct (m !! key), (m' !! key); simplify_option_eq; try done. destruct (newExecution e); [|done].
    by rewrite !fmap_insert, H.
  - destruct (m !! key) as [x|], (m' !! key) as [y|]; cbn in Hk; try done.
    assert (folded x = folded y) as Hxy by congruence. rewrite !fmap_insert, H. f_equal.
    by rewrite <- (proj2 (folded_apply x e)), <- (proj2 (folded_apply y e)), Hxy.
Qed.

Definition log_fold (l : list Event) : gmap string Execution := fold_left fold_event l ∅.

(** A cap that [n] events cannot exceed. *)
Definition fits (cap n : Z) : Prop := cap <= 0 \/ n <= cap.

(** The store agrees with the log up to an event that is being folded, and has retired at
    most one execution per event. *)
Definition in_step (cap : Z) (pend : option Event) (w : World) : Prop :=
  store_ok (store w) /\ retainTerminal (store w) = cap /\
  match pend with
  | None => zlen (terminalQ (store w)) <= zlen (log w) /\ view (store w) = folded <$> log_fold (log w)
  | Some e => exists l, log w = l ++ [e] /\ zlen (terminalQ (store w)) <= zlen l /\ view (store w) = folded <$> log_fold l
  end.

(** A publish that either succeeds or leaves nothing on the log. *)
Definition clean (o : oracle) : Prop := match o_pub o with PubErr _ true => False | _ => True end.

Lemma log_fold_snoc l e : log_fold (l ++ [e]) = fold_event (log_fold l) e.
Proof. unfold log_fold. by rewrite fold_left_app. Qed.

(** One command keeps the store in step with the log. *)
Lemma in_step_exec {A} cap pend c (k : ans c -> prog A) o w :
  in_step cap pend w -> fits cap (zlen (log w)) -> disciplined pend (Do c k) -> clean o ->
  exists pend', in_step cap pend' (exec c o w).1 /\ disciplined pend' (k (exec c o w).2).
Proof.
  intros (Hok & Hr & Hv) Hfit Hd Ho.
  assert (store_ok (store (exec c o w).1)) as Hok' by (by apply exec_ok).
  assert (retainTerminal (store (exec c o w).1) = cap) as Hr' by (by rewrite exec_retain).
  assert (forall op, match op with OpApply _ => False | _ => True end -> pend = None ->
    store (exec c o w).1 = run_op (store w) op -> log (exec c o w).1 = log w -> in_step cap None (exec c o w).1) as Hsame.
  { intros op Hop -> Es El. split_and!; [done..| |]; rewrite Es, El.
    - rewrite run_op_terminalQ by done. apply Hv.
    - rewrite run_op_view_same by done. apply Hv. }
  assert (pend = None -> (exec c o w).1 = w -> in_step cap None (exec c o w).1) as Hid.
  { intros -> E. rewrite E. exact (conj Hok (conj Hr Hv)). }
  destruct c as [e|t|l|t|t p i|t p i a|t p i|now|l| | |e|ch]; cbn [disciplined] in Hd;
    destruct Hd as [Hp Hd]; try (exists None; split; [by apply Hid|by apply Hd]).
  - subst pend. destruct Hv as (l & El & Hq & Hv). exists None. split; [|apply Hd].
    assert (room (store w)) as Hroom.
    { unfold room. destruct Hfit as [?|Hfit]; [left; by rewrite Hr|right]. rewrite El, length_app in Hfit. cbn in Hfit. lia. }
    pose proof (run_op_view (store w) (OpApply e) Hok Hroom) as HA. simpl in HA.
    destruct (Apply_terminalQ (store w) e Hroom) as (q & Eq & Hlq & _).
    split_and!; [done..| |]; simpl; destruct (Apply (store w) e) as [s b]; simpl in *.
    + rewrite Eq, El, !length_app. cbn. lia.
    + rewrite HA, El, log_fold_snoc. by apply fold_event_view.
  - exists None. split; [|apply Hd]. apply (Hsame (OpReserve t)); try done; simpl; by destruct (ReserveNext t (store w)).
  - exists None. split; [|apply Hd]. by apply (Hsame (OpUnreserve l)).
  - exists None. split; [|apply Hd]. apply (Hsame (OpWait t)); try done; simpl; by destruct (WaitChan t (store w)).
  - exists None. split; [|apply Hd]. apply (Hsame (OpBegin t p i a)); try done; simpl;
      by destruct (BeginComplete t p i a (store w)).
  - exists None. split; [|apply Hd]. by apply (Hsame (OpAbort t p i)).
  - exists None. split; [|apply Hd]. apply (Hsame (OpExpired now (o_order o))); try done; simpl;
      by destruct (ExpiredLeases now (o_order o) (store w)).
  - subst pend. destruct Hd as [Hd1 Hd2]. unfold clean in Ho. simpl in *. unfold publish in *.
    destruct (o_pub o) as [|code [|]]; simpl in *; try done.
    + exists (Some e). split; [|done]. destruct Hv as [Hq Hv]. split_and!; [done..|]. simpl. eauto.
    + exists None. split; [|apply Hd1]. exact (conj Hok (conj Hr Hv)).
Qed.

(** The log only grows. *)
Lemma exec_log_grows c o w : log w `prefix_of` log (exec c o w).1.
Proof.
  destruct c as [e|t|l|t|t p i|t p i a|t p i|now|l| | |e|ch]; simpl; try done.
  - by destruct (Apply (store w) e).
  - by destruct (ReserveNext t (store w)).
  - by destruct (WaitChan t (store w)).
  - by destruct (BeginComplete t p i a (store w)).
  - by destruct (ExpiredLeases now (o_order o) (store w)).
  - unfold publish. destruct (o_pub o) as [|code [|]]; simpl; try done; by apply prefix_app_r.
Qed.

Lemma run_log {A} os (p : prog A) w w' a : run os p w = Some (w', a) -> log w `prefix_of` log w'.
Proof.
  revert p w. induction os as [|o os IH]; intros [x|c k] w HR; cbn [run] in HR; simplify_eq; try done.
  pose proof (exec_log_grows c o w) as H. destruct (exec c o w) as [w1 b]. etrans; [exact H|]. by eapply IH.
Qed.

Lemma fits_prefix {A} cap (l l' : list A) : l `prefix_of` l' -> fits cap (zlen l') -> fits cap (zlen l).
Proof. intros H%prefix_length [?|?]; [by left|right; lia]. Qed.

Lemma in_step_run {A} cap os (p : prog A) pend w w' a :
  in_step cap pend w -> fits cap (zlen (log w')) -> disciplined pend p -> Forall clean os -> run os p w = Some (w', a) ->
  in_step cap None w'.
Proof.
  revert p pend w. induction os as [|o os IH]; intros [x|c k] pend w Hin Hfit Hd Ho Hrun; cbn [run] in Hrun; simplify_eq.
  - by cbn in Hd; subst pend.
  - by cbn in Hd; subst pend.
  - apply list.Forall_cons in Ho as [Ho Hos].
    assert (log w `prefix_of` log w') as Hpre.
    { pose proof (exec_log_grows c o w) as H. destruct (exec c o w). etrans; [exact H|]. by eapply run_log. }
    destruct (in_step_exec cap pend c k o w Hin (fits_prefix _ _ _ Hpre Hfit) Hd Ho) as (pend' & Hin' & Hd').
    destruct (exec c o w) as [w1 b]. by eapply IH.
Qed.

(** Calls one after the other, each with the answers the environment gives it. *)
Fixpoint run_calls (c : Coordinator) (calls : list (call * list oracle)) (w : World) : option World :=
  match calls with
  | [] => Some w
  | (k, os) :: calls =>
      match run os (program c k) w with
      | Some (w, _) => run_calls c calls w
      | None => None
      end
  end.

(** [Ingest] of every event of a log into an empty store, as the poller does at startup. *)
Definition rebuild (l : list Event) : Store := fold_left (fun s e => (Apply s e).1) l NewStore.

(** The same into a store with a retention cap. *)
Definition rebuild_capped (cap : Z) (l : list Event) : Store := fold_left (fun s e => (Apply s e).1) l (capped cap).

Lemma rebuild_capped_view cap l : fits cap (zlen l) -> in_step cap None (mkWorld (rebuild_capped cap l) l).
Proof.
  induction l as [|e l IH] using rev_ind; intros Hfit.
  - split_and!; [apply (NewStore_ok cap)|done|done|reflexivity].
  - destruct IH as (Hok & Hr & Hq & Hv); [by eapply fits_prefix; [apply prefix_app_r|]|]. cbn [store log] in *.
    assert (room (rebuild_capped cap l)) as Hroom.
    { unfold room. rewrite Hr. destruct Hfit as [?|Hfit]; [by left|right]. rewrite length_app in Hfit. cbn in Hfit. lia. }
    unfold rebuild_capped in *. split_and!; cbn [store log]; rewrite fold_left_app; cbn [fold_left];
      set (s := fold_left _ l (capped cap)) in *.
    + by apply Apply_ok.
    + pose proof (run_op_retain s (OpApply e)) as HR. simpl in HR. by rewrite HR.
    + destruct (Apply_terminalQ s e Hroom) as (q & -> & Hlq & _). rewrite !length_app. cbn. lia.
    + pose proof (run_op_view s (OpApply e) Hok Hroom) as HA. simpl in HA. rewrite HA, log_fold_snoc. by apply fold_event_view.
Qed.

(** After any calls the store is the fold of the log. *)
Lemma run_calls_log c calls w w' : run_calls c calls w = Some w' -> log w `prefix_of` log w'.
Proof.
  revert w. induction calls as [|[k os] calls IH]; intros w Hrun; cbn [run_calls] in Hrun; simplify_eq; [done|].
  destruct (run os (program c k) w) as [[w1 r]|] eqn:E; [|done]. etrans; [by eapply run_log|by eapply IH].
Qed.

Lemma run_calls_view c cap calls w :
  run_calls c calls (mkWorld (capped cap) []) = Some w -> Forall (fun p => Forall clean p.2) calls ->
  fits cap (zlen (log w)) -> view (store w) = folded <$> log_fold (log w).
Proof.
  intros Hrun Hcl Hfit. assert (in_step cap None w) as (_ & _ & _ & Hv).
  { assert (in_step cap None (mkWorld (capped cap) [])) as H0 by (split_and!; [apply (NewStore_ok cap)|done|done|reflexivity]).
    revert Hrun H0. generalize (mkWorld (capped cap) []).
    induction Hcl as [|[k os] calls Ho Hcl IH]; intros w0 Hrun H0; cbn [run_calls] in Hrun; simplify_eq; [done|].
    destruct (run os (program c k) w0) as [[w1 r]|] eqn:E; [|done]. apply (IH w1 Hrun).
    eapply in_step_run; [exact H0| |apply disciplined_program|exact Ho|exact E].
    eapply fits_prefix; [by eapply run_calls_log|done]. }
  exact Hv.
Qed.

(** C2. Rebuilding from the log gives the live state: with no cap on the retained executions,
    after any sequence of coordinator calls, one after the other (publishes may fail, as long
    as a failed one leaves nothing on the log), a store
    rebuilt by folding the log holds the same executions, history included, as the store
    that lived through the calls. *)
Theorem rebuild_is_live_state c calls w :
  run_calls c calls (mkWorld NewStore []) = Some w ->
  Forall (fun p => Forall clean p.2) calls ->
  view (rebuild (log w)) = view (store w).
Proof.
  intros Hrun Hcl. assert (fits 0 (zlen (log w))) as Hf by by left.
  rewrite (run_calls_view c 0 calls w Hrun Hcl Hf). by destruct (rebuild_capped_view 0 (log w) Hf) as (_ & _ & _ & HR).
Qed.

(** ** The calls, one by one *)

(** A publish that succeeds. *)
Definition ok_at (now : Z) : oracle := mkOracle now now PubOk TimedOut [].

(** A run keeps the store's invariant and its retention cap. *)
Lemma run_store_ok {A} os (p : prog A) w w' a :
  run os p w = Some (w', a) -> store_ok (store w) ->
  store_ok (store w') /\ retainTerminal (store w') = retainTerminal (store w).
Proof.
  revert p w. induction os as [|o os IH]; intros [x|c k] w HR Hok; cbn [run] in HR; simplify_eq; try done.
  pose proof (exec_ok c o w Hok) as H1. pose proof (exec_retain c o w) as H2. destruct (exec c o w) as [w1 b].
  destruct (IH _ _ HR H1) as [H3 H4]. split; [done|]. by rewrite H4.
Qed.

(** What a run uses of its answers: the rest is left to what follows. *)
Lemma run_bind {A B} os (p : prog A) w w' a :
  run os p w = Some (w', a) ->
  exists k, forall os' (f : A -> prog B), run (take k os ++ os') (bind p f) w = run os' (f a) w'.
Proof.
  revert p w. induction os as [|o os IH]; intros [x|c k] w HR; cbn [run] in HR; simplify_eq.
  1,2: exists 0%nat; intros os' f; by rewrite take_0.
  destruct (exec c o w) as [w1 b] eqn:E. destruct (IH _ _ HR) as (n & Hn). exists (S n). intros os' f.
  cbn [take app bind run]. rewrite E. apply Hn.
Qed.

Lemma run_do {A} o os c (k : ans c -> prog A) w :
  run (o :: os) (Do c k) w = run os (k (exec c o w).2) (exec c o w).1.
Proof. cbn [run]. by destruct (exec c o w). Qed.

Lemma run_now {A} o os (k : Z -> prog A) w : run (o :: os) (Do CNow k) w = run os (k (o_now o)) w.
Proof. done. Qed.

(** Running the commands of [append] with a successful publish. *)
Lemma run_append {A} os o1 o2 e (f : option coord_err -> prog A) w :
  o_pub o1 = PubOk ->
  run (o1 :: o2 :: os) (bind (append e) f) w =
    run os (f None) {| store := (Apply (store w) e).1; log := log w ++ [e] |}.
Proof. intros H. cbn. rewrite H. cbn. by destruct (Apply (store w) e). Qed.

Lemma Get_exmap t p i s : Get t p i s = exmap s !! SessionKey t p i.
Proof. unfold Get. by rewrite exmap_find. Qed.

(** Folding an event into a tracked execution. *)
Lemma Get_Apply t p i s e x :
  store_ok s -> room s -> IsWorkflowEvent (Type_ e) = true -> Type_ e <> EventSubmitted ->
  SessionKey (Tenant e) (Project e) (SessionID e) = SessionKey t p i ->
  Get t p i s = Some x -> Get t p i (Apply s e).1 = Some (apply x e).1.
Proof.
  intros Hok Hr Hw Hs Hk Hx. rewrite Get_exmap in *. rewrite Apply_exmap by done. unfold fold_event.
  rewrite Hw, Hk. cbn [negb]. rewrite decide_False, Hx by done. by rewrite lookup_insert_eq.
Qed.

Definition events_of (w w' : World) (es : list Event) : Prop := log w' = log w ++ es.

Lemma run_bind_ret {A} os (p : prog A) w : run os (bind p Ret) w = run os p w.
Proof.
  revert p w. induction os as [|o os IH]; intros [x|c k] w; try done. cbn [bind run]. destruct (exec c o w). apply IH.
Qed.

Lemma run_bind_assoc {A B C} os (p : prog A) (f : A -> prog B) (g : B -> prog C) w :
  run os (bind (bind p f) g) w = run os (bind p (fun a => bind (f a) g)) w.
Proof.
  revert p w. induction os as [|o os IH]; intros [x|c k] w; try done. cbn [bind run]. destruct (exec c o w). apply IH.
Qed.

(** The commands of a [Complete] whose publish is accepted, whatever follows. *)
Lemma complete_steps t p i worker a res w x o1 o2 o3 o4 :
  store_ok (store w) -> room (store w) ->
  Get t p i (store w) = Some x -> Terminal x = false -> x_completing x = false ->
  x_Attempt x = a -> a <> 0 -> utf8_ok worker -> Time.in_calendar (o_now o2) -> o_pub o3 = PubOk ->
  exists w' x', (forall B os (f : bool * bool * option coord_err -> prog B),
      run (o1 :: o2 :: o3 :: o4 :: os) (bind (Complete t p i worker a res) f) w = run os (f (true, false, None)) w') /\
    events_of w w' [complete_envelope t p i worker a res (o_now o2)] /\
    Get t p i (store w') = Some x' /\ x_Status x' = StatusCompleted /\ x_Result x' = res /\
    x_WorkerID x' = worker /\ x_UpdatedAt x' = o_now o2 /\
    run [ok_at 0] (Complete t p i worker a res) w' = Some (w', (false, true, None)).
Proof.
  intros Hok Hr Hx Ht Hc Ha Ha0 Hw Hnow Hpub. set (now := o_now o2) in *.
  pose proof (Get_exmap t p i (store w)) as Hg. rewrite Hx, exmap_find in Hg.
  destruct (find (store w) (SessionKey t p i)) as [[l y]|] eqn:Hf; simpl in Hg; simplify_eq.
  set (y1 := {| y with x_completing := true |}). set (s1 := set_exec l y1 (store w)).
  assert (BeginComplete t p i (x_Attempt y) (store w) = (s1, (true, false))) as HB.
  { unfold BeginComplete. rewrite Hf, Ht, Hc. rewrite (proj2 (Z.eqb_eq _ _)), (proj2 (Z.eqb_neq _ _)) by done.
    unfold is_status. unfold Terminal in Ht. destruct (x_Status y); done. }
  set (env := complete_envelope t p i worker (x_Attempt y) res now).
  assert (store_ok s1) as Hok1. { pose proof (BeginComplete_ok t p i (x_Attempt y) (store w) Hok). by rewrite HB in H. }
  assert (Get t p i s1 = Some y1) as Hg1.
  { rewrite Get_exmap. unfold s1. rewrite (exmap_set_found (fun _ => False) _ (SessionKey t p i) l y) by done.
    by rewrite lookup_insert_eq. }
  pose proof (Get_Apply t p i s1 env y1 Hok1 Hr eq_refl ltac:(done) eq_refl Hg1) as HA.
  assert (apply y1 env = (record_ EventCompleted (x_Attempt y) worker "" now
    {| y1 with x_Status := StatusCompleted; x_Result := res; x_WorkerID := worker; x_completing := false |}, true)) as Hap.
  { change (apply y1 env) with (apply_completed y1 env). unfold apply_completed.
    change (complete_of env) with (unmarshal set_complete (mkComplete "" []) (marshal_complete (mkComplete worker res))).
    rewrite unmarshal_complete by done. change (Terminal y1) with (Terminal y). rewrite Ht.
    change (Attempt env) with (x_Attempt y). change (x_Attempt y1) with (x_Attempt y).
    rewrite (proj2 (Z.eqb_eq _ _)), (proj2 (Z.eqb_neq _ _)) by done. cbn [negb orb].
    unfold env, complete_envelope. by rewrite newEnvelope_time. }
  set (w' := {| store := (Apply s1 env).1; log := log w ++ [env] |}). rewrite Hap in HA.
  exists w'. eexists. split_and!.
  - intros B os f. unfold Complete. cbn [bind]. rewrite run_do. cbn [exec]. rewrite HB. cbn [fst snd negb bind].
    rewrite run_now. fold now. cbn [append bind]. rewrite run_do. cbn [exec]. unfold publish. rewrite Hpub. cbn [fst snd bind].
    rewrite run_do. cbn [exec store log]. fold env. unfold w'. by destruct (Apply s1 env).
  - done.
  - exact HA.
  - done.
  - done.
  - done.
  - done.
  - unfold Complete. cbn [run exec]. unfold BeginComplete. cbn [store w'].
    rewrite Get_exmap, exmap_find in HA. destruct (find (Apply s1 env).1 (SessionKey t p i)) as [[l2 z]|]; [|done].
    cbn in HA. simplify_eq. cbn. done.
Qed.

Lemma complete_run t p i worker a res w x now :
  store_ok (store w) -> room (store w) ->
  Get t p i (store w) = Some x -> Terminal x = false -> x_completing x = false ->
  x_Attempt x = a -> a <> 0 -> utf8_ok worker -> Time.in_calendar now ->
  exists w' x', run [ok_at 0; ok_at now; ok_at 0; ok_at 0] (Complete t p i worker a res) w =
      Some (w', (true, false, None)) /\
    events_of w w' [complete_envelope t p i worker a res now] /\
    Get t p i (store w') = Some x' /\ x_Status x' = StatusCompleted /\ x_Result x' = res /\
    x_WorkerID x' = worker /\ x_UpdatedAt x' = now /\
    run [ok_at 0] (Complete t p i worker a res) w' = Some (w', (false, true, None)).
Proof.
  intros Hok Hr Hx Ht Hc Ha Ha0 Hw Hnow.
  destruct (complete_steps t p i worker a res w x (ok_at 0) (ok_at now) (ok_at 0) (ok_at 0)) as (w' & x' & Hrun & H); [done..|].
  exists w', x'. split; [|exact H]. by rewrite <- run_bind_ret, Hrun.
Qed.

(** [Complete] on a live execution with the current attempt, run alone: it appends
    one completion event, reports acceptance, and the execution is completed with
    exactly the given result and worker; a second [Complete] is then a duplicate that
    appends nothing. *)
Theorem complete_alone t p i worker a res w x now :
  store_ok (store w) -> room (store w) ->
  Get t p i (store w) = Some x -> Terminal x = false -> x_completing x = false ->
  x_Attempt x = a -> a <> 0 -> utf8_ok worker -> Time.in_calendar now ->
  exists w' x', run [ok_at 0; ok_at now; ok_at 0; ok_at 0] (Complete t p i worker a res) w =
      Some (w', (true, false, None)) /\
    events_of w w' [complete_envelope t p i worker a res now] /\
    Get t p i (store w') = Some x' /\ x_Status x' = StatusCompleted /\ x_Result x' = res /\
    x_WorkerID x' = worker /\ x_UpdatedAt x' = now /\
    run [ok_at 0] (Complete t p i worker a res) w' = Some (w', (false, true, None)).
Proof. apply complete_run. Qed.

(** The commands of a [Heartbeat] by the worker that holds the lease, whose publish is
    accepted: it moves the deadline and nothing else. *)
Lemma heartbeat_steps t p i worker a w x o1 o2 o3 o4 o5 :
  store_ok (store w) -> room (store w) ->
  Get t p i (store w) = Some x -> x_Status x = StatusRunning -> x_Attempt x = a -> x_WorkerID x = worker ->
  utf8_ok worker -> Time.in_calendar (o_now o2) -> o_pub o3 = PubOk ->
  exists w' x', (forall B os (f : bool * Z * option coord_err -> prog B),
      run (o1 :: o2 :: o3 :: o4 :: o5 :: os) (bind (Heartbeat t p i worker a) f) w =
      run os (f (true, o_now o2 + x_LeaseTTL x, None)) w') /\
    events_of w w' [heartbeat_envelope t p i worker a (o_now o2)] /\
    Get t p i (store w') = Some x' /\ x_Status x' = StatusRunning /\ x_Attempt x' = a /\ x_WorkerID x' = worker /\
    x_completing x' = x_completing x /\ store_ok (store w') /\ room (store w').
Proof.
  intros Hok Hr Hx Hs Ha Hw Hu Hn Hpub. set (now := o_now o2) in *. set (env := heartbeat_envelope t p i worker a now).
  assert (apply x env = ({| x with x_LeaseDeadline := now + x_LeaseTTL x; x_UpdatedAt := now |}, true)) as Hap.
  { change (apply x env) with (apply_heartbeat x env). unfold apply_heartbeat.
    change (lease_of env) with (unmarshal set_lease (mkLeaseP "") (marshal_lease (mkLeaseP worker))).
    rewrite unmarshal_lease by done. unfold is_status. change (Attempt env) with a. cbn [lp_WorkerID].
    rewrite Hs, Ha, Hw, Z.eqb_refl, !bool_decide_true by done. cbn [negb orb].
    unfold env, heartbeat_envelope. by rewrite newEnvelope_time. }
  pose proof (Get_Apply t p i (store w) env x Hok Hr eq_refl ltac:(done) eq_refl Hx) as HA.
  assert (room (Apply (store w) env).1) as Hr'.
  { apply (Apply_room _ _ x); [done|exact (eq_trans (eq_sym (Get_exmap t p i (store w))) Hx)|].
    rewrite Hap. unfold Terminal. cbn [fst x_Status]. by rewrite Hs. }
  rewrite Hap in HA. cbn [fst] in HA. exists {| store := (Apply (store w) env).1; log := log w ++ [env] |}.
  eexists. split_and!; [|done|exact HA|done..|by apply Apply_ok|done].
  intros B os f. unfold Heartbeat. cbn [bind]. rewrite run_do. cbn [exec fst snd]. rewrite Hx. unfold is_status.
  rewrite Hs, Ha, Hw, Z.eqb_refl, !bool_decide_true by done. cbn [negb orb bind]. rewrite run_now. fold now env.
  cbn [append bind]. rewrite run_do. cbn [exec]. unfold publish. rewrite Hpub. cbn [fst snd bind]. rewrite run_do. cbn [exec store log].
  destruct (Apply (store w) env) as [s1 b]. cbn [fst snd bind] in *. rewrite run_do. cbn [exec fst snd store]. by rewrite HA.
Qed.

(** The executions the three events of a failure leave. *)
Lemma apply_failed_env x t p i worker a msg b now :
  x_Status x = StatusRunning -> x_Attempt x = a -> utf8_ok worker -> utf8_ok msg ->
  let e := newEnvelope EventFailed t p i worker a (marshal_fail (mkFail worker msg b)) now in
  let x' := (apply x e).1 in
  x_Status x' = StatusRetrying /\ x_Attempt x' = a /\ x_Error x' = msg /\ x_MaxAttempts x' = x_MaxAttempts x.
Proof.
  intros Hs Ha Hw Hm e. change (apply x e) with (apply_failed x e). unfold apply_failed.
  change (fail_of e) with (unmarshal set_fail (mkFail "" "" false) (marshal_fail (mkFail worker msg b))).
  rewrite unmarshal_fail by done. unfold Terminal, is_status. rewrite Hs.
  change (Attempt e) with a. rewrite (proj2 (Z.eqb_eq _ _)) by done. done.
Qed.

Lemma apply_retry_env x t p i ag a r now :
  x_Status x = StatusRunning \/ x_Status x = StatusRetrying -> utf8_ok r ->
  let e := newEnvelope EventRetry t p i ag a (marshal_reason (mkReason r)) now in
  let x' := (apply x e).1 in
  x_Status x' = StatusPending /\ x_Attempt x' = x_Attempt x /\ x_Error x' = x_Error x.
Proof.
  intros Hs Hr e. change (apply x e) with (apply_retry x e). unfold apply_retry.
  change (reason_of e) with (unmarshal set_reason (mkReason "") (marshal_reason (mkReason r))).
  rewrite unmarshal_reason by done. unfold Terminal, is_status. destruct Hs as [-> | ->]; done.
Qed.

Lemma apply_dead_env x t p i ag a r now :
  Terminal x = false -> utf8_ok r ->
  let e := newEnvelope EventDead t p i ag a (marshal_reason (mkReason r)) now in
  let x' := (apply x e).1 in
  x_Status x' = StatusFailed /\ x_Attempt x' = x_Attempt x /\
  x_Error x' = (if decide (x_Error x = "") then r else x_Error x).
Proof.
  intros Hs Hr e. change (apply x e) with (apply_dead x e). unfold apply_dead.
  change (reason_of e) with (unmarshal set_reason (mkReason "") (marshal_reason (mkReason r))).
  rewrite unmarshal_reason by done. rewrite Hs. done.
Qed.

Lemma fail_run t p i worker a msg retryable w x n1 n2 :
  store_ok (store w) -> room (store w) ->
  Get t p i (store w) = Some x -> x_Status x = StatusRunning -> x_Attempt x = a -> x_WorkerID x = worker ->
  SessionKey (x_Tenant x) (x_Project x) (x_WorkflowID x) = SessionKey t p i ->
  utf8_ok worker -> utf8_ok msg -> msg <> "" ->
  let again := retryable && (a <? x_MaxAttempts x) in
  exists w' x', run [ok_at 0; ok_at n1; ok_at 0; ok_at 0; ok_at n2; ok_at 0; ok_at 0]
      (Fail_ t p i worker a msg retryable) w = Some (w', (true, again, None)) /\
    Get t p i (store w') = Some x' /\ x_Attempt x' = a /\ x_Error x' = msg /\
    x_Status x' = if again then StatusPending else StatusFailed.
Proof.
  intros Hok Hr Hx Hs Ha Hwk Hkey Hw Hm Hmne again.
  set (e1 := newEnvelope EventFailed t p i worker a (marshal_fail (mkFail worker msg retryable)) n1).
  set (s1 := (Apply (store w) e1).1). set (x1 := (apply x e1).1).
  assert (Get t p i s1 = Some x1) as G1 by (by apply Get_Apply).
  assert (store_ok s1) as Hok1 by (by apply Apply_ok).
  destruct (apply_failed_env x t p i worker a msg retryable n1) as (S1 & A1 & E1 & M1); [done..|].
  fold e1 x1 in S1, A1, E1, M1.
  assert (room s1) as Hr1.
  { apply (Apply_room _ _ x); [done|by rewrite <- Get_exmap|]. change (Terminal x1 = false). unfold Terminal. by rewrite S1. }
  set (ty := if again then EventRetry else EventDead).
  set (reason := if again then ReasonAttemptFailed else
                 if retryable then ReasonAttemptsExhausted else ReasonNotRetryable).
  set (e2 := newEnvelope ty (x_Tenant x) (x_Project x) (x_WorkflowID x) CoordinatorAgentID (x_Attempt x)
               (marshal_reason (mkReason reason)) n2).
  assert (Get t p i (Apply s1 e2).1 = Some (apply x1 e2).1) as G2.
  { apply Get_Apply; try done; unfold e2, ty; by destruct again. }
  exists {| store := (Apply s1 e2).1; log := (log w ++ [e1]) ++ [e2] |}, (apply x1 e2).1. split.
  - unfold Fail_. rewrite run_do. cbn [exec fst snd]. rewrite Hx. unfold Terminal, is_status.
    rewrite Hs, Hwk. rewrite (proj2 (Z.eqb_eq _ _)) by done. rewrite !bool_decide_true by done. cbn [negb orb].
    rewrite run_now, run_append by done. cbn [o_now ok_at]. fold again. unfold appendReason.
    fold e1. change (Apply (store w) e1).1 with s1.
    unfold e2, ty, reason in *. destruct again; cbn [bind]; rewrite run_now, run_append by done; done.
  - assert (utf8_ok reason) as Hre.
    { unfold reason. destruct again; [vm_compute; reflexivity|]. destruct retryable; vm_compute; reflexivity. }
    split; [exact G2|]. unfold e2, ty. destruct again.
    + destruct (apply_retry_env x1 (x_Tenant x) (x_Project x) (x_WorkflowID x) CoordinatorAgentID (x_Attempt x)
        reason n2) as (S2 & A2 & E2); [by right|done|]. split_and!; congruence.
    + destruct (apply_dead_env x1 (x_Tenant x) (x_Project x) (x_WorkflowID x) CoordinatorAgentID (x_Attempt x)
        reason n2) as (S2 & A2 & E2); [unfold Terminal; by rewrite S1|done|].
      rewrite E1 in E2. rewrite decide_False in E2 by done. split_and!; congruence.
Qed.

(** [Fail] by the worker that holds the lease, run alone: the execution is queued
    again while it is retryable and attempts remain, and is failed for good otherwise,
    with the worker's message as its error. *)
Theorem fail_alone t p i worker a msg retryable w x n1 n2 :
  store_ok (store w) -> room (store w) ->
  Get t p i (store w) = Some x -> x_Status x = StatusRunning -> x_Attempt x = a -> x_WorkerID x = worker ->
  SessionKey (x_Tenant x) (x_Project x) (x_WorkflowID x) = SessionKey t p i ->
  utf8_ok worker -> utf8_ok msg -> msg <> "" ->
  let again := retryable && (a <? x_MaxAttempts x) in
  exists w' x', run [ok_at 0; ok_at n1; ok_at 0; ok_at 0; ok_at n2; ok_at 0; ok_at 0]
      (Fail_ t p i worker a msg retryable) w = Some (w', (true, again, None)) /\
    Get t p i (store w') = Some x' /\ x_Attempt x' = a /\ x_Error x' = msg /\
    x_Status x' = if again then StatusPending else StatusFailed.
Proof. apply fail_run. Qed.

Lemma apply_leased_env x worker now :
  x_Status x = StatusPending -> 0 <= x_Attempt x < 2 ^ 63 - 1 -> utf8_ok worker -> Time.in_calendar now ->
  let e := lease_envelope x worker (x_Attempt x + 1) now in
  let x' := (apply x e).1 in
  x_Status x' = StatusRunning /\ x_Attempt x' = x_Attempt x + 1 /\ x_WorkerID x' = worker /\
  x_LeaseDeadline x' = now + x_LeaseTTL x /\ x_reserved x' = false /\ x_completing x' = x_completing x.
Proof.
  intros Hs Ha Hw Hn e. change (apply x e) with (apply_leased x e). unfold apply_leased.
  change (lease_of e) with (unmarshal set_lease (mkLeaseP "") (marshal_lease (mkLeaseP worker))).
  rewrite unmarshal_lease by done. unfold Terminal, is_status. rewrite Hs.
  change (Attempt e) with (x_Attempt x + 1). rewrite wrap_s_small by (simpl; lia). rewrite Z.eqb_refl. simpl.
  unfold e, lease_envelope. rewrite newEnvelope_time by done. done.
Qed.

(** The commands of a [LeaseBatch] of one task whose publish is accepted, whatever follows. *)
Lemma lease_steps taskType worker wait w s1 l x o1 o2 o3 o4 o5 o6 o7 :
  store_ok (store w) -> room (store w) ->
  ReserveNext taskType (store w) = (s1, Some l) -> heap (store w) !! l = Some x ->
  0 <= x_Attempt x < 2 ^ 63 - 1 -> utf8_ok worker -> Time.in_calendar (o_now o4) -> o_pub o5 = PubOk ->
  exists w' x', (forall B os (f : option (result coord_err (list Lease)) -> prog B),
      run (o1 :: o2 :: o3 :: o4 :: o5 :: o6 :: o7 :: os) (bind (LeaseBatch 2 taskType worker 1 wait) f) w =
      run os (f (Some (Ok [mkLease (x_Tenant x) (x_Project x) (x_WorkflowID x) (x_TaskType x) (x_Input x)
                             (x_Attempt x + 1) (o_now o4 + x_LeaseTTL x)]))) w') /\
    events_of w w' [lease_envelope x worker (x_Attempt x + 1) (o_now o4)] /\
    Get (x_Tenant x) (x_Project x) (x_WorkflowID x) (store w') = Some x' /\
    x_Status x' = StatusRunning /\ x_Attempt x' = x_Attempt x + 1 /\ x_WorkerID x' = worker /\
    x_reserved x' = false /\ x_completing x' = x_completing x /\ room (store w').
Proof.
  intros Hok Hr HR Hl Ha Hw Hn Hpub. set (now := o_now o4) in *.
  pose proof (reserve_loop_spec taskType (queue_of (store w) taskType) (store w) (store w) eq_refl eq_refl) as HS.
  unfold ReserveNext in HR. rewrite HR in HS.
  destruct HS as (q1 & key & q2 & y & _ & Hf & Hav & _ & _ & E1 & E2).
  pose proof (find_inv _ _ _ _ Hf) as [_ Hl']. simplify_eq.
  set (xr := {| x with x_reserved := true |}) in *. apply available_spec in Hav as [Hp _].
  pose proof (find_key _ _ _ _ _ Hok Hf) as Hkey.
  assert (store_ok s1) as Hok1.
  { pose proof (ReserveNext_ok taskType (store w) Hok) as H. unfold ReserveNext in H. by rewrite HR in H. }
  assert (room s1) as Hr1.
  { pose proof (run_op_room (store w) (OpReserve taskType) I Hr) as H. simpl in H. unfold ReserveNext in H. by rewrite HR in H. }
  assert (Get (x_Tenant x) (x_Project x) (x_WorkflowID x) s1 = Some xr) as G1.
  { rewrite Get_exmap. change (SessionKey _ _ _) with (Key x). rewrite Hkey.
    assert (exmap s1 = exmap (set_exec l xr (store w))) as -> by (by apply exmap_ext).
    rewrite (exmap_set_found (fun _ => False) _ key l x) by done. by rewrite lookup_insert_eq. }
  set (e := lease_envelope xr worker (x_Attempt x + 1) now).
  pose proof (Get_Apply (x_Tenant x) (x_Project x) (x_WorkflowID x) s1 e xr Hok1 Hr1 eq_refl ltac:(done) eq_refl G1) as G2.
  destruct (apply_leased_env xr worker now) as (S2 & A2 & W2 & D2 & R2 & C2); [done..|]. fold e in S2, A2, W2, D2, R2, C2.
  assert (room (Apply s1 e).1) as Hr2.
  { apply (Apply_room _ _ xr); [done|by rewrite <- Get_exmap|]. change (x_Status (apply xr e).1 = StatusRunning) in S2. unfold Terminal. by rewrite S2. }
  exists {| store := (Apply s1 e).1; log := log w ++ [e] |}, (apply xr e).1. split_and!; try done.
  intros B os f. unfold LeaseBatch. change (1 <=? 0) with false. cbv iota zeta. cbn [bind]. rewrite run_now.
  cbn [lease_loop length app].
  change (1 <=? Z.of_nat 0) with false. change (1 <=? Z.of_nat 1) with true. cbv iota. cbn [bind].
  rewrite run_do. cbn [exec]. unfold ReserveNext. rewrite HR. cbn [fst snd].
  unfold grant. cbn [bind]. rewrite run_do. cbn [exec fst snd store]. rewrite E2, lookup_insert_eq. cbn [bind].
  rewrite run_now. fold now.
  change (x_Attempt xr) with (x_Attempt x). rewrite wrap_s_small by (simpl; lia). fold e.
  cbn [append bind]. rewrite run_do. cbn [exec]. unfold publish. rewrite Hpub. cbn [fst snd bind]. rewrite run_do. cbn [exec store log].
  destruct (Apply s1 e) as [s2 b] eqn:EA. cbn [fst snd bind] in *. rewrite run_do.
  cbn [exec fst snd store]. change (x_Tenant xr) with (x_Tenant x). change (x_Project xr) with (x_Project x).
  change (x_WorkflowID xr) with (x_WorkflowID x). rewrite G2. cbn [bind].
  change (x_LeaseDeadline (apply xr e).1 = now + x_LeaseTTL x) in D2. by rewrite D2.
Qed.

(** [LeaseBatch] of one task, run alone on a store that has work: the execution
    [ReserveNext] picks is handed to the worker with the next attempt number and the
    deadline on the log, and it is running under that worker, no longer reserved. *)
Theorem lease_alone taskType worker wait w s1 l x n0 now :
  store_ok (store w) -> room (store w) ->
  ReserveNext taskType (store w) = (s1, Some l) -> heap (store w) !! l = Some x ->
  0 <= x_Attempt x < 2 ^ 63 - 1 -> utf8_ok worker -> Time.in_calendar now ->
  exists w' x', run [ok_at n0; ok_at 0; ok_at 0; ok_at now; ok_at 0; ok_at 0; ok_at 0]
      (LeaseBatch 2 taskType worker 1 wait) w =
      Some (w', Some (Ok [mkLease (x_Tenant x) (x_Project x) (x_WorkflowID x) (x_TaskType x) (x_Input x)
                            (x_Attempt x + 1) (now + x_LeaseTTL x)])) /\
    events_of w w' [lease_envelope x worker (x_Attempt x + 1) now] /\
    Get (x_Tenant x) (x_Project x) (x_WorkflowID x) (store w') = Some x' /\
    x_Status x' = StatusRunning /\ x_Attempt x' = x_Attempt x + 1 /\ x_WorkerID x' = worker /\
    x_reserved x' = false /\ x_completing x' = x_completing x /\ room (store w').
Proof.
  intros Hok Hr HR Hl Ha Hw Hn.
  destruct (lease_steps taskType worker wait w s1 l x (ok_at n0) (ok_at 0) (ok_at 0) (ok_at now) (ok_at 0) (ok_at 0) (ok_at 0))
    as (w' & x' & Hrun & H); [done..|].
  exists w', x'. split; [|exact H]. by rewrite <- run_bind_ret, Hrun.
Qed.

(** ** Witnesses: one execution from submission to completion *)

(** Every command of a run is one the environment may answer that way, on a store with room. *)
Fixpoint run_ok {A} (os : list oracle) (p : prog A) (w : World) : Prop :=
  match p, os with
  | Do c k, o :: os => allowed c o w /\ room (store w) /\ run_ok os (k (exec c o w).2) (exec c o w).1
  | _, _ => True
  end.

Lemma reach_run c cap tid k os p w ths w' out :
  reachable c cap (mkConfig w (<[tid := (k, p)]> ths)) -> run os p w = Some (w', out) -> run_ok os p w ->
  reachable c cap (mkConfig w' (<[tid := (k, Ret out)]> ths)).
Proof.
  revert p w. induction os as [|o os IH]; intros [a|cm cont] w HR Hrun Hok; cbn [run] in Hrun; simplify_eq; try done.
  destruct Hok as (Ha & Hroom & Hok). apply (IH (cont (exec cm o w).2) (exec cm o w).1); [| |done].
  - pose proof (step_run c w (<[tid := (k, Do cm cont)]> ths) tid k (Do cm cont) o) as HS.
    rewrite lookup_insert_eq in HS. rewrite step1_do in HS. cbn [fst snd] in HS.
    rewrite insert_insert_eq in HS. eapply reach_step; [exact HR|exact Hroom|]. by apply HS.
  - by destruct (exec cm o w).
Qed.

Lemma reach_call c cap tid k os w ths w' out :
  reachable c cap (mkConfig w ths) -> ths !! tid = None -> room (store w) -> run os (program c k) w = Some (w', out) ->
  run_ok os (program c k) w -> reachable c cap (mkConfig w' (<[tid := (k, Ret out)]> ths)).
Proof.
  intros HR Hf Hroom Hrun Hok. eapply reach_run; [|exact Hrun|exact Hok]. eapply reach_step; [exact HR|exact Hroom|].
  by apply step_call.
Qed.

Definition demo : Coordinator := NewCoordinator 0 0.
Definition t0 : Z := Time.unix_epoch + 1700000000000000000.
Definition demo_submit : call :=
  CallSubmit (mkSpec "acme" "research" "run-1" "index" [Byte.x01] 2 (5 * Time.second)).
Definition demo_lease : call := CallLease 2 "index" "w1" 1 0.
Definition demo_complete : call := CallComplete "acme" "research" "run-1" "w1" 1 [Byte.x2a].

Definition after (os : list oracle) (k : call) (w : World) : World :=
  match run os (program demo k) w with Some (w, _) => w | None => w end.

Definition w_submitted : World := after (replicate 4 (ok_at t0)) demo_submit (mkWorld NewStore []).
Definition w_leased : World := after (replicate 7 (ok_at (t0 + 1))) demo_lease w_submitted.
Definition w_completed : World := after (replicate 4 (ok_at (t0 + 2))) demo_complete w_leased.

Definition out_of (os : list oracle) (k : call) (w : World) : outcome :=
  match run os (program demo k) w with Some (_, r) => r | None => OutSweep 0 end.

(** The same run on a store with the broker's default cap. *)
Definition k_submitted : World := after (replicate 4 (ok_at t0)) demo_submit (mkWorld (capped 200000) []).
Definition k_leased : World := after (replicate 7 (ok_at (t0 + 1))) demo_lease k_submitted.
Definition k_completed : World := after (replicate 4 (ok_at (t0 + 2))) demo_complete k_leased.

Definition demo_threads : gmap nat (call * prog outcome) :=
  <[2%nat := (demo_complete, Ret (OutComplete (true, false, None)))]>
  (<[1%nat := (demo_lease, Ret (out_of (replicate 7 (ok_at (t0 + 1))) demo_lease k_submitted))]>
  (<[0%nat := (demo_submit, Ret (OutSubmit (false, None)))]> ∅)).

Ltac has_room := right; vm_compute; reflexivity.

Lemma demo_reachable : reachable demo 200000 (mkConfig k_completed demo_threads).
Proof.
  assert (reachable demo 200000 (mkConfig k_submitted (<[0%nat := (demo_submit, Ret (OutSubmit (false, None)))]> ∅))) as H1.
  { apply (reach_call _ _ _ _ (replicate 4 (ok_at t0)) (mkWorld (capped 200000) [])).
    - apply reach_init.
    - reflexivity.
    - has_room.
    - vm_compute. reflexivity.
    - vm_compute. tauto. }
  assert (reachable demo 200000 (mkConfig k_leased
    (<[1%nat := (demo_lease, Ret (out_of (replicate 7 (ok_at (t0 + 1))) demo_lease k_submitted))]>
    (<[0%nat := (demo_submit, Ret (OutSubmit (false, None)))]> ∅)))) as H2.
  { apply (reach_call _ _ _ _ (replicate 7 (ok_at (t0 + 1))) k_submitted); [exact H1|reflexivity|has_room| |].
    - vm_compute. reflexivity.
    - vm_compute. tauto. }
  unfold demo_threads.
  apply (reach_call _ _ _ _ (replicate 4 (ok_at (t0 + 2))) k_leased); [exact H2|reflexivity|has_room| |].
  - vm_compute. reflexivity.
  - vm_compute. tauto.
Qed.

Lemma at_most_one_completion_witness : 2%nat = 2%nat.
Proof.
  apply (at_most_one_completion demo 200000 (mkConfig k_completed demo_threads) 2 2 "acme" "research" "run-1" "w1" 1
    [Byte.x2a] "acme" "research" "run-1" "w1" 1 [Byte.x2a] false false None None).
  - exact demo_reachable.
  - reflexivity.
  - reflexivity.
  - reflexivity.
Defined.

(** With a cap of one: a second execution evicts the first, whose submission the poller then
    folds again (it reads every event of the log once, also those the calls have folded); the
    first execution is leased and completed a second time. *)
Definition other_submit : call := CallSubmit (mkSpec "acme" "research" "run-2" "index" [] 2 (5 * Time.second)).
Definition other_complete : call := CallComplete "acme" "research" "run-2" "w1" 1 [].
Definition first_event (w : World) : World :=
  match log w with e :: _ => on_store (fun s => (Apply s e).1) w | [] => w end.

Definition e_completed : World :=
  after (replicate 4 (ok_at (t0 + 2))) demo_complete
    (after (replicate 7 (ok_at (t0 + 1))) demo_lease (after (replicate 4 (ok_at t0)) demo_submit (mkWorld (capped 1) []))).
Definition e_evicted : World :=
  after (replicate 4 (ok_at (t0 + 5))) other_complete
    (after (replicate 7 (ok_at (t0 + 4))) demo_lease (after (replicate 4 (ok_at (t0 + 3))) other_submit e_completed)).
Definition e_again : World := after (replicate 7 (ok_at (t0 + 6))) demo_lease (first_event e_evicted).

Example evicted_execution_completes_again :
  x_Status <$> Get "acme" "research" "run-1" (store e_completed) = Some StatusCompleted /\
  Get "acme" "research" "run-1" (store e_evicted) = None /\
  out_of (replicate 4 (ok_at (t0 + 7))) demo_complete e_again = OutComplete (true, false, None).
Proof. vm_compute. repeat split. Qed.

Definition demo_calls : list (call * list oracle) :=
  [(demo_submit, replicate 4 (ok_at t0)); (demo_lease, replicate 7 (ok_at (t0 + 1)));
   (demo_complete, replicate 4 (ok_at (t0 + 2)))].

Lemma rebuild_is_live_state_witness : view (rebuild (log w_completed)) = view (store w_completed).
Proof.
  apply (rebuild_is_live_state demo demo_calls w_completed).
  - vm_compute. reflexivity.
  - repeat constructor.
Defined.

Definition leased_exec : Execution :=
  match Get "acme" "research" "run-1" (store w_leased) with
  | Some x => x
  | None => mkExecution "" "" "" "" StatusPending 0 0 0 "" [] [] "" 0 0 0 [] false false
  end.

Lemma after_ok os k w : store_ok (store w) -> store_ok (store (after os k w)).
Proof.
  intros Hok. unfold after. destruct (run os (program demo k) w) as [[w' r]|] eqn:E; [|done].
  by destruct (run_store_ok _ _ _ _ _ E Hok).
Qed.

Lemma w_submitted_ok : store_ok (store w_submitted).
Proof. apply after_ok. apply (NewStore_ok 0). Qed.

Lemma w_leased_ok : store_ok (store w_leased).
Proof. apply after_ok, w_submitted_ok. Qed.

Lemma complete_alone_witness :
  exists w' x', run [ok_at 0; ok_at (t0 + 2); ok_at 0; ok_at 0]
      (Complete "acme" "research" "run-1" "w1" 1 [Byte.x2a]) w_leased = Some (w', (true, false, None)) /\
    events_of w_leased w' [complete_envelope "acme" "research" "run-1" "w1" 1 [Byte.x2a] (t0 + 2)] /\
    Get "acme" "research" "run-1" (store w') = Some x' /\ x_Status x' = StatusCompleted /\
    x_Result x' = [Byte.x2a] /\ x_WorkerID x' = "w1"%string /\ x_UpdatedAt x' = t0 + 2 /\
    run [ok_at 0] (Complete "acme" "research" "run-1" "w1" 1 [Byte.x2a]) w' = Some (w', (false, true, None)).
Proof.
  apply (complete_alone "acme" "research" "run-1" "w1" 1 [Byte.x2a] w_leased leased_exec (t0 + 2)).
  - exact w_leased_ok.
  - left. vm_compute. discriminate.
  - vm_compute. reflexivity.
  - vm_compute. reflexivity.
  - vm_compute. reflexivity.
  - vm_compute. reflexivity.
  - discriminate.
  - vm_compute. reflexivity.
  - split; vm_compute; done || discriminate.
Defined.

Lemma fail_alone_witness :
  exists w' x', run [ok_at 0; ok_at t0; ok_at 0; ok_at 0; ok_at t0; ok_at 0; ok_at 0]
      (Fail_ "acme" "research" "run-1" "w1" 1 "boom" true) w_leased = Some (w', (true, true, None)) /\
    Get "acme" "research" "run-1" (store w') = Some x' /\ x_Attempt x' = 1 /\ x_Error x' = "boom"%string /\
    x_Status x' = StatusPending.
Proof.
  apply (fail_alone "acme" "research" "run-1" "w1" 1 "boom" true w_leased leased_exec t0 t0).
  - exact w_leased_ok.
  - left. vm_compute. discriminate.
  - vm_compute. reflexivity.
  - vm_compute. reflexivity.
  - vm_compute. reflexivity.
  - vm_compute. reflexivity.
  - vm_compute. reflexivity.
  - vm_compute. reflexivity.
  - vm_compute. reflexivity.
  - discriminate.
Defined.

Definition submitted_exec : Execution :=
  match heap (store w_submitted) !! 0%nat with Some x => x | None => leased_exec end.

Lemma lease_alone_witness :
  exists w' x', run [ok_at 0; ok_at 0; ok_at 0; ok_at t0; ok_at 0; ok_at 0; ok_at 0]
      (LeaseBatch 2 "index" "w1" 1 0) w_submitted =
      Some (w', Some (Ok [mkLease "acme" "research" "run-1" "index" [Byte.x01] 1 (t0 + 5 * Time.second)])) /\
    events_of w_submitted w' [lease_envelope submitted_exec "w1" 1 t0] /\
    Get "acme" "research" "run-1" (store w') = Some x' /\
    x_Status x' = StatusRunning /\ x_Attempt x' = 1 /\ x_WorkerID x' = "w1"%string /\ x_reserved x' = false /\
    x_completing x' = false /\ room (store w').
Proof.
  apply (lease_alone "index" "w1" 0 w_submitted (ReserveNext "index" (store w_submitted)).1 0%nat submitted_exec 0 t0).
  - exact w_submitted_ok.
  - left. vm_compute. discriminate.
  - vm_compute. reflexivity.
  - vm_compute. reflexivity.
  - split; vm_compute; done || discriminate.
  - vm_compute. reflexivity.
  - split; vm_compute; done || discriminate.
Defined.

End Coordination.
