(* ===== verification/Broker.v ===== *)
(** * The in-memory broker

    [Module Bus] models [src/internal/broker]: the ring buffer of one partition
    ([topic.go]), the topics of a broker and how a message is routed to a
    partition ([broker.go]), and the subscriptions that read them
    ([subscription.go]).

    A [*Subscription] is a position of the list [subscriptions]; a [*Topic] is
    a topic's name and a partition number, since topics are never removed.
    [None] is a run-time panic.  The first half refines a broker to the logs of
    its partitions; the second interleaves publishers and subscribers and shows
    that a waiting subscriber is always woken. *)

From S2P Require Import Prelude GoLib GoJson.

Module Bus.
Local Open Scope Z_scope.

(** ** topic.go *)

Definition defaultCapacity : Z := 1048576.

Record Message := mkMessage { m_Offset : Z; m_Timestamp : Z; m_Payload : bytes }.

Definition zeroMessage : Message := mkMessage 0 0 [].

(** The slice [messages] has [cap] elements; the map holds those written so
    far, the others are the zero [Message]. *)
Record Topic := mkTopic {
  t_name : string;
  t_messages : gmap Z Message;
  t_head : Z;
  t_tail : Z;
  t_cap : Z;
  t_evictions : Z;
  t_subs : list nat;
  t_published : Z
}.

Record Subscription := mkSubscription {
  s_topic : string;
  s_group : string;
  s_partition : Z;
  s_offset : Z;
  s_notify : bool (* the channel of capacity 1 holds a token *)
}.

Definition newTopic (name : string) (capacity : Z) : Topic :=
  let capacity := if capacity <=? 0 then defaultCapacity else capacity in
  mkTopic name ∅ 0 0 capacity 0 [] 0.

(** [t.messages[i]] *)
Definition index (t : Topic) (i : Z) : option Message :=
  if (0 <=? i) && (i <? t_cap t) then Some (default zeroMessage (t_messages t !! i)) else None.

(** The locked part of [Publish]. *)
Definition append_message (now : Z) (payload : bytes) (t : Topic) : option (Topic * Z) :=
  let offset := t_tail t in
  let idx := Z.rem offset (t_cap t) in
  _ ← index t idx;
  let newTail := i64 (t_tail t + 1) in
  let full := t_cap t <? i64 (newTail - t_head t) in
  Some ({| t with
    t_messages := <[idx := mkMessage offset now payload]> (t_messages t);
    t_tail := newTail;
    t_head := if full then i64 (t_head t + 1) else t_head t;
    t_evictions := if full then i64 (t_evictions t + 1) else t_evictions t |}, offset).

Definition count_published (t : Topic) : Topic := {| t with t_published := i64 (t_published t + 1) |}.

(** A send that does not block on a full channel of capacity 1. *)
Definition offer (s : Subscription) : Subscription := {| s with s_notify := true |}.

Definition notifySubs (ids : list nat) (h : list Subscription) : list Subscription :=
  foldl (fun h id => alter offer id h) h ids.

Definition Topic_Publish (now : Z) (payload : bytes) (t : Topic) (h : list Subscription) :
    option (Topic * list Subscription * Z) :=
  '(t, offset) ← append_message now payload t;
  Some (count_published t, notifySubs (t_subs t) h, offset).

Definition Topic_Fetch (offset maxCount : Z) (t : Topic) : option (list Message) :=
  let offset := if offset <? t_head t then t_head t else offset in
  if t_tail t <=? offset then Some []
  else
    let end_ := i64 (offset + maxCount) in
    let end_ := if t_tail t <? end_ then t_tail t else end_ in
    if i64 (end_ - offset) <? 0 then None
    else mapM (fun i => index t (Z.rem i (t_cap t))) (seqZ offset (end_ - offset)).

Definition addSub (id : nat) (t : Topic) : Topic := {| t with t_subs := t_subs t ++ [id] |}.

(** The last element takes the place of the one removed. *)
Definition removeSub (id : nat) (t : Topic) : Topic :=
  match list_find (.= id) (t_subs t) with
  | Some (i, _) =>
      let n := (length (t_subs t) - 1)%nat in
      {| t with t_subs := take n (<[i := default id (t_subs t !! n)]> (t_subs t)) |}
  | None => t
  end.

(** ** broker.go *)

Definition defaultTopicPartitions : Z := 3.

Record topicSet := mkTopicSet { partitions : list Topic; rr_next : Z }.

Record Broker := mkBroker {
  topics : gmap string topicSet;
  subscriptions : list Subscription;
  totalPublished : Z;
  totalConsumed : Z
}.

Inductive broker_err := ErrTopicNotFound (name : string) | ErrInvalidPartition (p : Z).

Definition New : Broker := mkBroker ∅ [] 0 0.

Definition newTopicSet (name : string) (partitions : Z) : topicSet :=
  let partitions := if partitions <=? 0 then defaultTopicPartitions else partitions in
  mkTopicSet
    (map (fun i => newTopic (name +:+ "-" +:+ str_of (Json.format_int i)) defaultCapacity)
       (seqZ 0 partitions)) 0.

Definition set_topic (name : string) (set : topicSet) (b : Broker) : Broker :=
  {| b with topics := <[name := set]> (topics b) |}.

Definition getOrCreate (name : string) (b : Broker) : topicSet * Broker :=
  match topics b !! name with
  | Some t => (t, b)
  | None => let t := newTopicSet name defaultTopicPartitions in (t, set_topic name t b)
  end.

Definition choosePartition (set : topicSet) (key : string) : topicSet * Z :=
  if zlen (partitions set) =? 1 then (set, 0)
  else if String.eqb key "" then
    let n := u64 (rr_next set + 1) in
    ({| set with rr_next := n |}, u64 (n - 1) mod zlen (partitions set))
  else (set, fnv1a32 (bs_of key) mod u32 (zlen (partitions set))).

(** [set.partitions[p]] *)
Definition partition_at (set : topicSet) (p : Z) : option Topic :=
  if p <? 0 then None else partitions set !! Z.to_nat p.

Definition set_partition (p : Z) (t : Topic) (set : topicSet) : topicSet :=
  {| set with partitions := <[Z.to_nat p := t]> (partitions set) |}.

(** [set.partitions[p].Publish(payload)] and the broker's counter. *)
Definition publish_at (name : string) (set : topicSet) (p now : Z) (payload : bytes) (b : Broker) :
    option (Z * Broker) :=
  t ← partition_at set p;
  '(t, h, offset) ← Topic_Publish now payload t (subscriptions b);
  Some (offset, {| b with
    topics := <[name := set_partition p t set]> (topics b);
    subscriptions := h;
    totalPublished := i64 (totalPublished b + 1) |}).

Definition Publish (topicName : string) (now : Z) (payload : bytes) (b : Broker) : option (Z * Broker) :=
  let '(set, b) := getOrCreate topicName b in publish_at topicName set 0 now payload b.

Definition PublishWithKey (topicName key : string) (now : Z) (payload : bytes) (b : Broker) :
    option (Z * Z * Broker) :=
  let '(set, b) := getOrCreate topicName b in
  let '(set, partition) := choosePartition set key in
  '(offset, b) ← publish_at topicName set partition now payload b;
  Some (partition, offset, b).

Definition RouteKey (topicName key : string) (b : Broker) : Z * Broker :=
  let '(set, b) := getOrCreate topicName b in
  let '(set, partition) := choosePartition set key in
  (partition, set_topic topicName set b).

Definition invalid_partition (partition : Z) (set : topicSet) : bool :=
  (partition <? 0) || (zlen (partitions set) <=? partition).

Definition PublishToPartition (topicName : string) (partition now : Z) (payload : bytes) (b : Broker) :
    option (result broker_err Z * Broker) :=
  let '(set, b) := getOrCreate topicName b in
  if invalid_partition partition set then Some (Err (ErrInvalidPartition partition), b)
  else '(offset, b) ← publish_at topicName set partition now payload b; Some (Ok offset, b).

Definition EnsureTopic (topicName : string) (partitions : Z) (b : Broker) : Broker :=
  let partitions := if partitions <=? 0 then defaultTopicPartitions else partitions in
  match topics b !! topicName with
  | Some _ => b
  | None => set_topic topicName (newTopicSet topicName partitions) b
  end.

Definition PartitionCount (topicName : string) (b : Broker) : Z :=
  match topics b !! topicName with
  | Some set => zlen (partitions set)
  | None => 0
  end.

Definition newSubscription (topic group : string) (partition startOffset : Z) : Subscription :=
  mkSubscription topic group partition startOffset false.

Definition SubscribePartitionAt (topicName group : string) (partition startOffset : Z) (b : Broker) :
    option (nat * Broker) :=
  let '(set, b) := getOrCreate topicName b in
  let partition := if invalid_partition partition set then 0 else partition in
  t ← partition_at set partition;
  let startOffset := if startOffset <? 0 then t_tail t else startOffset in
  let id := length (subscriptions b) in
  Some (id, {| b with
    topics := <[topicName := set_partition partition (addSub id t) set]> (topics b);
    subscriptions := subscriptions b ++ [newSubscription topicName group partition startOffset] |}).

Definition SubscribeAt (topicName group : string) (startOffset : Z) (b : Broker) : option (nat * Broker) :=
  SubscribePartitionAt topicName group 0 startOffset b.

Definition Subscribe (topicName group : string) (b : Broker) : option (nat * Broker) :=
  SubscribeAt topicName group (-1) b.

Definition SubscribeGroupAt (topicName group : string) (startOffset : Z) (b : Broker) : option (nat * Broker) :=
  let '(set, b) := getOrCreate topicName b in
  let '(set, partition) := choosePartition set group in
  SubscribePartitionAt topicName group partition startOffset (set_topic topicName set b).

(** The [*Topic] a subscription points to. *)
Definition topic_of (s : Subscription) (b : Broker) : option (topicSet * Topic) :=
  set ← topics b !! s_topic s;
  t ← partition_at set (s_partition s);
  Some (set, t).

Definition Unsubscribe (id : nat) (b : Broker) : option Broker :=
  s ← subscriptions b !! id;
  '(set, t) ← topic_of s b;
  Some (set_topic (s_topic s) (set_partition (s_partition s) (removeSub id t) set) b).

Definition TopicInfo (name : string) (b : Broker) : option (result broker_err (Z * Z)) :=
  match topics b !! name with
  | None => Some (Err (ErrTopicNotFound name))
  | Some set => t ← partition_at set 0; Some (Ok (t_head t, t_tail t))
  end.

Definition TopicPartitionInfo (name : string) (partition : Z) (b : Broker) :
    option (result broker_err (Z * Z)) :=
  match topics b !! name with
  | None => Some (Err (ErrTopicNotFound name))
  | Some set =>
      if invalid_partition partition set then Some (Err (ErrInvalidPartition partition))
      else t ← partition_at set partition; Some (Ok (t_head t, t_tail t))
  end.

Record PartitionDetail := mkDetail { d_Head : Z; d_Tail : Z; d_Evictions : Z; d_Capacity : Z }.

Definition TopicPartitionDetail (name : string) (partition : Z) (b : Broker) :
    option (result broker_err PartitionDetail) :=
  match topics b !! name with
  | None => Some (Err (ErrTopicNotFound name))
  | Some set =>
      if invalid_partition partition set then Some (Err (ErrInvalidPartition partition))
      else t ← partition_at set partition;
        Some (Ok (mkDetail (t_head t) (t_tail t) (t_evictions t) (t_cap t)))
  end.

Definition FetchPartition (topicName : string) (partition offset maxCount : Z) (b : Broker) :
    option (list Message * Broker) :=
  let '(set, b) := getOrCreate topicName b in
  if invalid_partition partition set then Some ([], b)
  else t ← partition_at set partition; ms ← Topic_Fetch offset maxCount t; Some (ms, b).

Definition Fetch (topicName : string) (offset maxCount : Z) (b : Broker) : option (list Message * Broker) :=
  FetchPartition topicName 0 offset maxCount b.

Definition AddConsumed (n : Z) (b : Broker) : Broker :=
  {| b with totalConsumed := i64 (totalConsumed b + n) |}.

(** ** subscription.go *)

Definition advance (n : Z) (s : Subscription) : Subscription := {| s with s_offset := i64 (s_offset s + n) |}.

(** One iteration of [Next]'s loop: a batch, or [None] where it goes on to
    wait. *)
Definition Next (id : nat) (maxCount : Z) (b : Broker) : option (option (list Message) * Broker) :=
  s ← subscriptions b !! id;
  '(_, t) ← topic_of s b;
  ms ← Topic_Fetch (s_offset s) maxCount t;
  match ms with
  | [] => Some (None, b)
  | _ => Some (Some ms, {| b with subscriptions := alter (advance (zlen ms)) id (subscriptions b) |})
  end.

Definition commit (offset : Z) (s : Subscription) : Subscription := {| s with s_offset := offset |}.

Definition Commit (id : nat) (offset : Z) (b : Broker) : Broker :=
  {| b with subscriptions := alter (commit offset) id (subscriptions b) |}.

(** ** The log a partition stands for

    A log is every message published to the partition, with its timestamp; the
    ring keeps the last [cap] of them. *)

Abbreviation entry := (Z * bytes)%type.

Definition number (log : list entry) : list Message :=
  imap (fun i e => mkMessage (Z.of_nat i) e.1 e.2) log.

(** What [Fetch] promises, as a slice of the numbered log. *)
Definition log_fetch (capacity offset maxCount : Z) (log : list entry) : list Message :=
  take (Z.to_nat maxCount)
    (drop (Z.to_nat (Z.max offset (Z.max 0 (zlen log - capacity)))) (number log)).

Record topic_rep (log : list entry) (t : Topic) : Prop := {
  rep_cap : 0 < t_cap t < 2 ^ 62;
  rep_small : zlen log < 2 ^ 62;
  rep_tail : t_tail t = zlen log;
  rep_head : t_head t = Z.max 0 (zlen log - t_cap t);
  rep_evictions : t_evictions t = t_head t;
  rep_slots : forall i, t_head t <= i < t_tail t ->
    t_messages t !! (i mod t_cap t) = number log !! Z.to_nat i
}.

Lemma length_number log : length (number log) = length log.
Proof. apply length_imap. Qed.

Lemma number_lookup log i :
  number log !! i = (fun e => mkMessage (Z.of_nat i) e.1 e.2) <$> log !! i.
Proof. apply list_lookup_imap. Qed.

Lemma number_app log e : number (log ++ [e]) = number log ++ [mkMessage (zlen log) e.1 e.2].
Proof.
  unfold number. rewrite imap_app. cbn. by rewrite Nat.add_0_r.
Qed.

Lemma newTopic_rep name capacity : capacity < 2 ^ 62 -> topic_rep [] (newTopic name capacity).
Proof.
  intros Hc. unfold newTopic. split; cbn -[Z.pow]; try done; try lia.
  all: destruct (capacity <=? 0) eqn:E; go_bool; unfold defaultCapacity; lia.
Qed.

Lemma index_in_range t i : 0 <= i < t_cap t -> index t i = Some (default zeroMessage (t_messages t !! i)).
Proof.
  intros Hi. unfold index.
  replace ((0 <=? i) && (i <? t_cap t)) with true; [done|].
  symmetry. apply andb_true_intro. split; [apply Z.leb_le|apply Z.ltb_lt]; lia.
Qed.

Lemma i64_id z : in_i64 z -> i64 z = z.
Proof. intros Hz. apply wrap_s_small; [lia|]. exact Hz. Qed.

(** Two offsets less than [cap] apart have different slots. *)
Lemma slots_distinct c i j : 0 < c -> i < j < i + c -> i mod c <> j mod c.
Proof.
  intros Hc Hij E. assert ((j - i) mod c = 0) as E0 by (rewrite Zminus_mod, E, Z.sub_diag; apply Z.mod_0_l; lia).
  rewrite Z.mod_small in E0; lia.
Qed.

Lemma append_message_rep log t now payload :
  topic_rep log t -> zlen log < 2 ^ 62 - 1 ->
  exists t', append_message now payload t = Some (t', zlen log) /\
    topic_rep (log ++ [(now, payload)]) t' /\
    t_subs t' = t_subs t /\ t_published t' = t_published t /\ t_cap t' = t_cap t /\ t_name t' = t_name t.
Proof.
  intros [Hc Hs Ht Hh He Hsl] Hroom.
  assert (Z.rem (zlen log) (t_cap t) = zlen log mod t_cap t) as Hrem by (apply Z.rem_mod_nonneg; lia).
  pose proof (Z.mod_pos_bound (zlen log) (t_cap t) ltac:(lia)) as Hb.
  unfold append_message. rewrite Ht, Hrem, index_in_range by lia. cbn [mbind option_bind].
  assert (forall z, 0 <= z <= 2 ^ 62 -> i64 z = z) as W by (intros; apply i64_id; unfold in_i64; lia).
  rewrite (W (zlen log + 1)), (W (zlen log + 1 - t_head t)), (W (t_head t + 1)), (W (t_evictions t + 1)) by lia.
  eexists. split; [reflexivity|]. split; [|done].
  assert (zlen (log ++ [(now, payload)]) = zlen log + 1) as Hlen by (rewrite length_app; cbn; lia).
  destruct (t_cap t <? zlen log + 1 - t_head t) eqn:E; go_bool;
    split; cbn -[Z.pow]; rewrite ?Hlen; try lia.
  all: intros i Hi; destruct (decide (i = zlen log)) as [->|Hne];
    [rewrite lookup_insert_eq, number_app, Nat2Z.id, lookup_app_r, length_number, Nat.sub_diag
       by (rewrite length_number; lia); done
    |rewrite lookup_insert_ne, number_app, lookup_app_l
       by (rewrite ?length_number; try lia; apply not_eq_sym, slots_distinct; lia);
     apply Hsl; lia].
Qed.

Lemma mapM_seqZ {A} (f : Z -> option A) (l : list A) start n :
  0 <= start -> 0 <= n -> start + n <= zlen l ->
  (forall i, start <= i < start + n -> f i = l !! Z.to_nat i) ->
  mapM f (seqZ start n) = Some (take (Z.to_nat n) (drop (Z.to_nat start) l)).
Proof.
  intros H0 Hn Hl Hf. apply mapM_Some, Forall2_same_length_lookup_2.
  - rewrite length_seqZ, length_take, length_drop. lia.
  - intros i x y Hx Hy. apply lookup_seqZ in Hx as [-> Hi]. rewrite Hf by lia.
    rewrite lookup_take_lt, lookup_drop in Hy by lia. rewrite <- Hy. f_equal. lia.
Qed.

Lemma Topic_Fetch_rep log t offset maxCount :
  topic_rep log t -> 0 <= maxCount < 2 ^ 62 ->
  Topic_Fetch offset maxCount t = Some (log_fetch (t_cap t) offset maxCount log).
Proof.
  intros [Hc Hs Ht Hh He Hsl] Hm. unfold Topic_Fetch, log_fetch.
  set (start := if offset <? t_head t then t_head t else offset).
  assert (start = Z.max offset (Z.max 0 (zlen log - t_cap t))) as <-.
  { subst start. rewrite <- Hh. destruct (offset <? t_head t) eqn:E; go_bool; lia. }
  assert (t_head t <= start) as Hst by (subst start; destruct (offset <? t_head t) eqn:E; go_bool; lia).
  rewrite Ht. destruct (zlen log <=? start) eqn:Es; go_bool.
  { rewrite drop_ge, take_nil; [done|]. rewrite length_number. lia. }
  rewrite (i64_id (start + maxCount)) by (unfold in_i64; lia).
  set (en := if zlen log <? start + maxCount then zlen log else start + maxCount).
  assert (en = Z.min (zlen log) (start + maxCount)) as Een.
  { subst en. destruct (zlen log <? start + maxCount) eqn:E; go_bool; lia. }
  rewrite i64_id by (unfold in_i64; lia).
  destruct (en - start <? 0) eqn:E0; go_bool; [lia|].
  rewrite (mapM_seqZ _ (number log)); [| |lia|rewrite length_number; lia|]; [|lia|].
  - f_equal. destruct (Z.le_gt_cases (start + maxCount) (zlen log)).
    + f_equal. lia.
    + rewrite !take_ge; [done|..]; rewrite length_drop, length_number; lia.
  - intros i Hi. rewrite Z.rem_mod_nonneg by lia.
    pose proof (Z.mod_pos_bound i (t_cap t) ltac:(lia)).
    rewrite index_in_range, Hsl by lia.
    destruct (number log !! Z.to_nat i) eqn:El; [done|].
    apply lookup_ge_None in El. rewrite length_number in El. lia.
Qed.

(** ** The broker as a set of logs

    The abstract broker: each topic is the logs of its partitions and a
    round-robin counter, each subscription a topic, a partition and an
    offset. *)

Record Logs := mkLogs {
  l_topics : gmap string (list (list entry) * Z);
  l_subs : list (string * Z * Z)
}.

Definition empty_logs : Logs := mkLogs ∅ [].

Inductive op :=
| OPublish (topic : string) (now : Z) (payload : bytes)
| OPublishWithKey (topic key : string) (now : Z) (payload : bytes)
| ORouteKey (topic key : string)
| OPublishToPartition (topic : string) (partition now : Z) (payload : bytes)
| OEnsureTopic (topic : string) (partitions : Z)
| OSubscribePartitionAt (topic group : string) (partition start : Z)
| OSubscribeGroupAt (topic group : string) (start : Z)
| OUnsubscribe (id : nat)
| OFetchPartition (topic : string) (partition offset maxCount : Z)
| OTopicPartitionInfo (topic : string) (partition : Z)
| ONext (id : nat) (maxCount : Z)
| OCommit (id : nat) (offset : Z)
| OAddConsumed (n : Z).

Inductive resp :=
| RUnit
| RPublished (partition offset : Z)
| RError (e : broker_err)
| RPartition (p : Z)
| RSubscription (id : nat)
| RMessages (ms : list Message)
| RInfo (head tail : Z)
| RBlocked.

Definition run_op (o : op) (b : Broker) : option (resp * Broker) :=
  match o with
  | OPublish t now p => '(o, b) ← Publish t now p b; Some (RPublished 0 o, b)
  | OPublishWithKey t k now p => '(pt, o, b) ← PublishWithKey t k now p b; Some (RPublished pt o, b)
  | ORouteKey t k => let '(pt, b) := RouteKey t k b in Some (RPartition pt, b)
  | OPublishToPartition t pt now p =>
      '(r, b) ← PublishToPartition t pt now p b;
      Some (match r with Ok o => RPublished pt o | Err e => RError e end, b)
  | OEnsureTopic t n => Some (RUnit, EnsureTopic t n b)
  | OSubscribePartitionAt t g pt s => '(id, b) ← SubscribePartitionAt t g pt s b; Some (RSubscription id, b)
  | OSubscribeGroupAt t g s => '(id, b) ← SubscribeGroupAt t g s b; Some (RSubscription id, b)
  | OUnsubscribe id => b ← Unsubscribe id b; Some (RUnit, b)
  | OFetchPartition t pt o n => '(ms, b) ← FetchPartition t pt o n b; Some (RMessages ms, b)
  | OTopicPartitionInfo t pt =>
      r ← TopicPartitionInfo t pt b;
      Some (match r with Ok (h, t) => RInfo h t | Err e => RError e end, b)
  | ONext id n =>
      '(r, b) ← Next id n b; Some (match r with Some ms => RMessages ms | None => RBlocked end, b)
  | OCommit id o => Some (RUnit, Commit id o b)
  | OAddConsumed n => Some (RUnit, AddConsumed n b)
  end.

Definition log_topic (name : string) (a : Logs) : list (list entry) * Z :=
  default (replicate 3 [], 0) (l_topics a !! name).

Definition set_logs (name : string) (ls : list (list entry) * Z) (a : Logs) : Logs :=
  {| a with l_topics := <[name := ls]> (l_topics a) |}.

(** The partition a key is routed to, and the round-robin counter after. *)
Definition route (n : nat) (next : Z) (key : string) : Z * Z :=
  if decide (n = 1%nat) then (next, 0)
  else if String.eqb key "" then (u64 (next + 1), u64 (u64 (next + 1) - 1) mod Z.of_nat n)
  else (next, fnv1a32 (bs_of key) mod Z.of_nat n).

Definition valid (p : Z) (ls : list (list entry)) : bool := (0 <=? p) && (p <? zlen ls).

(** Append to the log of partition [p]; the message's offset is the log's
    length. *)
Definition log_append (name : string) (ls : list (list entry) * Z) (p : Z) (e : entry) (a : Logs) : Z * Logs :=
  (zlen (default [] (ls.1 !! Z.to_nat p)), set_logs name (alter (fun l => l ++ [e]) (Z.to_nat p) ls.1, ls.2) a).

Definition log_subscribe (name : string) (ls : list (list entry) * Z) (p start : Z) (a : Logs) : resp * Logs :=
  let p := if valid p ls.1 then p else 0 in
  let start := if start <? 0 then zlen (default [] (ls.1 !! Z.to_nat p)) else start in
  (RSubscription (length (l_subs a)), mkLogs (<[name := ls]> (l_topics a)) (l_subs a ++ [(name, p, start)])).

Definition log_messages (offset maxCount p : Z) (ls : list (list entry)) : list Message :=
  log_fetch defaultCapacity offset maxCount (default [] (ls !! Z.to_nat p)).

Definition log_op (o : op) (a : Logs) : option (resp * Logs) :=
  match o with
  | OPublish t now p =>
      let '(o, a) := log_append t (log_topic t a) 0 (now, p) a in Some (RPublished 0 o, a)
  | OPublishWithKey t k now p =>
      let '(ls, n) := log_topic t a in
      let '(n, pt) := route (length ls) n k in
      let '(o, a) := log_append t (ls, n) pt (now, p) a in Some (RPublished pt o, a)
  | ORouteKey t k =>
      let '(ls, n) := log_topic t a in
      let '(n, pt) := route (length ls) n k in Some (RPartition pt, set_logs t (ls, n) a)
  | OPublishToPartition t pt now p =>
      if valid pt (log_topic t a).1 then
        let '(o, a) := log_append t (log_topic t a) pt (now, p) a in Some (RPublished pt o, a)
      else Some (RError (ErrInvalidPartition pt), set_logs t (log_topic t a) a)
  | OEnsureTopic t n =>
      let n := if n <=? 0 then 3 else n in
      Some (RUnit, set_logs t (default (replicate (Z.to_nat n) [], 0) (l_topics a !! t)) a)
  | OSubscribePartitionAt t g pt s => Some (log_subscribe t (log_topic t a) pt s a)
  | OSubscribeGroupAt t g s =>
      let '(ls, n) := log_topic t a in
      let '(n, pt) := route (length ls) n g in Some (log_subscribe t (ls, n) pt s a)
  | OUnsubscribe id => _ ← l_subs a !! id; Some (RUnit, a)
  | OFetchPartition t pt o n =>
      let ls := log_topic t a in
      Some (RMessages (if valid pt ls.1 then log_messages o n pt ls.1 else []), set_logs t ls a)
  | OTopicPartitionInfo t pt =>
      Some (match l_topics a !! t with
            | None => RError (ErrTopicNotFound t)
            | Some (ls, _) =>
                if valid pt ls then
                  let n := zlen (default [] (ls !! Z.to_nat pt)) in RInfo (Z.max 0 (n - defaultCapacity)) n
                else RError (ErrInvalidPartition pt)
            end, a)
  | ONext id n =>
      '(t, pt, o) ← l_subs a !! id;
      match log_messages o n pt (log_topic t a).1 with
      | [] => Some (RBlocked, a)
      | ms => Some (RMessages ms, mkLogs (l_topics a) (<[id := (t, pt, i64 (o + zlen ms))]> (l_subs a)))
      end
  | OCommit id o =>
      Some (RUnit, mkLogs (l_topics a) (alter (fun s => (s.1, o)) id (l_subs a)))
  | OAddConsumed n => Some (RUnit, a)
  end.

(** Sizes that keep Go's [int64] arithmetic exact. *)
Definition op_ok (o : op) : Prop :=
  match o with
  | OFetchPartition _ _ _ n | ONext _ n => 0 <= n < 2 ^ 62
  | OEnsureTopic _ n => n < 2 ^ 32
  | _ => True
  end.

Fixpoint run_all {S R} (f : op -> S -> option (R * S)) (os : list op) (s : S) : option (list R * S) :=
  match os with
  | [] => Some ([], s)
  | o :: os => '(r, s) ← f o s; '(rs, s) ← run_all f os s; Some (r :: rs, s)
  end.

(** ** Simulation *)

Definition partition_rep (n : Z) (log : list entry) (t : Topic) : Prop :=
  topic_rep log t /\ t_cap t = defaultCapacity /\ t_published t = zlen log /\ zlen log <= n.

Definition set_rep (n : Z) (ls : list (list entry) * Z) (set : topicSet) : Prop :=
  Forall2 (partition_rep n) ls.1 (partitions set) /\ rr_next set = ls.2 /\ 0 < zlen ls.1 < 2 ^ 32.

Definition sub_rep (x : string * Z * Z) (s : Subscription) : Prop :=
  s_topic s = x.1.1 /\ s_partition s = x.1.2 /\ s_offset s = x.2.

Definition sub_valid (m : gmap string (list (list entry) * Z)) (x : string * Z * Z) : Prop :=
  exists ls, m !! x.1.1 = Some ls /\ valid x.1.2 ls.1 = true.

(** [rel n a b]: the broker [b] stands for the logs [a], none longer than [n]. *)
Record rel (n : Z) (a : Logs) (b : Broker) : Prop := {
  rel_topics : map_Forall2 (fun _ => set_rep n) (l_topics a) (topics b);
  rel_subs : Forall2 sub_rep (l_subs a) (subscriptions b);
  rel_valid : Forall (sub_valid (l_topics a)) (l_subs a)
}.

Lemma partition_rep_mono n m log t : n <= m -> partition_rep n log t -> partition_rep m log t.
Proof. intros Hnm (H1 & H2 & H3 & H4). split; [done|]. split; [done|]. split; [done|lia]. Qed.

Lemma set_rep_mono n m ls set : n <= m -> set_rep n ls set -> set_rep m ls set.
Proof.
  intros Hnm (H1 & H2 & H3). split; [|done]. eapply list.Forall2_impl; [exact H1|].
  intros. by eapply partition_rep_mono.
Qed.

Lemma rel_lookup n a b t :
  rel n a b ->
  match l_topics a !! t, topics b !! t with
  | Some ls, Some set => set_rep n ls set
  | None, None => True
  | _, _ => False
  end.
Proof. intros [H _ _]. specialize (H t). inversion H; try done. Qed.

Lemma sub_valid_insert m t ls x :
  (forall ls0, m !! t = Some ls0 -> length ls0.1 = length ls.1) ->
  sub_valid m x -> sub_valid (<[t := ls]> m) x.
Proof.
  intros Hl (ls0 & E & V). destruct (decide (x.1.1 = t)) as [Et|Hne].
  - exists ls. rewrite Et in *. rewrite lookup_insert_eq. split; [done|].
    unfold valid in *. by rewrite <- (Hl _ E).
  - exists ls0. by rewrite lookup_insert_ne by done.
Qed.

(** Replacing a topic by one with as many partitions. *)
Lemma rel_set n m a b b' t ls set :
  rel n a b -> n <= m -> set_rep m ls set ->
  (forall ls0, l_topics a !! t = Some ls0 -> length ls0.1 = length ls.1) ->
  topics b' = <[t := set]> (topics b) -> Forall2 sub_rep (l_subs a) (subscriptions b') ->
  rel m (set_logs t ls a) b'.
Proof.
  intros [H1 H2 H3] Hnm Hset Hl ET ES. split; cbn; [|done|].
  - rewrite ET. apply map_Forall2_insert_2; [done|].
    intros i. pose proof (H1 i) as Hi. inversion Hi; constructor. by eapply set_rep_mono.
  - eapply list.Forall_impl; [exact H3|]. intros. by apply sub_valid_insert.
Qed.

Lemma rel_mono n m a b : n <= m -> rel n a b -> rel m a b.
Proof.
  intros Hnm [H1 H2 H3]. split; [|done..].
  intros i. pose proof (H1 i) as Hi. inversion Hi; constructor. by eapply set_rep_mono.
Qed.

Lemma newTopicSet_rep n t k : 0 <= n -> 0 < k < 2 ^ 32 ->
  set_rep n (replicate (Z.to_nat k) [], 0) (newTopicSet t k).
Proof.
  intros Hn Hk. unfold newTopicSet. destruct (k <=? 0) eqn:E; go_bool; [lia|].
  split; [|split; [done|cbn [fst]; rewrite length_replicate; lia]]. cbn [fst partitions].
  apply Forall2_same_length_lookup_2; [rewrite length_replicate, length_map, length_seqZ; done|].
  intros i x y Hx Hy. apply lookup_replicate in Hx as [-> _].
  rewrite list_lookup_fmap in Hy. apply fmap_Some in Hy as (z & _ & ->).
  split; [by apply newTopic_rep|]. done.
Qed.

Lemma log_topic_set t ls a : log_topic t (set_logs t ls a) = ls.
Proof. unfold log_topic, set_logs. cbn. by rewrite lookup_insert_eq. Qed.

Lemma set_logs_idem t ls ls' a : set_logs t ls (set_logs t ls' a) = set_logs t ls a.
Proof. unfold set_logs. cbn. by rewrite insert_insert_eq. Qed.

(** After [getOrCreate] the topic exists on both sides. *)
Lemma getOrCreate_rel n a b t :
  rel n a b -> 0 <= n ->
  let '(set, b') := getOrCreate t b in
  rel n (set_logs t (log_topic t a) a) b' /\ topics b' !! t = Some set /\
  set_rep n (log_topic t a) set /\ subscriptions b' = subscriptions b.
Proof.
  intros HR Hn. pose proof (rel_lookup _ _ _ t HR) as Ht. unfold getOrCreate, log_topic.
  destruct (topics b !! t) as [set|] eqn:ET, (l_topics a !! t) as [ls|] eqn:EL; try done; cbn [default].
  - split; [|done]. eapply (rel_set n n a b b); [done|lia|done| | |by destruct HR].
    + intros ls0. rewrite EL. by intros [= ->].
    + by rewrite insert_id.
  - assert (set_rep n (replicate 3 [], 0) (newTopicSet t defaultTopicPartitions)) as Hnew
      by (by apply (newTopicSet_rep n t 3)).
    split; [|split; [cbn; by rewrite lookup_insert_eq|done]].
    eapply (rel_set n n a b); [done|lia|done| |done|by destruct HR]. rewrite EL. done.
Qed.

Lemma length_set_rep n ls set : set_rep n ls set -> length (partitions set) = length ls.1.
Proof. intros (H & _). symmetry. by eapply Forall2_length. Qed.

Lemma partition_at_rep n ls set p :
  set_rep n ls set -> valid p ls.1 = true ->
  exists t log, partition_at set p = Some t /\ ls.1 !! Z.to_nat p = Some log /\ partition_rep n log t.
Proof.
  intros (H & _) V. unfold valid in V. go_bool. unfold partition_at.
  destruct (p <? 0) eqn:E; go_bool; [lia|].
  destruct (lookup_lt_is_Some_2 ls.1 (Z.to_nat p)) as [log El]; [lia|].
  destruct (Forall2_lookup_l _ _ _ _ _ H El) as (t & Et & Hp). by exists t, log.
Qed.

Lemma invalid_partition_rep n ls set p : set_rep n ls set -> invalid_partition p set = negb (valid p ls.1).
Proof.
  intros H. unfold invalid_partition, valid. rewrite (length_set_rep _ _ _ H).
  destruct (p <? 0) eqn:E1, (0 <=? p) eqn:E2, (zlen ls.1 <=? p) eqn:E3, (p <? zlen ls.1) eqn:E4; go_bool; done || lia.
Qed.

Lemma valid_zero ls : 0 < zlen ls -> valid 0 ls = true.
Proof. intros. unfold valid. apply andb_true_intro. split; [done|]. by apply Z.ltb_lt. Qed.

Lemma notifySubs_rep ids xs h : Forall2 sub_rep xs h -> Forall2 sub_rep xs (notifySubs ids h).
Proof.
  revert h. induction ids as [|i ids IH]; intros h H; [done|]. cbn. apply IH.
  apply Forall2_same_length_lookup_2.
  - rewrite length_alter. by eapply Forall2_length.
  - intros j x y Hx Hy. destruct (Forall2_lookup_l _ _ _ _ _ H Hx) as (s & Es & Hs).
    destruct (decide (i = j)) as [->|Hne].
    + rewrite list_lookup_alter_eq, Es in Hy. by simplify_eq/=.
    + rewrite list_lookup_alter_ne, Es in Hy by done. by simplify_eq.
Qed.

Lemma choosePartition_rep n ls set key :
  set_rep n ls set ->
  exists set', choosePartition set key = (set', (route (length ls.1) ls.2 key).2) /\
    set_rep n (ls.1, (route (length ls.1) ls.2 key).1) set' /\
    valid (route (length ls.1) ls.2 key).2 ls.1 = true.
Proof.
  intros Hs. pose proof Hs as (HF & Hr & Hlen). pose proof (length_set_rep _ _ _ Hs) as EL.
  unfold choosePartition, route. rewrite EL, Hr.
  assert (forall x, valid (x mod zlen ls.1) ls.1 = true) as HV.
  { intros x. unfold valid. pose proof (Z.mod_pos_bound x (zlen ls.1) ltac:(lia)).
    apply andb_true_intro. split; [apply Z.leb_le|apply Z.ltb_lt]; lia. }
  destruct (zlen ls.1 =? 1) eqn:E1, (decide (length ls.1 = 1%nat)); go_bool; try lia.
  - exists set. split; [done|]. split; [by destruct ls|]. apply valid_zero. lia.
  - destruct (String.eqb key "").
    + eexists. split; [reflexivity|]. split; [|apply HV]. by split; [|split].
    + exists set. rewrite (wrap_u_small 32) by lia. split; [done|]. split; [by destruct ls|apply HV].
Qed.

Lemma alter_insert {A} (f : A -> A) (l : list A) i x : l !! i = Some x -> alter f i l = <[i := f x]> l.
Proof. revert i. induction l as [|y l IH]; intros [|i] E; simplify_eq/=; [done|]. f_equal. by apply IH. Qed.

Lemma set_partition_rep n m ls set p t log k :
  set_rep n ls set -> n <= m -> valid p ls.1 = true -> ls.1 !! Z.to_nat p = Some log -> partition_rep m (k log) t ->
  set_rep m (alter k (Z.to_nat p) ls.1, ls.2) (set_partition p t set).
Proof.
  intros (HF & Hr & Hlen) Hnm V El Hp. split; [|split; [done|cbn [fst]; by rewrite length_alter]].
  cbn [fst partitions set_partition]. rewrite (alter_insert k _ _ _ El).
  apply Forall2_insert; [|done]. eapply list.Forall2_impl; [exact HF|]. intros. by eapply partition_rep_mono.
Qed.

Lemma publish_at_rel n a b t ls set p now payload :
  rel n a b -> 0 <= n < 2 ^ 62 - 1 -> set_rep n ls set -> valid p ls.1 = true ->
  (forall ls0, l_topics a !! t = Some ls0 -> length ls0.1 = length ls.1) ->
  exists b', publish_at t set p now payload b = Some ((log_append t ls p (now, payload) a).1, b') /\
    rel (n + 1) (log_append t ls p (now, payload) a).2 b'.
Proof.
  intros HR Hn Hs V Hl. destruct (partition_at_rep _ _ _ _ Hs V) as (T & log & ET & El & Hrep & Hc & Hpub & Hle).
  destruct (append_message_rep log T now payload Hrep ltac:(lia)) as (T' & EA & Hrep' & Hsubs & Hp' & Hc' & _).
  unfold publish_at, Topic_Publish. rewrite ET. cbn [mbind option_bind]. rewrite EA. cbn [mbind option_bind].
  unfold log_append. rewrite El. cbn [fst snd default]. eexists. split; [reflexivity|].
  eapply (rel_set n); [done|lia| | |cbn [topics]; reflexivity|cbn [subscriptions]; apply notifySubs_rep; by destruct HR].
  - eapply set_partition_rep; [done|lia|done|done|].
    split; [|split; [cbn; congruence|split]].
    + destruct Hrep'. by split.
    + cbn [t_published count_published]. rewrite Hp', Hpub, length_app, i64_id by (unfold in_i64; lia). cbn. lia.
    + rewrite length_app. cbn. lia.
  - cbn [fst]. rewrite length_alter. exact Hl.
Qed.

Lemma same_length_set t (ls ls' : list (list entry) * Z) a :
  length ls.1 = length ls'.1 ->
  forall ls0, l_topics (set_logs t ls a) !! t = Some ls0 -> length ls0.1 = length ls'.1.
Proof. intros E ls0. cbn. rewrite lookup_insert_eq. by intros [= <-]. Qed.

Lemma log_append_set t ls ls' p e a :
  log_append t ls p e (set_logs t ls' a) = log_append t ls p e a.
Proof. unfold log_append. by rewrite set_logs_idem. Qed.

Lemma log_topic_fold t ls a : log_topic t a = ls -> set_logs t (log_topic t a) a = set_logs t ls a.
Proof. by intros ->. Qed.

Lemma SubscribePartitionAt_rel n a b t g ls p start :
  rel n a b -> 0 <= n -> l_topics a !! t = Some ls ->
  exists id b', SubscribePartitionAt t g p start b = Some (id, b') /\
    log_subscribe t ls p start a = (RSubscription id, (log_subscribe t ls p start a).2) /\
    rel n (log_subscribe t ls p start a).2 b'.
Proof.
  intros HR Hn Ela. pose proof (rel_lookup _ _ _ t HR) as Ht. rewrite Ela in Ht.
  destruct (topics b !! t) as [set|] eqn:ET; [|done].
  unfold SubscribePartitionAt, getOrCreate. rewrite ET, (invalid_partition_rep _ _ _ p Ht).
  unfold log_subscribe. destruct HR as [H1 H2 H3].
  set (q := if negb (valid p ls.1) then 0 else p). set (q' := if valid p ls.1 then p else 0).
  assert (q' = q) as -> by (subst q q'; by destruct (valid p ls.1)).
  assert (valid q ls.1 = true) as V.
  { subst q. destruct (valid p ls.1) eqn:E; cbn [negb]; [done|]. apply valid_zero. destruct Ht as (_ & _ & ?). lia. }
  destruct (partition_at_rep _ _ _ _ Ht V) as (T & log & EP & El & Hp).
  rewrite EP, El. cbn [mbind option_bind default fst snd].
  pose proof (Forall2_length H2) as HL.
  assert (t_tail T = zlen log) as -> by (destruct Hp as ([] & _); done).
  eexists _, _. split; [reflexivity|]. split; [by rewrite HL|]. split; cbn [l_topics l_subs topics subscriptions].
  - apply map_Forall2_insert_2; [|done].
    replace ls with (alter (fun l => l) (Z.to_nat q) ls.1, ls.2).
    2:{ destruct ls as [l1 l2]. f_equal. cbn [fst] in *. erewrite alter_insert by exact El. by apply list_insert_id. }
    eapply set_partition_rep; [done|lia|done|exact El|]. destruct Hp as ([] & Hq). split; [by split|done].
  - apply Forall2_app; [done|]. constructor; [|done]. done.
  - rewrite insert_id by done. apply Forall_app. split; [done|]. constructor; [|done]. by exists ls.
Qed.

Lemma list_alter_rep (k : string * Z * Z -> string * Z * Z) (f : Subscription -> Subscription) xs h id :
  (forall x s, sub_rep x s -> sub_rep (k x) (f s)) ->
  Forall2 sub_rep xs h -> Forall2 sub_rep (alter k id xs) (alter f id h).
Proof.
  intros Hk H. apply Forall2_alter; [done|]. intros x s _ _. apply Hk.
Qed.

Lemma Forall_alter_valid m (k : string * Z * Z -> string * Z * Z) xs id :
  (forall x, (k x).1 = x.1) -> Forall (sub_valid m) xs -> Forall (sub_valid m) (alter k id xs).
Proof.
  intros Hk H. apply Forall_alter; [done|]. intros x _ (ls & E & V). exists ls. by rewrite Hk.
Qed.

Lemma op_publish n a b t now p :
  rel n a b -> 0 <= n < 2 ^ 62 - 1 ->
  exists b', Publish t now p b = Some ((log_append t (log_topic t a) 0 (now, p) a).1, b') /\
    rel (n + 1) (log_append t (log_topic t a) 0 (now, p) a).2 b'.
Proof.
  intros HR Hn. pose proof (getOrCreate_rel _ _ _ t HR ltac:(lia)) as HG. unfold Publish.
  destruct (getOrCreate t b) as [set b1]. destruct HG as (HR1 & _ & Hs & _).
  rewrite <- (log_append_set t _ (log_topic t a)).
  apply publish_at_rel; [done|done|done| |by apply same_length_set].
  apply valid_zero. destruct Hs as (_ & _ & ?). lia.
Qed.

Lemma op_publish_with_key n a b t k now p :
  rel n a b -> 0 <= n < 2 ^ 62 - 1 ->
  let ls := log_topic t a in
  let r := route (length ls.1) ls.2 k in
  exists b', PublishWithKey t k now p b = Some (r.2, (log_append t (ls.1, r.1) r.2 (now, p) a).1, b') /\
    rel (n + 1) (log_append t (ls.1, r.1) r.2 (now, p) a).2 b'.
Proof.
  intros HR Hn ls r. pose proof (getOrCreate_rel _ _ _ t HR ltac:(lia)) as HG. unfold PublishWithKey.
  destruct (getOrCreate t b) as [set b1]. destruct HG as (HR1 & _ & Hs & _).
  destruct (choosePartition_rep _ _ _ k Hs) as (set' & -> & Hs' & V). fold ls r in Hs', V |- *.
  rewrite <- (log_append_set t _ ls).
  destruct (publish_at_rel n (set_logs t ls a) b1 t (ls.1, r.1) set' r.2 now p) as (b' & E & HR');
    [done|done|done|done|by apply same_length_set|].
  exists b'. rewrite E. done.
Qed.

Lemma op_route n a b t k :
  rel n a b -> 0 <= n ->
  let ls := log_topic t a in
  let r := route (length ls.1) ls.2 k in
  (RouteKey t k b).1 = r.2 /\ rel n (set_logs t (ls.1, r.1) a) (RouteKey t k b).2.
Proof.
  intros HR Hn ls r. pose proof (getOrCreate_rel _ _ _ t HR ltac:(lia)) as HG. unfold RouteKey.
  destruct (getOrCreate t b) as [set b1]. destruct HG as (HR1 & _ & Hs & _).
  destruct (choosePartition_rep _ _ _ k Hs) as (set' & -> & Hs' & V). fold ls r in Hs', V |- *.
  split; [done|]. cbn [snd]. rewrite <- (set_logs_idem t _ ls).
  eapply rel_set; [exact HR1|lia|exact Hs'|by apply same_length_set|done|by destruct HR1].
Qed.

Lemma op_publish_to n a b t pt now p :
  rel n a b -> 0 <= n < 2 ^ 62 - 1 ->
  let ls := log_topic t a in
  exists b' r, PublishToPartition t pt now p b = Some (r, b') /\
    if valid pt ls.1 then
      r = Ok (log_append t ls pt (now, p) a).1 /\ rel (n + 1) (log_append t ls pt (now, p) a).2 b'
    else r = Err (ErrInvalidPartition pt) /\ rel (n + 1) (set_logs t ls a) b'.
Proof.
  intros HR Hn ls. pose proof (getOrCreate_rel _ _ _ t HR ltac:(lia)) as HG. unfold PublishToPartition.
  destruct (getOrCreate t b) as [set b1]. destruct HG as (HR1 & _ & Hs & _). fold ls in HR1, Hs.
  rewrite (invalid_partition_rep _ _ _ _ Hs). destruct (valid pt ls.1) eqn:V; cbn [negb].
  - rewrite <- (log_append_set t _ ls).
    destruct (publish_at_rel n (set_logs t ls a) b1 t ls set pt now p) as (b' & E & HR');
      [done|done|done|done|by apply same_length_set|].
    exists b', (Ok (log_append t ls pt (now, p) (set_logs t ls a)).1). rewrite E. done.
  - eexists _, _. split; [reflexivity|]. split; [done|]. by apply (rel_mono n); [lia|].
Qed.

Lemma op_ensure n a b t k :
  rel n a b -> 0 <= n -> k < 2 ^ 32 ->
  rel n (set_logs t (default (replicate (Z.to_nat (if k <=? 0 then 3 else k)) [], 0) (l_topics a !! t)) a)
    (EnsureTopic t k b).
Proof.
  intros HR Hn Hk. pose proof (rel_lookup _ _ _ t HR) as Ht. unfold EnsureTopic.
  destruct (topics b !! t) as [set|] eqn:ET, (l_topics a !! t) as [ls|] eqn:EL; try done; cbn [default].
  - eapply (rel_set n n a b b); [done|lia|done| | |by destruct HR].
    + intros ls0. rewrite EL. by intros [= ->].
    + by rewrite insert_id.
  - eapply (rel_set n n a b); [done|lia| |rewrite EL; done|done|by destruct HR].
    apply newTopicSet_rep; [done|]. unfold defaultTopicPartitions. destruct (k <=? 0) eqn:E; go_bool; lia.
Qed.

Lemma op_subscribe_group n a b t g start :
  rel n a b -> 0 <= n ->
  let ls := log_topic t a in
  let r := route (length ls.1) ls.2 g in
  exists id b', SubscribeGroupAt t g start b = Some (id, b') /\
    log_subscribe t (ls.1, r.1) r.2 start a = (RSubscription id, (log_subscribe t (ls.1, r.1) r.2 start a).2) /\
    rel n (log_subscribe t (ls.1, r.1) r.2 start a).2 b'.
Proof.
  intros HR Hn ls r. pose proof (getOrCreate_rel _ _ _ t HR ltac:(lia)) as HG. unfold SubscribeGroupAt.
  destruct (getOrCreate t b) as [set b1]. destruct HG as (HR1 & _ & Hs & _).
  destruct (choosePartition_rep _ _ _ g Hs) as (set' & -> & Hs' & V). fold ls r in Hs', V, HR1 |- *.
  assert (log_subscribe t (ls.1, r.1) r.2 start a =
          log_subscribe t (ls.1, r.1) r.2 start (set_logs t (ls.1, r.1) (set_logs t ls a))) as ->.
  { unfold log_subscribe, set_logs. cbn [l_topics l_subs]. by rewrite !insert_insert_eq. }
  apply SubscribePartitionAt_rel; [|done|cbn; by rewrite lookup_insert_eq].
  eapply rel_set; [exact HR1|lia|exact Hs'|by apply same_length_set|done|by destruct HR1].
Qed.

Lemma op_subscribe n a b t g p start :
  rel n a b -> 0 <= n ->
  let ls := log_topic t a in
  exists id b', SubscribePartitionAt t g p start b = Some (id, b') /\
    log_subscribe t ls p start a = (RSubscription id, (log_subscribe t ls p start a).2) /\
    rel n (log_subscribe t ls p start a).2 b'.
Proof.
  intros HR Hn ls. pose proof (getOrCreate_rel _ _ _ t HR ltac:(lia)) as HG.
  assert (SubscribePartitionAt t g p start b = SubscribePartitionAt t g p start (getOrCreate t b).2) as ->.
  { unfold SubscribePartitionAt. unfold getOrCreate. destruct (topics b !! t) eqn:E; cbn [snd fst].
    - by rewrite E.
    - cbn. by rewrite lookup_insert_eq. }
  destruct (getOrCreate t b) as [set b1]. destruct HG as (HR1 & _ & Hs & _). fold ls in HR1, Hs. cbn [snd].
  assert (log_subscribe t ls p start a = log_subscribe t ls p start (set_logs t ls a)) as ->.
  { unfold log_subscribe, set_logs. cbn [l_topics l_subs]. by rewrite !insert_insert_eq. }
  apply SubscribePartitionAt_rel; [done|done|cbn; by rewrite lookup_insert_eq].
Qed.

(** A fetch from partition [p] of a represented topic. *)
Lemma fetch_at n ls set p offset maxCount t :
  set_rep n ls set -> valid p ls.1 = true -> 0 <= maxCount < 2 ^ 62 -> partition_at set p = Some t ->
  Topic_Fetch offset maxCount t = Some (log_messages offset maxCount p ls.1).
Proof.
  intros Hs V Hm Et. destruct (partition_at_rep _ _ _ _ Hs V) as (T & log & ET & El & Hrep & Hc & _).
  simplify_eq. unfold log_messages. rewrite El, <- Hc. by apply Topic_Fetch_rep.
Qed.

Lemma op_fetch n a b t p o m :
  rel n a b -> 0 <= n -> 0 <= m < 2 ^ 62 ->
  let ls := log_topic t a in
  exists b', FetchPartition t p o m b = Some (if valid p ls.1 then log_messages o m p ls.1 else [], b') /\
    rel n (set_logs t ls a) b'.
Proof.
  intros HR Hn Hm ls. pose proof (getOrCreate_rel _ _ _ t HR ltac:(lia)) as HG. unfold FetchPartition.
  destruct (getOrCreate t b) as [set b1]. destruct HG as (HR1 & _ & Hs & _). fold ls in HR1, Hs.
  rewrite (invalid_partition_rep _ _ _ _ Hs). destruct (valid p ls.1) eqn:V; cbn [negb]; [|by exists b1].
  destruct (partition_at_rep _ _ _ _ Hs V) as (T & log & ET & _).
  rewrite ET. cbn [mbind option_bind]. rewrite (fetch_at n ls set p) by done. by exists b1.
Qed.

Lemma op_info n a b t p :
  rel n a b ->
  TopicPartitionInfo t p b = Some
    match l_topics a !! t with
    | None => Err (ErrTopicNotFound t)
    | Some (ls, _) =>
        if valid p ls then
          let n := zlen (default [] (ls !! Z.to_nat p)) in Ok (Z.max 0 (n - defaultCapacity), n)
        else Err (ErrInvalidPartition p)
    end.
Proof.
  intros HR. pose proof (rel_lookup _ _ _ t HR) as Ht. unfold TopicPartitionInfo.
  destruct (topics b !! t) as [set|], (l_topics a !! t) as [ls|]; try done.
  rewrite (invalid_partition_rep _ _ _ p Ht). destruct ls as [ls k]. cbn [fst].
  destruct (valid p ls) eqn:V; cbn [negb]; [|done].
  destruct (partition_at_rep _ _ _ _ Ht V) as (T & log & ET & El & [_ _ Htl Hhd _ _] & Hc & _). cbn [fst] in El.
  rewrite ET, El. cbn [mbind option_bind default]. by rewrite Hhd, Htl, Hc.
Qed.

Lemma rel_sub n a b id x :
  rel n a b -> l_subs a !! id = Some x ->
  exists s ls set T, subscriptions b !! id = Some s /\ sub_rep x s /\ l_topics a !! x.1.1 = Some ls /\
    topic_of s b = Some (set, T) /\ set_rep n ls set /\ valid x.1.2 ls.1 = true /\ partition_at set x.1.2 = Some T /\
    topics b !! x.1.1 = Some set.
Proof.
  intros HR E. destruct (Forall2_lookup_l _ _ _ _ _ (rel_subs _ _ _ HR) E) as (s & Es & Hs).
  destruct (Forall_lookup_1 _ _ _ _ (rel_valid _ _ _ HR) E) as (ls & El & V).
  pose proof (rel_lookup _ _ _ x.1.1 HR) as Ht. rewrite El in Ht.
  destruct (topics b !! x.1.1) as [set|] eqn:ET; [|done].
  destruct (partition_at_rep _ _ _ _ Ht V) as (T & log & EP & _).
  exists s, ls, set, T. do 3 (split; [done|]). split; [|done].
  unfold topic_of. destruct Hs as (-> & -> & _). rewrite ET. cbn [mbind option_bind]. by rewrite EP.
Qed.

Lemma op_next n a b id m t p o :
  rel n a b -> 0 <= m < 2 ^ 62 -> l_subs a !! id = Some (t, p, o) ->
  exists b', let ms := log_messages o m p (log_topic t a).1 in
    Next id m b = Some (match ms with [] => None | _ => Some ms end, b') /\
    rel n (match ms with
           | [] => a
           | _ => mkLogs (l_topics a) (<[id := (t, p, i64 (o + zlen ms))]> (l_subs a))
           end) b'.
Proof.
  intros HR Hm E. destruct (rel_sub _ _ _ _ _ HR E) as (s & ls & set & T & Es & Hs & El & ET & Hset & V & EP & _).
  cbn [fst snd] in *. unfold Next. rewrite Es. cbn [mbind option_bind]. rewrite ET. cbn [mbind option_bind].
  pose proof Hs as (_ & _ & Eo). cbn [snd] in Eo. rewrite Eo.
  rewrite (fetch_at n ls set p) by done. cbn [mbind option_bind].
  assert ((log_topic t a).1 = ls.1) as -> by (unfold log_topic; by rewrite El).
  set (ms := log_messages o m p ls.1). destruct ms as [|x ms'] eqn:Ems; [by exists b|]. rewrite <- Ems.
  eexists. split; [by rewrite Ems|]. destruct HR as [H1 H2 H3].
  split; cbn [topics subscriptions l_topics l_subs]; [done|..].
  - rewrite (alter_insert _ _ _ _ Es). apply Forall2_insert; [done|].
    destruct Hs as (Ht & Hp & _). split; [done|]. split; [done|].
    unfold advance. cbn [s_offset snd]. by rewrite Eo, Ems.
  - apply Forall_insert; [done|]. by exists ls.
Qed.

Lemma op_unsubscribe n a b id x :
  rel n a b -> l_subs a !! id = Some x -> exists b', Unsubscribe id b = Some b' /\ rel n a b'.
Proof.
  intros HR E. destruct (rel_sub _ _ _ _ _ HR E) as (s & ls & set & T & Es & Hs & El & ET & Hset & V & EP & ETs).
  unfold Unsubscribe. rewrite Es. cbn [mbind option_bind]. rewrite ET. cbn [mbind option_bind].
  eexists. split; [done|]. pose proof Hs as (-> & -> & _).
  replace a with (set_logs x.1.1 ls a) by (destruct a; unfold set_logs; cbn in *; by rewrite insert_id).
  destruct (partition_at_rep _ _ _ _ Hset V) as (T' & log & EP' & Elog & Hp). simplify_eq.
  eapply (rel_set n n a b); [done|lia| |rewrite El; by intros ? [= ->]|done|by destruct HR].
  replace ls with (alter (fun l => l) (Z.to_nat x.1.2) ls.1, ls.2).
  2:{ destruct ls as [l1 l2]. f_equal. cbn [fst] in *. erewrite alter_insert by exact Elog. by apply list_insert_id. }
  eapply set_partition_rep; [done|lia|done|exact Elog|].
  unfold removeSub. destruct (list_find _ _) as [[? ?]|]; [|done].
  destruct Hp as ([] & Hq). split; [by split|done].
Qed.

(** One operation on both sides. *)
Lemma op_simulates n a b o r a' :
  rel n a b -> 0 <= n < 2 ^ 62 - 1 -> op_ok o -> log_op o a = Some (r, a') ->
  exists b', run_op o b = Some (r, b') /\ rel (n + 1) a' b'.
Proof.
  intros HR Hn Hok HL. assert (forall a b, rel n a b -> rel (n + 1) a b) as HM by (intros; apply (rel_mono n); [lia|done]).
  destruct o as [t now p|t k now p|t k|t pt now p|t k|t g p s|t g s|id|t p o m|t p|id m|id o|k]; cbn [run_op log_op] in *.
  - destruct (op_publish _ _ _ t now p HR Hn) as (b' & -> & HR'). exists b'. by simplify_eq/=.
  - destruct (op_publish_with_key _ _ _ t k now p HR Hn) as (b' & -> & HR').
    destruct (log_topic t a) as [ls c]. cbn [fst snd] in *. destruct (route (length ls) c k) as [c' q].
    exists b'. by simplify_eq/=.
  - destruct (op_route _ _ _ t k HR ltac:(lia)) as (E & HR').
    destruct (RouteKey t k b) as [q b']. exists b'. cbn [fst snd] in *.
    destruct (log_topic t a) as [ls c]. cbn [fst snd] in *. destruct (route (length ls) c k) as [c' q'].
    simplify_eq/=. split; [done|]. by apply HM.
  - destruct (op_publish_to _ _ _ t pt now p HR Hn) as (b' & x & -> & Hx). exists b'.
    destruct (valid pt (log_topic t a).1); destruct Hx as [-> HR']; by simplify_eq/=.
  - eexists. simplify_eq/=. split; [done|]. apply HM, op_ensure; [done|lia|done].
  - destruct (op_subscribe _ _ _ t g p s HR ltac:(lia)) as (id & b' & -> & E & HR'). exists b'.
    rewrite E in HL. simplify_eq. split; [done|]. by apply HM.
  - destruct (op_subscribe_group _ _ _ t g s HR ltac:(lia)) as (id & b' & -> & E & HR'). exists b'.
    destruct (log_topic t a) as [ls c]. cbn [fst snd] in *. destruct (route (length ls) c g) as [c' q'].
    cbn [fst snd] in *. rewrite E in HL. simplify_eq/=. split; [done|]. by apply HM.
  - destruct (l_subs a !! id) as [x|] eqn:Ex; [|done]. destruct (op_unsubscribe _ _ _ _ _ HR Ex) as (b' & -> & HR').
    exists b'. simplify_eq/=. split; [done|]. by apply HM.
  - destruct (op_fetch _ _ _ t p o m HR ltac:(lia) Hok) as (b' & -> & HR'). exists b'. simplify_eq/=.
    split; [done|]. by apply HM.
  - rewrite (op_info _ _ _ t p HR). exists b. simplify_eq/=. split; [|by apply HM].
    destruct (l_topics a' !! t) as [[ls ?]|]; [|done]. by destruct (valid p ls).
  - destruct (l_subs a !! id) as [[[t p] o]|] eqn:Ex; [|done].
    destruct (op_next _ _ _ _ m _ _ _ HR Hok Ex) as (b' & -> & HR'). exists b'. cbn [mbind option_bind] in *.
    destruct (log_messages o m p (log_topic t a).1); simplify_eq/=; (split; [done|]); by apply HM.
  - eexists. simplify_eq/=. split; [done|]. apply HM. destruct HR as [H1 H2 H3]. split; cbn; [done|..].
    + apply list_alter_rep; [|done]. intros x s (? & ? & _). done.
    + by apply Forall_alter_valid.
  - eexists. simplify_eq/=. split; [done|]. apply HM. by destruct HR.
Qed.

Lemma run_simulates os : forall n a b rs a',
  rel n a b -> 0 <= n -> n + zlen os < 2 ^ 62 -> Forall op_ok os -> run_all log_op os a = Some (rs, a') ->
  exists b', run_all run_op os b = Some (rs, b') /\ rel (n + zlen os) a' b'.
Proof.
  induction os as [|o os IH]; intros n a b rs a' HR Hn Hlt Hok E; cbn [run_all length] in *.
  { simplify_eq. exists b. split; [done|]. by rewrite Z.add_0_r. }
  destruct (list.Forall_cons_1 _ _ _ Hok) as [Ho Hos].
  destruct (log_op o a) as [[r a1]|] eqn:E1; [|done]. cbn [mbind option_bind] in E.
  destruct (run_all log_op os a1) as [[rs1 a2]|] eqn:E2; [|done]. cbn in E. simplify_eq.
  destruct (op_simulates _ _ _ _ _ _ HR ltac:(lia) Ho E1) as (b1 & -> & HR1). cbn [mbind option_bind].
  destruct (IH (n + 1) a1 b1 rs1 a' HR1 ltac:(lia) ltac:(lia) Hos E2) as (b2 & -> & HR2).
  exists b2. split; [done|]. by replace (n + Z.of_nat (S (length os))) with (n + 1 + zlen os) by lia.
Qed.

Lemma New_rel : rel 0 empty_logs New.
Proof. split; [|constructor..]. intros i. cbn. rewrite !lookup_empty. constructor. Qed.

(** C8. The broker refines an append-only log per partition.  Take any sequence of fewer than
    2^62 publishes (to partition 0, by key, round robin or to a given partition),
    subscriptions, fetches, reads of a subscription, commits and topic creations, run one
    after the other on an empty broker, in which every count of messages to fetch or read is
    at least 0 and less than 2^62, a topic is created with fewer than 2^32 partitions, and
    only subscriptions that were made are read or ended ([op_ok], and that the logs answer).
    Then no operation panics and every one answers what the logs answer: a publish appends to
    its partition's log and returns the log's length as the offset; a fetch returns
    consecutive messages of the log with their offsets, from the requested one or the oldest
    that the ring of 2^20 still holds; an unknown partition is an error or empty.  A fetch
    with a negative count is outside: it panics when there is something to fetch. *)
Theorem broker_refines_logs os rs a :
  Forall op_ok os -> zlen os < 2 ^ 62 -> run_all log_op os empty_logs = Some (rs, a) ->
  exists b, run_all run_op os New = Some (rs, b) /\ rel (zlen os) a b.
Proof.
  intros Hok Hlt E. destruct (run_simulates os 0 _ _ _ _ New_rel ltac:(lia) ltac:(lia) Hok E) as (b & Hb & HR).
  by exists b.
Qed.

Definition demo_ops : list op :=
  [OPublishWithKey "orders" "acme" 10 [Byte.x01]; OSubscribePartitionAt "orders" "g" 1 0;
   OPublishToPartition "orders" 1 11 [Byte.x02]; OPublishToPartition "orders" 7 12 [Byte.x03];
   OPublish "orders" 13 [Byte.x04]; ONext 0 128; ONext 0 128; OFetchPartition "orders" 0 (-5) 10;
   OTopicPartitionInfo "orders" 0; OUnsubscribe 0].

Definition demo_resps : list resp :=
  match run_all log_op demo_ops empty_logs with Some (rs, _) => rs | None => [] end.

Lemma broker_refines_logs_witness :
  exists b, run_all run_op demo_ops New = Some (demo_resps, b) /\
    rel 10 (match run_all log_op demo_ops empty_logs with Some (_, a) => a | None => empty_logs end) b.
Proof.
  apply (broker_refines_logs demo_ops).
  - repeat constructor; discriminate.
  - reflexivity.
  - vm_compute. reflexivity.
Defined.

(** *** Order of the messages of one key *)

(** Logs only grow, and a topic keeps its partitions. *)
Definition grows (a a' : Logs) : Prop :=
  forall t ls, l_topics a !! t = Some ls -> exists ls', l_topics a' !! t = Some ls' /\ Forall2 prefix ls.1 ls'.1.

Lemma Forall2_prefix_refl (l : list (list entry)) : Forall2 prefix l l.
Proof. induction l; by constructor. Qed.

Lemma grows_refl a a' : l_topics a' = l_topics a -> grows a a'.
Proof. intros E t ls. rewrite E. intros El. exists ls. split; [done|]. apply Forall2_prefix_refl. Qed.

Lemma grows_trans a b c : grows a b -> grows b c -> grows a c.
Proof.
  intros H1 H2 t ls E. destruct (H1 _ _ E) as (ls1 & E1 & F1). destruct (H2 _ _ E1) as (ls2 & E2 & F2).
  exists ls2. split; [done|]. by etrans.
Qed.

Lemma grows_insert a t ls a' :
  l_topics a' = <[t := ls]> (l_topics a) ->
  (forall ls0, l_topics a !! t = Some ls0 -> Forall2 prefix ls0.1 ls.1) -> grows a a'.
Proof.
  intros E H t' ls' El. rewrite E. destruct (decide (t' = t)) as [->|Hne].
  - exists ls. rewrite lookup_insert_eq. split; [done|]. by apply H.
  - exists ls'. rewrite lookup_insert_ne by done. split; [done|]. apply Forall2_prefix_refl.
Qed.

Lemma log_topic_Some t a ls : l_topics a !! t = Some ls -> log_topic t a = ls.
Proof. unfold log_topic. by intros ->. Qed.

Lemma prefix_alter (l : list (list entry)) p e : Forall2 prefix l (alter (fun l => l ++ [e]) p l).
Proof.
  revert p. induction l as [|x l IH]; intros [|p]; cbn; constructor; try apply Forall2_prefix_refl; try apply IH.
  - by eexists.
  - done.
Qed.

Lemma log_op_grows o a r a' : log_op o a = Some (r, a') -> grows a a'.
Proof.
  assert (forall t ls, (log_topic t a).1 = ls -> forall ls0, l_topics a !! t = Some ls0 -> Forall2 prefix ls0.1 ls) as HS.
  { intros t ls <- ls0 E. rewrite (log_topic_Some _ _ _ E). apply Forall2_prefix_refl. }
  assert (forall t p e, forall ls0, l_topics a !! t = Some ls0 ->
            Forall2 prefix ls0.1 (alter (fun l => l ++ [e]) p (log_topic t a).1)) as HA.
  { intros t p e ls0 E. rewrite (log_topic_Some _ _ _ E). apply prefix_alter. }
  intros H. destruct o as [t now p|t k now p|t k|t pt now p|t k|t g p s|t g s|id|t p o m|t p|id m|id o|k];
    cbn [log_op] in H; unfold log_append, log_subscribe in H.
  - simplify_eq. eapply grows_insert; [done|]. apply HA.
  - specialize (HA t). destruct (log_topic t a) as [ls c]. destruct (route _ _ _) as [c' q]. simplify_eq/=.
    eapply grows_insert; [done|]. apply HA.
  - specialize (HS t). destruct (log_topic t a) as [ls c]. destruct (route _ _ _) as [c' q]. simplify_eq/=.
    eapply grows_insert; [done|]. by apply HS.
  - destruct (valid pt _); simplify_eq; (eapply grows_insert; [done|]); [apply HA|by apply HS].
  - simplify_eq. eapply grows_insert; [done|]. intros ls0 ->. apply Forall2_prefix_refl.
  - simplify_eq. eapply grows_insert; [done|]. by apply HS.
  - specialize (HS t). destruct (log_topic t a) as [ls c]. destruct (route _ _ _) as [c' q]. simplify_eq/=.
    eapply grows_insert; [done|]. by apply HS.
  - destruct (l_subs a !! id); simplify_eq/=. by apply grows_refl.
  - simplify_eq. eapply grows_insert; [done|]. by apply HS.
  - simplify_eq. by apply grows_refl.
  - destruct (l_subs a !! id) as [[[t p] o]|]; cbn in H; [|done].
    destruct (log_messages _ _ _ _); simplify_eq; by apply grows_refl.
  - simplify_eq. by apply grows_refl.
  - simplify_eq. by apply grows_refl.
Qed.

Lemma op_reflects n a b o r b' :
  rel n a b -> 0 <= n < 2 ^ 62 - 1 -> op_ok o -> run_op o b = Some (r, b') ->
  exists a', log_op o a = Some (r, a') /\ rel (n + 1) a' b'.
Proof.
  intros HR Hn Hok E. destruct (log_op o a) as [[r' a']|] eqn:EL.
  { destruct (op_simulates _ _ _ _ _ _ HR Hn Hok EL) as (b1 & E1 & HR1). simplify_eq. by exists a'. }
  exfalso. assert (forall id, l_subs a !! id = None -> subscriptions b !! id = None) as HN.
  { intros id Hid. apply lookup_ge_None. apply lookup_ge_None in Hid.
    rewrite <- (Forall2_length (rel_subs _ _ _ HR)). done. }
  destruct o as [t now p|t k now p|t k|t pt now p|t k|t g p s|t g s|id|t p o m|t p|id m|id o|k]; cbn [log_op] in EL;
    try (destruct (log_topic t a) as [ls c]; destruct (route _ _ _) as [c' q]); try discriminate EL.
  - by destruct (valid pt _).
  - destruct (l_subs a !! id) eqn:Ei; [done|]. cbn [run_op] in E. unfold Unsubscribe in E. by rewrite (HN _ Ei) in E.
  - destruct (l_subs a !! id) as [[[t p] o]|] eqn:Ei.
    + cbn in EL. by destruct (log_messages _ _ _ _).
    + cbn [run_op] in E. unfold Next in E. by rewrite (HN _ Ei) in E.
Qed.

Lemma run_reflects os : forall n a b rs b',
  rel n a b -> 0 <= n -> n + zlen os < 2 ^ 62 -> Forall op_ok os -> run_all run_op os b = Some (rs, b') ->
  exists a', run_all log_op os a = Some (rs, a') /\ rel (n + zlen os) a' b'.
Proof.
  induction os as [|o os IH]; intros n a b rs b' HR Hn Hlt Hok E; cbn [run_all length] in *.
  { simplify_eq. exists a. split; [done|]. by rewrite Z.add_0_r. }
  destruct (list.Forall_cons_1 _ _ _ Hok) as [Ho Hos].
  destruct (run_op o b) as [[r b1]|] eqn:E1; [|done]. cbn [mbind option_bind] in E.
  destruct (run_all run_op os b1) as [[rs1 b2]|] eqn:E2; [|done]. cbn in E. simplify_eq.
  destruct (op_reflects _ _ _ _ _ _ HR ltac:(lia) Ho E1) as (a1 & -> & HR1). cbn [mbind option_bind].
  destruct (IH (n + 1) a1 b1 rs1 b' HR1 ltac:(lia) ltac:(lia) Hos E2) as (a2 & -> & HR2). exists a2.
  split; [done|]. by replace (n + Z.of_nat (S (length os))) with (n + 1 + zlen os) by lia.
Qed.

Lemma run_all_app {S R} (f : op -> S -> option (R * S)) os1 os2 s rs s' :
  run_all f (os1 ++ os2) s = Some (rs, s') ->
  exists rs1 rs2 s1, run_all f os1 s = Some (rs1, s1) /\ run_all f os2 s1 = Some (rs2, s') /\
    rs = rs1 ++ rs2 /\ length rs1 = length os1.
Proof.
  revert s rs. induction os1 as [|o os1 IH]; intros s rs E; cbn [run_all app] in *.
  { by exists [], rs, s. }
  destruct (f o s) as [[r s1]|]; [|done]. cbn [mbind option_bind] in *.
  destruct (run_all f (os1 ++ os2) s1) as [[rs' s2]|] eqn:E2; [|done]. cbn in E. simplify_eq.
  destruct (IH _ _ E2) as (rs1 & rs2 & s3 & -> & E3 & -> & HL). exists (r :: rs1), rs2, s3.
  split; [done|]. split; [done|]. split; [done|]. cbn. lia.
Qed.

Lemma run_all_grows os : forall a rs a', run_all log_op os a = Some (rs, a') -> grows a a'.
Proof.
  induction os as [|o os IH]; intros a rs a' E; cbn [run_all] in E.
  { simplify_eq. by apply grows_refl. }
  destruct (log_op o a) as [[r a1]|] eqn:E1; [|done]. cbn [mbind option_bind] in E.
  destruct (run_all log_op os a1) as [[rs' a2]|] eqn:E2; [|done]. cbn in E. simplify_eq.
  eapply grows_trans; [by eapply log_op_grows|by eapply IH].
Qed.

(** The partition of a key among [n]. *)
Definition key_partition (n : nat) (key : string) : Z := (route n 0 key).2.

Lemma key_partition_lt n key : (0 < n)%nat -> 0 <= key_partition n key < Z.of_nat n.
Proof.
  intros Hn. unfold key_partition, route. destruct (decide _); [cbn; lia|].
  destruct (String.eqb key ""); apply Z.mod_pos_bound; lia.
Qed.

Lemma log_publish_key a t k now p r a' :
  k <> ""%string -> log_op (OPublishWithKey t k now p) a = Some (r, a') ->
  exists ls, l_topics a' !! t = Some ls /\ length ls.1 = length (log_topic t a).1 /\
    let q := key_partition (length ls.1) k in
    r = RPublished q (zlen (default [] ((log_topic t a).1 !! Z.to_nat q))) /\
    ls.1 !! Z.to_nat q = (fun l => l ++ [(now, p)]) <$> (log_topic t a).1 !! Z.to_nat q.
Proof.
  intros Hk E. cbn [log_op] in E. destruct (log_topic t a) as [ls c] eqn:El. unfold log_append in E. cbn [fst snd] in *.
  assert ((route (length ls) c k).2 = key_partition (length ls) k) as Hq.
  { unfold key_partition, route. destruct (decide _); [done|]. destruct (String.eqb k "") eqn:Ek; [|done].
    by apply String.eqb_eq in Ek. }
  destruct (route (length ls) c k) as [c' q]. cbn [snd] in Hq. subst q.
  exists (alter (fun l => l ++ [(now, p)]) (Z.to_nat (key_partition (length ls) k)) ls, c').
  simplify_eq/=. rewrite length_alter, lookup_insert_eq, list_lookup_alter_eq. done.
Qed.

(** Messages of one key keep their order.  In any run of the broker, two
    [PublishWithKey] of the same topic and non-empty key, whatever happens in
    between, go to the same partition, and the later one gets the higher
    offset. *)
Theorem same_key_same_order os1 os2 t k now1 p1 now2 p2 rs b :
  Forall op_ok (os1 ++ os2) -> zlen os1 + zlen os2 < 2 ^ 62 - 2 -> k <> ""%string ->
  run_all run_op (os1 ++ OPublishWithKey t k now1 p1 :: os2 ++ [OPublishWithKey t k now2 p2]) New = Some (rs, b) ->
  exists q o1 o2, rs !! length os1 = Some (RPublished q o1) /\
    rs !! S (length os1 + length os2) = Some (RPublished q o2) /\ o1 < o2.
Proof.
  intros Hok Hlt Hk E. apply Forall_app in Hok as [Hok1 Hok2].
  edestruct run_reflects as (a & EL & HR); [exact New_rel|done| | |exact E|].
  { rewrite length_app. cbn [length]. rewrite length_app. cbn [length]. lia. }
  { apply Forall_app. split; [done|]. constructor; [done|]. apply Forall_app. split; [done|]. by constructor. }
  apply run_all_app in EL as (rs1 & rs2 & a1 & _ & EL & -> & L1). cbn [run_all] in EL.
  destruct (log_op (OPublishWithKey t k now1 p1) a1) as [[r1 a2]|] eqn:P1; [|done]. cbn [mbind option_bind] in EL.
  destruct (run_all log_op (os2 ++ _) a2) as [[rs3 a3]|] eqn:E3; [|done]. cbn in EL. simplify_eq.
  apply run_all_app in E3 as (rs4 & rs5 & a4 & E4 & E5 & -> & L2). cbn [run_all] in E5.
  destruct (log_op (OPublishWithKey t k now2 p2) a4) as [[r2 a5]|] eqn:P2; [|done]. cbn in E5. simplify_eq.
  destruct (log_publish_key _ _ _ _ _ _ _ Hk P1) as (l1 & T1 & N1 & R1 & G1).
  destruct (log_publish_key _ _ _ _ _ _ _ Hk P2) as (l2 & T2 & N2 & R2 & G2).
  destruct (run_all_grows _ _ _ _ E4 _ _ T1) as (l1' & T1' & F).
  rewrite (log_topic_Some _ _ _ T1') in N2, R2. rewrite <- (Forall2_length F) in N2. rewrite N2 in R2.
  set (q := key_partition (length l1.1) k) in *.
  eexists q, _, _. rewrite lookup_app_r, L1, Nat.sub_diag, R1 by lia. split; [done|].
  rewrite lookup_app_r, L1 by lia. replace (S (length os1 + length os2) - length os1)%nat with (S (length os2)) by lia.
  rewrite lookup_cons_ne_0 by lia. cbn [Init.Nat.pred].
  rewrite lookup_app_r, L2, Nat.sub_diag, R2 by lia. split; [done|].
  pose proof (rel_lookup _ _ _ t HR) as Hl. rewrite T2 in Hl.
  destruct (topics b !! t); [|done]. destruct Hl as (_ & _ & Hpos).
  destruct (lookup_lt_is_Some_2 l1.1 (Z.to_nat q)) as [l E1].
  { pose proof (key_partition_lt (length l1.1) k ltac:(lia)). fold q in H. lia. }
  destruct (Forall2_lookup_l _ _ _ _ _ F E1) as (l' & E1' & Hp). apply prefix_length in Hp.
  rewrite E1 in G1. rewrite E1'. destruct ((log_topic t a1).1 !! Z.to_nat q) as [l0|]; [|done].
  cbn in G1 |- *. simplify_eq. rewrite length_app in Hp. cbn in Hp. lia.
Qed.

Definition demo_order : list op :=
  [ORouteKey "orders" ""] ++ OPublishWithKey "orders" "acme" 10 [Byte.x01] ::
  [OPublishWithKey "orders" "" 11 [Byte.x02]; OEnsureTopic "orders" 9] ++
  [OPublishWithKey "orders" "acme" 12 [Byte.x03]].

Definition demo_order_resps : list resp :=
  match run_all run_op demo_order New with Some (rs, _) => rs | None => [] end.

Definition demo_order_end : Broker :=
  match run_all run_op demo_order New with Some (_, b) => b | None => New end.

Lemma same_key_same_order_witness :
  exists q o1 o2, demo_order_resps !! 1%nat = Some (RPublished q o1) /\
    demo_order_resps !! 4%nat = Some (RPublished q o2) /\ o1 < o2.
Proof.
  apply (same_key_same_order [ORouteKey "orders" ""]
    [OPublishWithKey "orders" "" 11 [Byte.x02]; OEnsureTopic "orders" 9]
    "orders" "acme" 10 [Byte.x01] 12 [Byte.x03] demo_order_resps demo_order_end).
  - repeat constructor.
  - reflexivity.
  - discriminate.
  - vm_compute. reflexivity.
Defined.

(** ** Publishers and subscribers in parallel

    One partition, any number of publishers and subscribers.  The locked parts
    of the operations are the steps: a publisher appends under the topic's lock
    and notifies under the subscribers' lock; a subscriber is created, then
    registered, and [Next] fetches, and waits on its channel when it got
    nothing. *)

Inductive sub_pc := Created | Ready | Waiting | Removed.

Record Seen := mkSeen { seen_start : Z; seen_msgs : list Message; seen_lapped : bool }.

Record sys := mkSys {
  y_topic : Topic;
  y_subs : list Subscription;
  y_pending : nat; (* publishers between append and notify *)
  y_pc : gmap nat sub_pc;
  y_seen : gmap nat Seen (* what each subscriber was handed *)
}.

(** What [Next] returned, and whether the ring had already dropped messages
    the subscriber had not read. *)
Definition record_seen (o : Z) (t : Topic) (ms : list Message) (r : Seen) : Seen :=
  mkSeen (seen_start r) (seen_msgs r ++ ms) (seen_lapped r || (o <? t_head t)).

Definition drain (s : Subscription) : Subscription := {| s with s_notify := false |}.

Inductive sys_step : sys -> sys -> Prop :=
| st_append y now payload t o :
    t_tail (y_topic y) < 2 ^ 62 - 1 -> append_message now payload (y_topic y) = Some (t, o) ->
    sys_step y {| y with y_topic := t; y_pending := S (y_pending y) |}
| st_notify y n :
    y_pending y = S n ->
    sys_step y {| y with y_topic := count_published (y_topic y); y_pending := n;
      y_subs := notifySubs (t_subs (y_topic y)) (y_subs y) |}
| st_subscribe y group start :
    in_i64 start ->
    let start := if start <? 0 then t_tail (y_topic y) else start in
    let id := length (y_subs y) in
    sys_step y {| y with y_subs := y_subs y ++ [newSubscription "" group 0 start];
      y_pc := <[id := Created]> (y_pc y); y_seen := <[id := mkSeen start [] false]> (y_seen y) |}
| st_register y id :
    y_pc y !! id = Some Created ->
    sys_step y {| y with y_topic := addSub id (y_topic y); y_pc := <[id := Ready]> (y_pc y) |}
| st_fetch_empty y id s m :
    y_pc y !! id = Some Ready -> y_subs y !! id = Some s -> 0 < m < 2 ^ 62 ->
    Topic_Fetch (s_offset s) m (y_topic y) = Some [] ->
    sys_step y {| y with y_pc := <[id := Waiting]> (y_pc y) |}
| st_fetch y id s m x ms :
    y_pc y !! id = Some Ready -> y_subs y !! id = Some s -> 0 < m < 2 ^ 62 ->
    Topic_Fetch (s_offset s) m (y_topic y) = Some (x :: ms) ->
    sys_step y {| y with y_subs := alter (advance (zlen (x :: ms))) id (y_subs y);
      y_seen := alter (record_seen (s_offset s) (y_topic y) (x :: ms)) id (y_seen y) |}
| st_wake y id s :
    y_pc y !! id = Some Waiting -> y_subs y !! id = Some s -> s_notify s = true ->
    sys_step y {| y with y_subs := alter drain id (y_subs y); y_pc := <[id := Ready]> (y_pc y) |}
| st_cancel y id :
    y_pc y !! id = Some Waiting -> sys_step y {| y with y_pc := <[id := Ready]> (y_pc y) |}
| st_unsubscribe y id :
    y_pc y !! id = Some Ready ->
    sys_step y {| y with y_topic := removeSub id (y_topic y); y_pc := <[id := Removed]> (y_pc y) |}.

Inductive sys_reachable (name : string) (capacity : Z) : sys -> Prop :=
| sys_init : sys_reachable name capacity (mkSys (newTopic name capacity) [] 0 ∅ ∅)
| sys_next y y' : sys_reachable name capacity y -> sys_step y y' -> sys_reachable name capacity y'.

(** Per-subscriber invariant. *)
Record sub_inv (log : list entry) (y : sys) (id : nat) : Prop := {
  si_pc : is_Some (y_subs y !! id) <-> is_Some (y_pc y !! id);
  si_seen : is_Some (y_subs y !! id) <-> is_Some (y_seen y !! id);
  si_nonneg : forall s, y_subs y !! id = Some s -> 0 <= s_offset s;
  si_registered : y_pc y !! id = Some Ready \/ y_pc y !! id = Some Waiting -> id ∈ t_subs (y_topic y);
  si_awake : forall s, y_subs y !! id = Some s -> y_pc y !! id = Some Waiting ->
    s_notify s = true \/ (0 < y_pending y)%nat \/ t_tail (y_topic y) <= s_offset s;
  si_delivered : forall s r, y_subs y !! id = Some s -> y_seen y !! id = Some r -> seen_lapped r = false ->
    0 <= seen_start r /\ s_offset s = seen_start r + zlen (seen_msgs r) /\
    (seen_msgs r = [] \/ seen_start r + zlen (seen_msgs r) <= zlen log) /\
    seen_msgs r = take (length (seen_msgs r)) (drop (Z.to_nat (seen_start r)) (number log))
}.

Definition sys_inv (y : sys) : Prop := exists log, topic_rep log (y_topic y) /\ forall id, sub_inv log y id.

Lemma notifySubs_lookup ids h id :
  notifySubs ids h !! id = if decide (id ∈ ids) then offer <$> h !! id else h !! id.
Proof.
  revert h. induction ids as [|i ids IH]; intros h; cbn [notifySubs foldl]; [by rewrite decide_False by set_solver|].
  fold (notifySubs ids (alter offer i h)). rewrite IH.
  destruct (decide (i = id)) as [->|Hne].
  - rewrite list_lookup_alter_eq, (decide_True (P := id ∈ id :: ids)) by set_solver.
    destruct (decide (id ∈ ids)); [|done]. by destruct (h !! id).
  - rewrite list_lookup_alter_ne by done.
    destruct (decide (id ∈ ids)) as [H|H], (decide (id ∈ i :: ids)) as [H'|H'];
      rewrite elem_of_cons in H'; try done;
      [by destruct H'; right|by destruct H' as [->|]].
Qed.

Lemma removeSub_others id id' t : id' <> id -> id' ∈ t_subs t -> id' ∈ t_subs (removeSub id t).
Proof.
  intros Hne Hin. unfold removeSub. destruct (list_find (.= id) (t_subs t)) as [[i x]|] eqn:E; [|done].
  apply list_find_Some in E as (Ei & -> & _). cbn [t_subs].
  set (l := t_subs t) in *. apply list_elem_of_lookup in Hin as [j Ej].
  pose proof (lookup_lt_Some _ _ _ Ei) as Li. pose proof (lookup_lt_Some _ _ _ Ej) as Lj.
  assert (i <> j) by congruence.
  destruct (decide (j = length l - 1)%nat) as [Hj|Hj].
  - rewrite <- Hj, Ej. cbn [default]. apply list_elem_of_lookup. exists i.
    rewrite lookup_take_lt by lia. by apply list_lookup_insert_eq.
  - apply list_elem_of_lookup. exists j. rewrite lookup_take_lt by lia. by rewrite list_lookup_insert_ne.
Qed.

Lemma removeSub_rep log id t : topic_rep log t -> topic_rep log (removeSub id t).
Proof. intros []. unfold removeSub. destruct (list_find _ _) as [[? ?]|]; by split. Qed.

Lemma removeSub_tail id t : t_tail (removeSub id t) = t_tail t.
Proof. unfold removeSub. by destruct (list_find _ _) as [[? ?]|]. Qed.

Lemma log_fetch_empty c o m log : 0 < m -> log_fetch c o m log = [] -> zlen log <= Z.max o (Z.max 0 (zlen log - c)).
Proof.
  intros Hm E. unfold log_fetch in E. apply (f_equal length) in E.
  rewrite length_take, length_drop, length_number in E. cbn in E. lia.
Qed.

(** A slice of a log is the same slice of a longer one. *)
Lemma slice_grows log e k start :
  (k + start <= length log)%nat ->
  take k (drop start (number (log ++ [e]))) = take k (drop start (number log)).
Proof.
  intros Hk. rewrite number_app, drop_app_le by (rewrite length_number; lia).
  apply take_app_le. rewrite length_drop, length_number. lia.
Qed.

Lemma sub_inv_log log log' y id :
  (forall k start, (k + start <= length log)%nat ->
     take k (drop start (number log')) = take k (drop start (number log))) ->
  (length log <= length log')%nat -> sub_inv log y id -> sub_inv log' y id.
Proof.
  intros HP HL [H1 H2 H0 H3 H4 H5]. split; try done. intros s r Es Er Hl.
  destruct (H5 s r Es Er Hl) as (Ha & Hb & Hc & Hd). split; [done|]. split; [done|]. split; [destruct Hc; [by left|right; lia]|].
  destruct Hc as [->|Hc]; [done|]. by rewrite HP by lia.
Qed.

(** A step that leaves a subscriber's own state alone. *)
Lemma sub_inv_frame log y y' id :
  y_subs y' !! id = y_subs y !! id -> y_pc y' !! id = y_pc y !! id -> y_seen y' !! id = y_seen y !! id ->
  (id ∈ t_subs (y_topic y) -> id ∈ t_subs (y_topic y')) ->
  (0 < y_pending y')%nat \/ (t_tail (y_topic y') = t_tail (y_topic y) /\ y_pending y' = y_pending y) ->
  sub_inv log y id -> sub_inv log y' id.
Proof.
  intros E1 E2 E3 HT HP [H1 H2 H0 H3 H4 H5]. split; rewrite ?E1, ?E2, ?E3; try done.
  - intros Hr. by apply HT, H3.
  - intros s Es Hw. destruct HP as [?|[-> ->]]; [by right; left|]. by apply H4.
Qed.

Lemma sub_inv_new log id start :
  forall y group, sub_inv log y id -> id = length (y_subs y) -> 0 <= start ->
  sub_inv log {| y with y_subs := y_subs y ++ [newSubscription "" group 0 start];
      y_pc := <[id := Created]> (y_pc y); y_seen := <[id := mkSeen start [] false]> (y_seen y) |} id.
Proof.
  intros y group _ -> Hs. assert ((y_subs y ++ [newSubscription "" group 0 start]) !! length (y_subs y) =
    Some (newSubscription "" group 0 start)) as E by (rewrite lookup_app_r, Nat.sub_diag; done).
  split; cbn [y_subs y_pc y_seen y_topic y_pending]; rewrite ?E, ?lookup_insert_eq.
  - split; eauto.
  - split; eauto.
  - by intros s [= <-].
  - intros [?|?]; done.
  - done.
  - intros s r [= <-] [= <-] _. cbn. split; [done|]. split; [lia|]. split; [by left|done].
Qed.

Lemma inv_append y now payload t o :
  t_tail (y_topic y) < 2 ^ 62 - 1 -> append_message now payload (y_topic y) = Some (t, o) -> sys_inv y ->
  sys_inv {| y with y_topic := t; y_pending := S (y_pending y) |}.
Proof.
  intros Hlt E (log & Hr & Hi). pose proof (rep_tail _ _ Hr) as Ht.
  destruct (append_message_rep log _ now payload Hr ltac:(lia)) as (t' & E' & Hr' & Hsub & _). simplify_eq.
  exists (log ++ [(now, payload)]). split; [done|]. intros id.
  apply (sub_inv_frame _ y); cbn [y_subs y_pc y_seen y_topic y_pending]; try done.
  - by rewrite Hsub.
  - left. lia.
  - apply (sub_inv_log log); [intros k st; apply slice_grows|rewrite length_app; lia|apply Hi].
Qed.

Lemma inv_notify y n :
  y_pending y = S n -> sys_inv y ->
  sys_inv {| y with y_topic := count_published (y_topic y); y_pending := n;
      y_subs := notifySubs (t_subs (y_topic y)) (y_subs y) |}.
Proof.
  intros Hn (log & Hr & Hi). exists log. split; [by destruct Hr|]. intros id.
  destruct (Hi id) as [H1 H2 H0 H3 H4 H5]. pose proof (notifySubs_lookup (t_subs (y_topic y)) (y_subs y) id) as HL.
  split; cbn [y_subs y_pc y_seen y_topic y_pending]; rewrite ?HL; try done.
  - by destruct (decide _); [rewrite fmap_is_Some|].
  - by destruct (decide _); [rewrite fmap_is_Some|].
  - intros s Es. destruct (decide _); [apply fmap_Some in Es as (s0 & ? & ->); by apply (H0 s0)|by apply H0].
  - intros s Es Hw. rewrite decide_True in Es by (apply H3; by right).
    apply fmap_Some in Es as (s0 & _ & ->). by left.
  - intros s r Es. assert (exists s0, y_subs y !! id = Some s0 /\ s_offset s = s_offset s0) as (s0 & E0 & ->).
    { destruct (decide _); [apply fmap_Some in Es as (s0 & ? & ->)|]; by eexists. }
    by apply H5.
Qed.

Lemma inv_subscribe y group start :
  sys_inv y -> 0 <= start ->
  sys_inv {| y with y_subs := y_subs y ++ [newSubscription "" group 0 start];
      y_pc := <[length (y_subs y) := Created]> (y_pc y);
      y_seen := <[length (y_subs y) := mkSeen start [] false]> (y_seen y) |}.
Proof.
  intros (log & Hr & Hi) Hs. exists log. split; [done|]. intros id.
  destruct (decide (id = length (y_subs y))) as [->|Hne]; [by apply (sub_inv_new log)|].
  apply (sub_inv_frame _ y); cbn [y_subs y_pc y_seen y_topic y_pending]; try done.
  - destruct (decide (id < length (y_subs y))%nat); [by apply lookup_app_l|].
    rewrite !lookup_ge_None_2; [done|lia|rewrite length_app; cbn; lia].
  - by rewrite lookup_insert_ne.
  - by rewrite lookup_insert_ne.
  - by right.
Qed.

(** A step that only moves one subscriber's program counter and registration. *)
Lemma inv_move y id p t :
  sys_inv y -> is_Some (y_pc y !! id) -> (forall log, topic_rep log (y_topic y) -> topic_rep log t) ->
  t_tail t = t_tail (y_topic y) ->
  (forall i, i <> id -> i ∈ t_subs (y_topic y) -> i ∈ t_subs t) ->
  (p = Ready \/ p = Waiting -> id ∈ t_subs t) ->
  (p = Waiting -> forall s, y_subs y !! id = Some s -> t_tail t <= s_offset s) ->
  sys_inv {| y with y_topic := t; y_pc := <[id := p]> (y_pc y) |}.
Proof.
  intros (log & Hr & Hi) Hpc HT HE HO HR HW. exists log. split; [by apply HT|]. intros i.
  destruct (decide (i = id)) as [->|Hne].
  - destruct (Hi id) as [H1 H2 H0 H3 H4 H5].
    split; cbn [y_subs y_pc y_seen y_topic y_pending]; rewrite ?lookup_insert_eq; try done.
    + split; [eauto|]. intros _. by apply H1.
    + intros [[= ->]|[= ->]]; apply HR; tauto.
    + intros s Es [= ->]. right. right. by apply HW.
  - apply (sub_inv_frame _ y); cbn [y_subs y_pc y_seen y_topic y_pending]; try done.
    + by rewrite lookup_insert_ne.
    + by apply HO.
    + right. by rewrite HE.
Qed.

Lemma inv_fetch_empty y id s m :
  y_pc y !! id = Some Ready -> y_subs y !! id = Some s -> 0 < m < 2 ^ 62 ->
  Topic_Fetch (s_offset s) m (y_topic y) = Some [] -> sys_inv y ->
  sys_inv {| y with y_pc := <[id := Waiting]> (y_pc y) |}.
Proof.
  intros Hpc Es Hm HF HI. pose proof HI as (log & Hr & Hi).
  apply (inv_move y id Waiting (y_topic y)); try done.
  - intros _. apply (si_registered _ _ _ (Hi id)). by left.
  - intros _ s' Es'. simplify_eq. rewrite (Topic_Fetch_rep log) in HF by (done || lia). simplify_eq.
    apply log_fetch_empty in HF; [|lia]. specialize (si_nonneg _ _ _ (Hi id) _ Es). destruct Hr as [Hc _ -> _ _ _]. lia.
Qed.

Lemma inv_fetch y id s m x ms :
  y_pc y !! id = Some Ready -> y_subs y !! id = Some s -> 0 < m < 2 ^ 62 ->
  Topic_Fetch (s_offset s) m (y_topic y) = Some (x :: ms) -> sys_inv y ->
  sys_inv {| y with y_subs := alter (advance (zlen (x :: ms))) id (y_subs y);
      y_seen := alter (record_seen (s_offset s) (y_topic y) (x :: ms)) id (y_seen y) |}.
Proof.
  intros Hpc Es Hm HF (log & Hr & Hi). exists log. split; [done|]. intros i.
  destruct (decide (i = id)) as [->|Hne].
  2:{ apply (sub_inv_frame _ y); cbn [y_subs y_pc y_seen y_topic y_pending]; try done.
      - by rewrite list_lookup_alter_ne.
      - by rewrite lookup_alter_ne.
      - by right. }
  destruct (Hi id) as [H1 H2 H0 H3 H4 H5].
  split; cbn [y_subs y_pc y_seen y_topic y_pending]; rewrite ?list_lookup_alter_eq, ?lookup_alter_eq, ?fmap_is_Some; try done.
  2:{ intros s' _. by rewrite Hpc. }
  { intros s' Es'. rewrite Es in Es'. cbn in Es'. simplify_eq. specialize (H0 _ Es).
    rewrite (Topic_Fetch_rep log) in HF by (done || lia). injection HF as HF. unfold log_fetch in HF.
    pose proof (f_equal length HF) as HL. rewrite length_take, length_drop, length_number in HL. cbn [length] in HL.
    destruct Hr as [Hcap Hsm Htl Hhd _ _]. unfold advance. cbn [s_offset].
    rewrite i64_id by (unfold in_i64; cbn [length]; lia). lia. }
  intros s' r' Es' Er' Hl. rewrite Es in Es'. cbn in Es'. simplify_eq. apply fmap_Some in Er' as (r & Er & ->).
  unfold record_seen in *. cbn [seen_start seen_msgs seen_lapped] in *. apply orb_false_elim in Hl as [Hl Hlap]. go_bool.
  destruct (H5 s r Es Er Hl) as (Ha & Hb & Hc & Hd).
  rewrite (Topic_Fetch_rep log) in HF by (done || lia). injection HF as HF. unfold log_fetch in HF.
  destruct Hr as [Hcap Hsm Htl Hhd _ _]. rewrite <- Hhd, Z.max_l in HF by lia.
  pose proof (f_equal length HF) as HL. rewrite length_take, length_drop, length_number in HL. cbn [length] in HL.
  assert (s_offset s + zlen (x :: ms) <= zlen log) as Hle by (cbn [length]; lia).
  rewrite length_app, Nat2Z.inj_add. split; [done|]. split; [|split; [right; lia|]].
  - unfold advance. cbn [s_offset length] in *. rewrite i64_id by (unfold in_i64; lia). lia.
  - rewrite Hd at 1. rewrite <- take_take_drop, drop_drop.
    replace (Z.to_nat (seen_start r) + length (seen_msgs r))%nat with (Z.to_nat (s_offset s)) by lia.
    f_equal. rewrite <- HF at 1. rewrite <- (take_ge (take (Z.to_nat m) _) (length (x :: ms))).
    2:{ rewrite HF. done. }
    rewrite take_take. f_equal. cbn [length]. lia.
Qed.

Lemma inv_drain y id s :
  y_pc y !! id = Some Waiting -> y_subs y !! id = Some s -> sys_inv y ->
  sys_inv {| y with y_subs := alter drain id (y_subs y); y_pc := <[id := Ready]> (y_pc y) |}.
Proof.
  intros Hpc Es (log & Hr & Hi). exists log. split; [done|]. intros i.
  destruct (decide (i = id)) as [->|Hne].
  2:{ apply (sub_inv_frame _ y); cbn [y_subs y_pc y_seen y_topic y_pending]; try done.
      - by rewrite list_lookup_alter_ne.
      - by rewrite lookup_insert_ne.
      - by right. }
  destruct (Hi id) as [H1 H2 H0 H3 H4 H5].
  split; cbn [y_subs y_pc y_seen y_topic y_pending]; rewrite ?list_lookup_alter_eq, ?lookup_insert_eq, ?fmap_is_Some; try done.
  - intros s' Es'. rewrite Es in Es'. cbn in Es'. simplify_eq. by apply (H0 s).
  - intros _. apply H3. by right.
  - intros s' r Es' Er. rewrite Es in Es'. cbn in Es'. simplify_eq. by apply (H5 s).
Qed.

Lemma sys_inv_step y y' : sys_step y y' -> sys_inv y -> sys_inv y'.
Proof.
  intros Hst HI. destruct Hst as [y now payload t o Hlt E|y n Hn|y group start Hs st id|y id Hpc|y id s m Hpc Es Hm HF
    |y id s m x ms Hpc Es Hm HF|y id s Hpc Es Hn|y id Hpc|y id Hpc].
  - by eapply inv_append.
  - by apply inv_notify.
  - apply inv_subscribe; [done|]. subst st. destruct HI as (log & Hr & _).
    destruct (start <? 0) eqn:E; go_bool; [|done]. destruct Hr. lia.
  - apply inv_move; try done.
    + intros log []. by split.
    + intros i Hne Hin. cbn. by apply elem_of_app; left.
    + intros _. cbn. apply elem_of_app. right. by apply list_elem_of_singleton.
  - by eapply inv_fetch_empty.
  - by eapply inv_fetch.
  - by eapply inv_drain.
  - pose proof HI as (log & Hr & Hi). apply (inv_move y id Ready (y_topic y)); try done.
    + intros _. apply (si_registered _ _ _ (Hi id)). by right.
  - apply inv_move; try done.
    + intros log. apply removeSub_rep.
    + apply removeSub_tail.
    + intros i. apply removeSub_others.
    + by intros [|].
Qed.

Lemma sys_reachable_inv name capacity y : capacity < 2 ^ 62 -> sys_reachable name capacity y -> sys_inv y.
Proof.
  intros Hc. induction 1 as [|y y' _ IH Hst]; [|by eapply sys_inv_step].
  exists []. split; [by apply newTopic_rep|]. intros id.
  split; cbn [y_subs y_pc y_seen]; rewrite ?lookup_empty, ?lookup_nil; try done.
  by intros [?|?].
Qed.

(** C15. No wake-up is lost.  However publishers and subscribers interleave, a
    subscriber blocked in [Next] that has unread messages holds a token in its
    channel, unless a publisher has yet to notify; once it wakes, its next fetch
    returns a non-empty batch. *)
Theorem next_never_misses name capacity y id s m :
  capacity < 2 ^ 62 -> sys_reachable name capacity y -> y_pc y !! id = Some Waiting -> y_subs y !! id = Some s ->
  y_pending y = 0%nat -> s_offset s < t_tail (y_topic y) -> 0 < m < 2 ^ 62 ->
  s_notify s = true /\ exists x ms, Topic_Fetch (s_offset s) m (y_topic y) = Some (x :: ms).
Proof.
  intros Hc HR Hpc Es Hpend Hunread Hm. destruct (sys_reachable_inv _ _ _ Hc HR) as (log & Hr & Hi). split.
  - destruct (si_awake _ _ _ (Hi id) s Es Hpc) as [?|[?|?]]; [done|lia|lia].
  - rewrite (Topic_Fetch_rep log) by (done || lia).
    destruct (log_fetch (t_cap (y_topic y)) (s_offset s) m log) as [|x ms] eqn:E; [|eauto].
    apply log_fetch_empty in E; [|lia]. pose proof (si_nonneg _ _ _ (Hi id) s Es). destruct Hr. lia.
Qed.

(** C14. Exactly-once delivery to a subscriber that keeps up.  However publishers
    and subscribers interleave, what [Next] has handed to a subscriber that was
    never overtaken by the ring is the log from its start offset on, every
    message once and in order, and its offset is the next message to read. *)
Theorem delivered_once_in_order name capacity y id s r :
  capacity < 2 ^ 62 -> sys_reachable name capacity y -> y_subs y !! id = Some s -> y_seen y !! id = Some r ->
  seen_lapped r = false ->
  exists log, topic_rep log (y_topic y) /\ s_offset s = seen_start r + zlen (seen_msgs r) /\
    seen_msgs r = take (length (seen_msgs r)) (drop (Z.to_nat (seen_start r)) (number log)).
Proof.
  intros Hc HR Es Er Hl. destruct (sys_reachable_inv _ _ _ Hc HR) as (log & Hr & Hi). exists log. split; [done|].
  destruct (si_delivered _ _ _ (Hi id) s r Es Er Hl) as (_ & ? & _ & ?). done.
Qed.

(** A subscriber that the ring overtook is handed messages twice.  [Next]
    adds the number of messages to the offset it had, not to the offset of the
    last message: when the oldest message kept is newer than the subscriber's
    offset, the first message of the following batch was already in the batch
    before. *)
Theorem lapped_subscriber_redelivers log t o m :
  topic_rep log t -> 0 <= o < t_head t -> 0 < m < 2 ^ 62 ->
  exists ms x ms', Topic_Fetch o m t = Some ms /\ Topic_Fetch (i64 (o + zlen ms)) m t = Some (x :: ms') /\ x ∈ ms.
Proof.
  intros Hr Ho Hm. pose proof Hr as [Hcap Hsm Htl Hhd _ _].
  rewrite (Topic_Fetch_rep log t o m) by (done || lia).
  exists (log_fetch (t_cap t) o m log).
  assert (length (log_fetch (t_cap t) o m log) = Z.to_nat (Z.min m (zlen log - t_head t))) as HL.
  { unfold log_fetch. rewrite length_take, length_drop, length_number. lia. }
  rewrite HL, i64_id by (unfold in_i64; lia). set (n := Z.to_nat (Z.min m (zlen log - t_head t))) in *.
  rewrite (Topic_Fetch_rep log) by (done || lia).
  set (start := Z.max (o + Z.of_nat n) (t_head t)).
  destruct (log_fetch (t_cap t) (o + Z.of_nat n) m log) as [|x ms'] eqn:E.
  { apply log_fetch_empty in E; lia. }
  exists x, ms'. split; [done|]. split; [done|].
  assert (number log !! Z.to_nat start = Some x) as Hx.
  { apply (f_equal (fun l => l !! 0%nat)) in E. cbn [lookup list_lookup] in E. unfold log_fetch in E.
    rewrite lookup_take_lt, lookup_drop in E by lia. rewrite <- E. f_equal. lia. }
  apply list_elem_of_lookup. exists (Z.to_nat (start - t_head t)).
  unfold log_fetch. rewrite lookup_take_lt, lookup_drop by lia. rewrite <- Hx. f_equal. lia.
Qed.

(** Witness: a subscriber reads one message, blocks, and a second one is
    published. *)
Definition appended (now : Z) (payload : bytes) (y : sys) : sys :=
  let t := match append_message now payload (y_topic y) with Some (t, _) => t | None => y_topic y end in
  {| y with y_topic := t; y_pending := S (y_pending y) |}.

Definition notified (y : sys) : sys :=
  {| y with y_topic := count_published (y_topic y); y_pending := pred (y_pending y);
      y_subs := notifySubs (t_subs (y_topic y)) (y_subs y) |}.

Definition subscribed (y : sys) : sys :=
  {| y with y_subs := y_subs y ++ [newSubscription "" "g" 0 0];
      y_pc := <[0%nat := Created]> (y_pc y); y_seen := <[0%nat := mkSeen 0 [] false]> (y_seen y) |}.

Definition registered (y : sys) : sys :=
  {| y with y_topic := addSub 0 (y_topic y); y_pc := <[0%nat := Ready]> (y_pc y) |}.

Definition msg0 : Message := mkMessage 0 5 [Byte.x01].

Definition fetched (y : sys) : sys :=
  {| y with y_subs := alter (advance 1) 0%nat (y_subs y);
      y_seen := alter (record_seen 0 (y_topic y) [msg0]) 0%nat (y_seen y) |}.

Definition blocked (y : sys) : sys := {| y with y_pc := <[0%nat := Waiting]> (y_pc y) |}.

Definition sys0 : sys := mkSys (newTopic "t" 2) [] 0 ∅ ∅.
Definition sys_ready : sys := notified (appended 5 [Byte.x01] (registered (subscribed sys0))).
Definition sys_waiting : sys := blocked (fetched sys_ready).
Definition sys_woken : sys := notified (appended 6 [Byte.x02] sys_waiting).

Lemma reach_woken : sys_reachable "t" 2 sys_woken.
Proof.
  assert (forall y, sys_reachable "t" 2 y -> forall now p t o, t_tail (y_topic y) < 2 ^ 62 - 1 ->
            append_message now p (y_topic y) = Some (t, o) -> sys_reachable "t" 2 (notified (appended now p y))) as HP.
  { intros y HR now p t o Hlt E.
    assert (sys_reachable "t" 2 (appended now p y)) as H1.
    { unfold appended. rewrite E. eapply sys_next; [exact HR|]. by eapply st_append. }
    eapply sys_next; [exact H1|]. by apply (st_notify (appended now p y)). }
  unfold sys_woken. eapply HP; [|vm_compute; reflexivity|vm_compute; reflexivity].
  apply (sys_next _ _ (fetched sys_ready)); [|eapply (st_fetch_empty (fetched sys_ready) 0 _ 10);
    [vm_compute; reflexivity|vm_compute; reflexivity|lia|vm_compute; reflexivity]].
  apply (sys_next _ _ sys_ready); [|apply (st_fetch sys_ready 0 (mkSubscription "" "g" 0 0 true) 10 msg0 []);
    [vm_compute; reflexivity|vm_compute; reflexivity|lia|vm_compute; reflexivity]].
  eapply HP; [|vm_compute; reflexivity|vm_compute; reflexivity].
  apply (sys_next _ _ (subscribed sys0)); [|apply (st_register (subscribed sys0)); vm_compute; reflexivity].
  eapply sys_next; [apply sys_init|]. apply (st_subscribe sys0 "g" 0). split; [discriminate|done].
Qed.

Lemma next_never_misses_witness :
  true = true /\ exists x ms, Topic_Fetch 1 128 (y_topic sys_woken) = Some (x :: ms).
Proof.
  apply (next_never_misses "t" 2 sys_woken 0 (mkSubscription "" "g" 0 1 true) 128).
  - reflexivity.
  - exact reach_woken.
  - vm_compute. reflexivity.
  - vm_compute. reflexivity.
  - vm_compute. reflexivity.
  - vm_compute. reflexivity.
  - split; [reflexivity|reflexivity].
Defined.

Lemma delivered_once_in_order_witness :
  exists log, topic_rep log (y_topic sys_woken) /\ 1 = 0 + 1 /\ [msg0] = take 1 (drop 0 (number log)).
Proof.
  apply (delivered_once_in_order "t" 2 sys_woken 0 (mkSubscription "" "g" 0 1 true) (mkSeen 0 [msg0] false)).
  - reflexivity.
  - exact reach_woken.
  - vm_compute. reflexivity.
  - vm_compute. reflexivity.
  - reflexivity.
Defined.

(** Three messages in a ring of two. *)
Definition demo_log : list entry := [(5, [Byte.x01]); (6, [Byte.x02]); (7, [Byte.x03])].

Definition lapped_topic : Topic :=
  foldl (fun t e => match append_message e.1 e.2 t with Some (t, _) => t | None => t end) (newTopic "t" 2) demo_log.

Lemma lapped_topic_rep : topic_rep demo_log lapped_topic.
Proof.
  assert (forall log t e, topic_rep log t -> zlen log < 2 ^ 62 - 1 ->
    topic_rep (log ++ [e]) (match append_message e.1 e.2 t with Some (t, _) => t | None => t end)) as HS.
  { intros log t [now p] Hr Hlt. destruct (append_message_rep log t now p Hr Hlt) as (t' & E & Hr' & _).
    cbn [fst snd]. by rewrite E. }
  unfold lapped_topic, demo_log. cbn [foldl].
  apply (HS [(5, [Byte.x01]); (6, [Byte.x02])]); [|done]. apply (HS [(5, [Byte.x01])]); [|done].
  apply (HS []); [|done]. by apply newTopic_rep.
Qed.

Lemma lapped_subscriber_redelivers_witness :
  exists ms x ms', Topic_Fetch 0 1 lapped_topic = Some ms /\
    Topic_Fetch (i64 (0 + zlen ms)) 1 lapped_topic = Some (x :: ms') /\ x ∈ ms.
Proof.
  apply (lapped_subscriber_redelivers demo_log lapped_topic 0 1).
  - exact lapped_topic_rep.
  - vm_compute. split; [discriminate|reflexivity].
  - split; [reflexivity|reflexivity].
Defined.
End Bus.
