(* ===== verification/EventPoller.v ===== *)
(** * The pollers (internal/workflow/poller.go, internal/controlplane/poller.go)

    [Module Poll] models the two pollers, which are the same code over different
    consumers: a cursor per partition of a topic, a pass that fetches a batch from
    each partition, parses the envelopes and feeds them to the consumer.  The
    consumer is a parameter: a state and what one event does to it.

    The theorems are proved against the broker's logs: however publishes and other
    broker operations interleave with the fetches, every event of a partition is
    ingested once and in order, and passes over a quiet topic reach its end. *)

From S2P Require Import Prelude GoLib GoJson GoTime AgentStream Broker.
Import Json Envelope Bus.

Module Poll.
Local Open Scope Z_scope.

Record Poller := mkPoller { topic : string; batch : Z; cursors : list Z }.

(** [defaultPollBatch] of the two packages. *)
Definition workflow_batch : Z := 512.
Definition control_batch : Z := 256.

Definition NewPoller (batch : Z) (topic : string) (b : Broker) : Poller * Broker :=
  let b := EnsureTopic topic 0 b in
  (mkPoller topic batch (replicate (Z.to_nat (PartitionCount topic b)) 0), b).

Section Consumer.
Context {S : Type} (ingest : Event -> S -> S).

(** The loop over the fetched messages. *)
Fixpoint feed (part : nat) (ms : list Message) (p : Poller) (s : S) (ingested : Z) : Poller * S * Z :=
  match ms with
  | [] => (p, s, ingested)
  | m :: ms =>
      let '(s, ingested) :=
        match ParseEvent (m_Payload m) with
        | Some ev => (ingest ev s, ingested + 1)
        | None => (s, ingested)
        end in
      feed part ms {| p with cursors := <[part := m_Offset m + 1]> (cursors p) |} s ingested
  end.

(** One partition of a pass. *)
Definition drain_part (part : nat) (b : Broker) (p : Poller) (s : S) (ingested : Z) :
    option (Broker * Poller * S * Z) :=
  c ← cursors p !! part;
  '(ms, b) ← FetchPartition (topic p) (Z.of_nat part) c (batch p) b;
  let '(p, s, ingested) := feed part ms p s ingested in
  Some (b, p, s, ingested).

Fixpoint drain_from (parts : list nat) (b : Broker) (p : Poller) (s : S) (ingested : Z) :
    option (Broker * Poller * S * Z) :=
  match parts with
  | [] => Some (b, p, s, ingested)
  | i :: parts => '(b, p, s, ingested) ← drain_part i b p s ingested; drain_from parts b p s ingested
  end.

Definition drainOnce (b : Broker) (p : Poller) (s : S) : option (Broker * Poller * S * Z) :=
  drain_from (seq 0 (length (cursors p))) b p s 0.

(** ** Interleavings

    Broker operations of other goroutines happen between the fetches. *)

Inductive label := LOp (o : op) | LPart (part : nat).

Fixpoint poll_run (ls : list label) (b : Broker) (p : Poller) (s : S) : option (Broker * Poller * S) :=
  match ls with
  | [] => Some (b, p, s)
  | LOp o :: ls => '(_, b) ← run_op o b; poll_run ls b p s
  | LPart i :: ls => '(b, p, s, _) ← drain_part i b p s 0; poll_run ls b p s
  end.

(** [n] passes over a quiet topic. *)
Fixpoint passes (n : nat) (b : Broker) (p : Poller) (s : S) : option (Broker * Poller * S) :=
  match n with
  | O => Some (b, p, s)
  | Datatypes.S n => '(b, p, s, _) ← drainOnce b p s; passes n b p s
  end.

(** The events of a log. *)
Definition events (log : list entry) : list Event := omap (fun e => ParseEvent e.2) log.

(** What the consumer has seen: events with their partition, in order. *)
Definition ingest_all (trace : list (nat * Event)) (s : S) : S := foldl (fun s x => ingest x.2 s) s trace.

Definition of_part (i : nat) (trace : list (nat * Event)) : list Event :=
  map snd (filter (fun x => x.1 = i) trace).

(** The consumer's state is the fold of a trace that is, for every partition, the
    events below its cursor. *)
Definition poll_inv (s0 : S) (ls : list (list entry)) (p : Poller) (s : S) : Prop :=
  length (cursors p) = length ls /\
  exists trace, s = ingest_all trace s0 /\ Forall (fun x => (x.1 < length ls)%nat) trace /\
    forall i c log, cursors p !! i = Some c -> ls !! i = Some log ->
      0 <= c <= zlen log /\ of_part i trace = events (take (Z.to_nat c) log).

Lemma number_drop log c :
  match drop c (number log) with
  | [] => (length log <= c)%nat
  | m :: r => exists e, log !! c = Some e /\ m = mkMessage (Z.of_nat c) e.1 e.2 /\ r = drop (Datatypes.S c) (number log)
  end.
Proof.
  destruct (drop c (number log)) as [|m r] eqn:E.
  - apply (f_equal length) in E. rewrite length_drop, length_number in E. cbn in E. lia.
  - assert (number log !! c = Some m) as Hm.
    { replace c with (c + 0)%nat by lia. rewrite <- lookup_drop, E. done. }
    rewrite (drop_S (number log) m c Hm) in E. injection E as <-.
    unfold number in Hm. rewrite list_lookup_imap in Hm. destruct (log !! c) as [e|] eqn:Ee; [|done].
    cbn in Hm. injection Hm as <-. exists e. done.
Qed.

Lemma ingest_all_app t1 t2 s : ingest_all (t1 ++ t2) s = ingest_all t2 (ingest_all t1 s).
Proof. apply foldl_app. Qed.

Lemma of_part_app i t1 t2 : of_part i (t1 ++ t2) = of_part i t1 ++ of_part i t2.
Proof. unfold of_part. by rewrite list.filter_app, map_app. Qed.

Lemma of_part_tag i j evs : of_part i (map (pair j) evs) = if decide (j = i) then evs else [].
Proof.
  unfold of_part. induction evs as [|e evs IH]; cbn [map]; [by case_decide|]. rewrite filter_cons. cbn [fst].
  case_decide; cbn [map snd]; [by rewrite IH|done].
Qed.

(** Feeding a slice of a log: the cursor moves to its end, and the consumer sees
    the slice's events. *)
Lemma feed_slice i log k : forall c p s n,
  cursors p !! i = Some (Z.of_nat c) -> (c <= length log)%nat ->
  let c' := Nat.min (c + k) (length log) in
  let evs := events (take (c' - c) (drop c log)) in
  exists n', feed i (take k (drop c (number log))) p s n =
    ({| p with cursors := <[i := Z.of_nat c']> (cursors p) |}, ingest_all (map (pair i) evs) s, n') /\ n' = n + zlen evs.
Proof.
  induction k as [|k IH]; intros c p s n Hc Hle c' evs.
  - subst c' evs. rewrite Nat.add_0_r, Nat.min_l, Nat.sub_diag by done. cbn. eexists. split; [|symmetry; apply Z.add_0_r].
    rewrite list_insert_id by done. by destruct p.
  - pose proof (number_drop log c) as HN. destruct (drop c (number log)) as [|m r].
    + assert (c = length log) as -> by lia. subst c' evs.
      rewrite Nat.min_r, Nat.sub_diag by lia. cbn. eexists. split; [|symmetry; apply Z.add_0_r]. rewrite list_insert_id by done. by destruct p.
    + destruct HN as (e & He & -> & ->). cbn [take feed m_Offset m_Payload].
      pose proof (lookup_lt_Some _ _ _ He) as Hlt.
      assert (c' = Nat.min (Datatypes.S c + k) (length log)) as Ec' by (subst c'; lia).
      assert (evs = match ParseEvent e.2 with Some ev => [ev] | None => [] end ++ events (take (c' - Datatypes.S c) (drop (Datatypes.S c) log))) as Eev.
      { subst evs. rewrite (drop_S log e c He). replace (c' - c)%nat with (Datatypes.S (c' - Datatypes.S c)) by lia.
        cbn [take]. unfold events. cbn [omap list_omap]. by destruct (ParseEvent e.2). }
      set (p1 := {| p with cursors := <[i := Z.of_nat c + 1]> (cursors p) |}).
      assert (cursors p1 !! i = Some (Z.of_nat (Datatypes.S c))) as Hp1.
      { subst p1. cbn [cursors]. rewrite list_lookup_insert_eq by (by eapply lookup_lt_Some). f_equal. lia. }
      rewrite Eev. clear Eev evs.
      destruct (ParseEvent e.2) as [ev|] eqn:Ep.
      * destruct (IH (Datatypes.S c) p1 (ingest ev s) (n + 1) Hp1 ltac:(lia)) as (n' & E & En).
        rewrite <- Ec' in E, En. rewrite E. exists n'. split; [|rewrite En, length_app; cbn [length]; lia].
        subst p1. cbn [cursors]. rewrite list_insert_insert_eq. done.
      * destruct (IH (Datatypes.S c) p1 s n Hp1 ltac:(lia)) as (n' & E & En).
        rewrite <- Ec' in E, En. rewrite E. exists n'. split; [|rewrite En; done].
        subst p1. cbn [cursors]. rewrite list_insert_insert_eq. done.
Qed.

Lemma poll_inv_grows s0 ls ls' p s : poll_inv s0 ls p s -> Forall2 prefix ls ls' -> poll_inv s0 ls' p s.
Proof.
  intros (Hlen & trace & Hs & Hp & Ht) Hg. split; [by rewrite Hlen; eapply Forall2_length|]. exists trace.
  split; [done|]. split; [by rewrite <- (Forall2_length Hg)|].
  intros i c log' Hc Hl'. destruct (Forall2_lookup_r _ _ _ _ _ Hg Hl') as (log & Hl & Hpre).
  destruct (Ht i c log Hc Hl) as [Hb He]. split; [apply prefix_length in Hpre; lia|]. rewrite He.
  by rewrite (take_prefix_eq log log' (Z.to_nat c)) by (done || lia).
Qed.

(** One partition of a pass, while the ring holds the whole log. *)
Lemma drain_part_spec n a b p s ing ls i c log :
  rel n a b -> 0 <= n -> l_topics a !! topic p = Some ls -> 0 < batch p < 2 ^ 62 ->
  cursors p !! i = Some c -> ls.1 !! i = Some log -> 0 <= c <= zlen log -> zlen log <= defaultCapacity ->
  let c' := Z.min (c + batch p) (zlen log) in
  let evs := events (take (Z.to_nat (c' - c)) (drop (Z.to_nat c) log)) in
  exists b', drain_part i b p s ing =
    Some (b', {| p with cursors := <[i := c']> (cursors p) |}, ingest_all (map (pair i) evs) s, ing + zlen evs) /\ rel n a b'.
Proof.
  intros HR Hn Hls Hb Hc Hl Hcr Hcap c' evs. unfold drain_part. rewrite Hc. cbn [mbind option_bind].
  destruct (op_fetch n a b (topic p) (Z.of_nat i) c (batch p) HR Hn ltac:(lia)) as (b' & E & HR'). rewrite E.
  rewrite (log_topic_Some _ _ _ Hls) in HR' |- *. cbn [mbind option_bind].
  replace (set_logs (topic p) ls a) with a in HR' by (destruct a; unfold set_logs; cbn in *; by rewrite insert_id).
  assert (valid (Z.of_nat i) ls.1 = true) as ->.
  { unfold valid. apply lookup_lt_Some in Hl. apply andb_true_intro. lia. }
  unfold log_messages, log_fetch. rewrite Nat2Z.id, Hl. cbn [default]. unfold id.
  replace (Z.max c (Z.max 0 (zlen log - defaultCapacity))) with c by lia.
  destruct (feed_slice i log (Z.to_nat (batch p)) (Z.to_nat c) p s ing) as (n' & -> & ->); [by rewrite Z2Nat.id by lia|lia|].
  exists b'. split; [|done].
  assert (Nat.min (Z.to_nat c + Z.to_nat (batch p)) (length log) = Z.to_nat c') as -> by lia.
  rewrite Z2Nat.id by lia. replace (Z.to_nat c' - Z.to_nat c)%nat with (Z.to_nat (c' - c)) by lia. done.
Qed.

Lemma drain_part_inv n a b p s s0 ing ls i c :
  rel n a b -> 0 <= n -> l_topics a !! topic p = Some ls -> 0 < batch p < 2 ^ 62 ->
  cursors p !! i = Some c -> Forall (fun log => zlen log <= defaultCapacity) ls.1 -> poll_inv s0 ls.1 p s ->
  exists b' p' s' k, drain_part i b p s ing = Some (b', p', s', k) /\ rel n a b' /\ poll_inv s0 ls.1 p' s' /\
    topic p' = topic p /\ batch p' = batch p /\
    forall log, ls.1 !! i = Some log -> cursors p' = <[i := Z.min (c + batch p) (zlen log)]> (cursors p).
Proof.
  intros HR Hn Hls Hb Hc Hcap (Hlen & trace & Hs & Hp & Ht).
  destruct (lookup_lt_is_Some_2 ls.1 i) as [log Hl]; [rewrite <- Hlen; by eapply lookup_lt_Some|].
  destruct (Ht i c log Hc Hl) as [Hcr He].
  destruct (drain_part_spec n a b p s ing ls i c log HR Hn Hls Hb Hc Hl Hcr) as (b' & E & HR');
    [by eapply (Forall_lookup_1 (fun log => zlen log <= defaultCapacity))|].
  set (c' := Z.min (c + batch p) (zlen log)) in E.
  set (evs := events (take (Z.to_nat (c' - c)) (drop (Z.to_nat c) log))) in E.
  eexists b', _, _, _. split; [exact E|]. split; [done|].
  split; [|split; [done|split; [done|intros ? ?; by simplify_eq]]].
  split; [cbn [cursors]; by rewrite length_insert|]. exists (trace ++ map (pair i) evs).
  split; [by rewrite ingest_all_app, Hs|]. split.
  { apply Forall_app. split; [done|]. apply list.Forall_forall. intros x (e & -> & _)%list_elem_of_fmap.
    by eapply lookup_lt_Some. }
  intros j cj lj Hcj Hlj. cbn [cursors] in Hcj. rewrite of_part_app, of_part_tag.
  destruct (decide (i = j)) as [->|Hne].
  - rewrite list_lookup_insert_eq in Hcj by (by eapply lookup_lt_Some). injection Hcj as <-.
    rewrite Hl in Hlj. injection Hlj as <-. split; [lia|]. rewrite He. unfold evs, events. rewrite <- omap_app. f_equal.
    replace (Z.to_nat c') with (Z.to_nat c + Z.to_nat (c' - c))%nat by lia. by rewrite take_take_drop.
  - rewrite list_lookup_insert_ne in Hcj by done. rewrite app_nil_r. by apply Ht.
Qed.

Fixpoint ops_of (ls : list label) : list op :=
  match ls with [] => [] | LOp o :: ls => o :: ops_of ls | LPart _ :: ls => ops_of ls end.

Definition label_ok (k : nat) (l : label) : Prop := match l with LOp o => op_ok o | LPart i => (i < k)%nat end.

Lemma grows_cap ls ls' : Forall2 prefix ls ls' -> Forall (fun log : list entry => zlen log <= defaultCapacity) ls' ->
  Forall (fun log : list entry => zlen log <= defaultCapacity) ls.
Proof.
  intros Hg Hc. apply Forall_lookup_2. intros i log Hl. destruct (Forall2_lookup_l _ _ _ _ _ Hg Hl) as (log' & Hl' & Hp).
  pose proof (Forall_lookup_1 _ _ _ _ Hc Hl'). apply prefix_length in Hp. cbn in *. lia.
Qed.

Lemma poll_run_inv s0 lbls : forall n a b p s ls rs a' ls',
  rel n a b -> 0 <= n -> n + zlen lbls < 2 ^ 62 -> l_topics a !! topic p = Some ls -> 0 < batch p < 2 ^ 62 ->
  Forall (label_ok (length ls.1)) lbls -> run_all log_op (ops_of lbls) a = Some (rs, a') ->
  l_topics a' !! topic p = Some ls' -> Forall (fun log => zlen log <= defaultCapacity) ls'.1 ->
  poll_inv s0 ls.1 p s ->
  exists b' p' s', poll_run lbls b p s = Some (b', p', s') /\ rel (n + zlen lbls) a' b' /\
    poll_inv s0 ls'.1 p' s' /\ topic p' = topic p /\ batch p' = batch p.
Proof.
  induction lbls as [|l lbls IH]; intros n a b p s ls rs a' ls' HR Hn Hlt Hls Hb Hok Hrun Hls' Hcap Hinv.
  { cbn in Hrun. simplify_eq. eexists _, _, _. cbn. rewrite Z.add_0_r. done. }
  cbn [length] in Hlt. destruct (list.Forall_cons_1 _ _ _ Hok) as [Hl Hoks].
  replace (n + zlen (l :: lbls)) with (n + 1 + zlen lbls) by (cbn [length]; lia).
  destruct l as [o|i]; cbn [ops_of poll_run] in *.
  - cbn [run_all] in Hrun. destruct (log_op o a) as [[r a1]|] eqn:E1; [|done]. cbn [mbind option_bind] in Hrun.
    destruct (run_all log_op (ops_of lbls) a1) as [[rs1 a2]|] eqn:E2; [|done]. cbn in Hrun. simplify_eq.
    destruct (op_simulates n a b o r a1 HR ltac:(lia) Hl E1) as (b1 & -> & HR1). cbn [mbind option_bind].
    destruct (log_op_grows o a r a1 E1 (topic p) ls Hls) as (ls1 & Hls1 & G1).
    apply (IH (n + 1) a1 b1 p s ls1 rs1 a' ls'); try done; [lia|lia| |by eapply poll_inv_grows].
    by rewrite <- (Forall2_length G1).
  - destruct (run_all_grows _ _ _ _ Hrun (topic p) ls Hls) as (ls1 & Hls1 & G1). simplify_eq.
    destruct (lookup_lt_is_Some_2 (cursors p) i) as [c Hc]; [destruct Hinv as [-> _]; exact Hl|].
    destruct (drain_part_inv n a b p s s0 0 ls i c HR Hn Hls Hb Hc) as (b1 & p1 & s1 & k & -> & HR1 & Hinv1 & Et & Eb & _);
      [by eapply grows_cap|done|]. cbn [mbind option_bind]. rewrite <- Et, <- Eb.
    apply (IH (n + 1) a b1 p1 s1 ls rs a' ls'); rewrite ?Et, ?Eb; try done; [by apply (rel_mono n); [lia|]|lia|lia].
Qed.

(** A new poller. *)
Lemma NewPoller_spec n a b bt t :
  rel n a b -> 0 <= n ->
  let ls := default (replicate 3 [], 0) (l_topics a !! t) in
  let '(p, b') := NewPoller bt t b in
  rel n (set_logs t ls a) b' /\ topic p = t /\ batch p = bt /\ cursors p = replicate (length ls.1) 0.
Proof.
  intros HR Hn ls. unfold NewPoller. pose proof (op_ensure n a b t 0 HR Hn ltac:(lia)) as HE. cbn [Z.leb Z.compare] in HE.
  change (replicate (Z.to_nat 3) []) with (replicate 3 ([] : list entry)) in HE. fold ls in HE.
  split; [done|]. cbn [topic batch cursors]. do 2 (split; [done|]). f_equal.
  pose proof (rel_lookup _ _ _ t HE) as Ht. cbn [set_logs l_topics] in Ht. rewrite lookup_insert_eq in Ht.
  unfold PartitionCount. destruct (topics (EnsureTopic t 0 b) !! t) as [set|]; [|done].
  rewrite (length_set_rep _ _ _ Ht). lia.
Qed.

Lemma new_poll_inv s0 ls p : cursors p = replicate (length ls) 0 -> poll_inv s0 ls p s0.
Proof.
  intros E. split; [by rewrite E, length_replicate|]. exists []. split; [done|]. split; [done|]. intros i c log Hc _.
  rewrite E in Hc. apply lookup_replicate in Hc as [-> _]. split; [lia|done].
Qed.

Lemma drain_from_spec n a s0 ls parts : forall b p s ing,
  rel n a b -> 0 <= n -> l_topics a !! topic p = Some ls -> 0 < batch p < 2 ^ 62 ->
  NoDup parts -> Forall (fun i => (i < length ls.1)%nat) parts ->
  Forall (fun log => zlen log <= defaultCapacity) ls.1 -> poll_inv s0 ls.1 p s ->
  exists b' p' s' k, drain_from parts b p s ing = Some (b', p', s', k) /\ rel n a b' /\ poll_inv s0 ls.1 p' s' /\
    topic p' = topic p /\ batch p' = batch p /\
    forall i c log, cursors p !! i = Some c -> ls.1 !! i = Some log ->
      cursors p' !! i = Some (if decide (i ∈ parts) then Z.min (c + batch p) (zlen log) else c).
Proof.
  induction parts as [|j parts IH]; intros b p s ing HR Hn Hls Hb Hnd Hlt Hcap Hinv; cbn [drain_from].
  { eexists _, _, _, _. split_and!; try done. }
  destruct (list.Forall_cons_1 _ _ _ Hlt) as [Hj Hlt']. apply list.NoDup_cons in Hnd as [Hnj Hnd].
  destruct (lookup_lt_is_Some_2 (cursors p) j) as [cj Hcj]; [destruct Hinv as [-> _]; exact Hj|].
  destruct (drain_part_inv n a b p s s0 ing ls j cj HR Hn Hls Hb Hcj Hcap Hinv) as (b1 & p1 & s1 & k & -> & HR1 & Hinv1 & Et & Eb & Ec).
  cbn [mbind option_bind]. rewrite <- Et in Hls. rewrite <- Eb in Hb.
  destruct (IH b1 p1 s1 k HR1 Hn Hls Hb Hnd Hlt' Hcap Hinv1) as (b2 & p2 & s2 & k2 & -> & HR2 & Hinv2 & Et2 & Eb2 & Hc2).
  eexists b2, p2, s2, k2. split_and!; [done|done|done|congruence|congruence|]. intros i c log Hi Hl. rewrite <- Eb.
  destruct (decide (i = j)) as [->|Hne].
  - rewrite (decide_True (P := j ∈ j :: parts)) by by left. simplify_eq. rewrite (Hc2 j (Z.min (cj + batch p) (zlen log)) log).
    + by rewrite decide_False, Eb by done.
    + rewrite (Ec log Hl). apply list_lookup_insert_eq. by eapply lookup_lt_Some.
    + done.
  - destruct (lookup_lt_is_Some_2 ls.1 j Hj) as [lj Hlj].
    rewrite (Hc2 i c log); [|by rewrite (Ec lj Hlj), list_lookup_insert_ne|done]. f_equal.
    destruct (decide (i ∈ parts)); [by rewrite decide_True by by right|].
    rewrite decide_False; [done|]. by intros [?|?]%elem_of_cons.
Qed.

Lemma passes_spec n a s0 ls k : forall b p s,
  rel n a b -> 0 <= n -> l_topics a !! topic p = Some ls -> 0 < batch p < 2 ^ 62 ->
  Forall (fun log => zlen log <= defaultCapacity) ls.1 -> poll_inv s0 ls.1 p s ->
  exists b' p' s', passes k b p s = Some (b', p', s') /\ poll_inv s0 ls.1 p' s' /\
    forall i c log, cursors p !! i = Some c -> ls.1 !! i = Some log ->
      cursors p' !! i = Some (Z.min (c + Z.of_nat k * batch p) (zlen log)).
Proof.
  induction k as [|k IH]; intros b p s HR Hn Hls Hb Hcap Hinv; cbn [passes].
  { eexists _, _, _. split_and!; try done. intros i c log Hc Hl. rewrite Hc. f_equal.
    destruct Hinv as (_ & tr & _ & _ & Ht). destruct (Ht i c log Hc Hl) as [Hr _]. lia. }
  unfold drainOnce. pose proof Hinv as [Hlen _].
  destruct (drain_from_spec n a s0 ls (seq 0 (length (cursors p))) b p s 0) as
    (b1 & p1 & s1 & k1 & -> & HR1 & Hinv1 & Et & Eb & Hc1); try done.
  { apply NoDup_seq. }
  { apply list.Forall_forall. intros i Hi. apply elem_of_seq in Hi. lia. }
  cbn [mbind option_bind]. rewrite <- Et in Hls. rewrite <- Eb in Hb.
  destruct (IH b1 p1 s1 HR1 Hn Hls Hb Hcap Hinv1) as (b2 & p2 & s2 & -> & Hinv2 & Hc2).
  eexists b2, p2, s2. split_and!; [done|done|]. intros i c log Hc Hl.
  rewrite (Hc2 i (Z.min (c + batch p) (zlen log)) log); [|rewrite (Hc1 i c log Hc Hl)|done].
  - f_equal. rewrite Eb. nia.
  - rewrite decide_True; [done|]. apply elem_of_seq. apply lookup_lt_Some in Hc. lia.
Qed.

(** Every event is ingested once and in order.  A poller is started on a broker
    with any history; then broker operations and the poller's fetches interleave in
    any way.  While the ring has not evicted messages of the topic, the consumer's
    state is the fold of a sequence of events that is, for every partition, exactly
    the recognized events below the cursor, in the order of the partition's log:
    nothing is skipped, repeated or reordered within a partition. *)
Theorem poller_ingests_once s0 bt t os rs0 a b lbls rs a' ls' :
  Forall op_ok os -> run_all log_op os empty_logs = Some (rs0, a) -> run_all run_op os New = Some (rs0, b) ->
  zlen os + zlen lbls < 2 ^ 62 -> 0 < bt < 2 ^ 62 ->
  let ls := default (replicate 3 [], 0) (l_topics a !! t) in
  Forall (label_ok (length ls.1)) lbls ->
  run_all log_op (ops_of lbls) (set_logs t ls a) = Some (rs, a') ->
  l_topics a' !! t = Some ls' -> Forall (fun log => zlen log <= defaultCapacity) ls'.1 ->
  exists b' p' s' trace,
    poll_run lbls (NewPoller bt t b).2 (NewPoller bt t b).1 s0 = Some (b', p', s') /\
    s' = ingest_all trace s0 /\
    forall i log, ls'.1 !! i = Some log ->
      exists c, cursors p' !! i = Some c /\ 0 <= c <= zlen log /\ of_part i trace = events (take (Z.to_nat c) log).
Proof.
  intros Hos Hl Hr Hlt Hb ls Hok Hrun Hls' Hcap.
  destruct (run_simulates os 0 _ _ _ _ New_rel ltac:(lia) ltac:(lia) Hos Hl) as (b1 & Hb1 & HR). simplify_eq.
  pose proof (NewPoller_spec _ a b bt t HR ltac:(lia)) as HN. fold ls in HN.
  destruct (NewPoller bt t b) as [p0 b0]. destruct HN as (HR0 & <- & <- & Hc0). cbn [fst snd].
  destruct (poll_run_inv s0 lbls (0 + zlen os) (set_logs (topic p0) ls a) b0 p0 s0 ls rs a' ls') as (b' & p' & s' & -> & _ & (Hlen & trace & Hs & Hp & Ht) & _);
    try done; try lia; [cbn; by rewrite lookup_insert_eq|by apply new_poll_inv|].
  exists b', p', s', trace. split_and!; [done|done|]. intros i log Hi.
  destruct (lookup_lt_is_Some_2 (cursors p') i) as [c Hc]; [rewrite Hlen; by eapply lookup_lt_Some|].
  exists c. split; [done|]. by apply Ht.
Qed.

(** On a topic that nobody writes to, [k] passes ingest
    every event of every partition as soon as [k] batches are as long as the
    longest partition; the cursors end at the partitions' tails. *)
Lemma passes_reach_end s0 bt t os rs0 a b ls k :
  Forall op_ok os -> run_all log_op os empty_logs = Some (rs0, a) -> run_all run_op os New = Some (rs0, b) ->
  zlen os < 2 ^ 62 -> 0 < bt < 2 ^ 62 -> l_topics a !! t = Some ls ->
  Forall (fun log => zlen log <= defaultCapacity /\ zlen log <= Z.of_nat k * bt) ls.1 ->
  exists b' p' s' trace,
    passes k (NewPoller bt t b).2 (NewPoller bt t b).1 s0 = Some (b', p', s') /\
    s' = ingest_all trace s0 /\ Forall (fun x => (x.1 < length ls.1)%nat) trace /\
    forall i log, ls.1 !! i = Some log -> cursors p' !! i = Some (zlen log) /\ of_part i trace = events log.
Proof.
  intros Hos Hl Hr Hlt Hb Hls Hcap.
  destruct (run_simulates os 0 _ _ _ _ New_rel ltac:(lia) ltac:(lia) Hos Hl) as (b1 & Hb1 & HR). simplify_eq.
  pose proof (NewPoller_spec _ a b bt t HR ltac:(lia)) as HN. rewrite Hls in HN. cbn [default] in HN. unfold id in HN.
  destruct (NewPoller bt t b) as [p0 b0]. destruct HN as (HR0 & <- & <- & Hc0). cbn [fst snd].
  destruct (passes_spec (0 + zlen os) (set_logs (topic p0) ls a) s0 ls k b0 p0 s0 HR0) as (b' & p' & s' & -> & (Hlen & trace & Hs & Hp & Ht) & Hc);
    [lia|cbn; by rewrite lookup_insert_eq|done|eapply list.Forall_impl; [exact Hcap|naive_solver]|by apply new_poll_inv|].
  exists b', p', s', trace. split_and!; [done|done|done|]. intros i log Hi.
  destruct (Forall_lookup_1 _ _ _ _ Hcap Hi) as [_ Hk].
  assert (cursors p' !! i = Some (zlen log)) as Hci.
  { rewrite (Hc i 0 log); [f_equal; lia| |done]. rewrite Hc0. apply lookup_replicate_2. by eapply lookup_lt_Some. }
  split; [done|]. destruct (Ht i _ log Hci Hi) as [_ ->]. rewrite Nat2Z.id. by rewrite firstn_all.
Qed.

End Consumer.

(** ** Witnesses: a consumer that lists the events *)

Definition collect (e : Event) (s : list Event) : list Event := s ++ [e].

Definition hello : bytes := match Marshal 0 sample_event with Ok data => data | Err _ => [] end.

(** An event and a foreign message in partition 0. *)
Definition demo_ops : list op :=
  [OEnsureTopic "agent-events" 0; OPublishToPartition "agent-events" 0 1 hello;
   OPublishToPartition "agent-events" 0 2 [Byte.x00]].

Definition demo_broker : Broker := match run_all run_op demo_ops New with Some (_, b) => b | None => New end.
Definition demo_resps : list resp := match run_all log_op demo_ops empty_logs with Some (rs, _) => rs | None => [] end.
Definition demo_logs : Logs := match run_all log_op demo_ops empty_logs with Some (_, a) => a | None => empty_logs end.

(** The poller fetches, another event is published, the poller fetches again. *)
Definition demo_labels : list label :=
  [LPart 0; LOp (OPublishToPartition "agent-events" 0 3 hello); LPart 1; LPart 0].

Definition demo_after : Logs := set_logs "agent-events" ([[(1, hello); (2, [Byte.x00]); (3, hello)]; []; []], 0) demo_logs.

Example poller_ingests_once_witness :
  exists b' p' s' trace,
    poll_run collect demo_labels (NewPoller 1 "agent-events" demo_broker).2 (NewPoller 1 "agent-events" demo_broker).1 [] =
      Some (b', p', s') /\ s' = ingest_all collect trace [] /\
    forall i log, [[(1, hello); (2, [Byte.x00]); (3, hello)]; []; []] !! i = Some log ->
      exists c, cursors p' !! i = Some c /\ 0 <= c <= zlen log /\ of_part i trace = events (take (Z.to_nat c) log).
Proof.
  apply (poller_ingests_once collect [] 1 "agent-events" demo_ops demo_resps demo_logs demo_broker demo_labels
    [RPublished 0 2] demo_after ([[(1, hello); (2, [Byte.x00]); (3, hello)]; []; []], 0));
    [by repeat constructor|vm_compute; reflexivity|vm_compute; reflexivity|vm_compute; reflexivity|done| |vm_compute; reflexivity
    |vm_compute; reflexivity|repeat constructor; cbn; unfold defaultCapacity; lia].
  replace (length _) with 3%nat by (vm_compute; reflexivity). repeat constructor; lia.
Defined.

End Poll.
