(* ===== verification/WfRecovery.v ===== *)
(** * Recovery of workflow state (internal/workflow/poller.go over coordinator.go,
    store.go and the broker)

    [Module Recovery] composes the components that a restart goes through: the
    coordinator publishes every transition under its execution's key, the broker
    keeps the partitions' logs, the poller reads them and [Coordinator.Ingest]
    folds them into a store.  The theorems: that store holds the same executions as
    the one that lived through the calls, although the partitions are read one
    after the other and not in the order of the calls; and calls that a restarted node
    takes before its poller has read the log can complete an execution a second time. *)

From S2P Require Import Prelude GoLib GoJson GoTime AgentStream WfState WfStore WfCoord Broker EventPoller.
Import Json Envelope Workflow Executions Coordination.

Module Recovery.
Local Open Scope Z_scope.

(** The poller's consumer: [Coordinator.Ingest] is [Store.Apply]. *)
Definition ingest (e : Event) (s : Store) : Store := (Apply s e).1.

Definition event_key (e : Event) : string := SessionKey (Tenant e) (Project e) (SessionID e).

(** ** Executions are independent of each other *)

(** What an event does to the execution of its own key. *)
Definition exec_step (o : option Execution) (e : Event) : option Execution :=
  if negb (IsWorkflowEvent (Type_ e)) then o
  else if decide (Type_ e = EventSubmitted) then
    match o, newExecution e with
    | None, Some nx => Some nx
    | _, _ => o
    end
  else (fun x => (apply x e).1) <$> o.

Lemma fold_event_lookup m e k :
  fold_event m e !! k = if decide (event_key e = k) then exec_step (m !! k) e else m !! k.
Proof.
  unfold fold_event, exec_step, event_key. destruct (negb (IsWorkflowEvent (Type_ e))); [by case_decide|].
  set (key := SessionKey _ _ _). destruct (decide (Type_ e = EventSubmitted)).
  - destruct (decide (key = k)) as [<-|Hne].
    + destruct (m !! key) eqn:E; [done|]. destruct (newExecution e); [by rewrite lookup_insert_eq|done].
    + destruct (m !! key), (newExecution e); try done. by rewrite lookup_insert_ne.
  - destruct (decide (key = k)) as [<-|Hne].
    + destruct (m !! key) eqn:E; [by rewrite lookup_insert_eq|by rewrite E].
    + destruct (m !! key); [by rewrite lookup_insert_ne|done].
Qed.

Lemma log_fold_lookup l k : log_fold l !! k = fold_left exec_step (filter (fun e => event_key e = k) l) None.
Proof.
  induction l as [|e l IH] using rev_ind; [done|]. rewrite log_fold_snoc, fold_event_lookup, list.filter_app, fold_left_app, IH.
  rewrite filter_cons, filter_nil. by destruct (decide (event_key e = k)).
Qed.

(** Two logs with the same events of every execution fold to the same state. *)
Lemma log_fold_ext l l' :
  (forall k, filter (fun e => event_key e = k) l = filter (fun e => event_key e = k) l') -> log_fold l = log_fold l'.
Proof. intros H. apply map_eq. intros k. by rewrite !log_fold_lookup, H. Qed.

(** ** Keyed publishes *)

Definition part_of (k : string) : Z := fnv1a32 (bs_of k) mod 3.

(** A transition with the time and the bytes it was published with. *)
Definition publish_op (x : Event * (Z * bytes)) : Bus.op :=
  Bus.OPublishWithKey Topic (event_key x.1) x.2.1 x.2.2.

Definition topic_ops (xs : list (Event * (Z * bytes))) : list Bus.op := Bus.OEnsureTopic Topic 0 :: map publish_op xs.

Definition part_log (i : nat) (xs : list (Event * (Z * bytes))) : list Bus.entry :=
  map snd (filter (fun x => part_of (event_key x.1) = Z.of_nat i) xs).

Lemma event_key_nonempty e : event_key e <> "".
Proof. unfold event_key, SessionKey. by destruct (TrimSpace (Tenant e)). Qed.

Lemma part_of_range k : 0 <= part_of k < 3.
Proof. apply Z.mod_pos_bound. lia. Qed.

Lemma part_log_snoc i xs x :
  part_log i (xs ++ [x]) = part_log i xs ++ (if decide (part_of (event_key x.1) = Z.of_nat i) then [x.2] else []).
Proof. unfold part_log. rewrite list.filter_app, map_app, filter_cons, filter_nil. by case_decide. Qed.

Lemma run_all_snoc {S} (f : Bus.op -> S -> option (Bus.resp * S)) os o : forall s,
  Bus.run_all f (os ++ [o]) s =
  match Bus.run_all f os s with
  | Some (rs, s) => match f o s with Some (r, s) => Some (rs ++ [r], s) | None => None end
  | None => None
  end.
Proof.
  induction os as [|x os IH]; intros s; cbn [app Bus.run_all]; [by destruct (f o s) as [[? ?]|]|].
  destruct (f x s) as [[r s1]|]; [|done]. cbn [mbind option_bind]. rewrite IH.
  destruct (Bus.run_all f os s1) as [[rs s2]|]; [|done]. cbn [mbind option_bind]. by destruct (f o s2) as [[? ?]|].
Qed.

(** The logs that publishing by key leaves. *)
Lemma topic_logs xs :
  exists rs a, Bus.run_all Bus.log_op (topic_ops xs) Bus.empty_logs = Some (rs, a) /\
    Bus.l_topics a !! Topic = Some ([part_log 0 xs; part_log 1 xs; part_log 2 xs], 0).
Proof.
  induction xs as [|x xs (rs & a & E & Ha)] using rev_ind.
  { eexists _, _. split; [reflexivity|]. reflexivity. }
  unfold topic_ops. rewrite map_app. cbn [map]. rewrite app_comm_cons, run_all_snoc. fold (topic_ops xs). rewrite E.
  unfold publish_op. cbn [Bus.log_op]. unfold Bus.log_topic. rewrite Ha. cbn [default]. unfold id. cbn [length].
  unfold Bus.route. rewrite decide_False by done. rewrite (proj2 (String.eqb_neq _ _) (event_key_nonempty x.1)).
  change (fnv1a32 (bs_of (event_key x.1)) mod Z.of_nat 3) with (part_of (event_key x.1)).
  unfold Bus.log_append. cbn [fst snd]. eexists _, _. split; [reflexivity|]. cbn [Bus.set_logs Bus.l_topics].
  rewrite lookup_insert_eq, !part_log_snoc. do 2 f_equal. destruct x as [e [now d]]. cbn [fst snd].
  pose proof (part_of_range (event_key e)) as Hr.
  assert (part_of (event_key e) = 0 \/ part_of (event_key e) = 1 \/ part_of (event_key e) = 2) as [-> | [-> | ->]] by lia;
    cbn; by rewrite ?app_nil_r.
Qed.

(** The events of a partition. *)
Lemma part_events i xs :
  Forall (fun x => ParseEvent x.2.2 = Some x.1) xs ->
  Poll.events (part_log i xs) = filter (fun e => part_of (event_key e) = Z.of_nat i) (map fst xs).
Proof.
  unfold Poll.events, part_log. induction 1 as [|x xs Hx _ IH]; [done|]. cbn [map]. rewrite !filter_cons. case_decide; [|done].
  cbn [map omap list_omap]. rewrite Hx. by f_equal.
Qed.

(** Interleavings of the partitions agree with the log on every execution. *)
Lemma merge_filter (trace : list (nat * Event)) (l : list Event) k :
  Forall (fun x => (x.1 < 3)%nat) trace ->
  (forall i, (i < 3)%nat -> Poll.of_part i trace = filter (fun e => part_of (event_key e) = Z.of_nat i) l) ->
  filter (fun e => event_key e = k) (map snd trace) = filter (fun e => event_key e = k) l.
Proof.
  intros Hlt Hp. set (i := Z.to_nat (part_of k)). pose proof (part_of_range k) as Hr.
  assert (forall j e, (j, e) ∈ trace -> event_key e = k -> j = i) as Hone.
  { intros j e Hin He. rewrite list.Forall_forall in Hlt. specialize (Hlt (j, e) Hin). cbn in Hlt.
    assert (e ∈ Poll.of_part j trace) as He'.
    { unfold Poll.of_part. apply list_elem_of_fmap. exists (j, e). split; [done|]. by apply list_elem_of_filter. }
    rewrite Hp in He' by done. apply list_elem_of_filter in He' as [Hj _]. subst i. rewrite He in Hj. lia. }
  transitivity (filter (fun e => event_key e = k) (Poll.of_part i trace)).
  - clear Hp Hlt. unfold Poll.of_part. induction trace as [|[j e] trace IH]; [done|]. cbn [map snd]. rewrite !filter_cons. cbn [fst].
    rewrite IH by (intros j' e' Hin; apply Hone; by right). destruct (decide (event_key e = k)) as [Hk|Hk].
    + rewrite decide_True by (eapply Hone; [by left|done]). cbn [map snd]. by rewrite filter_cons, decide_True.
    + case_decide; [|done]. cbn [map snd]. by rewrite filter_cons, decide_False.
  - rewrite Hp by lia. rewrite list_filter_filter. apply list_filter_iff. intros e. split; [naive_solver|].
    intros He. split; [done|]. subst i. rewrite He. lia.
Qed.

Lemma ingest_rebuild cap trace : Poll.ingest_all ingest trace (capped cap) = rebuild_capped cap (map snd trace).
Proof.
  unfold Poll.ingest_all, rebuild_capped, ingest. generalize (capped cap) as s. induction trace as [|x trace IH]; intros s; [done|].
  cbn [foldl map fold_left]. apply IH.
Qed.

(** A list in three parts. *)
Lemma three_parts {A} (f : A -> nat) l : Forall (fun x => (f x < 3)%nat) l ->
  length l = (length (filter (fun x => f x = 0%nat) l) + length (filter (fun x => f x = 1%nat) l) +
    length (filter (fun x => f x = 2%nat) l))%nat.
Proof.
  induction 1 as [|x l Hx _ IH]; [done|]. rewrite !filter_cons.
  destruct (f x) as [|[|[|n]]]; [..|lia]; cbn [length]; repeat (case_decide; try done); cbn [length]; lia.
Qed.

(** The poller reads every event once. *)
Lemma merge_length (trace : list (nat * Event)) (l : list Event) :
  Forall (fun x => (x.1 < 3)%nat) trace ->
  (forall i, (i < 3)%nat -> Poll.of_part i trace = filter (fun e => part_of (event_key e) = Z.of_nat i) l) ->
  length trace = length l.
Proof.
  intros Hlt Hp. rewrite (three_parts fst trace Hlt), (three_parts (fun e => Z.to_nat (part_of (event_key e))) l).
  2: { apply list.Forall_forall. intros e _. pose proof (part_of_range (event_key e)). lia. }
  assert (forall i, (i < 3)%nat -> length (filter (fun x => x.1 = i) trace) =
    length (filter (fun e => Z.to_nat (part_of (event_key e)) = i) l)) as H.
  { intros i Hi. specialize (Hp i Hi). apply (f_equal length) in Hp. unfold Poll.of_part in Hp. rewrite length_map in Hp.
    rewrite Hp. f_equal. apply list_filter_iff. intros e. pose proof (part_of_range (event_key e)). lia. }
  rewrite !H by lia. done.
Qed.

(** C12. A restarted node recovers the workflow state.  Take any sequence of
    coordinator calls, one after the other, whose failed publishes leave nothing behind;
    every transition is published to the topic under its execution's key, as bytes that
    parse back to it.  A poller that reads the topic from the start, one partition
    after the other, builds a store with the same executions, histories included,
    as the store that lived through the calls.  The topic has fewer than 2^20 events, so
    that no partition's ring has dropped one, and no more than the cap on retained
    executions, if there is one, so that neither store evicts; the poller makes enough
    passes of its batch size. *)
Theorem restart_recovers_executions c cap calls w xs n :
  run_calls c calls (mkWorld (capped cap) []) = Some w -> Forall (fun p => Forall clean p.2) calls ->
  map fst xs = log w -> Forall (fun x => ParseEvent x.2.2 = Some x.1) xs ->
  fits cap (zlen xs) -> zlen xs < Bus.defaultCapacity -> zlen xs <= Z.of_nat n * Poll.workflow_batch ->
  exists rs b b' p' s',
    Bus.run_all Bus.run_op (topic_ops xs) Bus.New = Some (rs, b) /\
    Poll.passes ingest n (Poll.NewPoller Poll.workflow_batch Topic b).2 (Poll.NewPoller Poll.workflow_batch Topic b).1 (capped cap) =
      Some (b', p', s') /\
    view s' = view (store w).
Proof.
  intros Hrun Hcl Hlog Hparse Hfit Hcap Hn. destruct (topic_logs xs) as (rs & a & E & Ha).
  assert (Forall Bus.op_ok (topic_ops xs)) as Hok.
  { constructor; [done|]. apply list.Forall_forall. intros o (x & -> & _)%list_elem_of_fmap. done. }
  assert (zlen (topic_ops xs) < 2 ^ 62) as Hlen.
  { unfold topic_ops. cbn [length]. rewrite length_map. unfold Bus.defaultCapacity in Hcap. lia. }
  destruct (Bus.run_simulates (topic_ops xs) 0 _ _ _ _ Bus.New_rel ltac:(lia) ltac:(lia) Hok E) as (b & Hb & _).
  assert (forall i, zlen (part_log i xs) <= zlen xs) as Hpl.
  { intros i. unfold part_log. rewrite length_map. pose proof (length_filter (fun x => part_of (event_key x.1) = Z.of_nat i) xs). lia. }
  destruct (Poll.passes_reach_end ingest (capped cap) Poll.workflow_batch Topic (topic_ops xs) rs a b _ n Hok E Hb Hlen
    ltac:(unfold Poll.workflow_batch; lia) Ha) as (b' & p' & s' & trace & EP & Hs & Hpart & Ht).
  { repeat constructor; cbn [fst]; match goal with |- context [part_log ?i xs] => specialize (Hpl i) end; lia. }
  assert (forall i, (i < 3)%nat -> Poll.of_part i trace = filter (fun e => part_of (event_key e) = Z.of_nat i) (log w)) as Hmerge.
  { intros i Hi. assert ([part_log 0 xs; part_log 1 xs; part_log 2 xs] !! i = Some (part_log i xs)) as Hi'
      by (destruct i as [|[|[|i]]]; [done..|lia]).
    destruct (Ht i _ Hi') as [_ ->]. rewrite part_events by done. by rewrite Hlog. }
  assert (length trace = length (log w)) as Hl by by apply merge_length.
  assert (length (log w) = length xs) as Hx by (rewrite <- Hlog; apply length_map).
  exists rs, b, b', p', s'. split; [done|]. split; [exact EP|]. rewrite Hs, ingest_rebuild.
  destruct (rebuild_capped_view cap (map snd trace)) as (_ & _ & _ & Hv); [by rewrite length_map, Hl, Hx|].
  cbn [store log] in Hv. rewrite Hv, (run_calls_view c cap calls w Hrun Hcl) by by rewrite Hx.
  f_equal. apply log_fold_ext. intros k. by apply merge_filter.
Qed.

(** The transitions of a submit, a lease and a completion. *)
Definition demo_published : list (Event * (Z * bytes)) :=
  map (fun e => (e, (0, match Marshal 0 e with Ok d => d | Err _ => [] end))) (log k_completed).

Lemma demo_published_parse : Forall (fun x => ParseEvent x.2.2 = Some x.1) demo_published.
Proof.
  assert (map (fun x => ParseEvent x.2.2) demo_published = map (fun x => Some x.1) demo_published) as H
    by (vm_compute; reflexivity).
  revert H. generalize demo_published as xs. intros xs. induction xs as [|x xs IH]; cbn [map]; intros H; [constructor|].
  injection H as H1 H2. constructor; [exact H1|by apply IH].
Qed.

Example restart_recovers_executions_witness :
  exists rs b b' p' s',
    Bus.run_all Bus.run_op (topic_ops demo_published) Bus.New = Some (rs, b) /\
    Poll.passes ingest 1 (Poll.NewPoller Poll.workflow_batch Topic b).2 (Poll.NewPoller Poll.workflow_batch Topic b).1 (capped 200000) =
      Some (b', p', s') /\
    view s' = view (store k_completed).
Proof.
  apply (restart_recovers_executions demo 200000 demo_calls k_completed demo_published 1);
    [vm_compute; reflexivity|repeat constructor|vm_compute; reflexivity|exact demo_published_parse
    |right; vm_compute; discriminate|vm_compute; reflexivity|].
  vm_compute. discriminate.
Defined.

(** ** Calls before the log has been read

    After a restart the poller reads the topic in the background, a batch per partition and
    tick, while the service already takes calls: the store they see may still be empty. *)

Definition restarted (cap : Z) (l : list Event) : World := mkWorld (capped cap) l.

Definition completions (l : list Event) : nat := length (filter (fun e => Type_ e = EventCompleted) l).

Definition spec_key (spec : SubmitSpec) : string := SessionKey (s_Tenant spec) (s_Project spec) (s_WorkflowID spec).

(** What [Submit] needs of a specification for its event to be read back: names in valid
    UTF-8, a task type, numbers of their width. *)
Record spec_ok (c : Coordinator) (spec : SubmitSpec) : Prop := {
  so_type : s_TaskType spec <> "" /\ utf8_ok (s_TaskType spec);
  so_max : in_i64 (if s_MaxAttempts spec <=? 0 then maxAttempts c else s_MaxAttempts spec);
  so_ttl : in_i64 (Time.Milliseconds (if s_LeaseTTL spec <=? 0 then leaseTTL c else s_LeaseTTL spec))
}.

(** A submission to an empty store leaves one execution, first in its queue. *)
Lemma submit_fresh c cap spec now :
  spec_ok c spec ->
  let s := (Apply (capped cap) (submit_envelope c spec now)).1 in
  exists x s1, ReserveNext (s_TaskType spec) s = (s1, Some 0%nat) /\ heap s !! 0%nat = Some x /\
    x_Tenant x = s_Tenant spec /\ x_Project x = s_Project spec /\ x_WorkflowID x = s_WorkflowID spec /\
    x_TaskType x = s_TaskType spec /\ x_Attempt x = 0 /\ x_completing x = false /\ room s.
Proof.
  intros [[Ht Hu] Hm Hl] s. subst s. set (e := submit_envelope c spec now).
  assert (exists x, newExecution e = Some x /\ x_Status x = StatusPending /\ x_reserved x = false /\
    x_Tenant x = s_Tenant spec /\ x_Project x = s_Project spec /\ x_WorkflowID x = s_WorkflowID spec /\
    x_TaskType x = s_TaskType spec /\ x_Attempt x = 0 /\ x_completing x = false)
    as (x & En & Hs & Hr & HT & HP & HW & HY & HA & HC).
  { unfold newExecution.
    change (submit_of e) with (unmarshal set_submit (mkSubmit "" [] 0 0) (marshal_submit (mkSubmit (s_TaskType spec) (s_Input spec)
      (if s_MaxAttempts spec <=? 0 then maxAttempts c else s_MaxAttempts spec)
      (Time.Milliseconds (if s_LeaseTTL spec <=? 0 then leaseTTL c else s_LeaseTTL spec))))).
    rewrite unmarshal_submit by done. cbn [mbind option_bind sp_TaskType]. rewrite decide_False by done.
    eexists. split; [reflexivity|]. by split_and!. }
  exists x. unfold Apply. change (IsWorkflowEvent (Type_ e)) with true. cbn [negb].
  rewrite decide_True by done. change (SessionKey (Tenant e) (Project e) (SessionID e)) with (spec_key spec).
  change (find (capped cap) (spec_key spec)) with (@None (nat * Execution)). rewrite En. cbn [fst].
  set (s0 := add_count _ _ _).
  assert (reconcileQueueLocked (spec_key spec) x s0 =
    {| s0 with queues := {[s_TaskType spec := [spec_key spec]]}; queued := {[spec_key spec := true]} |}) as ->.
  { unfold reconcileQueueLocked, is_status. rewrite Hs, Hr, HY. reflexivity. }
  assert (execs s0 = {[spec_key spec := 0%nat]} /\ heap s0 = {[0%nat := x]} /\ terminalQ s0 = [] /\ retainTerminal s0 = cap)
    as (E1 & E2 & E3 & E4) by done.
  clearbody s0. unfold ReserveNext, queue_of. cbn [queues]. rewrite lookup_singleton_eq. cbn [default]. unfold id.
  cbn [reserve_loop]. unfold find. cbn [execs heap]. rewrite E1, E2, lookup_singleton_eq. cbn [mbind option_bind].
  rewrite lookup_singleton_eq. cbn [mbind option_bind]. unfold is_status. rewrite Hs, Hr. cbn [negb andb].
  rewrite bool_decide_true by done. eexists. split; [reflexivity|]. split_and!; try done.
  unfold room. cbn [terminalQ retainTerminal]. rewrite E3, E4. cbn. lia.
Qed.

(** What a fold does with events of an execution that is final. *)
Lemma log_fold_final l es k x :
  log_fold l !! k = Some x -> Terminal x = true -> Forall (fun e => event_key e = k) es -> log_fold (l ++ es) = log_fold l.
Proof.
  intros Hx Ht. induction es as [|e es IH] using rev_ind; [by rewrite app_nil_r|]. intros [HF He]%list.Forall_app.
  apply list.Forall_cons in He as [He _]. rewrite app_assoc, log_fold_snoc, IH by done. apply map_eq. intros k'.
  rewrite fold_event_lookup. case_decide as Ek; [|done]. rewrite <- Ek, He, Hx. unfold exec_step.
  destruct (negb _); [done|]. case_decide; [done|]. cbn. by rewrite terminal_rejects.
Qed.

(** C39. The exactly-once gate holds for one process only.  Take any log in which an execution
    is completed, and a node restarted on it whose poller has not read an event yet.  The
    execution can be submitted again, leased as attempt 1 and completed with any result, each
    call answering as for a new execution; the log then holds one more completion, and a later
    rebuild forgets the second result: it folds to the state before the restart.  The publishes
    succeed, the clock is in the calendar and the names are valid UTF-8. *)
Theorem early_calls_complete_again c cap spec worker wait res l x n1 n2 n3 :
  log_fold l !! spec_key spec = Some x -> x_Status x = StatusCompleted ->
  spec_ok c spec -> utf8_ok worker -> Time.in_calendar n2 -> Time.in_calendar n3 ->
  exists w1 w2 w3 lease,
    run [ok_at 0; ok_at n1; ok_at 0; ok_at 0] (Submit c spec) (restarted cap l) = Some (w1, (false, None)) /\
    run [ok_at 0; ok_at 0; ok_at 0; ok_at n2; ok_at 0; ok_at 0; ok_at 0]
      (LeaseBatch 2 (s_TaskType spec) worker 1 wait) w1 = Some (w2, Some (Ok [lease])) /\
    l_WorkflowID lease = s_WorkflowID spec /\ l_Attempt lease = 1 /\
    run [ok_at 0; ok_at n3; ok_at 0; ok_at 0]
      (Complete (s_Tenant spec) (s_Project spec) (s_WorkflowID spec) worker 1 res) w2 = Some (w3, (true, false, None)) /\
    completions (log w3) = S (completions l) /\ log_fold (log w3) = log_fold l.
Proof.
  intros Hx Hst Hsp Hw Hn2 Hn3. set (e1 := submit_envelope c spec n1).
  destruct (submit_fresh c cap spec n1 Hsp) as (y & s1 & HR & Hy & HT & HP & HW & HY & HA & HC & Hroom).
  set (w1 := mkWorld (Apply (capped cap) e1).1 (l ++ [e1])).
  assert (store_ok (store w1)) as Hok1 by (apply Apply_ok, NewStore_ok).
  destruct (lease_alone (s_TaskType spec) worker wait w1 s1 0%nat y 0 n2) as (w2 & y2 & R2 & L2 & G2 & S2 & A2 & _ & _ & C2 & Hroom2);
    [done..|rewrite HA; lia|done|done|].
  destruct (run_store_ok _ _ _ _ _ R2 Hok1) as [Hok2 _].
  rewrite HT, HP, HW in G2. rewrite HA in A2. change (0 + 1) with 1 in A2.
  destruct (complete_run (s_Tenant spec) (s_Project spec) (s_WorkflowID spec) worker 1 res w2 y2 n3)
    as (w3 & y3 & R3 & L3 & _); [done..|unfold Terminal; by rewrite S2|by rewrite C2|done|done|done|done|].
  exists w1, w2, w3. eexists. split; [|split; [exact R2|]].
  { unfold Submit. rewrite run_do. cbn [exec fst snd restarted store]. change (Get _ _ _ (capped cap)) with (@None Execution). cbv iota.
    rewrite run_now, run_append by done. reflexivity. }
  split; [exact HW|]. split; [cbn [l_Attempt]; by rewrite HA|]. split; [exact R3|].
  unfold events_of in *. rewrite L3, L2. cbn [log w1]. split.
  - unfold completions. rewrite !list.filter_app, !length_app. repeat (rewrite filter_cons; case_decide; try done). cbn. lia.
  - rewrite <- !app_assoc. eapply log_fold_final; [exact Hx|unfold Terminal; by rewrite Hst|].
    repeat constructor; unfold event_key, lease_envelope; cbn; by rewrite ?HT, ?HP, ?HW.
Qed.

Definition demo_spec : SubmitSpec := mkSpec "acme" "research" "run-1" "index" [Byte.x01] 2 (5 * Time.second).

Definition completed_exec : Execution :=
  match log_fold (log w_completed) !! spec_key demo_spec with Some x => x | None => leased_exec end.

Example early_calls_complete_again_witness :
  exists w1 w2 w3 lease,
    run [ok_at 0; ok_at (t0 + 3); ok_at 0; ok_at 0] (Submit demo demo_spec) (restarted 200000 (log w_completed)) = Some (w1, (false, None)) /\
    run [ok_at 0; ok_at 0; ok_at 0; ok_at (t0 + 4); ok_at 0; ok_at 0; ok_at 0]
      (LeaseBatch 2 "index" "w2" 1 0) w1 = Some (w2, Some (Ok [lease])) /\
    l_WorkflowID lease = "run-1" /\ l_Attempt lease = 1 /\
    run [ok_at 0; ok_at (t0 + 5); ok_at 0; ok_at 0]
      (Complete "acme" "research" "run-1" "w2" 1 [Byte.x2b]) w2 = Some (w3, (true, false, None)) /\
    completions (log w3) = 2%nat /\ log_fold (log w3) = log_fold (log w_completed).
Proof.
  apply (early_calls_complete_again demo 200000 demo_spec "w2" 0 [Byte.x2b] (log w_completed) completed_exec (t0 + 3) (t0 + 4) (t0 + 5)).
  - vm_compute. reflexivity.
  - vm_compute. reflexivity.
  - split; [split; [discriminate|vm_compute; reflexivity]|split; vm_compute; done || discriminate..].
  - vm_compute. reflexivity.
  - split; vm_compute; done || discriminate.
  - split; vm_compute; done || discriminate.
Defined.

End Recovery.
