(* ===== verification/WfService.v ===== *)
(** * The workflow gRPC service (internal/workflow/service.go)

    [Module Service] models the handlers of [WorkflowService]: the checks of a
    request, the redirect to the shard's leader, the coordinator call and the
    translation of its answer, with the widths of the protobuf fields (an attempt
    is an [int32], a time is Unix nanoseconds).  Handlers are programs over the
    coordinator's commands, so that they run interleaved like the calls they make.
    The router is an argument; nil is [None].

    The theorems, for any answers of the environment: a lease returns at most what was
    asked for and at most 256 tasks, each backed by a lease event; a batch counts
    exactly the events it logged; a listing is a page of the store. *)

From S2P Require Import Prelude GoLib GoJson GoTime AgentStream WfState WfStore WfCoord.
Import Json Envelope Workflow Executions Coordination.

Module Service.
Local Open Scope Z_scope.

Inductive svc_err :=
| InvalidArgument
| NotLeader (leader_addr : string)      (* FailedPrecondition with the leader's address *)
| Internal (e : coord_err)
| ContextError.

Definition RouteChecker : Type := string -> string -> string -> bool * Z * string.

Definition requireIDs (tenant project workflowID : string) : option svc_err :=
  if String.eqb tenant "" || String.eqb project "" || String.eqb workflowID "" then Some InvalidArgument else None.

Record SubmitRequest := mkSubmitReq {
  sr_Tenant : string; sr_Project : string; sr_WorkflowId : string; sr_TaskType : string; sr_Input : bytes;
  sr_MaxAttempts : Z; sr_LeaseTtlMs : Z
}.

Definition spec_of (req : SubmitRequest) : SubmitSpec :=
  mkSpec (sr_Tenant req) (sr_Project req) (sr_WorkflowId req) (sr_TaskType req) (sr_Input req) (sr_MaxAttempts req)
    (i64 (sr_LeaseTtlMs req * Time.millisecond)).

(** Answers [AlreadyExists]. *)
Definition SubmitWorkflow (c : Coordinator) (route : option RouteChecker) (req : SubmitRequest) :
    prog (result svc_err bool) :=
  match requireIDs (sr_Tenant req) (sr_Project req) (sr_WorkflowId req) with
  | Some e => Ret (Err e)
  | None =>
      if String.eqb (sr_TaskType req) "" then Ret (Err InvalidArgument)
      else
        let '(isLocal, hint) :=
          match route with
          | Some r => let '(l, _, h) := r (sr_Tenant req) (sr_Project req) (sr_WorkflowId req) in (l, h)
          | None => (true, ""%string)
          end in
        if negb isLocal then Ret (Err (NotLeader hint))
        else
          r <- Submit c (spec_of req) ;;
          let (already, err) := r : bool * option coord_err in
          match err with Some e => Ret (Err (Internal e)) | None => Ret (Ok already) end
  end.

Record LeaseRequest := mkLeaseReq { lr_TaskType : string; lr_WorkerId : string; lr_MaxTasks : Z; lr_WaitMs : Z }.

Record LeasedTaskMsg := mkTask {
  t_Tenant : string; t_Project : string; t_WorkflowId : string; t_TaskType : string; t_Input : bytes;
  t_Attempt : Z; t_LeaseDeadlineUnixNano : Z
}.

(** [Found] is [Some] of the first task; [Tasks] is filled for batches only. *)
Record LeaseResponse := mkLeaseResp { Found : option LeasedTaskMsg; Tasks : list LeasedTaskMsg }.

Definition task_of (l : Lease) : LeasedTaskMsg :=
  mkTask (l_Tenant l) (l_Project l) (l_WorkflowID l) (l_TaskType l) (l_Input l) (i32 (l_Attempt l))
    (Time.UnixNano (l_LeaseDeadline l)).

Definition clamp_max (n : Z) : Z :=
  let max := if n <=? 0 then 1 else n in if 256 <? max then 256 else max.

Definition lease_response (req : LeaseRequest) (leases : list Lease) : LeaseResponse :=
  match leases with
  | [] => mkLeaseResp None []
  | l :: _ => mkLeaseResp (Some (task_of l)) (if 1 <? lr_MaxTasks req then map task_of leases else [])
  end.

(** [cancelled]: the context is done when an error comes back. *)
Definition LeaseTask (fuel : nat) (cancelled : bool) (req : LeaseRequest) : prog (option (result svc_err LeaseResponse)) :=
  if String.eqb (lr_TaskType req) "" || String.eqb (lr_WorkerId req) "" then Ret (Some (Err InvalidArgument))
  else
    r <- LeaseBatch fuel (lr_TaskType req) (lr_WorkerId req) (clamp_max (lr_MaxTasks req)) (i64 (lr_WaitMs req * Time.millisecond)) ;;
    Ret (match r with
         | None => None
         | Some (Err e) => Some (Err (if cancelled then ContextError else Internal e))
         | Some (Ok leases) => Some (Ok (lease_response req leases))
         end).

Fixpoint submit_all (c : Coordinator) (route : option RouteChecker) (reqs : list SubmitRequest) (accepted existing : Z) :
    prog (result svc_err (Z * Z)) :=
  match reqs with
  | [] => Ret (Ok (accepted, existing))
  | r :: reqs =>
      one <- SubmitWorkflow c route r ;;
      match one with
      | Err e => Ret (Err e)
      | Ok true => submit_all c route reqs accepted (i32 (existing + 1))
      | Ok false => submit_all c route reqs (i32 (accepted + 1)) existing
      end
  end.

Definition SubmitWorkflows (c : Coordinator) (route : option RouteChecker) (reqs : list SubmitRequest) :
    prog (result svc_err (Z * Z)) :=
  if decide (reqs = []) then Ret (Err InvalidArgument) else submit_all c route reqs 0 0.

Record TaskRef := mkRef { tf_Tenant : string; tf_Project : string; tf_WorkflowId : string; tf_WorkerId : string; tf_Attempt : Z }.

Definition ids_of (r : TaskRef) : option svc_err := requireIDs (tf_Tenant r) (tf_Project r) (tf_WorkflowId r).

(** Answers [(Accepted, Duplicate)]. *)
Definition CompleteTask (r : TaskRef) (res : bytes) : prog (result svc_err (bool * bool)) :=
  match ids_of r with
  | Some e => Ret (Err e)
  | None =>
      x <- Complete (tf_Tenant r) (tf_Project r) (tf_WorkflowId r) (tf_WorkerId r) (tf_Attempt r) res ;;
      let '(accepted, duplicate, err) := x : bool * bool * option coord_err in
      match err with Some e => Ret (Err (Internal e)) | None => Ret (Ok (accepted, duplicate)) end
  end.

Fixpoint complete_all (reqs : list (TaskRef * bytes)) (accepted rejected : Z) : prog (result svc_err (Z * Z)) :=
  match reqs with
  | [] => Ret (Ok (accepted, rejected))
  | (r, res) :: reqs =>
      one <- CompleteTask r res ;;
      match one with
      | Err e => Ret (Err e)
      | Ok (true, _) => complete_all reqs (i32 (accepted + 1)) rejected
      | Ok (false, _) => complete_all reqs accepted (i32 (rejected + 1))
      end
  end.

Definition CompleteTasks (reqs : list (TaskRef * bytes)) : prog (result svc_err (Z * Z)) :=
  if decide (reqs = []) then Ret (Err InvalidArgument) else complete_all reqs 0 0.

(** Answers the new deadline when the lease is valid. *)
Definition HeartbeatTask (r : TaskRef) : prog (result svc_err (option Z)) :=
  match ids_of r with
  | Some e => Ret (Err e)
  | None =>
      x <- Heartbeat (tf_Tenant r) (tf_Project r) (tf_WorkflowId r) (tf_WorkerId r) (tf_Attempt r) ;;
      let '(valid, deadline, err) := x : bool * Z * option coord_err in
      match err with
      | Some ErrNotFound | None => Ret (Ok (if valid then Some (Time.UnixNano deadline) else None))
      | Some e => Ret (Err (Internal e))
      end
  end.

(** Answers [(Accepted, WillRetry)]. *)
Definition FailTask (r : TaskRef) (errMsg : string) (retryable : bool) : prog (result svc_err (bool * bool)) :=
  match ids_of r with
  | Some e => Ret (Err e)
  | None =>
      x <- Fail_ (tf_Tenant r) (tf_Project r) (tf_WorkflowId r) (tf_WorkerId r) (tf_Attempt r) errMsg retryable ;;
      let '(accepted, willRetry, err) := x : bool * bool * option coord_err in
      match err with
      | Some ErrNotFound | None => Ret (Ok (accepted, willRetry))
      | Some e => Ret (Err (Internal e))
      end
  end.

Record ExecutionStateMsg := mkState {
  m_Tenant : string; m_Project : string; m_WorkflowId : string; m_TaskType : string; m_Status : string;
  m_Attempt : Z; m_MaxAttempts : Z; m_WorkerId : string; m_Result : bytes; m_Error : string;
  m_SubmittedUnixNano : Z; m_UpdatedUnixNano : Z; m_LeaseDeadlineUnixNano : Z
}.

Definition state_of (x : Execution) : ExecutionStateMsg :=
  mkState (x_Tenant x) (x_Project x) (x_WorkflowID x) (x_TaskType x) (status_string (x_Status x))
    (i32 (x_Attempt x)) (i32 (x_MaxAttempts x)) (x_WorkerID x) (x_Result x) (x_Error x)
    (Time.UnixNano (x_SubmittedAt x)) (Time.UnixNano (x_UpdatedAt x))
    (if Time.IsZero (x_LeaseDeadline x) then 0 else Time.UnixNano (x_LeaseDeadline x)).

(** [None] is [Found: false]. *)
Definition GetExecution (tenant project workflowID : string) : prog (result svc_err (option ExecutionStateMsg)) :=
  match requireIDs tenant project workflowID with
  | Some e => Ret (Err e)
  | None => Do (CGet tenant project workflowID) (fun x => Ret (Ok (state_of <$> x)))
  end.

Record TransitionMsg := mkTransitionMsg {
  tm_EventType : string; tm_Status : string; tm_Attempt : Z; tm_WorkerId : string; tm_Detail : string; tm_AtUnixNano : Z
}.

Definition transition_of (tr : Transition) : TransitionMsg :=
  mkTransitionMsg (tr_EventType tr) (status_string (tr_Status tr)) (i32 (tr_Attempt tr)) (tr_WorkerID tr) (tr_Detail tr)
    (Time.UnixNano (tr_At tr)).

Definition GetExecutionHistory (tenant project workflowID : string) : prog (result svc_err (option (list TransitionMsg))) :=
  match requireIDs tenant project workflowID with
  | Some e => Ret (Err e)
  | None =>
      Do (CGet tenant project workflowID) (fun x => Ret (Ok ((fun x => map transition_of (x_Transitions x)) <$> x)))
  end.

Record ExecutionSummaryMsg := mkSummary {
  u_Tenant : string; u_Project : string; u_WorkflowId : string; u_TaskType : string; u_Status : string;
  u_Attempt : Z; u_UpdatedUnixNano : Z
}.

Definition summary_of (x : Execution) : ExecutionSummaryMsg :=
  mkSummary (x_Tenant x) (x_Project x) (x_WorkflowID x) (x_TaskType x) (status_string (x_Status x)) (i32 (x_Attempt x))
    (Time.UnixNano (x_UpdatedAt x)).

Definition clamp_limit (n : Z) : Z := if (n <=? 0) || (1000 <? n) then 1000 else n.

(** Under the store's lock; [order] is the order in which the map is visited. *)
Definition ListExecutions (status : string) (limit : Z) (order : list string) (s : Store) :
    list ExecutionSummaryMsg * gmap string Z :=
  let (execs, counts) := List_ status (clamp_limit limit) order s in
  (map summary_of execs, list_to_map (map (fun p => (status_string p.1, p.2)) (map_to_list counts))).

(** ** What a handler may answer, whatever the environment does

    [ends Q acked p]: however its commands are answered, [p] ends with an answer that
    [Q] accepts given the events whose publish was acknowledged.  Nothing is assumed of
    the answers, so it also holds between other calls and deliveries. *)

Definition acked (c : cmd) : ans c -> list Event :=
  match c return ans c -> list Event with
  | CPublish e => fun err => match err with None => [e] | Some _ => [] end
  | _ => fun _ => []
  end.

Fixpoint ends {A} (Q : list Event -> A -> Prop) (pre : list Event) (p : prog A) : Prop :=
  match p with
  | Ret a => Q pre a
  | Do c k => forall b, ends Q (pre ++ acked c b) (k b)
  end.

Lemma ends_bind {A B} (p : prog A) (f : A -> prog B) Q pre :
  ends (fun es a => ends Q es (f a)) pre p -> ends Q pre (bind p f).
Proof. revert pre. induction p as [a|c k IH]; intros pre H; simpl in *; [done|]. intros b. by apply IH. Qed.

Lemma ends_mono {A} (Q Q' : list Event -> A -> Prop) p pre :
  (forall es a, Q es a -> Q' es a) -> ends Q pre p -> ends Q' pre p.
Proof. intros HQ. revert pre. induction p as [a|c k IH]; intros pre H; simpl in *; auto. Qed.

Lemma exec_log c o w :
  exists new, log (exec c o w).1 = log w ++ new /\ acked c (exec c o w).2 `sublist_of` new.
Proof.
  assert (forall w', log w' = log w -> exists new, log w' = log w ++ new /\ [] `sublist_of` new) as H0.
  { intros w' ->. exists []. by rewrite app_nil_r. }
  destruct c; cbn [exec acked]; try (apply H0; try done; by repeat case_match).
  destruct (o_pub o) as [|code []]; simpl; eexists; (split; [done || by rewrite app_nil_r|]); [done| |done].
  apply sublist_nil_l.
Qed.

(** A run ends as [ends] says, with the acknowledged events on the log in that order. *)
Lemma ends_run {A} (Q : list Event -> A -> Prop) os p w w' a pre :
  ends Q pre p -> run os p w = Some (w', a) ->
  exists es new, Q (pre ++ es) a /\ log w' = log w ++ new /\ es `sublist_of` new.
Proof.
  revert p w pre. induction os as [|o os IH]; intros [x|c k] w pre HE HR; cbn [run] in HR; simplify_eq.
  1,2: exists [], []; by rewrite !app_nil_r.
  pose proof (exec_log c o w) as (n1 & L1 & S1). destruct (exec c o w) as [w1 b]. cbn [fst snd] in *.
  destruct (IH _ _ _ (HE b) HR) as (es & new & HQ & L2 & S2).
  exists (acked c b ++ es), (n1 ++ new). rewrite !app_assoc. split_and!; [done| |by apply sublist_app].
  by rewrite L2, L1.
Qed.

(** ** Batches *)

Lemma ends_append {A} (Q : list Event -> A -> Prop) pre e (f : option coord_err -> prog A) :
  (forall code, ends Q pre (f (Some (ErrPublish code)))) -> ends Q (pre ++ [e]) (f None) ->
  ends Q pre (bind (append e) f).
Proof.
  intros HE HO. simpl. intros [code|]; simpl; [by rewrite app_nil_r|]. intros _. by rewrite app_nil_r.
Qed.

(** [e] is the submission of a request. *)
Definition submits (c : Coordinator) (req : SubmitRequest) (e : Event) : Prop :=
  exists now, e = submit_envelope c (spec_of req) now.

Lemma SubmitWorkflow_ends c route req pre :
  ends (fun es r => match r with
                    | Ok false => exists e, es = pre ++ [e] /\ submits c req e
                    | _ => es = pre
                    end) pre (SubmitWorkflow c route req).
Proof.
  unfold SubmitWorkflow. destruct (requireIDs _ _ _); [done|]. destruct (String.eqb _ _); [done|].
  destruct (match route with Some r => _ | None => _ end) as [[] hint]; [|done]. simpl.
  intros [x|]; simpl; rewrite app_nil_r; [done|]. intros now. rewrite app_nil_r.
  intros [code|]; simpl; [by rewrite app_nil_r|]. intros _. rewrite app_nil_r. eexists. split; [done|]. by exists now.
Qed.

Lemma i32_add_l a b : i32 (i32 a + b) = i32 (a + b).
Proof.
  unfold wrap_s. change (2 ^ (32 - 1)) with (2 ^ 31). f_equal.
  replace ((a + 2 ^ 31) mod 2 ^ 32 - 2 ^ 31 + b + 2 ^ 31) with ((a + 2 ^ 31) mod 2 ^ 32 + b) by lia.
  rewrite Zplus_mod_idemp_l. f_equal. lia.
Qed.

(** What a batch answers: the requests of a prefix were handled, those of [sub] with an
    acknowledged event each, in their order; a success counts them and the others, from
    the counts [m] and [n], and an error leaves at least one request unhandled. *)
Definition batch_post {R} (event : R -> Event -> Prop) (reqs : list R) (m n : Z) (es : list Event)
    (r : result svc_err (Z * Z)) : Prop :=
  exists taken sub, taken `prefix_of` reqs /\ sub `sublist_of` taken /\ Forall2 event sub es /\
    match r with
    | Ok (a, b) => taken = reqs /\ a = i32 (m + zlen es) /\ b = i32 (n + (zlen reqs - zlen es))
    | Err _ => (length taken < length reqs)%nat
    end.

Section Batch.
Context {R : Type} (event : R -> Event -> Prop).

Lemma batch_nil m n : batch_post event [] m n [] (Ok (i32 m, i32 n)).
Proof. exists [], []. split_and!; try done; f_equal; simpl; lia. Qed.

Lemma batch_err q reqs m n e : batch_post event (q :: reqs) m n [] (Err e).
Proof. exists [], []. split_and!; try done; [apply prefix_nil|simpl; lia]. Qed.

Lemma batch_logged q reqs m n e es r :
  event q e -> batch_post event reqs (m + 1) n es r -> batch_post event (q :: reqs) m n (e :: es) r.
Proof.
  intros He (taken & sub & HP & HS & HF & HR). exists (q :: taken), (q :: sub).
  split_and!; [by apply prefix_cons|by constructor|by constructor|].
  destruct r as [[a b]|]; [|simpl in *; lia]. destruct HR as (-> & -> & ->). rewrite ?length_cons.
  split_and!; [done|apply (f_equal (wrap_s 32)); lia..].
Qed.

Lemma batch_skipped q reqs m n es r :
  batch_post event reqs m (n + 1) es r -> batch_post event (q :: reqs) m n es r.
Proof.
  intros (taken & sub & HP & HS & HF & HR). exists (q :: taken), sub.
  split_and!; [by apply prefix_cons|by constructor|done|].
  destruct r as [[a b]|]; [|simpl in *; lia]. destruct HR as (-> & -> & ->). rewrite ?length_cons.
  split_and!; [done|apply (f_equal (wrap_s 32)); lia..].
Qed.
End Batch.

Lemma submit_all_ends c route reqs m n pre :
  ends (fun es r => exists new, es = pre ++ new /\ batch_post (submits c) reqs m n new r) pre
    (submit_all c route reqs (i32 m) (i32 n)).
Proof.
  revert m n pre. induction reqs as [|q reqs IH]; intros m n pre; cbn [submit_all].
  { exists []. rewrite app_nil_r. split; [done|]. apply batch_nil. }
  apply ends_bind. eapply ends_mono; [|apply SubmitWorkflow_ends]. intros es [[]|e] HE; rewrite ?i32_add_l.
  - subst es. eapply ends_mono; [|apply IH]. intros es r (new & -> & HB). exists new. split; [done|].
    by apply batch_skipped.
  - destruct HE as (e & -> & He). eapply ends_mono; [|apply IH]. intros es r (new & -> & HB).
    exists (e :: new). rewrite <- app_assoc. split; [done|]. by apply batch_logged.
  - exists []. rewrite app_nil_r. split; [done|]. apply batch_err.
Qed.

Definition completes (q : TaskRef * bytes) (e : Event) : Prop :=
  exists now, e = complete_envelope (tf_Tenant q.1) (tf_Project q.1) (tf_WorkflowId q.1) (tf_WorkerId q.1)
                    (tf_Attempt q.1) q.2 now.

Lemma CompleteTask_ends q pre :
  ends (fun es r => match r with
                    | Ok (true, _) => exists e, es = pre ++ [e] /\ completes q e
                    | _ => es = pre
                    end) pre (CompleteTask q.1 q.2).
Proof.
  unfold CompleteTask. destruct (ids_of _); [done|]. simpl. intros [[] dup]; simpl; rewrite app_nil_r; [|done].
  intros now. rewrite app_nil_r. intros [code|]; simpl.
  - rewrite app_nil_r. intros _. by rewrite app_nil_r.
  - intros _. rewrite app_nil_r. eexists. split; [done|]. by exists now.
Qed.

Lemma complete_all_ends reqs m n pre :
  ends (fun es r => exists new, es = pre ++ new /\ batch_post completes reqs m n new r) pre
    (complete_all reqs (i32 m) (i32 n)).
Proof.
  revert m n pre. induction reqs as [|[q res] reqs IH]; intros m n pre; cbn [complete_all].
  { exists []. rewrite app_nil_r. split; [done|]. apply batch_nil. }
  apply ends_bind. eapply ends_mono; [|apply (CompleteTask_ends (q, res))]. intros es [[[] d]|e] HE; rewrite ?i32_add_l.
  - destruct HE as (e & -> & He). eapply ends_mono; [|apply IH]. intros es r (new & -> & HB).
    exists (e :: new). rewrite <- app_assoc. split; [done|]. by apply batch_logged.
  - subst es. eapply ends_mono; [|apply IH]. intros es r (new & -> & HB). exists new. split; [done|].
    by apply batch_skipped.
  - exists []. rewrite app_nil_r. split; [done|]. apply batch_err.
Qed.

(** Batched submissions and completions, however the calls around them interleave: the
    acknowledged events are those of a subsequence of the requests, in request order,
    one each; a success means every request was handled and counts exactly the logged
    ones and the others, and an error stops at a request that is not among them. *)
Theorem batch_counts_logged c route req reqs done_ rest :
  ends (batch_post (submits c) (req :: reqs) 0 0) [] (SubmitWorkflows c route (req :: reqs)) /\
  ends (batch_post completes (done_ :: rest) 0 0) [] (CompleteTasks (done_ :: rest)).
Proof.
  split; [unfold SubmitWorkflows|unfold CompleteTasks]; rewrite decide_False by done.
  - eapply ends_mono; [|apply (submit_all_ends c route (req :: reqs) 0 0 [])]. by intros es r (new & -> & HB).
  - eapply ends_mono; [|apply (complete_all_ends (done_ :: rest) 0 0 [])]. by intros es r (new & -> & HB).
Qed.

(** ** Leases *)

(** A lease and the event that grants it. *)
Definition granted (worker : string) (l : Lease) (e : Event) : Prop :=
  Type_ e = EventLeased /\ Tenant e = l_Tenant l /\ Project e = l_Project l /\ SessionID e = l_WorkflowID l /\
  AgentID e = worker /\ Attempt e = l_Attempt l.

Lemma grant_ends l worker pre :
  ends (fun es r => match r with
                    | Ok lease => exists e, es = pre ++ [e] /\ granted worker lease e
                    | Err _ => es = pre
                    end) pre (grant l worker).
Proof.
  simpl. intros [x|]; simpl; rewrite app_nil_r; [|done]. intros now. rewrite app_nil_r.
  intros [code|]; simpl; [by rewrite app_nil_r|]. intros _. rewrite app_nil_r. intros g. rewrite app_nil_r.
  eexists. split; [done|]. done.
Qed.

(** What [LeaseBatch] answers: at most [max] leases, one acknowledged event each. *)
Definition lease_post (worker : string) (max : Z) (es : list Event) (r : option (result coord_err (list Lease))) : Prop :=
  match r with
  | Some (Ok leases) => zlen leases <= max /\ Forall2 (granted worker) leases es
  | Some (Err _) => es = []
  | None => True
  end.

Lemma lease_loop_ends fuel t worker max deadline out es :
  0 <= max -> zlen out <= max -> Forall2 (granted worker) out es ->
  ends (lease_post worker max) es (lease_loop fuel t worker max deadline out).
Proof.
  intros Hm. revert out es. induction fuel as [|fuel IH]; intros out es Hl HF; cbn [lease_loop]; [done|].
  destruct (Z.leb_spec max (zlen out)); [done|]. intros [l|]; cbn [acked]; rewrite app_nil_r.
  - apply ends_bind. eapply ends_mono; [|apply grant_ends]. intros es' [lease|err] HE.
    + destruct HE as (e & -> & He). apply IH; [rewrite length_app; simpl; lia|].
      apply Forall2_app; [done|]. constructor; [done|constructor].
    + subst es'. simpl. intros _. rewrite app_nil_r. case_decide as Ho; [|done].
      subst out. by inversion HF.
  - case_decide as Ho; [|done]. subst out. inversion HF; subst. simpl. intros wall.
    destruct (Z.leb_spec (deadline - wall) 0); simpl; [done|]. intros ch w. destruct w; simpl; [|done..].
    by apply IH.
Qed.

(** [settles Q n p]: with at most [n] wake-ups among the answers, [p] ends in [Q]. *)
Definition woken (c : cmd) : ans c -> bool :=
  match c return ans c -> bool with
  | CSelect _ => fun w => match w with Woken => true | _ => false end
  | _ => fun _ => false
  end.

Fixpoint settles {A} (Q : A -> Prop) (n : nat) (p : prog A) : Prop :=
  match p with
  | Ret a => Q a
  | Do c k => forall b,
      if woken c b then match n with O => True | S n => settles Q n (k b) end else settles Q n (k b)
  end.

Lemma settles_bind {A B} (p : prog A) (f : A -> prog B) (P : A -> Prop) Q n :
  settles P n p -> (forall a m, P a -> settles Q m (f a)) -> settles Q n (bind p f).
Proof.
  revert n. induction p as [a|c k IH]; intros n H Hf; simpl in *; [by apply Hf|]. intros b.
  specialize (H b). destruct (woken c b); [destruct n|]; [done|by apply IH..].
Qed.

(** Each round of the loop grants a task or is a wake-up, so that with [n] wake-ups [n]
    rounds beyond the tasks asked for are enough. *)
Lemma lease_loop_settles fuel t worker max deadline out n :
  Z.of_nat n + max - zlen out < Z.of_nat fuel -> zlen out <= max ->
  settles (fun r => r <> None) n (lease_loop fuel t worker max deadline out).
Proof.
  revert out n. induction fuel as [|fuel IH]; intros out n Hf Ho; [lia|]. cbn [lease_loop].
  destruct (Z.leb_spec max (zlen out)); [done|]. intros [l|]; cbn [woken].
  - assert (forall g, settles (fun r => r <> None) n
      (match g with
       | Err err => Do (CUnreserve l) (fun _ => Ret (Some (if decide (out = []) then Err err else Ok out)))
       | Ok lease => lease_loop fuel t worker max deadline (out ++ [lease])
       end)) as Hg.
    { intros [lease|err]; [|done]. apply IH; rewrite length_app; simpl; lia. }
    simpl. intros [x|]; simpl; [|apply (Hg (Err ErrNotFound))]. intros now [code|]; simpl; [apply (Hg (Err (ErrPublish code)))|].
    intros _ g. apply (Hg (Ok _)).
  - case_decide; [|done]. simpl. intros wall. destruct (Z.leb_spec (deadline - wall) 0); simpl; [done|].
    intros ch w. destruct w; simpl; [|done..]. destruct n as [|n]; [done|]. apply IH; lia.
Qed.

Lemma clamp_max_spec n : 1 <= clamp_max n <= 256 /\ clamp_max n <= Z.max 1 n.
Proof. unfold clamp_max. destruct (Z.leb_spec n 0); simpl; [lia|]. destruct (Z.ltb_spec 256 n); lia. Qed.

Lemma LeaseTask_settles fuel cancelled req n : Z.of_nat n + 256 < Z.of_nat fuel ->
  settles (fun r => r <> None) n (LeaseTask fuel cancelled req).
Proof.
  intros Hf. pose proof (clamp_max_spec (lr_MaxTasks req)) as Hc. unfold LeaseTask. destruct (_ || _); [done|].
  unfold LeaseBatch. destruct (Z.leb_spec (clamp_max (lr_MaxTasks req)) 0); [lia|]. intros now. cbn [woken].
  eapply settles_bind; [apply lease_loop_settles; rewrite length_nil; lia|]. by intros [[]|] m.
Qed.

(** [LeaseTask], however its commands are answered and with any request: at most the
    requested number of tasks and never more than 256 are granted, each backed by one
    acknowledged lease event of this worker for the same execution and attempt, in the
    order of the answer; the first is repeated in the top-level fields, and the list is
    filled exactly when more than one task was asked for.  An error grants none.  The
    request is answered within 257 rounds beyond the wake-ups of its wait. *)
Theorem lease_answer_is_logged fuel cancelled req n :
  settles (fun r => r <> None) n (LeaseTask (257 + n) cancelled req) /\
  ends (fun es r =>
    match r with
    | Some (Ok resp) =>
        exists leases, resp = lease_response req leases /\ Forall2 (granted (lr_WorkerId req)) leases es /\
          zlen leases <= 256 /\ zlen leases <= Z.max 1 (lr_MaxTasks req) /\
          Found resp = task_of <$> head leases /\ (1 < lr_MaxTasks req -> Tasks resp = map task_of leases) /\
          (lr_MaxTasks req <= 1 -> Tasks resp = [])
    | Some (Err _) => es = []
    | None => True
    end) [] (LeaseTask fuel cancelled req).
Proof.
  split; [apply LeaseTask_settles; lia|]. pose proof (clamp_max_spec (lr_MaxTasks req)) as Hc.
  unfold LeaseTask. destruct (_ || _); [done|].
  unfold LeaseBatch. destruct (Z.leb_spec (clamp_max (lr_MaxTasks req)) 0); [lia|].
  apply ends_bind. intros now. eapply ends_mono; [|apply lease_loop_ends; [lia|simpl; lia|constructor]]. intros es [[leases|err]|]; simpl; try done.
  intros [Hn HF]. exists leases. split_and!; [done|done|lia|lia| | |].
  - by destruct leases.
  - intros Hm. destruct leases; [done|]. unfold lease_response. by rewrite (proj2 (Z.ltb_lt _ _)).
  - intros Hm. destruct leases; [done|]. unfold lease_response. by rewrite (proj2 (Z.ltb_ge _ _)).
Qed.

(** ** The listing *)

Definition matches (status : string) (x : Execution) : Prop := status = "" \/ status_string (x_Status x) = status.

#[global] Instance matches_dec status x : Decision (matches status x).
Proof. unfold matches. apply _. Defined.

Lemma list_loop_spec status limit keys n s : 0 < limit -> n <= limit ->
  list_loop status limit keys n s =
  take (Z.to_nat (limit - n)) (filter (matches status) (omap (fun k => exmap s !! k) keys)).
Proof.
  intros Hl. revert n. induction keys as [|key keys IH]; intros n Hn; simpl; [by destruct (Z.to_nat _)|].
  rewrite exmap_find. destruct (find s key) as [[l x]|]; simpl; [|by apply IH].
  rewrite filter_cons. destruct (decide (matches status x)) as [Hm|Hm].
  - rewrite bool_decide_false by (unfold matches in Hm; tauto). rewrite (proj2 (Z.ltb_lt 0 limit)) by done. simpl.
    destruct (Z.leb_spec limit n).
    + by replace (Z.to_nat (limit - n)) with 0%nat by lia.
    + replace (Z.to_nat (limit - n)) with (S (Z.to_nat (limit - (n + 1)))) by lia. simpl. f_equal. apply IH. lia.
  - rewrite bool_decide_true; [by apply IH|]. unfold matches in Hm.
    destruct (decide (status = "")), (decide (status_string (x_Status x) = status)); tauto.
Qed.

Lemma omap_lookup_perm (m : gmap string Execution) order :
  order ≡ₚ elements (dom m) -> omap (fun k => m !! k) order ≡ₚ (map_to_list m).*2.
Proof.
  intros HP. assert (order ≡ₚ (map_to_list m).*1) as HP'.
  { rewrite HP. apply NoDup_Permutation; [apply NoDup_elements|apply NoDup_fst_map_to_list|]. intros k.
    rewrite elem_of_elements, elem_of_dom, list_elem_of_fmap. split.
    - intros [x Hx]. exists (k, x). by rewrite elem_of_map_to_list.
    - intros ([k' x] & -> & Hx). apply elem_of_map_to_list in Hx. by exists x. }
  rewrite HP'. clear HP HP' order.
  assert (forall l : list (string * Execution), (forall p, p ∈ l -> m !! p.1 = Some p.2) ->
    omap (fun k => m !! k) l.*1 = l.*2) as H.
  { induction l as [|[k x] l IH]; intros Hl; simpl; [done|].
    pose proof (Hl (k, x) ltac:(constructor)) as Hk. cbn in Hk. rewrite Hk. f_equal. apply IH. intros p Hp. apply Hl. by constructor. }
  rewrite H; [done|]. intros [k x] Hp. by apply elem_of_map_to_list in Hp.
Qed.

#[global] Instance status_string_inj : Inj (=) (=) status_string.
Proof. by intros [] []. Qed.

Lemma status_counts_lookup (m : gmap Status Z) st :
  (list_to_map (map (fun p => (status_string p.1, p.2)) (map_to_list m)) : gmap string Z) !! status_string st = m !! st.
Proof.
  change (map (fun p => (status_string p.1, p.2)) (map_to_list m)) with (prod_map status_string id <$> map_to_list m).
  change (_ !! status_string st) with ((kmap status_string m : gmap string Z) !! status_string st). exact (lookup_kmap status_string m st).
Qed.

(** [ListExecutions] after any sequence of store operations, in whatever order the map is
    visited: it lists at most the limit (1000 when it is absent or larger) of the
    executions with the requested status, all of them when they fit, each once; the
    counts are over the whole store and have an entry for exactly the statuses in use. *)
Theorem listing_is_a_page retain ops status limit order :
  let s := run_ops retain ops in
  order ≡ₚ elements (dom (execs s)) ->
  exists all, all ≡ₚ filter (matches status) (map_to_list (exmap s)).*2 /\
    (ListExecutions status limit order s).1 = map summary_of (take (Z.to_nat (clamp_limit limit)) all) /\
    0 < clamp_limit limit <= 1000 /\
    forall st, (ListExecutions status limit order s).2 !! status_string st =
      if decide (nstat st (exmap s) = 0) then None else Some (nstat st (exmap s)).
Proof.
  intros s Ho. pose proof (run_ops_ok retain ops : store_ok s) as Hok.
  assert (0 < clamp_limit limit <= 1000) as Hc.
  { unfold clamp_limit. destruct (Z.leb_spec limit 0), (Z.ltb_spec 1000 limit); simpl; lia. }
  assert (dom (execs s) = dom (exmap s)) as Hd.
  { apply set_eq. intros k. rewrite !elem_of_dom. unfold exmap. rewrite lookup_omap. unfold is_Some.
    destruct (execs s !! k) as [l|] eqn:El; simpl; [|naive_solver].
    destruct (ok_loc _ _ Hok _ _ El) as (x & -> & _). naive_solver. }
  rewrite Hd in Ho. exists (filter (matches status) (omap (fun k => exmap s !! k) order)). split_and!; try lia.
  - by rewrite omap_lookup_perm.
  - unfold ListExecutions, List_. cbn [fst]. rewrite list_loop_spec by lia. by rewrite Z.sub_0_r.
  - intros st. unfold ListExecutions, List_. cbn [snd]. rewrite status_counts_lookup. unfold CountByStatus.
    pose proof (ok_counts _ _ Hok st) as Hn. unfold count_of in Hn. rewrite <- Hn. rewrite map_lookup_filter.
    destruct (counts s !! st) as [z|]; simpl; unfold id; [|done].
    destruct (decide (z = 0)); [rewrite option_guard_False|rewrite option_guard_True]; tauto.
Qed.

Definition demo_ops : list store_op :=
  [OpApply (submit_envelope demo (mkSpec "acme" "research" "run-1" "index" [] 0 0) t0);
   OpApply (submit_envelope demo (mkSpec "acme" "research" "run-2" "index" [] 0 0) t0)].

Lemma listing_is_a_page_witness :
  exists l, (ListExecutions "pending" 1 (elements (dom (execs (run_ops 0 demo_ops)))) (run_ops 0 demo_ops)).1 = [l].
Proof.
  destruct (listing_is_a_page 0 demo_ops "pending" 1 _ ltac:(reflexivity)) as (all & HP & -> & _ & _).
  assert (length all = 2%nat) as HL by (rewrite HP; vm_compute; reflexivity).
  destruct all as [|x all]; [done|]. exists (summary_of x). reflexivity.
Defined.

End Service.
