(* ===== verification/ControlPlane.v ===== *)
(** * The agent control plane (internal/controlplane)

    [Module Control] models the read-side of the agent stream: the registry of
    agents ([registry.go]), the run state of each session ([session.go]), the
    agents' inboxes ([inbox.go]), and [Ingest], which drives all three from one
    event ([controlplane.go]).  It is the consumer of [Poll]'s poller.

    Times are the clock's readings, arguments of the operations; [Ingest] reads the
    clock up to three times.  A channel is a queue with a bound, referred to by its
    position in a list; the metrics sink is three counters.

    The theorems: a session's run state is the fold of that session's own events,
    however sessions are interleaved, so replaying the topic rebuilds it; inboxes
    deliver in order, within their bound; and the registry's idea of liveness. *)

From S2P Require Import Prelude GoLib GoJson GoTime AgentStream Broker EventPoller.
Import Json Envelope.

Module Control.
Local Open Scope Z_scope.

(** ** registry.go *)

Inductive AgentStatus := AgentIdle | EventBusy | AgentOffline.

#[export] Instance agent_status_dec : EqDecision AgentStatus.
Proof. solve_decision. Defined.

Record AgentInfo := mkAgent {
  ID : string; Status : AgentStatus; Capabilities : list string; CurrentSession : string; LastSeen : Z
}.

Record Registry := mkRegistry { agents : gmap string AgentInfo; ttl : Z }.

Definition NewRegistry (ttl : Z) : Registry := mkRegistry ∅ ttl.

Definition set_agent (id : string) (a : AgentInfo) (r : Registry) : Registry :=
  {| r with agents := <[id := a]> (agents r) |}.

(** An agent that is offline comes back as idle. *)
Definition revive (st : AgentStatus) : AgentStatus := match st with AgentOffline => AgentIdle | _ => st end.

(** [caps] is nil when [None]. *)
Definition Register (id : string) (caps : option (list string)) (now : Z) (r : Registry) : Registry :=
  if decide (id = "") then r
  else
    let a := default (mkAgent id AgentIdle [] "" 0) (agents r !! id) in
    let a := match caps with Some cs => {| a with Capabilities := cs |} | None => a end in
    set_agent id {| a with Status := revive (Status a); LastSeen := now |} r.

Definition Heartbeat (id : string) (now : Z) (r : Registry) : bool * Registry :=
  match agents r !! id with
  | None => (false, r)
  | Some a => (true, set_agent id {| a with LastSeen := now; Status := revive (Status a) |} r)
  end.

Definition Touch (id session : string) (now : Z) (r : Registry) : Registry :=
  if decide (id = "") then r
  else
    let a := default (mkAgent id AgentIdle [] "" 0) (agents r !! id) in
    set_agent id {| a with Status := EventBusy; CurrentSession := session; LastSeen := now |} r.

Definition Deregister (id : string) (r : Registry) : Registry := {| r with agents := delete id (agents r) |}.

Definition Get (id : string) (r : Registry) : option AgentInfo := agents r !! id.

Definition List_ (r : Registry) : list AgentInfo :=
  omap (fun id => agents r !! id) (sort_strings (elements (dom (agents r)))).

Definition sweep_agent (cutoff : Z) (a : AgentInfo) : AgentInfo :=
  if bool_decide (Status a <> AgentOffline) && (LastSeen a <? cutoff) then {| a with Status := AgentOffline |} else a.

Definition SweepStale (now : Z) (r : Registry) : Registry :=
  {| r with agents := sweep_agent (now - ttl r) <$> agents r |}.

Definition ActiveCount (r : Registry) : Z :=
  Z.of_nat (size (filter (fun ia => Status ia.2 <> AgentOffline) (agents r))).

(** ** session.go *)

Inductive RunStatus := StatusRunning | StatusWaiting | StatusFailed | StatusCompleted.

#[export] Instance run_status_dec : EqDecision RunStatus.
Proof. solve_decision. Defined.

Record RunState := mkRun {
  r_SessionKey : string; ActiveAgent : string; PendingAgent : string; StepCount : Z; r_Status : RunStatus;
  LastEventAt : Z
}.

Abbreviation SessionStore := (gmap string RunState).

Definition eventHandoff : string := "handoff".
Definition eventError : string := "error".
Definition eventComplete : string := "complete".
Definition eventEscalation : string := "escalation".

Definition key_of (e : Event) : string := SessionKey (Tenant e) (Project e) (SessionID e).

(** Handoff pickup: any event from the pending agent claims the active role. *)
Definition pickup (e : Event) (rs : RunState) : RunState :=
  if negb (String.eqb (PendingAgent rs) "") && String.eqb (AgentID e) (PendingAgent rs)
  then {| rs with ActiveAgent := AgentID e; PendingAgent := ""; r_Status := StatusRunning |} else rs.

(** The switch of [Apply]. *)
Definition apply_type (e : Event) (toAgent : string) (rs : RunState) : RunState :=
  if String.eqb (Type_ e) eventHandoff then
    let rs := if String.eqb toAgent "" then rs
              else {| rs with PendingAgent := toAgent; r_Status := StatusWaiting |} in
    {| rs with StepCount := StepCount rs + 1 |}
  else if String.eqb (Type_ e) eventError then
    {| rs with r_Status := StatusFailed; StepCount := StepCount rs + 1 |}
  else if String.eqb (Type_ e) eventComplete then
    {| rs with r_Status := StatusCompleted; StepCount := StepCount rs + 1 |}
  else
    let rs := match r_Status rs with
              | StatusFailed | StatusCompleted => rs
              | _ => {| rs with r_Status := StatusRunning |}
              end in
    {| rs with ActiveAgent := if String.eqb (ActiveAgent rs) "" then AgentID e else ActiveAgent rs;
               StepCount := StepCount rs + 1 |}.

Definition Apply (now : Z) (e : Event) (toAgent : string) (s : SessionStore) : SessionStore :=
  let k := key_of e in
  if decide (k = "//") then s
  else
    let rs := default (mkRun k (AgentID e) "" 0 StatusRunning 0) (s !! k) in
    <[k := apply_type e toAgent (pickup e {| rs with LastEventAt := now |})]> s.

Definition Escalate (sessionKey toAgent : string) (now : Z) (s : SessionStore) : SessionStore :=
  match s !! sessionKey with
  | None => s
  | Some rs =>
      <[sessionKey := {| rs with PendingAgent := toAgent; r_Status := StatusWaiting; LastEventAt := now |}]> s
  end.

Definition ListSessions (s : SessionStore) : list RunState :=
  omap (fun k => s !! k) (sort_strings (elements (dom s))).

Definition CountByStatus (st : RunStatus) (s : SessionStore) : Z :=
  Z.of_nat (size (filter (fun kr => r_Status kr.2 = st) s)).

(** ** inbox.go *)

Record RoutedEvent := mkRouted { re_SessionKey : string; re_Type : string; re_Payload : bytes }.

Record chan := mkChan { q : list RoutedEvent; ch_closed : bool }.

Record Inboxes := mkInboxes { boxes : gmap string nat; chans : list chan; ib_size : Z }.

Definition NewInboxes (size : Z) : Inboxes := mkInboxes ∅ [] (if size <=? 0 then 1 else size).

Definition Open (agentID : string) (ib : Inboxes) : nat * Inboxes :=
  match boxes ib !! agentID with
  | Some c => (c, ib)
  | None =>
      let c := length (chans ib) in
      (c, {| ib with boxes := <[agentID := c]> (boxes ib); chans := chans ib ++ [mkChan [] false] |})
  end.

(** The non-blocking send; a send on a closed channel panics ([None]). *)
Definition send (c : nat) (ev : RoutedEvent) (ib : Inboxes) : option (bool * Inboxes) :=
  ch ← chans ib !! c;
  if ch_closed ch then None
  else if zlen (q ch) <? ib_size ib
  then Some (true, {| ib with chans := <[c := {| ch with q := q ch ++ [ev] |}]> (chans ib) |})
  else Some (false, ib).

Definition Deliver (agentID : string) (ev : RoutedEvent) (ib : Inboxes) : option (bool * Inboxes) :=
  match boxes ib !! agentID with
  | None => Some (false, ib)
  | Some c => send c ev ib
  end.

(** A receive that does not block: an event, or the end of a closed channel. *)
Definition receive (c : nat) (ib : Inboxes) : option (option RoutedEvent * Inboxes) :=
  ch ← chans ib !! c;
  match q ch with
  | ev :: r => Some (Some ev, {| ib with chans := <[c := {| ch with q := r |}]> (chans ib) |})
  | [] => if ch_closed ch then Some (None, ib) else None
  end.

Definition Close (agentID : string) (ib : Inboxes) : Inboxes :=
  match boxes ib !! agentID with
  | None => ib
  | Some c =>
      {| ib with boxes := delete agentID (boxes ib);
                 chans := alter (fun ch => {| ch with ch_closed := true |}) c (chans ib) |}
  end.

(** ** controlplane.go *)

Record ControlPlane := mkCP {
  reg : Registry; sessions : SessionStore; inboxes : Inboxes; escalationAgent : string;
  routed : Z; unrouted : Z; escalations : Z
}.

Definition defaultAgentTTL : Z := 30 * 10 ^ 9.
Definition defaultInboxSize : Z := 256.

(** [New] with the options the broker sets. *)
Definition New (agent_ttl inbox_size : Z) (escalation : string) : ControlPlane :=
  mkCP (NewRegistry agent_ttl) ∅ (NewInboxes inbox_size) escalation 0 0 0.

Definition set_handoff (key raw : bytes) (v : json) (to_agent : string) : option string :=
  if field_is "to_agent" key then dec_string v to_agent else Some to_agent.

Definition parseToAgent (payload : bytes) : string := default "" (unmarshal set_handoff ""%string payload).

Definition payload_of (e : Event) : bytes := default [] (Payload e).

Definition escalation_payload (e : Event) : bytes :=
  bs_of "{" ++ [ch 34] ++ bs_of "reason" ++ [ch 34] ++ bs_of ":" ++ [ch 34] ++ bs_of "terminal error" ++ [ch 34] ++
  bs_of "," ++ [ch 34] ++ bs_of "from_agent" ++ [ch 34] ++ bs_of ":" ++ [ch 34] ++ bs_of (AgentID e) ++ [ch 34] ++ bs_of "}".

Definition escalate (now : Z) (e : Event) (cp : ControlPlane) : option ControlPlane :=
  let key := key_of e in
  let ev := mkRouted key eventEscalation (escalation_payload e) in
  let ss := Escalate key (escalationAgent cp) now (sessions cp) in
  '(_, ib) ← Deliver (escalationAgent cp) ev (inboxes cp);
  Some {| cp with sessions := ss; inboxes := ib; escalations := escalations cp + 1 |}.

(** The handoff target an event names. *)
Definition target_of (e : Event) : string :=
  if String.eqb (Type_ e) eventHandoff then parseToAgent (payload_of e) else "".

Definition route_handoff (e : Event) (cp : ControlPlane) : option ControlPlane :=
  if String.eqb (Type_ e) eventHandoff && negb (String.eqb (target_of e) "") then
    '(ok, ib) ← Deliver (target_of e) (mkRouted (key_of e) (Type_ e) (payload_of e)) (inboxes cp);
    Some {| cp with inboxes := ib; routed := routed cp + (if ok : bool then 1 else 0);
                    unrouted := unrouted cp + (if ok : bool then 0 else 1) |}
  else Some cp.

(** [Ingest]; [clock] gives its readings of the clock. *)
Definition Ingest (clock : nat -> Z) (e : Event) (cp : ControlPlane) : option ControlPlane :=
  let cp := {| cp with reg := Touch (AgentID e) (key_of e) (clock 0%nat) (reg cp);
                       sessions := Apply (clock 1%nat) e (target_of e) (sessions cp) |} in
  cp ← route_handoff e cp;
  if String.eqb (Type_ e) eventError && negb (String.eqb (escalationAgent cp) "") &&
     negb (String.eqb (escalationAgent cp) (AgentID e))
  then escalate (clock 2%nat) e cp else Some cp.

Definition OpenInbox (id : string) (now : Z) (cp : ControlPlane) : nat * ControlPlane :=
  let '(c, ib) := Open id (inboxes cp) in
  (c, {| cp with reg := Register id None now (reg cp); inboxes := ib |}).

Definition GetSession (tenant project session : string) (cp : ControlPlane) : option RunState :=
  sessions cp !! SessionKey tenant project session.

(** [Sweep] without the gauges. *)
Definition Sweep (now : Z) (cp : ControlPlane) : ControlPlane := {| cp with reg := SweepStale now (reg cp) |}.

(** ** Inboxes *)

Definition inboxes_ok (ib : Inboxes) : Prop :=
  0 < ib_size ib /\
  (forall id c, boxes ib !! id = Some c -> exists ch, chans ib !! c = Some ch /\ ch_closed ch = false) /\
  (forall id id' c, boxes ib !! id = Some c -> boxes ib !! id' = Some c -> id = id') /\
  (forall c ch, chans ib !! c = Some ch -> zlen (q ch) <= ib_size ib).

Lemma NewInboxes_ok n : inboxes_ok (NewInboxes n).
Proof.
  unfold NewInboxes. split_and!; cbn [boxes chans ib_size].
  - destruct (n <=? 0) eqn:E; go_bool; lia.
  - intros id c H. by rewrite lookup_empty in H.
  - intros id id' c H. by rewrite lookup_empty in H.
  - intros c ch H. by destruct c.
Qed.

(** The queue of an agent, if its inbox is open. *)
Definition queue (ib : Inboxes) (id : string) : option (list RoutedEvent) :=
  c ← boxes ib !! id; ch ← chans ib !! c; Some (q ch).

Lemma queue_open ib id c ch : boxes ib !! id = Some c -> chans ib !! c = Some ch -> queue ib id = Some (q ch).
Proof. intros Hc Hch. unfold queue. rewrite Hc. cbn. by rewrite Hch. Qed.

(** Replacing the queue of an open channel. *)
Lemma set_queue ib id c ch l :
  inboxes_ok ib -> boxes ib !! id = Some c -> chans ib !! c = Some ch -> ch_closed ch = false -> zlen l <= ib_size ib ->
  let ib' := {| ib with chans := <[c := {| ch with q := l |}]> (chans ib) |} in
  inboxes_ok ib' /\ forall id', queue ib' id' = if decide (id' = id) then Some l else queue ib id'.
Proof.
  intros (H1 & H2 & H3 & H4) Hc Hch Hcl Hl ib'. pose proof (lookup_lt_Some _ _ _ Hch) as Hlt.
  assert (forall j, chans ib' !! j = if decide (j = c) then Some {| ch with q := l |} else chans ib !! j) as Hj.
  { intros j. subst ib'. cbn [chans]. case_decide as E; [subst j; by apply list_lookup_insert_eq|].
    by apply list_lookup_insert_ne. }
  split; [split_and!; [done| |done|]|].
  - intros id' c' Hc'. rewrite Hj. case_decide as E; [|by apply (H2 id')]. eexists. split; [done|]. by cbn.
  - intros j ch' Hj'. rewrite Hj in Hj'. case_decide; [by simplify_eq|]. by apply (H4 j).
  - intros id'. unfold queue. subst ib'. cbn [boxes]. fold (chans ib) in Hj. destruct (boxes ib !! id') as [c'|] eqn:Ec'.
    + cbn [mbind option_bind]. cbn [chans] in Hj. rewrite Hj. destruct (decide (id' = id)) as [->|Hne].
      * simplify_eq. by rewrite decide_True.
      * rewrite decide_False; [done|]. intros ->. by apply Hne, (H3 id' id c).
    + cbn [mbind option_bind]. rewrite decide_False by congruence. done.
Qed.

Lemma Deliver_spec id ev ib :
  inboxes_ok ib ->
  exists ok ib', Deliver id ev ib = Some (ok, ib') /\ inboxes_ok ib' /\ ib_size ib' = ib_size ib /\
    ok = match queue ib id with Some l => zlen l <? ib_size ib | None => false end /\
    forall id', queue ib' id' = if decide (id' = id /\ ok = true) then (fun l => l ++ [ev]) <$> queue ib id' else queue ib id'.
Proof.
  intros Hok. unfold Deliver. destruct (boxes ib !! id) as [c|] eqn:Ec.
  - destruct Hok as (H1 & H2 & H3 & H4). destruct (H2 id c Ec) as (ch & Hch & Hcl).
    rewrite (queue_open ib id c ch Ec Hch). unfold send. rewrite Hch. cbn [mbind option_bind]. rewrite Hcl.
    destruct (zlen (q ch) <? ib_size ib) eqn:E.
    + destruct (set_queue ib id c ch (q ch ++ [ev])) as [Hok' Hq]; [by split_and!|done|done|done|go_bool; rewrite length_app; cbn; lia|].
      rewrite Hcl in Hok', Hq. eexists true, _. split_and!; [done|exact Hok'|done|done|]. intros id'. rewrite Hq.
      destruct (decide (id' = id)) as [->|Hne].
      * rewrite decide_True by done. by rewrite (queue_open ib id c ch Ec Hch).
      * by rewrite decide_False by tauto.
    + exists false, ib. split; [done|]. split; [by split_and!|]. split_and!; [done..|]. intros id'. by rewrite decide_False by naive_solver.
  - assert (queue ib id = None) as E by (unfold queue; by rewrite Ec). rewrite E.
    eexists false, ib. split_and!; try done. intros id'. by rewrite decide_False by naive_solver.
Qed.

Lemma receive_spec id c l ib :
  inboxes_ok ib -> boxes ib !! id = Some c -> queue ib id = Some l ->
  match l with
  | [] => receive c ib = None
  | ev :: r => exists ib', receive c ib = Some (Some ev, ib') /\ inboxes_ok ib' /\
      forall id', queue ib' id' = if decide (id' = id) then Some r else queue ib id'
  end.
Proof.
  intros Hok Ec Hq. destruct Hok as (H1 & H2 & H3 & H4). destruct (H2 id c Ec) as (ch & Hch & Hcl).
  rewrite (queue_open ib id c ch Ec Hch) in Hq. injection Hq as <-. unfold receive. rewrite Hch. cbn [mbind option_bind].
  destruct (q ch) as [|ev r] eqn:Eq; [by rewrite Hcl|].
  destruct (set_queue ib id c ch r) as [Hok' Hq']; [by split_and!|done|done|done|specialize (H4 c ch Hch); rewrite Eq in H4; cbn in H4; lia|].
  eexists. split; [done|]. done.
Qed.

Lemma Open_spec id ib :
  inboxes_ok ib ->
  inboxes_ok (Open id ib).2 /\ boxes (Open id ib).2 !! id = Some (Open id ib).1 /\
  forall id', queue (Open id ib).2 id' = if decide (id' = id) then Some (default [] (queue ib id)) else queue ib id'.
Proof.
  intros Hok. pose proof Hok as (H1 & H2 & H3 & H4). unfold Open. destruct (boxes ib !! id) as [c|] eqn:Ec; cbn [fst snd].
  - split_and!; [done|done|]. intros id'. case_decide as E; [|done]. subst id'. destruct (H2 id c Ec) as (ch & Hch & _).
    by rewrite (queue_open ib id c ch Ec Hch).
  - assert (forall j ch, (chans ib ++ [mkChan [] false]) !! j = Some ch ->
      chans ib !! j = Some ch \/ (j = length (chans ib) /\ ch = mkChan [] false)) as Hj.
    { intros j ch [?|[? E]]%lookup_app_Some; [by left|]. right. apply list_lookup_singleton_Some in E as [? <-]. split; [lia|done]. }
    assert (forall id' c, boxes ib !! id' = Some c -> (c < length (chans ib))%nat) as Hb.
    { intros id' c Hc. destruct (H2 id' c Hc) as (ch & Hch & _). by eapply lookup_lt_Some. }
    split_and!; cbn [boxes chans ib_size]; [split_and!|by rewrite lookup_insert_eq|].
    + done.
    + intros id' c. cbn [boxes chans]. rewrite lookup_insert_Some. intros [[<- <-]|[Hne Hc]].
      * exists (mkChan [] false). rewrite lookup_app_r, Nat.sub_diag by lia. done.
      * destruct (H2 id' c Hc) as (ch & Hch & Hcl). exists ch. split; [by apply lookup_app_l_Some|done].
    + intros a b c. cbn [boxes]. rewrite !lookup_insert_Some. intros [[<- <-]|[Ha Hca]] [[<- Hcb]|[Hb' Hcb]]; try done.
      * apply Hb in Hcb. lia.
      * subst c. apply Hb in Hca. lia.
      * by eapply H3.
    + intros j ch. cbn [chans ib_size]. intros [?|[_ ->]]%Hj; [by apply (H4 j)|cbn; lia].
    + intros id'. unfold queue. cbn [boxes chans]. case_decide as E.
      * subst id'. rewrite lookup_insert_eq. cbn [mbind option_bind]. rewrite lookup_app_r, Nat.sub_diag by lia. cbn. by rewrite Ec.
      * rewrite lookup_insert_ne by done. destruct (boxes ib !! id') as [c|] eqn:Ec'; [|done]. cbn [mbind option_bind].
        rewrite lookup_app_l by (by eapply Hb). done.
Qed.

(** Opens, deliveries and receives in any order; a receive that would block has no
    effect. *)
Inductive inbox_op := IOpen (id : string) | IDeliver (id : string) (ev : RoutedEvent) | IReceive (id : string).
Inductive inbox_obs := Accepted (id : string) (ev : RoutedEvent) | Received (id : string) (ev : RoutedEvent).

Definition inbox_step (o : inbox_op) (ib : Inboxes) : option (list inbox_obs * Inboxes) :=
  match o with
  | IOpen id => Some ([], (Open id ib).2)
  | IDeliver id ev => '(ok, ib) ← Deliver id ev ib; Some (if ok : bool then [Accepted id ev] else [], ib)
  | IReceive id =>
      match boxes ib !! id with
      | None => Some ([], ib)
      | Some c => match receive c ib with Some (Some ev, ib) => Some ([Received id ev], ib) | _ => Some ([], ib) end
      end
  end.

Fixpoint inbox_run (os : list inbox_op) (ib : Inboxes) : option (list inbox_obs * Inboxes) :=
  match os with
  | [] => Some ([], ib)
  | o :: os => '(l, ib) ← inbox_step o ib; '(l', ib) ← inbox_run os ib; Some (l ++ l', ib)
  end.

Definition accepted (id : string) (l : list inbox_obs) : list RoutedEvent :=
  omap (fun x => match x with Accepted i ev => if decide (i = id) then Some ev else None | _ => None end) l.
Definition received (id : string) (l : list inbox_obs) : list RoutedEvent :=
  omap (fun x => match x with Received i ev => if decide (i = id) then Some ev else None | _ => None end) l.

(** What one step does to one agent's queue. *)
Definition waiting (ib : Inboxes) (id : string) : list RoutedEvent := default [] (queue ib id).

Lemma inbox_step_spec o ib :
  inboxes_ok ib ->
  exists l ib', inbox_step o ib = Some (l, ib') /\ inboxes_ok ib' /\
    forall id, waiting ib id ++ accepted id l = received id l ++ waiting ib' id.
Proof.
  intros Hok. unfold waiting. destruct o as [id|id ev|id]; cbn [inbox_step].
  - destruct (Open_spec id ib Hok) as (O1 & _ & O3). eexists _, _. split_and!; [done|done|]. intros id'. cbn. rewrite app_nil_r, O3.
    case_decide as E; [by subst|done].
  - destruct (Deliver_spec id ev ib Hok) as (ok & ib' & -> & D1 & _ & D2 & D3). cbn [mbind option_bind].
    eexists _, _. split_and!; [done|done|]. intros id'. rewrite D3. destruct ok.
    + destruct (decide (id = id')) as [<-|Hne].
      * rewrite decide_True by done. cbn. rewrite decide_True by done. destruct (queue ib id); [done|]. done.
      * rewrite (decide_False (P := id' = id /\ _)) by naive_solver. cbn. rewrite decide_False by done. by rewrite app_nil_r.
    + rewrite decide_False by naive_solver. cbn. by rewrite app_nil_r.
  - destruct (boxes ib !! id) as [c|] eqn:Ec.
    2:{ eexists _, _. split_and!; [done|done|]. intros id'. cbn. by rewrite app_nil_r. }
    pose proof Hok as (_ & H2 & _). destruct (H2 id c Ec) as (ch & Hch & _).
    pose proof (receive_spec id c (q ch) ib Hok Ec (queue_open ib id c ch Ec Hch)) as HR.
    destruct (q ch) as [|ev r] eqn:Eq.
    + rewrite HR. eexists _, _. split_and!; [done|done|]. intros id'. cbn. by rewrite app_nil_r.
    + destruct HR as (ib' & -> & R1 & R2). eexists _, _. split_and!; [done|done|]. intros id'. rewrite R2. cbn.
      destruct (decide (id' = id)) as [->|Hne].
      * rewrite decide_True by done. cbn. rewrite app_nil_r, (queue_open ib id c ch Ec Hch). cbn. by rewrite Eq.
      * rewrite decide_False by done. cbn. by rewrite app_nil_r.
Qed.

Lemma inbox_step_size o ib l ib' : inbox_step o ib = Some (l, ib') -> ib_size ib' = ib_size ib.
Proof.
  intros E. destruct o as [id|id ev|id]; cbn [inbox_step] in E.
  - injection E as _ <-. unfold Open. by destruct (boxes ib !! id).
  - unfold Deliver, send in E. destruct (boxes ib !! id) as [c|]; [|by simplify_eq/=].
    destruct (chans ib !! c) as [ch|]; [|done]. cbn [mbind option_bind] in E. destruct (ch_closed ch); [done|].
    destruct (_ <? _); cbn [mbind option_bind] in E; by simplify_eq/=.
  - destruct (boxes ib !! id) as [c|]; [|by simplify_eq/=]. unfold receive in E.
    destruct (chans ib !! c) as [ch|]; [|by simplify_eq/=]. cbn [mbind option_bind] in E.
    destruct (q ch); [destruct (ch_closed ch)|]; by simplify_eq/=.
Qed.

(** Inboxes deliver in order and within their bound.  Over any sequence of
    opens, deliveries and receives no send hits a closed channel, what an agent has
    received followed by what waits in its inbox is what was accepted for it, in
    order, and no inbox holds more than its size. *)
Theorem inbox_fifo n os :
  exists l ib, inbox_run os (NewInboxes n) = Some (l, ib) /\
    forall id, accepted id l = received id l ++ waiting ib id /\ zlen (waiting ib id) <= Z.max 1 n.
Proof.
  assert (forall ib, inboxes_ok ib -> exists l ib', inbox_run os ib = Some (l, ib') /\ inboxes_ok ib' /\ ib_size ib' = ib_size ib /\
    forall id, waiting ib id ++ accepted id l = received id l ++ waiting ib' id) as H.
  { induction os as [|o os IH]; intros ib Hok; cbn [inbox_run].
    { eexists _, _. split_and!; try done. intros id. cbn. by rewrite app_nil_r. }
    destruct (inbox_step_spec o ib Hok) as (l1 & ib1 & E1 & Hok1 & W1). rewrite E1. cbn [mbind option_bind].
    destruct (IH ib1 Hok1) as (l2 & ib2 & -> & Hok2 & Hs2 & W2). cbn [mbind option_bind]. eexists _, _. split_and!; [done|done| |].
    - rewrite Hs2. by eapply inbox_step_size.
    - intros id. unfold accepted, received in *. rewrite !omap_app, app_assoc, W1, <- app_assoc, W2. by rewrite app_assoc. }
  destruct (H (NewInboxes n) (NewInboxes_ok n)) as (l & ib & E & Hok & Hs & W). exists l, ib. split; [done|]. intros id.
  split; [by rewrite <- W|]. destruct Hok as (H1 & H2 & _ & H4). unfold waiting, queue.
  assert (ib_size ib <= Z.max 1 n) by (rewrite Hs; unfold NewInboxes; cbn [ib_size]; destruct (n <=? 0) eqn:En; go_bool; lia).
  destruct (boxes ib !! id) as [c|] eqn:Ec; [|cbn; lia]. destruct (H2 id c Ec) as (ch & Hch & _). cbn [mbind option_bind].
  rewrite Hch. cbn. specialize (H4 c ch Hch). lia.
Qed.

(** ** A session's run is the fold of its own events *)

(** The run state without the time of its last event. *)
Definition untimed (rs : RunState) : RunState := {| rs with LastEventAt := 0 |}.

(** The reference: one event of the session, escalation included. *)
Definition session_step (escalation : string) (o : option RunState) (e : Event) : option RunState :=
  let rs := default (mkRun (key_of e) (AgentID e) "" 0 StatusRunning 0) o in
  let rs := apply_type e (target_of e) (pickup e rs) in
  Some (if String.eqb (Type_ e) eventError && negb (String.eqb escalation "") && negb (String.eqb escalation (AgentID e))
        then {| rs with PendingAgent := escalation; r_Status := StatusWaiting |} else rs).

Definition session_run (escalation : string) (es : list Event) : option RunState :=
  foldl (session_step escalation) None es.

Lemma pickup_untimed e rs now : untimed (pickup e {| rs with LastEventAt := now |}) = pickup e (untimed rs).
Proof. unfold pickup, untimed. cbn [PendingAgent AgentID]. by destruct (_ && _). Qed.

Lemma apply_type_untimed e t rs : untimed (apply_type e t rs) = apply_type e t (untimed rs).
Proof.
  unfold apply_type. destruct (String.eqb (Type_ e) eventHandoff); [by destruct (String.eqb t "")|].
  destruct (String.eqb (Type_ e) eventError); [done|]. destruct (String.eqb (Type_ e) eventComplete); [done|].
  unfold untimed. by destruct rs as [? ? ? ? [] ?].
Qed.

Lemma Apply_lookup now e t ss k : k <> "//" ->
  untimed <$> Apply now e t ss !! k =
  if decide (key_of e = k)
  then Some (apply_type e t (pickup e (default (mkRun k (AgentID e) "" 0 StatusRunning 0) (untimed <$> ss !! k))))
  else untimed <$> ss !! k.
Proof.
  intros Hk. unfold Apply. destruct (decide (key_of e = k)) as [E|E].
  - rewrite E, decide_False, lookup_insert_eq by done. cbn [fmap option_fmap option_map]. f_equal.
    rewrite apply_type_untimed, pickup_untimed. do 2 f_equal. by destruct (ss !! k).
  - case_decide; [done|]. by rewrite lookup_insert_ne.
Qed.

Lemma Escalate_lookup key t now ss k :
  untimed <$> Escalate key t now ss !! k =
  if decide (key = k) then (fun rs => {| rs with PendingAgent := t; r_Status := StatusWaiting |}) <$> (untimed <$> ss !! k)
  else untimed <$> ss !! k.
Proof.
  unfold Escalate. destruct (decide (key = k)) as [<-|E].
  - destruct (ss !! key) eqn:Es; [by rewrite lookup_insert_eq|by rewrite Es].
  - destruct (ss !! key) eqn:Es; [by rewrite lookup_insert_ne|done].
Qed.

Lemma Ingest_spec clock e cp :
  inboxes_ok (inboxes cp) ->
  exists cp', Ingest clock e cp = Some cp' /\ inboxes_ok (inboxes cp') /\ escalationAgent cp' = escalationAgent cp /\
    forall k, k <> "//" ->
      untimed <$> sessions cp' !! k =
      if decide (key_of e = k) then session_step (escalationAgent cp) (untimed <$> sessions cp !! k) e
      else untimed <$> sessions cp !! k.
Proof.
  intros Hok. unfold Ingest. set (cp1 := mkCP _ _ _ _ _ _ _).
  assert (exists cp2, route_handoff e cp1 = Some cp2 /\ inboxes_ok (inboxes cp2) /\ sessions cp2 = sessions cp1 /\
    escalationAgent cp2 = escalationAgent cp) as (cp2 & -> & Hok2 & Hs2 & He2).
  { unfold route_handoff. destruct (_ && _); [|by exists cp1].
    destruct (Deliver_spec (target_of e) (mkRouted (key_of e) (Type_ e) (payload_of e)) (inboxes cp1) Hok) as (ok & ib & -> & D1 & _).
    eexists. split; [done|]. done. }
  cbn [mbind option_bind]. rewrite He2. unfold session_step.
  destruct (String.eqb (Type_ e) eventError && negb (String.eqb (escalationAgent cp) "") &&
            negb (String.eqb (escalationAgent cp) (AgentID e))) eqn:Eg.
  - unfold escalate. destruct (Deliver_spec (escalationAgent cp2) (mkRouted (key_of e) eventEscalation (escalation_payload e))
      (inboxes cp2) Hok2) as (ok & ib & -> & D1 & _). cbn [mbind option_bind]. eexists. split_and!; [done|done|done|].
    intros k Hk. cbn [sessions]. rewrite Escalate_lookup, Hs2, He2. subst cp1. cbn [sessions]. rewrite Apply_lookup by done.
    destruct (decide (key_of e = k)) as [<-|]; done.
  - eexists. split_and!; [done|done|done|]. intros k Hk. rewrite Hs2. subst cp1. cbn [sessions]. rewrite Apply_lookup by done.
    destruct (decide (key_of e = k)) as [<-|]; done.
Qed.

(** ** The poller's consumer

    The control plane with the number of events ingested, which picks the clock's
    readings. *)

Definition consume (clocks : nat -> nat -> Z) (e : Event) (s : nat * ControlPlane) : nat * ControlPlane :=
  (S s.1, default s.2 (Ingest (clocks s.1) e s.2)).

Lemma consume_all_spec clocks trace n cp k :
  inboxes_ok (inboxes cp) -> k <> "//" ->
  let s' := Poll.ingest_all (consume clocks) trace (n, cp) in
  untimed <$> sessions s'.2 !! k =
  foldl (session_step (escalationAgent cp)) (untimed <$> sessions cp !! k) (filter (fun e => key_of e = k) (map snd trace)).
Proof.
  intros Hok Hk. revert n cp Hok. induction trace as [|[i e] trace IH]; intros n cp Hok; [done|].
  unfold Poll.ingest_all. cbn [foldl snd]. destruct (Ingest_spec (clocks n) e cp Hok) as (cp' & E & Hok' & He & HS).
  unfold consume at 2. cbn [fst snd]. rewrite E. cbn [default]. unfold id.
  specialize (IH (S n) cp' Hok'). unfold Poll.ingest_all in IH. cbn zeta in IH. rewrite IH, He, (HS k Hk).
  cbn [map snd]. rewrite filter_cons. by case_decide.
Qed.

(** Events of one session that are all in one partition. *)
Lemma filter_one_part (trace : list (nat * Event)) i k :
  (forall j e, (j, e) ∈ trace -> key_of e = k -> j = i) ->
  filter (fun e => key_of e = k) (map snd trace) = filter (fun e => key_of e = k) (Poll.of_part i trace).
Proof.
  unfold Poll.of_part. induction trace as [|[j e] trace IH]; intros H; [done|]. cbn [map snd]. rewrite !filter_cons. cbn [fst].
  rewrite IH by (intros j' e' Hin; apply H; by right). destruct (decide (key_of e = k)) as [Hk|Hk].
  - rewrite decide_True by (eapply H; [by left|done]). cbn [map snd]. by rewrite filter_cons, decide_True.
  - case_decide; [|done]. cbn [map snd]. by rewrite filter_cons, decide_False.
Qed.

Lemma of_part_elem i e trace : e ∈ Poll.of_part i trace <-> (i, e) ∈ trace.
Proof.
  unfold Poll.of_part. rewrite list_elem_of_fmap. split.
  - intros ([j e'] & -> & [Hj Hin]%list_elem_of_filter). cbn in *. by subst.
  - intros H. exists (i, e). split; [done|]. by apply list_elem_of_filter.
Qed.

(** C32. Replaying the topic rebuilds every session's run.  A control plane is
    started on a broker after any operations that leave at most 2^20 messages in each
    partition of the topic, so that no ring has dropped one (counts of messages asked for are
    in range, as in the broker's refinement), and its poller makes enough passes; then
    the run state of a session whose events are in one partition (they are
    published under the session's key) is what the state machine makes of that
    partition's events of the session, in order.  The session's key is not that of a session
    without tenant, project and name.  It does not depend on the other
    sessions, the other partitions, the order in which partitions are visited or
    the clock. *)
Theorem control_plane_rebuilds clocks agent_ttl size esc bt t os rs0 a b ls k i log key :
  Forall Bus.op_ok os -> Bus.run_all Bus.log_op os Bus.empty_logs = Some (rs0, a) ->
  Bus.run_all Bus.run_op os Bus.New = Some (rs0, b) ->
  zlen os < 2 ^ 62 -> 0 < bt < 2 ^ 62 -> Bus.l_topics a !! t = Some ls ->
  Forall (fun log => zlen log <= Bus.defaultCapacity /\ zlen log <= Z.of_nat k * bt) ls.1 ->
  ls.1 !! i = Some log -> key <> "//" ->
  (forall j log', ls.1 !! j = Some log' -> j <> i -> Forall (fun e => key_of e <> key) (Poll.events log')) ->
  exists b' p' n cp',
    Poll.passes (consume clocks) k (Poll.NewPoller bt t b).2 (Poll.NewPoller bt t b).1 (O, New agent_ttl size esc) =
      Some (b', p', (n, cp')) /\
    untimed <$> sessions cp' !! key = session_run esc (filter (fun e => key_of e = key) (Poll.events log)).
Proof.
  intros Hos Hl Hr Hlt Hb Hls Hcap Hi Hkey Hone.
  destruct (Poll.passes_reach_end (consume clocks) (O, New agent_ttl size esc) bt t os rs0 a b ls k Hos Hl Hr Hlt Hb Hls Hcap)
    as (b' & p' & [n cp'] & trace & E & Hs & Hpart & Ht).
  exists b', p', n, cp'. split; [exact E|]. change cp' with (n, cp').2. rewrite Hs.
  rewrite (consume_all_spec clocks trace O (New agent_ttl size esc) key (NewInboxes_ok size) Hkey).
  rewrite (filter_one_part trace i key); [by destruct (Ht i log Hi) as [_ ->]|].
  intros j e Hin He. destruct (decide (j = i)) as [|Hne]; [done|]. exfalso.
  apply of_part_elem in Hin. destruct (ls.1 !! j) as [log'|] eqn:Hj.
  - destruct (Ht j log' Hj) as [_ Ej]. rewrite Ej in Hin. pose proof (Hone j log' Hj Hne) as HF.
    rewrite list.Forall_forall in HF. by apply (HF e).
  - apply lookup_ge_None in Hj. rewrite list.Forall_forall in Hpart. apply of_part_elem in Hin.
    specialize (Hpart (j, e) Hin). cbn in Hpart. lia.
Qed.

Example control_plane_rebuilds_witness :
  exists b' p' n cp',
    Poll.passes (consume (fun _ _ => 7)) 2 (Poll.NewPoller 1 "agent-events" Poll.demo_broker).2
      (Poll.NewPoller 1 "agent-events" Poll.demo_broker).1 (O, New 30 4 "boss") = Some (b', p', (n, cp')) /\
    untimed <$> sessions cp' !! "acme/research/run-1"%string =
      session_run "boss" (filter (fun e => key_of e = "acme/research/run-1"%string) (Poll.events [(1, Poll.hello); (2, [Byte.x00])])).
Proof.
  apply (control_plane_rebuilds (fun _ _ => 7) 30 4 "boss" 1 "agent-events" Poll.demo_ops Poll.demo_resps Poll.demo_logs
    Poll.demo_broker ([[(1, Poll.hello); (2, [Byte.x00])]; []; []], 0) 2 0 [(1, Poll.hello); (2, [Byte.x00])]
    "acme/research/run-1");
    [by repeat constructor|vm_compute; reflexivity|vm_compute; reflexivity|vm_compute; reflexivity|done|vm_compute; reflexivity
    |repeat constructor; cbn; unfold Bus.defaultCapacity; lia|reflexivity|done|].
  intros [|[|[|j]]] log' Hj Hne; cbn in Hj; simplify_eq; constructor.
Defined.

(** The run that this rebuilds: one step, still running. *)
Example rebuilt_run :
  session_run "boss" (Poll.events [(1, Poll.hello)]) = Some (mkRun "acme/research/run-1" "w<1>" "" 1 StatusRunning 0).
Proof. vm_compute. reflexivity. Qed.

(** ** Handoffs *)

Definition ordinary (e : Event) : Prop :=
  Type_ e <> eventHandoff /\ Type_ e <> eventError /\ Type_ e <> eventComplete.

Lemma apply_ordinary e t rs : ordinary e ->
  apply_type e t rs =
  {| rs with r_Status := match r_Status rs with StatusFailed => StatusFailed | StatusCompleted => StatusCompleted | _ => StatusRunning end;
             ActiveAgent := if String.eqb (ActiveAgent rs) "" then AgentID e else ActiveAgent rs;
             StepCount := StepCount rs + 1 |}.
Proof.
  intros (H1 & H2 & H3). unfold apply_type.
  rewrite (proj2 (String.eqb_neq _ _) H1), (proj2 (String.eqb_neq _ _) H2), (proj2 (String.eqb_neq _ _) H3).
  by destruct rs as [? ? ? ? [] ?].
Qed.

(** A handoff moves a run to its target.  After a handoff naming [b] the run
    waits on [b]; the first ordinary event of [b] makes [b] the active agent and
    the run running.  An ordinary event of any other agent also shows the run as
    running, although it is still waiting for [b]. *)
Theorem handoff_lifecycle esc rs h e b :
  Type_ h = eventHandoff -> target_of h = b -> b <> "" -> ordinary e ->
  let o := session_step esc (Some rs) h in
  option_map (fun r => (PendingAgent r, r_Status r, StepCount r)) o = Some (b, StatusWaiting, StepCount rs + 1) /\
  option_map (fun r => (ActiveAgent r, PendingAgent r, r_Status r, StepCount r)) (session_step esc o e) =
    Some (if decide (AgentID e = b) then (b, ""%string, StatusRunning, StepCount rs + 2)
          else (if String.eqb (ActiveAgent (pickup h rs)) "" then AgentID e else ActiveAgent (pickup h rs),
                b, StatusRunning, StepCount rs + 2)).
Proof.
  intros Ht Hb Hne He o.
  assert (StepCount (pickup h rs) = StepCount rs) as Hsc by (unfold pickup; by destruct (_ && _)).
  assert (exists r1, o = Some {| r1 with PendingAgent := b; r_Status := StatusWaiting; StepCount := StepCount rs + 1 |} /\
    ActiveAgent r1 = ActiveAgent (pickup h rs)) as (r1 & -> & <-).
  { exists (pickup h rs). split; [|done]. subst o. unfold session_step. cbn [default]. unfold id. rewrite Hb.
    unfold apply_type. rewrite Ht. cbn [String.eqb]. rewrite (proj2 (String.eqb_neq b "") Hne). cbn -[Z.add]. by rewrite Hsc. }
  split; [done|]. unfold session_step. cbn [default]. unfold id. pose proof He as (_ & H2 & _).
  rewrite (proj2 (String.eqb_neq _ _) H2). cbn [andb]. rewrite apply_ordinary by done. unfold pickup. cbn [PendingAgent].
  rewrite (proj2 (String.eqb_neq b "") Hne). cbn [negb andb].
  replace (StepCount rs + 2) with (StepCount rs + 1 + 1) by lia. destruct (decide (AgentID e = b)) as [->|Hn].
  - rewrite String.eqb_refl. cbn -[Z.add]. by rewrite (proj2 (String.eqb_neq b "") Hne).
  - by rewrite (proj2 (String.eqb_neq _ _) Hn).
Qed.

Definition demo_event (typ agent : string) (payload : bytes) : Event :=
  mkEvent "v1" typ "acme" "research" "run-1" agent "" 0 "" (Some payload).

Definition demo_handoff : Event := demo_event "handoff" "planner" (enc_object [("to_agent"%string, enc_string "coder")]).

Example handoff_lifecycle_witness :
  let o := session_step "" (Some (mkRun "acme/research/run-1" "planner" "" 3 StatusRunning 0)) demo_handoff in
  option_map (fun r => (PendingAgent r, r_Status r, StepCount r)) o = Some ("coder"%string, StatusWaiting, 4) /\
  option_map (fun r => (ActiveAgent r, PendingAgent r, r_Status r, StepCount r))
    (session_step "" o (demo_event "tool_call" "planner" [])) = Some ("planner"%string, "coder"%string, StatusRunning, 5).
Proof.
  apply (handoff_lifecycle "" (mkRun "acme/research/run-1" "planner" "" 3 StatusRunning 0) demo_handoff
    (demo_event "tool_call" "planner" []) "coder"); [reflexivity|vm_compute; reflexivity|done|done].
Defined.

(** ** The registry *)

Definition registry_ok (r : Registry) : Prop := map_Forall (fun id a => ID a = id /\ id <> ""%string) (agents r).

Lemma set_agent_ok id a r : ID a = id -> id <> "" -> registry_ok r -> registry_ok (set_agent id a r).
Proof. intros H1 H2 Hr. by apply map_Forall_insert_2. Qed.

Lemma agent_default_ID id r : registry_ok r -> ID (default (mkAgent id AgentIdle [] "" 0) (agents r !! id)) = id.
Proof. intros Hr. destruct (agents r !! id) eqn:E; [|done]. by apply Hr in E as [? _]. Qed.

Lemma Register_ok id caps now r : registry_ok r -> registry_ok (Register id caps now r).
Proof.
  intros Hr. unfold Register. case_decide; [done|]. apply set_agent_ok; [|done|done].
  destruct caps; by apply agent_default_ID.
Qed.

Lemma Heartbeat_ok id now r : registry_ok r -> registry_ok (Heartbeat id now r).2.
Proof.
  intros Hr. unfold Heartbeat. destruct (agents r !! id) eqn:E; [|done]. pose proof (Hr _ _ E) as [? ?]. by apply set_agent_ok.
Qed.

Lemma Touch_ok id session now r : registry_ok r -> registry_ok (Touch id session now r).
Proof. intros Hr. unfold Touch. case_decide; [done|]. apply set_agent_ok; [by apply agent_default_ID|done|done]. Qed.

Lemma Deregister_ok id r : registry_ok r -> registry_ok (Deregister id r).
Proof. intros Hr. by apply map_Forall_delete. Qed.

Lemma SweepStale_ok now r : registry_ok r -> registry_ok (SweepStale now r).
Proof.
  intros Hr id a. cbn [SweepStale agents]. rewrite lookup_fmap_Some. intros (a0 & <- & E). apply Hr in E.
  unfold sweep_agent. by destruct (_ && _).
Qed.

Inductive registry_reach (ttl : Z) : Registry -> Prop :=
| rr_new : registry_reach ttl (NewRegistry ttl)
| rr_register id caps now r : registry_reach ttl r -> registry_reach ttl (Register id caps now r)
| rr_heartbeat id now r : registry_reach ttl r -> registry_reach ttl (Heartbeat id now r).2
| rr_touch id s now r : registry_reach ttl r -> registry_reach ttl (Touch id s now r)
| rr_deregister id r : registry_reach ttl r -> registry_reach ttl (Deregister id r)
| rr_sweep now r : registry_reach ttl r -> registry_reach ttl (SweepStale now r).

Lemma registry_reach_ok t r : registry_reach t r -> registry_ok r /\ ttl r = t.
Proof.
  induction 1 as [|id caps now r _ [IH E]|id now r _ [IH E]|id s now r _ [IH E]|id r _ [IH E]|now r _ [IH E]].
  - split; [apply map_Forall_empty|done].
  - split; [by apply Register_ok|]. unfold Register. by case_decide.
  - split; [by apply Heartbeat_ok|]. unfold Heartbeat. by destruct (agents r !! id).
  - split; [by apply Touch_ok|]. unfold Touch. by case_decide.
  - split; [by apply Deregister_ok|done].
  - split; [by apply SweepStale_ok|done].
Qed.

(** The registry lists who was seen.  After any operations every entry is under
    its own, non-empty id; after a sweep an agent is active only if it was seen
    within the time to live, an agent seen since then is left as it was, and a
    heartbeat of a known agent makes it active again. *)
Theorem registry_tracks_liveness t r now :
  registry_reach t r ->
  (forall id a, Get id (SweepStale now r) = Some a -> ID a = id /\ id <> ""%string /\
     (Status a <> AgentOffline -> now - t <= LastSeen a) /\
     (now - t <= LastSeen a -> Get id r = Some a)) /\
  (forall id later, is_Some (Get id r) ->
     exists a, (Heartbeat id later r).1 = true /\ Get id (Heartbeat id later r).2 = Some a /\
       Status a <> AgentOffline /\ LastSeen a = later).
Proof.
  intros Hr. destruct (registry_reach_ok t r Hr) as [Hok <-]. split.
  - intros id a Ha. pose proof (SweepStale_ok now r Hok id a Ha) as [? ?]. split_and!; [done|done|..];
      unfold Get, SweepStale in Ha; cbn [agents] in Ha; apply lookup_fmap_Some in Ha as (a0 & <- & E); unfold sweep_agent;
      destruct (bool_decide (Status a0 <> AgentOffline) && (LastSeen a0 <? now - ttl r)) eqn:Eg; cbn [Status LastSeen]; go_bool.
    + done.
    + intros Hs. destruct Eg as [Eg|Eg]; [|go_bool; lia]. by apply bool_decide_eq_false in Eg.
    + intros Hs. lia.
    + intros _. exact E.
  - intros id later [a E]. unfold Heartbeat, Get in *. rewrite E. cbn [fst snd set_agent agents]. eexists.
    split; [done|]. rewrite lookup_insert_eq. split; [done|]. cbn. by destruct (Status a).
Qed.

Example registry_tracks_liveness_witness :
  let r := Register "coder" None 5 (NewRegistry 10) in
  (forall id a, Get id (SweepStale 100 r) = Some a -> ID a = id /\ id <> ""%string /\
     (Status a <> AgentOffline -> 100 - 10 <= LastSeen a) /\ (100 - 10 <= LastSeen a -> Get id r = Some a)) /\
  (forall id later, is_Some (Get id r) ->
     exists a, (Heartbeat id later r).1 = true /\ Get id (Heartbeat id later r).2 = Some a /\
       Status a <> AgentOffline /\ LastSeen a = later).
Proof. apply (registry_tracks_liveness 10 (Register "coder" None 5 (NewRegistry 10)) 100). apply rr_register, rr_new. Defined.

(** ** Escalations *)

(** The payload of an escalation is built without escaping: an agent id with a
    quotation mark makes it invalid JSON. *)
Lemma escalation_payload_unescaped :
  valid (escalation_payload (demo_event "error" "coder" [])) = true /\
  valid (escalation_payload (demo_event "error" (str_of [ch 34]) [])) = false.
Proof. split; vm_compute; reflexivity. Qed.

End Control.
