(* ===== verification/Telemetry.v ===== *)
(** * Metrics (internal/metrics/metrics.go) and the gauges published from the state

    The Prometheus client is not part of the sources: a vector of gauges and a vector of
    counters are the classes [GaugeVec] and [CounterVec], with what the documentation says
    of them (a series per label values, set or incremented on its own).  [Module Meter]
    has every method of [Metrics], and the code that publishes state into it: the
    workflow coordinator's [PublishGauges] and the control plane's [Sweep].  The theorems
    compare the published gauges with the state they report. *)

From S2P Require Import Prelude GoFloat AgentStream WfState WfStore ControlPlane.
Import Float Envelope.

Module Meter.
Local Open Scope Z_scope.

(** A vector of gauges: the series of the given label values, absent before its first use. *)
Class GaugeVec (G : Type) := {
  g_empty : G;
  g_get : list string -> G -> option float64;
  g_set : list string -> float64 -> G -> G;
  g_get_empty : forall k, g_get k g_empty = None;
  g_get_set : forall k v g, g_get k (g_set k v g) = Some v;
  g_get_set_ne : forall k k' v g, k <> k' -> g_get k' (g_set k v g) = g_get k' g;
}.

(** A vector of counters; a series counts from zero. *)
Class CounterVec (C : Type) := {
  c_empty : C;
  c_get : list string -> C -> Z;
  c_add : list string -> Z -> C -> C;
  c_get_empty : forall k, c_get k c_empty = 0;
  c_get_add : forall k n c, c_get k (c_add k n c) = c_get k c + n;
  c_get_add_ne : forall k k' n c, k <> k' -> c_get k' (c_add k n c) = c_get k' c;
}.

#[global, program] Instance gmap_gauges : GaugeVec (gmap (list string) float64) := {|
  g_empty := ∅;
  g_get k g := g !! k;
  g_set k v g := <[k := v]> g;
|}.
Next Obligation. done. Qed.
Next Obligation. intros. simpl. by rewrite lookup_insert_eq. Qed.
Next Obligation. intros. simpl. by rewrite lookup_insert_ne. Qed.

#[global, program] Instance gmap_counters : CounterVec (gmap (list string) Z) := {|
  c_empty := ∅;
  c_get k c := default 0 (c !! k);
  c_add k n c := <[k := default 0 (c !! k) + n]> c;
|}.
Next Obligation. done. Qed.
Next Obligation. intros. simpl. by rewrite lookup_insert_eq. Qed.
Next Obligation. intros. simpl. by rewrite lookup_insert_ne. Qed.

Inductive kind := KCounter | KGauge | KHistogram.
Record desc := mkDesc { d_kind : kind; d_name : string; d_labels : list string }.

(** The metrics in the order [MustRegister] gets them. *)
Definition descs : list desc :=
  [mkDesc KCounter "goqueue_messages_published_total" [];
   mkDesc KCounter "goqueue_messages_consumed_total" [];
   mkDesc KGauge "goqueue_consumer_lag" ["topic"; "group"];
   mkDesc KHistogram "goqueue_publish_latency_seconds" [];
   mkDesc KCounter "goqueue_agent_events_published_total" ["topic"; "event_type"];
   mkDesc KCounter "goqueue_agent_event_retries_total" ["topic"; "event_type"];
   mkDesc KCounter "goqueue_agent_event_dlq_total" ["topic"; "event_type"];
   mkDesc KCounter "goqueue_agent_events_throttled_total" [];
   mkDesc KGauge "goqueue_raft_role" ["node_id"; "role"];
   mkDesc KGauge "goqueue_raft_term" ["node_id"];
   mkDesc KGauge "goqueue_raft_leader" ["node_id"; "leader_id"];
   mkDesc KCounter "goqueue_raft_leader_changes_total" ["node_id"];
   mkDesc KGauge "goqueue_partition_fill_pct" ["topic"; "partition"];
   mkDesc KGauge "goqueue_partition_evictions_total" ["topic"; "partition"];
   mkDesc KGauge "goqueue_cp_active_agents" [];
   mkDesc KGauge "goqueue_cp_sessions" ["status"];
   mkDesc KCounter "goqueue_cp_handoffs_routed_total" [];
   mkDesc KCounter "goqueue_cp_handoffs_unrouted_total" [];
   mkDesc KCounter "goqueue_cp_escalations_total" [];
   mkDesc KCounter "goqueue_wf_events_total" ["event_type"];
   mkDesc KGauge "goqueue_wf_executions" ["status"];
   mkDesc KCounter "goqueue_wf_leases_granted_total" [];
   mkDesc KCounter "goqueue_wf_leases_expired_total" [];
   mkDesc KCounter "goqueue_wf_retries_total" [];
   mkDesc KCounter "goqueue_wf_completions_rejected_total" []]%string.

(** [MustRegister]: a name that the registry has already is a panic. *)
Fixpoint MustRegister (ds : list desc) (reg : gset string) : option (gset string) :=
  match ds with
  | [] => Some reg
  | d :: ds => if decide (d_name d ∈ reg) then None else MustRegister ds ({[d_name d]} ∪ reg)
  end.

Section Instruments.
Context {G C : Type} `{!GaugeVec G} `{!CounterVec C}.

(** The histogram [PublishLatency] is observed and never read; it is left out.  A plain
    gauge or counter is a vector without labels. *)
Record Metrics := mkMetrics {
  PublishedTotal : C;
  ConsumedTotal : C;
  ConsumerLag : G;
  AgentEventsTotal : C;
  AgentRetriesTotal : C;
  AgentDLQTotal : C;
  AgentThrottledTotal : C;
  RaftRole : G;
  RaftTerm : G;
  RaftLeader : G;
  RaftLeaderChanges : C;
  PartitionFillPct : G;
  PartitionEvictions : G;
  CPActiveAgents : G;
  CPSessions : G;
  CPHandoffsRouted : C;
  CPHandoffsUnrouted : C;
  CPEscalations : C;
  WFEventsTotal : C;
  WFExecutions : G;
  WFLeasesGranted : C;
  WFLeasesExpired : C;
  WFRetries : C;
  WFCompletionsRejected : C;
}.

Definition no_series : Metrics :=
  mkMetrics c_empty c_empty g_empty c_empty c_empty c_empty c_empty g_empty g_empty g_empty c_empty g_empty g_empty
    g_empty g_empty c_empty c_empty c_empty c_empty g_empty c_empty c_empty c_empty c_empty.

Definition New (reg : gset string) : option (Metrics * gset string) :=
  reg ← MustRegister descs reg; Some (no_series, reg).

Definition inc (k : list string) (c : C) : C := c_add k 1 c.

(** ** Control plane *)

Definition SetActiveAgents (n : Z) (m : Metrics) : Metrics :=
  {| m with CPActiveAgents := g_set [] (of_int n) (CPActiveAgents m) |}.
Definition SetSessions (status : string) (n : Z) (m : Metrics) : Metrics :=
  {| m with CPSessions := g_set [status] (of_int n) (CPSessions m) |}.
Definition IncHandoffRouted (m : Metrics) : Metrics := {| m with CPHandoffsRouted := inc [] (CPHandoffsRouted m) |}.
Definition IncHandoffUnrouted (m : Metrics) : Metrics := {| m with CPHandoffsUnrouted := inc [] (CPHandoffsUnrouted m) |}.
Definition IncEscalation (m : Metrics) : Metrics := {| m with CPEscalations := inc [] (CPEscalations m) |}.

(** ** Workflow runtime *)

Definition IncWorkflowEvent (evType : string) (m : Metrics) : Metrics :=
  {| m with WFEventsTotal := inc [evType] (WFEventsTotal m) |}.
Definition SetWorkflowExecutions (status : string) (n : Z) (m : Metrics) : Metrics :=
  {| m with WFExecutions := g_set [status] (of_int n) (WFExecutions m) |}.
Definition IncWorkflowLeaseGranted (m : Metrics) : Metrics := {| m with WFLeasesGranted := inc [] (WFLeasesGranted m) |}.
Definition IncWorkflowLeaseExpired (m : Metrics) : Metrics := {| m with WFLeasesExpired := inc [] (WFLeasesExpired m) |}.
Definition IncWorkflowRetry (m : Metrics) : Metrics := {| m with WFRetries := inc [] (WFRetries m) |}.
Definition IncWorkflowCompletionRejected (m : Metrics) : Metrics :=
  {| m with WFCompletionsRejected := inc [] (WFCompletionsRejected m) |}.

(** ** Raft state *)

Definition roles : list string := ["leader"; "follower"; "candidate"; "standalone"]%string.

Definition set_role (nodeID role r : string) (g : G) : G :=
  g_set [nodeID; r] (if String.eqb r role then of_int 1 else of_int 0) g.

Definition SetRaftState (nodeID role leaderID : string) (term : Z) (m : Metrics) : Metrics :=
  {| m with RaftRole := fold_left (fun g r => set_role nodeID role r g) roles (RaftRole m);
            RaftTerm := g_set [nodeID] (of_int term) (RaftTerm m);
            RaftLeader := g_set [nodeID; leaderID] (of_int 1) (RaftLeader m) |}.

Definition IncRaftLeaderChange (nodeID : string) (m : Metrics) : Metrics :=
  {| m with RaftLeaderChanges := inc [nodeID] (RaftLeaderChanges m) |}.

(** ** Partitions and agent events *)

Definition SetPartitionFillPct (topic partition : string) (pct : float64) (m : Metrics) : Metrics :=
  {| m with PartitionFillPct := g_set [topic; partition] pct (PartitionFillPct m) |}.
Definition SetPartitionEvictions (topic partition : string) (n : float64) (m : Metrics) : Metrics :=
  {| m with PartitionEvictions := g_set [topic; partition] n (PartitionEvictions m) |}.

Definition IncAgentEvent (topic eventType : string) (m : Metrics) : Metrics :=
  {| m with AgentEventsTotal := inc [topic; eventType] (AgentEventsTotal m) |}.
Definition IncAgentRetry (topic eventType : string) (m : Metrics) : Metrics :=
  {| m with AgentRetriesTotal := inc [topic; eventType] (AgentRetriesTotal m) |}.
Definition IncAgentDLQ (topic eventType : string) (m : Metrics) : Metrics :=
  {| m with AgentDLQTotal := inc [topic; eventType] (AgentDLQTotal m) |}.
Definition IncAgentThrottled (m : Metrics) : Metrics := {| m with AgentThrottledTotal := inc [] (AgentThrottledTotal m) |}.

Definition ObserveAgentPayload (topic : string) (payload : bytes) (m : Metrics) : Metrics :=
  match ParseEvent payload with
  | None => m
  | Some ev =>
      let m := IncAgentEvent topic (Type_ ev) m in
      let m := if 1 <? Attempt ev then IncAgentRetry topic (Type_ ev) m else m in
      if IsDLQTopic topic then IncAgentDLQ topic (Type_ ev) m else m
  end.

(** ** What the components publish *)

(** [Coordinator.PublishGauges]. *)
Definition PublishGauges (s : Executions.Store) (m : Metrics) : Metrics :=
  let counts := Executions.CountByStatus s in
  fold_left (fun m st => SetWorkflowExecutions (Executions.status_string st) (default 0 (counts !! st)) m)
    [Workflow.StatusPending; Workflow.StatusRunning; Workflow.StatusRetrying; Workflow.StatusCompleted; Workflow.StatusFailed] m.

(** [RunStatus] as the string it is. *)
Definition run_status (st : Control.RunStatus) : string :=
  match st with
  | Control.StatusRunning => "running"
  | Control.StatusWaiting => "waiting"
  | Control.StatusFailed => "failed"
  | Control.StatusCompleted => "completed"
  end.

(** [ControlPlane.Sweep] with its gauges; [order] is the order in which the map of counts
    yields the statuses that some session has. *)
Definition Sweep (now : Z) (order : list Control.RunStatus) (cp : Control.ControlPlane) (m : Metrics) :
    Control.ControlPlane * Metrics :=
  let cp := Control.Sweep now cp in
  let m := SetActiveAgents (Control.ActiveCount (Control.reg cp)) m in
  (cp, fold_left (fun m st => SetSessions (run_status st) (Control.CountByStatus st (Control.sessions cp)) m) order m).

(** [CountByStatus] of session.go makes an entry per status it meets. *)
Definition counted_statuses (cp : Control.ControlPlane) (order : list Control.RunStatus) : Prop :=
  NoDup order /\ forall st, st ∈ order <-> 0 < Control.CountByStatus st (Control.sessions cp).
End Instruments.

Section Theorems.
Context {G C : Type} `{!GaugeVec G} `{!CounterVec C}.
Implicit Types (m : @Metrics G C) (g : G).

(** Setting a list of distinct series leaves each with its own value and the rest alone. *)
Lemma get_set_all {A} (key : A -> list string) (val : A -> float64) (l : list A) g k :
  NoDup (map key l) ->
  g_get k (fold_left (fun g a => g_set (key a) (val a) g) l g) =
  match list_find (fun a => key a = k) l with
  | Some (_, a) => Some (val a)
  | None => g_get k g
  end.
Proof.
  revert g. induction l as [|a l IH]; intros g Hnd; [done|]. cbn [map] in Hnd. apply list.NoDup_cons in Hnd as [Hni Hnd].
  cbn [fold_left list_find]. rewrite IH by done. destruct (decide (key a = k)) as [<-|Hne].
  - destruct (list_find _ l) as [[i b]|] eqn:E; [|by rewrite g_get_set].
    exfalso. apply list_find_Some in E as (Hb & Hk & _). apply Hni. rewrite <- Hk. apply list_elem_of_fmap.
    exists b. split; [done|]. by eapply list_elem_of_lookup_2.
  - destruct (list_find _ l) as [[i b]|]; [done|]. simpl. by rewrite g_get_set_ne.
Qed.

Lemma status_string_inj st st' : Executions.status_string st = Executions.status_string st' -> st = st'.
Proof. by destruct st, st'. Qed.

Lemma run_status_inj st st' : run_status st = run_status st' -> st = st'.
Proof. by destruct st, st'. Qed.

(** A fold of gauge updates of the metrics is a fold over the one vector. *)
Lemma set_executions_fold (f : Workflow.Status -> Z) l m :
  WFExecutions (fold_left (fun m st => SetWorkflowExecutions (Executions.status_string st) (f st) m) l m) =
  fold_left (fun g st => g_set [Executions.status_string st] (of_int (f st)) g) l (WFExecutions m).
Proof. revert m. induction l as [|st l IH]; intros m; [done|]. simpl. by rewrite IH. Qed.

Lemma set_sessions_fold (f : Control.RunStatus -> Z) l m :
  CPSessions (fold_left (fun m st => SetSessions (run_status st) (f st) m) l m) =
  fold_left (fun g st => g_set [run_status st] (of_int (f st)) g) l (CPSessions m).
Proof. revert m. induction l as [|st l IH]; intros m; [done|]. simpl. by rewrite IH. Qed.

Lemma NoDup_status_keys l : NoDup l -> NoDup (map (fun st => [run_status st]) l).
Proof. intros. apply NoDup_fmap_2_strong; [|done]. intros x y _ _ [= E]. by apply run_status_inj. Qed.

Lemma wf_gauges s m st : Executions.store_ok s ->
  g_get [Executions.status_string st] (WFExecutions (PublishGauges s m)) =
  Some (of_int (Executions.nstat st (Executions.exmap s))).
Proof.
  intros Hok. unfold PublishGauges. rewrite set_executions_fold.
  assert (forall st, default 0 (Executions.CountByStatus s !! st) = Executions.nstat st (Executions.exmap s)) as Hc.
  { intros st'. rewrite <- (Executions.ok_counts _ _ Hok st'). unfold Executions.CountByStatus, Executions.count_of.
    destruct (Executions.counts s !! st') as [n|] eqn:E.
    - destruct (decide (n = 0)) as [->|Hn].
      + rewrite (proj2 (map_lookup_filter_None _ _ _)); [done|]. right. intros ? [= <-]%(eq_trans (eq_sym E)). simpl. lia.
      + rewrite (proj2 (map_lookup_filter_Some _ _ _ n)); [done|]. split; [done|]. simpl. lia.
    - rewrite (proj2 (map_lookup_filter_None _ _ _)); [done|]. by left. }
  rewrite get_set_all.
  - rewrite <- Hc. destruct st; reflexivity.
  - apply (bool_decide_unpack _). vm_compute. done.
Qed.

Lemma session_gauges_run now order cp m st :
  counted_statuses (Control.Sweep now cp) order ->
  let n := Control.CountByStatus st (Control.sessions cp) in
  g_get [run_status st] (CPSessions (Sweep now order cp m).2) =
  if decide (0 < n) then Some (of_int n) else g_get [run_status st] (CPSessions m).
Proof.
  intros [Hnd Hin] n. unfold Sweep. cbn [snd]. rewrite set_sessions_fold, get_set_all by by apply NoDup_status_keys.
  specialize (Hin st). change (Control.sessions (Control.Sweep now cp)) with (Control.sessions cp) in *. fold n in Hin.
  destruct (list_find _ order) as [[i st']|] eqn:E.
  - apply list_find_Some in E as (Hi & [= Hst%run_status_inj] & _). subst st'. rewrite decide_True; [done|].
    apply Hin. by eapply list_elem_of_lookup_2.
  - rewrite decide_False; [done|]. intros Hpos%Hin. apply list_find_None in E.
    rewrite list.Forall_forall in E. by apply (E st Hpos).
Qed.
End Theorems.

Section Claims.
Context {G C : Type} `{!GaugeVec G} `{!CounterVec C}.

(** The workflow gauges are exact: after [PublishGauges] the gauge of every status is the
    number of executions the store holds with that status, whatever it showed before. *)
Theorem workflow_gauges_exact retain ops (m : @Metrics G C) st :
  let s := Executions.run_ops retain ops in
  g_get [Executions.status_string st] (WFExecutions (PublishGauges s m)) =
  Some (of_int (Executions.nstat st (Executions.exmap s))).
Proof. intros s. apply wf_gauges, Executions.run_ops_ok. Qed.

(** The session gauges are not: [Sweep] sets the gauges of the statuses that some session
    has, and no other.  When the last session of a status leaves it between two sweeps, the
    gauge keeps showing the sessions that are gone. *)
Theorem session_gauge_goes_stale now1 now2 order1 order2 cp1 cp2 (m : @Metrics G C) st :
  counted_statuses (Control.Sweep now1 cp1) order1 -> counted_statuses (Control.Sweep now2 cp2) order2 ->
  0 < Control.CountByStatus st (Control.sessions cp1) -> Control.CountByStatus st (Control.sessions cp2) = 0 ->
  g_get [run_status st] (CPSessions (Sweep now2 order2 cp2 (Sweep now1 order1 cp1 m).2).2) =
  Some (of_int (Control.CountByStatus st (Control.sessions cp1))).
Proof.
  intros H1 H2 Hpos Hzero. rewrite session_gauges_run by done. rewrite decide_False by lia.
  rewrite session_gauges_run by done. by rewrite decide_True.
Qed.

Lemma role_keys n : NoDup (map (fun r => [n; r]) roles).
Proof. apply NoDup_fmap_2_strong; [|apply (bool_decide_unpack _); vm_compute; done]. by intros x y _ _ [= E]. Qed.

(** Raft state: the role is one-hot over the four roles and the term is the current one;
    but the leader's gauge is only ever set to one, so after a change of leader the old and
    the new leader are both reported. *)
Theorem raft_gauges (m : @Metrics G C) n role1 role2 l1 l2 t1 t2 r :
  l1 <> l2 -> r ∈ roles ->
  let m' := SetRaftState n role2 l2 t2 (SetRaftState n role1 l1 t1 m) in
  g_get [n; r] (RaftRole m') = Some (if String.eqb r role2 then of_int 1 else of_int 0) /\
  g_get [n] (RaftTerm m') = Some (of_int t2) /\
  g_get [n; l2] (RaftLeader m') = Some (of_int 1) /\ g_get [n; l1] (RaftLeader m') = Some (of_int 1).
Proof.
  intros Hl Hr m'. split; [|split; [|split]].
  - unfold m', SetRaftState. cbn [RaftRole]. unfold set_role at 1.
    rewrite (get_set_all (fun r => [n; r]) _ roles) by apply role_keys.
    destruct (list_find _ roles) as [[i r']|] eqn:E.
    + by apply list_find_Some in E as (_ & [= ->] & _).
    + apply list_find_None in E. rewrite list.Forall_forall in E. by destruct (E r Hr).
  - apply g_get_set.
  - apply g_get_set.
  - unfold m', SetRaftState. cbn [RaftLeader]. rewrite g_get_set_ne by congruence. apply g_get_set.
Qed.
End Claims.

(** ** Registration and labels *)

Section Labels.
Context {G C : Type} `{!GaugeVec G} `{!CounterVec C}.
Abbreviation Metrics := (@Metrics G C).

(** The number of labels a metric was declared with. *)
Definition arity (name : string) : option nat :=
  length ∘ d_labels <$> List.find (fun d => String.eqb (d_name d) name) descs.

(** The series of a vector have the labels it was declared with; [WithLabelValues] panics
    on any other number of values. *)
Definition gauges_have (name : string) (g : G) : Prop := forall k, g_get k g <> None -> arity name = Some (length k).
Definition counts_have (name : string) (c : C) : Prop := forall k, c_get k c <> 0 -> arity name = Some (length k).

Record labelled (m : Metrics) : Prop := {
  lb_published : counts_have "goqueue_messages_published_total" (PublishedTotal m);
  lb_consumed : counts_have "goqueue_messages_consumed_total" (ConsumedTotal m);
  lb_lag : gauges_have "goqueue_consumer_lag" (ConsumerLag m);
  lb_events : counts_have "goqueue_agent_events_published_total" (AgentEventsTotal m);
  lb_retries : counts_have "goqueue_agent_event_retries_total" (AgentRetriesTotal m);
  lb_dlq : counts_have "goqueue_agent_event_dlq_total" (AgentDLQTotal m);
  lb_throttled : counts_have "goqueue_agent_events_throttled_total" (AgentThrottledTotal m);
  lb_role : gauges_have "goqueue_raft_role" (RaftRole m);
  lb_term : gauges_have "goqueue_raft_term" (RaftTerm m);
  lb_leader : gauges_have "goqueue_raft_leader" (RaftLeader m);
  lb_changes : counts_have "goqueue_raft_leader_changes_total" (RaftLeaderChanges m);
  lb_fill : gauges_have "goqueue_partition_fill_pct" (PartitionFillPct m);
  lb_evictions : gauges_have "goqueue_partition_evictions_total" (PartitionEvictions m);
  lb_agents : gauges_have "goqueue_cp_active_agents" (CPActiveAgents m);
  lb_sessions : gauges_have "goqueue_cp_sessions" (CPSessions m);
  lb_routed : counts_have "goqueue_cp_handoffs_routed_total" (CPHandoffsRouted m);
  lb_unrouted : counts_have "goqueue_cp_handoffs_unrouted_total" (CPHandoffsUnrouted m);
  lb_escalations : counts_have "goqueue_cp_escalations_total" (CPEscalations m);
  lb_wf_events : counts_have "goqueue_wf_events_total" (WFEventsTotal m);
  lb_wf_execs : gauges_have "goqueue_wf_executions" (WFExecutions m);
  lb_granted : counts_have "goqueue_wf_leases_granted_total" (WFLeasesGranted m);
  lb_expired : counts_have "goqueue_wf_leases_expired_total" (WFLeasesExpired m);
  lb_wf_retries : counts_have "goqueue_wf_retries_total" (WFRetries m);
  lb_rejected : counts_have "goqueue_wf_completions_rejected_total" (WFCompletionsRejected m);
}.

Lemma gauges_set name k v (g : G) : arity name = Some (length k) -> gauges_have name g -> gauges_have name (g_set k v g).
Proof.
  intros Hk Hg k' H. destruct (decide (k = k')) as [<-|Hne]; [exact Hk|]. rewrite g_get_set_ne in H by done. by apply Hg.
Qed.

Lemma counts_inc name k (c : C) : arity name = Some (length k) -> counts_have name c -> counts_have name (inc k c).
Proof.
  intros Hk Hc k' H. destruct (decide (k = k')) as [<-|Hne]; [exact Hk|]. unfold inc in H. rewrite c_get_add_ne in H by done. by apply Hc.
Qed.

Ltac keeps_labels :=
  intros []; split; cbn; try assumption; unfold set_role; repeat first [apply gauges_set | apply counts_inc]; first [assumption | reflexivity].

Lemma observe_labelled topic payload m : labelled m -> labelled (ObserveAgentPayload topic payload m).
Proof.
  unfold ObserveAgentPayload. destruct (ParseEvent payload) as [ev|]; [|done].
  destruct (1 <? Attempt ev), (IsDLQTopic topic); keeps_labels.
Qed.

Lemma registers ds : forall reg, NoDup (map d_name ds) -> (forall n, n ∈ map d_name ds -> n ∉ reg) ->
  MustRegister ds reg = Some (list_to_set (map d_name ds) ∪ reg).
Proof.
  induction ds as [|d ds IH]; intros reg HN Hd; cbn [map list_to_set MustRegister] in *; [f_equal; set_solver|].
  apply list.NoDup_cons in HN as [Hn HN]. rewrite decide_False by (apply Hd; left).
  rewrite IH; [f_equal; set_solver|exact HN|]. intros n Hin [?%elem_of_singleton|?]%elem_of_union; [by subst|].
  by eapply Hd; [right|].
Qed.

Lemma descs_distinct : NoDup (map d_name descs).
Proof. apply (bool_decide_unpack _). vm_compute. exact I. Qed.

(** The metrics register on an empty registry, once, and every method uses the labels its
    metric was declared with: neither [MustRegister] nor [WithLabelValues] panics. *)
Theorem metrics_well_labelled :
  (exists m reg, New ∅ = Some (m, reg) /\ labelled m /\ New reg = None) /\
  forall (m : Metrics) s s' s'' n x p, labelled m ->
    Forall labelled
      [SetActiveAgents n m; SetSessions s n m; IncHandoffRouted m; IncHandoffUnrouted m; IncEscalation m; IncWorkflowEvent s m;
       SetWorkflowExecutions s n m; IncWorkflowLeaseGranted m; IncWorkflowLeaseExpired m; IncWorkflowRetry m;
       IncWorkflowCompletionRejected m; SetRaftState s s' s'' n m; IncRaftLeaderChange s m; SetPartitionFillPct s s' x m;
       SetPartitionEvictions s s' x m; IncAgentEvent s s' m; IncAgentRetry s s' m; IncAgentDLQ s s' m; IncAgentThrottled m;
       ObserveAgentPayload s p m].
Proof.
  split.
  - exists no_series, (list_to_set (map d_name descs)). split_and!.
    + unfold New. by rewrite (registers descs ∅ descs_distinct) by set_solver; rewrite union_empty_r_L.
    + split; intros k H; exfalso; revert H; unfold no_series; cbn; rewrite ?g_get_empty, ?c_get_empty; done.
    + unfold New, descs at 1. cbn [MustRegister]. rewrite decide_True; [done|]. unfold descs. cbn [map list_to_set]. set_solver.
  - intros m s s' s'' n x p H. repeat (apply list.Forall_cons; split); [..|apply list.Forall_nil].
    all: try (apply observe_labelled; exact H); revert H; keeps_labels.
Qed.
End Labels.

(** ** Witnesses *)

Definition no_metrics : @Metrics (gmap (list string) float64) (gmap (list string) Z) := no_series.

Definition ingested (es : list Event) : Control.ControlPlane :=
  fold_left (fun cp e => default cp (Control.Ingest (fun _ => 1) e cp)) es (Control.New 10 4 "").

Definition running_cp : Control.ControlPlane := ingested [Control.demo_event "token.chunk" "planner" []].
Definition completed_cp : Control.ControlPlane :=
  ingested [Control.demo_event "token.chunk" "planner" []; Control.demo_event "complete" "planner" []].

Lemma counted_one now cp st :
  Control.CountByStatus st (Control.sessions cp) = 1 ->
  (forall st', st' <> st -> Control.CountByStatus st' (Control.sessions cp) = 0) ->
  counted_statuses (Control.Sweep now cp) [st].
Proof.
  intros H1 H0. split; [apply NoDup_singleton|]. intros st'. change (Control.sessions (Control.Sweep now cp)) with (Control.sessions cp).
  rewrite list_elem_of_singleton. destruct (Control.run_status_dec st' st) as [->|Hne]; [rewrite H1; split; [lia|done]|].
  rewrite H0 by done. split; [done|lia].
Qed.

Lemma session_gauge_goes_stale_witness :
  let m := (Sweep 2 [Control.StatusCompleted] completed_cp (Sweep 1 [Control.StatusRunning] running_cp no_metrics).2).2 in
  g_get ["running"%string] (CPSessions m) = Some (of_int 1) /\
  Control.CountByStatus Control.StatusRunning (Control.sessions completed_cp) = 0.
Proof.
  split; [|vm_compute; reflexivity].
  apply (session_gauge_goes_stale 1 2 [Control.StatusRunning] [Control.StatusCompleted] running_cp completed_cp no_metrics Control.StatusRunning).
  - apply counted_one; [vm_compute; reflexivity|]. intros [] H; try done; vm_compute; reflexivity.
  - apply counted_one; [vm_compute; reflexivity|]. intros [] H; try done; vm_compute; reflexivity.
  - vm_compute. reflexivity.
  - vm_compute. reflexivity.
Defined.

Lemma raft_gauges_witness :
  g_get ["n1"; "n1"]%string (RaftLeader (SetRaftState "n1" "follower" "n2" 2 (SetRaftState "n1" "leader" "n1" 1 no_metrics))) =
  Some (of_int 1).
Proof. apply (raft_gauges no_metrics "n1" "leader" "follower" "n1" "n2" 1 2 "leader"); [discriminate|by left]. Defined.

End Meter.
