(* ===== verification/CpService.v ===== *)
(** * The control plane's service and views (internal/controlplane/service.go, http.go)

    [Module Views]: the gRPC handlers and the read-only HTTP endpoints over the
    control plane of [ControlPlane], the protobuf messages and JSON shapes as records.
    [OpenInbox] streams an agent's inbox until the client is gone: its loop is a system of
    streams, one step per turn of its [select].  The theorems: what the streams send is
    what was routed, in order, and a stream loses at most one event; the two views show
    the same sessions. *)

From Stdlib Require Import Sorting.Sorted.
From S2P Require Import Prelude GoLib GoTime AgentStream ControlPlane Telemetry.
Import Envelope Control.

Module Views.
Local Open Scope Z_scope.

Definition agent_status (st : AgentStatus) : string :=
  match st with
  | AgentIdle => "idle"
  | EventBusy => "busy"
  | AgentOffline => "offline"
  end.

(** ** gRPC *)

(** [GetCapabilities] of a message without capabilities is nil. *)
Definition RegisterAgent (agentId : string) (capabilities : list string) (now : Z) (cp : ControlPlane) : ControlPlane :=
  {| cp with reg := Register agentId (match capabilities with [] => None | _ => Some capabilities end) now (reg cp) |}.

Definition Heartbeat_ (agentId : string) (now : Z) (cp : ControlPlane) : bool * ControlPlane :=
  let (known, r) := Heartbeat agentId now (reg cp) in (known, {| cp with reg := r |}).

Record RunStateMsg := mkRunMsg {
  rm_SessionKey : string; rm_ActiveAgent : string; rm_PendingAgent : string; rm_StepCount : Z; rm_Status : string;
  rm_LastEventUnixNano : Z; rm_Found : bool
}.

Definition GetSessionState (tenant project session : string) (cp : ControlPlane) : RunStateMsg :=
  match GetSession tenant project session cp with
  | None => mkRunMsg "" "" "" 0 "" 0 false
  | Some rs =>
      mkRunMsg (r_SessionKey rs) (ActiveAgent rs) (PendingAgent rs) (i32 (StepCount rs)) (Meter.run_status (r_Status rs))
        (Time.UnixNano (LastEventAt rs)) true
  end.

Record AgentMsg := mkAgentMsg {
  am_Id : string; am_Status : string; am_Capabilities : list string; am_CurrentSession : string; am_LastSeenUnixNano : Z
}.

Definition agent_msg (a : AgentInfo) : AgentMsg :=
  mkAgentMsg (ID a) (agent_status (Status a)) (Capabilities a) (CurrentSession a) (Time.UnixNano (LastSeen a)).

Definition ListAgents (cp : ControlPlane) : list AgentMsg := map agent_msg (List_ (reg cp)).

(** ** HTTP *)

Record agentJSON := mkAgentJSON {
  aj_ID : string; aj_Status : string; aj_Capabilities : list string; aj_CurrentSession : string; aj_LastSeen : Z
}.

Record sessionJSON := mkSessionJSON {
  sj_SessionKey : string; sj_ActiveAgent : string; sj_PendingAgent : string; sj_StepCount : Z; sj_Status : string;
  sj_LastEventAt : Z
}.

Definition toSessionJSON (rs : RunState) : sessionJSON :=
  mkSessionJSON (r_SessionKey rs) (ActiveAgent rs) (PendingAgent rs) (StepCount rs) (Meter.run_status (r_Status rs)) (LastEventAt rs).

(** A preflight request is answered without a body. *)
Definition handleAgents (options : bool) (cp : ControlPlane) : Z * list agentJSON :=
  if options then (204, [])
  else (200, map (fun a => mkAgentJSON (ID a) (agent_status (Status a)) (Capabilities a) (CurrentSession a) (LastSeen a)) (List_ (reg cp))).

(** [?key=K] asks for one session; an empty key for all of them. *)
Definition handleSessions (options : bool) (key : string) (cp : ControlPlane) : Z * list sessionJSON :=
  if options then (204, [])
  else if String.eqb key "" then (200, map toSessionJSON (ListSessions (sessions cp)))
  else match sessions cp !! key with
       | None => (404, [])
       | Some rs => (200, [toSessionJSON rs])
       end.

(** ** OpenInbox *)

(** The open streams, each with the agent and the channel it reads. *)
Record streams := mkStreams { s_inboxes : Inboxes; s_open : gmap nat (string * nat) }.

Inductive stream_op :=
| SOpen (sid : nat) (agent : string)              (* a client calls OpenInbox *)
| SDeliver (agent : string) (ev : RoutedEvent)    (* the ingestion routes an event *)
| STake (sid : nat) (sent : bool)                 (* the select takes an event; Send succeeds or not *)
| SGone (sid : nat).                              (* the select sees that the client is gone *)

Inductive stream_obs :=
| Routed (agent : string) (ev : RoutedEvent)
| Sent (sid : nat) (agent : string) (ev : RoutedEvent)
| Lost (sid : nat) (agent : string) (ev : RoutedEvent).

(** One turn of some stream, or of the ingestion; what would block has no effect, a send
    on a closed channel panics. *)
Definition stream_step (o : stream_op) (s : streams) : option (list stream_obs * streams) :=
  match o with
  | SOpen sid agent =>
      match s_open s !! sid with
      | Some _ => Some ([], s)
      | None =>
          let (c, ib) := Open agent (s_inboxes s) in
          Some ([], mkStreams ib (<[sid := (agent, c)]> (s_open s)))
      end
  | SDeliver agent ev =>
      '(ok, ib) ← Deliver agent ev (s_inboxes s);
      Some (if ok : bool then [Routed agent ev] else [], mkStreams ib (s_open s))
  | STake sid sent =>
      match s_open s !! sid with
      | None => Some ([], s)
      | Some (agent, c) =>
          match receive c (s_inboxes s) with
          | Some (Some ev, ib) =>
              if sent then Some ([Sent sid agent ev], mkStreams ib (s_open s))
              else Some ([Lost sid agent ev], mkStreams ib (delete sid (s_open s)))
          | Some (None, ib) => Some ([], mkStreams ib (delete sid (s_open s)))
          | None => Some ([], s)
          end
      end
  | SGone sid => Some ([], mkStreams (s_inboxes s) (delete sid (s_open s)))
  end.

Fixpoint stream_run (os : list stream_op) (s : streams) : option (list stream_obs * streams) :=
  match os with
  | [] => Some ([], s)
  | o :: os => '(l, s) ← stream_step o s; '(l', s) ← stream_run os s; Some (l ++ l', s)
  end.

(** What was routed to an agent, what its streams took, and what they sent. *)
Definition routed_to (id : string) (l : list stream_obs) : list RoutedEvent :=
  omap (fun x => match x with Routed a ev => if decide (a = id) then Some ev else None | _ => None end) l.
Definition taken_by (id : string) (l : list stream_obs) : list (RoutedEvent * bool) :=
  omap (fun x => match x with
                 | Sent _ a ev => if decide (a = id) then Some (ev, true) else None
                 | Lost _ a ev => if decide (a = id) then Some (ev, false) else None
                 | _ => None
                 end) l.
Definition lost_on (sid : nat) (l : list stream_obs) : nat :=
  length (List.filter (fun x => match x with Lost s _ _ => Nat.eqb s sid | _ => false end) l).
Definition opens_of (sid : nat) (os : list stream_op) : nat :=
  length (List.filter (fun o => match o with SOpen s _ => Nat.eqb s sid | _ => false end) os).

(** ** The streams *)

(** Every open stream reads its agent's inbox. *)
Definition streams_ok (s : streams) : Prop :=
  inboxes_ok (s_inboxes s) /\ forall sid a c, s_open s !! sid = Some (a, c) -> boxes (s_inboxes s) !! a = Some c.

(** A step of the streams is a step of the inboxes. *)
Definition as_inbox (o : stream_op) (s : streams) : option inbox_op :=
  match o with
  | SOpen sid a => match s_open s !! sid with Some _ => None | None => Some (IOpen a) end
  | SDeliver a ev => Some (IDeliver a ev)
  | STake sid _ => (fun ac => IReceive ac.1) <$> s_open s !! sid
  | SGone _ => None
  end.

Lemma boxes_kept o ib l ib' a c : inbox_step o ib = Some (l, ib') -> boxes ib !! a = Some c -> boxes ib' !! a = Some c.
Proof.
  intros E Ha. destruct o as [id|id ev|id]; cbn [inbox_step] in E.
  - injection E as _ <-. unfold Open. destruct (boxes ib !! id) eqn:Ei; [done|]. cbn [snd boxes].
    rewrite lookup_insert_ne; [done|]. congruence.
  - unfold Deliver, send in E. destruct (boxes ib !! id) as [c'|]; [|by simplify_eq/=].
    destruct (chans ib !! c') as [ch|]; [|done]. cbn [mbind option_bind] in E. destruct (ch_closed ch); [done|].
    destruct (_ <? _); cbn [mbind option_bind] in E; by simplify_eq/=.
  - destruct (boxes ib !! id) as [c'|]; [|by simplify_eq/=]. unfold receive in E.
    destruct (chans ib !! c') as [ch|]; [|by simplify_eq/=]. cbn [mbind option_bind] in E.
    destruct (q ch); [destruct (ch_closed ch)|]; by simplify_eq/=.
Qed.

Lemma stream_step_inbox o s l s' : streams_ok s -> stream_step o s = Some (l, s') ->
  streams_ok s' /\
  match as_inbox o s with
  | None => s_inboxes s' = s_inboxes s /\ l = []
  | Some io => exists l0, inbox_step io (s_inboxes s) = Some (l0, s_inboxes s') /\
      forall id, accepted id l0 = routed_to id l /\ received id l0 = map fst (taken_by id l)
  end.
Proof.
  intros [Hok Hst] E. destruct o as [sid a|a ev|sid sent|sid]; cbn [stream_step as_inbox] in *.
  - destruct (s_open s !! sid) eqn:Eo; [by simplify_eq|].
    destruct (Open_spec a (s_inboxes s) Hok) as (O1 & O2 & _). pose proof (boxes_kept (IOpen a) (s_inboxes s)) as Hk.
    destruct (Open a (s_inboxes s)) as [c ib] eqn:EO. injection E as <- <-. cbn [fst snd] in *. split.
    + split; [exact O1|]. cbn [s_open s_inboxes]. intros sid' a' c' H. apply lookup_insert_Some in H as [[_ [= <- <-]]|[_ H]]; [done|].
      apply (Hk [] ib a' c'); [cbn; by rewrite EO|by eapply Hst].
    + exists []. split; [cbn; by rewrite EO|done].
  - destruct (Deliver a ev (s_inboxes s)) as [[ok ib]|] eqn:ED; [|done]. cbn [mbind option_bind] in E. injection E as <- <-.
    destruct (inbox_step_spec (IDeliver a ev) (s_inboxes s) Hok) as (l0 & ib0 & Es & Hok0 & _).
    pose proof Es as Es'. cbn [inbox_step] in Es'. rewrite ED in Es'. cbn [mbind option_bind] in Es'. injection Es' as <- <-. split.
    + split; [exact Hok0|]. cbn [s_open s_inboxes]. intros sid' a' c' H. eapply boxes_kept; [exact Es|by eapply Hst].
    + eexists. split; [exact Es|]. intros id. by destruct ok; cbn; repeat case_decide.
  - destruct (s_open s !! sid) as [[a c]|] eqn:Eo; cbn [fmap option_fmap option_map fst]; [|by simplify_eq].
    pose proof (Hst _ _ _ Eo) as Hc.
    destruct (inbox_step_spec (IReceive a) (s_inboxes s) Hok) as (l0 & ib0 & Es & Hok0 & _).
    pose proof Es as Es'. cbn [inbox_step] in Es'. rewrite Hc in Es'.
    assert (forall m, (forall sid' a' c', m !! sid' = Some (a', c') -> s_open s !! sid' = Some (a', c')) -> streams_ok (mkStreams ib0 m)) as Hm.
    { intros m Hm. split; [exact Hok0|]. cbn [s_open s_inboxes]. intros sid' a' c' H. eapply boxes_kept; [exact Es|by eapply Hst, Hm]. }
    assert (forall sid' a' c', delete sid (s_open s) !! sid' = Some (a', c') -> s_open s !! sid' = Some (a', c')) as Hdel
      by (intros ? ? ? H; by apply lookup_delete_Some in H as [_ H]).
    destruct (receive c (s_inboxes s)) as [[[ev|] ib]|] eqn:Er.
    + injection Es' as <- <-. destruct sent; injection E as <- <-; (split; [apply Hm; done|]);
        eexists; (split; [exact Es|]); intros id; cbn; by case_decide.
    + exfalso. destruct Hok as (_ & H2 & _). destruct (H2 a c Hc) as (ch & Hch & Hcl). unfold receive in Er. rewrite Hch in Er.
      cbn [mbind option_bind] in Er. destruct (q ch); [by rewrite Hcl in Er|done].
    + injection Es' as <- <-. injection E as <- <-. split; [by split|]. eexists. split; [exact Es|done].
  - injection E as <- <-. split; [|done]. split; [done|]. cbn [s_open s_inboxes]. intros sid' a c H. apply lookup_delete_Some in H as [_ H]. by eapply Hst.
Qed.

Lemma stream_step_total o s : streams_ok s -> exists l s', stream_step o s = Some (l, s').
Proof.
  intros [Hok _]. destruct o as [sid a|a ev|sid sent|sid]; cbn [stream_step]; [| | |eauto].
  - destruct (s_open s !! sid); [eauto|]. destruct (Open a (s_inboxes s)). eauto.
  - destruct (Deliver_spec a ev (s_inboxes s) Hok) as (ok & ib & -> & _). cbn. eauto.
  - destruct (s_open s !! sid) as [[a c]|]; [|eauto]. destruct (receive c (s_inboxes s)) as [[[ev|] ib]|]; [destruct sent|..]; eauto.
Qed.

(** One step: the queues, and the streams that end with an event in hand. *)
Lemma stream_step_queue o s l s' id : streams_ok s -> stream_step o s = Some (l, s') ->
  waiting (s_inboxes s) id ++ routed_to id l = map fst (taken_by id l) ++ waiting (s_inboxes s') id.
Proof.
  intros Hok E. destruct (stream_step_inbox o s l s' Hok E) as [_ H]. destruct (as_inbox o s) as [io|].
  - destruct H as (l0 & Es & Hl). destruct (inbox_step_spec io (s_inboxes s) (proj1 Hok)) as (l1 & ib1 & Es1 & _ & W).
    rewrite Es in Es1. injection Es1 as <- <-. destruct (Hl id) as [<- <-]. apply W.
  - destruct H as [-> ->]. cbn. by rewrite app_nil_r.
Qed.

Definition open_count (sid : nat) (s : streams) : nat := match s_open s !! sid with Some _ => 1 | None => 0 end.

Lemma stream_step_lost o s l s' sid : stream_step o s = Some (l, s') ->
  (lost_on sid l + open_count sid s' <= open_count sid s + opens_of sid [o])%nat.
Proof.
  unfold open_count, opens_of, lost_on. intros E. destruct o as [i a|a ev|i sent|i]; cbn [stream_step] in E.
  - destruct (s_open s !! i) eqn:Eo; [injection E as <- <-; cbn; destruct (Nat.eqb i sid); lia|].
    destruct (Open a (s_inboxes s)) as [c ib]. injection E as <- <-. cbn [s_open].
    destruct (decide (i = sid)) as [->|Hne]; [rewrite lookup_insert_eq, Eo; cbn; by rewrite Nat.eqb_refl|].
    rewrite lookup_insert_ne by done. cbn. destruct (Nat.eqb i sid); lia.
  - destruct (Deliver a ev (s_inboxes s)) as [[ok ib]|]; [|done]. cbn [mbind option_bind] in E. injection E as <- <-. by destruct ok; cbn; lia.
  - assert (forall ib, (match s_open (mkStreams ib (delete i (s_open s))) !! sid with Some _ => 1 | None => 0 end <= match s_open s !! sid with Some _ => 1 | None => 0 end)%nat) as Hd.
    { intros ib. cbn [s_open]. destruct (decide (i = sid)) as [->|Hne]; [rewrite lookup_delete_eq; lia|by rewrite lookup_delete_ne]. }
    destruct (s_open s !! i) as [[a c]|] eqn:Eo; [|injection E as <- <-; cbn; lia].
    destruct (receive c (s_inboxes s)) as [[[ev|] ib]|]; [destruct sent|..]; injection E as <- <-; cbn [List.filter length app];
      [cbn; lia| |specialize (Hd ib); lia|lia].
    destruct (Nat.eqb_spec i sid) as [->|Hne]; cbn [length]; [|specialize (Hd ib); lia]. cbn [s_open]. rewrite lookup_delete_eq, Eo. lia.
  - injection E as <- <-. cbn [s_open List.filter length]. destruct (decide (i = sid)) as [->|Hne]; [rewrite lookup_delete_eq; lia|rewrite lookup_delete_ne by done; lia].
Qed.

Lemma lost_on_app sid l l' : lost_on sid (l ++ l') = (lost_on sid l + lost_on sid l')%nat.
Proof. unfold lost_on. by rewrite List.filter_app, length_app. Qed.

Lemma opens_of_cons sid o os : opens_of sid (o :: os) = (opens_of sid [o] + opens_of sid os)%nat.
Proof. unfold opens_of. change (o :: os) with ([o] ++ os). by rewrite List.filter_app, length_app. Qed.

Lemma stream_run_spec os : forall s, streams_ok s -> exists l s', stream_run os s = Some (l, s') /\
  (forall id, waiting (s_inboxes s) id ++ routed_to id l = map fst (taken_by id l) ++ waiting (s_inboxes s') id) /\
  forall sid, (lost_on sid l + open_count sid s' <= open_count sid s + opens_of sid os)%nat.
Proof.
  induction os as [|o os IH]; intros s Hok; cbn [stream_run].
  { exists [], s. split; [done|]. split; [intros id; cbn; by rewrite app_nil_r|]. intros sid. cbn. lia. }
  destruct (stream_step_total o s Hok) as (l1 & s1 & E1). rewrite E1. cbn [mbind option_bind].
  destruct (stream_step_inbox o s l1 s1 Hok E1) as [Hok1 _]. destruct (IH s1 Hok1) as (l2 & s2 & -> & W2 & L2). cbn [mbind option_bind].
  exists (l1 ++ l2), s2. split; [done|]. split.
  - intros id. unfold routed_to, taken_by in *. rewrite !omap_app, map_app.
    pose proof (stream_step_queue o s l1 s1 id Hok E1) as W1. unfold routed_to, taken_by in W1.
    rewrite app_assoc, W1, <- app_assoc, W2. by rewrite app_assoc.
  - intros sid. rewrite lost_on_app, opens_of_cons. pose proof (stream_step_lost o s l1 s1 sid E1). specialize (L2 sid). lia.
Qed.

(** C33. Streams deliver what was routed.  Whatever clients connect and disconnect, also several
    for one agent, and however their turns interleave with the routing: the events taken by
    an agent's streams followed by those waiting in its inbox are the events routed to it,
    in order, each taken by one stream; and every stream sends all it takes except at most
    the one whose send failed, with which it ends. *)
Theorem inbox_streams_deliver n os :
  exists l s, stream_run os (mkStreams (NewInboxes n) ∅) = Some (l, s) /\
    (forall id, routed_to id l = map fst (taken_by id l) ++ waiting (s_inboxes s) id) /\
    forall sid, (lost_on sid l <= opens_of sid os)%nat.
Proof.
  destruct (stream_run_spec os (mkStreams (NewInboxes n) ∅)) as (l & s & E & W & L).
  { split; [apply NewInboxes_ok|]. intros sid a c H. cbn [s_open] in H. by rewrite lookup_empty in H. }
  exists l, s. split; [exact E|]. split; [intros id; by rewrite <- W|].
  intros sid. specialize (L sid). unfold open_count in L. cbn [s_open] in L. rewrite lookup_empty in L. lia.
Qed.

(** ** The views *)

(** The listing has every session once; the query by key and the gRPC call show the same
    session, the step count as an int32. *)
Lemma session_views_agree tenant project session cp :
  let key := SessionKey tenant project session in
  length (handleSessions false "" cp).2 = size (sessions cp) /\
  match GetSession tenant project session cp with
  | None => handleSessions false key cp = (404, []) /\ rm_Found (GetSessionState tenant project session cp) = false
  | Some rs =>
      handleSessions false key cp = (200, [toSessionJSON rs]) /\ toSessionJSON rs ∈ (handleSessions false "" cp).2 /\
      GetSessionState tenant project session cp =
        mkRunMsg (r_SessionKey rs) (ActiveAgent rs) (PendingAgent rs) (i32 (StepCount rs)) (sj_Status (toSessionJSON rs))
          (Time.UnixNano (LastEventAt rs)) true
  end.
Proof.
  intros key. assert (String.eqb key "" = false) as Hk.
  { apply String.eqb_neq. unfold key, SessionKey. intros E. by destruct (TrimSpace tenant). }
  unfold handleSessions. rewrite Hk. cbn [String.eqb snd]. split.
  - rewrite length_map. unfold ListSessions.
    assert (forall l, (forall k, k ∈ l -> is_Some (sessions cp !! k)) -> length (omap (fun k => sessions cp !! k) l) = length l) as H.
    { induction l as [|k l IH]; intros Hl; [done|]. cbn [omap list_omap]. destruct (Hl k) as [rs ->]; [by left|].
      cbn [length]. f_equal. apply IH. intros k' Hk'. apply Hl. by right. }
    rewrite H.
    + rewrite (Permutation_length (sort_strings_perm _)). change (length (elements (dom (sessions cp)))) with (size (dom (sessions cp))). apply size_dom.
    + intros k Hin. rewrite sort_strings_perm in Hin. by apply elem_of_elements, elem_of_dom in Hin.
  - unfold GetSessionState, GetSession. fold key. destruct (sessions cp !! key) as [rs|] eqn:E; [|done].
    split; [done|]. split; [|done]. apply list_elem_of_fmap. exists rs. split; [done|]. unfold ListSessions. apply list_elem_of_omap.
    exists key. split; [|done]. rewrite sort_strings_perm. apply elem_of_elements, elem_of_dom. eauto.
Qed.

End Views.
