(* ===== verification/Consumer.v ===== *)
(** * Consumer-group offsets (internal/consumer/manager.go)

    [Module Offsets] models the [Manager]: the map of committed offsets, its
    JSON file, and the background flusher that debounces commits into saves.
    The flusher runs beside the committing goroutines: the map, the signal
    channel of capacity 1, its local [dirty] flag, its timer and the save it may
    be in the middle of are one state, and each critical section is a step.
    Times are nanoseconds. *)

From S2P Require Import Prelude GoLib GoJson.
Import Json.

Module Offsets.
Local Open Scope Z_scope.

Definition defaultFlushInterval : Z := 50000000.

(** ** Keys *)

(** The digits of [v > 0], written from the end of a buffer of 20. *)
Fixpoint itoa_loop (fuel : nat) (v : Z) (acc : bytes) : bytes :=
  match fuel with
  | O => acc
  | S fuel => if 0 <? v then itoa_loop fuel (Z.quot v 10) (ch (48 + Z.rem v 10) :: acc) else acc
  end.

Definition itoa (v : Z) : string :=
  if v =? 0 then "0"
  else
    let '(sign, v) := if v <? 0 then ("-"%string, i64 (- v)) else (""%string, v) in
    (sign +:+ str_of (itoa_loop 20 v []))%string.

Definition key (topic group : string) (partition : Z) : string :=
  (topic +:+ "::" +:+ group +:+ "::p" +:+ itoa partition)%string.

(** ** The file *)

(** [json.Marshal] of a [map[string]int64]: the keys in order. *)
Definition marshal_offsets (m : gmap string Z) : bytes :=
  enc_object (map (fun k => (k, format_int (default 0 (m !! k)))) (sort_strings (elements (dom m)))).

(** [json.Unmarshal] into a [map[string]int64]: an object assigns its members,
    [null] makes the map nil, which is [None]. *)
Definition set_offset (k raw : bytes) (v : json) (m : gmap string Z) : option (gmap string Z) :=
  n ← dec_int v 0; Some (<[str_of k := n]> m).

Definition unmarshal_offsets (data : bytes) (m : gmap string Z) : option (option (gmap string Z)) :=
  match parse data with
  | Some (JObj ms) => m ← dec_members set_offset ms m; Some (Some m)
  | Some JNull => Some None
  | _ => None
  end.

(** What [os.ReadFile] finds. *)
Inductive offsets_file := NoFile | ReadError | FileData (b : bytes).

(** [load]: [None] is an error, of the read or of the JSON. *)
Definition load (f : offsets_file) (m : gmap string Z) : option (option (gmap string Z)) :=
  match f with
  | NoFile => Some (Some m)
  | ReadError => None
  | FileData data => unmarshal_offsets data m
  end.

(** ** The manager and its flusher *)

Inductive flusher := Selecting | Saving (snap : gmap string Z) | Exited.

Record Manager := mkManager {
  offsets : option (gmap string Z);  (* nil only after loading [null] *)
  persistent : bool;                 (* path is not empty *)
  flushSignal : bool;                (* the channel holds a token *)
  closed : bool;                     (* closeCh is closed *)
  fl : flusher;
  dirty : bool;                      (* the flusher's local *)
  deadline : Z;                      (* when its timer fires *)
  saveErrors : Z;
  file : offsets_file;
  now : Z;
  unsignalled : nat                  (* commits written, their signal not yet sent *)
}.

Definition NewManager : Manager :=
  mkManager (Some ∅) false false false Exited false 0 0 NoFile 0 0.

Definition NewManagerWithPath (f : offsets_file) (now : Z) : option Manager :=
  m ← load f ∅;
  Some (mkManager m true false false Selecting false (now + defaultFlushInterval) 0 f now 0).

(** [m.offsets[key] = offset]; an assignment to a nil map panics. *)
Definition CommitPartition (topic group : string) (partition offset : Z) (m : Manager) : option Manager :=
  o ← offsets m;
  Some {| m with offsets := Some (<[key topic group partition := offset]> o); unsignalled := S (unsignalled m) |}.

Definition Commit (topic group : string) (offset : Z) (m : Manager) : option Manager :=
  CommitPartition topic group 0 offset m.

(** [signalDirty], which [CommitPartition] calls after releasing the lock. *)
Definition signalDirty (m : Manager) : Manager :=
  {| m with flushSignal := persistent m; unsignalled := pred (unsignalled m) |}.

Definition GetPartition (topic group : string) (partition : Z) (m : Manager) : option Z :=
  o ← offsets m; o !! key topic group partition.

Definition Get (topic group : string) (m : Manager) : option Z := GetPartition topic group 0 m.

(** The entries of the map, which a nil map has none of. *)
Definition committed (m : Manager) : gmap string Z := default ∅ (offsets m).

(** What [save] writes: the snapshot is a map of its own, made before the entries are
    copied into it, and so never nil. *)
Definition file_of (snap : gmap string Z) : offsets_file := FileData (marshal_offsets snap).

(** The cases of the flusher's [select]. *)
Definition flush_signal (m : Manager) : Manager :=
  {| m with flushSignal := false; dirty := true; deadline := now m + defaultFlushInterval |}.

Definition flush_idle (m : Manager) : Manager := {| m with deadline := now m + defaultFlushInterval |}.

(** [save]: the snapshot under the read lock, then the temporary file and the
    rename, which replaces the file as a whole. *)
Definition save_begin (m : Manager) : Manager := {| m with fl := Saving (committed m) |}.

Definition save_done (snap : gmap string Z) (m : Manager) : Manager :=
  {| m with file := file_of snap; dirty := false; fl := Selecting; deadline := now m + defaultFlushInterval |}.

Definition save_failed (m : Manager) : Manager :=
  {| m with saveErrors := i64 (saveErrors m + 1); fl := Selecting; deadline := now m + defaultFlushInterval |}.

Definition close_signal (m : Manager) : Manager := {| m with closed := true |}.
Definition flush_exit (m : Manager) : Manager := {| m with fl := Exited |}.

(** [Close] after the flusher has exited: a last save. *)
Definition close_save (ok : bool) (m : Manager) : Manager :=
  if ok then {| m with file := file_of (committed m) |} else m.

Definition tick (t : Z) (m : Manager) : Manager := {| m with now := t |}.

(** The steps; [eager] lets time pass only when the flusher has nothing to do. *)
Inductive step (eager : bool) : Manager -> Manager -> Prop :=
| st_commit m topic group partition offset m' :
    in_i64 offset -> CommitPartition topic group partition offset m = Some m' -> step eager m m'
| st_signal m : (0 < unsignalled m)%nat -> step eager m (signalDirty m)
| st_flush_signal m : fl m = Selecting -> flushSignal m = true -> step eager m (flush_signal m)
| st_timer_idle m : fl m = Selecting -> deadline m <= now m -> dirty m = false -> step eager m (flush_idle m)
| st_save_begin m : fl m = Selecting -> deadline m <= now m -> dirty m = true -> step eager m (save_begin m)
| st_save_done m snap : fl m = Saving snap -> step eager m (save_done snap m)
| st_save_failed m snap : fl m = Saving snap -> step eager m (save_failed m)
| st_close m : step eager m (close_signal m)
| st_exit m : fl m = Selecting -> closed m = true -> step eager m (flush_exit m)
| st_close_save m ok : fl m = Exited -> persistent m = true -> step eager m (close_save ok m)
| st_tick m t :
    now m <= t ->
    (eager = true -> unsignalled m = 0%nat /\ flushSignal m = false /\ (forall s, fl m <> Saving s) /\
                     (fl m = Selecting -> t <= deadline m /\ now m < deadline m)) ->
    step eager m (tick t m).

Inductive reachable (eager : bool) (m0 : Manager) : Manager -> Prop :=
| reach_init : reachable eager m0 m0
| reach_step m m' : reachable eager m0 m -> step eager m m' -> reachable eager m0 m'.

(** ** The file round-trips *)

Definition vals_ok (m : gmap string Z) : Prop := map_Forall (fun _ v => in_i64 v) m.
Definition keys_ok (m : gmap string Z) : Prop := map_Forall (fun k _ => utf8_ok k) m.

Lemma dec_members_offsets (m : gmap string Z) ks acc :
  vals_ok m -> Forall (fun k => is_Some (m !! k)) ks ->
  exists m', dec_members set_offset
      (members_of (map (fun k => (k, format_int (default 0 (m !! k)))) ks)
         (map (fun k => JNum (format_int (default 0 (m !! k)))) ks)) acc = Some m' /\
    forall k, m' !! k = if decide (k ∈ ks) then m !! k else acc !! k.
Proof.
  intros Hv. revert acc. induction ks as [|k ks IH]; intros acc HF; cbn [map members_of dec_members].
  { exists acc. split; [done|]. intros k. by rewrite decide_False by apply not_elem_of_nil. }
  destruct (list.Forall_cons_1 _ _ _ HF) as [[v Ek] HF']. rewrite Ek. cbn [default].
  unfold set_offset at 1. cbn [dec_int]. rewrite parse_format_int by exact (Hv k v Ek). cbn [mbind option_bind].
  rewrite str_of_bs. destruct (IH (<[k := v]> acc) HF') as (m' & E & Hm'). exists m'. split; [done|].
  intros j. rewrite Hm'. destruct (decide (j ∈ ks)) as [Hj|Hj].
  - by rewrite decide_True by (by apply elem_of_cons; right).
  - destruct (decide (j = k)) as [->|Hne].
    + rewrite lookup_insert_eq, decide_True by (by apply elem_of_cons; left). done.
    + rewrite lookup_insert_ne by done. rewrite decide_False; [done|]. intros [->|?]%elem_of_cons; done.
Qed.

Lemma load_file_of m : vals_ok m -> keys_ok m -> load (file_of m) ∅ = Some (Some m).
Proof.
  intros Hv Hk. cbn [load file_of].
  unfold unmarshal_offsets, marshal_offsets. set (ks := sort_strings (elements (dom m))).
  assert (forall k, k ∈ ks <-> is_Some (m !! k)) as Hks.
  { intros k. subst ks. rewrite sort_strings_perm, elem_of_elements. apply elem_of_dom. }
  destruct (decide (ks = [])) as [E|Hne].
  { rewrite E. cbn [map]. change (parse (enc_object [])) with (Some (JObj MNil)). cbn. do 2 f_equal.
    symmetry. apply map_empty. intros k. destruct (m !! k) eqn:Em; [|done].
    assert (k ∈ ks) as Hin by (apply Hks; eauto). rewrite E in Hin. by apply not_elem_of_nil in Hin. }
  rewrite (reads_parse _ (JObj (members_of (map (fun k => (k, format_int (default 0 (m !! k)))) ks)
             (map (fun k => JNum (format_int (default 0 (m !! k)))) ks)))).
  - destruct (dec_members_offsets m ks ∅ Hv) as (m' & -> & Hm').
    { apply list.Forall_forall. intros k. apply Hks. }
    cbn [mbind option_bind]. do 2 f_equal. apply map_eq. intros k. rewrite Hm'.
    destruct (decide (k ∈ ks)) as [|Hn]; [done|]. rewrite lookup_empty. symmetry.
    destruct (m !! k) eqn:Em; [|done]. destruct Hn. apply Hks. eauto.
  - apply reads_object; [by destruct ks| |done|].
    + apply list.Forall_forall. intros f Hf. apply list_elem_of_fmap in Hf as (k & -> & Hin). cbn [fst].
      apply Hks in Hin as [v Ev]. exact (Hk k v Ev).
    + apply Forall2_same_length_lookup_2; [by rewrite !length_map|]. intros i f v Hf Hv'.
      rewrite list_lookup_fmap in Hf. rewrite list_lookup_fmap in Hv'. destruct (ks !! i); simplify_eq/=. apply reads_int.
Qed.

Lemma parse_int_range s z : parse_int s = Some z -> in_i64 z.
Proof.
  unfold parse_int. destruct (match s with [] => _ | _ => _ end) as [neg ds].
  destruct (decide _); [done|]. destruct (forallb _ _); [|done].
  set (v := if neg then _ else _). destruct ((- 2 ^ 63 <=? v) && (v <? 2 ^ 63)) eqn:E; [|done].
  intros [= <-]. go_bool. done.
Qed.

Lemma dec_members_vals ms m m' : vals_ok m -> dec_members set_offset ms m = Some m' -> vals_ok m'.
Proof.
  revert m. induction ms as [|k raw v ms IH]; intros m Hm E; cbn [dec_members] in E; [by simplify_eq|].
  unfold set_offset at 1 in E. destruct (dec_int v 0) as [n|] eqn:En; [|done]. cbn [mbind option_bind] in E.
  eapply IH; [|exact E]. apply map_Forall_insert_2; [|done].
  destruct v; cbn [dec_int] in En; try done; simplify_eq; [unfold in_i64; lia|].
  by eapply parse_int_range.
Qed.

Lemma load_vals f m : load f ∅ = Some (Some m) -> vals_ok m.
Proof.
  destruct f as [| |b]; cbn [load]; intros E; simplify_eq.
  - apply map_Forall_empty.
  - unfold unmarshal_offsets in E. destruct (parse b) as [v|]; [|done]. destruct v; try done.
    destruct (dec_members set_offset m0 ∅) eqn:Ed; [|done]. cbn in E. simplify_eq.
    eapply dec_members_vals; [|exact Ed]. apply map_Forall_empty.
Qed.

(** ** The flusher's invariant *)

Lemma commit_committed topic group p o m m' :
  CommitPartition topic group p o m = Some m' -> committed m' = <[key topic group p := o]> (committed m).
Proof. unfold CommitPartition, committed. destruct (offsets m) as [x|]; [|done]. by intros [= <-]. Qed.

(** [snap] is what the map held at an earlier moment. *)
Definition past eager m0 (snap : gmap string Z) (m : Manager) : Prop :=
  exists m1, reachable eager m0 m1 /\ snap = committed m1 /\ dom (committed m1) ⊆ dom (committed m).

Definition pending (m : Manager) : Prop := flushSignal m = true \/ (0 < unsignalled m)%nat.

Record inv eager (f : offsets_file) (m0 m : Manager) : Prop := {
  inv_path : persistent m = true;
  inv_vals : vals_ok (committed m);
  inv_file : file m = f \/ exists snap, file m = file_of snap /\ past eager m0 snap m;
  inv_saved : pending m \/ dirty m = true \/ file m = file_of (committed m) \/ (file m = f /\ offsets m = offsets m0);
  inv_saving : forall snap, fl m = Saving snap -> past eager m0 snap m /\ (pending m \/ snap = committed m)
}.

Lemma reachable_trans eager m0 m1 m2 : reachable eager m0 m1 -> reachable eager m1 m2 -> reachable eager m0 m2.
Proof. intros H1. induction 1; [done|]. by eapply reach_step. Qed.

Lemma past_frame eager m0 snap m m' : dom (committed m) ⊆ dom (committed m') -> past eager m0 snap m -> past eager m0 snap m'.
Proof. intros Hk (m1 & H1 & H2 & H3). exists m1. split; [done|]. split; [done|]. by etrans. Qed.

Lemma past_now eager m0 m : reachable eager m0 m -> past eager m0 (committed m) m.
Proof. intros HR. by exists m. Qed.

Lemma flusher_step_inv eager f m0 m m' :
  reachable eager m0 m -> inv eager f m0 m -> step eager m m' -> inv eager f m0 m'.
Proof.
  intros HR [H1 H2 H4 H5 H6] Hst.
  destruct Hst as [m topic group p o m' Ho E|m Hu|m Hf Hs|m Hf Ht Hd|m Hf Ht Hd|m snap Hf|m snap Hf|m|m Hf Hc|m ok Hf Hp|m t Ht He].
  - pose proof (commit_committed _ _ _ _ _ _ E) as HK.
    assert (dom (committed m) ⊆ dom (committed m')) as Hdom by (rewrite HK, dom_insert; set_solver).
    unfold CommitPartition in E. destruct (offsets m) as [x|] eqn:Ex; [|done]. cbn in E. injection E as <-. split; cbn [persistent file fl dirty]; try done.
    + rewrite HK. by apply map_Forall_insert_2.
    + destruct H4 as [?|(snap & ? & ?)]; [by left|right]. exists snap. split; [done|]. by eapply past_frame.
    + left. right. cbn. lia.
    + intros snap Es. destruct (H6 snap Es) as [? _]. split; [by eapply past_frame|]. left. right. cbn. lia.
  - assert (pending (signalDirty m)) as Hp by (left; exact H1). split; cbn; try done; [by left|].
    intros snap Es. destruct (H6 snap Es) as [? _]. split; [done|by left].
  - split; cbn; try done; [by right; left|]. intros snap. by rewrite Hf.
  - by split.
  - split; cbn; try done. intros snap [= <-]. split; [exact (past_now _ _ _ HR)|by right].
  - destruct (H6 snap Hf) as [Hpast Hp]. split; cbn; try done.
    + right. by exists snap.
    + destruct Hp as [?| ->]; [by left|]. by right; right; left.
  - split; cbn; try done.
  - by split.
  - split; cbn; try done.
  - destruct ok; [|by split]. split; cbn; try done.
    + right. exists (committed m). split; [done|]. exact (past_now _ _ _ HR).
    + by right; right; left.
  - by split.
Qed.

Lemma flusher_reachable_inv eager f t m0 m :
  NewManagerWithPath f t = Some m0 -> reachable eager m0 m -> inv eager f m0 m.
Proof.
  intros HN. unfold NewManagerWithPath in HN. destruct (load f ∅) as [o|] eqn:El; [|done]. cbn in HN. simplify_eq.
  induction 1 as [|m m' HR IH Hst]; [|by eapply flusher_step_inv].
  split; cbn; try done; [|by left|by right; right; right].
  destruct o as [x|]; [by eapply load_vals|apply map_Forall_empty].
Qed.

Lemma past_loads eager f t m0 m snap :
  NewManagerWithPath f t = Some m0 -> past eager m0 snap m -> keys_ok (committed m) ->
  load (file_of snap) ∅ = Some (Some snap).
Proof.
  intros HN (m1 & HR & -> & Hd) HK. apply load_file_of.
  - exact (inv_vals _ _ _ _ (flusher_reachable_inv _ _ _ _ _ HN HR)).
  - intros k v Ev. assert (k ∈ dom (committed m)) as Hin by (apply Hd, elem_of_dom; eauto).
    apply elem_of_dom in Hin as [v' Ev']. exact (HK k v' Ev').
Qed.

(** C36. Committed offsets survive a restart.  Whatever the interleaving of
    commits, signals, the flusher's timer, saves that succeed or fail and
    [Close], the offsets file can always be loaded, and loading it gives the
    offsets as they all were at one earlier moment; once no signal is pending and
    the flusher is not dirty, it gives exactly the committed ones.  The manager was
    itself loaded from a file, or started without one; a save replaces the file as a
    whole; the names of topics and groups are assumed to be valid UTF-8. *)
Theorem offsets_survive_restart eager f t m0 m t' :
  NewManagerWithPath f t = Some m0 -> reachable eager m0 m -> keys_ok (committed m) ->
  (exists m1 m2, reachable eager m0 m1 /\ NewManagerWithPath (file m) t' = Some m2 /\ committed m2 = committed m1) /\
  (flushSignal m = false -> unsignalled m = 0%nat -> dirty m = false ->
   exists m2, NewManagerWithPath (file m) t' = Some m2 /\ committed m2 = committed m).
Proof.
  intros HN HR HK. pose proof (flusher_reachable_inv _ _ _ _ _ HN HR) as [_ _ HF HS _].
  assert (forall o, load (file m) ∅ = Some o ->
    exists m2, NewManagerWithPath (file m) t' = Some m2 /\ committed m2 = default ∅ o) as HL.
  { intros o E. unfold NewManagerWithPath. rewrite E. cbn. by eexists. }
  assert (load f ∅ = Some (offsets m0)) as Hf.
  { unfold NewManagerWithPath in HN. destruct (load f ∅); [|done]. cbn in HN. by simplify_eq. }
  split.
  - destruct HF as [EF|(snap & EF & Hp)]; rewrite EF in *.
    + destruct (HL (offsets m0) Hf) as (m2 & ? & ?). exists m0, m2. split; [apply reach_init|done].
    + pose proof (past_loads _ _ _ _ _ _ HN Hp HK) as E. destruct (HL _ E) as (m2 & ? & ?).
      destruct Hp as (m1 & ? & -> & _). by exists m1, m2.
  - intros H1 H2 H3. destruct HS as [[?|?]|[?|[E|[E E']]]]; [congruence|lia|congruence| |].
    + rewrite E in *. exact (HL _ (past_loads _ _ _ _ _ _ HN (past_now _ _ _ HR) HK)).
    + rewrite E in *. unfold committed at 2. rewrite E'. by apply HL.
Qed.

(** ** A run, and a stream of commits that is never flushed *)

Definition m_new : Manager := mkManager (Some ∅) true false false Selecting false defaultFlushInterval 0 NoFile 0 0.

Definition m_committed (n : nat) (d : bool) : Manager :=
  let t := 40000000 * Z.of_nat n in
  mkManager (Some (if d then {[key "orders" "g" 0 := Z.of_nat n]} else ∅)) true false false Selecting d
    (t + defaultFlushInterval) 0 NoFile t 0.

Lemma m_commit_step n d :
  Z.of_nat n < 2 ^ 62 -> reachable true (m_committed n d) (m_committed (S n) true).
Proof.
  intros Hn. set (t := 40000000 * Z.of_nat (S n)).
  eapply reach_step; [eapply reach_step; [eapply reach_step; [eapply reach_step; [apply reach_init|]|]|]|].
  - apply (st_tick true (m_committed n d) t); [cbn; lia|]. intros _. cbn.
    split; [done|]. split; [done|]. split; [done|]. intros _. unfold defaultFlushInterval. lia.
  - apply (st_commit true _ "orders" "g" 0 (Z.of_nat (S n))); [unfold in_i64; lia|]. reflexivity.
  - apply st_signal. cbn. lia.
  - match goal with |- step true ?m _ => assert (m_committed (S n) true = flush_signal m) as -> end.
    + unfold m_committed, flush_signal, signalDirty, tick. cbn [offsets persistent flushSignal closed fl dirty deadline
        saveErrors file now unsignalled pred]. f_equal. f_equal. destruct d; [by rewrite insert_singleton_eq|by rewrite insert_empty].
    + apply st_flush_signal; reflexivity.
Qed.

(** A steady stream of commits is never written.  Every commit restarts the
    flusher's timer: when a group commits every 40 ms, then even if the flusher
    reacts to every signal at once and time never passes beyond its timer, after
    any number of commits none of them is on disk. *)
Theorem commit_stream_starves_flush n :
  Z.of_nat n < 2 ^ 62 ->
  exists m, reachable true m_new m /\ now m = 40000000 * Z.of_nat n /\ file m = NoFile /\
    (n <> 0%nat -> GetPartition "orders" "g" 0 m = Some (Z.of_nat n)).
Proof.
  intros Hn. assert (exists d, reachable true m_new (m_committed n d) /\ (n <> 0%nat -> d = true)) as (d & HR & Hd).
  { induction n as [|n IH]; [by exists false; split; [apply reach_init|]|].
    destruct IH as (d & HR & _); [lia|]. exists true. split; [|done].
    eapply reachable_trans; [exact HR|]. apply m_commit_step. lia. }
  exists (m_committed n d). split; [done|]. split; [done|]. split; [done|]. intros Hne. rewrite (Hd Hne).
  unfold GetPartition, m_committed. cbn [offsets mbind option_bind]. by rewrite lookup_singleton_eq.
Qed.

Lemma commit_stream_starves_flush_witness :
  exists m, reachable true m_new m /\ now m = 40000000 * 3 /\ file m = NoFile /\
    (3%nat <> 0%nat -> GetPartition "orders" "g" 0 m = Some 3).
Proof. apply (commit_stream_starves_flush 3). reflexivity. Defined.

(** One commit, its save, and the restart. *)
Definition m_saved : Manager :=
  save_done {[key "orders" "g" 0 := 1]}
    (save_begin (tick 90000000 (m_committed 1 true))).

Lemma m_saved_reachable : reachable true m_new m_saved.
Proof.
  unfold m_saved. eapply reach_step; [eapply reach_step; [eapply reach_step|]|].
  - apply (m_commit_step 0 false). reflexivity.
  - apply (st_tick true (m_committed 1 true) 90000000); [vm_compute; discriminate|]. intros _. do 3 (split; [done|]). intros _.
    vm_compute. split; [discriminate|reflexivity].
  - apply st_save_begin; [reflexivity|vm_compute; discriminate|reflexivity].
  - apply st_save_done. reflexivity.
Qed.

Lemma offsets_survive_restart_witness :
  (exists m1 m2, reachable true m_new m1 /\ NewManagerWithPath (file m_saved) 7 = Some m2 /\ committed m2 = committed m1) /\
  (flushSignal m_saved = false -> unsignalled m_saved = 0%nat -> dirty m_saved = false ->
   exists m2, NewManagerWithPath (file m_saved) 7 = Some m2 /\ committed m2 = committed m_saved).
Proof.
  apply (offsets_survive_restart true NoFile 0 m_new m_saved 7).
  - reflexivity.
  - exact m_saved_reachable.
  - apply map_Forall_singleton. vm_compute. reflexivity.
Defined.

(** Two groups that share an offset: the separator may occur in names. *)
Lemma key_collision : key "a::b" "c" 0 = key "a" "b::c" 0.
Proof. reflexivity. Qed.
End Offsets.
