(* ===== verification/Server.v ===== *)
(** * The broker's servers

    [Module Gateway] models the handlers that put the parts together: the TCP
    server ([src/internal/broker/tcp_server.go]), the gRPC server's
    publish, fetch and consume paths ([src/internal/grpcapi/server.go]) and the
    recovery at start-up and the HTTP publish of [src/cmd/broker/main.go].

    A handler is a function on the servers' shared state; the write-ahead log is
    any implementation of the contract [WalSink], which [WalLog] discharges.
    What the clock and the log's system calls answer is a [clock] per publish.
    [None] is a panic.  Metrics and tracing spans are left out: they change no
    state the handlers read. *)

From S2P Require Import Prelude GoLib Protocol WalFormat WalLog GoJson GoTime AgentStream Broker Consumer.
Import Bus.

Module Gateway.
Local Open Scope Z_scope.

Section Servers.
Context {W IO : Type} `{SK : !WalCommit.WalSink W IO}.

Record Server := mkServer { bus : Broker; wal : option W; groups : Offsets.Manager }.

(** [time.Now()] in a topic, [time.Now().UnixNano()] for the log, and the log's I/O. *)
Record clock := mkClock { c_now : Z; c_ts : Z; c_io : IO }.

Inductive err :=
| ErrWal (e : Wal.wal_err)
| ErrBroker (e : broker_err).

(** [if s.wal != nil { s.wal.AppendRecord(rec) }] *)
Definition append_wal (c : clock) (rec : Wal.WalRecord) (s : Server) : Server * option Wal.wal_err :=
  match wal s with
  | None => (s, None)
  | Some w =>
      let '(w, e) := WalCommit.sink_append (c_io c) (c_ts c) rec w in
      (mkServer (bus s) (Some w) (groups s), e)
  end.

Definition set_bus (b : Broker) (s : Server) : Server := mkServer b (wal s) (groups s).

(** The WAL-first publish every handler goes through once the partition is
    known: the log, then the in-memory broker. *)
Definition publish_durable (c : clock) (topic key : string) (partition : Z) (payload : bytes) (s : Server) :
    option (result err Z * Server) :=
  match append_wal c (Wal.mkRecord (c_ts c) topic key (i32 partition) payload) s with
  | (s, Some e) => Some (Err (ErrWal e), s)
  | (s, None) =>
      '(r, b) ← PublishToPartition topic partition (c_now c) payload (bus s);
      Some (match r with Ok o => Ok o | Err e => Err (ErrBroker e) end, set_bus b s)
  end.

(** ** tcp_server.go

    A handler writes one frame to the connection, or returns an error that
    closes it. *)

Abbreviation reply := (result err Wire.Frame).

Definition error_frame (topic msg : string) : Wire.Frame := Wire.mkFrame Wire.OpError topic (bs_of msg).

Definition ack (topic : string) (r : result err Z) : reply :=
  match r with
  | Err e => Err e
  | Ok offset => Ok (Wire.mkFrame Wire.OpAck topic (be_bytes 8 (u64 offset)))
  end.

Definition handlePublish (c : clock) (f : Wire.Frame) (s : Server) : option (reply * Server) :=
  '(r, s) ← publish_durable c (Wire.Topic f) "" 0 (Wire.Payload f) s;
  Some (ack (Wire.Topic f) r, s).

Definition handlePublishWithKey (c : clock) (f : Wire.Frame) (s : Server) : option (reply * Server) :=
  match Wire.DecodeKeyedPayload (Wire.Payload f) with
  | Err _ => Some (Ok (error_frame (Wire.Topic f) "invalid keyed payload"), s)
  | Ok (key, payload) =>
      let '(partition, b) := RouteKey (Wire.Topic f) key (bus s) in
      '(r, s) ← publish_durable c (Wire.Topic f) key partition payload (set_bus b s);
      Some (ack (Wire.Topic f) r, s)
  end.

(** The loop over a batch: [first] is -1 until a message got its offset. *)
Fixpoint batch_loop (cs : nat -> clock) (i : nat) (topic : string) (ps : list bytes) (first last : Z) (s : Server) :
    option (result err (Z * Z) * Server) :=
  match ps with
  | [] => Some (Ok (first, last), s)
  | p :: ps =>
      '(r, s) ← publish_durable (cs i) topic "" 0 p s;
      match r with
      | Err e => Some (Err e, s)
      | Ok offset => batch_loop cs (S i) topic ps (if first <? 0 then offset else first) offset s
      end
  end.

Definition handleBatchPublish (cs : nat -> clock) (f : Wire.Frame) (s : Server) : option (reply * Server) :=
  match Wire.DecodeBatchPayload (Wire.Payload f) with
  | Err _ => Some (Ok (error_frame (Wire.Topic f) "invalid batch payload"), s)
  | Ok [] => Some (Ok (error_frame (Wire.Topic f) "empty batch"), s)
  | Ok payloads =>
      '(r, s) ← batch_loop cs 0 (Wire.Topic f) payloads (-1) 0 s;
      Some (match r with
            | Err e => Err e
            | Ok (first, last) =>
                Ok (Wire.mkFrame Wire.OpBatchAck (Wire.Topic f) (Wire.EncodeBatchAck first last (zlen payloads)))
            end, s)
  end.

Definition handleFetch (f : Wire.Frame) (s : Server) : option (reply * Server) :=
  match Wire.DecodeFetchRequest (Wire.Payload f) with
  | Err _ => Some (Ok (error_frame (Wire.Topic f) "invalid fetch payload"), s)
  | Ok (offset, maxCount) =>
      let maxCount := if maxCount <=? 0 then 1 else maxCount in
      let maxCount := if 4096 <? maxCount then 4096 else maxCount in
      '(ms, b) ← Fetch (Wire.Topic f) offset maxCount (bus s);
      let out := map (fun m => Wire.mkBatchMessage (m_Offset m) (m_Payload m)) ms in
      Some (Ok (Wire.mkFrame Wire.OpFetch (Wire.Topic f) (Wire.EncodeFetchResponse out)), set_bus b s)
  end.

(** [handleSubscribe] up to its loop, and one round of it, in which [Next] got a
    batch: the frames sent and the offset committed. *)
Definition subscribe_start (f : Wire.Frame) (s : Server) : option (nat * string * Server) :=
  let group := str_of (Wire.Payload f) in
  let group := if String.eqb group "" then "default"%string else group in
  let startOffset := default (-1) (Offsets.Get (Wire.Topic f) group (groups s)) in
  '(id, b) ← SubscribeAt (Wire.Topic f) group startOffset (bus s);
  Some (id, group, set_bus b s).

Definition subscribe_round (topic group : string) (id : nat) (s : Server) :
    option (option (list Wire.Frame) * Server) :=
  '(r, b) ← Next id 128 (bus s);
  match r with
  | None => Some (None, set_bus b s)
  | Some ms =>
      match ms !! (length ms - 1)%nat with
      | None => None
      | Some m =>
          let latestOffset := i64 (m_Offset m + 1) in
          match Offsets.Commit topic group latestOffset (groups s) with
          | None => None
          | Some g =>
              Some (Some (map (fun m => Wire.mkFrame Wire.OpMessage topic (m_Payload m)) ms),
                    mkServer (AddConsumed (zlen ms) b) (wal s) (Offsets.signalDirty g))
          end
      end
  end.

(** The switch of [handleConn] for one frame; [None] in the answer hands the
    connection to [handleSubscribe]. *)
Definition handle_frame (cs : nat -> clock) (f : Wire.Frame) (s : Server) : option (option reply * Server) :=
  if String.eqb (Wire.Topic f) "" then Some (Some (Ok (error_frame "error" "topic required")), s)
  else if decide (Wire.Op f = Wire.OpPublish) then '(r, s) ← handlePublish (cs 0%nat) f s; Some (Some r, s)
  else if decide (Wire.Op f = Wire.OpPublishWithKey) then
    '(r, s) ← handlePublishWithKey (cs 0%nat) f s; Some (Some r, s)
  else if decide (Wire.Op f = Wire.OpBatchPublish) then '(r, s) ← handleBatchPublish cs f s; Some (Some r, s)
  else if decide (Wire.Op f = Wire.OpFetch) then '(r, s) ← handleFetch f s; Some (Some r, s)
  else if decide (Wire.Op f = Wire.OpSubscribe) then Some (None, s)
  else Some (Some (Ok (error_frame (Wire.Topic f) "unsupported operation")), s).

(** ** grpcapi/server.go *)

Inductive status :=
| InvalidArgument (msg : string)
| Internal (e : err)
| FailedPrecondition (leader : string)
| DeadlineExceeded
| ResourceExhausted.

Definition Publish (c : clock) (topic key : string) (reqPartition : Z) (payload : bytes) (s : Server) :
    option (result status (Z * Z) * Server) :=
  if String.eqb topic "" then Some (Err (InvalidArgument "topic is required"), s)
  else
    let '(partition, s) :=
      if 0 <=? reqPartition then
        let s := set_bus (EnsureTopic topic 0 (bus s)) s in
        if PartitionCount topic (bus s) <=? reqPartition then (None, s) else (Some reqPartition, s)
      else let '(p, b) := RouteKey topic key (bus s) in (Some p, set_bus b s) in
    match partition with
    | None => Some (Err (InvalidArgument "invalid partition"), s)
    | Some partition =>
        '(r, s) ← publish_durable c topic key partition payload s;
        Some (match r with Err e => Err (Internal e) | Ok offset => Ok (offset, i32 partition) end, s)
    end.

(** [Consume] up to its loop, and one round of it. *)
Definition consume_start (topic group : string) (reqPartition : Z) (s : Server) :
    option (result status (nat * string * Z) * Server) :=
  if String.eqb topic "" then Some (Err (InvalidArgument "topic is required"), s)
  else
    let group := if String.eqb group "" then "default"%string else group in
    if reqPartition <? 0 then
      '(id, b) ← SubscribeGroupAt topic group (-1) (bus s);
      sub ← subscriptions b !! id;
      let b := match Offsets.GetPartition topic group (s_partition sub) (groups s) with
               | Some committed => Commit id committed b
               | None => b
               end in
      Some (Ok (id, group, s_partition sub), set_bus b s)
    else
      let startOffset := default (-1) (Offsets.GetPartition topic group reqPartition (groups s)) in
      '(id, b) ← SubscribePartitionAt topic group reqPartition startOffset (bus s);
      sub ← subscriptions b !! id;
      Some (Ok (id, group, s_partition sub), set_bus b s).

Record ConsumeMessage := mkConsumeMessage { cm_Offset : Z; cm_Payload : bytes; cm_Timestamp : Z; cm_Partition : Z }.

Definition consume_message (partition : Z) (m : Message) : ConsumeMessage :=
  mkConsumeMessage (m_Offset m) (m_Payload m) (Time.UnixNano (m_Timestamp m)) (i32 partition).

Definition consume_round (topic group : string) (partition : Z) (id : nat) (s : Server) :
    option (option (list ConsumeMessage) * Server) :=
  '(r, b) ← Next id 128 (bus s);
  match r with
  | None => Some (None, set_bus b s)
  | Some ms =>
      match ms !! (length ms - 1)%nat with
      | None => None
      | Some m =>
          let latestOffset := i64 (m_Offset m + 1) in
          match Offsets.CommitPartition topic group partition latestOffset (groups s) with
          | None => None
          | Some g =>
              Some (Some (map (consume_message partition) ms),
                    mkServer (AddConsumed (zlen ms) b) (wal s) (Offsets.signalDirty g))
          end
      end
  end.

(** *** Fetch *)

Record SessionFilter := mkFilter { f_Tenant : string; f_Project : string; f_SessionId : string }.

Record envelopePeek := mkPeek { p_Tenant : string; p_Project : string; p_SessionID : string }.

Definition set_peek (key raw : bytes) (v : Json.json) (p : envelopePeek) : option envelopePeek :=
  if Json.field_is "tenant" key then x ← Json.dec_string v (p_Tenant p); Some {| p with p_Tenant := x |}
  else if Json.field_is "project" key then x ← Json.dec_string v (p_Project p); Some {| p with p_Project := x |}
  else if Json.field_is "session_id" key then x ← Json.dec_string v (p_SessionID p); Some {| p with p_SessionID := x |}
  else Some p.

Definition field_matches (want got : string) : bool := String.eqb want "" || String.eqb want got.

Definition sessionFilterMatches (payload : bytes) (f : SessionFilter) : bool :=
  if String.eqb (f_Tenant f) "" && String.eqb (f_Project f) "" && String.eqb (f_SessionId f) "" then true
  else
    match Json.unmarshal set_peek (mkPeek "" "" "") payload with
    | None => false
    | Some p =>
        field_matches (f_Tenant f) (p_Tenant p) && field_matches (f_Project f) (p_Project p) &&
        field_matches (f_SessionId f) (p_SessionID p)
    end.

Record FetchResponse := mkFetchResponse { r_Messages : list ConsumeMessage; r_NextOffset : Z; r_Head : Z; r_Tail : Z }.

(** One page of the filtered scan: the matches so far, stopping at [maxCount],
    and how many messages were looked at. *)
Fixpoint scan_page (f : SessionFilter) (partition maxCount : Z) (ms : list Message) (out : list ConsumeMessage)
    (scanned : Z) : list ConsumeMessage * Z :=
  match ms with
  | [] => (out, scanned)
  | m :: ms =>
      let scanned := scanned + 1 in
      if sessionFilterMatches (m_Payload m) f then
        let out := out ++ [consume_message partition m] in
        if maxCount <=? zlen out then (out, scanned) else scan_page f partition maxCount ms out scanned
      else scan_page f partition maxCount ms out scanned
  end.

(** The pages; every page but an empty one looks at a message, so [scanLimit]
    iterations are enough. *)
Fixpoint scan_loop (fuel : nat) (f : SessionFilter) (topic : string) (partition maxCount scanLimit pageSize tail : Z)
    (offset : Z) (out : list ConsumeMessage) (scanned : Z) (b : Broker) :
    option (list ConsumeMessage * Z * Broker) :=
  match fuel with
  | O => None
  | S fuel =>
      if (zlen out <? maxCount) && (scanned <? scanLimit) && (offset <? tail) then
        match FetchPartition topic partition offset pageSize b with
        | None => None
        | Some ([], b) => Some (out, offset, b)
        | Some (ms, b) =>
            let '(out, scanned) := scan_page f partition maxCount ms out scanned in
            scan_loop fuel f topic partition maxCount scanLimit pageSize tail (i64 (offset + zlen ms)) out scanned b
        end
      else Some (out, offset, b)
  end.

(** The page's limit and the scan's budget, with their defaults and caps. *)
Definition max_count (reqMax : Z) : Z :=
  let maxCount := if reqMax <=? 0 then 256 else reqMax in
  if 4096 <? maxCount then 4096 else maxCount.

Definition scan_limit (reqScan : Z) : Z :=
  let scanLimit := if reqScan <=? 0 then 16384 else reqScan in
  if 65536 <? scanLimit then 65536 else scanLimit.

Definition Fetch (topic : string) (partition from reqMax reqScan : Z) (filter : option SessionFilter) (s : Server) :
    option (result status FetchResponse * Server) :=
  if String.eqb topic "" then Some (Err (InvalidArgument "topic is required"), s)
  else if partition <? 0 then Some (Err (InvalidArgument "partition must be >= 0"), s)
  else if PartitionCount topic (bus s) <=? partition then
    r ← TopicPartitionInfo topic partition (bus s);
    Some (Ok match r with
             | Err _ => mkFetchResponse [] from 0 0
             | Ok (head, tail) => mkFetchResponse [] from head tail
             end, s)
  else
    let maxCount := max_count reqMax in
    r ← TopicPartitionInfo topic partition (bus s);
    let '(head, tail) := match r with Ok ht => ht | Err _ => (0, 0) end in
    match filter with
    | None =>
        match FetchPartition topic partition from maxCount (bus s) with
        | None => None
        | Some (ms, b) =>
            Some (Ok (mkFetchResponse (map (consume_message partition) ms) (i64 (from + zlen ms)) head tail), set_bus b s)
        end
    | Some f =>
        let scanLimit := scan_limit reqScan in
        let pageSize := if scanLimit <? 1024 then scanLimit else 1024 in
        match scan_loop (S (Z.to_nat scanLimit)) f topic partition maxCount scanLimit pageSize tail from [] 0 (bus s) with
        | None => None
        | Some (out, next, b) => Some (Ok (mkFetchResponse out next head tail), set_bus b s)
        end
    end.

(** *** The durable write path of agent events

    [routeCheck] and [shardWAL] are the interfaces the cluster implements:
    [route] answers whether this node leads the session's shard, the shard and
    its leader's address; [shard_append] is the shard log's offset or error,
    [quorum] whether the wait for replication succeeded. *)

Definition appendDurable (shard_append : option (Z -> bytes -> option Z)) (quorum : Z -> Z -> bool) (c : clock)
    (topic key : string) (shardID : Z) (encoded : bytes) (s : Server) :
    option (result status (Z * Z) * Server) :=
  let '(partition, b) := RouteKey topic key (bus s) in
  let s := set_bus b s in
  let durable :=
    match shard_append with
    | None => Ok tt
    | Some append =>
        match append shardID encoded with
        | None => Err (Internal (ErrWal (Wal.ErrSys 0)))
        | Some off => if quorum shardID off then Ok tt else Err DeadlineExceeded
        end
    end in
  match durable with
  | Err e => Some (Err e, s)
  | Ok _ =>
      '(r, s) ← publish_durable c topic key partition encoded s;
      Some (match r with Err e => Err (Internal e) | Ok offset => Ok (offset, i32 partition) end, s)
  end.

Definition PublishEnvelope (route : option (string -> string -> string -> bool * Z * string))
    (shard_append : option (Z -> bytes -> option Z)) (quorum : Z -> Z -> bool) (c : clock)
    (topic : string) (env : Envelope.Event) (s : Server) : option (result status (Z * Z) * Server) :=
  match Envelope.Marshal (c_now c) env with
  | Err _ => Some (Err (InvalidArgument "invalid envelope"), s)
  | Ok encoded =>
      let key := Envelope.SessionKey (Envelope.Tenant env) (Envelope.Project env) (Envelope.SessionID env) in
      match route with
      | None => appendDurable shard_append quorum c topic key 0 encoded s
      | Some rc =>
          let '(isLocal, sid, hint) := rc (Envelope.Tenant env) (Envelope.Project env) (Envelope.SessionID env) in
          if isLocal then appendDurable shard_append quorum c topic key sid encoded s
          else Some (Err (FailedPrecondition hint), s)
      end
  end.

(** The event of a [PublishAgentRequest]; [throttled] is the verdict of the
    tenant's token bucket, [None] when rate limiting is off. *)
Record AgentEvent := mkAgentEvent {
  a_Type : string; a_Tenant : string; a_Project : string; a_SessionId : string; a_AgentId : string; a_Payload : option bytes
}.

Definition PublishAgent (throttled : option (string -> bool))
    (route : option (string -> string -> string -> bool * Z * string))
    (shard_append : option (Z -> bytes -> option Z)) (quorum : Z -> Z -> bool) (c : clock)
    (req : option AgentEvent) (s : Server) : option (result status (Z * Z) * Server) :=
  let ev := default (mkAgentEvent "" "" "" "" "" None) req in
  let isoKey := if String.eqb (a_Tenant ev) "" then "(no-tenant)"%string else a_Tenant ev in
  if match throttled with Some t => t isoKey | None => false end then Some (Err ResourceExhausted, s)
  else
    let routed :=
      match route with
      | None => Ok 0
      | Some rc =>
          if String.eqb (a_Tenant ev) "" || String.eqb (a_Project ev) "" || String.eqb (a_SessionId ev) "" then Ok 0
          else
            let '(isLocal, sid, hint) := rc (a_Tenant ev) (a_Project ev) (a_SessionId ev) in
            if isLocal then Ok sid else Err (FailedPrecondition hint)
      end in
    match routed, req with
    | Err e, _ => Some (Err e, s)
    | Ok _, None => Some (Err (InvalidArgument "event is required"), s)
    | Ok shardID, Some ev =>
        let env := Envelope.mkEvent "" (a_Type ev) (a_Tenant ev) (a_Project ev) (a_SessionId ev) (a_AgentId ev) "" 0 ""
                     (a_Payload ev) in
        match Envelope.Marshal (c_now c) env with
        | Err _ => Some (Err (InvalidArgument "invalid agent event"), s)
        | Ok encoded =>
            appendDurable shard_append quorum c "agent-events"
              (Envelope.SessionKey (a_Tenant ev) (a_Project ev) (a_SessionId ev)) shardID encoded s
        end
    end.

(** ** cmd/broker/main.go *)

(** The callback that the replay at start-up runs on every record; [None] is a
    broker that panicked. *)
Definition restore (now : Z) (b : option Broker) (rec : Wal.WalRecord) : option Broker * option Z :=
  match b with
  | None => (None, Some 2)
  | Some b =>
      if 0 <=? Wal.Partition rec then
        match PublishToPartition (Wal.Topic rec) (Wal.Partition rec) now (Wal.Payload rec) b with
        | None => (None, Some 2)
        | Some (Ok _, b) => (Some b, None)
        | Some (Err _, b) => (Some b, Some 1)
        end
      else if String.eqb (Wal.Key rec) "" then
        match Bus.Publish (Wal.Topic rec) now (Wal.Payload rec) b with
        | None => (None, Some 2)
        | Some (_, b) => (Some b, None)
        end
      else
        match PublishWithKey (Wal.Topic rec) (Wal.Key rec) now (Wal.Payload rec) b with
        | None => (None, Some 2)
        | Some (_, _, b) => (Some b, None)
        end
  end.

(** The handler of POST /api/publish, which publishes first and ignores the
    log's error. *)
Definition api_publish (c : clock) (topic key : string) (reqPartition : Z) (payload : bytes) (s : Server) :
    option (result broker_err (Z * Z) * Server) :=
  let published :=
    if 0 <? reqPartition then
      '(r, b) ← PublishToPartition topic reqPartition (c_now c) payload (bus s);
      Some (match r with Ok o => Ok (reqPartition, o) | Err e => Err e end, b)
    else if negb (String.eqb key "") then
      '(p, o, b) ← PublishWithKey topic key (c_now c) payload (bus s); Some (Ok (p, o), b)
    else '(o, b) ← Bus.Publish topic (c_now c) payload (bus s); Some (Ok (0, o), b) in
  '(r, b) ← published;
  match r with
  | Err e => Some (Err e, set_bus b s)
  | Ok (partition, offset) =>
      let '(s, _) := append_wal c (Wal.mkRecord (c_ts c) topic key (i32 partition) payload) (set_bus b s) in
      Some (Ok (partition, offset), s)
  end.

End Servers.

(** ** The log and the broker agree

    The payloads of one partition, in order: in the abstract broker, and in a
    list of records. *)

Definition plog (a : Logs) (t : string) (p : nat) : list bytes :=
  map snd (default [] ((log_topic t a).1 !! p)).

Definition recs_for (t : string) (p : nat) (l : list Wal.WalRecord) : list bytes :=
  map Wal.Payload (filter (fun r => Wal.Topic r = t /\ Wal.Partition r = Z.of_nat p) l).

(** The topics that the servers create all have the default three partitions. *)
Definition three (a : Logs) : Prop := forall t ls, l_topics a !! t = Some ls -> length ls.1 = 3%nat.

Definition in_three (r : Wal.WalRecord) : Prop := 0 <= Wal.Partition r < 3.

Lemma three_topic a t : three a -> length (log_topic t a).1 = 3%nat.
Proof. intros H. unfold log_topic. destruct (l_topics a !! t) eqn:E; cbn; [by eapply H|done]. Qed.

Lemma three_set a t ls : three a -> length ls.1 = 3%nat -> three (set_logs t ls a).
Proof.
  intros H Hl t' ls' E. cbn in E. rewrite lookup_insert in E. case_decide; simplify_eq; [done|]. by eapply H.
Qed.

Lemma plog_set a t ls t' p :
  plog (set_logs t ls a) t' p = if decide (t' = t) then map snd (default [] (ls.1 !! p)) else plog a t' p.
Proof.
  unfold plog, log_topic, set_logs. cbn. destruct (decide (t' = t)) as [->|Hne].
  - by rewrite lookup_insert_eq.
  - by rewrite lookup_insert_ne.
Qed.

(** Keeping a topic's logs changes nothing. *)
Lemma plog_same a t c t' p : plog (set_logs t ((log_topic t a).1, c) a) t' p = plog a t' p.
Proof. rewrite plog_set. by destruct (decide (t' = t)) as [->|]. Qed.

Lemma recs_for_snoc t p l r :
  recs_for t p (l ++ [r]) =
    recs_for t p l ++ (if decide (Wal.Topic r = t /\ Wal.Partition r = Z.of_nat p) then [Wal.Payload r] else []).
Proof.
  unfold recs_for. rewrite list.filter_app, map_app. f_equal. rewrite filter_cons, filter_nil. by destruct (decide _).
Qed.

Lemma valid_three a t pt : three a -> 0 <= pt < 3 -> valid pt (log_topic t a).1 = true.
Proof.
  intros H3 Hp. unfold valid. rewrite (three_topic a t H3). apply andb_true_intro.
  split; [apply Z.leb_le|apply Z.ltb_lt]; lia.
Qed.

Lemma plog_append a t pt e t' p :
  three a -> 0 <= pt < 3 ->
  plog (log_append t (log_topic t a) pt e a).2 t' p =
    plog a t' p ++ (if decide (t = t' /\ pt = Z.of_nat p) then [e.2] else []).
Proof.
  intros H3 Hpt. unfold log_append. cbn [snd]. rewrite plog_set. cbn [fst].
  destruct (decide (t' = t)) as [->|Hne]; [|rewrite decide_False by (intros [? _]; congruence); by rewrite app_nil_r].
  unfold plog. destruct (decide (pt = Z.of_nat p)) as [->|Hp].
  - rewrite Nat2Z.id, list_lookup_alter_eq, decide_True by done.
    destruct (lookup_lt_is_Some_2 (log_topic t a).1 p) as [l ->]; [rewrite three_topic by done; lia|].
    cbn. by rewrite map_app.
  - rewrite list_lookup_alter_ne, decide_False by (try (intros [_ ?]); lia || congruence). by rewrite app_nil_r.
Qed.

Lemma three_append a t pt e : three a -> three (log_append t (log_topic t a) pt e a).2.
Proof. intros H3. apply three_set; [done|]. cbn. rewrite length_alter. by apply three_topic. Qed.

Lemma route_lt n next key : (0 < n)%nat -> 0 <= (route n next key).2 < Z.of_nat n.
Proof.
  intros Hn. unfold route. destruct (decide _); [cbn; lia|].
  destruct (String.eqb key ""); apply Z.mod_pos_bound; lia.
Qed.

(** *** Recovery *)

(** A broker that stands for the records [l]. *)
Definition holds (n : Z) (l : list Wal.WalRecord) (b : Broker) : Prop :=
  exists a, rel n a b /\ three a /\ forall t p, plog a t p = recs_for t p l.

Lemma holds_new : holds 0 [] New.
Proof.
  exists empty_logs. split; [apply New_rel|]. split; [intros t ls E; cbn in E; by rewrite lookup_empty in E|].
  intros t p. unfold plog, log_topic. cbn. rewrite lookup_empty. cbn.
  destruct p as [|[|[|p]]]; done.
Qed.

Lemma holds_mono n m l b : n <= m -> holds n l b -> holds m l b.
Proof. intros Hnm (a & HR & H). exists a. split; [by eapply rel_mono|done]. Qed.

Lemma holds_publish n l b t key pt ts now payload :
  holds n l b -> 0 <= n < 2 ^ 62 - 1 -> 0 <= pt < 3 ->
  exists o b', PublishToPartition t pt now payload b = Some (Ok o, b') /\
    holds (n + 1) (l ++ [Wal.mkRecord ts t key pt payload]) b'.
Proof.
  intros (a & HR & H3 & HP) Hn Hpt.
  destruct (op_publish_to n a b t pt now payload HR Hn) as (b' & r & E & Hr).
  rewrite valid_three in Hr by done. destruct Hr as [-> HR']. eexists _, b'. split; [exact E|].
  eexists. split; [exact HR'|]. split; [by apply three_append|]. intros t' p.
  rewrite plog_append, recs_for_snoc, HP by done. cbn. done.
Qed.

(** The replay's callback run over records puts them all back. *)
Lemma restore_records now l : forall n l0 b,
  holds n l0 b -> 0 <= n -> n + zlen l < 2 ^ 62 -> Forall in_three l ->
  exists b', Wal.run_callback (restore now) l (Some b) = (Some b', None) /\ holds (n + zlen l) (l0 ++ l) b'.
Proof.
  induction l as [|r l IH]; intros n l0 b Hb Hn Hlt HF; cbn [Wal.run_callback length] in *.
  { exists b. rewrite app_nil_r, Z.add_0_r. done. }
  destruct (list.Forall_cons_1 _ _ _ HF) as [Hr HF']. unfold restore at 1.
  rewrite (proj2 (Z.leb_le _ _)) by (unfold in_three in Hr; lia).
  destruct (holds_publish n l0 b (Wal.Topic r) (Wal.Key r) (Wal.Partition r) (Wal.Timestamp r) now (Wal.Payload r) Hb)
    as (o & b1 & -> & Hb1); [lia|done|].
  destruct (IH (n + 1) (l0 ++ [r]) b1) as (b' & E & Hb'); [by destruct r|lia|lia|done|].
  exists b'. split; [exact E|]. rewrite <- app_assoc in Hb'. by replace (n + Z.of_nat (S (length l))) with (n + 1 + zlen l) by lia.
Qed.

(** *** Requests, one at a time *)

Section Recovery.
Context {W IO : Type} `{SK : !WalCommit.WalSink W IO}.

Inductive request :=
| ReqFrame (f : Wire.Frame)
| ReqPublish (topic key : string) (partition : Z) (payload : bytes)
| ReqFetch (topic : string) (partition from reqMax reqScan : Z) (filter : option SessionFilter)
| ReqEnvelope (route : option (string -> string -> string -> bool * Z * string))
    (shard_append : option (Z -> bytes -> option Z)) (quorum : Z -> Z -> bool) (topic : string) (env : Envelope.Event)
| ReqAgent (throttled : option (string -> bool)) (route : option (string -> string -> string -> bool * Z * string))
    (shard_append : option (Z -> bytes -> option Z)) (quorum : Z -> Z -> bool) (ev : option AgentEvent).

Definition handle (cs : nat -> @clock IO) (r : request) (s : @Server W) : option (@Server W) :=
  match r with
  | ReqFrame f => '(_, s) ← handle_frame cs f s; Some s
  | ReqPublish t k pt p => '(_, s) ← Publish (cs 0%nat) t k pt p s; Some s
  | ReqFetch t pt from m sc flt => '(_, s) ← Fetch t pt from m sc flt s; Some s
  | ReqEnvelope rt sh q t env => '(_, s) ← PublishEnvelope rt sh q (cs 0%nat) t env s; Some s
  | ReqAgent th rt sh q ev => '(_, s) ← PublishAgent th rt sh q (cs 0%nat) ev s; Some s
  end.

Fixpoint handle_all (rs : list ((nat -> @clock IO) * request)) (s : @Server W) : option (@Server W) :=
  match rs with
  | [] => Some s
  | (cs, r) :: rs => s ← handle cs r s; handle_all rs s
  end.

(** The timestamps of a run fit their type. *)
Definition clocks_ok (cs : nat -> @clock IO) : Prop := forall i, in_i64 (c_ts (cs i)).

(** [l] was published; the log holds it, and after an I/O error possibly the
    record that failed. *)
Definition logged (w : W) (l : list Wal.WalRecord) : Prop :=
  Forall in_three (WalCommit.sink_log w) /\
  (WalCommit.sink_log w = l \/ WalCommit.sink_dead w /\ exists r, WalCommit.sink_log w = l ++ [r]).

Record srv_inv (n : Z) (l : list Wal.WalRecord) (s : @Server W) : Prop := {
  si_bus : holds n l (bus s);
  si_count : zlen l <= n;
  si_wal : exists w, wal s = Some w /\ WalCommit.sink_ok w /\ logged w l
}.

(** A handler's effect: it published some records. *)
Definition serves (n k : Z) (s : @Server W) (s' : @Server W) : Prop :=
  forall l, srv_inv n l s -> exists l', srv_inv (n + k) (l ++ l') s'.

Lemma serves_refl n k s : 0 <= k -> serves n k s s.
Proof.
  intros Hk l [Hb Hc Hw]. exists []. rewrite app_nil_r. split; [|lia|done]. by eapply holds_mono; [|exact Hb]; lia.
Qed.

Lemma serves_trans n k1 k2 s1 s2 s3 : serves n k1 s1 s2 -> serves (n + k1) k2 s2 s3 -> serves n (k1 + k2) s1 s3.
Proof.
  intros H1 H2 l HI. destruct (H1 l HI) as (l1 & HI1). destruct (H2 _ HI1) as (l2 & HI2).
  exists (l1 ++ l2). by rewrite app_assoc, Z.add_assoc.
Qed.

(** Reading the broker may create a topic but publishes nothing. *)
Lemma serves_bus n k s b : 0 <= k -> (forall l, holds n l (bus s) -> holds n l b) -> serves n k s (set_bus b s).
Proof.
  intros Hk H l [Hb Hc Hw]. exists []. rewrite app_nil_r. split; [|lia|done]. cbn.
  eapply holds_mono; [|by apply H]. lia.
Qed.

Lemma route_holds n l t key b :
  holds n l b -> 0 <= n -> 0 <= (RouteKey t key b).1 < 3 /\ holds n l (RouteKey t key b).2.
Proof.
  intros (a & HR & H3 & HP) Hn. destruct (op_route n a b t key HR Hn) as [E HR']. split.
  - rewrite E, (three_topic a t H3). apply (route_lt 3). lia.
  - eexists. split; [exact HR'|]. split; [by apply three_set; [|apply three_topic]|].
    intros t' p. by rewrite plog_same.
Qed.

Lemma ensure_holds n l t b : holds n l b -> 0 <= n -> holds n l (EnsureTopic t 0 b).
Proof.
  intros (a & HR & H3 & HP) Hn. pose proof (op_ensure n a b t 0 HR Hn ltac:(lia)) as HR'.
  change (replicate (Z.to_nat (if 0 <=? 0 then 3 else 0)) ([] : list entry), 0) with (replicate 3 ([] : list entry), 0) in HR'.
  fold (log_topic t a) in HR'. eexists. split; [exact HR'|]. split; [by apply three_set; [|apply three_topic]|].
  intros t' p. rewrite plog_set, <- HP. by destruct (decide (t' = t)) as [->|].
Qed.

Lemma fetch_holds n l t pt o m b ms b' :
  holds n l b -> 0 <= n -> 0 <= m < 2 ^ 62 -> FetchPartition t pt o m b = Some (ms, b') -> holds n l b'.
Proof.
  intros (a & HR & H3 & HP) Hn Hm E. destruct (op_fetch n a b t pt o m HR Hn Hm) as (b1 & E1 & HR').
  rewrite E1 in E. simplify_eq. eexists. split; [exact HR'|]. split; [by apply three_set; [|apply three_topic]|].
  intros t' p. rewrite plog_set, <- HP. by destruct (decide (t' = t)) as [->|].
Qed.

Lemma stamp_fields ts r :
  Wal.Topic (WalCommit.stamp ts r) = Wal.Topic r /\ Wal.Partition (WalCommit.stamp ts r) = Wal.Partition r /\
  Wal.Payload (WalCommit.stamp ts r) = Wal.Payload r /\ Wal.Key (WalCommit.stamp ts r) = Wal.Key r.
Proof. unfold WalCommit.stamp. by destruct (Wal.Timestamp r =? 0). Qed.

(** A publish through the log keeps log and broker in step. *)
Lemma publish_serves n (c : @clock IO) t key pt p (s s' : @Server W) r :
  0 <= n < 2 ^ 62 - 1 -> in_i64 (c_ts c) -> 0 <= pt < 3 ->
  publish_durable c t key pt p s = Some (r, s') -> serves n 1 s s'.
Proof.
  intros Hn Hts Hpt E l [Hb Hc (w & Ew & Hok & HL & Hlog)]. unfold publish_durable, append_wal in E. rewrite Ew in E.
  assert (i32 pt = pt) as Hi by (apply wrap_s_small; lia). rewrite Hi in E.
  set (rec := Wal.mkRecord (c_ts c) t key pt p) in *.
  assert (WalCommit.typed (c_ts c) rec) as Hty.
  { split; [done|]. split; [done|]. unfold in_i32. cbn. lia. }
  destruct (WalCommit.sink_append (c_io c) (c_ts c) rec w) as [w' e] eqn:EA.
  assert (in_three (WalCommit.stamp (c_ts c) rec)) as Hin.
  { unfold in_three. destruct (stamp_fields (c_ts c) rec) as (_ & -> & _). done. }
  destruct e as [e|].
  - simplify_eq. exists []. rewrite app_nil_r. split; [by eapply holds_mono; [|exact Hb]; lia|lia|]. cbn.
    exists w'. split; [done|].
    destruct Hlog as [Hlog|[Hd (x & Hx)]].
    + destruct (WalCommit.sink_append_err _ _ _ _ _ _ Hok Hty EA) as [->|(Hok' & Hd' & HL')].
      * split; [done|]. split; [done|]. by left.
      * split; [done|]. unfold logged. rewrite <- Hlog. destruct HL' as [->|[-> _]].
        -- split; [done|]. by left.
        -- split; [by apply Forall_app; split; [|apply Forall_singleton]|]. right. split; [done|]. by eexists.
    + destruct (WalCommit.sink_dead_stays (c_io c) (c_ts c) rec w Hok Hd) as (e' & EA'). rewrite EA' in EA. simplify_eq.
      split; [done|]. split; [done|]. right. split; [done|]. by exists x.
  - assert (WalCommit.sink_log w = l) as Hl.
    { destruct Hlog as [|[Hd _]]; [done|].
      destruct (WalCommit.sink_dead_stays (c_io c) (c_ts c) rec w Hok Hd) as (e' & EA'). rewrite EA' in EA. done. }
    destruct (WalCommit.sink_append_ok _ _ _ _ _ Hok Hty EA) as (Hok' & HL' & _).
    cbn [bus] in E. destruct (holds_publish n l (bus s) t key pt (Wal.Timestamp (WalCommit.stamp (c_ts c) rec)) (c_now c) p Hb Hn Hpt)
      as (o & b' & E' & Hb').
    rewrite E' in E. cbn in E. simplify_eq. exists [WalCommit.stamp (c_ts c) rec].
    assert (Wal.mkRecord (Wal.Timestamp (WalCommit.stamp (c_ts c) rec)) t key pt p = WalCommit.stamp (c_ts c) rec) as Er.
    { destruct (stamp_fields (c_ts c) rec) as (F1 & F2 & F3 & F4).
      destruct (WalCommit.stamp (c_ts c) rec). cbn in *. by subst. }
    rewrite Er in Hb'. split; [exact Hb'|rewrite length_app; cbn; lia|]. cbn. exists w'. split; [done|]. split; [done|].
    unfold logged. rewrite HL'. split; [by apply Forall_app; split; [|apply Forall_singleton]|]. by left.
Qed.

(** *** Every handler keeps them in step *)

Ltac bind_case E :=
  match type of E with
  | mbind _ ?m = Some _ => destruct m as [[? ?]|] eqn:?; [|discriminate E]; cbn [mbind option_bind] in E
  end.

Lemma batch_serves cs t ps : forall n i first last (s s' : @Server W) r,
  0 <= n -> n + zlen ps < 2 ^ 62 - 1 -> clocks_ok cs ->
  batch_loop cs i t ps first last s = Some (r, s') -> serves n (zlen ps) s s'.
Proof.
  induction ps as [|p ps IH]; intros n i first last s s' r Hn Hlt Hcs E; cbn [batch_loop length] in *.
  { simplify_eq. by apply serves_refl. }
  bind_case E. replace (Z.of_nat (S (length ps))) with (1 + zlen ps) in * by lia.
  match goal with H : publish_durable _ _ _ _ _ _ = Some (?r0, ?s0) |- _ =>
    pose proof (publish_serves n (cs i) t "" 0 p s s0 r0 ltac:(lia) (Hcs i) ltac:(lia) H) as H1;
    destruct r0 as [o|e] end.
  - eapply serves_trans; [exact H1|]. eapply IH; [| |done|exact E]; lia.
  - simplify_eq. eapply serves_trans; [exact H1|]. apply serves_refl. lia.
Qed.

Lemma route_publish_serves n (c : @clock IO) t key p (s s' : @Server W) r :
  0 <= n < 2 ^ 62 - 1 -> in_i64 (c_ts c) ->
  publish_durable c t key (RouteKey t key (bus s)).1 p (set_bus (RouteKey t key (bus s)).2 s) = Some (r, s') ->
  serves n 1 s s'.
Proof.
  intros Hn Hts E l HI. destruct (route_holds n l t key (bus s) (si_bus _ _ _ HI) ltac:(lia)) as [Hpt Hb].
  eapply (publish_serves n c t key _ p _ s' r Hn Hts Hpt E). destruct HI as [_ Hc Hw]. by split.
Qed.

Lemma scan_holds fuel f t pt mx sl pg tl : forall n l off out sc b out' next b',
  holds n l b -> 0 <= n -> 0 <= pg < 2 ^ 62 ->
  scan_loop fuel f t pt mx sl pg tl off out sc b = Some (out', next, b') -> holds n l b'.
Proof.
  induction fuel as [|fuel IH]; intros n l off out sc b out' next b' Hb Hn Hpg E; cbn [scan_loop] in E; [done|].
  destruct (_ && _); [|by simplify_eq].
  destruct (FetchPartition t pt off pg b) as [[ms b1]|] eqn:EF; [|done].
  pose proof (fetch_holds _ _ _ _ _ _ _ _ _ Hb Hn Hpg EF) as Hb1.
  destruct ms as [|m ms]; [by simplify_eq|].
  destruct (scan_page f pt mx (m :: ms) out sc) as [out1 sc1]. by eapply IH.
Qed.

Lemma max_count_range m : 0 < max_count m <= 4096.
Proof. unfold max_count. destruct (m <=? 0) eqn:E1; go_bool; [done|]. destruct (4096 <? m) eqn:E2; go_bool; lia. Qed.

Lemma scan_limit_range m : 0 < scan_limit m <= 65536.
Proof. unfold scan_limit. destruct (m <=? 0) eqn:E1; go_bool; [done|]. destruct (65536 <? m) eqn:E2; go_bool; lia. Qed.

Lemma fetch_serves n t pt from mx sc flt (s s' : @Server W) r :
  0 <= n -> Fetch t pt from mx sc flt s = Some (r, s') -> serves n 0 s s'.
Proof.
  intros Hn E. unfold Fetch in E.
  assert (forall b, (forall l, holds n l (bus s) -> holds n l b) -> serves n 0 s (set_bus b s)) as HB
    by (intros b; apply serves_bus; lia).
  destruct (String.eqb t ""); [simplify_eq; by apply serves_refl|].
  destruct (pt <? 0); [simplify_eq; by apply serves_refl|].
  destruct (TopicPartitionInfo t pt (bus s)) as [i|]; [|by destruct (_ <=? pt)].
  destruct (_ <=? pt); [cbn in E; simplify_eq; by apply serves_refl|]. cbn [mbind option_bind] in E.
  pose proof (max_count_range mx) as Hmc.
  destruct (match i with Ok ht => ht | Err _ => (0, 0) end) as [hd tl].
  destruct flt as [f|].
  - pose proof (scan_limit_range sc) as Hsl.
    assert (0 <= (if scan_limit sc <? 1024 then scan_limit sc else 1024) < 2 ^ 62) as Hpg
      by (destruct (scan_limit sc <? 1024); lia).
    destruct (scan_loop _ _ _ _ _ _ _ _ _ _ _ _) as [[[out next] b]|] eqn:ES; [|done]. simplify_eq.
    apply HB. intros l Hl. by eapply scan_holds.
  - destruct (FetchPartition t pt from (max_count mx) (bus s)) as [[ms b]|] eqn:EF; [|done]. simplify_eq.
    apply HB. intros l Hl. eapply fetch_holds; [exact Hl|done| |exact EF]. lia.
Qed.

Lemma frame_serves n cs f (s s' : @Server W) r k :
  k = 1 + match Wire.DecodeBatchPayload (Wire.Payload f) with Ok ps => zlen ps | Err _ => 0 end ->
  0 <= n -> n + k < 2 ^ 62 - 1 -> clocks_ok cs -> handle_frame cs f s = Some (r, s') -> serves n k s s'.
Proof.
  intros Hk Hn Hlt Hcs E.
  assert (1 <= k) as Hk1 by (destruct (Wire.DecodeBatchPayload _); lia).
  assert (forall s', serves n 1 s s' -> serves n k s s') as HM.
  { intros s1 H1. replace k with (1 + (k - 1)) by lia. eapply serves_trans; [exact H1|]. apply serves_refl. lia. }
  unfold handle_frame in E. destruct (String.eqb _ ""); [simplify_eq; apply serves_refl; lia|].
  destruct (decide _).
  { bind_case E. simplify_eq. unfold handlePublish in *. bind_case Heqo. simplify_eq.
    apply HM. eapply publish_serves; [| | |exact Heqo0]; [lia|apply Hcs|lia]. }
  destruct (decide _).
  { bind_case E. simplify_eq. unfold handlePublishWithKey in Heqo.
    destruct (Wire.DecodeKeyedPayload _) as [[key p]|]; [|simplify_eq; apply serves_refl; lia].
    destruct (RouteKey (Wire.Topic f) key (bus s)) as [pt b] eqn:ER. bind_case Heqo. simplify_eq.
    apply HM. eapply (route_publish_serves n (cs 0%nat) (Wire.Topic f) key p); [lia|apply Hcs|].
    rewrite ER. exact Heqo0. }
  destruct (decide _).
  { bind_case E. simplify_eq. unfold handleBatchPublish in Heqo.
    destruct (Wire.DecodeBatchPayload _) as [[|p ps]|]; [simplify_eq; apply serves_refl; lia| |simplify_eq; apply serves_refl; lia].
    bind_case Heqo. simplify_eq. eapply serves_trans; [apply serves_refl; lia|].
    eapply batch_serves; [| |done|exact Heqo0]; [lia|lia]. }
  destruct (decide _).
  { bind_case E. simplify_eq. unfold handleFetch in Heqo.
    destruct (Wire.DecodeFetchRequest _) as [[off mx]|]; [|simplify_eq; apply serves_refl; lia].
    set (mc := if 4096 <? _ then 4096 else _) in *.
    assert (0 <= mc < 2 ^ 62) as Hmc.
    { subst mc. destruct (mx <=? 0) eqn:E1; go_bool; [done|]. destruct (4096 <? mx) eqn:E2; go_bool; lia. }
    bind_case Heqo. simplify_eq. apply serves_bus; [lia|]. intros l0 Hl. by eapply fetch_holds. }
  destruct (decide _); simplify_eq; apply serves_refl; lia.
Qed.

Lemma publish_rpc_serves n (c : @clock IO) t key rp p (s s' : @Server W) r :
  0 <= n < 2 ^ 62 - 1 -> in_i64 (c_ts c) -> Publish c t key rp p s = Some (r, s') -> serves n 1 s s'.
Proof.
  intros Hn Hts E. unfold Publish in E. destruct (String.eqb t ""); [simplify_eq; by apply serves_refl|].
  destruct (0 <=? rp) eqn:Erp.
  - destruct (PartitionCount t _ <=? rp) eqn:EP.
    + simplify_eq. apply serves_bus; [lia|]. intros l Hl. apply ensure_holds; [done|lia].
    + bind_case E. simplify_eq. intros l HI. go_bool.
      assert (holds n l (EnsureTopic t 0 (bus s))) as Hb by (apply ensure_holds; [by destruct HI|lia]).
      assert (rp < 3) as Hlt.
      { destruct Hb as (a & HR & H3 & _). pose proof (rel_lookup _ _ _ t HR) as Ht. unfold PartitionCount in EP. cbn [bus set_bus] in EP.
        destruct (topics _ !! t) as [set|]; [|lia]. destruct (l_topics a !! t) as [ls|] eqn:El; [|done].
        rewrite (length_set_rep _ _ _ Ht), (H3 t ls El) in EP. lia. }
      eapply (publish_serves n c t key rp p); [done|done|lia|exact Heqo|]. destruct HI as [_ Hc Hw]. by split.
  - destruct (RouteKey t key (bus s)) as [pt b] eqn:ER. bind_case E. simplify_eq.
    eapply (route_publish_serves n c t key p); [done|done|]. rewrite ER. exact Heqo.
Qed.

Lemma durable_serves n sh q (c : @clock IO) t key sid p (s s' : @Server W) r :
  0 <= n < 2 ^ 62 - 1 -> in_i64 (c_ts c) -> appendDurable sh q c t key sid p s = Some (r, s') -> serves n 1 s s'.
Proof.
  intros Hn Hts E. unfold appendDurable in E.
  destruct (RouteKey t key (bus s)) as [pt b] eqn:ER.
  assert (serves n 1 s (set_bus b s)) as HB.
  { apply serves_bus; [lia|]. intros l Hl. pose proof (route_holds n l t key (bus s) Hl ltac:(lia)) as [_ Hb].
    by rewrite ER in Hb. }
  destruct (match sh with Some _ => _ | None => _ end); [|by simplify_eq].
  bind_case E. simplify_eq. eapply (route_publish_serves n c t key p); [done|done|]. rewrite ER. exact Heqo.
Qed.

Lemma envelope_serves n rt sh q (c : @clock IO) t env (s s' : @Server W) r :
  0 <= n < 2 ^ 62 - 1 -> in_i64 (c_ts c) -> PublishEnvelope rt sh q c t env s = Some (r, s') -> serves n 1 s s'.
Proof.
  intros Hn Hts E. unfold PublishEnvelope in E.
  destruct (Envelope.Marshal (c_now c) env); [|simplify_eq; by apply serves_refl].
  destruct rt as [rc|]; [|by eapply durable_serves].
  destruct (rc _ _ _) as [[isLocal sid] hint]. destruct isLocal; [by eapply durable_serves|].
  simplify_eq. by apply serves_refl.
Qed.

Lemma agent_serves n th rt sh q (c : @clock IO) ev (s s' : @Server W) r :
  0 <= n < 2 ^ 62 - 1 -> in_i64 (c_ts c) -> PublishAgent th rt sh q c ev s = Some (r, s') -> serves n 1 s s'.
Proof.
  intros Hn Hts E. unfold PublishAgent in E.
  destruct (match th with Some _ => _ | None => _ end); [simplify_eq; by apply serves_refl|].
  destruct (match rt with Some _ => _ | None => _ end) as [sid|e]; [|simplify_eq; by apply serves_refl].
  destruct ev as [ev|]; [|simplify_eq; by apply serves_refl].
  destruct (Envelope.Marshal _ _); [by eapply durable_serves|]. simplify_eq. by apply serves_refl.
Qed.

(** How many messages a request may publish. *)
Definition weight (r : request) : Z :=
  match r with
  | ReqFrame f => 1 + match Wire.DecodeBatchPayload (Wire.Payload f) with Ok ps => zlen ps | Err _ => 0 end
  | _ => 1
  end.

Definition weights (rs : list ((nat -> @clock IO) * request)) : Z := foldr (fun r k => weight r.2 + k) 0 rs.

Lemma weight_pos r : 1 <= weight r.
Proof. destruct r; cbn; try lia. destruct (Wire.DecodeBatchPayload _); lia. Qed.

Lemma handle_serves n cs r (s s' : @Server W) :
  0 <= n -> n + weight r < 2 ^ 62 - 1 -> clocks_ok cs -> handle cs r s = Some s' -> serves n (weight r) s s'.
Proof.
  intros Hn Hlt Hcs E. pose proof (weight_pos r). destruct r; cbn [handle] in E; bind_case E; simplify_eq.
  - by eapply frame_serves.
  - eapply publish_rpc_serves; [|apply Hcs|done]. cbn in *. lia.
  - change (weight _) with (0 + 1). eapply serves_trans; [by eapply fetch_serves|]. apply serves_refl. lia.
  - eapply envelope_serves; [|apply Hcs|done]. cbn in *. lia.
  - eapply agent_serves; [|apply Hcs|done]. cbn in *. lia.
Qed.

Lemma handle_all_serves rs : forall n (s s' : @Server W),
  0 <= n -> n + weights rs < 2 ^ 62 - 1 -> Forall (fun r => clocks_ok r.1) rs ->
  handle_all rs s = Some s' -> serves n (weights rs) s s'.
Proof.
  induction rs as [|[cs r] rs IH]; intros n s s' Hn Hlt HF E; cbn [handle_all weights foldr snd] in *.
  { simplify_eq. by apply serves_refl. }
  fold (weights rs) in *. pose proof (weight_pos r).
  assert (0 <= weights rs) as Hw by (clear; induction rs as [|x rs IH]; cbn; [lia|pose proof (weight_pos x.2); fold (weights rs); lia]).
  destruct (list.Forall_cons_1 _ _ _ HF) as [Hcs HF']. destruct (handle cs r s) as [s1|] eqn:E1; [|done].
  eapply serves_trans; [eapply handle_serves; [| |done|exact E1]; lia|]. apply IH; [lia|lia|done|done].
Qed.

End Recovery.

#[local] Existing Instance WalCommit.wal_log_sink.

(** A broker as it starts on an empty log. *)
Definition fresh_server (mode : WalCommit.SyncMode) (interval now : Z) : @Server WalCommit.Log :=
  mkServer New (Some (WalCommit.OpenWithOptions mode interval now [] [])) Offsets.NewManager.

(** C10. A restart rebuilds the broker.  Whatever sequence of requests (frames of
    every kind, gRPC publishes and fetches, agent events and workflow envelopes)
    a broker served one at a time, with the writes, flushes and fsyncs of its log
    failing anywhere: after a clean shutdown, replaying the log's file into an
    empty broker succeeds, and every partition of every topic holds the payloads
    it held before, in the same order and so at the same offsets.  Only when the
    log failed may there be more: the record whose append was reported as failed,
    and no other. *)
Theorem restart_rebuilds_broker mode interval t0 (rs : list ((nat -> @clock WalCommit.wal_io) * request)) srv w out d e1 e2 w' opts now :
  Forall (fun r => clocks_ok r.1) rs -> weights rs < 2 ^ 62 - 2 ->
  handle_all rs (fresh_server mode interval t0) = Some srv -> wal srv = Some w ->
  WalCommit.Close w out d e1 e2 = (w', None) ->
  exists b a a' extra n,
    Wal.ReplayWithOptions (Wal.Contents (WalCommit.file w')) opts (restore now) (Some New) = Some (Some b, None) /\
    rel (weights rs) a (bus srv) /\ rel n a' b /\ (length extra <= 1)%nat /\
    (WalCommit.fatal w = false -> extra = []) /\
    forall t p, plog a' t p = plog a t p ++ recs_for t p extra.
Proof.
  intros HF Hlt HH Hw HC.
  destruct (handle_all_serves rs 0 (fresh_server mode interval t0) srv ltac:(lia) ltac:(lia) HF HH []) as (l & HI).
  { split; [apply holds_new|done|]. eexists. split; [reflexivity|]. split; [|split; [constructor|by left]].
    apply (WalCommit.idle_open mode interval t0 []). constructor. }
  cbn [app] in HI. destruct HI as [(a & HR & _ & HP) Hcount (w1 & Ew & Hok & H3 & Hlog)]. simplify_eq.
  assert (exists extra, WalCommit.log w = l ++ extra /\ (length extra <= 1)%nat /\
            (WalCommit.fatal w = false -> extra = [])) as (extra & El & Hx & Hf).
  { destruct Hlog as [E|[Hd (r & E)]]; cbn in *.
    - exists []. rewrite app_nil_r. split; [done|]. split; [cbn; lia|done].
    - exists [r]. split; [done|]. split; [done|]. congruence. }
  assert (zlen (WalCommit.log w) < 2 ^ 62) as Hlen by (rewrite El, length_app; lia).
  destruct (restore_records now (WalCommit.log w) 0 [] New holds_new) as (b & Erun & (a' & HR' & _ & HP'));
    [done|lia|done|].
  exists b, a, a', extra, (0 + zlen (WalCommit.log w)). split.
  { pose proof Hok as [HInv _]. rewrite (WalCommit.Close_file _ _ _ _ _ _ (WalCommit.inv_buffers _ HInv) HC).
    rewrite <- (app_nil_r (WalCommit.recs_bytes _)). eapply Wal.replay_records_tail; [|exact Erun|done].
    exact (WalCommit.idle_records w Hok). }
  split; [done|]. split; [done|]. split; [done|]. split; [done|].
  intros t p. rewrite HP', HP, El. cbn [app]. unfold recs_for. by rewrite list.filter_app, map_app.
Qed.

(** Witness: a keyed publish, a batch and a gRPC publish, fsync failing at the last. *)
Definition io_fine : WalCommit.wal_io := WalCommit.mkIO 0 [] WalCommit.WriteAll None.
Definition io_broken : WalCommit.wal_io := WalCommit.mkIO 0 [] WalCommit.WriteAll (Some 5).
Definition at_time (io : WalCommit.wal_io) (t : Z) (_ : nat) : @clock WalCommit.wal_io := mkClock t t io.

Definition demo_requests : list ((nat -> @clock WalCommit.wal_io) * request) :=
  [(at_time io_fine 5, ReqFrame (Wire.mkFrame Wire.OpPublishWithKey "orders" (Wire.EncodeKeyedPayload "k" [Byte.x01])));
   (at_time io_fine 6, ReqFrame (Wire.mkFrame Wire.OpBatchPublish "orders" (Wire.EncodeBatchPayload [[Byte.x02]; [Byte.x03]])));
   (at_time io_fine 7, ReqFrame (Wire.mkFrame Wire.OpFetch "orders" (Wire.EncodeFetchRequest 0 10)));
   (at_time io_broken 8, ReqPublish "orders" "" 0 [Byte.x04])].

Definition demo_server : @Server WalCommit.Log :=
  match handle_all demo_requests (fresh_server WalCommit.SyncAlways 0 0) with
  | Some s => s
  | None => fresh_server WalCommit.SyncNone 0 0
  end.

Definition demo_wal : WalCommit.Log :=
  match wal demo_server with Some w => w | None => WalCommit.OpenWithOptions WalCommit.SyncNone 0 0 [] [] end.

Lemma restart_rebuilds_broker_witness :
  exists b a a' extra n,
    Wal.ReplayWithOptions (Wal.Contents (WalCommit.file (WalCommit.Close demo_wal WalCommit.WriteAll [] None None).1))
      Wal.DefaultReplayOptions (restore 9) (Some New) = Some (Some b, None) /\
    rel (weights demo_requests) a (bus demo_server) /\ rel n a' b /\ (length extra <= 1)%nat /\
    (WalCommit.fatal demo_wal = false -> extra = []) /\
    forall t p, plog a' t p = plog a t p ++ recs_for t p extra.
Proof.
  apply (restart_rebuilds_broker WalCommit.SyncAlways 0 0 demo_requests demo_server demo_wal
    WalCommit.WriteAll [] None None).
  - repeat constructor; try discriminate; reflexivity.
  - vm_compute. reflexivity.
  - vm_compute. reflexivity.
  - vm_compute. reflexivity.
  - vm_compute. reflexivity.
Defined.

(** *** Two publishes at once

    The log's append and the broker's publish of one request are two critical
    sections; another request's may come between. *)

Definition rec_of (t : Z) (payload : bytes) : Wal.WalRecord := Wal.mkRecord t "orders" "" 0 payload.

Definition interleaved : option (list bytes * list bytes) :=
  let s := fresh_server WalCommit.SyncNone 0 0 in
  let '(s, e1) := append_wal (at_time io_fine 1 0) (rec_of 1 [Byte.x61]) s in
  let '(s, e2) := append_wal (at_time io_fine 2 0) (rec_of 2 [Byte.x62]) s in
  '(r2, b) ← PublishToPartition "orders" 0 2 [Byte.x62] (bus s);
  '(r1, b) ← PublishToPartition "orders" 0 1 [Byte.x61] b;
  w ← wal s;
  let file := WalCommit.file (WalCommit.Close w WalCommit.WriteAll [] None None).1 in
  '(rb, _) ← Wal.ReplayWithOptions (Wal.Contents file) Wal.DefaultReplayOptions (restore 3) (Some New);
  b' ← rb;
  '(live, _) ← Bus.Fetch "orders" 0 10 b;
  '(restored, _) ← Bus.Fetch "orders" 0 10 b';
  Some (map m_Payload live, map m_Payload restored).

(** Concurrent publishes may change places over a restart: when the append of
    a second request to the log comes after, but its publish to the broker before
    the first one's, consumers see the second message at the lower offset, and
    after a clean restart at the higher one; a group that had committed past the
    second skips the first. *)
Theorem concurrent_publishes_reorder :
  interleaved = Some ([[Byte.x62]; [Byte.x61]], [[Byte.x61]; [Byte.x62]]).
Proof. vm_compute. reflexivity. Qed.

(** ** Session replay over Fetch *)

Definition matches (f : SessionFilter) (m : Message) : Prop := sessionFilterMatches (m_Payload m) f = true.

#[global] Instance matches_dec f m : Decision (matches f m).
Proof. unfold matches. apply _. Defined.

(** A page adds its matches up to [maxCount]; one that does not reach it was looked at as a
    whole. *)
Lemma scan_page_spec f pt mx ms : forall out sc out' sc',
  zlen out < mx -> scan_page f pt mx ms out sc = (out', sc') ->
  sc < sc' + (if decide (ms = []) then 1 else 0) /\
  out' = take (Z.to_nat mx) (out ++ map (consume_message pt) (filter (matches f) ms)) /\
  (zlen out' < mx -> sc' = sc + zlen ms).
Proof.
  induction ms as [|m ms IH]; intros out sc out' sc' Hlt E; cbn [scan_page] in E.
  { simplify_eq. rewrite decide_True by done. split_and!; [lia| |cbn; lia].
    rewrite filter_nil, app_nil_r, take_ge by lia. done. }
  rewrite decide_False by done. rewrite filter_cons. cbn [length].
  destruct (decide (matches f m)) as [EM|EM]; unfold matches in EM; [|apply not_true_is_false in EM]; rewrite EM in E.
  - rewrite length_app in E. cbn [length] in E. cbn [map].
    destruct (mx <=? Z.of_nat (length out + 1)) eqn:El; go_bool.
    + simplify_eq. rewrite length_app. cbn [length]. split_and!; [lia| |lia].
      pose proof (take_app_length' (out ++ [consume_message pt m])
        (map (consume_message pt) (filter (matches f) ms)) (Z.to_nat mx)) as HT.
      rewrite <- app_assoc in HT. symmetry. apply HT. rewrite length_app. cbn. lia.
    + apply IH in E as (H1 & H2 & H3); [|rewrite length_app; cbn; lia]. rewrite <- app_assoc in H2.
      split_and!; [destruct (decide (ms = [])); lia|done|intros Hl; rewrite H3 by done; lia].
  - apply IH in E as (H1 & H2 & H3); [|done].
    split_and!; [destruct (decide (ms = [])); lia|done|intros Hl; rewrite H3 by done; lia].
Qed.

Section Filtered.
Context (f : SessionFilter) (t : string) (pt mx sl pg : Z) (b : Broker) (log : list entry).
Hypothesis Hmx : 0 < mx.
Hypothesis Hpg : 0 < pg < 2 ^ 62.
Hypothesis Hsmall : zlen log < 2 ^ 62.
Hypothesis Hfetch : forall o, FetchPartition t pt o pg b = Some (log_fetch defaultCapacity o pg log, b).

Definition slice_log (from next : Z) : list Message :=
  take (Z.to_nat (next - from)) (drop (Z.to_nat from) (number log)).

Lemma slice_log_step from o ms :
  Z.max 0 (zlen log - defaultCapacity) <= from <= o -> log_fetch defaultCapacity o pg log = ms -> ms <> [] ->
  slice_log from (o + zlen ms) = slice_log from o ++ ms /\ o + zlen ms <= zlen log.
Proof.
  intros Hf <- Hne. unfold log_fetch in *. rewrite Z.max_l in * by lia.
  set (ms := take (Z.to_nat pg) (drop (Z.to_nat o) (number log))) in *.
  assert (length ms = Nat.min (Z.to_nat pg) (length log - Z.to_nat o)) as HL
    by (subst ms; by rewrite length_take, length_drop, length_number).
  assert (length ms <> 0%nat) as Hn by (by intros ?%nil_length_inv).
  split; [|lia]. unfold slice_log. replace (Z.to_nat (o + zlen ms - from)) with (Z.to_nat (o - from) + length ms)%nat by lia.
  rewrite <- take_take_drop, drop_drop. f_equal. replace (Z.to_nat from + Z.to_nat (o - from))%nat with (Z.to_nat o) by lia.
  subst ms. symmetry. rewrite length_take, length_drop, length_number.
  destruct (Nat.le_ge_cases (Z.to_nat pg) (length log - Z.to_nat o)).
  - by rewrite Nat.min_l by lia.
  - rewrite Nat.min_r by lia. rewrite !take_ge; [done|..]; rewrite length_drop, length_number; lia.
Qed.

(** The first [mx] matches of a stretch of the log, as delivered. *)
Definition first_matches (ms : list Message) : list ConsumeMessage :=
  take (Z.to_nat mx) (map (consume_message pt) (filter (matches f) ms)).

(** The scan from [from]: at [o], everything before it has been looked at. *)
Lemma scan_loop_spec fuel : forall from o out sc,
  Z.max 0 (zlen log - defaultCapacity) <= from <= o -> 0 <= sc -> Z.max 0 (sl - sc) < Z.of_nat fuel ->
  out = first_matches (slice_log from o) -> (zlen out < mx -> sc = o - from) ->
  exists out' next, scan_loop fuel f t pt mx sl pg (zlen log) o out sc b = Some (out', next, b) /\
    o <= next /\ (zlen out < mx -> sc < sl -> o < zlen log -> o < next) /\
    out' = first_matches (slice_log from next) /\
    (zlen out' < mx -> zlen log <= next \/ sl <= next - from).
Proof.
  induction fuel as [|fuel IH]; intros from o out sc Hf Hsc Hfuel Hout Hcount; cbn [scan_loop].
  { lia. }
  destruct ((zlen out <? mx) && (sc <? sl) && (o <? zlen log)) eqn:EC.
  - go_bool. rewrite (Hcount H) in *. rewrite Hfetch.
    destruct (log_fetch defaultCapacity o pg log) as [|m ms] eqn:EF.
    { apply log_fetch_empty in EF; lia. }
    destruct (slice_log_step from o (m :: ms)) as [ES Hle]; [done|done|done|].
    destruct (scan_page f pt mx (m :: ms) _ _) as [out1 sc1] eqn:EP.
    apply scan_page_spec in EP as (Hs1 & Ho1 & Hp1); [|done]. rewrite decide_False in Hs1 by done.
    rewrite i64_id by (unfold in_i64; lia).
    destruct (IH from (o + zlen (m :: ms)) out1 sc1) as (out' & next & E & Hn & _ & Ho & Hend);
      [lia|lia|lia| |intros Hl; rewrite Hp1 by done; lia|].
    + rewrite ES, Ho1. unfold first_matches in *. rewrite list.filter_app, map_app. f_equal. f_equal.
      rewrite Hout. rewrite Hout, length_take in H. apply take_ge. lia.
    + exists out', next. cbn [length] in Hn. split_and!; [exact E|lia|lia|done|done].
  - exists out, o. split_and!; [done|lia| |done|].
    + intros H1 H2 H3. rewrite (proj2 (Z.ltb_lt _ _) H1), (proj2 (Z.ltb_lt _ _) H2), (proj2 (Z.ltb_lt _ _) H3) in EC. done.
    + intros Hl. rewrite (Hcount Hl) in EC. rewrite (proj2 (Z.ltb_lt _ _) Hl) in EC. cbn [andb] in EC.
      apply andb_false_iff in EC as [EC|EC]; go_bool; lia.
Qed.
End Filtered.

(** A filtered [Fetch] on a partition with a known log. *)
Lemma filtered_fetch {W} n a (s : @Server W) t pt ls log from mx sc f :
  rel n a (bus s) -> t <> ""%string -> l_topics a !! t = Some ls -> 0 <= pt -> ls.1 !! Z.to_nat pt = Some log ->
  Z.max 0 (zlen log - defaultCapacity) <= from ->
  exists resp s', Fetch t pt from mx sc (Some f) s = Some (Ok resp, s') /\ bus s' = bus s /\ r_Tail resp = zlen log /\
    from <= r_NextOffset resp /\ (from < zlen log -> from < r_NextOffset resp) /\
    r_Messages resp = first_matches f pt (max_count mx) (slice_log log from (r_NextOffset resp)) /\
    (zlen (r_Messages resp) < max_count mx ->
     zlen log <= r_NextOffset resp \/ scan_limit sc <= r_NextOffset resp - from).
Proof.
  intros HR Hne El Hpt Elog Hfrom. pose proof (rel_lookup _ _ _ t HR) as Ht. rewrite El in Ht.
  destruct (topics (bus s) !! t) as [set|] eqn:ET; [|done].
  assert (valid pt ls.1 = true) as V.
  { apply lookup_lt_Some in Elog. unfold valid. apply andb_true_intro. split; [apply Z.leb_le|apply Z.ltb_lt]; lia. }
  destruct (partition_at_rep _ _ _ _ Ht V) as (T & log' & EP & El' & Hrep & Hcap & _). simplify_eq.
  pose proof (max_count_range mx). pose proof (scan_limit_range sc).
  set (pg := if scan_limit sc <? 1024 then scan_limit sc else 1024).
  assert (0 < pg < 2 ^ 62) as Hpg by (subst pg; destruct (scan_limit sc <? 1024); lia).
  destruct (scan_loop_spec f t pt (max_count mx) (scan_limit sc) pg (bus s) log) with
    (fuel := S (Z.to_nat (scan_limit sc))) (from := from) (o := from) (out := @nil ConsumeMessage) (sc := 0)
    as (out & next & ES & Hn & Hp & HS); [lia|done|by destruct Hrep| |lia|lia|lia| |lia|].
  - intros o. unfold FetchPartition, getOrCreate. rewrite ET, (invalid_partition_rep _ _ _ _ Ht), V. cbn [negb].
    rewrite EP. cbn [mbind option_bind]. rewrite (Topic_Fetch_rep log) by (done || lia). by rewrite Hcap.
  - unfold first_matches, slice_log. rewrite Z.sub_diag. cbn. by destruct (Z.to_nat (max_count mx)).
  - exists (mkFetchResponse out next (Z.max 0 (zlen log - defaultCapacity)) (zlen log)), (set_bus (bus s) s).
    split; [|split_and!; try done; [intros Hlt; apply Hp; cbn; lia|apply HS..]]. unfold Fetch. destruct (String.eqb t "") eqn:Et; [by apply String.eqb_eq in Et|].
    rewrite (proj2 (Z.ltb_ge pt 0)) by done. unfold PartitionCount. rewrite ET.
    unfold valid in V. apply andb_prop in V as [_ V]. rewrite (length_set_rep _ _ _ Ht).
    rewrite (proj2 (Z.leb_gt _ _)) by (by apply Z.ltb_lt in V).
    rewrite (op_info n a) by done. rewrite El. destruct ls as [ls c]. cbn [fst] in *.
    assert (valid pt ls = true) as -> by (unfold valid; rewrite V; by rewrite (proj2 (Z.leb_le 0 pt))).
    rewrite Elog. cbn [mbind option_bind default]. cbv beta iota zeta. unfold id. fold pg. by rewrite ES.
Qed.

(** A filtered page.  On a partition that still holds everything from [from_offset]
    on, a [Fetch] with a session filter terminates without a panic and makes progress
    unless it is at the end.  It returns the first [max_count] messages the filter
    matches between [from_offset] and [next_offset], in order; if they are fewer than
    [max_count] they are all of them, and the scan stopped only at the partition's end
    or at its budget. *)
Theorem filtered_fetch_complete {W} n a (s : @Server W) t pt ls log from mx sc f :
  rel n a (bus s) -> t <> ""%string -> l_topics a !! t = Some ls -> 0 <= pt -> ls.1 !! Z.to_nat pt = Some log ->
  Z.max 0 (zlen log - defaultCapacity) <= from ->
  exists resp s', Fetch t pt from mx sc (Some f) s = Some (Ok resp, s') /\ bus s' = bus s /\ r_Tail resp = zlen log /\
    from <= r_NextOffset resp /\ (from < zlen log -> from < r_NextOffset resp) /\
    r_Messages resp = first_matches f pt (max_count mx) (slice_log log from (r_NextOffset resp)) /\
    (zlen (r_Messages resp) < max_count mx ->
     zlen log <= r_NextOffset resp \/ scan_limit sc <= r_NextOffset resp - from).
Proof. apply filtered_fetch. Qed.

(** Four messages of two sessions in one partition. *)
Definition session_event (session : string) : bytes :=
  Json.enc_object [("tenant"%string, Json.enc_string "acme"); ("project"%string, Json.enc_string "p");
                   ("session_id"%string, Json.enc_string session)].

Definition session_ops : list op :=
  map (fun s => OPublishToPartition "agent-events" 0 1 (session_event s)) ["s1"; "s2"; "s1"; "s1"]%string.

Definition session_bus : Broker := match run_all run_op session_ops New with Some (_, b) => b | None => New end.
Definition session_logs : Logs := match run_all log_op session_ops empty_logs with Some (_, a) => a | None => empty_logs end.
Definition session_log : list entry := map (fun s => (1, session_event s)) ["s1"; "s2"; "s1"; "s1"]%string.
Definition session_server : @Server WalCommit.Log := mkServer session_bus None Offsets.NewManager.

Lemma session_rel : rel 4 session_logs session_bus.
Proof.
  destruct (run_simulates session_ops 0 empty_logs New
    (map (fun o => RPublished 0 o) [0; 1; 2; 3]) session_logs New_rel) as (b & Eb & HR);
    [done|done|repeat constructor|vm_compute; reflexivity|].
  assert (session_bus = b) as -> by (unfold session_bus; by rewrite Eb). exact HR.
Qed.

Definition only_s1 : SessionFilter := mkFilter "acme" "p" "s1".

Lemma filtered_fetch_complete_witness :
  exists resp s', Fetch "agent-events" 0 1 10 0 (Some only_s1) session_server = Some (Ok resp, s') /\
    bus s' = bus session_server /\ r_Tail resp = 4 /\
    1 <= r_NextOffset resp /\ (1 < 4 -> 1 < r_NextOffset resp) /\
    r_Messages resp = first_matches only_s1 0 (max_count 10) (slice_log session_log 1 (r_NextOffset resp)) /\
    (zlen (r_Messages resp) < max_count 10 ->
     4 <= r_NextOffset resp \/ scan_limit 0 <= r_NextOffset resp - 1).
Proof.
  apply (filtered_fetch_complete 4 session_logs session_server "agent-events" 0 ([session_log; []; []], 0) session_log 1 10 0).
  - exact session_rel.
  - discriminate.
  - vm_compute. reflexivity.
  - discriminate.
  - reflexivity.
  - vm_compute. discriminate.
Defined.

(** The offsets and the resume point of a filtered page of one message. *)
Definition page_of (from : Z) : option (list Z * Z) :=
  match Fetch "agent-events" 0 from 1 0 (Some only_s1) session_server with
  | Some (Ok resp, _) => Some (map cm_Offset (r_Messages resp), r_NextOffset resp)
  | _ => None
  end.

(** A full filtered page skips messages: the scan stops at [max_count]
    matches but [next_offset] moves past the whole page it was reading.  With
    matching messages at offsets 0, 2 and 3 and pages of one message, the first
    page returns offset 0 and resumes at 4, and the second returns nothing: two
    matching messages are never returned. *)
Theorem filtered_fetch_skips_matches : page_of 0 = Some ([0], 4) /\ page_of 4 = Some ([], 4).
Proof. vm_compute. done. Qed.
End Gateway.
