(* ===== verification/Trace.v ===== *)
(** * Session traces (internal/agentstream/otel.go, internal/telemetry/tracing.go,
    the spans of internal/grpcapi/server.go)

    Producers that propagate no trace still get one per session: the trace id is derived
    from the session key with SHA-256, and both publish paths anchor their span to it.  The
    OpenTelemetry library's span contexts are records of ids; an id is valid when it is not
    zero.  Random bytes and what the exporter answers are arguments.

    Theorems: a derived id is 16 bytes and valid unless the session's three names are all
    blank; an event published as an agent event and the same event forwarded as an encoded
    envelope start spans of one trace, which depends on the session only. *)

From S2P Require Import Prelude GoLib GoJson GoTime GoSha AgentStream Broker WalLog Consumer Server.
Import Json Time Envelope.

Module Spans.
Local Open Scope string_scope.
Local Open Scope Z_scope.
Local Open Scope list_scope.

(** ** otel.go *)

Definition AttrAgentTenant := "agent.session.tenant".
Definition AttrAgentProject := "agent.session.project".
Definition AttrAgentSession := "agent.session.id".
Definition AttrAgentID := "agent.id".
Definition AttrAgentType := "agent.event.type".
Definition AttrAgentStep := "agent.event.step".
Definition AttrAgentAttempt := "agent.event.attempt".

Inductive attribute := AString (key value : string) | AInt (key : string) (value : Z).

Definition AttributesFor (ev : Event) : list attribute :=
  [AString AttrAgentTenant (Tenant ev); AString AttrAgentProject (Project ev);
   AString AttrAgentSession (SessionID ev); AString AttrAgentType (Type_ ev)] ++
  (if decide (AgentID ev = "") then [] else [AString AttrAgentID (AgentID ev)]) ++
  (if decide (Step ev = "") then [] else [AString AttrAgentStep (Step ev)]) ++
  (if 0 <? Attempt ev then [AInt AttrAgentAttempt (Attempt ev)] else []).

(** An id is valid when one of its bytes is not zero. *)
Definition IsValid (id : bytes) : bool := existsb (fun b => negb (byte_val b =? 0)) id.

Definition SessionTraceID (tenant project session : string) : bytes :=
  let key := SessionKey tenant project session in
  if String.eqb key "//" then replicate 16 Byte.x00
  else
    let id := take 16 (Sha.Sum256 (bs_of ("eventbus/session/" +:+ key))) in
    if Z.lor (be_val (slice 0 8 id)) (be_val (drop 8 id)) =? 0 then <[15%nat := Byte.x01]> id else id.

(** ** The spans of the publish handlers (grpcapi/server.go) *)

Record SpanContext := mkSpanContext { sc_TraceID : bytes; sc_SpanID : bytes; sc_sampled : bool }.

Definition span_valid (sc : SpanContext) : bool := IsValid (sc_TraceID sc) && IsValid (sc_SpanID sc).

(** [rnd] is what [rand.Read] filled in. *)
Definition newSpanID (rnd : bytes) : bytes := if IsValid rnd then rnd else <[7%nat := Byte.x01]> rnd.

(** The parent of a span when none came with the request. *)
Definition session_parent (tenant project session : string) (rnd : bytes) (parent : SpanContext) : SpanContext :=
  let traceID := SessionTraceID tenant project session in
  if IsValid traceID then mkSpanContext traceID (newSpanID rnd) true else parent.

Definition publish_parent (parent : SpanContext) (rnd payload : bytes) : SpanContext :=
  match PeekEnvelope payload with
  | Some ev => if span_valid parent then parent else session_parent (Tenant ev) (Project ev) (SessionID ev) rnd parent
  | None => parent
  end.

Definition publish_agent_parent (parent : SpanContext) (rnd : bytes) (req : option Gateway.AgentEvent) : SpanContext :=
  match req with
  | Some ag =>
      if span_valid parent then parent
      else session_parent (Gateway.a_Tenant ag) (Gateway.a_Project ag) (Gateway.a_SessionId ag) rnd parent
  | None => parent
  end.

(** The attributes a span starts with. *)
Definition publish_attributes (topic key : string) (partition : Z) (payload : bytes) : list attribute :=
  [AString "topic" topic; AString "key" key; AInt "payload_bytes" (zlen payload); AInt "requested_partition" partition] ++
  match PeekEnvelope payload with Some ev => AttributesFor ev | None => [] end.

Definition publish_agent_attributes (req : option Gateway.AgentEvent) : list attribute :=
  match req with
  | Some ag =>
      AttributesFor {| zero_event with Type_ := Gateway.a_Type ag; Tenant := Gateway.a_Tenant ag; Project := Gateway.a_Project ag;
                                       SessionID := Gateway.a_SessionId ag; AgentID := Gateway.a_AgentId ag |}
  | None => []
  end.

(** ** tracing.go *)

(** What the shutdown function does: nothing, or shut the provider down. *)
Inductive tracing := NoTracing | Exporting (endpoint : string) (tls : bool) (service : string).

(** [new_exporter] and [new_resource] are what the library answers. *)
Definition SetupTracing (getenv : string) (new_exporter new_resource : option Z) (serviceName : string) : result Z tracing :=
  let endpoint := TrimSpace getenv in
  if decide (endpoint = "") then Ok NoTracing
  else
    let tls := has_suffix (bs_of endpoint) (bs_of ":443") in
    match new_exporter with
    | Some e => Err e
    | None => match new_resource with Some e => Err e | None => Ok (Exporting endpoint tls serviceName) end
    end.

(** ** Theorems *)

Lemma IsValid_false id : IsValid id = false <-> Forall (fun b => byte_val b = 0) id.
Proof.
  unfold IsValid. induction id as [|b id IH]; [done|]. cbn. rewrite orb_false_iff, negb_false_iff, Z.eqb_eq, IH.
  split; [by intros [? ?]; constructor|]. intros H. inversion H; subst; done.
Qed.

Lemma string_length_app (a b : string) : String.length (a +:+ b) = (String.length a + String.length b)%nat.
Proof. induction a as [|x a IH]; [done|]. change (S (String.length (a +:+ b)) = S (String.length a + String.length b)). by rewrite IH. Qed.

Lemma blank_key t p s : SessionKey t p s = "//" <-> TrimSpace t = "" /\ TrimSpace p = "" /\ TrimSpace s = "".
Proof.
  unfold SessionKey. split; [|by intros (-> & -> & ->)]. intros H. apply (f_equal String.length) in H.
  rewrite !string_length_app in H. cbn in H. destruct (TrimSpace t), (TrimSpace p), (TrimSpace s); cbn in H; done || lia.
Qed.

Lemma length_trace_id t p s : length (SessionTraceID t p s) = 16%nat.
Proof.
  unfold SessionTraceID. destruct (String.eqb _ _); [done|].
  assert (length (take 16 (Sha.Sum256 (bs_of ("eventbus/session/" +:+ SessionKey t p s)))) = 16%nat) as H
    by (rewrite length_take, Sha.length_sum256; done).
  destruct (_ =? _); [by rewrite length_insert|done].
Qed.

(** The derived id is valid exactly when one of the three names is not blank. *)
Lemma trace_id_valid t p s :
  IsValid (SessionTraceID t p s) = true <-> ~ (TrimSpace t = "" /\ TrimSpace p = "" /\ TrimSpace s = "").
Proof.
  rewrite <- blank_key. unfold SessionTraceID. destruct (String.eqb_spec (SessionKey t p s) "//") as [E|E]; [by rewrite E|].
  split; [done|intros _]. set (id := take 16 _). assert (length id = 16%nat) as Hl by (unfold id; rewrite length_take, Sha.length_sum256; done).
  destruct (Z.eqb_spec (Z.lor (be_val (slice 0 8 id)) (be_val (drop 8 id))) 0) as [Ez|Ez].
  - apply not_false_iff_true. rewrite IsValid_false. intros H. rewrite list.Forall_lookup in H.
    specialize (H 15%nat Byte.x01 ltac:(apply list_lookup_insert_eq; lia)). done.
  - apply not_false_iff_true. rewrite IsValid_false. intros H. apply Ez.
    assert (forall l, Forall (fun b => byte_val b = 0) l -> be_val l = 0) as Hz.
    { induction l as [|b l IH] using rev_ind; intros HF; [done|]. apply Forall_app in HF as [HF Hb]. apply Forall_inv in Hb.
      rewrite be_val_app, IH by done. lia. }
    unfold slice. rewrite !Hz; [done|by apply Forall_drop|by apply Forall_take, Forall_drop].
Qed.

Lemma span_id_valid rnd : length rnd = 8%nat -> IsValid (newSpanID rnd) = true.
Proof.
  intros Hl. unfold newSpanID. destruct (IsValid rnd) eqn:E; [done|]. apply not_false_iff_true. rewrite IsValid_false, list.Forall_lookup.
  intros H. by specialize (H 7%nat Byte.x01 ltac:(apply list_lookup_insert_eq; lia)).
Qed.

Lemma validate_nonblank e : Validate e = None -> Type_ e <> "" /\ Tenant e <> "" /\ SessionID e <> "" /\ TrimSpace (Tenant e) <> "".
Proof. unfold Validate. repeat case_decide; try done. intros _. split_and!; try done; intros E; rewrite E in *; done. Qed.

(** The envelope of a marshalled event is found again, with its session. *)
Lemma marshal_peek now e raw data :
  strings_ok e -> in_i64 (Attempt e) -> Payload e = Some raw -> payload_text raw -> Marshal now e = Ok data ->
  TrimSpace (Tenant e) <> "" /\
  exists e', PeekEnvelope data = Some e' /\ Tenant e' = Tenant e /\ Project e' = Project e /\ SessionID e' = SessionID e.
Proof.
  intros (H1 & H2 & H3 & H4 & H5 & H6 & H7 & H8) Ha Hp Ht HM. unfold Marshal in HM. rewrite Hp in HM.
  set (out := {| e with Version := _; CreatedAt := _; Payload := _ |}) in HM.
  destruct (Validate out) eqn:EV; [done|]. destruct (validate_nonblank out EV) as (N1 & N2 & N3 & N4). split; [exact N4|].
  assert (strings_ok out) as Hs by (split_and!; try done; cbn; case_decide; try done; apply Time.Format_utf8).
  destruct (json_event_roundtrip out raw Hs Ha eq_refl Ht) as (data' & E & _ & _ & Hu). rewrite E in HM. injection HM as ->.
  exists out. split; [|done]. unfold PeekEnvelope. unfold json_event in E.
  destruct (match Payload out with None => _ | Some p => compact p end) as [r|]; [|done]. cbn [mbind option_bind] in E.
  injection E as <-. unfold enc_object in *. cbn [app] in *. change (isc 123 _) with true. cbv iota. rewrite Hu. cbn [mbind option_bind].
  by rewrite decide_False by (intros [?|[?|?]]; done).
Qed.

(** C18. Both publish paths trace by session: when no valid trace came with the request, the span
    of an event published as an agent event and the span of the same event forwarded as an
    encoded envelope have valid parents in one trace, the one derived from the session, so
    that it is the same for all events of the session. *)
Theorem session_spans_share_trace now ag raw data parent parent' rnd rnd' :
  let env := mkEvent "" (Gateway.a_Type ag) (Gateway.a_Tenant ag) (Gateway.a_Project ag) (Gateway.a_SessionId ag)
               (Gateway.a_AgentId ag) "" 0 "" (Some raw) in
  strings_ok env -> payload_text raw -> Marshal now env = Ok data ->
  span_valid parent = false -> span_valid parent' = false -> length rnd = 8%nat -> length rnd' = 8%nat ->
  let agent_span := publish_agent_parent parent rnd (Some ag) in
  let forwarded := publish_parent parent' rnd' data in
  sc_TraceID agent_span = SessionTraceID (Gateway.a_Tenant ag) (Gateway.a_Project ag) (Gateway.a_SessionId ag) /\
  sc_TraceID forwarded = sc_TraceID agent_span /\ span_valid agent_span = true /\ span_valid forwarded = true.
Proof.
  intros env Hs Ht HM Hp Hp' Hr Hr' agent_span forwarded.
  destruct (marshal_peek now env raw data Hs ltac:(unfold in_i64; cbn; lia) eq_refl Ht HM) as (Hten & e' & Hpk & E1 & E2 & E3).
  assert (IsValid (SessionTraceID (Gateway.a_Tenant ag) (Gateway.a_Project ag) (Gateway.a_SessionId ag)) = true) as Hv
    by (apply trace_id_valid; intros (? & _ & _); done).
  unfold agent_span, forwarded, publish_agent_parent, publish_parent. rewrite Hp, Hpk, Hp', E1, E2, E3. unfold env. cbn [Tenant Project SessionID].
  unfold session_parent. rewrite Hv. unfold span_valid. cbn [sc_TraceID sc_SpanID]. rewrite Hv, !span_id_valid by done. done.
Qed.

Definition sample_raw : bytes := enc_object [("tool", enc_string "web")].
Definition sample_ag : Gateway.AgentEvent := Gateway.mkAgentEvent "tool.call" "acme" "research" "run-1" "planner" None.

Lemma session_spans_share_trace_witness :
  exists data, Marshal 0 (mkEvent "" "tool.call" "acme" "research" "run-1" "planner" "" 0 "" (Some sample_raw)) = Ok data /\
    sc_TraceID (publish_parent (mkSpanContext [] [] false) (replicate 8 Byte.x00) data) = SessionTraceID "acme" "research" "run-1".
Proof.
  destruct (Marshal 0 (mkEvent "" "tool.call" "acme" "research" "run-1" "planner" "" 0 "" (Some sample_raw))) as [data|] eqn:E;
    [|vm_compute in E; discriminate].
  exists data. split; [reflexivity|].
  destruct (session_spans_share_trace 0 sample_ag sample_raw data (mkSpanContext [] [] false) (mkSpanContext [] [] false)
              (replicate 8 Byte.x00) (replicate 8 Byte.x00)) as (H1 & H2 & _).
  - unfold strings_ok, utf8_ok. cbn. split_and!; vm_compute; reflexivity.
  - split; [apply stable_object; repeat constructor; apply stable_quote|].
    exists (JObj (members_of [("tool", enc_string "web")] [JStr (bs_of "web")])). intros d Hd. apply reads_object.
    + discriminate.
    + repeat constructor.
    + unfold maxNestingDepth. lia.
    + constructor; [|constructor]. apply reads_enc_string. vm_compute. reflexivity.
  - exact E.
  - reflexivity.
  - reflexivity.
  - reflexivity.
  - reflexivity.
  - rewrite H2, H1. reflexivity.
Defined.

(** The id is not empty for an empty session: only a key with three blank names has none. *)
Example empty_session_has_trace : IsValid (SessionTraceID "acme" "research" "") = true.
Proof. apply trace_id_valid. by intros [? _]. Qed.
End Spans.
