(* ===== verification/ClusterPublish.v ===== *)
(** * A publish in cluster mode: gRPC server, shard log and replication together (cmd/broker/main.go, shardWALAdapter)

    [Module Durable] runs the server's [PublishEnvelope] over the cluster's own parts: the
    router's answer, the append to the shard's log, the wait on the shard's high-water
    mark, and between the two the steps of [Replication], from followers that held prefixes
    of the leader's log and with streams that do not overlap.  The theorems say what an
    answer means then: an acknowledged event is in the leader's log and in that of every
    tracked replica, at the same offset, and in the broker; an event whose wait timed out is in the log and not in the broker. *)

From S2P Require Import Prelude GoLib GoJson GoTime AgentStream Broker WalFormat.
From S2P Require Import WalLog ShardFormat ShardLog ShardStore Replication Consumer Server.
Import Envelope Store.

Module Durable.
Local Open Scope Z_scope.

Section Cluster.
Context {S IO : Type} `{ST : !ShardStore S IO} {W WIO : Type} `{SK : !WalCommit.WalSink W WIO}.
Abbreviation shard := (@Replica.world S).

(** A broker node of the cluster: the shards it holds with their followers, and its server. *)
Record node := mkNode { shards : gmap Z shard; srv : @Gateway.Server W }.

(** [shardWALAdapter.Append] on the shard's log. *)
Definition adapter_Append (io : IO) (payload : bytes) (w : shard) : option Z * shard :=
  match sh_append io payload (Replica.leader w) with
  | (s, Ok off) => (Some off, {| w with Replica.leader := s |})
  | (s, Err _) => (None, {| w with Replica.leader := s |})
  end.

(** [shardWALAdapter.WaitQuorum]: the wait for the mark to pass the offset; [ctx_err] is
    the context's error when it ends first. *)
Definition adapter_WaitQuorum (ctx_err : option Z) (off : Z) (w : shard) : option (result Z unit) :=
  Replica.WaitFor ctx_err (off + 1) (Replica.hwm w).

Definition quorum_ok (q : result Z unit) : bool := match q with Ok _ => true | Err _ => false end.

(** One publish.  Where the router says the shard is led elsewhere, nothing is written;
    where the append fails, nothing waits; otherwise the shard's replication goes on from
    the append to the moment the wait returns. *)
Inductive published (c : @Gateway.clock WIO) (route : string -> string -> string -> bool * Z * string) (topic : string) (env : Event) :
    node -> result Gateway.status (Z * Z) -> node -> Prop :=
| pub_elsewhere n sid hint r s :
    route (Tenant env) (Project env) (SessionID env) = (false, sid, hint) ->
    Gateway.PublishEnvelope (Some route) (Some (fun _ _ => None)) (fun _ _ => false) c topic env (srv n) = Some (r, s) ->
    published c route topic env n r (mkNode (shards n) s)
| pub_failed n sid hint w w1 io encoded r s :
    route (Tenant env) (Project env) (SessionID env) = (true, sid, hint) -> Marshal (Gateway.c_now c) env = Ok encoded ->
    shards n !! sid = Some w -> adapter_Append io encoded w = (None, w1) ->
    Gateway.PublishEnvelope (Some route) (Some (fun _ _ => None)) (fun _ _ => false) c topic env (srv n) = Some (r, s) ->
    published c route topic env n r (mkNode (<[sid := w1]> (shards n)) s)
| pub_waited n sid hint w w1 w2 io encoded off ctx_err q r s :
    route (Tenant env) (Project env) (SessionID env) = (true, sid, hint) -> Marshal (Gateway.c_now c) env = Ok encoded ->
    shards n !! sid = Some w -> adapter_Append io encoded w = (Some off, w1) ->
    Replica.reachable true w1 w2 -> adapter_WaitQuorum ctx_err off w2 = Some q ->
    Gateway.PublishEnvelope (Some route) (Some (fun _ _ => Some off)) (fun _ _ => quorum_ok q) c topic env (srv n) = Some (r, s) ->
    published c route topic env n r (mkNode (<[sid := w2]> (shards n)) s).

(** Every shard of the node got where it is from a start by appends and replication. *)
Definition shards_ok (n : node) : Prop :=
  forall sid w, shards n !! sid = Some w -> exists w0, Replica.starts w0 /\ Replica.reachable true w0 w.

(** The event is at one offset of the shard's log and of every other tracked replica's. *)
Definition replicated (encoded : bytes) (w : shard) : Prop :=
  exists off, 0 <= off /\ sh_log (Replica.leader w) !! Z.to_nat off = Some encoded /\
    forall id, is_Some (Replica.offsets (Replica.hwm w) !! id) -> id <> Replica.selfID (Replica.hwm w) ->
      exists f, Replica.followers w !! id = Some f /\ sh_log f !! Z.to_nat off = Some encoded.

Lemma reachable_append io payload w0 w : Replica.reachable true w0 w -> Replica.reachable true w0 (adapter_Append io payload w).2.
Proof.
  intros Hr. eapply Replica.reach_step; [exact Hr|]. unfold adapter_Append.
  pose proof (Replica.step_append true io payload w) as Hst. destruct (sh_append io payload (Replica.leader w)) as [s [off|e]]; exact Hst.
Qed.

Lemma replica_trans w0 w1 w2 : Replica.reachable true w0 w1 -> Replica.reachable true w1 w2 -> Replica.reachable true w0 w2.
Proof. intros H1 H2. induction H2; [done|]. by eapply Replica.reach_step. Qed.

(** The appended event is where the append said, then and later. *)
Lemma appended_at io payload w0 w w1 w2 off :
  Replica.starts w0 -> Replica.reachable true w0 w -> adapter_Append io payload w = (Some off, w1) -> Replica.reachable true w1 w2 ->
  0 <= off /\ sh_log (Replica.leader w2) !! Z.to_nat off = Some payload /\ Replica.reachable true w0 w2.
Proof.
  intros H0 Hr Ha Hr2. pose proof (reachable_append io payload w0 w Hr) as Hr1. rewrite Ha in Hr1. cbn [snd] in Hr1.
  pose proof (Replica.leader_grows _ _ H0 Hr1 _ Hr2) as Hp.
  destruct (Replica.replica_reachable_inv _ _ H0 Hr) as ([Hok _] & _). unfold adapter_Append in Ha.
  destruct (sh_append io payload (Replica.leader w)) as [s r] eqn:E. destruct (sh_append_law _ _ _ _ _ Hok E) as [_ HL].
  destruct r as [o|]; [|done]. injection Ha as <- <-. destruct HL as [-> HL]. cbn [Replica.leader] in Hp.
  split; [lia|]. split; [|by eapply replica_trans]. eapply lookup_prefix; [exact Hp|]. rewrite HL, Nat2Z.id. by apply list_lookup_middle.
Qed.

Lemma waited_is_replicated w0 w io payload off w1 w2 ctx_err :
  Replica.starts w0 -> Replica.reachable true w0 w -> adapter_Append io payload w = (Some off, w1) -> Replica.reachable true w1 w2 ->
  adapter_WaitQuorum ctx_err off w2 = Some (Ok tt) -> replicated payload w2.
Proof.
  intros H0 Hr Ha Hr2 Hq. destruct (appended_at _ _ _ _ _ _ _ H0 Hr Ha Hr2) as (Hoff & Hat & Hr').
  assert (Replica.WaitFor None (off + 1) (Replica.hwm w2) = Some (Ok tt)) as Hq'.
  { unfold adapter_WaitQuorum, Replica.WaitFor in *. by destruct (_ <? _), ctx_err. }
  destruct (Replica.marked_is_replicated w0 w2 off H0 Hr' Hoff Hq') as (p & Hp & Hall). rewrite Hat in Hp. injection Hp as <-.
  exists off. by split_and!.
Qed.
End Cluster.

(** ** What an answer means *)

Section Answers.
Context {S IO : Type} `{ST : !ShardStore S IO} {W WIO : Type} `{SK : !WalCommit.WalSink W WIO}.
Abbreviation node := (@node S W).

(** What [appendDurable] did when it acknowledged: the wait succeeded, and the event is in
    the broker at the partition and offset it answered. *)
Lemma appendDurable_acked append quorum (c : @Gateway.clock WIO) topic key sid encoded (s s' : @Gateway.Server W) n a offset partition :
  Bus.rel n a (Gateway.bus s) -> 0 <= n < 2 ^ 62 - 1 -> Gateway.three a ->
  Gateway.appendDurable (Some append) quorum c topic key sid encoded s = Some (Ok (offset, partition), s') ->
  exists off, append sid encoded = Some off /\ quorum sid off = true /\
    exists a', Bus.rel (n + 1) a' (Gateway.bus s') /\ 0 <= partition < 3 /\
      Gateway.plog a' topic (Z.to_nat partition) = Gateway.plog a topic (Z.to_nat partition) ++ [encoded] /\
      offset = zlen (Gateway.plog a topic (Z.to_nat partition)).
Proof.
  intros HR Hn H3 E. unfold Gateway.appendDurable in E.
  destruct (Bus.op_route n a (Gateway.bus s) topic key HR ltac:(lia)) as [Hp HR1].
  destruct (Bus.RouteKey topic key (Gateway.bus s)) as [p b] eqn:ER. cbn [fst snd] in Hp, HR1.
  destruct (append sid encoded) as [off|]; [|done]. exists off. split; [done|]. destruct (quorum sid off); [|done]. split; [done|].
  pose proof (Gateway.route_lt (length (Bus.log_topic topic a).1) (Bus.log_topic topic a).2 key) as Hlt.
  rewrite (Gateway.three_topic a topic H3) in Hlt. specialize (Hlt ltac:(lia)).
  rewrite (Gateway.three_topic a topic H3), <- Hp in *. set (a1 := Bus.set_logs topic _ a) in HR1.
  assert (Gateway.three a1) as H31 by (apply Gateway.three_set; [done|apply Gateway.three_topic; done]).
  assert (forall q, Gateway.plog a1 topic q = Gateway.plog a topic q) as Hsame.
  { intros q. unfold a1. rewrite Gateway.plog_set. rewrite decide_True by done. reflexivity. }
  unfold Gateway.publish_durable in E.
  destruct (Gateway.append_wal c _ (Gateway.set_bus b s)) as [s1 [e|]] eqn:EW; [done|].
  assert (Gateway.bus s1 = b) as Hb1.
  { unfold Gateway.append_wal in EW. destruct (Gateway.wal _); [destruct (WalCommit.sink_append _ _ _ _)|]; by simplify_eq. }
  rewrite Hb1 in E. destruct (Bus.op_publish_to n a1 b topic p (Gateway.c_now c) encoded HR1 Hn) as (b' & r & EP & Hr).
  rewrite EP in E. cbn [mbind option_bind] in E. rewrite Gateway.valid_three in Hr by done. destruct Hr as [-> HR2].
  injection E as <- <- <-. rewrite wrap_s_small by lia.
  eexists. split; [exact HR2|]. split; [lia|]. rewrite Gateway.plog_append, Z2Nat.id, Hsame by (done || lia).
  rewrite decide_True by done. split; [done|]. rewrite <- Hsame. unfold Bus.log_append, Gateway.plog. cbn [fst]. by rewrite length_map.
Qed.

Lemma elsewhere_answer append quorum (c : @Gateway.clock WIO) route topic env sid hint (s s' : @Gateway.Server W) r :
  route (Tenant env) (Project env) (SessionID env) = (false, sid, hint) ->
  Gateway.PublishEnvelope (Some route) append quorum c topic env s = Some (r, s') ->
  s' = s /\ (r = Err (Gateway.InvalidArgument "invalid envelope") \/ r = Err (Gateway.FailedPrecondition hint)).
Proof.
  intros Hr E. unfold Gateway.PublishEnvelope in E. destruct (Marshal _ _); [|simplify_eq; auto]. rewrite Hr in E. simplify_eq. auto.
Qed.

Lemma local_publish append quorum (c : @Gateway.clock WIO) route topic env sid hint encoded (s : @Gateway.Server W) :
  route (Tenant env) (Project env) (SessionID env) = (true, sid, hint) -> Marshal (Gateway.c_now c) env = Ok encoded ->
  Gateway.PublishEnvelope (Some route) append quorum c topic env s =
  Gateway.appendDurable append quorum c topic (SessionKey (Tenant env) (Project env) (SessionID env)) sid encoded s.
Proof. intros Hr Hm. unfold Gateway.PublishEnvelope. by rewrite Hm, Hr. Qed.

(** C7. An acknowledged publish in cluster mode.  The shard got where it is ([shards_ok]) from
    a start in which every follower's log is a prefix of the leader's and nothing is
    acknowledged, by replication whose streams to a follower do not overlap; the code ensures
    neither, see [Replica.diverged_follower_acks] and [Replica.overlapping_streams_fork].
    Between the append and the answer, any steps of such replication of the shard happen;
    the server handles this publish alone.  Then the event is in the log of the session's
    shard and, at the same offset, in the log of every other replica that is tracked; and it
    is the last message of the broker's partition, at the offset the client got. *)
Theorem acked_event_is_replicated (c : @Gateway.clock WIO) route topic env (n n' : node) k a offset partition :
  shards_ok n -> Bus.rel k a (Gateway.bus (srv n)) -> 0 <= k < 2 ^ 62 - 1 -> Gateway.three a ->
  published c route topic env n (Ok (offset, partition)) n' ->
  exists encoded sid hint w a',
    Marshal (Gateway.c_now c) env = Ok encoded /\ route (Tenant env) (Project env) (SessionID env) = (true, sid, hint) /\
    shards n' !! sid = Some w /\ replicated encoded w /\
    Bus.rel (k + 1) a' (Gateway.bus (srv n')) /\
    Gateway.plog a' topic (Z.to_nat partition) = Gateway.plog a topic (Z.to_nat partition) ++ [encoded] /\
    offset = zlen (Gateway.plog a topic (Z.to_nat partition)).
Proof.
  intros Hs HR Hk H3 HP. remember (Ok (offset, partition)) as r eqn:Er.
  destruct HP as [n sid hint r s Hroute E|n sid hint w w1 io encoded r s Hroute Hm Hw Ha E
                 |n sid hint w w1 w2 io encoded off ctx_err q r s Hroute Hm Hw Ha Hr Hq E]; subst r.
  - destruct (elsewhere_answer _ _ _ _ _ _ _ _ _ _ _ Hroute E) as [_ [?|?]]; done.
  - rewrite (local_publish _ _ _ _ _ _ _ _ _ _ Hroute Hm) in E.
    destruct (appendDurable_acked _ _ _ _ _ _ _ _ _ _ _ _ _ HR Hk H3 E) as (? & ? & _). done.
  - rewrite (local_publish _ _ _ _ _ _ _ _ _ _ Hroute Hm) in E.
    destruct (appendDurable_acked _ _ _ _ _ _ _ _ _ _ _ _ _ HR Hk H3 E) as (? & [= <-] & Hqok & a' & HR' & _ & Hlog & Hoff).
    destruct q as [[]|]; [|done]. destruct (Hs sid w Hw) as (w0 & H0 & Hr0).
    exists encoded, sid, hint, w2, a'. cbn [shards srv]. rewrite lookup_insert_eq. split_and!; try done.
    by eapply waited_is_replicated.
Qed.

(** A publish whose wait timed out.  The client is told that the deadline passed; the event
    is nevertheless in the log of the shard, from where it can still be replicated, and it
    is not in the broker: no partition's log changed. *)
Theorem timed_out_event_stays_in_log (c : @Gateway.clock WIO) route topic env (n n' : node) k a :
  shards_ok n -> Bus.rel k a (Gateway.bus (srv n)) -> 0 <= k ->
  published c route topic env n (Err Gateway.DeadlineExceeded) n' ->
  exists encoded sid hint w off a',
    Marshal (Gateway.c_now c) env = Ok encoded /\ route (Tenant env) (Project env) (SessionID env) = (true, sid, hint) /\
    shards n' !! sid = Some w /\ sh_log (Replica.leader w) !! Z.to_nat off = Some encoded /\
    Bus.rel k a' (Gateway.bus (srv n')) /\ forall t p, Gateway.plog a' t p = Gateway.plog a t p.
Proof.
  intros Hs HR Hk HP. remember (Err Gateway.DeadlineExceeded) as r eqn:Er.
  destruct HP as [n sid hint r s Hroute E|n sid hint w w1 io encoded r s Hroute Hm Hw Ha E
                 |n sid hint w w1 w2 io encoded off ctx_err q r s Hroute Hm Hw Ha Hr Hq E]; subst r.
  - destruct (elsewhere_answer _ _ _ _ _ _ _ _ _ _ _ Hroute E) as [_ [?|?]]; done.
  - rewrite (local_publish _ _ _ _ _ _ _ _ _ _ Hroute Hm) in E. unfold Gateway.appendDurable in E.
    by destruct (Bus.RouteKey _ _ _).
  - rewrite (local_publish _ _ _ _ _ _ _ _ _ _ Hroute Hm) in E. unfold Gateway.appendDurable in E.
    pose proof (Bus.op_route k a (Gateway.bus (srv n)) topic (SessionKey (Tenant env) (Project env) (SessionID env)) HR Hk) as [_ HR1].
    destruct (Bus.RouteKey _ _ _) as [p b]. cbn [snd] in HR1. destruct (Hs sid w Hw) as (w0 & H0 & Hr0).
    destruct (appended_at _ _ _ _ _ _ _ H0 Hr0 Ha Hr) as (_ & Hat & _).
    assert (s = Gateway.set_bus b (srv n)) as ->.
    { destruct (quorum_ok q); [|by injection E as <-]. by destruct (Gateway.publish_durable _ _ _ _ _ _) as [[[?|?] ?]|]. }
    exists encoded, sid, hint, w2, off. eexists. cbn [shards srv]. rewrite lookup_insert_eq. do 4 (split; [done|]). split; [exact HR1|].
    intros t q'. rewrite Gateway.plog_set. destruct (decide (t = topic)) as [->|]; done.
Qed.
End Answers.

(** ** A leader and a follower *)

#[local] Existing Instance WalCommit.wal_log_sink.

Definition demo_route (_ _ _ : string) : bool * Z * string := (true, 5, ""%string).
Definition demo_clock : @Gateway.clock WalCommit.wal_io := Gateway.mkClock 0 0 Gateway.io_fine.
Definition demo_encoded : bytes := match Marshal 0 sample_event with Ok d => d | Err _ => [] end.
Definition demo_node : @node ShardCommit.Shard WalCommit.Log :=
  mkNode {[ 5 := Replica.pair_world ]} (Gateway.mkServer Bus.New None Offsets.NewManager).

Definition demo_appended : @Replica.world ShardCommit.Shard := (adapter_Append Replica.calm demo_encoded Replica.pair_world).2.

(** The follower is tracked, the event is streamed, written and acknowledged; or the
    follower is tracked and nothing else happens before the deadline. *)
Definition demo_streamed : @Replica.world ShardCommit.Shard :=
  default demo_appended (Replica.run true
    [Replica.LReplicas ["n1"; "n2"]%string; Replica.LSelf 1; Replica.LOpen "n2"; Replica.LSend 0; Replica.LRecv 0;
     Replica.LWrite 0 Replica.calm; Replica.LAck 0] demo_appended).
Definition demo_stuck : @Replica.world ShardCommit.Shard :=
  default demo_appended (Replica.run true [Replica.LReplicas ["n1"; "n2"]%string; Replica.LSelf 1] demo_appended).

Definition demo_answer (ok : bool) : result Gateway.status (Z * Z) * @Gateway.Server WalCommit.Log :=
  default (Err Gateway.ResourceExhausted, srv demo_node)
    (Gateway.PublishEnvelope (Some demo_route) (Some (fun _ _ => Some 0)) (fun _ _ => ok) demo_clock "agent-events" sample_event (srv demo_node)).

Lemma demo_shards_ok : shards_ok demo_node.
Proof.
  intros sid w E. cbn [demo_node shards] in E. apply lookup_singleton_Some in E as [<- <-]. exists Replica.pair_world. split; [apply Replica.pair_world_starts|constructor].
Qed.

Lemma demo_three : Gateway.three Bus.empty_logs.
Proof. intros t ls. cbn. by rewrite lookup_empty. Qed.

Lemma demo_marshal : Marshal 0 sample_event = Ok demo_encoded.
Proof. vm_compute. reflexivity. Qed.

Lemma demo_streams : Replica.reachable true demo_appended demo_streamed.
Proof.
  unfold demo_streamed. destruct (Replica.run _ _ demo_appended) eqn:E; cbn [default]; [|constructor]. exact (Replica.run_reachable _ _ _ _ E).
Qed.

Lemma demo_waits : Replica.reachable true demo_appended demo_stuck.
Proof.
  unfold demo_stuck. destruct (Replica.run _ _ demo_appended) eqn:E; cbn [default]; [|constructor]. exact (Replica.run_reachable _ _ _ _ E).
Qed.

Lemma demo_answers ok :
  Gateway.PublishEnvelope (Some demo_route) (Some (fun _ _ => Some 0)) (fun _ _ => ok) demo_clock "agent-events" sample_event (srv demo_node) =
  Some ((demo_answer ok).1, (demo_answer ok).2).
Proof. destruct ok; vm_compute; reflexivity. Qed.

Lemma demo_timed_out :
  published demo_clock demo_route "agent-events" sample_event demo_node (Err Gateway.DeadlineExceeded)
    (mkNode (<[5 := demo_stuck]> (shards demo_node)) (demo_answer false).2).
Proof.
  assert ((demo_answer false).1 = Err Gateway.DeadlineExceeded) as <- by (vm_compute; reflexivity).
  refine (pub_waited demo_clock demo_route "agent-events" sample_event demo_node 5 "" Replica.pair_world demo_appended demo_stuck
    Replica.calm demo_encoded 0 (Some 1) (Err 1) _ _ eq_refl demo_marshal eq_refl _ demo_waits _ (demo_answers false)).
  - vm_compute. reflexivity.
  - vm_compute. reflexivity.
Qed.

Lemma demo_published :
  published demo_clock demo_route "agent-events" sample_event demo_node (demo_answer true).1
    (mkNode (<[5 := demo_streamed]> (shards demo_node)) (demo_answer true).2).
Proof.
  refine (pub_waited demo_clock demo_route "agent-events" sample_event demo_node 5 "" Replica.pair_world demo_appended demo_streamed
    Replica.calm demo_encoded 0 None (Ok tt) _ _ eq_refl demo_marshal eq_refl _ demo_streams _ (demo_answers true)).
  - vm_compute. reflexivity.
  - vm_compute. reflexivity.
Qed.

Definition demo_after : @node ShardCommit.Shard WalCommit.Log :=
  mkNode (<[5 := demo_streamed]> (shards demo_node)) (demo_answer true).2.
Definition demo_late : @node ShardCommit.Shard WalCommit.Log :=
  mkNode (<[5 := demo_stuck]> (shards demo_node)) (demo_answer false).2.

Lemma acked_event_is_replicated_witness :
  exists encoded w, Marshal 0 sample_event = Ok encoded /\ shards demo_after !! 5 = Some w /\ replicated encoded w.
Proof.
  assert (published demo_clock demo_route "agent-events" sample_event demo_node (Ok (0, 0)) demo_after) as HP.
  { assert ((demo_answer true).1 = Ok (0, 0)) as <- by (vm_compute; reflexivity). exact demo_published. }
  destruct (acked_event_is_replicated demo_clock demo_route "agent-events" sample_event demo_node demo_after 0 Bus.empty_logs 0 0
    demo_shards_ok Bus.New_rel ltac:(lia) demo_three HP) as (encoded & sid & hint & w & a' & Hm & Hr & Hw & Hrep & _).
  exists encoded, w. injection Hr as <- <-. split; [exact Hm|]. split; [exact Hw|exact Hrep].
Defined.

Lemma timed_out_event_stays_in_log_witness :
  exists encoded w off, Marshal 0 sample_event = Ok encoded /\ shards demo_late !! 5 = Some w /\
    sh_log (Replica.leader w) !! Z.to_nat off = Some encoded.
Proof.
  destruct (timed_out_event_stays_in_log demo_clock demo_route "agent-events" sample_event demo_node demo_late 0 Bus.empty_logs
    demo_shards_ok Bus.New_rel ltac:(lia) demo_timed_out) as (encoded & sid & hint & w & off & a' & Hm & Hr & Hw & Hat & _).
  exists encoded, w, off. injection Hr as <- <-. split; [exact Hm|]. split; [exact Hw|exact Hat].
Defined.

End Durable.
