(* ===== verification/Sdk.v ===== *)
(** * The Go SDK (eventbus/publish.go, redirect.go, replay.go)

    [Module Client] models the client library: encoding and publishing agent
    events with the redirect to a shard's leader, decoding them again, and the scan
    that replays a session through [Fetch].  The broker's API is an argument of the client's functions, and the
    theorems put the servers' handlers there.  [None] is a panic of the server or
    running out of fuel; the transport's own failures are errors of the API.

    The theorems: a replay returns exactly the session's events when they fit one
    page, and what it loses when they do not; what a published event is read back
    as; a redirected publish happens at the leader only. *)

From S2P Require Import Prelude GoLib GoJson GoTime AgentStream Broker Consumer WalLog Server.
Import Json Envelope.

Module Client.
Local Open Scope Z_scope.

(** ** Events *)

Record SessionRef := mkSession { sn_Tenant : string; sn_Project : string; sn_SessionID : string; sn_AgentID : string }.

Record DecodedEvent := mkDecoded {
  d_Topic : string; d_Partition : Z; d_Offset : Z; d_Timestamp : Z;
  d_Version : string; d_Type : string; d_Tenant : string; d_Project : string; d_SessionID : string;
  d_AgentID : string; d_Step : string; d_Attempt : Z; d_CreatedAt : Z; d_Payload : option bytes
}.

(** [time.Unix(0, ns)]. *)
Definition unix_time (ns : Z) : Z := Time.unix_epoch + ns.

Definition parse_time (s : string) : Z := match Time.Parse (bs_of s) with Some t => t | None => 0 end.

(** The struct [envelope] has the fields and tags of [agentstream.Event]. *)
Definition DecodeEvent (raw : bytes) : option DecodedEvent :=
  if negb (valid raw) then None
  else
    env ← unmarshal set_event zero_event raw;
    if String.eqb (Type_ env) "" || String.eqb (Tenant env) "" || String.eqb (SessionID env) "" then None
    else Some (mkDecoded "" 0 0 0 (Version env) (Type_ env) (Tenant env) (Project env) (SessionID env) (AgentID env)
                 (Step env) (Attempt env) (parse_time (CreatedAt env)) (Payload env)).

Definition sessionMatches (ev : DecodedEvent) (sess : SessionRef) : bool :=
  String.eqb (d_Tenant ev) (sn_Tenant sess) && String.eqb (d_Project ev) (sn_Project sess) &&
  String.eqb (d_SessionID ev) (sn_SessionID sess).

Definition sessionKey (tenant project sessionID : string) : string :=
  TrimSpace tenant +:+ "/" +:+ TrimSpace project +:+ "/" +:+ TrimSpace sessionID.

Definition DefaultAgentTopic : string := "agent-events".

Inductive sdk_err {E : Type} := BadSession | BadEvent (e : envelope_err) | Rpc (e : E).
Arguments sdk_err : clear implicits.

(** The topic and partition of a session; [None] is the division by zero of a count
    that is 0 as a [uint32]. *)
Definition resolveSessionRouting {E} (sess : SessionRef) (topic : string) (partitionCount : Z) :
    option (result (sdk_err E) (string * Z)) :=
  if String.eqb (sn_Tenant sess) "" || String.eqb (sn_Project sess) "" || String.eqb (sn_SessionID sess) "" then
    Some (Err BadSession)
  else
    let topic := if String.eqb topic "" then DefaultAgentTopic else topic in
    let partitionCount := if partitionCount <=? 0 then 3 else partitionCount in
    let key := sessionKey (sn_Tenant sess) (sn_Project sess) (sn_SessionID sess) in
    if wrap_u 32 partitionCount =? 0 then None
    else Some (Ok (topic, i32 (fnv1a32 (bs_of key) mod wrap_u 32 partitionCount))).

(** ** Replaying a session *)

Record ReplayOptions := mkOptions {
  o_Topic : string; o_PartitionCount : Z; o_FromOffset : Z; o_PageSize : Z; o_MaxEvents : Z
}.

Definition filter_of (sess : SessionRef) : Gateway.SessionFilter :=
  Gateway.mkFilter (sn_Tenant sess) (sn_Project sess) (sn_SessionID sess).

(** A delivered message as an event of [topic]. *)
Definition event_of (topic : string) (m : Gateway.ConsumeMessage) : option DecodedEvent :=
  ev ← DecodeEvent (Gateway.cm_Payload m);
  Some {| ev with d_Topic := topic; d_Partition := Gateway.cm_Partition m; d_Offset := Gateway.cm_Offset m;
                  d_Timestamp := unix_time (Gateway.cm_Timestamp m) |}.

(** The loop over a page; the flag says that [maxEvents] was reached. *)
Fixpoint take_page (topic : string) (maxEvents : Z) (ms : list Gateway.ConsumeMessage) (out : list DecodedEvent) :
    list DecodedEvent * bool :=
  match ms with
  | [] => (out, false)
  | m :: ms =>
      match event_of topic m with
      | None => take_page topic maxEvents ms out
      | Some ev =>
          let out := out ++ [ev] in
          if (0 <? maxEvents) && (maxEvents <=? zlen out) then (out, true) else take_page topic maxEvents ms out
      end
  end.

Section Replay.
Context {S E : Type}.
(** [Fetch] of the API: topic, partition, offset, page size and filter. *)
Context (api_Fetch : string -> Z -> Z -> Z -> Gateway.SessionFilter -> S ->
  option (result E Gateway.FetchResponse * S)).

Fixpoint replay_loop (fuel : nat) (topic : string) (partition pageSize : Z) (filter : Gateway.SessionFilter)
    (maxEvents offset : Z) (out : list DecodedEvent) (s : S) :
    option (list DecodedEvent * option (sdk_err E) * S) :=
  match fuel with
  | O => None
  | Datatypes.S fuel =>
      '(r, s) ← api_Fetch topic partition offset pageSize filter s;
      match r with
      | Err e => Some (out, Some (Rpc e), s)
      | Ok page =>
          match Gateway.r_Messages page with
          | [] =>
              if (offset <? Gateway.r_NextOffset page) && (Gateway.r_NextOffset page <? Gateway.r_Tail page) then
                replay_loop fuel topic partition pageSize filter maxEvents (Gateway.r_NextOffset page) out s
              else Some (out, None, s)
          | ms =>
              let '(out, reached) := take_page topic maxEvents ms out in
              if reached then Some (out, None, s)
              else if Gateway.r_Tail page <=? Gateway.r_NextOffset page then Some (out, None, s)
              else replay_loop fuel topic partition pageSize filter maxEvents (Gateway.r_NextOffset page) out s
          end
      end
  end.

Definition page_size (n : Z) : Z := if n <=? 0 then 256 else n.

Definition ReplaySession (fuel : nat) (sess : SessionRef) (opts : ReplayOptions) (s : S) :
    option (list DecodedEvent * option (sdk_err E) * S) :=
  r ← resolveSessionRouting (E := E) sess (o_Topic opts) (o_PartitionCount opts);
  match r with
  | Err e => Some ([], Some e, s)
  | Ok (topic, partition) =>
      let offset := if o_FromOffset opts <? 0 then 0 else o_FromOffset opts in
      replay_loop fuel topic partition (page_size (o_PageSize opts)) (filter_of sess) (o_MaxEvents opts) offset [] s
  end.
End Replay.

(** ** What the broker's filter selects *)

(** Two structs decoded from the same object: what the first decoder accepts, the second
    one accepts, with related fields. *)
Lemma dec_members_sim {A B} (setA : bytes -> bytes -> json -> A -> option A) (setB : bytes -> bytes -> json -> B -> option B)
    (R : A -> B -> Prop) m :
  (forall key raw v a b a', R a b -> setA key raw v a = Some a' -> exists b', setB key raw v b = Some b' /\ R a' b') ->
  forall a b a', R a b -> dec_members setA m a = Some a' -> exists b', dec_members setB m b = Some b' /\ R a' b'.
Proof.
  intros Hs. induction m as [|key raw v m IH]; intros a b a' HR E; cbn [dec_members] in *; [by simplify_eq; exists b|].
  destruct (setA key raw v a) as [a1|] eqn:E1; [|done].
  destruct (Hs key raw v a b a1 HR E1) as (b1 & -> & HR1). by eapply IH.
Qed.

Definition peeks (e : Event) (p : Gateway.envelopePeek) : Prop :=
  Tenant e = Gateway.p_Tenant p /\ Project e = Gateway.p_Project p /\ SessionID e = Gateway.p_SessionID p.

Lemma field_is_other n n' key :
  field_is n key = true -> bool_decide (fold_name (bs_of n) = fold_name (bs_of n')) = false -> field_is n' key = false.
Proof. unfold field_is. intros H1%bool_decide_eq_true_1 H2. by rewrite H1. Qed.

(** [H] says which field the key is: the other tests fail. *)
Ltac field_known H E :=
  repeat match type of E with
  | context [field_is ?n' ?key] => first [rewrite H in E | rewrite (field_is_other _ n' key H) in E by (vm_compute; reflexivity)]
  end.

Lemma set_event_peeks key raw v e p e' :
  peeks e p -> set_event key raw v e = Some e' -> exists p', Gateway.set_peek key raw v p = Some p' /\ peeks e' p'.
Proof.
  intros (Ht & Hp & Hs) E. unfold set_event in E. unfold Gateway.set_peek.
  destruct (field_is "tenant" key) eqn:HT; [|destruct (field_is "project" key) eqn:HP; [|destruct (field_is "session_id" key) eqn:HS]].
  - field_known HT E. rewrite Ht in E. destruct (dec_string v _) as [x|]; [|done]. simplify_eq/=. eexists. split; done.
  - field_known HP E. rewrite Hp in E. destruct (dec_string v _) as [x|]; [|done]. simplify_eq/=. eexists. split; done.
  - field_known HS E. rewrite Hs in E. destruct (dec_string v _) as [x|]; [|done]. simplify_eq/=. eexists. split; done.
  - exists p. split; [done|]. unfold peeks.
    repeat match type of E with
    | (if false then _ else _) = _ => cbv iota in E
    | (if field_is ?n key then _ else _) = _ => destruct (field_is n key)
    | (x ← ?o; _) = _ => destruct o; [cbn [mbind option_bind] in E|done]
    end; simplify_eq/=; done.
Qed.

Definition sess_ok (sess : SessionRef) : Prop := sn_Tenant sess <> "" /\ sn_Project sess <> "" /\ sn_SessionID sess <> "".

(** On an envelope the SDK can decode, the broker's filter is the SDK's [sessionMatches]. *)
Lemma filter_is_session raw ev sess :
  sess_ok sess -> DecodeEvent raw = Some ev -> Gateway.sessionFilterMatches raw (filter_of sess) = sessionMatches ev sess.
Proof.
  intros (H1 & H2 & H3) E. unfold DecodeEvent in E. destruct (valid raw); [|done]. cbn [negb] in E.
  destruct (unmarshal set_event zero_event raw) as [env|] eqn:EU; [|done]. cbn [mbind option_bind] in E.
  destruct (_ || _ || _); [done|]. injection E as <-.
  assert (exists p, unmarshal Gateway.set_peek (Gateway.mkPeek "" "" "") raw = Some p /\ peeks env p) as (p & EP & P1 & P2 & P3).
  { unfold unmarshal in *. destruct (parse raw) as [v|]; [|done]. destruct v; try done.
    - simplify_eq. by eexists.
    - eapply dec_members_sim; [apply set_event_peeks| |exact EU]. done. }
  unfold Gateway.sessionFilterMatches, filter_of, Gateway.field_matches, sessionMatches.
  cbn [Gateway.f_Tenant Gateway.f_Project Gateway.f_SessionId d_Tenant d_Project d_SessionID].
  rewrite EP, (proj2 (String.eqb_neq _ _) H1), (proj2 (String.eqb_neq _ _) H2), (proj2 (String.eqb_neq _ _) H3).
  cbn [andb orb]. rewrite P1, P2, P3. f_equal; [f_equal|]; apply String.eqb_sym.
Qed.

(** ** Replay over the broker's [Fetch] *)

(** The broker as the SDK's API; the SDK leaves the scan budget to the server. *)
Definition server_Fetch {W} (topic : string) (partition from pageSize : Z) (f : Gateway.SessionFilter)
    (s : @Gateway.Server W) : option (result Gateway.status Gateway.FetchResponse * @Gateway.Server W) :=
  Gateway.Fetch topic partition from pageSize 0 (Some f) s.

(** What a message of the partition is to the session: one of its events, or nothing. *)
Definition session_event (topic : string) (partition : Z) (sess : SessionRef) (m : Bus.Message) : option DecodedEvent :=
  ev ← event_of topic (Gateway.consume_message partition m);
  if sessionMatches ev sess then Some ev else None.

(** [MaxEvents]; 0 is no limit. *)
Definition cap {A} (n : Z) (l : list A) : list A := if 0 <? n then take (Z.to_nat n) l else l.

Lemma take_page_spec topic mx ms : forall out, mx <= 0 \/ zlen out < mx ->
  let all := out ++ omap (event_of topic) ms in
  take_page topic mx ms out = (cap mx all, (0 <? mx) && (mx <=? zlen all)).
Proof.
  induction ms as [|m ms IH]; intros out Hl; cbn [take_page omap list_omap].
  { rewrite app_nil_r. unfold cap. destruct (Z.ltb_spec 0 mx); cbn [andb]; [|done].
    rewrite (proj2 (Z.leb_gt _ _)), take_ge by lia. done. }
  destruct (event_of topic m) as [ev|]; [|by apply IH].
  replace (out ++ ev :: omap (event_of topic) ms) with ((out ++ [ev]) ++ omap (event_of topic) ms)
    by (by rewrite <- app_assoc).
  rewrite length_app. cbn [length]. destruct (Z.ltb_spec 0 mx); cbn [andb].
  - destruct (Z.leb_spec mx (Z.of_nat (length out + 1))).
    + unfold cap. rewrite (proj2 (Z.ltb_lt _ _)) by done. rewrite !length_app. cbn [length].
      rewrite (proj2 (Z.leb_le _ _)) by lia. f_equal. symmetry. apply take_app_length'. rewrite length_app. cbn. lia.
    + by rewrite IH by (rewrite length_app; cbn; lia).
  - by rewrite IH by lia.
Qed.

Lemma omap_matches topic pt sess ms : sess_ok sess ->
  omap (event_of topic) (map (Gateway.consume_message pt) (filter (Gateway.matches (filter_of sess)) ms)) =
  omap (session_event topic pt sess) ms.
Proof.
  intros Hs. induction ms as [|m ms IH]; [done|]. rewrite filter_cons.
  assert (forall ev, event_of topic (Gateway.consume_message pt m) = Some ev ->
    Gateway.sessionFilterMatches (Bus.m_Payload m) (filter_of sess) = sessionMatches ev sess) as H.
  { intros ev E. unfold event_of in E. cbn [Gateway.consume_message Gateway.cm_Payload] in E.
    destruct (DecodeEvent (Bus.m_Payload m)) as [d|] eqn:ED; [|done]. cbn in E. injection E as <-.
    by rewrite (filter_is_session _ d sess). }
  assert (omap (session_event topic pt sess) (m :: ms) =
    match session_event topic pt sess m with Some e => [e] | None => [] end ++ omap (session_event topic pt sess) ms) as ->.
  { cbn. by destruct (session_event topic pt sess m). }
  unfold session_event at 1. destruct (event_of topic (Gateway.consume_message pt m)) as [ev|] eqn:EV.
  - cbn [mbind option_bind]. rewrite <- (H ev eq_refl).
    destruct (decide (Gateway.matches (filter_of sess) m)) as [Hm|Hm]; unfold Gateway.matches in Hm.
    + rewrite Hm. cbn [map]. rewrite <- IH. cbn. by rewrite EV.
    + apply not_true_is_false in Hm. by rewrite Hm.
  - cbn [mbind option_bind app]. rewrite <- IH. case_decide; [|done]. cbn. by rewrite EV.
Qed.

Lemma slice_log_app log from o next : 0 <= from <= o -> o <= next ->
  Gateway.slice_log log from next = Gateway.slice_log log from o ++ Gateway.slice_log log o next.
Proof.
  intros H1 H2. unfold Gateway.slice_log.
  replace (Z.to_nat (next - from)) with (Z.to_nat (o - from) + Z.to_nat (next - o))%nat by lia.
  replace (Z.to_nat o) with (Z.to_nat from + Z.to_nat (o - from))%nat by lia.
  by rewrite <- drop_drop, take_take_drop.
Qed.

Lemma slice_log_end log from next : 0 <= from -> zlen log <= next ->
  Gateway.slice_log log from next = drop (Z.to_nat from) (Bus.number log).
Proof. intros H1 H2. unfold Gateway.slice_log. apply take_ge. rewrite length_drop, Bus.length_number. lia. Qed.

Section Complete.
Context {W : Type} (n : Z) (a : Bus.Logs) (topic : string) (pt : Z) (ls : list (list Bus.entry) * Z) (log : list Bus.entry).
Context (sess : SessionRef) (pageSize maxEvents from : Z).
Hypothesis Hsess : sess_ok sess.
Hypothesis Htopic : topic <> ""%string.
Hypothesis Hls : Bus.l_topics a !! topic = Some ls.
Hypothesis Hpt : 0 <= pt.
Hypothesis Hlog : ls.1 !! Z.to_nat pt = Some log.
Hypothesis Hfrom : Z.max 0 (zlen log - Bus.defaultCapacity) <= from.
(** The session's messages fit one page. *)
Hypothesis Hfit : zlen (filter (Gateway.matches (filter_of sess)) (drop (Z.to_nat from) (Bus.number log))) <
  Gateway.max_count pageSize.

Abbreviation found next := (omap (session_event topic pt sess) (Gateway.slice_log log from next)).

Lemma page_not_full o next : from <= o <= next ->
  Gateway.first_matches (filter_of sess) pt (Gateway.max_count pageSize) (Gateway.slice_log log o next) =
  map (Gateway.consume_message pt) (filter (Gateway.matches (filter_of sess)) (Gateway.slice_log log o next)) /\
  zlen (Gateway.first_matches (filter_of sess) pt (Gateway.max_count pageSize) (Gateway.slice_log log o next)) <
    Gateway.max_count pageSize.
Proof.
  intros Ho. set (big := Z.max next (zlen log)).
  rewrite <- (slice_log_end log from big) in Hfit by lia.
  rewrite (slice_log_app log from o big), (slice_log_app log o next big), !list.filter_app, !length_app in Hfit by lia.
  unfold Gateway.first_matches. rewrite take_ge by (rewrite length_map; lia). rewrite length_map. split; [done|lia].
Qed.

Lemma replay_loop_spec fuel : forall o (s : @Gateway.Server W),
  Bus.rel n a (Gateway.bus s) -> from <= o -> Z.max 0 (zlen log - o) < Z.of_nat fuel ->
  (maxEvents <= 0 \/ zlen (found o) < maxEvents) ->
  exists s', replay_loop server_Fetch fuel topic pt pageSize (filter_of sess) maxEvents o (found o) s =
    Some (cap maxEvents (omap (session_event topic pt sess) (drop (Z.to_nat from) (Bus.number log))), None, s') /\
    Gateway.bus s' = Gateway.bus s.
Proof.
  induction fuel as [|fuel IH]; intros o s HR Ho Hfuel Hmax; cbn [replay_loop]; [lia|].
  destruct (Gateway.filtered_fetch n a s topic pt ls log o pageSize 0 (filter_of sess))
    as (resp & s1 & E & Hb & Htail & Hn & Hp & Hms & Hend); [done..|lia|].
  change (server_Fetch topic pt o pageSize (filter_of sess) s) with
    (Gateway.Fetch topic pt o pageSize 0 (Some (filter_of sess)) s). rewrite E. cbn [mbind option_bind]. rewrite Htail.
  destruct (page_not_full o (Gateway.r_NextOffset resp)) as [Hfm Hlt]; [lia|].
  rewrite <- Hms in Hlt. rewrite Hfm in Hms. specialize (Hend Hlt).
  pose proof (Gateway.scan_limit_range 0) as Hsl.
  assert (found (Gateway.r_NextOffset resp) = found o ++ omap (event_of topic) (Gateway.r_Messages resp)) as Hnext.
  { rewrite Hms, omap_matches by done. rewrite (slice_log_app log from o) by lia. apply omap_app. }
  assert (zlen log <= Gateway.r_NextOffset resp -> found (Gateway.r_NextOffset resp) =
    omap (session_event topic pt sess) (drop (Z.to_nat from) (Bus.number log))) as Hall.
  { intros H. by rewrite slice_log_end by lia. }
  assert (forall l : list DecodedEvent, maxEvents <= 0 \/ zlen l < maxEvents -> cap maxEvents l = l) as Hcap.
  { intros l Hl. unfold cap. destruct (Z.ltb_spec 0 maxEvents); [|done]. apply take_ge. lia. }
  destruct (Gateway.r_Messages resp) as [|m ms] eqn:Em.
  - rewrite app_nil_r in Hnext. destruct (_ && _) eqn:EC.
    + go_bool. rewrite <- Hnext in *. destruct (IH (Gateway.r_NextOffset resp) s1) as (s' & E' & Hb'); [by rewrite Hb|lia|lia|done|].
      exists s'. split; [done|]. by rewrite Hb'.
    + assert (zlen log <= Gateway.r_NextOffset resp) as Hdone by (apply andb_false_iff in EC as [EC|EC]; go_bool; lia).
      exists s1. rewrite <- (Hall Hdone), Hnext, Hcap by done. done.
  - rewrite take_page_spec by done. rewrite <- Hnext. clear Em. destruct (_ && _) eqn:EC.
    + go_bool. exists s1. split; [|done]. f_equal. f_equal. f_equal. unfold cap. rewrite (proj2 (Z.ltb_lt _ _)) by done.
      rewrite <- (slice_log_end log from (Z.max (Gateway.r_NextOffset resp) (zlen log))) by lia.
      rewrite (slice_log_app log from (Gateway.r_NextOffset resp) (Z.max _ _)), omap_app by lia.
      symmetry. apply take_app_le. lia.
    + assert (maxEvents <= 0 \/ zlen (found (Gateway.r_NextOffset resp)) < maxEvents) as Hm'
        by (apply andb_false_iff in EC as [EC|EC]; go_bool; lia).
      rewrite Hcap by done. destruct (Z.leb_spec (zlen log) (Gateway.r_NextOffset resp)) as [Hd|Hd].
      * exists s1. rewrite <- (Hall Hd), Hcap by done. done.
      * destruct (IH (Gateway.r_NextOffset resp) s1) as (s' & E' & Hb'); [by rewrite Hb|lia|lia|done|].
        exists s'. split; [done|]. by rewrite Hb'.
Qed.
End Complete.

(** C25. A replay returns the whole session.  On a quiet broker whose partition still holds
    everything from [FromOffset] on, and while the session's messages there are fewer
    than a page ([PageSize], capped by the server), [ReplaySession] ends after at most
    as many pages as the partition has messages, returns exactly the envelopes of the
    session from [FromOffset] on, in the order they were written, the first [MaxEvents]
    of them if that is set, and leaves the broker unchanged. *)
Theorem replay_is_complete {W} n a (s : @Gateway.Server W) sess opts topic pt ls log fuel :
  sess_ok sess ->
  resolveSessionRouting (E := Gateway.status) sess (o_Topic opts) (o_PartitionCount opts) = Some (Ok (topic, pt)) ->
  Bus.rel n a (Gateway.bus s) -> Bus.l_topics a !! topic = Some ls -> 0 <= pt -> ls.1 !! Z.to_nat pt = Some log ->
  let from := Z.max 0 (o_FromOffset opts) in
  zlen log - Bus.defaultCapacity <= from ->
  zlen (filter (Gateway.matches (filter_of sess)) (drop (Z.to_nat from) (Bus.number log))) <
    Gateway.max_count (page_size (o_PageSize opts)) ->
  zlen log < Z.of_nat fuel ->
  exists s', ReplaySession server_Fetch fuel sess opts s =
    Some (cap (o_MaxEvents opts) (omap (session_event topic pt sess) (drop (Z.to_nat from) (Bus.number log))), None, s') /\
    Gateway.bus s' = Gateway.bus s.
Proof.
  intros Hs Hroute HR Hls Hpt Hlog from Hhead Hfit Hfuel. unfold ReplaySession. rewrite Hroute. cbn [mbind option_bind].
  assert (topic <> ""%string) as Ht.
  { unfold resolveSessionRouting in Hroute. destruct (_ || _ || _); [done|]. destruct (_ =? _); [done|].
    injection Hroute as <- _. destruct (String.eqb_spec (o_Topic opts) ""); done. }
  replace (if o_FromOffset opts <? 0 then 0 else o_FromOffset opts) with from
    by (unfold from; destruct (Z.ltb_spec (o_FromOffset opts) 0); lia).
  assert (omap (session_event topic pt sess) (Gateway.slice_log log from from) = []) as H0
    by (unfold Gateway.slice_log; by rewrite Z.sub_diag).
  rewrite <- H0.
  apply (replay_loop_spec n a topic pt ls log sess _ (o_MaxEvents opts) from Hs Ht Hls Hpt Hlog); [lia|done|done|lia|lia|].
  rewrite H0. cbn. lia.
Qed.

(** The SDK looks where the broker puts a session: on a topic with the partition count the
    caller names, both hash the session's key to the same partition. *)
Lemma sdk_partition_is_brokers {E} set sess topic :
  sess_ok sess -> 0 < zlen (Bus.partitions set) < 2 ^ 31 ->
  resolveSessionRouting (E := E) sess topic (zlen (Bus.partitions set)) =
  Some (Ok (if String.eqb topic "" then DefaultAgentTopic else topic,
            (Bus.choosePartition set (SessionKey (sn_Tenant sess) (sn_Project sess) (sn_SessionID sess))).2)).
Proof.
  intros (H1 & H2 & H3) Hk. unfold resolveSessionRouting, Bus.choosePartition.
  rewrite (proj2 (String.eqb_neq _ _) H1), (proj2 (String.eqb_neq _ _) H2), (proj2 (String.eqb_neq _ _) H3). cbn [orb].
  rewrite (proj2 (Z.leb_gt _ _)) by lia.
  set (k := zlen (Bus.partitions set)) in *. assert (wrap_u 32 k = k) as Hu by (apply wrap_u_small; lia).
  rewrite Hu. rewrite (proj2 (Z.eqb_neq _ _)) by lia.
  change (sessionKey (sn_Tenant sess) (sn_Project sess) (sn_SessionID sess)) with
    (SessionKey (sn_Tenant sess) (sn_Project sess) (sn_SessionID sess)).
  set (key := SessionKey _ _ _). assert (String.eqb key "" = false) as Hne.
  { apply String.eqb_neq. unfold key, SessionKey. by destruct (TrimSpace (sn_Tenant sess)). }
  pose proof (Z.mod_pos_bound (fnv1a32 (bs_of key)) k ltac:(lia)) as Hm.
  rewrite wrap_s_small by (simpl; lia). destruct (Z.eqb_spec k 1) as [->|Hk1]; [by rewrite Z.mod_1_r|].
  by rewrite Hne.
Qed.

(** Three events of one session and one of another, in the session's partition. *)
Definition demo_session : SessionRef := mkSession "acme" "p" "s1" "planner".

Definition demo_payload (session typ : string) : bytes :=
  match Marshal 0 (mkEvent "v1" typ "acme" "p" session "planner" "" 0 "2026-01-02T03:04:05Z" None) with
  | Ok d => d | Err _ => []
  end.

Definition demo_partition : Z := fnv1a32 (bs_of "acme/p/s1") mod 3.
Definition demo_log : list Bus.entry :=
  [(1, demo_payload "s1" "think.start"); (2, demo_payload "s2" "tool.call"); (3, demo_payload "s1" "tool.call");
   (4, demo_payload "s1" "complete")].
Definition demo_ops : list Bus.op :=
  map (fun e => Bus.OPublishToPartition "agent-events" demo_partition e.1 e.2) demo_log.
Definition demo_bus : Bus.Broker := match Bus.run_all Bus.run_op demo_ops Bus.New with Some (_, b) => b | None => Bus.New end.
Definition demo_logs : Bus.Logs :=
  match Bus.run_all Bus.log_op demo_ops Bus.empty_logs with Some (_, a) => a | None => Bus.empty_logs end.
Definition demo_server : @Gateway.Server WalCommit.Log := Gateway.mkServer demo_bus None Offsets.NewManager.

(** What a replay with a page size and a cap returns: the types of the events. *)
Definition demo_replay (pageSize maxEvents : Z) : option (list string) :=
  match ReplaySession server_Fetch 5 demo_session (mkOptions "" 0 0 pageSize maxEvents) demo_server with
  | Some (evs, None, _) => Some (map d_Type evs)
  | _ => None
  end.

Lemma demo_rel : Bus.rel 4 demo_logs demo_bus.
Proof.
  destruct (Bus.run_simulates demo_ops 0 Bus.empty_logs Bus.New
    (map (fun o => Bus.RPublished demo_partition o) [0; 1; 2; 3]) demo_logs Bus.New_rel) as (b & Eb & HR);
    [done|done|repeat constructor|vm_compute; reflexivity|].
  assert (demo_bus = b) as -> by (unfold demo_bus; by rewrite Eb). exact HR.
Qed.

Lemma replay_is_complete_witness :
  exists s', ReplaySession server_Fetch 5 demo_session (mkOptions "" 0 0 4 2) demo_server =
    Some (cap 2 (omap (session_event "agent-events" demo_partition demo_session) (drop 0 (Bus.number demo_log))), None, s') /\
    Gateway.bus s' = Gateway.bus demo_server.
Proof.
  apply (replay_is_complete 4 demo_logs demo_server demo_session (mkOptions "" 0 0 4 2) "agent-events" demo_partition
    (match Bus.l_topics demo_logs !! "agent-events" with Some l => l | None => ([], 0) end) demo_log 5).
  - done.
  - vm_compute. reflexivity.
  - exact demo_rel.
  - vm_compute. reflexivity.
  - vm_compute. discriminate.
  - vm_compute. reflexivity.
  - vm_compute. discriminate.
  - vm_compute. reflexivity.
  - vm_compute. reflexivity.
Defined.

(** A replay loses events when a page fills up: the server's full page skips the rest of
    what it scanned.  With a page large enough all three events of the session come back,
    with pages of two the last one is missing, and no error says so. *)
Theorem replay_loses_events :
  demo_replay 0 0 = Some ["think.start"; "tool.call"; "complete"]%string /\
  demo_replay 2 0 = Some ["think.start"; "tool.call"]%string /\
  demo_replay 1 0 = Some ["think.start"]%string.
Proof. vm_compute. done. Qed.

(** ** Publishing agent events *)

Record AgentEvent := mkAgentEvent {
  ae_Tenant : string; ae_Project : string; ae_SessionID : string; ae_AgentID : string; ae_Type : string;
  ae_Step : string; ae_Attempt : Z; ae_Payload : bytes; ae_Version : string; ae_CreatedAt : Z
}.

Definition validateAgentEvent (ev : AgentEvent) : option envelope_err :=
  if decide (TrimSpace (ae_Type ev) = "") then Some TypeRequired
  else if decide (TrimSpace (ae_Tenant ev) = "") then Some TenantRequired
  else if decide (TrimSpace (ae_Project ev) = "") then Some ProjectRequired
  else if decide (TrimSpace (ae_SessionID ev) = "") then Some SessionRequired
  else if decide (TrimSpace (ae_AgentID ev) = "") then Some AgentRequired
  else None.

(** The envelope of an event at time [now]; times are in UTC. *)
Definition envelope_of (now : Z) (ev : AgentEvent) : Event :=
  mkEvent (if String.eqb (ae_Version ev) "" then "v1" else ae_Version ev) (ae_Type ev) (ae_Tenant ev) (ae_Project ev)
    (ae_SessionID ev) (ae_AgentID ev) (ae_Step ev) (ae_Attempt ev)
    (str_of (Time.Format (if Time.IsZero (ae_CreatedAt ev) then now else ae_CreatedAt ev)))
    (Some (if decide (ae_Payload ev = []) then bs_of "{}" else ae_Payload ev)).

Definition encodeAgentEvent (now : Z) (ev : AgentEvent) : result envelope_err bytes :=
  if negb (valid (if decide (ae_Payload ev = []) then bs_of "{}" else ae_Payload ev)) then Err BadPayload
  else match json_event (envelope_of now ev) with Some d => Ok d | None => Err BadPayload end.

Definition notLeaderHint (e : sdk_err Gateway.status) : option string :=
  match e with Rpc (Gateway.FailedPrecondition hint) => Some hint | _ => None end.

Definition request_of (ev : AgentEvent) (encoded : bytes) : Gateway.AgentEvent :=
  Gateway.mkAgentEvent (ae_Type ev) (ae_Tenant ev) (ae_Project ev) (ae_SessionID ev) (ae_AgentID ev) (Some encoded).

Section Publish.
Context {S : Type}.
(** [PublishAgent] on the client's connection, or on a new one to an address. *)
Context (api_PublishAgent : option string -> Gateway.AgentEvent -> S -> option (result Gateway.status (Z * Z) * S)).
(** Whether [grpc.NewClient] accepts an address. *)
Context (dial : string -> bool).

Definition dialLeader (addr : string) : bool := if String.eqb addr "" then false else dial addr.

Definition publishAgentOnce (to : option string) (ev : AgentEvent) (encoded : bytes) (s : S) :
    option (result (sdk_err Gateway.status) (Z * Z) * S) :=
  '(r, s) ← api_PublishAgent to (request_of ev encoded) s;
  Some (match r with Ok res => Ok res | Err e => Err (Rpc e) end, s).

(** Answers [(Offset, Partition)]. *)
Definition PublishAgentTo (topic : string) (now : Z) (ev : AgentEvent) (s : S) :
    option (result (sdk_err Gateway.status) (Z * Z) * S) :=
  match validateAgentEvent ev with
  | Some e => Some (Err (BadEvent e), s)
  | None =>
      match encodeAgentEvent now ev with
      | Err e => Some (Err (BadEvent e), s)
      | Ok encoded =>
          '(r, s) ← publishAgentOnce None ev encoded s;
          match r with
          | Ok res => Some (Ok res, s)
          | Err firstErr =>
              match notLeaderHint firstErr with
              | None => Some (Err firstErr, s)
              | Some hint =>
                  if String.eqb hint "" then Some (Err firstErr, s)
                  else if negb (dialLeader hint) then Some (Err firstErr, s)
                  else publishAgentOnce (Some hint) ev encoded s
              end
          end
      end
  end.

Definition PublishAgent (now : Z) (ev : AgentEvent) (s : S) : option (result (sdk_err Gateway.status) (Z * Z) * S) :=
  PublishAgentTo DefaultAgentTopic now ev s.
End Publish.

(** One broker in single-node mode behind the client's connection. *)
Definition single_node {W IO} `{SK : !WalCommit.WalSink W IO} (c : @Gateway.clock IO) (to : option string)
    (req : Gateway.AgentEvent) (s : @Gateway.Server W) : option (result Gateway.status (Z * Z) * @Gateway.Server W) :=
  match to with
  | None => Gateway.PublishAgent None None None (fun _ _ => true) c (Some req) s
  | Some _ => None
  end.

(** An event whose strings are UTF-8 and whose payload [json.Marshal] produced. *)
Definition event_text (now : Z) (ev : AgentEvent) (raw : bytes) : Prop :=
  strings_ok (envelope_of now ev) /\ in_i64 (ae_Attempt ev) /\ ae_Payload ev = raw /\ raw <> [] /\
  stable Outside Outside raw /\ (exists v, forall d, d <= 2 -> reads d raw v) /\ validateAgentEvent ev = None.

(** An envelope is itself a payload, one level deeper. *)
Lemma envelope_text e raw v data :
  strings_ok e -> Payload e = Some raw -> stable Outside Outside raw -> (forall d, d <= 2 -> reads d raw v) ->
  json_event e = Some data -> payload_text data.
Proof.
  intros Hs Hp Hst Hv E. unfold json_event in E. rewrite Hp in E.
  assert (valid raw = true) as Hval. { unfold valid. by rewrite (reads_parse raw v) by (apply Hv; lia). }
  rewrite (compact_stable raw Hst Hval) in E. cbn [mbind option_bind] in E. injection E as <-.
  split; [by apply stable_object, event_fields_stable|].
  exists (JObj (members_of (event_fields e raw) (event_vals e v))). intros d Hd.
  apply reads_object; [done|apply event_fields_names|unfold maxNestingDepth; lia|].
  apply event_fields_read; [done|]. apply Hv. lia.
Qed.

(** [DecodeEvent] of an encoded envelope. *)
Lemma DecodeEvent_json e raw :
  strings_ok e -> in_i64 (Attempt e) -> Payload e = Some raw -> payload_text raw ->
  Type_ e <> "" -> Tenant e <> "" -> SessionID e <> "" ->
  exists data, json_event e = Some data /\
    DecodeEvent data = Some (mkDecoded "" 0 0 0 (Version e) (Type_ e) (Tenant e) (Project e) (SessionID e) (AgentID e)
                               (Step e) (Attempt e) (parse_time (CreatedAt e)) (Payload e)).
Proof.
  intros Hs Ha Hp Ht H1 H2 H3. destruct (json_event_roundtrip e raw) as (data & E & _ & Hv & Hu); [done..|].
  exists data. split; [done|]. unfold DecodeEvent. rewrite Hv, Hu. cbn [negb mbind option_bind].
  rewrite (proj2 (String.eqb_neq _ _) H1), (proj2 (String.eqb_neq _ _) H2), (proj2 (String.eqb_neq _ _) H3). done.
Qed.

Lemma validate_names ev : validateAgentEvent ev = None ->
  ae_Type ev <> "" /\ ae_Tenant ev <> "" /\ ae_SessionID ev <> "".
Proof.
  unfold validateAgentEvent. repeat case_decide; try done. intros _. split_and!; intros E; rewrite E in *; done.
Qed.

Lemma appendDurable_no_redirect {W IO} `{SK : !WalCommit.WalSink W IO} (c : @Gateway.clock IO) q topic key shard data
    (s s' : @Gateway.Server W) e :
  Gateway.appendDurable None q c topic key shard data s = Some (Err e, s') -> notLeaderHint (Rpc e) = None.
Proof.
  unfold Gateway.appendDurable. destruct (Bus.RouteKey topic key (Gateway.bus s)) as [p b]. cbv zeta iota.
  destruct (Gateway.publish_durable _ _ _ _ _ _) as [[[off|err] s1]|]; cbn [mbind option_bind]; intros E; by simplify_eq.
Qed.

(** The envelope the server wraps a request in. *)
Definition outer_envelope (now : Z) (ev : AgentEvent) (inner : bytes) : Event :=
  mkEvent "v1" (ae_Type ev) (ae_Tenant ev) (ae_Project ev) (ae_SessionID ev) (ae_AgentID ev) "" 0
    (str_of (Time.Format now)) (Some inner).

(** An event published with the SDK is wrapped twice: the SDK sends its whole envelope as
    the payload, and the server puts that into an envelope of its own, on its fixed
    topic whatever topic was asked for.  So [DecodeEvent] of the stored message (what
    [ReplaySession] and [TailSession] return) has no step, attempt 0 and the server's
    time, and its payload is the SDK's envelope; the caller's payload, step and attempt
    are found by decoding that payload once more. *)
Theorem sdk_publish_wraps_twice {W IO} `{SK : !WalCommit.WalSink W IO} (c : @Gateway.clock IO) dial topic now ev raw :
  event_text now ev raw ->
  exists inner outer,
    encodeAgentEvent now ev = Ok inner /\
    (forall s : @Gateway.Server W, PublishAgentTo (single_node c) dial topic now ev s =
       '(r, s) ← Gateway.appendDurable None (fun _ _ => true) c "agent-events"
          (SessionKey (ae_Tenant ev) (ae_Project ev) (ae_SessionID ev)) 0 outer s;
       Some (match r with Ok res => Ok res | Err e => Err (Rpc e) end, s)) /\
    (d_Step <$> DecodeEvent outer) = Some ""%string /\ (d_Attempt <$> DecodeEvent outer) = Some 0 /\
    (d_Payload <$> DecodeEvent outer) = Some (Some inner) /\
    (d_Step <$> DecodeEvent inner) = Some (ae_Step ev) /\ (d_Attempt <$> DecodeEvent inner) = Some (ae_Attempt ev) /\
    (d_Payload <$> DecodeEvent inner) = Some (Some raw).
Proof.
  intros (Hs & Ha & Hp & Hne & Hst & (v & Hv) & Hval). destruct (validate_names ev Hval) as (H1 & H2 & H3).
  assert (Payload (envelope_of now ev) = Some raw) as HP by (unfold envelope_of; rewrite Hp; cbn; by rewrite decide_False).
  assert (payload_text raw) as Ht by (split; [done|exists v; intros d Hd; apply Hv; lia]).
  assert (valid raw = true) as Hvr by (unfold valid; by rewrite (reads_parse raw v) by (apply Hv; lia)).
  destruct (DecodeEvent_json (envelope_of now ev) raw) as (inner & Ei & Di); [done..|].
  assert (strings_ok (outer_envelope (Gateway.c_now c) ev inner)) as Hso.
  { destruct Hs as (_ & ? & ? & ? & ? & ? & _ & _). split_and!; try done. apply Time.Format_utf8. }
  destruct (DecodeEvent_json (outer_envelope (Gateway.c_now c) ev inner) inner) as (outer & Eo & Do_);
    [done|unfold in_i64; cbn; lia|done|exact (envelope_text _ raw v inner Hs HP Hst Hv Ei)|done..|].
  exists inner, outer. rewrite Di, Do_, HP. split_and!; try done.
  - unfold encodeAgentEvent. rewrite Hp, decide_False, Hvr by done. cbn [negb]. by rewrite Ei.
  - intros s. unfold PublishAgentTo. rewrite Hval. unfold encodeAgentEvent. rewrite Hp, decide_False, Hvr by done.
    cbn [negb]. rewrite Ei. unfold publishAgentOnce, single_node, Gateway.PublishAgent, request_of. cbn [default].
    cbv zeta. cbn [Gateway.a_Type Gateway.a_Tenant Gateway.a_Project Gateway.a_SessionId Gateway.a_AgentId Gateway.a_Payload].
    assert (Marshal (Gateway.c_now c) (mkEvent "" (ae_Type ev) (ae_Tenant ev) (ae_Project ev) (ae_SessionID ev)
      (ae_AgentID ev) "" 0 "" (Some inner)) = Ok outer) as ->.
    { unfold Marshal. cbn [Version CreatedAt Payload]. rewrite !decide_True by done.
      change (Validate _) with (validateAgentEvent ev). rewrite Hval.
      change (json_event _) with (json_event (outer_envelope (Gateway.c_now c) ev inner)). by rewrite Eo. }
    destruct (Gateway.appendDurable _ _ _ _ _ _ _ _) as [[[res|e] s']|] eqn:EA; try done. cbn [mbind option_bind].
    by rewrite (appendDurable_no_redirect _ _ _ _ _ _ _ _ _ EA).
Qed.

#[local] Existing Instance WalCommit.wal_log_sink.

Definition demo_now : Z := Time.unix_epoch + 1700000000000000000.

Definition demo_agent_event : AgentEvent :=
  mkAgentEvent "acme" "p" "s1" "planner" "tool.call" "search" 2 (enc_object [("tool"%string, enc_string "web")]) "" 0.

Lemma sdk_publish_wraps_twice_witness :
  exists inner outer,
    encodeAgentEvent demo_now demo_agent_event = Ok inner /\
    (forall s : @Gateway.Server WalCommit.Log,
       PublishAgentTo (single_node (Gateway.mkClock 7 7 Gateway.io_fine)) (fun _ => true) "agent-events.dlq" demo_now
         demo_agent_event s =
       '(r, s) ← Gateway.appendDurable None (fun _ _ => true) (Gateway.mkClock 7 7 Gateway.io_fine) "agent-events"
          (SessionKey "acme" "p" "s1") 0 outer s;
       Some (match r with Ok res => Ok res | Err e => Err (Rpc e) end, s)) /\
    (d_Step <$> DecodeEvent outer) = Some ""%string /\ (d_Attempt <$> DecodeEvent outer) = Some 0 /\
    (d_Payload <$> DecodeEvent outer) = Some (Some inner) /\
    (d_Step <$> DecodeEvent inner) = Some "search"%string /\ (d_Attempt <$> DecodeEvent inner) = Some 2 /\
    (d_Payload <$> DecodeEvent inner) = Some (Some (enc_object [("tool"%string, enc_string "web")])).
Proof.
  apply (sdk_publish_wraps_twice (Gateway.mkClock 7 7 Gateway.io_fine) (fun _ => true) "agent-events.dlq" demo_now
    demo_agent_event (enc_object [("tool"%string, enc_string "web")])).
  split; [split_and!; vm_compute; reflexivity|]. split; [unfold in_i64; cbn; lia|]. split; [done|]. split; [done|].
  split; [apply stable_object; repeat constructor; apply stable_quote|]. split; [|vm_compute; reflexivity].
  exists (JObj (members_of [("tool"%string, enc_string "web")] [JStr (bs_of "web")])). intros d Hd.
  apply reads_object; [done|repeat constructor|unfold maxNestingDepth; lia|].
  constructor; [|constructor]. apply reads_enc_string. vm_compute. reflexivity.
Defined.

(** ** Redirects in a cluster *)

Section Redirect.
Context {W IO : Type} `{SK : !WalCommit.WalSink W IO}.
(** The nodes by address; each has a view of who leads a session, a shard log and a
    quorum.  A call to an address without a node fails in the transport. *)
Context (self : string) (route : string -> string -> string -> string -> bool * Z * string).
Context (shard_append : string -> option (Z -> bytes -> option Z)) (quorum : string -> Z -> Z -> bool).
Context (c : @Gateway.clock IO).

Definition cluster_node (addr : string) (req : Gateway.AgentEvent) (s : @Gateway.Server W) :
    option (result Gateway.status (Z * Z) * @Gateway.Server W) :=
  Gateway.PublishAgent None (Some (route addr)) (shard_append addr) (quorum addr) c (Some req) s.

Definition cluster_api (to : option string) (req : Gateway.AgentEvent) (cl : gmap string (@Gateway.Server W)) :
    option (result Gateway.status (Z * Z) * gmap string (@Gateway.Server W)) :=
  let addr := match to with Some addr => addr | None => self end in
  match cl !! addr with
  | None => Some (Err Gateway.DeadlineExceeded, cl)
  | Some s => '(r, s) ← cluster_node addr req s; Some (r, <[addr := s]> cl)
  end.

(** A publish that the contacted node does not lead happens at the leader it names, and
    nowhere else: the answer is the leader's and the other nodes are as they were. *)
Theorem redirect_publishes_at_leader dial topic now ev encoded cl s0 s1 leader sid :
  validateAgentEvent ev = None -> encodeAgentEvent now ev = Ok encoded ->
  cl !! self = Some s0 -> cl !! leader = Some s1 -> leader <> ""%string -> dial leader = true ->
  route self (ae_Tenant ev) (ae_Project ev) (ae_SessionID ev) = (false, sid, leader) ->
  PublishAgentTo cluster_api dial topic now ev cl =
    '(r, s1') ← cluster_node leader (request_of ev encoded) s1;
    Some (match r with Ok res => Ok res | Err e => Err (Rpc e) end, <[leader := s1']> cl).
Proof.
  intros Hval Henc H0 H1 Hne Hdial Hr.
  assert (String.eqb (ae_Tenant ev) "" || String.eqb (ae_Project ev) "" || String.eqb (ae_SessionID ev) "" = false) as Hn.
  { unfold validateAgentEvent in Hval. repeat case_decide; try done.
    destruct (String.eqb_spec (ae_Tenant ev) ""), (String.eqb_spec (ae_Project ev) ""), (String.eqb_spec (ae_SessionID ev) "");
      try done; exfalso; match goal with H : _ = ""%string |- _ => rewrite H in * end; done. }
  assert (cluster_api None (request_of ev encoded) cl = Some (Err (Gateway.FailedPrecondition leader), cl)) as Hfirst.
  { unfold cluster_api. rewrite H0. unfold cluster_node, Gateway.PublishAgent.
    cbv zeta. change (default _ (Some (request_of ev encoded))) with (request_of ev encoded).
    cbn [request_of Gateway.a_Tenant Gateway.a_Project Gateway.a_SessionId]. rewrite Hn, Hr. cbn [mbind option_bind].
    by rewrite insert_id. }
  unfold PublishAgentTo. rewrite Hval, Henc. unfold publishAgentOnce. rewrite Hfirst. cbn [mbind option_bind notLeaderHint].
  unfold dialLeader. rewrite (proj2 (String.eqb_neq _ _) Hne), Hdial. cbn [negb]. unfold cluster_api. rewrite H1.
  destruct (cluster_node leader _ s1) as [[r s1']|]; done.
Qed.
End Redirect.

End Client.
