(* ===== verification/SdkStream.v ===== *)
(** * Subscriptions and workflow reads of the Go SDK (eventbus/subscribe.go, replay.go, publish.go, workflow.go, events.go)

    [Module Streaming]: opening a subscription, [Next] on it, tailing a session through the
    filter, the plain publishes, the helpers that publish typed agent events, and the reads
    of workflow executions.  A stream is what its [Recv] answers; the theorems put the
    server's [Consume] behind it, one round of its loop whenever the client has read all it
    was sent, and the workflow service behind the reads. *)

From S2P Require Import Prelude GoLib GoJson GoTime AgentStream Broker Consumer.
From S2P Require Import WalLog Server Sdk WfState WfStore WfCoord WfService.
Import Json Envelope Client.

Module Streaming.
Local Open Scope Z_scope.

(** ** Publishing *)

Section Publish.
Context {S E : Type} (api_Publish : string -> string -> Z -> bytes -> S -> option (result E (Z * Z) * S)).

(** The client's own refusals, and the errors of the call. *)
Inductive pub_err := TopicRequired | KeyRequired | NegativePartition (p : Z) | PublishFailed (e : E).

(** The result is the partition and the offset. *)
Definition publishRaw (topic key : string) (partition : Z) (payload : bytes) (s : S) : option (result pub_err (Z * Z) * S) :=
  if String.eqb topic "" then Some (Err TopicRequired, s)
  else
    '(r, s) ← api_Publish topic key partition payload s;
    Some (match r with Err e => Err (PublishFailed e) | Ok (offset, partition) => Ok (partition, offset) end, s).

Definition Publish (topic : string) (payload : bytes) (s : S) : option (result pub_err (Z * Z) * S) :=
  publishRaw topic "" (-1) payload s.

Definition PublishWithKey (topic key : string) (payload : bytes) (s : S) : option (result pub_err (Z * Z) * S) :=
  if String.eqb key "" then Some (Err KeyRequired, s) else publishRaw topic key (-1) payload s.

Definition PublishToPartition (topic : string) (partition : Z) (payload : bytes) (s : S) :
    option (result pub_err (Z * Z) * S) :=
  if partition <? 0 then Some (Err (NegativePartition partition), s) else publishRaw topic "" partition payload s.
End Publish.

(** ** Subscriptions *)

Record Message := mkMsg { sm_Partition : Z; sm_Offset : Z; sm_Payload : bytes; sm_Timestamp : Z }.

Inductive recv {E : Type} := Got (m : Gateway.ConsumeMessage) | EOF | CtxCanceled | RecvErr (e : E).
Arguments recv : clear implicits.

Inductive sub_err {E : Type} := NoTopic | OpenFailed (e : E) | SubscriptionClosed | StreamErr (e : E).
Arguments sub_err : clear implicits.

Section Subscribe.
(** [Consume] opens a stream, [Recv] takes its next message; [None] inside its answer is
    that it blocks, [None] outside a panic of the server. *)
Context {S H E : Type} (Consume : string -> string -> Z -> S -> option (result E H * S))
  (Recv : H -> S -> option (option (recv E) * S)).

Definition SubscribeWithOptions (topic group : string) (partition : Z) (s : S) : option (result (sub_err E) H * S) :=
  if String.eqb topic "" then Some (Err NoTopic, s)
  else
    let group := if String.eqb group "" then "default"%string else group in
    '(r, s) ← Consume topic group partition s;
    Some (match r with Err e => Err (OpenFailed e) | Ok h => Ok h end, s).

Definition Subscribe (topic group : string) (s : S) : option (result (sub_err E) H * S) :=
  SubscribeWithOptions topic group (-1) s.

Definition Next (sub : H) (s : S) : option (option (result (sub_err E) Message) * S) :=
  '(r, s) ← Recv sub s;
  Some (match r with
        | None => None
        | Some EOF | Some CtxCanceled => Some (Err SubscriptionClosed)
        | Some (RecvErr e) => Some (Err (StreamErr e))
        | Some (Got m) =>
            Some (Ok (mkMsg (Gateway.cm_Partition m) (Gateway.cm_Offset m) (Gateway.cm_Payload m)
                        (unix_time (Gateway.cm_Timestamp m))))
        end, s).

Record FilteredSubscription := mkFiltered { inner : H; f_sess : SessionRef }.

(** [strings.ReplaceAll(s, "/", "_")]. *)
Definition underscore (s : string) : string := str_of (map (fun b => if isc 47 b then ch 95 else b) (bs_of s)).

Definition tail_group (sess : SessionRef) : string := "tail-" +:+ underscore (sn_SessionID sess).

Inductive tail_err := BadRef (e : sdk_err E) | TailOpen (e : sub_err E).

Definition TailSession (sess : SessionRef) (topic : string) (partitionCount : Z) (s : S) :
    option (result tail_err FilteredSubscription * S) :=
  r ← resolveSessionRouting sess topic partitionCount;
  match r with
  | Err e => Some (Err (BadRef e), s)
  | Ok (topic, partition) =>
      '(r, s) ← SubscribeWithOptions topic (tail_group sess) partition s;
      Some (match r with Err e => Err (TailOpen e) | Ok h => Ok (mkFiltered h sess) end, s)
  end.

(** The event a message is to the filter; its topic stays empty. *)
Definition filter_event (sess : SessionRef) (msg : Message) : option DecodedEvent :=
  ev ← DecodeEvent (sm_Payload msg);
  if sessionMatches ev sess then
    Some {| ev with d_Partition := sm_Partition msg; d_Offset := sm_Offset msg; d_Timestamp := sm_Timestamp msg |}
  else None.

(** The loop skips what does not match; [fuel] bounds the messages it skips. *)
Fixpoint Filtered_Next (fuel : nat) (f : FilteredSubscription) (s : S) : option (option (result (sub_err E) DecodedEvent) * S) :=
  match fuel with
  | O => None
  | Datatypes.S fuel =>
      '(r, s) ← Next (inner f) s;
      match r with
      | None => Some (None, s)
      | Some (Err e) => Some (Some (Err e), s)
      | Some (Ok msg) =>
          match filter_event (f_sess f) msg with
          | None => Filtered_Next fuel f s
          | Some ev => Some (Some (Ok ev), s)
          end
      end
  end.

(** The loop of [session tail]: the events until [Next] blocks or the stream ends. *)
Fixpoint tail_loop (fuel fuel' : nat) (f : FilteredSubscription) (s : S) : option (list DecodedEvent * option (sub_err E) * S) :=
  match fuel with
  | O => None
  | Datatypes.S fuel =>
      '(r, s) ← Filtered_Next fuel' f s;
      match r with
      | None => Some ([], None, s)
      | Some (Err e) => Some ([], Some e, s)
      | Some (Ok ev) => '(evs, e, s) ← tail_loop fuel fuel' f s; Some (ev :: evs, e, s)
      end
  end.
End Subscribe.

(** ** The streams of a server *)

Record stream := mkStream { st_topic : string; st_group : string; st_partition : Z; st_id : nat }.

Section Server.
Context {W : Type}.

(** The server and, for each stream, what it has sent and the client has not read. *)
Record world := mkWorld { w_srv : @Gateway.Server W; w_sent : gmap nat (list Gateway.ConsumeMessage) }.

Definition server_Consume (topic group : string) (partition : Z) (w : world) : option (result Gateway.status stream * world) :=
  '(r, s) ← Gateway.consume_start topic group partition (w_srv w);
  Some (match r with Err e => Err e | Ok (id, group, p) => Ok (mkStream topic group p id) end, {| w with w_srv := s |}).

Definition server_Recv (h : stream) (w : world) : option (option (recv Gateway.status) * world) :=
  match default [] (w_sent w !! st_id h) with
  | m :: ms => Some (Some (Got m), {| w with w_sent := <[st_id h := ms]> (w_sent w) |})
  | [] =>
      '(r, s) ← Gateway.consume_round (st_topic h) (st_group h) (st_partition h) (st_id h) (w_srv w);
      match r with
      | None => Some (None, {| w with w_srv := s |})
      | Some [] => None
      | Some (m :: ms) => Some (Some (Got m), mkWorld s (<[st_id h := ms]> (w_sent w)))
      end
  end.

(** *** What a stream still delivers *)

Section Drain.
Context (h : stream) (log : list Bus.entry) (o0 : Z).

Definition delivered (o : Z) : list Gateway.ConsumeMessage :=
  map (Gateway.consume_message (st_partition h)) (drop (Z.to_nat o) (Bus.number log)).

Definition committed (o : Z) (s : @Gateway.Server W) : Prop :=
  Offsets.GetPartition (st_topic h) (st_group h) (st_partition h) (Gateway.groups s) = Some o.

(** The stream is at offset [o]: [P] is what was sent and not read, then the rest of the
    log.  The group's commit is [o] once a batch was sent. *)
Definition pending (w : world) (P : list Gateway.ConsumeMessage) : Prop :=
  exists n a o offs,
    Bus.rel n a (Gateway.bus (w_srv w)) /\ Bus.l_subs a !! st_id h = Some (st_topic h, st_partition h, o) /\
    (Bus.log_topic (st_topic h) a).1 !! Z.to_nat (st_partition h) = Some log /\ zlen log <= Bus.defaultCapacity /\
    0 <= o <= zlen log /\ Offsets.offsets (Gateway.groups (w_srv w)) = Some offs /\
    (o = o0 \/ committed o (w_srv w)) /\
    P = default [] (w_sent w !! st_id h) ++ delivered o.

Lemma AddConsumed_rel n a b k : Bus.rel n a b -> Bus.rel n a (Bus.AddConsumed k b).
Proof. intros [H1 H2 H3]. by split. Qed.

Lemma number_last o k x : drop o (Bus.number log) !! k = Some x -> Bus.m_Offset x = Z.of_nat (o + k).
Proof.
  rewrite lookup_drop, Bus.number_lookup. destruct (log !! (o + k)%nat); [|done]. cbn. by intros [= <-].
Qed.

(** One round of the server's loop sends the next 128 messages and commits the offset after them. *)
Lemma round_sends n a (s : @Gateway.Server W) o offs ms :
  Bus.rel n a (Gateway.bus s) -> Bus.l_subs a !! st_id h = Some (st_topic h, st_partition h, o) ->
  (Bus.log_topic (st_topic h) a).1 !! Z.to_nat (st_partition h) = Some log -> zlen log <= Bus.defaultCapacity ->
  0 <= o <= zlen log -> Offsets.offsets (Gateway.groups s) = Some offs -> ms = take 128 (drop (Z.to_nat o) (Bus.number log)) ->
  exists s',
    Gateway.consume_round (st_topic h) (st_group h) (st_partition h) (st_id h) s =
      Some (match ms with [] => None | _ => Some (map (Gateway.consume_message (st_partition h)) ms) end, s') /\
    is_Some (Offsets.offsets (Gateway.groups s')) /\
    match ms with
    | [] => Bus.rel n a (Gateway.bus s') /\ Gateway.groups s' = Gateway.groups s
    | _ => Bus.rel n (Bus.mkLogs (Bus.l_topics a) (<[st_id h := (st_topic h, st_partition h, o + zlen ms)]> (Bus.l_subs a))) (Gateway.bus s') /\
           committed (o + zlen ms) s'
    end.
Proof.
  intros HR Hsub Hlog Hcap Ho Hoffs Hms. unfold Gateway.consume_round.
  destruct (Bus.op_next n a _ _ 128 _ _ _ HR ltac:(lia) Hsub) as (b' & HN & HR'). cbv zeta in HN, HR'.
  unfold Bus.log_messages in HN, HR'. rewrite Hlog in HN, HR'. unfold Bus.log_fetch in HN, HR'.
  change (default [] (Some log)) with log in HN, HR'.
  assert (Z.max o (Z.max 0 (zlen log - Bus.defaultCapacity)) = o) as Hmax by lia. rewrite Hmax in HN, HR'.
  change (Z.to_nat 128) with 128%nat in HN, HR'. rewrite <- Hms in HN, HR'. rewrite HN. cbn [mbind option_bind].
  assert (length ms <= length log - Z.to_nat o)%nat as Hlen by (subst ms; rewrite length_take, length_drop, Bus.length_number; lia).
  assert (forall k y, ms !! k = Some y -> Bus.m_Offset y = Z.of_nat (Z.to_nat o + k)) as Hoff
    by (intros k y Hk; subst ms; apply lookup_take_Some in Hk as [Hk _]; by apply number_last in Hk).
  clear Hms. unfold Bus.defaultCapacity in Hcap. destruct ms as [|x ms].
  { eexists. split; [reflexivity|]. split; [by exists offs|]. by split. }
  rewrite (wrap_s_small 64 (o + zlen (x :: ms))) in HR' by lia.
  destruct ((x :: ms) !! (length (x :: ms) - 1)%nat) as [l|] eqn:El; [|apply lookup_ge_None in El; cbn [length] in El; lia].
  rewrite (Hoff _ _ El), wrap_s_small by lia. cbn [length] in *.
  replace (Z.of_nat (Z.to_nat o + (S (length ms) - 1)) + 1) with (o + Z.of_nat (S (length ms))) by lia.
  unfold Offsets.CommitPartition. rewrite Hoffs. cbn [mbind option_bind].
  eexists. split; [reflexivity|]. split; [done|]. split; [by apply AddConsumed_rel|].
  unfold committed, Offsets.GetPartition. cbn. by rewrite lookup_insert_eq.
Qed.

(** One receive: the next pending message, or it blocks when there is none. *)
Lemma recv_pending w P : pending w P ->
  exists w', server_Recv h w = Some (match P with [] => None | m :: _ => Some (Got m) end, w') /\ pending w' (tail P).
Proof.
  intros (n & a & o & offs & HR & Hsub & Hlog & Hcap & Ho & Hoffs & Hcom & ->). unfold server_Recv.
  destruct (default [] (w_sent w !! st_id h)) as [|m ms] eqn:Es.
  2: { eexists. split; [reflexivity|]. exists n, a, o, offs. cbn [w_srv w_sent]. rewrite lookup_insert_eq.
       repeat (split; [assumption|]). reflexivity. }
  destruct (round_sends n a (w_srv w) o offs _ HR Hsub Hlog Hcap Ho Hoffs eq_refl) as (s' & -> & [offs' Hoffs'] & Hs').
  cbn [mbind option_bind app]. unfold delivered.
  pose proof (length_drop (Bus.number log) (Z.to_nat o)) as HL. rewrite Bus.length_number in HL.
  destruct (drop (Z.to_nat o) (Bus.number log)) as [|x xs] eqn:Ed.
  { destruct Hs' as [HR' HG]. cbn [take map tail]. eexists. split; [reflexivity|]. exists n, a, o, offs. cbn [w_srv w_sent].
    rewrite Es. unfold delivered, committed in *. rewrite Ed, HG. repeat (split; [assumption|]). reflexivity. }
  cbn [take map tail length] in *. destruct Hs' as [HR' HC].
  eexists. split; [reflexivity|]. eexists n, _, (o + Z.of_nat (S (length (take 127 xs)))), offs'. cbn [w_srv w_sent].
  split; [exact HR'|]. cbn [Bus.l_subs]. split; [apply list_lookup_insert_eq; by eapply lookup_lt_Some|].
  split; [exact Hlog|]. split; [exact Hcap|]. rewrite length_take in *. split; [lia|]. split; [exact Hoffs'|].
  split; [by right|]. rewrite lookup_insert_eq. cbn [default]. unfold delivered. rewrite <- (take_drop 127 xs) at 1. rewrite map_app.
  f_equal. f_equal. replace (Z.to_nat (o + Z.of_nat (S (Nat.min 127 (length xs))))) with (Z.to_nat o + S (Nat.min 127 (length xs)))%nat by lia.
  rewrite <- drop_drop, Ed. cbn [drop]. destruct (Nat.le_ge_cases (length xs) 127).
  - rewrite Nat.min_r by lia. by rewrite !drop_ge by lia.
  - by rewrite Nat.min_l by lia.
Qed.

Definition msg_of (m : Gateway.ConsumeMessage) : Message :=
  mkMsg (Gateway.cm_Partition m) (Gateway.cm_Offset m) (Gateway.cm_Payload m) (unix_time (Gateway.cm_Timestamp m)).

Lemma next_pending w P : pending w P ->
  exists w', Next server_Recv h w = Some (match P with [] => None | m :: _ => Some (Ok (msg_of m)) end, w') /\ pending w' (tail P).
Proof.
  intros HP. destruct (recv_pending w P HP) as (w' & HR & HP'). exists w'. split; [|exact HP'].
  unfold Next. rewrite HR. by destruct P.
Qed.

Lemma filtered_pending sess fuel : forall w P, pending w P -> (length P < fuel)%nat ->
  exists w' P' r, Filtered_Next server_Recv fuel (mkFiltered h sess) w = Some (r, w') /\ pending w' P' /\ (length P' <= length P)%nat /\
    match r with
    | None => omap (filter_event sess ∘ msg_of) P = [] /\ P' = []
    | Some (Ok ev) => omap (filter_event sess ∘ msg_of) P = ev :: omap (filter_event sess ∘ msg_of) P' /\ (length P' < length P)%nat
    | Some (Err _) => False
    end.
Proof.
  induction fuel as [|fuel IH]; intros w P HP Hlt; [lia|].
  destruct (next_pending w P HP) as (w1 & HN & HP1). cbn [Filtered_Next inner f_sess]. rewrite HN. cbn [mbind option_bind].
  destruct P as [|m P]; [by eexists w1, [], None|]. cbn [tail length] in *.
  destruct (filter_event sess (msg_of m)) as [ev|] eqn:Ev.
  - eexists w1, P, (Some (Ok ev)). split; [reflexivity|]. split; [exact HP1|]. split; [lia|]. cbn. rewrite Ev. split; [done|lia].
  - destruct (IH w1 P HP1 ltac:(lia)) as (w' & P' & r & HF & HP' & HL & Hr). exists w', P', r. split; [exact HF|].
    split; [exact HP'|]. split; [lia|]. cbn. rewrite Ev. destruct r as [[ev|e]|]; [|done|done]. split; [apply Hr|lia].
Qed.

Lemma tail_pending sess fuel' fuel : forall w P, pending w P -> (length P < fuel)%nat -> (length P < fuel')%nat ->
  exists w', tail_loop server_Recv fuel fuel' (mkFiltered h sess) w = Some (omap (filter_event sess ∘ msg_of) P, None, w') /\ pending w' [].
Proof.
  induction fuel as [|fuel IH]; intros w P HP Hlt Hlt'; [lia|].
  destruct (filtered_pending sess fuel' w P HP Hlt') as (w1 & P1 & r & HF & HP1 & HL & Hr).
  cbn [tail_loop]. rewrite HF. cbn [mbind option_bind]. destruct r as [[ev|e]|]; [|done|].
  - destruct Hr as [-> HL']. destruct (IH w1 P1 HP1 ltac:(lia) ltac:(lia)) as (w' & -> & HP'). by exists w'.
  - destruct Hr as [-> ->]. by exists w1.
Qed.
End Drain.

Lemma filter_session_event sess pt m :
  filter_event sess (msg_of (Gateway.consume_message pt m)) = session_event "" pt sess m.
Proof.
  unfold filter_event, session_event, event_of, msg_of. cbn [sm_Payload sm_Partition sm_Offset sm_Timestamp].
  unfold DecodeEvent. destruct (negb _); [done|]. destruct (unmarshal _ _ _) as [env|]; [|done]. cbn [mbind option_bind].
  by destruct (_ || _).
Qed.

(** C17. A tail yields the session's events and no others, in order and once each: every
    message of the partition from the subscription's offset on that is an event of the
    session, as it was published.  The partition has at most 2^20 messages, so that its ring
    still holds them all (a subscriber that the ring has lapped gets messages twice), the
    subscription starts within its log, nothing is published while the tail reads, and the
    consumer offsets are not nil.  Reading them ends with the stream blocked; if there was a
    message to read, the group's commit is then at the end of the log. *)
Theorem tail_delivers_session n a (s : @Gateway.Server W) sess h o log offs fuel :
  Bus.rel n a (Gateway.bus s) -> Bus.l_subs a !! st_id h = Some (st_topic h, st_partition h, o) ->
  (Bus.log_topic (st_topic h) a).1 !! Z.to_nat (st_partition h) = Some log -> zlen log <= Bus.defaultCapacity ->
  0 <= o <= zlen log -> Offsets.offsets (Gateway.groups s) = Some offs -> (length log < fuel)%nat ->
  exists w', tail_loop server_Recv fuel fuel (mkFiltered h sess) (mkWorld s ∅) =
      Some (omap (session_event "" (st_partition h) sess) (drop (Z.to_nat o) (Bus.number log)), None, w') /\
    (o = zlen log \/ committed h (zlen log) (w_srv w')).
Proof.
  intros HR Hsub Hlog Hcap Ho Hoffs Hf.
  assert (length (delivered h log o) <= length log)%nat as HL
    by (unfold delivered; rewrite length_map, length_drop, Bus.length_number; lia).
  destruct (tail_pending h log o sess fuel fuel (mkWorld s ∅) (delivered h log o)) as (w' & HT & HP); [|lia|lia|].
  - exists n, a, o, offs. cbn [w_srv w_sent]. rewrite lookup_empty. repeat (split; [assumption|]). split; [by left|reflexivity].
  - exists w'. split.
    + rewrite HT. f_equal. f_equal. f_equal. unfold delivered. induction (drop _ _) as [|m ms IH]; [done|].
      cbn. rewrite filter_session_event. destruct (session_event _ _ _ _); [by rewrite IH|exact IH].
    + destruct HP as (n' & a' & o' & offs' & _ & _ & _ & _ & Ho' & _ & Hcom & HP).
      symmetry in HP. apply app_eq_nil in HP as [_ HP]. unfold delivered in HP. apply map_eq_nil in HP.
      apply (f_equal length) in HP. rewrite length_drop, Bus.length_number in HP. cbn in HP.
      assert (o' = zlen log) as -> by lia. destruct Hcom; [by left|by right].
Qed.
End Server.

(** The demo session with a subscription from offset 1 on. *)
Definition tail_ops : list Bus.op :=
  demo_ops ++ [Bus.OSubscribePartitionAt "agent-events" "tail-s1" demo_partition 1].
Definition tail_bus : Bus.Broker := match Bus.run_all Bus.run_op tail_ops Bus.New with Some (_, b) => b | None => Bus.New end.
Definition tail_logs : Bus.Logs :=
  match Bus.run_all Bus.log_op tail_ops Bus.empty_logs with Some (_, a) => a | None => Bus.empty_logs end.
Definition tail_server : @Gateway.Server WalCommit.Log := Gateway.mkServer tail_bus None Offsets.NewManager.
Definition tail_stream : stream := mkStream "agent-events" "tail-s1" demo_partition 0.

Lemma tail_rel : Bus.rel 5 tail_logs tail_bus.
Proof.
  destruct (Bus.run_simulates tail_ops 0 Bus.empty_logs Bus.New
    (map (fun o => Bus.RPublished demo_partition o) [0; 1; 2; 3] ++ [Bus.RSubscription 0]) tail_logs Bus.New_rel) as (b & Eb & HR);
    [done|done|repeat constructor|vm_compute; reflexivity|].
  assert (tail_bus = b) as -> by (unfold tail_bus; by rewrite Eb). exact HR.
Qed.

Lemma tail_delivers_session_witness :
  exists w', tail_loop server_Recv 5 5 (mkFiltered tail_stream demo_session) (mkWorld tail_server ∅) =
      Some (omap (session_event "" demo_partition demo_session) (drop 1 (Bus.number demo_log)), None, w') /\
    (1 = zlen demo_log \/ committed tail_stream (zlen demo_log) (w_srv w')).
Proof.
  apply (tail_delivers_session 5 tail_logs tail_server demo_session tail_stream 1 demo_log ∅ 5).
  - exact tail_rel.
  - vm_compute. reflexivity.
  - vm_compute. reflexivity.
  - vm_compute. discriminate.
  - vm_compute. split; discriminate.
  - reflexivity.
  - vm_compute. lia.
Defined.

(** *** Tailing twice *)

(** An event of the session is published. *)
Definition publish_event (ts : Z) (session typ : string) (w : @world WalCommit.Log) : option (@world WalCommit.Log) :=
  '(_, b) ← Bus.PublishToPartition "agent-events" demo_partition ts (demo_payload session typ) (Gateway.bus (w_srv w));
  Some {| w with w_srv := Gateway.set_bus b (w_srv w) |}.

(** The types and sessions of what a tail reads now. *)
Definition read_tail (sess : SessionRef) (w : @world WalCommit.Log) :
    option (list (string * string) * @world WalCommit.Log) :=
  '(r, w) ← TailSession server_Consume sess "" 0 w;
  match r with
  | Err _ => None
  | Ok f => '(evs, _, w) ← tail_loop server_Recv 20 20 f w; Some (map (fun ev => (d_SessionID ev, d_Type ev)) evs, w)
  end.

(** A tail of an old session reads nothing; after an event is published the tail, still
    open, reads it; the tail is closed, two more events are published, and the session is
    tailed again. *)
Definition tail_twice : option (list (string * string) * list (string * string)) :=
  let w := mkWorld demo_server ∅ in
  '(r, w) ← TailSession server_Consume demo_session "" 0 w;
  match r with
  | Err _ => None
  | Ok f =>
      w ← publish_event 5 "s1" "tool.call" w;
      '(evs1, _, w) ← tail_loop server_Recv 20 20 f w;
      b ← Bus.Unsubscribe (st_id (inner f)) (Gateway.bus (w_srv w));
      w ← publish_event 6 "s1" "tool.result" {| w with w_srv := Gateway.set_bus b (w_srv w) |};
      w ← publish_event 7 "s1" "complete" w;
      '(evs2, _) ← read_tail demo_session w;
      Some (map (fun ev => (d_SessionID ev, d_Type ev)) evs1, evs2)
  end.

(** The first tail of a session starts with what is published after it.  A second one
    starts where the first one stopped, because the group is named after the session: it
    reads the events published while nobody was tailing, although a tail is meant to start
    at the latest offset. *)
Theorem second_tail_resumes :
  tail_twice = Some ([("s1", "tool.call")], [("s1", "tool.result"); ("s1", "complete")])%string.
Proof. vm_compute. reflexivity. Qed.

(** ** Typed agent events (events.go) *)

Record ToolCall := mkToolCall { tc_Tool : string; tc_Arguments : bytes; tc_CallID : string }.
Record ToolResult := mkToolResult { tr_CallID : string; tr_Tool : string; tr_Output : bytes; tr_Error : string; tr_Latency : Z }.
Record TokenChunk := mkTokenChunk { ck_Text : string; ck_Index : Z; ck_Done : bool }.
Record Handoff := mkHandoff { ho_FromAgent : string; ho_ToAgent : string; ho_Reason : string; ho_Context : bytes }.

(** The members tagged [omitempty]. *)
Definition omit_string (name s : string) : list (string * bytes) := if String.eqb s "" then [] else [(name, enc_string s)].
Definition omit_int (name : string) (z : Z) : list (string * bytes) := if z =? 0 then [] else [(name, format_int z)].
Definition omit_bool (name : string) (b : bool) : list (string * bytes) := if b then [(name, enc_bool b)] else [].
Definition omit_raw (name : string) (raw : bytes) : option (list (string * bytes)) :=
  if decide (raw = []) then Some [] else c ← compact raw; Some [(name, c)].

Definition marshal_ToolCall (c : ToolCall) : option bytes :=
  args ← omit_raw "arguments" (tc_Arguments c);
  Some (enc_object ([("tool"%string, enc_string (tc_Tool c))] ++ args ++ omit_string "call_id" (tc_CallID c))).

Definition marshal_ToolResult (r : ToolResult) : option bytes :=
  out ← omit_raw "output" (tr_Output r);
  Some (enc_object (omit_string "call_id" (tr_CallID r) ++ [("tool"%string, enc_string (tr_Tool r))] ++ out ++
                    omit_string "error" (tr_Error r) ++ omit_int "latency" (tr_Latency r))).

Definition marshal_TokenChunk (c : TokenChunk) : bytes :=
  enc_object ([("text"%string, enc_string (ck_Text c))] ++ omit_int "index" (ck_Index c) ++ omit_bool "done" (ck_Done c)).

Definition marshal_Handoff (h : Handoff) : option bytes :=
  ctx ← omit_raw "context" (ho_Context h);
  Some (enc_object ([("from_agent"%string, enc_string (ho_FromAgent h)); ("to_agent"%string, enc_string (ho_ToAgent h))] ++
                    omit_string "reason" (ho_Reason h) ++ ctx)).

(** The event of a session with a type, a step and a payload. *)
Definition session_agent_event (sess : SessionRef) (typ step : string) (body : bytes) : Client.AgentEvent :=
  mkAgentEvent (sn_Tenant sess) (sn_Project sess) (sn_SessionID sess) (sn_AgentID sess) typ step 0 body "" 0.

Section Typed.
Context {S : Type} (api : option string -> Gateway.AgentEvent -> S -> option (result Gateway.status (Z * Z) * S)).
Context (dial : string -> bool).

(** [None] as the error of a body that does not marshal. *)
Definition publish_body (sess : SessionRef) (typ step : string) (body : option bytes) (now : Z) (s : S) :
    option (result (option (sdk_err Gateway.status)) (Z * Z) * S) :=
  match body with
  | None => Some (Err None, s)
  | Some body =>
      '(r, s) ← PublishAgent api dial now (session_agent_event sess typ step body) s;
      Some (match r with Ok x => Ok x | Err e => Err (Some e) end, s)
  end.

Definition PublishToolCall (sess : SessionRef) (call : ToolCall) (now : Z) (s : S) :=
  publish_body sess "tool.call" (tc_Tool call) (marshal_ToolCall call) now s.

Definition PublishToolResult (sess : SessionRef) (r : ToolResult) (now : Z) (s : S) :=
  publish_body sess "tool.result" (tr_Tool r) (marshal_ToolResult r) now s.

Definition PublishTokenChunk (sess : SessionRef) (chunk : TokenChunk) (now : Z) (s : S) :=
  publish_body sess "token.chunk" "" (Some (marshal_TokenChunk chunk)) now s.

Definition PublishHandoff (sess : SessionRef) (h : Handoff) (now : Z) (s : S) :=
  publish_body sess "handoff" "" (marshal_Handoff h) now s.
End Typed.

(** *** Their bodies are payloads the envelope carries unchanged *)

(** A member that parses at any depth up to 2 and that compaction leaves alone. *)
Definition member_text (f : string * bytes) : Prop :=
  utf8_ok f.1 /\ stable Outside Outside f.2 /\ exists v, forall d, d <= 2 -> reads d f.2 v.

Lemma object_text fields : fields <> [] -> Forall member_text fields -> payload_text (enc_object fields).
Proof.
  intros Hne HF. split.
  - apply stable_object. eapply list.Forall_impl; [exact HF|]. by intros f (_ & ? & _).
  - assert (exists vals, forall d, d <= 2 -> Forall2 (fun f v => reads d f.2 v) fields vals) as [vals Hv].
    { clear Hne. induction HF as [|f fields (_ & _ & v & Hf) _ [vals IH]]; [by exists []|].
      exists (v :: vals). intros d Hd. constructor; [by apply Hf|by apply IH]. }
    exists (JObj (members_of fields vals)). intros d Hd. apply reads_object; [done| |unfold maxNestingDepth; lia|apply Hv; lia].
    eapply list.Forall_impl; [exact HF|]. by intros f (? & _).
Qed.

Lemma string_member n s : utf8_ok n -> utf8_ok s -> member_text (n, enc_string s).
Proof. intros. split; [done|]. split; [apply stable_quote|]. exists (JStr (bs_of s)). intros. by apply reads_enc_string. Qed.

Lemma omit_string_member n s : utf8_ok n -> utf8_ok s -> Forall member_text (omit_string n s).
Proof. intros. unfold omit_string. destruct (String.eqb s ""); repeat constructor; by apply string_member. Qed.

Lemma omit_int_member n z : utf8_ok n -> Forall member_text (omit_int n z).
Proof.
  intros. unfold omit_int. destruct (z =? 0); repeat constructor; [done|apply stable_int|].
  exists (JNum (format_int z)). intros. apply reads_int.
Qed.

Lemma omit_bool_member n b : utf8_ok n -> Forall member_text (omit_bool n b).
Proof.
  intros. unfold omit_bool. destruct b; repeat constructor; [done|apply stable_outside; by repeat constructor|].
  exists (JBool true). intros. apply (reads_bool d true).
Qed.

(** A raw member that [json.Marshal] produced. *)
Definition raw_text (raw : bytes) : Prop := raw = [] \/ stable Outside Outside raw /\ exists v, forall d, d <= 2 -> reads d raw v.

Lemma omit_raw_member n raw : utf8_ok n -> raw_text raw -> exists fs, omit_raw n raw = Some fs /\ Forall member_text fs.
Proof.
  intros Hn [->|(Hs & v & Hv)]; [by exists []|]. unfold omit_raw. destruct (decide (raw = [])); [by exists []|].
  assert (valid raw = true) as Hval by (unfold valid; by rewrite (reads_parse raw v) by (apply Hv; lia)).
  rewrite (compact_stable raw Hs Hval). cbn [mbind option_bind]. eexists. split; [done|]. repeat constructor; [done..|by exists v].
Qed.

Create HintDb members.
#[local] Hint Resolve string_member omit_string_member omit_int_member omit_bool_member : members.
#[local] Hint Extern 1 (utf8_ok _) => vm_compute; reflexivity : members.

(** Every typed event whose strings are UTF-8 and whose raw parts came from [json.Marshal]
    marshals to a payload that the envelope carries unchanged, so that the round trip of
    the envelopes applies to it. *)
Theorem typed_bodies_are_payloads call r chunk h :
  utf8_ok (tc_Tool call) -> utf8_ok (tc_CallID call) -> raw_text (tc_Arguments call) ->
  utf8_ok (tr_Tool r) -> utf8_ok (tr_CallID r) -> utf8_ok (tr_Error r) -> raw_text (tr_Output r) ->
  utf8_ok (ck_Text chunk) ->
  utf8_ok (ho_FromAgent h) -> utf8_ok (ho_ToAgent h) -> utf8_ok (ho_Reason h) -> raw_text (ho_Context h) ->
  (exists b, marshal_ToolCall call = Some b /\ payload_text b) /\ (exists b, marshal_ToolResult r = Some b /\ payload_text b) /\
  payload_text (marshal_TokenChunk chunk) /\ (exists b, marshal_Handoff h = Some b /\ payload_text b).
Proof.
  intros. destruct (omit_raw_member "arguments" (tc_Arguments call)) as (f1 & E1 & F1); [done..|].
  destruct (omit_raw_member "output" (tr_Output r)) as (f2 & E2 & F2); [done..|].
  destruct (omit_raw_member "context" (ho_Context h)) as (f3 & E3 & F3); [done..|].
  unfold marshal_ToolCall, marshal_ToolResult, marshal_TokenChunk, marshal_Handoff. rewrite E1, E2, E3. cbn [mbind option_bind].
  split_and!; try (eexists; split; [reflexivity|]); apply object_text; try done;
    repeat first [apply list.Forall_app; split | apply list.Forall_cons; split | apply list.Forall_nil]; auto with members.
  by destruct (omit_string "call_id" (tr_CallID r)).
Qed.

(** ** Reading workflow executions (workflow.go) *)

Record ExecutionState := mkExecutionState {
  es_Tenant : string; es_Project : string; es_WorkflowID : string; es_TaskType : string; es_Status : string;
  es_Attempt : Z; es_MaxAttempts : Z; es_WorkerID : string; es_Result : bytes; es_Error : string;
  es_SubmittedAt : Z; es_UpdatedAt : Z; es_LeaseDeadline : Z
}.

Record ExecutionTransition := mkExecutionTransition {
  et_EventType : string; et_Status : string; et_Attempt : Z; et_WorkerID : string; et_Detail : string; et_At : Z
}.

Record ExecutionSummary := mkExecutionSummary {
  su_Tenant : string; su_Project : string; su_WorkflowID : string; su_TaskType : string; su_Status : string;
  su_Attempt : Z; su_UpdatedAt : Z
}.

Definition execution_state (m : Service.ExecutionStateMsg) : ExecutionState :=
  mkExecutionState (Service.m_Tenant m) (Service.m_Project m) (Service.m_WorkflowId m) (Service.m_TaskType m) (Service.m_Status m)
    (Service.m_Attempt m) (Service.m_MaxAttempts m) (Service.m_WorkerId m) (Service.m_Result m) (Service.m_Error m)
    (unix_time (Service.m_SubmittedUnixNano m)) (unix_time (Service.m_UpdatedUnixNano m))
    (if Service.m_LeaseDeadlineUnixNano m =? 0 then 0 else unix_time (Service.m_LeaseDeadlineUnixNano m)).

Definition execution_transition (m : Service.TransitionMsg) : ExecutionTransition :=
  mkExecutionTransition (Service.tm_EventType m) (Service.tm_Status m) (Service.tm_Attempt m) (Service.tm_WorkerId m)
    (Service.tm_Detail m) (unix_time (Service.tm_AtUnixNano m)).

Definition execution_summary (m : Service.ExecutionSummaryMsg) : ExecutionSummary :=
  mkExecutionSummary (Service.u_Tenant m) (Service.u_Project m) (Service.u_WorkflowId m) (Service.u_TaskType m) (Service.u_Status m)
    (Service.u_Attempt m) (unix_time (Service.u_UpdatedUnixNano m)).

Section Reads.
Context {S E : Type}.
Context (api_GetExecution : string -> string -> string -> S -> option (result E (option Service.ExecutionStateMsg) * S)).
Context (api_GetExecutionHistory : string -> string -> string -> S -> option (result E (option (list Service.TransitionMsg)) * S)).
Context (api_ListExecutions : string -> Z -> S -> option (result E (list Service.ExecutionSummaryMsg * gmap string Z) * S)).

(** [None] as the result is [found = false]. *)
Definition GetExecution (tenant project workflowID : string) (s : S) : option (result E (option ExecutionState) * S) :=
  '(r, s) ← api_GetExecution tenant project workflowID s;
  Some (match r with Err e => Err e | Ok m => Ok (option_map execution_state m) end, s).

Definition ExecutionHistory (tenant project workflowID : string) (s : S) : option (result E (option (list ExecutionTransition)) * S) :=
  '(r, s) ← api_GetExecutionHistory tenant project workflowID s;
  Some (match r with Err e => Err e | Ok m => Ok (option_map (map execution_transition) m) end, s).

(** The limit is sent as an [int32]. *)
Definition ListExecutions (status : string) (limit : Z) (s : S) :
    option (result E (list ExecutionSummary * gmap string Z) * S) :=
  '(r, s) ← api_ListExecutions status (i32 limit) s;
  Some (match r with Err e => Err e | Ok (xs, counts) => Ok (map execution_summary xs, counts) end, s).
End Reads.

Import Workflow.

(** The view a client should have of an execution. *)
Definition view_of (x : Workflow.Execution) : ExecutionState :=
  mkExecutionState (x_Tenant x) (x_Project x) (x_WorkflowID x) (x_TaskType x) (Executions.status_string (x_Status x)) (x_Attempt x)
    (x_MaxAttempts x) (x_WorkerID x) (x_Result x) (x_Error x) (x_SubmittedAt x) (x_UpdatedAt x) (x_LeaseDeadline x).

(** A time that fits 64-bit nanoseconds since 1970. *)
Definition unix_range (t : Z) : Prop := in_i64 (t - Time.unix_epoch).
Definition in_i32 (z : Z) : Prop := - 2 ^ 31 <= z < 2 ^ 31.

Lemma unix_roundtrip t : unix_range t -> unix_time (Time.UnixNano t) = t.
Proof.
  unfold unix_range, in_i64, unix_time, Time.UnixNano. intros Ht. rewrite wrap_s_small by lia. lia.
Qed.

(** The client's view of an execution is the execution, through the wire's 32-bit attempts
    and Unix times; no lease is the zero time again. *)
Theorem client_view_is_execution x :
  in_i32 (x_Attempt x) -> in_i32 (x_MaxAttempts x) -> unix_range (x_SubmittedAt x) -> unix_range (x_UpdatedAt x) ->
  x_LeaseDeadline x = 0 \/ unix_range (x_LeaseDeadline x) /\ x_LeaseDeadline x <> Time.unix_epoch ->
  execution_state (Service.state_of x) = view_of x.
Proof.
  unfold in_i32. intros Ha Hm Hs Hu Hl. unfold execution_state, Service.state_of, view_of. cbn.
  rewrite !(wrap_s_small 32) by lia. rewrite !unix_roundtrip by done. f_equal.
  unfold Time.IsZero. destruct (Z.eqb_spec (x_LeaseDeadline x) 0) as [->|Hne]; [done|]. destruct Hl as [?|[Hr He]]; [done|].
  unfold Time.UnixNano at 1. unfold unix_range, in_i64 in Hr. rewrite wrap_s_small by lia.
  destruct (Z.eqb_spec (x_LeaseDeadline x - Time.unix_epoch) 0); [lia|]. by apply unix_roundtrip.
Qed.

End Streaming.
