(* ===== verification/Cli.v ===== *)
(** * The command line (internal/cli) over the TCP server

    [Module Command]: the connection loop of the TCP server on the bytes it is sent, and the
    commands of the [goqueue] client: publishing, batches and fetching over TCP, the loop of
    [consume], [publish-agent], [retry-agent] and the webhook's delivery with its retries.
    A command's answer is what it prints or the error it returns.  The theorems run the
    client against the server on the wire format: what a command prints is what the server
    did. *)

From S2P Require Import Prelude GoLib GoJson GoTime AgentStream Protocol Broker WalFormat WalLog Consumer Server Sdk SdkStream.
Import Json Envelope.

Module Command.
Local Open Scope Z_scope.

Section Tcp.
Context {W IO : Type} `{SK : !WalCommit.WalSink W IO}.
Abbreviation Server := (@Gateway.Server W).
Abbreviation clock := (@Gateway.clock IO).

(** ** The server's side of a connection

    [handleConn] on the bytes a client has sent: the bytes written back.  It stops at the
    end of the input, at a frame it cannot read, when a handler fails, and at a
    subscription, which takes the connection over.  [cs] gives the clocks of each frame. *)
Fixpoint handleConn (fuel : nat) (cs : nat -> nat -> clock) (input : bytes) (s : Server) : option (bytes * Server) :=
  match fuel with
  | O => Some ([], s)
  | S fuel =>
      match Wire.Decode input with
      | Err _ => Some ([], s)
      | Ok (f, rest) =>
          '(r, s) ← Gateway.handle_frame (cs O) f s;
          match r with
          | Some (Ok g) =>
              '(out, s) ← handleConn fuel (fun i => cs (S i)) rest s;
              Some (Wire.Encode g ++ out, s)
          | _ => Some ([], s)
          end
      end
  end.

(** A frame takes at least eight bytes, so the input's length is enough. *)
Definition serve_conn (cs : nat -> nat -> clock) (input : bytes) (s : Server) : option (bytes * Server) :=
  handleConn (S (length input)) cs input s.

(** ** The client's side *)

Inductive cli_err := ErrRead | ErrBroker (msg : string) | ErrDecode | ErrUsage (msg : string).

(** The frame read back, or the error it stands for. *)
Definition read_reply (input : bytes) : result cli_err Wire.Frame :=
  match Wire.Decode input with
  | Err _ => Err ErrRead
  | Ok (resp, _) => if decide (Wire.Op resp = Wire.OpError) then Err (ErrBroker (str_of (Wire.Payload resp))) else Ok resp
  end.

Definition publish_frame (topic key msg : string) : Wire.Frame :=
  if String.eqb key "" then Wire.mkFrame Wire.OpPublish topic (bs_of msg)
  else Wire.mkFrame Wire.OpPublishWithKey topic (Wire.EncodeKeyedPayload key (bs_of msg)).

(** [publishTCP], from the connection's answer: the offset it prints, if the answer has one. *)
Definition publish_answer (input : bytes) : result cli_err (option Z) :=
  match read_reply input with
  | Err e => Err e
  | Ok resp =>
      Ok (if decide (length (Wire.Payload resp) = 8%nat) then Some (i64 (be_val (Wire.Payload resp))) else None)
  end.

Definition publishTCP (net : bytes -> bytes) (topic key msg : string) : result cli_err (option Z) :=
  publish_answer (net (Wire.Encode (publish_frame topic key msg))).

(** [publish-batch]: the arguments, or [count] copies of the payload. *)
Definition batch_messages (args : list string) (count : Z) (payload : string) : result cli_err (list bytes) :=
  if count <=? 0 then Err (ErrUsage "--count must be > 0")
  else match args with
       | [] => Ok (replicate (Z.to_nat count) (bs_of (if String.eqb payload "" then "hello" else payload)))
       | _ => Ok (map bs_of args)
       end.

Definition publishBatchTCP (net : bytes -> bytes) (topic : string) (batch : list bytes) : result cli_err (Z * Z * Z) :=
  match read_reply (net (Wire.Encode (Wire.mkFrame Wire.OpBatchPublish topic (Wire.EncodeBatchPayload batch)))) with
  | Err e => Err e
  | Ok resp => match Wire.DecodeBatchAck (Wire.Payload resp) with Ok a => Ok a | Err _ => Err ErrDecode end
  end.

Definition fetchTCP (net : bytes -> bytes) (topic : string) (offset maxCount : Z) : result cli_err (list Wire.BatchMessage) :=
  match read_reply (net (Wire.Encode (Wire.mkFrame Wire.OpFetch topic (Wire.EncodeFetchRequest offset maxCount)))) with
  | Err e => Err e
  | Ok resp => match Wire.DecodeFetchResponse (Wire.Payload resp) with Ok ms => Ok ms | Err _ => Err ErrDecode end
  end.

(** [consumeTCP]'s loop on the bytes of the stream: the payloads it prints, and how it ends. *)
Fixpoint consume_loop (fuel : nat) (input : bytes) : list (string * string) * option cli_err :=
  match fuel with
  | O => ([], None)
  | S fuel =>
      match Wire.Decode input with
      | Err (Wire.ProtoIO EOF) => ([], None)
      | Err _ => ([], Some ErrRead)
      | Ok (f, rest) =>
          if decide (Wire.Op f = Wire.OpError) then ([], Some (ErrBroker (str_of (Wire.Payload f))))
          else
            let (out, e) := consume_loop fuel rest in
            (if decide (Wire.Op f = Wire.OpMessage) then (Wire.Topic f, str_of (Wire.Payload f)) :: out else out, e)
      end
  end.

(** ** Client and server *)

(** A connection on which the client sent one frame. *)
Lemma serve_one cs f s : Wire.frame_fits f ->
  serve_conn cs (Wire.Encode f) s =
  '(r, s') ← Gateway.handle_frame (cs O) f s;
  Some (match r with Some (Ok g) => Wire.Encode g | _ => [] end, s').
Proof.
  intros Hf. unfold serve_conn. cbn [handleConn].
  assert (Wire.Decode (Wire.Encode f) = Ok (f, [])) as ->.
  { apply Wire.Decode_Encode. split; [done|]. by rewrite app_nil_r. }
  destruct (Gateway.handle_frame (cs O) f s) as [[[[g|e]|] s']|]; [|done..].
  cbn [mbind option_bind]. assert (exists m, length (Wire.Encode f) = S m) as [m ->].
  { unfold Wire.Encode. rewrite length_app, length_be_bytes. eexists. reflexivity. }
  cbn [handleConn]. assert (Wire.Decode [] = Err (Wire.ProtoIO EOF)) as -> by reflexivity.
  cbn [mbind option_bind]. by rewrite app_nil_r.
Qed.

(** The reply, if it is one frame that fits. *)
Lemma read_one g : Wire.frame_fits g ->
  read_reply (Wire.Encode g) = if decide (Wire.Op g = Wire.OpError) then Err (ErrBroker (str_of (Wire.Payload g))) else Ok g.
Proof.
  intros Hg. unfold read_reply. assert (Wire.Decode (Wire.Encode g) = Ok (g, [])) as ->; [|done].
  apply Wire.Decode_Encode. split; [done|]. by rewrite app_nil_r.
Qed.

(** What the server does for a publish: through the log into partition 0, or into the
    partition of the key. *)
Definition server_publish (c : clock) (topic key : string) (payload : bytes) (s : Server) :
    option (result Gateway.err Z * Server) :=
  if String.eqb key "" then Gateway.publish_durable c topic "" 0 payload s
  else let '(p, b) := Bus.RouteKey topic key (Gateway.bus s) in Gateway.publish_durable c topic key p payload (Gateway.set_bus b s).

Definition fits_wire (topic key msg : string) : Prop :=
  topic <> ""%string /\ zlen (bs_of topic) < 2 ^ 8 /\ zlen (bs_of key) < 2 ^ 16 /\ zlen (bs_of key) + zlen (bs_of msg) + 2 < 2 ^ 32.

Lemma publish_frame_fits topic key msg : fits_wire topic key msg -> Wire.frame_fits (publish_frame topic key msg).
Proof.
  intros (_ & Ht & Hk & Hm). unfold publish_frame, Wire.EncodeKeyedPayload.
  destruct (String.eqb key ""); split; cbn [Wire.Topic Wire.Payload]; rewrite ?length_app, ?length_be_bytes; lia.
Qed.

Lemma handle_publish_frame cs topic key msg s : fits_wire topic key msg ->
  Gateway.handle_frame cs (publish_frame topic key msg) s =
  '(r, s') ← server_publish (cs 0%nat) topic key (bs_of msg) s; Some (Some (Gateway.ack topic r), s').
Proof.
  intros (Hne & _ & Hk & _). unfold Gateway.handle_frame, publish_frame, server_publish.
  destruct (String.eqb key "") eqn:Ek; cbn [Wire.Topic Wire.Op]; rewrite (proj2 (String.eqb_neq _ _) Hne).
  - rewrite decide_True by done. unfold Gateway.handlePublish. cbn [Wire.Topic Wire.Payload].
    by destruct (Gateway.publish_durable _ _ _ _ _ _) as [[r s']|].
  - rewrite decide_False by done. rewrite decide_True by done. unfold Gateway.handlePublishWithKey. cbn [Wire.Topic Wire.Payload].
    assert (Wire.DecodeKeyedPayload (Wire.EncodeKeyedPayload key (bs_of msg)) = Ok (key, bs_of msg)) as ->
      by (apply Wire.keyed_payload_roundtrip; done).
    destruct (Bus.RouteKey _ _ _) as [p b]. by destruct (Gateway.publish_durable _ _ _ _ _ _) as [[r s']|].
Qed.

(** [goqueue publish] over TCP, end to end on the wire: if the server logged and published
    the message, the command prints the offset the broker gave it; if the server could not
    log it, the connection is closed and the command reports an error.  Nothing else
    happens to the server. *)
Theorem tcp_publish_prints_offset cs topic key msg s r s' :
  fits_wire topic key msg -> server_publish (cs 0%nat 0%nat) topic key (bs_of msg) s = Some (r, s') ->
  exists out, serve_conn cs (Wire.Encode (publish_frame topic key msg)) s = Some (out, s') /\
  publishTCP (fun _ => out) topic key msg =
  match r with Ok offset => Ok (Some (i64 offset)) | Err _ => Err ErrRead end.
Proof.
  intros Hfit Hp. rewrite serve_one by by apply publish_frame_fits. rewrite handle_publish_frame, Hp by done. cbn [mbind option_bind].
  destruct r as [offset|e]; cbn [Gateway.ack]; eexists; (split; [reflexivity|]); unfold publishTCP, publish_answer; [|reflexivity].
  destruct Hfit as (_ & Ht & _). rewrite read_one.
  - cbn [Wire.Op Wire.Payload]. rewrite decide_False by done. cbn [Wire.Payload]. rewrite decide_True by apply length_be_bytes.
    do 2 f_equal. pose proof (wrap_u_range 64 offset ltac:(lia)). rewrite be_val_bytes_small by lia. apply wrap_s_wrap_u.
  - split; cbn [Wire.Topic Wire.Payload]; [done|]. rewrite length_be_bytes. lia.
Qed.

(** The count the server takes for a fetch. *)
Definition fetch_count (maxCount : Z) : Z :=
  let m := if maxCount <=? 0 then 1 else maxCount in if 4096 <? m then 4096 else m.

(** [goqueue fetch] prints the messages that the broker returns for the offset and the
    clamped count, with their offsets, as long as the answer fits a frame. *)
Theorem tcp_fetch_prints_messages cs topic offset maxCount s ms b :
  topic <> ""%string -> zlen (bs_of topic) < 2 ^ 8 -> in_i64 offset -> 0 <= maxCount < 2 ^ 32 ->
  Bus.Fetch topic offset (fetch_count maxCount) (Gateway.bus s) = Some (ms, b) ->
  let out := map (fun m => Wire.mkBatchMessage (Bus.m_Offset m) (Bus.m_Payload m)) ms in
  Wire.fetch_fits out -> zlen (Wire.EncodeFetchResponse out) < 2 ^ 32 ->
  exists bs, serve_conn cs (Wire.Encode (Wire.mkFrame Wire.OpFetch topic (Wire.EncodeFetchRequest offset maxCount))) s =
      Some (bs, Gateway.set_bus b s) /\
    fetchTCP (fun _ => bs) topic offset maxCount = Ok out.
Proof.
  intros Hne Ht Ho Hm Hf out Hfits Hlen.
  destruct (Wire.fixed_size_roundtrips 0 0 0 offset maxCount [] ltac:(unfold in_i64; lia) ltac:(unfold in_i64; lia) ltac:(lia) Ho Hm) as (_ & Hreq & _).
  rewrite serve_one.
  - unfold Gateway.handle_frame. cbn [Wire.Topic Wire.Op]. rewrite (proj2 (String.eqb_neq _ _) Hne). rewrite !decide_False by done. rewrite decide_True by done.
    unfold Gateway.handleFetch. cbn [Wire.Topic Wire.Payload]. rewrite Hreq. cbv zeta. fold (fetch_count maxCount). rewrite Hf.
    cbn [mbind option_bind]. eexists. split; [reflexivity|]. unfold fetchTCP. fold out. rewrite read_one by (split; done).
    cbn [Wire.Op]. rewrite decide_False by done. cbn [Wire.Payload].
    assert (Wire.DecodeFetchResponse (Wire.EncodeFetchResponse out) = Ok out) as -> by (apply Wire.fetch_response_roundtrip; done). done.
  - split; cbn [Wire.Topic Wire.Payload]; [done|]. unfold Wire.EncodeFetchRequest. rewrite length_app, !length_be_bytes. lia.
Qed.

(** [goqueue publish-batch] prints the first and the last offset and the number of messages
    of the batch that the server published. *)
Theorem tcp_batch_prints_offsets cs topic batch s first last s' :
  topic <> ""%string -> zlen (bs_of topic) < 2 ^ 8 -> batch <> [] -> Wire.batch_fits batch ->
  zlen (Wire.EncodeBatchPayload batch) < 2 ^ 32 -> in_i64 first -> in_i64 last ->
  Gateway.batch_loop (cs 0%nat) 0 topic batch (-1) 0 s = Some (Ok (first, last), s') ->
  exists bs, serve_conn cs (Wire.Encode (Wire.mkFrame Wire.OpBatchPublish topic (Wire.EncodeBatchPayload batch))) s = Some (bs, s') /\
    publishBatchTCP (fun _ => bs) topic batch = Ok (first, last, zlen batch).
Proof.
  intros Hne Ht Hnil Hfits Hlen Hfi Hla Hloop. rewrite serve_one by (split; done).
  unfold Gateway.handle_frame. cbn [Wire.Topic Wire.Op]. rewrite (proj2 (String.eqb_neq _ _) Hne).
  do 2 rewrite decide_False by done. rewrite decide_True by done. unfold Gateway.handleBatchPublish. cbn [Wire.Topic Wire.Payload].
  assert (Wire.DecodeBatchPayload (Wire.EncodeBatchPayload batch) = Ok batch) as -> by (apply Wire.batch_payload_roundtrip; done).
  destruct batch as [|p batch]; [done|]. rewrite Hloop. cbn [mbind option_bind]. eexists. split; [reflexivity|].
  unfold publishBatchTCP. rewrite read_one.
  - cbn [Wire.Op]. rewrite decide_False by done. cbn [Wire.Payload]. destruct Hfits as [Hn _].
    destruct (Wire.fixed_size_roundtrips first last (zlen (p :: batch)) 0 0 [] Hfi Hla ltac:(lia) ltac:(unfold in_i64; lia) ltac:(lia)) as (-> & _). done.
  - split; cbn [Wire.Topic Wire.Payload]; [done|]. unfold Wire.EncodeBatchAck. rewrite !length_app, !length_be_bytes. lia.
Qed.
End Tcp.

(** The stream of a subscription: every message frame is printed, in order. *)
Lemma consume_prints fs fuel : Forall (fun f => Wire.frame_fits f /\ Wire.Op f = Wire.OpMessage) fs -> (length fs < fuel)%nat ->
  consume_loop fuel (concat (map Wire.Encode fs)) = (map (fun f => (Wire.Topic f, str_of (Wire.Payload f))) fs, None).
Proof.
  intros Hfs. revert fuel. induction Hfs as [|f fs [Hf Ho] Hfs IH]; intros [|fuel] Hlt; cbn [length] in Hlt; try lia; [reflexivity|].
  cbn [map concat consume_loop].
  assert (Wire.Decode (Wire.Encode f ++ concat (map Wire.Encode fs)) = Ok (f, concat (map Wire.Encode fs))) as -> by (by apply Wire.Decode_Encode).
  rewrite IH by lia. rewrite Ho. rewrite decide_False by done. by rewrite decide_True.
Qed.

(** ** Agent events *)

(** What a command publishes: the topic, the key and the message. *)
Record outgoing := mkOut { o_topic : string; o_key : string; o_msg : bytes }.

Definition publish_agent_cmd (now : Z) (topic tenant project session agent typ step payload : string) (attempt : Z) :
    result cli_err outgoing :=
  let eventPayload := if String.eqb payload "" then bs_of "{}" else bs_of payload in
  if negb (valid eventPayload) then Err (ErrUsage "--payload must be valid JSON")
  else match Marshal now (mkEvent "" typ tenant project session agent step attempt "" (Some eventPayload)) with
       | Err _ => Err ErrDecode
       | Ok encoded => Ok (mkOut topic (SessionKey tenant project session) encoded)
       end.

(** [retry-agent]: the failed event is published again with the next attempt, to its topic
    or to the dead-letter topic. *)
Definition retry_agent_cmd (now : Z) (topic dlqTopic : string) (maxAttempts : Z) (eventRaw : bytes) : result cli_err outgoing :=
  if negb (valid eventRaw) then Err (ErrUsage "--event must be valid JSON")
  else match unmarshal set_event zero_event eventRaw with
       | None => Err ErrDecode
       | Some ev =>
           match Validate ev with
           | Some _ => Err ErrDecode
           | None =>
               let '(toDLQ, nextAttempt) := DecideRetryRoute (Attempt ev) maxAttempts in
               let ev := {| ev with Attempt := nextAttempt |} in
               match Marshal now ev with
               | Err _ => Err ErrDecode
               | Ok encoded =>
                   Ok (mkOut (if toDLQ : bool then ResolveDLQTopic topic dlqTopic else topic)
                         (SessionKey (Tenant ev) (Project ev) (SessionID ev)) encoded)
               end
           end
       end.

(** Running the command on its own output again and again, as a consumer that keeps failing
    does: the topics it published to. *)
Fixpoint retry_rounds (n : nat) (now : Z) (topic dlqTopic : string) (maxAttempts : Z) (eventRaw : bytes) :
    list (result cli_err outgoing) :=
  match n with
  | O => []
  | S n =>
      let r := retry_agent_cmd now topic dlqTopic maxAttempts eventRaw in
      r :: match r with Ok o => retry_rounds n now topic dlqTopic maxAttempts (o_msg o) | Err _ => [] end
  end.

(** *** The retries end *)

Lemma parse_event_spec data e :
  ParseEvent data = Some e -> valid data = true /\ unmarshal set_event zero_event data = Some e /\ Validate e = None.
Proof.
  unfold ParseEvent. destruct (decide _); [done|]. destruct (valid data); [|done]. simpl.
  destruct (unmarshal _ _ _) as [ev|]; [|done]. simpl. destruct (Validate ev) eqn:E; [done|]. intros [= <-]. done.
Qed.

(** One retry of an event: the envelope keeps every field but its attempt. *)
Lemma retry_step now topic dlq mx e raw data :
  strings_ok e -> Payload e = Some raw -> payload_text raw -> Version e <> "" -> CreatedAt e <> "" ->
  1 <= Attempt e < 2 ^ 63 - 1 -> 0 < mx -> ParseEvent data = Some e ->
  exists data', ParseEvent data' = Some {| e with Attempt := Attempt e + 1 |} /\
    retry_agent_cmd now topic dlq mx data =
      Ok (mkOut (if mx <=? Attempt e then ResolveDLQTopic topic dlq else topic) (SessionKey (Tenant e) (Project e) (SessionID e)) data').
Proof.
  intros Hs Hp Ht HV HC Ha Hm Hd. apply parse_event_spec in Hd as (Hv & Hu & Hok).
  set (e' := {| e with Attempt := Attempt e + 1 |}).
  destruct (marshal_parse e' raw now) as (data' & HM & HP).
  - exact Hs.
  - unfold in_i64. cbn [e' Attempt]. lia.
  - exact Hp.
  - exact Ht.
  - exact HV.
  - exact HC.
  - exact Hok.
  - exists data'. split; [exact HP|]. unfold retry_agent_cmd. rewrite Hv, Hu, Hok. cbn [negb]. unfold DecideRetryRoute.
    destruct (Z.ltb_spec (Attempt e) 1); [lia|]. destruct (Z.leb_spec mx 0); [lia|].
    rewrite (wrap_s_small 64 (Attempt e + 1)) by lia. fold e'. rewrite HM.
    assert ((mx <? Attempt e + 1) = (mx <=? Attempt e)) as -> by (destruct (Z.leb_spec mx (Attempt e)); [apply Z.ltb_lt|apply Z.ltb_ge]; lia).
    reflexivity.
Qed.

(** C31. A failing event is retried on its own topic until its attempts are used up and then
    goes to the dead-letter topic: with [k] attempts left, [k] retries and one dead letter.
    The event is in valid UTF-8 and has a payload, a version and a creation time, as
    published events do. *)
Theorem retries_end_in_dlq now topic dlq mx e raw data :
  strings_ok e -> Payload e = Some raw -> payload_text raw -> Version e <> "" -> CreatedAt e <> "" ->
  1 <= Attempt e <= mx -> mx < 2 ^ 63 - 1 -> ParseEvent data = Some e ->
  map (fun r => match r with Ok o => Some (o_topic o, o_key o, Attempt <$> ParseEvent (o_msg o)) | Err _ => None end)
    (retry_rounds (Z.to_nat (mx - Attempt e + 1)) now topic dlq mx data) =
  map (fun i => Some (if Z.of_nat i <? mx - Attempt e then topic else ResolveDLQTopic topic dlq,
                      SessionKey (Tenant e) (Project e) (SessionID e), Some (Attempt e + 1 + Z.of_nat i)))
    (seq 0 (Z.to_nat (mx - Attempt e + 1))).
Proof.
  intros Hs Hp Ht HV HC Ha Hmx. remember (Z.to_nat (mx - Attempt e)) as k eqn:Hk. revert e data Hs Hp HV HC Ha Hk.
  induction k as [|k IH]; intros e data Hs Hp HV HC Ha Hk Hd.
  all: destruct (retry_step now topic dlq mx e raw data) as (data' & Hd' & Hr); [done..|lia|lia|done|].
  - assert (Attempt e = mx) as Hm by lia. rewrite Hm, Z.sub_diag in *. change (Z.to_nat (0 + 1)) with 1%nat.
    cbn [retry_rounds map seq]. rewrite Hr, Z.leb_refl. cbn [retry_rounds map o_topic o_key o_msg]. rewrite Hd'. cbn. by rewrite Z.add_0_r.
  - set (e' := {| e with Attempt := Attempt e + 1 |}) in *.
    specialize (IH e' data' Hs Hp HV HC). cbn [e' Attempt] in IH.
    replace (Z.to_nat (mx - Attempt e + 1)) with (S (Z.to_nat (mx - (Attempt e + 1) + 1))) by lia.
    cbn [retry_rounds map seq]. rewrite Hr. cbn [map o_topic o_key o_msg]. rewrite IH by (done || lia). rewrite Hd'.
    destruct (Z.leb_spec mx (Attempt e)); [lia|]. destruct (Z.ltb_spec (Z.of_nat 0) (mx - Attempt e)); [|lia].
    f_equal; [cbn; by rewrite Z.add_0_r|]. rewrite <-seq_shift, map_map. apply map_ext. intros i. cbn [e' Tenant Project SessionID].
    replace (Z.of_nat (S i)) with (Z.of_nat i + 1) by lia. f_equal. f_equal; [f_equal|f_equal; lia].
    destruct (Z.ltb_spec (Z.of_nat i) (mx - (Attempt e + 1))), (Z.ltb_spec (Z.of_nat i + 1) (mx - Attempt e)); done || lia.
Qed.

Lemma retries_end_in_dlq_witness :
  exists data, ParseEvent data = Some sample_event /\
  map (fun r => match r with Ok o => Some (o_topic o, o_key o, Attempt <$> ParseEvent (o_msg o)) | Err _ => None end)
    (retry_rounds 2 0 "agent-events" "" 3 data) =
  [Some ("agent-events"%string, "acme/research/run-1"%string, Some 3); Some ("agent-events.dlq"%string, "acme/research/run-1"%string, Some 4)].
Proof.
  set (raw := enc_object [("worker_id"%string, enc_string "w<1>")]).
  assert (strings_ok sample_event) as Hs by (unfold strings_ok, utf8_ok; simpl; split_and!; vm_compute; reflexivity).
  assert (payload_text raw) as Ht.
  { split; [apply stable_object; repeat constructor; apply stable_quote|].
    exists (JObj (members_of [("worker_id"%string, enc_string "w<1>")] [JStr (bs_of "w<1>")])).
    intros d Hd. apply reads_object; [discriminate|repeat constructor|unfold maxNestingDepth; lia|].
    constructor; [|constructor]. apply reads_enc_string. vm_compute. reflexivity. }
  destruct (marshal_parse sample_event raw 0) as (data & _ & Hd); [exact Hs| |reflexivity|exact Ht|discriminate|discriminate|vm_compute; reflexivity|].
  { unfold in_i64. simpl. lia. }
  exists data. split; [exact Hd|].
  refine (retries_end_in_dlq 0 "agent-events" "" 3 sample_event raw data Hs eq_refl Ht _ _ _ _ Hd);
    [discriminate|discriminate|cbn; lia|lia].
Defined.

(** ** Webhook *)

Fixpoint trim_left (v : bytes) : bytes :=
  match v with
  | b :: r => if isc 32 b || isc 9 b then trim_left r else v
  | [] => []
  end.

(** The index of the first colon decides: it may be neither the first nor the last byte. *)
Definition parse_header (item : bytes) : option (bytes * bytes) :=
  match list_find (fun b => byte_val b = 58) item with
  | None => None
  | Some (i, _) =>
      if decide (i = 0 \/ i = length item - 1)%nat then None
      else Some (take i item, trim_left (drop (i + 1) item))
  end.

(** [http.Header]: the values under each key, the key in canonical form (the first letter
    and every letter after a hyphen in upper case, the others in lower case; a key with a
    byte that is no token byte is left alone). *)
Abbreviation header := (list (bytes * list bytes)).

Definition is_alpha_upper (b : byte) : bool := (65 <=? byte_val b) && (byte_val b <=? 90).
Definition is_alpha_lower (b : byte) : bool := (97 <=? byte_val b) && (byte_val b <=? 122).

Definition token_byte (b : byte) : bool :=
  is_alpha_upper b || is_alpha_lower b || ((48 <=? byte_val b) && (byte_val b <=? 57)) ||
  existsb (fun c => byte_val b =? c) [33; 35; 36; 37; 38; 39; 42; 43; 45; 46; 94; 95; 96; 124; 126].

Fixpoint canonical_loop (upper : bool) (key : bytes) : bytes :=
  match key with
  | [] => []
  | b :: r =>
      let b := if upper then if is_alpha_lower b then ch (byte_val b - 32) else b
               else if is_alpha_upper b then ch (byte_val b + 32) else b in
      b :: canonical_loop (isc 45 b) r
  end.

Definition CanonicalHeaderKey (key : bytes) : bytes := if forallb token_byte key then canonical_loop true key else key.

Fixpoint add_value (key value : bytes) (h : header) : header :=
  match h with
  | [] => [(key, [value])]
  | (k, vs) :: h => if decide (k = key) then (k, vs ++ [value]) :: h else (k, vs) :: add_value key value h
  end.

Definition Add (key value : bytes) (h : header) : header := add_value (CanonicalHeaderKey key) value h.

Fixpoint set_value (key value : bytes) (h : header) : header :=
  match h with
  | [] => [(key, [value])]
  | (k, vs) :: h => if decide (k = key) then (k, [value]) :: h else (k, vs) :: set_value key value h
  end.

Definition Set_ (key value : bytes) (h : header) : header := set_value (CanonicalHeaderKey key) value h.

Fixpoint parse_loop (raw : list bytes) (h : header) : result cli_err header :=
  match raw with
  | [] => Ok h
  | item :: raw =>
      match parse_header item with
      | None => Err (ErrUsage "invalid --header")
      | Some (key, val) => parse_loop raw (Add key val h)
      end
  end.

Definition parseHeaders (raw : list bytes) : result cli_err header := parse_loop raw [].

(** *** Delivery *)

Inductive http_result := Response (code : Z) (body : bytes) | NoResponse.

Record http_request := mkRequest { rq_url : string; rq_body : bytes; rq_header : header }.

Definition add_extra (extra h : header) : header :=
  fold_left (fun h kv => fold_left (fun h v => Add kv.1 v h) kv.2 h) extra h.

(** The headers of an attempt; an agent event's routing fields are among them. *)
Definition request_header (msg : Streaming.Message) (attempt : Z) (extra : header) : header :=
  let h := Set_ (bs_of "Content-Type") (bs_of "application/json") [] in
  let h := Set_ (bs_of "X-Eventbus-Offset") (format_int (Streaming.sm_Offset msg)) h in
  let h := Set_ (bs_of "X-Eventbus-Partition") (format_int (Streaming.sm_Partition msg)) h in
  let h := Set_ (bs_of "X-Eventbus-Timestamp") (Time.Format (Streaming.sm_Timestamp msg)) h in
  let h := Set_ (bs_of "X-Eventbus-Attempt") (format_int attempt) h in
  let h := match Client.DecodeEvent (Streaming.sm_Payload msg) with
           | None => h
           | Some ev =>
               let h := Set_ (bs_of "X-Eventbus-Tenant") (bs_of (Client.d_Tenant ev)) h in
               let h := Set_ (bs_of "X-Eventbus-Project") (bs_of (Client.d_Project ev)) h in
               let h := Set_ (bs_of "X-Eventbus-Session") (bs_of (Client.d_SessionID ev)) h in
               Set_ (bs_of "X-Eventbus-Type") (bs_of (Client.d_Type ev)) h
           end in
  add_extra extra h.

Inductive deliver_err := BadUrl | ErrHTTP (code : Z) (body : string) | ErrTransport | ErrContext.

Definition succeeded (r : http_result) : bool :=
  match r with Response c _ => (200 <=? c) && (c <? 300) | NoResponse => false end.

(** A client error other than 408 and 429 is not tried again. *)
Definition permanent (r : http_result) : bool :=
  match r with
  | Response c _ => (400 <=? c) && (c <? 500) && negb (c =? 408) && negb (c =? 429)
  | NoResponse => false
  end.

(** The error carries the first 4 KiB of the body. *)
Definition http_err (r : http_result) : deliver_err :=
  match r with Response c body => ErrHTTP c (TrimSpace (str_of (take 4096 body))) | NoResponse => ErrTransport end.

Definition max_backoff : Z := 30 * Time.second.

Definition next_backoff (b : Z) : Z := let b := i64 (b * 2) in if max_backoff <? b then max_backoff else b.

Section Deliver.
(** [Do i req] is what the endpoint answers to attempt [i]; [cancelled i] whether the
    context ends in the wait after it; [url_ok] whether a request can be built. *)
Context (Do : Z -> http_request -> http_result) (cancelled : Z -> bool) (url_ok : string -> bool).

(** From attempt [attempt] on, [more] attempts after it: the answer, the requests sent and
    the waits between them. *)
Fixpoint deliver_loop (more : nat) (url : string) (msg : Streaming.Message) (extra : header) (attempt backoff : Z) :
    option deliver_err * list http_request * list Z :=
  if negb (url_ok url) then (Some BadUrl, [], [])
  else
    let req := mkRequest url (Streaming.sm_Payload msg) (request_header msg attempt extra) in
    let r := Do attempt req in
    if succeeded r then (None, [req], [])
    else if permanent r then (Some (http_err r), [req], [])
    else match more with
         | O => (Some (http_err r), [req], [])
         | S more =>
             if cancelled attempt then (Some ErrContext, [req], [])
             else
               let '(e, reqs, waits) := deliver_loop more url msg extra (attempt + 1) (next_backoff backoff) in
               (e, req :: reqs, backoff :: waits)
         end.

Definition deliver (url : string) (msg : Streaming.Message) (extra : header) (maxAttempts base : Z) :
    option deliver_err * list http_request * list Z :=
  let maxAttempts := if maxAttempts <=? 0 then 1 else maxAttempts in
  deliver_loop (Z.to_nat (maxAttempts - 1)) url msg extra 1 base.

(** *** What a delivery does *)

Definition request_at (url : string) (msg : Streaming.Message) (extra : header) (i : Z) : http_request :=
  mkRequest url (Streaming.sm_Payload msg) (request_header msg i extra).

Definition answer (url : string) (msg : Streaming.Message) (extra : header) (i : Z) : http_result :=
  Do i (request_at url msg extra i).

(** The answers by their status: accepted, refused for good, or worth another attempt. *)
Definition is_2xx (r : http_result) : Prop :=
  match r with Response c _ => 200 <= c < 300 | NoResponse => False end.
Definition refused (r : http_result) : Prop :=
  match r with Response c _ => 400 <= c < 500 /\ c <> 408 /\ c <> 429 | NoResponse => False end.
Definition retryable (r : http_result) : Prop := ~ is_2xx r /\ ~ refused r.

Lemma succeeded_spec r : reflect (is_2xx r) (succeeded r).
Proof. apply iff_reflect. destruct r; cbn; [rewrite andb_true_iff, Z.leb_le, Z.ltb_lt; tauto|done]. Qed.

Lemma permanent_spec r : reflect (refused r) (permanent r).
Proof.
  apply iff_reflect. destruct r; cbn; [|done].
  rewrite !andb_true_iff, !negb_true_iff, !Z.eqb_neq, Z.leb_le, Z.ltb_lt. tauto.
Qed.

(** The last answer and the outcome: [used] says that no attempt is left. *)
Definition outcome (e : option deliver_err) (last : http_result) (stopped used : bool) : Prop :=
  match e with
  | None => is_2xx last
  | Some ErrContext => retryable last /\ stopped = true /\ used = false
  | Some err => err = http_err last /\ ~ is_2xx last /\ (refused last \/ used = true)
  end.

Lemma outcome_failed r stopped used :
  ~ is_2xx r -> refused r \/ used = true -> outcome (Some (http_err r)) r stopped used.
Proof. destruct r; cbn; auto. Qed.

Lemma deliver_loop_spec url msg extra more : forall attempt backoff e reqs waits,
  url_ok url = true -> deliver_loop more url msg extra attempt backoff = (e, reqs, waits) ->
  exists k, (k <= more)%nat /\
    reqs = map (fun i => request_at url msg extra (attempt + Z.of_nat i)) (seq 0 (S k)) /\
    waits = map (fun i => Nat.iter i next_backoff backoff) (seq 0 k) /\
    (forall i, (i < k)%nat -> retryable (answer url msg extra (attempt + Z.of_nat i)) /\ cancelled (attempt + Z.of_nat i) = false) /\
    outcome e (answer url msg extra (attempt + Z.of_nat k)) (cancelled (attempt + Z.of_nat k)) (Nat.eqb k more).
Proof.
  induction more as [|more IH]; intros attempt backoff e reqs waits Hurl; cbn [deliver_loop]; rewrite Hurl; cbn [negb];
    fold (request_at url msg extra attempt); fold (answer url msg extra attempt);
    destruct (succeeded_spec (answer url msg extra attempt)) as [Es|Es].
  1, 3: intros [= <- <- <-]; exists 0%nat; cbn [seq map Nat.eqb Z.of_nat]; rewrite Z.add_0_r; split_and!; [lia|done|done|lia|done].
  all: destruct (permanent_spec (answer url msg extra attempt)) as [Ep|Ep].
  1, 2, 3: intros [= <- <- <-]; exists 0%nat; cbn [seq map Nat.eqb Z.of_nat]; rewrite Z.add_0_r; split_and!; [lia|done|done|lia|];
    apply outcome_failed; auto.
  destruct (cancelled attempt) eqn:Ec.
  { intros [= <- <- <-]. exists 0%nat. cbn [seq map Nat.eqb Z.of_nat]. rewrite Z.add_0_r. by split_and!; [lia|..|lia|]. }
  destruct (deliver_loop more url msg extra (attempt + 1) (next_backoff backoff)) as [[e' reqs'] waits'] eqn:E. intros [= <- <- <-].
  destruct (IH _ _ _ _ _ Hurl E) as (k & Hk & -> & -> & Hr & Ho). exists (S k).
  assert (forall i, attempt + 1 + Z.of_nat i = attempt + Z.of_nat (S i)) as Hsh by lia. rewrite Hsh in Ho.
  split_and!; [lia|..|exact Ho].
  - change (seq 0 (S (S k))) with (0 :: seq 1 (S k))%nat. rewrite <- (seq_shift (S k) 0), map_cons, map_map. cbn [Z.of_nat].
    rewrite Z.add_0_r. f_equal. apply map_ext. intros i. by rewrite Hsh.
  - change (seq 0 (S k)) with (0 :: seq 1 k)%nat. rewrite <- (seq_shift k 0), map_cons, map_map. f_equal. apply map_ext. intros i. by rewrite <- Nat.iter_succ_r.
  - intros [|i] Hi; [cbn [Z.of_nat]; by rewrite Z.add_0_r|]. rewrite <- Hsh. apply Hr. lia.
Qed.

(** After the first wait, the waits are the doubled base, at most 30 seconds. *)
Lemma backoff_doubles base i : 0 <= base <= max_backoff ->
  Nat.iter i next_backoff base = Z.min max_backoff (base * 2 ^ Z.of_nat i).
Proof.
  intros Hb. induction i as [|i IH]; [cbn [Nat.iter nat_rect Z.of_nat]; rewrite Z.pow_0_r; lia|]. rewrite Nat.iter_succ, IH. unfold next_backoff.
  rewrite Nat2Z.inj_succ, Z.pow_succ_r by lia. pose proof (Z.pow_pos_nonneg 2 (Z.of_nat i) ltac:(lia) ltac:(lia)) as Hp.
  set (p := 2 ^ Z.of_nat i) in *. change max_backoff with 30000000000 in *.
  rewrite wrap_s_small by lia. destruct (Z.ltb_spec 30000000000 (Z.min 30000000000 (base * p) * 2)); lia.
Qed.

(** A delivery posts the message to the endpoint between once and [maxAttempts] times (once
    when that is not positive), the attempts numbered from 1 and with the same body.  It
    goes on only after an answer that may be retried, waiting the doubled backoff, at most
    30 seconds.  It succeeds exactly when the last answer is a 2xx; otherwise its error is
    the last answer's, which refused it (a 4xx other than 408 and 429) or used up the attempts, or the context ended. *)
Theorem webhook_delivery url msg extra maxAttempts base e reqs waits :
  url_ok url = true -> 0 <= base <= max_backoff -> deliver url msg extra maxAttempts base = (e, reqs, waits) ->
  let n := zlen reqs in
  1 <= n <= Z.max 1 maxAttempts /\
  reqs = map (fun i => request_at url msg extra (Z.of_nat i)) (seq 1 (length reqs)) /\
  waits = map (fun i => Z.min max_backoff (base * 2 ^ Z.of_nat i)) (seq 0 (length reqs - 1)) /\
  (forall i, 1 <= i < n -> retryable (answer url msg extra i)) /\
  outcome e (answer url msg extra n) (cancelled n) (n =? Z.max 1 maxAttempts).
Proof.
  intros Hurl Hb E. unfold deliver in E. destruct (deliver_loop_spec _ _ _ _ _ _ _ _ _ Hurl E) as (k & Hk & -> & -> & Hr & Ho).
  rewrite length_map, length_seq. cbn zeta.
  assert (Z.to_nat ((if maxAttempts <=? 0 then 1 else maxAttempts) - 1) = Z.to_nat (Z.max 1 maxAttempts - 1)) as Hm
    by (destruct (Z.leb_spec maxAttempts 0); lia). rewrite Hm in *.
  split_and!; [lia|lia|..].
  - rewrite <- seq_shift, map_map. apply map_ext. intros i. f_equal. lia.
  - rewrite Nat.sub_succ, Nat.sub_0_r. apply map_ext. intros i. by apply backoff_doubles.
  - intros i Hi. destruct (Hr (Z.to_nat (i - 1)) ltac:(lia)) as [H _]. by replace i with (1 + Z.of_nat (Z.to_nat (i - 1))) by lia.
  - replace (Z.of_nat (S k)) with (1 + Z.of_nat k) by lia.
    assert ((1 + Z.of_nat k =? Z.max 1 maxAttempts) = (k =? Z.to_nat (Z.max 1 maxAttempts - 1))%nat) as -> by
      (destruct (Z.eqb_spec (1 + Z.of_nat k) (Z.max 1 maxAttempts)), (Nat.eqb_spec k (Z.to_nat (Z.max 1 maxAttempts - 1))); done || lia).
    exact Ho.
Qed.
End Deliver.

(** The loop of the command over a subscription: every message is delivered, and a message
    that is given up is logged and passed over.  [Do k] answers for the [k]-th message. *)
Section Webhook.
Context {S H E : Type} (Recv : H -> S -> option (option (Streaming.recv E) * S)).
Context (Do : nat -> Z -> http_request -> http_result) (cancelled : nat -> Z -> bool) (url_ok : string -> bool).

Fixpoint webhook_loop (fuel k : nat) (sub : H) (url : string) (extra : header) (maxAttempts base : Z) (s : S) :
    option (list (Streaming.Message * option deliver_err * list http_request) * option (Streaming.sub_err E) * S) :=
  match fuel with
  | O => None
  | Datatypes.S fuel =>
      '(r, s) ← Streaming.Next Recv sub s;
      match r with
      | None => Some ([], None, s)
      | Some (Err e) => Some ([], Some e, s)
      | Some (Ok msg) =>
          let '(err, reqs, _) := deliver (Do k) (cancelled k) url_ok url msg extra maxAttempts base in
          '(rest, e, s) ← webhook_loop fuel (Datatypes.S k) sub url extra maxAttempts base s;
          Some ((msg, err, reqs) :: rest, e, s)
      end
  end.
End Webhook.

(** Over a server's stream, the command posts every message of the partition from the
    subscription's offset on, in order, whatever the endpoint answers. *)
Lemma webhook_posts_all {W} h log o0 Do cancelled url_ok url extra mx base fuel : forall k (w : @Streaming.world W) P,
  Streaming.pending h log o0 w P -> (length P < fuel)%nat ->
  exists out w', webhook_loop Streaming.server_Recv Do cancelled url_ok fuel k h url extra mx base w = Some (out, None, w') /\
    map (fun x => x.1.1) out = map Streaming.msg_of P /\ Streaming.pending h log o0 w' [] /\
    (url_ok url = true -> Forall (fun x => x.2 <> []) out).
Proof.
  induction fuel as [|fuel IH]; intros k w P HP Hlt; [lia|].
  destruct (Streaming.next_pending h log o0 w P HP) as (w1 & HN & HP1). cbn [webhook_loop]. rewrite HN. cbn [mbind option_bind].
  destruct P as [|m P]; [by eexists [], w1|]. cbn [tail length] in *.
  destruct (deliver (Do k) (cancelled k) url_ok url (Streaming.msg_of m) extra mx base) as [[err reqs] ws] eqn:Ed.
  destruct (IH (S k) w1 P HP1 ltac:(lia)) as (out & w' & -> & HM & HP' & HF). cbn [mbind option_bind].
  eexists _, w'. split; [reflexivity|]. split; [cbn; by rewrite HM|]. split; [exact HP'|].
  intros Hurl. constructor; [|by apply HF]. unfold deliver in Ed.
  destruct (deliver_loop_spec _ _ _ _ _ _ _ _ _ _ _ _ Hurl Ed) as (j & _ & -> & _). done.
Qed.

(** ** Over gRPC *)

Section Grpc.
Context {S H E : Type} (api_Publish : string -> string -> Z -> bytes -> S -> option (result E (Z * Z) * S)).
Context (Consume : string -> string -> Z -> S -> option (result E H * S)) (Recv : H -> S -> option (option (Streaming.recv E) * S)).

Inductive grpc_err := GrpcPublish (e : E) | GrpcOpen (e : E) | GrpcRead (e : E).

(** What is printed: the partition and the offset. *)
Definition publishGRPC (topic key : string) (partition : Z) (msg : string) (s : S) : option (result grpc_err (Z * Z) * S) :=
  '(r, s) ← api_Publish topic key (i32 partition) (bs_of msg) s;
  Some (match r with Err e => Err (GrpcPublish e) | Ok (offset, partition) => Ok (partition, offset) end, s).

(** The loop prints every message with its partition; [interrupted k] says that the signal
    has come when the [k]-th receive fails. *)
Fixpoint consume_grpc (fuel k : nat) (interrupted : nat -> bool) (h : H) (s : S) :
    option (list (Z * string) * option grpc_err * S) :=
  match fuel with
  | O => None
  | Datatypes.S fuel =>
      '(r, s) ← Recv h s;
      match r with
      | None => Some ([], None, s)
      | Some Streaming.EOF | Some Streaming.CtxCanceled => Some ([], None, s)
      | Some (Streaming.RecvErr e) => Some ([], if interrupted k then None else Some (GrpcRead e), s)
      | Some (Streaming.Got m) =>
          '(out, e, s) ← consume_grpc fuel (Datatypes.S k) interrupted h s;
          Some ((Gateway.cm_Partition m, str_of (Gateway.cm_Payload m)) :: out, e, s)
      end
  end.

Definition consumeGRPC (fuel : nat) (interrupted : nat -> bool) (topic group : string) (partition : Z) (s : S) :
    option (list (Z * string) * option grpc_err * S) :=
  '(r, s) ← Consume topic group (i32 partition) s;
  match r with
  | Err e => Some ([], Some (GrpcOpen e), s)
  | Ok h => consume_grpc fuel 0 interrupted h s
  end.
End Grpc.

(** Over a server's stream it prints every message of the partition from the
    subscription's offset on, in order. *)
Lemma consume_grpc_prints {W} h log o0 interrupted fuel : forall k (w : @Streaming.world W) P,
  Streaming.pending h log o0 w P -> (length P < fuel)%nat ->
  exists w', consume_grpc Streaming.server_Recv fuel k interrupted h w =
    Some (map (fun m => (Gateway.cm_Partition m, str_of (Gateway.cm_Payload m))) P, None, w') /\ Streaming.pending h log o0 w' [].
Proof.
  induction fuel as [|fuel IH]; intros k w P HP Hlt; [lia|].
  destruct (Streaming.recv_pending h log o0 w P HP) as (w1 & HR & HP1). cbn [consume_grpc]. rewrite HR. cbn [mbind option_bind].
  destruct P as [|m P]; [by exists w1|]. cbn [tail length] in *.
  destruct (IH (Datatypes.S k) w1 P HP1 ltac:(lia)) as (w' & -> & HP'). by exists w'.
Qed.

(** ** Concrete runs *)

#[local] Existing Instance WalCommit.wal_log_sink.

Definition idle_server : @Gateway.Server WalCommit.Log := Gateway.mkServer Bus.New None Offsets.NewManager.
Definition idle_clocks (_ _ : nat) : @Gateway.clock WalCommit.wal_io := Gateway.mkClock 7 7 Gateway.io_fine.

Lemma tcp_publish_prints_offset_witness :
  exists s' out, serve_conn idle_clocks (Wire.Encode (publish_frame "orders" "k" "hi")) idle_server = Some (out, s') /\
    publishTCP (fun _ => out) "orders" "k" "hi" = Ok (Some 0).
Proof.
  destruct (server_publish (idle_clocks 0 0) "orders" "k" (bs_of "hi") idle_server) as [[r s']|] eqn:E; [|vm_compute in E; discriminate].
  assert (r = Ok 0) as -> by (vm_compute in E; congruence).
  exists s'. refine (tcp_publish_prints_offset idle_clocks "orders" "k" "hi" idle_server (Ok 0) s' _ E).
  split; [discriminate|]. vm_compute. by split_and!.
Defined.

Definition idle_message : Streaming.Message := Streaming.mkMsg 0 3 (bs_of "{}") 0.
Definition flaky (i : Z) (_ : http_request) : http_result := if i <? 3 then Response 503 [] else Response 200 [].

Lemma webhook_delivery_witness :
  exists reqs, deliver flaky (fun _ => false) (fun _ => true) "http://sink" idle_message [] 5 500000000 =
      (None, reqs, [500000000; 1000000000]) /\ zlen reqs = 3 /\
    (forall i, 1 <= i < 3 -> retryable (answer flaky "http://sink" idle_message [] i)).
Proof.
  destruct (deliver flaky (fun _ => false) (fun _ => true) "http://sink" idle_message [] 5 500000000) as [[e reqs] waits] eqn:E.
  pose proof (webhook_delivery flaky (fun _ => false) (fun _ => true) "http://sink" idle_message [] 5 500000000 e reqs waits
    eq_refl ltac:(vm_compute; split; discriminate) E) as (_ & _ & _ & Hr & _).
  exists reqs. assert (e = None /\ waits = [500000000; 1000000000] /\ zlen reqs = 3) as (-> & -> & HL) by (vm_compute in E; by simplify_eq).
  rewrite HL in Hr. by split_and!.
Defined.

(** A header [Key: Value] is read as its two parts. *)
Lemma parse_header_spec key b v :
  key <> [] -> Forall (fun c => byte_val c <> 58) key -> isc 32 b = false -> isc 9 b = false ->
  parse_header (key ++ bs_of ": " ++ b :: v) = Some (key, b :: v).
Proof.
  intros Hne Hk Hs Ht. unfold parse_header.
  assert (list_find (fun c => byte_val c = 58) (key ++ bs_of ": " ++ b :: v) = Some (length key, ch 58)) as ->.
  { apply list_find_Some. split_and!; [|vm_compute; reflexivity|].
    - rewrite lookup_app_r, Nat.sub_diag by lia. reflexivity.
    - intros j c Hj Hlt. rewrite lookup_app_l in Hj by done. exact (Forall_lookup_1 _ _ _ _ Hk Hj). }
  rewrite decide_False.
  2: { rewrite !length_app. cbn [length bs_of]. destruct key; [done|]. cbn. lia. }
  rewrite take_app_length. rewrite drop_app_ge by lia. replace (length key + 1 - length key)%nat with 1%nat by lia.
  cbn. by rewrite Hs, Ht.
Qed.

End Command.
