(* ===== verification/Metadata.v ===== *)
(** * The cluster's metadata state machine (internal/cluster/metadata/fsm.go)

    [Module Fsm] models the state that every node folds from the committed Raft
    log: the members with their addresses, the leader of each shard and the shard
    count, with the JSON of the commands and of the snapshots.  Raft itself
    (hashicorp/raft) is not part of the sources: what is used of it is that the
    nodes apply the same entries in the same order, which is a list here.

    The theorems: a snapshot is invisible (restoring one and applying the rest of
    the log gives the state of a node that applied the whole log), the state's
    invariant, and what each command does. *)

From S2P Require Import Prelude GoLib GoJson GoJsonMap.
Import Json JsonMap.

Module Fsm.
Local Open Scope Z_scope.

Definition OpAddMember : string := "add_member".
Definition OpRegisterMember : string := "register_member".
Definition OpRemoveMember : string := "remove_member".
Definition OpSetShardLeader : string := "set_shard_leader".
Definition OpSetShardCount : string := "set_shard_count".

Record Command := mkCommand {
  c_Op : string; c_NodeID : string; c_Addr : string; c_ClientAddr : string; c_Shard : Z
}.

Definition zeroCommand : Command := mkCommand "" "" "" "" 0.

(** The JSON of a command, as the struct tags say. *)
Definition omit_string (name s : string) : list (string * bytes) :=
  if decide (s = "") then [] else [(name, enc_string s)].

Definition marshal_command (c : Command) : bytes :=
  enc_object ([("op"%string, enc_string (c_Op c))] ++ omit_string "node_id" (c_NodeID c) ++
    omit_string "addr" (c_Addr c) ++ omit_string "client_addr" (c_ClientAddr c) ++
    (if c_Shard c =? 0 then [] else [("shard"%string, format_int (c_Shard c))])).

Definition set_command (key raw : bytes) (v : json) (c : Command) : option Command :=
  if field_is "op" key then x ← dec_string v (c_Op c); Some {| c with c_Op := x |}
  else if field_is "node_id" key then x ← dec_string v (c_NodeID c); Some {| c with c_NodeID := x |}
  else if field_is "addr" key then x ← dec_string v (c_Addr c); Some {| c with c_Addr := x |}
  else if field_is "client_addr" key then x ← dec_string v (c_ClientAddr c); Some {| c with c_ClientAddr := x |}
  else if field_is "shard" key then x ← dec_uint32 v (c_Shard c); Some {| c with c_Shard := x |}
  else Some c.

Record Member := mkMember { m_NodeID : string; m_RaftAddr : string; m_ClientAddr : string }.

Record FSM := mkFSM { members : gmap string Member; shardLeaders : gmap Z string; shardCount : Z }.

Definition NewFSM : FSM := mkFSM ∅ ∅ 0.

Inductive fsm_err :=
| ErrBadCommand
| ErrEmptyNodeID (op : string)
| ErrUnknownOp (op : string).

(** The switch of [Apply], on a decoded command. *)
Definition apply_command (cmd : Command) (f : FSM) : FSM * option fsm_err :=
  if decide (c_Op cmd = OpAddMember) then
    if decide (c_NodeID cmd = "") then (f, Some (ErrEmptyNodeID OpAddMember))
    else
      let client := match members f !! c_NodeID cmd with Some m => m_ClientAddr m | None => "" end in
      ({| f with members := <[c_NodeID cmd := mkMember (c_NodeID cmd) (c_Addr cmd) client]> (members f) |}, None)
  else if decide (c_Op cmd = OpRegisterMember) then
    if decide (c_NodeID cmd = "") then (f, Some (ErrEmptyNodeID OpRegisterMember))
    else
      ({| f with members := <[c_NodeID cmd := mkMember (c_NodeID cmd) (c_Addr cmd) (c_ClientAddr cmd)]> (members f) |},
       None)
  else if decide (c_Op cmd = OpRemoveMember) then
    ({| f with members := delete (c_NodeID cmd) (members f);
               shardLeaders := filter (fun sn => sn.2 <> c_NodeID cmd) (shardLeaders f) |}, None)
  else if decide (c_Op cmd = OpSetShardLeader) then
    if decide (c_NodeID cmd = "") then (f, Some (ErrEmptyNodeID OpSetShardLeader))
    else ({| f with shardLeaders := <[c_Shard cmd := c_NodeID cmd]> (shardLeaders f) |}, None)
  else if decide (c_Op cmd = OpSetShardCount) then ({| f with shardCount := c_Shard cmd |}, None)
  else (f, Some (ErrUnknownOp (c_Op cmd))).

(** [Apply]: one committed log entry. *)
Definition Apply (data : bytes) (f : FSM) : FSM * option fsm_err :=
  match unmarshal set_command zeroCommand data with
  | None => (f, Some ErrBadCommand)
  | Some cmd => apply_command cmd f
  end.

Definition Members (f : FSM) : gmap string string := m_RaftAddr <$> members f.
Definition MemberAt (nodeID : string) (f : FSM) : option Member := members f !! nodeID.
Definition ShardLeader (shardID : Z) (f : FSM) : string := default "" (shardLeaders f !! shardID).
Definition ShardCount (f : FSM) : Z := shardCount f.
Definition AllShardLeaders (f : FSM) : gmap Z string := shardLeaders f.

(** ** Snapshots *)

Definition marshal_member (m : Member) : bytes :=
  enc_object [("NodeID"%string, enc_string (m_NodeID m)); ("RaftAddr"%string, enc_string (m_RaftAddr m));
              ("ClientAddr"%string, enc_string (m_ClientAddr m))].

Definition set_member (key raw : bytes) (v : json) (m : Member) : option Member :=
  if field_is "NodeID" key then x ← dec_string v (m_NodeID m); Some {| m with m_NodeID := x |}
  else if field_is "RaftAddr" key then x ← dec_string v (m_RaftAddr m); Some {| m with m_RaftAddr := x |}
  else if field_is "ClientAddr" key then x ← dec_string v (m_ClientAddr m); Some {| m with m_ClientAddr := x |}
  else Some m.

Definition dec_member (v : json) : option Member :=
  match v with
  | JObj ms => dec_members set_member ms (mkMember "" "" "")
  | JNull => Some (mkMember "" "" "")
  | _ => None
  end.

(** [snapshotPayload]; a nil map is [None]. *)
Record snapshotPayload := mkPayload {
  p_Version : Z; p_Members : option (gmap string Member); p_ShardLeaders : option (gmap Z string); p_ShardCount : Z
}.

Definition Snapshot (f : FSM) : bytes :=
  enc_object [("v"%string, format_int 2); ("members"%string, enc_map marshal_member (members f));
              ("shard_leaders"%string, enc_imap enc_string (shardLeaders f));
              ("shard_count"%string, format_int (shardCount f))].

(** The probe: its unmarshalling error is ignored, and a member of the wrong type
    leaves the field as it was. *)
Definition set_probe (key raw : bytes) (v : json) (n : Z) : option Z :=
  if field_is "v" key then Some (default n (dec_int v n)) else Some n.

Definition set_payload (key raw : bytes) (v : json) (p : snapshotPayload) : option snapshotPayload :=
  if field_is "v" key then x ← dec_int v (p_Version p); Some {| p with p_Version := x |}
  else if field_is "members" key then
    x ← dec_map string_key dec_member v (p_Members p); Some {| p with p_Members := x |}
  else if field_is "shard_leaders" key then
    x ← dec_map (parse_uint 32) (fun v => dec_string v "") v (p_ShardLeaders p); Some {| p with p_ShardLeaders := x |}
  else if field_is "shard_count" key then x ← dec_uint32 v (p_ShardCount p); Some {| p with p_ShardCount := x |}
  else Some p.

(** The version 1 layout: the members are a map from ids to Raft addresses. *)
Definition payloadV1 : Type := option (gmap string string) * option (gmap Z string).

Definition set_payloadV1 (key raw : bytes) (v : json) (p : payloadV1) : option payloadV1 :=
  if field_is "members" key then x ← dec_map string_key (fun v => dec_string v "") v p.1; Some (x, p.2)
  else if field_is "shard_leaders" key then
    x ← dec_map (parse_uint 32) (fun v => dec_string v "") v p.2; Some (p.1, x)
  else Some p.

(** [Restore] of data that was read; [None] is an error, which leaves the state
    as it was. *)
Definition Restore (data : bytes) : option FSM :=
  if decide (default 0 (unmarshal set_probe 0 data) = 2) then
    match unmarshal set_payload (mkPayload 0 None None 0) data with
    | None => None
    | Some p => Some (mkFSM (default ∅ (p_Members p)) (default ∅ (p_ShardLeaders p)) (p_ShardCount p))
    end
  else
    match unmarshal set_payloadV1 (None, None) data with
    | None => None
    | Some p => Some (mkFSM (map_imap (fun nid addr => Some (mkMember nid addr "")) (default ∅ p.1)) (default ∅ p.2) 0)
    end.

(** ** The committed log *)

Definition apply_log (es : list bytes) (f : FSM) : FSM := foldl (fun f e => (Apply e f).1) f es.

(** ** The invariant *)

Definition member_ok (m : Member) : Prop :=
  utf8_ok (m_NodeID m) /\ utf8_ok (m_RaftAddr m) /\ utf8_ok (m_ClientAddr m).

Definition command_ok (c : Command) : Prop :=
  utf8_ok (c_Op c) /\ utf8_ok (c_NodeID c) /\ utf8_ok (c_Addr c) /\ utf8_ok (c_ClientAddr c) /\ 0 <= c_Shard c < 2 ^ 32.

(** Every string is one JSON can carry, and integers fit their types. *)
Definition text_ok (f : FSM) : Prop :=
  map_Forall (fun k m => utf8_ok k /\ member_ok m) (members f) /\
  map_Forall (fun s n => 0 <= s < 2 ^ 32 /\ utf8_ok n) (shardLeaders f) /\
  0 <= shardCount f < 2 ^ 32.

Lemma NewFSM_text_ok : text_ok NewFSM.
Proof. split; [apply map_Forall_empty|split; [apply map_Forall_empty|done]]. Qed.

Lemma utf8_empty : utf8_ok "".
Proof. done. Qed.
Local Hint Resolve utf8_empty : core.

Lemma set_command_ok k raw v c c' :
  runes k -> strs_ok v -> command_ok c -> set_command k raw v c = Some c' -> command_ok c'.
Proof.
  intros _ Hv (H0 & H1 & H2 & H3 & H4) E. unfold set_command in E.
  repeat (match type of E with (if ?b then _ else _) = _ => destruct b end);
    repeat match type of E with
    | (dec_string ?w ?o ≫= _) = _ =>
        destruct (dec_string w o) eqn:Ed; [cbn in E; apply dec_string_utf8 in Ed; [|done..]|done]
    | (dec_uint32 ?w ?o ≫= _) = _ =>
        destruct (dec_uint32 w o) eqn:Ed; [cbn in E; apply dec_uint32_range in Ed; [|done]|done]
    end; simplify_eq; unfold command_ok; cbn [c_Op c_NodeID c_Addr c_ClientAddr c_Shard]; split_and!; done || lia.
Qed.

Lemma decoded_command_ok data c : unmarshal set_command zeroCommand data = Some c -> command_ok c.
Proof.
  apply (unmarshal_inv command_ok); [|apply set_command_ok]. unfold command_ok, zeroCommand; cbn [c_Op c_NodeID c_Addr c_ClientAddr c_Shard]. by split_and!.
Qed.

Lemma apply_command_text_ok c f : command_ok c -> text_ok f -> text_ok (apply_command c f).1.
Proof.
  intros (H0 & H1 & H2 & H3 & H4) (F1 & F2 & F3). unfold apply_command.
  repeat case_decide; unfold text_ok; cbn [fst members shardLeaders shardCount]; split_and!; try done; try lia.
  - apply map_Forall_insert_2; [|done]. split; [done|]. unfold member_ok; cbn [m_NodeID m_RaftAddr m_ClientAddr]. split_and!; [done..|].
    destruct (members f !! c_NodeID c) as [m|] eqn:E; [|done]. apply (F1 _ _ E).
  - by apply map_Forall_insert_2.
  - by apply map_Forall_delete.
  - intros s n [E _]%map_lookup_filter_Some. by apply (F2 s n).
  - by apply map_Forall_insert_2.
Qed.

Lemma Apply_text_ok e f : text_ok f -> text_ok (Apply e f).1.
Proof.
  intros Hf. unfold Apply. destruct (unmarshal _ _ _) as [c|] eqn:E; [|done].
  apply apply_command_text_ok; [by eapply decoded_command_ok|done].
Qed.

Lemma apply_log_text_ok es f : text_ok f -> text_ok (apply_log es f).
Proof. revert f. induction es as [|e es IH]; intros f Hf; [done|]. by apply IH, Apply_text_ok. Qed.

(** ** The JSON round trips *)

Definition member_json (m : Member) : json :=
  JObj (members_of [("NodeID"%string, enc_string (m_NodeID m)); ("RaftAddr"%string, enc_string (m_RaftAddr m));
                    ("ClientAddr"%string, enc_string (m_ClientAddr m))]
         [JStr (bs_of (m_NodeID m)); JStr (bs_of (m_RaftAddr m)); JStr (bs_of (m_ClientAddr m))]).

Lemma dec_member_json m : dec_member (member_json m) = Some m.
Proof.
  unfold dec_member, member_json. cbn [members_of dec_members]. unfold set_member. eval_fields.
  cbn. rewrite !str_of_bs. by destruct m.
Qed.

Lemma reads_member d m : d < maxNestingDepth -> member_ok m -> reads d (marshal_member m) (member_json m).
Proof.
  intros Hd (H1 & H2 & H3). apply reads_object; [done| |done|].
  - by repeat constructor.
  - repeat (apply List.Forall2_cons; [by apply reads_enc_string|]). constructor.
Qed.

Lemma Restore_Snapshot f : text_ok f -> Restore (Snapshot f) = Some f.
Proof.
  intros (F1 & F2 & F3). unfold Restore, Snapshot.
  set (fields := [("v"%string, format_int 2); _; _; _]).
  set (vals := [JNum (format_int 2); map_json marshal_member member_json (members f);
                map_json enc_string (fun s => JStr (bs_of s)) (kmap int_key (shardLeaders f));
                JNum (format_int (shardCount f))]).
  assert (Forall (fun f => utf8_ok f.1) fields) as Hn by by repeat constructor.
  assert (Forall2 (fun f v => reads 1 f.2 v) fields vals) as Hv.
  { constructor; [apply reads_int|]. constructor; [|constructor; [|constructor; [apply reads_int|constructor]]].
    - apply reads_map; [unfold maxNestingDepth; lia|]. intros k m Em. destruct (F1 _ _ Em). split; [done|].
      apply reads_member; [unfold maxNestingDepth; lia|done].
    - apply reads_map; [unfold maxNestingDepth; lia|].
      intros k n En. apply lookup_kmap_Some in En as (s & -> & Es); [|apply _].
      split; [apply int_key_utf8|]. apply reads_enc_string. apply (F2 _ _ Es). }
  rewrite !(unmarshal_object _ _ fields vals) by done.
  subst fields vals. cbn [members_of dec_members]. unfold set_probe, set_payload. eval_fields.
  change (dec_int (JNum (format_int 2)) 0) with (Some 2).
  rewrite decide_True by done. cbn [mbind option_bind p_Version p_Members p_ShardLeaders p_ShardCount].
  change (dec_int (JNum (format_int 2)) 0) with (Some 2).
  cbn [mbind option_bind p_Version p_Members p_ShardLeaders p_ShardCount].
  pose proof (dec_map_roundtrip marshal_member member_json id string_key dec_member (members f)) as HM.
  rewrite kmap_id in HM. rewrite HM.
  2: { intros k m _. split; [unfold string_key; by rewrite str_of_bs|apply dec_member_json]. }
  cbn [mbind option_bind p_Version p_Members p_ShardLeaders p_ShardCount].
  rewrite (dec_map_roundtrip enc_string (fun s => JStr (bs_of s)) int_key).
  2: { intros s n E. split; [|cbn; by rewrite str_of_bs]. unfold int_key. rewrite bs_of_str.
       apply parse_uint_format. apply (F2 _ _ E). }
  cbn [mbind option_bind p_Version p_Members p_ShardLeaders p_ShardCount dec_uint32].
  rewrite parse_uint_format by done. cbn. by destruct f.
Qed.

Lemma omit_string_read d name s : utf8_ok s ->
  Forall2 (fun f v => reads d f.2 v) (omit_string name s) (if decide (s = "") then [] else [JStr (bs_of s)]).
Proof. intros. unfold omit_string. case_decide; constructor; [by apply reads_enc_string|constructor]. Qed.

Lemma omit_string_names name s : utf8_ok name -> Forall (fun f => utf8_ok f.1) (omit_string name s).
Proof. intros. unfold omit_string. case_decide; by repeat constructor. Qed.

(** A command that was submitted is the command the state machine executes. *)
Lemma Apply_marshal c f : command_ok c -> Apply (marshal_command c) f = apply_command c f.
Proof.
  intros (H0 & H1 & H2 & H3 & H4). unfold Apply, marshal_command.
  set (str s := if decide (s = "") then [] else [JStr (bs_of s)]).
  rewrite (unmarshal_object _ _ _ ([JStr (bs_of (c_Op c))] ++ str (c_NodeID c) ++ str (c_Addr c) ++
    str (c_ClientAddr c) ++ (if c_Shard c =? 0 then [] else [JNum (format_int (c_Shard c))]))); subst str.
  - unfold omit_string.
    destruct (decide (c_NodeID c = "")) as [E1|], (decide (c_Addr c = "")) as [E2|],
      (decide (c_ClientAddr c = "")) as [E3|], (c_Shard c =? 0) eqn:E4; go_bool;
      cbn [app members_of dec_members]; unfold set_command; eval_fields; cbn [dec_string dec_uint32 mbind option_bind];
      rewrite ?parse_uint_format by lia; cbn [mbind option_bind]; rewrite ?str_of_bs;
      cbn [c_Op c_NodeID c_Addr c_ClientAddr c_Shard zeroCommand]; f_equal;
      destruct c; cbn [c_Op c_NodeID c_Addr c_ClientAddr c_Shard] in *; by subst.
  - done.
  - constructor; [done|]. repeat (apply Forall_app; split); try by apply omit_string_names.
    destruct (c_Shard c =? 0); by repeat constructor.
  - constructor; [by apply reads_enc_string|].
    repeat (apply Forall2_app; [by apply omit_string_read|]).
    destruct (c_Shard c =? 0); [constructor|]. constructor; [apply reads_int|constructor].
Qed.

(** ** The nodes of a cluster

    A node applies the entries of the committed log in order, from an empty state
    or from a snapshot of a node at the same index. *)
Inductive replica (log : list bytes) : nat -> FSM -> Prop :=
| replica_start : replica log 0 NewFSM
| replica_apply i e f : replica log i f -> log !! i = Some e -> replica log (S i) (Apply e f).1
| replica_install i f f' : replica log i f -> Restore (Snapshot f) = Some f' -> replica log i f'.

Lemma apply_log_snoc es e f : apply_log (es ++ [e]) f = (Apply e (apply_log es f)).1.
Proof. unfold apply_log. by rewrite foldl_app. Qed.

Lemma replica_state log i f : replica log i f -> f = apply_log (take i log) NewFSM.
Proof.
  induction 1 as [|i e f _ IH E|i f f' _ IH E].
  - done.
  - by rewrite (take_S_r _ _ _ E), apply_log_snoc, <- IH.
  - rewrite Restore_Snapshot in E; [by simplify_eq|]. rewrite IH. apply apply_log_text_ok, NewFSM_text_ok.
Qed.

(** C9. The nodes agree on the metadata.  Whatever bytes are committed to the log,
    and however often nodes were restarted from or sent snapshots on the way, two
    nodes that applied the same number of entries hold the same members, shard
    leaders and shard count, and a snapshot of that state can always be restored. *)
Theorem metadata_replicas_agree log i f f' :
  replica log i f -> replica log i f' -> f = f' /\ Restore (Snapshot f) = Some f'.
Proof.
  intros H H'. apply replica_state in H as Hf, H' as Hf'. rewrite Hf, Hf'. split; [done|].
  apply Restore_Snapshot, apply_log_text_ok, NewFSM_text_ok.
Qed.

(** Members are stored under their ids, and neither they nor leaders are nameless. *)
Definition names_ok (f : FSM) : Prop :=
  map_Forall (fun k m => m_NodeID m = k /\ k <> "") (members f) /\
  map_Forall (fun s n => 0 <= s < 2 ^ 32 /\ n <> "") (shardLeaders f).

Lemma apply_command_names c f : 0 <= c_Shard c < 2 ^ 32 -> names_ok f -> names_ok (apply_command c f).1.
Proof.
  intros Hs [F1 F2]. unfold apply_command.
  repeat case_decide; split; cbn [fst members shardLeaders]; try done; try by apply map_Forall_insert_2.
  - by apply map_Forall_delete.
  - intros s n [E _]%map_lookup_filter_Some. by apply (F2 s n).
Qed.

(** C37. The shape of the metadata on every node: a member is stored under its own
    non-empty id, every shard has at most one leader, a named one, and shard
    numbers and the shard count are 32-bit; this holds for whatever bytes were
    committed, malformed and unknown commands included. *)
Theorem metadata_well_formed log i f :
  replica log i f -> names_ok f /\ text_ok f.
Proof.
  intros ->%replica_state. split; [|apply apply_log_text_ok, NewFSM_text_ok].
  generalize (take i log). intros es. induction es as [|e es IH] using rev_ind.
  { split; apply map_Forall_empty. }
  rewrite apply_log_snoc. unfold Apply. destruct (unmarshal _ _ _) as [c|] eqn:E; [|done].
  apply apply_command_names; [|done]. apply (decoded_command_ok _ _ E).
Qed.

(** ** Examples *)

Definition demo_log : list bytes :=
  [marshal_command (mkCommand OpRegisterMember "n1" "h1:7001" "h1:9001" 0);
   bs_of "garbage";
   marshal_command (mkCommand OpSetShardCount "" "" "" 32);
   marshal_command (mkCommand OpSetShardLeader "n1" "" "" 3)].

Definition demo_fsm : FSM :=
  mkFSM {[ "n1"%string := mkMember "n1" "h1:7001" "h1:9001" ]} {[ 3 := "n1"%string ]} 32.

Lemma demo_replica : replica demo_log 4 demo_fsm.
Proof.
  replace demo_fsm with (apply_log demo_log NewFSM) by by vm_compute.
  apply (replica_apply demo_log 3 _ (apply_log (take 3 demo_log) NewFSM)); [|done].
  apply (replica_apply demo_log 2 _ (apply_log (take 2 demo_log) NewFSM)); [|done].
  apply (replica_apply demo_log 1 _ (apply_log (take 1 demo_log) NewFSM)); [|done].
  apply (replica_apply demo_log 0 _ NewFSM); [constructor|done].
Qed.

Lemma metadata_replicas_agree_witness :
  exists f, Restore (Snapshot demo_fsm) = Some f /\ demo_fsm = f.
Proof.
  exists demo_fsm. split; [|done].
  exact (proj2 (metadata_replicas_agree demo_log 4 demo_fsm demo_fsm demo_replica demo_replica)).
Defined.

Lemma metadata_well_formed_witness : names_ok demo_fsm /\ text_ok demo_fsm.
Proof. exact (metadata_well_formed demo_log 4 demo_fsm demo_replica). Defined.

End Fsm.
