(* ===== verification/HashRing.v ===== *)
(** * The consistent hash ring (internal/cluster/ring/ring.go)

    [Module Ring] models the ring of virtual nodes: the sorted positions, the map
    from positions to nodes, and the look-up by binary search, as [sort.Search]
    runs it.  The theorems: the search finds the first position clockwise from a
    shard's hash (a reference definition by distance on the circle), and adding or
    removing a node moves only the shards that node gains or loses. *)

From stdpp Require Import sorting.
From S2P Require Import Prelude GoLib.

Module Ring.
Local Open Scope Z_scope.

(** ** Go's [sort.Search]: the least index in [i, j) where [f] holds, or [j] *)

Fixpoint search (fuel : nat) (f : Z -> bool) (i j : Z) : Z :=
  match fuel with
  | O => i
  | S fuel =>
      if i <? j then
        let h := (i + j) / 2 in
        if f h then search fuel f i h else search fuel f (h + 1) j
      else i
  end.

(** Every iteration shortens the interval, so [n] iterations are enough. *)
Definition sort_search (n : Z) (f : Z -> bool) : Z := search (Z.to_nat n) f 0 n.

(** ** The ring *)

Record Ring := mkRing {
  vnodes : Z;
  positions : list Z;
  owners : gmap Z string;
  nodes : gset string
}.

Definition New (vnodes : Z) : Ring :=
  mkRing (if vnodes <=? 0 then 128 else vnodes) [] ∅ ∅.

(** The seed's four bytes, little-endian, then the domain. *)
Definition hashVNode (domain : string) (seed : Z) : Z :=
  fnv1a32 (rev (be_bytes 4 seed) ++ bs_of domain).

Definition rebuildPositions (r : Ring) : Ring :=
  {| r with positions := merge_sort (≤) (elements (dom (owners r))) |}.

(** The loop over the virtual nodes of [nodeID]. *)
Definition claim_positions (nodeID : string) (n : Z) (o : gmap Z string) : gmap Z string :=
  foldl (fun o i => <[hashVNode nodeID (u32 i) := nodeID]> o) o (seqZ 0 n).

Definition AddNode (nodeID : string) (r : Ring) : Ring :=
  if decide (nodeID ∈ nodes r) then r
  else rebuildPositions {| r with nodes := {[nodeID]} ∪ nodes r;
                                  owners := claim_positions nodeID (vnodes r) (owners r) |}.

Definition RemoveNode (nodeID : string) (r : Ring) : Ring :=
  if decide (nodeID ∈ nodes r) then
    rebuildPositions {| r with nodes := nodes r ∖ {[nodeID]};
                               owners := filter (fun po => po.2 <> nodeID) (owners r) |}
  else r.

Definition LeaderFor (shardID : Z) (r : Ring) : string :=
  if decide (positions r = []) then ""
  else
    let key := hashVNode "shard" shardID in
    let idx := sort_search (zlen (positions r)) (fun i => key <=? default 0 (positions r !! Z.to_nat i)) in
    let idx := if idx =? zlen (positions r) then 0 else idx in
    default "" (p ← positions r !! Z.to_nat idx; owners r !! p).

Definition Members (r : Ring) : list string := sort_strings (elements (nodes r)).

(** ** Binary search *)

(** [f] is false up to some index and true from it on. *)
Definition monotone (f : Z -> bool) (n : Z) : Prop :=
  forall a b, 0 <= a <= b -> b < n -> f a = true -> f b = true.

Lemma search_spec fuel f i j n :
  monotone f n -> 0 <= i <= j -> j <= n -> j - i <= Z.of_nat fuel ->
  (forall a, 0 <= a < i -> f a = false) -> (forall a, j <= a < n -> f a = true) ->
  let k := search fuel f i j in
  i <= k <= j /\ (forall a, 0 <= a < k -> f a = false) /\ (forall a, k <= a < n -> f a = true).
Proof.
  intros Hm. revert i j. induction fuel as [|fuel IH]; intros i j Hij Hjn Hf Hlo Hhi; cbn [search].
  { assert (i = j) as -> by lia. split_and!; [lia..|done|done]. }
  destruct (i <? j) eqn:E; go_bool; [|assert (i = j) as -> by lia; split_and!; [lia..|done|done]].
  set (h := (i + j) / 2). assert (i <= h < j) by (subst h; divmod).
  destruct (f h) eqn:Eh.
  - destruct (IH i h) as (H1 & H2 & H3); [lia..|done| |].
    + intros a Ha. destruct (decide (j <= a)); [apply Hhi; lia|]. apply (Hm h a); [lia..|done].
    + split_and!; [lia..|done|done].
  - destruct (IH (h + 1) j) as (H1 & H2 & H3); [lia..| |done|].
    + intros a Ha. destruct (f a) eqn:Ea; [|done]. rewrite (Hm a h) in Eh; [done|lia..|done].
    + split_and!; [lia..|done|done].
Qed.

Lemma sort_search_spec n f : 0 <= n -> monotone f n ->
  0 <= sort_search n f <= n /\
  (forall a, 0 <= a < sort_search n f -> f a = false) /\ (forall a, sort_search n f <= a < n -> f a = true).
Proof. intros Hn Hm. apply (search_spec _ f 0 n n); done || lia. Qed.

(** ** The circle *)

(** The way from [key] clockwise to [p]. *)
Definition dist (key p : Z) : Z := (p - key) mod 2 ^ 32.

(** The reference: the position of [o] that is first on the way from [key]. *)
Definition clockwise (o : gmap Z string) (key p : Z) : Prop :=
  p ∈ dom o /\ forall q, q ∈ dom o -> dist key p <= dist key q.

Definition in_circle (p : Z) : Prop := 0 <= p < 2 ^ 32.

Definition ring_ok (r : Ring) : Prop :=
  0 < vnodes r /\
  positions r = merge_sort (≤) (elements (dom (owners r))) /\
  map_Forall (fun p n => in_circle p /\ n ∈ nodes r) (owners r).

Lemma dist_cases key p : in_circle key -> in_circle p ->
  dist key p = if key <=? p then p - key else p - key + 2 ^ 32.
Proof.
  unfold in_circle, dist. intros Hk Hp. destruct (key <=? p) eqn:E; go_bool.
  - rewrite Z.mod_small; lia.
  - rewrite <- (Z.mod_add _ 1) by lia. rewrite Z.mod_small; lia.
Qed.

Lemma clockwise_unique o key p q :
  in_circle key -> map_Forall (fun p _ => in_circle p) o -> clockwise o key p -> clockwise o key q -> p = q.
Proof.
  intros Hk Ho [Hp Hp'] [Hq Hq'].
  assert (in_circle p /\ in_circle q) as [Cp Cq].
  { apply elem_of_dom in Hp as [? Hp], Hq as [? Hq]. split; [apply (Ho _ _ Hp)|apply (Ho _ _ Hq)]. }
  assert (dist key p = dist key q) as E by (specialize (Hp' q Hq); specialize (Hq' p Hp); lia).
  rewrite !dist_cases in E by done. unfold in_circle in *.
  destruct (key <=? p) eqn:?, (key <=? q) eqn:?; go_bool; lia.
Qed.

(** More positions bring the first one nearer; it stays when it is still there. *)
Lemma clockwise_sub o o' key p : dom o ⊆ dom o' -> clockwise o' key p -> p ∈ dom o -> clockwise o key p.
Proof. intros Hs [_ Hp] Hin. split; [done|]. intros q Hq. by apply Hp, Hs. Qed.

Lemma sorted_lookup_le (l : list Z) i j x y :
  StronglySorted (≤) l -> l !! i = Some x -> l !! j = Some y -> (i <= j)%nat -> x <= y.
Proof.
  intros Hs. revert i j. induction Hs as [|z l Hs IH HF]; intros i j Hi Hj Hij; [done|].
  destruct i as [|i], j as [|j]; simplify_eq/=; [lia| |lia|].
  - rewrite list.Forall_forall in HF. apply HF. by eapply list_elem_of_lookup_2.
  - eapply IH; [done..|lia].
Qed.

Lemma hash_in_circle d s : in_circle (hashVNode d s).
Proof. apply fnv1a32_range. Qed.

Lemma LeaderFor_clockwise r s : ring_ok r -> positions r <> [] ->
  exists p, clockwise (owners r) (hashVNode "shard" s) p /\ owners r !! p = Some (LeaderFor s r).
Proof.
  intros (_ & Hpos & Ho) Hne. unfold LeaderFor. rewrite decide_False by done.
  set (key := hashVNode "shard" s). assert (in_circle key) as Hk by apply hash_in_circle.
  set (ps := positions r) in *. set (f := fun i => key <=? default 0 (ps !! Z.to_nat i)).
  assert (StronglySorted (≤) ps) as Hs by (rewrite Hpos; apply (StronglySorted_merge_sort _)).
  assert (forall q, q ∈ dom (owners r) <-> q ∈ ps) as Hd.
  { intros q. rewrite Hpos, merge_sort_Permutation. by rewrite elem_of_elements. }
  assert (forall q, q ∈ ps -> in_circle q) as Hc.
  { intros q [n En]%Hd%elem_of_dom. by destruct (Ho _ _ En). }
  assert (monotone f (zlen ps)) as Hm.
  { intros a b Hab Hb. unfold f. intros Ha. go_bool. apply Z.leb_le.
    destruct (lookup_lt_is_Some_2 ps (Z.to_nat a)) as [x Ex]; [lia|].
    destruct (lookup_lt_is_Some_2 ps (Z.to_nat b)) as [y Ey]; [lia|]. rewrite Ex in Ha. rewrite Ey. cbn in *.
    pose proof (sorted_lookup_le ps _ _ x y Hs Ex Ey ltac:(lia)). lia. }
  destruct (sort_search_spec (zlen ps) f) as (Hr & Hlo & Hhi); [lia|done|].
  set (k := sort_search (zlen ps) f) in *.
  set (idx := if k =? zlen ps then 0 else k).
  assert (0 < zlen ps) as Hlen by (destruct ps; simpl in *; [done|lia]).
  assert (0 <= idx < zlen ps) as Hidx by (unfold idx; destruct (k =? zlen ps) eqn:E; go_bool; lia).
  destruct (lookup_lt_is_Some_2 ps (Z.to_nat idx)) as [p Ep]; [lia|].
  exists p. fold idx. rewrite Ep. cbn [mbind option_bind].
  assert (p ∈ ps) as Hp by by eapply list_elem_of_lookup_2.
  apply Hd in Hp as Hp'. apply elem_of_dom in Hp' as [n En]. rewrite En. split; [|done].
  split; [by apply Hd|]. intros q Hq. apply Hd in Hq. rewrite !dist_cases by auto.
  apply list_elem_of_lookup in Hq as [j Ej]. pose proof (lookup_lt_Some _ _ _ Ej) as Hj.
  pose proof (Hc p Hp) as Cp. pose proof (Hc q ltac:(by eapply list_elem_of_lookup_2)) as Cq. unfold in_circle in *.
  assert (f (Z.of_nat j) = (key <=? q)) as Fj by (unfold f; by rewrite Nat2Z.id, Ej).
  assert (f idx = (key <=? p)) as Fp by (unfold f; by rewrite Ep).
  unfold idx in *. destruct (k =? zlen ps) eqn:E; go_bool.
  - rewrite <- Fj, <- Fp, !Hlo by lia.
    pose proof (sorted_lookup_le ps _ _ p q Hs Ep Ej ltac:(lia)). lia.
  - rewrite <- Fp, (Hhi k) by lia. destruct (key <=? q) eqn:Eq; go_bool; [|lia].
    assert (k <= Z.of_nat j) by (destruct (decide (k <= Z.of_nat j)); [done|]; rewrite Hlo in Fj by lia; lia).
    pose proof (sorted_lookup_le ps _ _ p q Hs Ep Ej ltac:(lia)). lia.
Qed.

(** ** The operations keep the ring in order *)

Lemma claim_positions_lookup n v o p :
  claim_positions n v o !! p = if decide (Exists (fun i => p = hashVNode n (u32 i)) (seqZ 0 v)) then Some n else o !! p.
Proof.
  unfold claim_positions. generalize (seqZ 0 v) as l. intros l. revert o.
  induction l as [|i l IH]; intros o; cbn [foldl].
  { rewrite decide_False; [done|]. by intros H%Exists_nil. }
  rewrite IH. destruct (decide (Exists _ l)) as [HE|HE].
  - rewrite decide_True; [done|]. by apply Exists_cons_tl.
  - destruct (decide (p = hashVNode n (u32 i))) as [->|Hne].
    + rewrite lookup_insert_eq, decide_True; [done|]. by apply Exists_cons_hd.
    + rewrite lookup_insert_ne by done. rewrite decide_False; [done|]. by intros [?|?]%Exists_cons.
Qed.

Inductive reachable (v : Z) : Ring -> Prop :=
| reach_new : reachable v (New v)
| reach_add n r : reachable v r -> reachable v (AddNode n r)
| reach_remove n r : reachable v r -> reachable v (RemoveNode n r).

Lemma AddNode_ok n r : ring_ok r -> ring_ok (AddNode n r).
Proof.
  intros (Hv & Hp & Ho). unfold AddNode. case_decide as Hn; [done|]. split_and!; [done..|].
  intros p x. cbn [rebuildPositions owners nodes]. rewrite claim_positions_lookup.
  case_decide as HE; intros Hx; simplify_eq.
  - apply list.Exists_exists in HE as (i & _ & ->). split; [apply hash_in_circle|set_solver].
  - destruct (Ho _ _ Hx). split; [done|set_solver].
Qed.

Lemma RemoveNode_ok n r : ring_ok r -> ring_ok (RemoveNode n r).
Proof.
  intros (Hv & Hp & Ho). unfold RemoveNode. case_decide as Hn; [|done]. split_and!; [done..|].
  intros p x [Hx Hne]%map_lookup_filter_Some. cbn in *. destruct (Ho _ _ Hx). split; [done|set_solver].
Qed.

Lemma reachable_ok v r : reachable v r -> ring_ok r.
Proof.
  induction 1; [|by apply AddNode_ok|by apply RemoveNode_ok].
  unfold New. split_and!; cbn [vnodes positions owners]; [destruct (v <=? 0) eqn:E; go_bool; lia|done|apply map_Forall_empty].
Qed.

Lemma positions_nil r : ring_ok r -> positions r = [] <-> owners r = ∅.
Proof.
  intros (_ & Hp & _). rewrite Hp. split.
  - intros E. apply dom_empty_inv_L, leibniz_equiv, elements_empty_inv, Permutation_nil_r.
    rewrite <- E. symmetry. apply merge_sort_Permutation.
  - intros ->. by rewrite dom_empty_L, elements_empty.
Qed.

(** The leader by the reference definition. *)
Lemma LeaderFor_spec r s p : ring_ok r -> clockwise (owners r) (hashVNode "shard" s) p ->
  owners r !! p = Some (LeaderFor s r).
Proof.
  intros Hr Hp. destruct (decide (positions r = [])) as [E|E].
  { apply positions_nil in E; [|done]. destruct Hp as [Hp _]. rewrite E, dom_empty in Hp. by apply elem_of_empty in Hp. }
  destruct (LeaderFor_clockwise r s Hr E) as (q & Hq & Eq).
  rewrite (clockwise_unique (owners r) (hashVNode "shard" s) p q); [done|apply hash_in_circle| |done|done].
  destruct Hr as (_ & _ & Ho). eapply map_Forall_impl; [exact Ho|]. by intros ? ? [].
Qed.

Lemma LeaderFor_empty r s : positions r = [] -> LeaderFor s r = ""%string.
Proof. intros E. unfold LeaderFor. by rewrite decide_True. Qed.

(** C24. The ring's binary search finds the owner the ring promises: on every ring
    built by adding and removing nodes, [LeaderFor] terminates with the owner of
    the virtual node that is first clockwise from the shard's hash, wrapping
    around at 2^32, and that owner is a registered node; without virtual nodes it
    is the empty name. *)
Theorem ring_leader_is_clockwise v r s :
  reachable v r ->
  (positions r = [] /\ LeaderFor s r = ""%string) \/
  (exists p, clockwise (owners r) (hashVNode "shard" s) p /\ owners r !! p = Some (LeaderFor s r) /\
     LeaderFor s r ∈ nodes r).
Proof.
  intros Hr%reachable_ok. destruct (decide (positions r = [])) as [E|E]; [left; auto using LeaderFor_empty|].
  right. destruct (LeaderFor_clockwise r s Hr E) as (p & Hp & Ep). exists p. split_and!; [done..|].
  destruct Hr as (_ & _ & Ho). by destruct (Ho _ _ Ep).
Qed.

(** Membership changes move few shards: when a node joins, a shard keeps its
    leader or moves to the new node; when a node leaves, only the shards it led
    move.  Hash collisions between virtual nodes included. *)
Theorem ring_minimal_movement v r n s :
  reachable v r ->
  (LeaderFor s (AddNode n r) = LeaderFor s r \/ LeaderFor s (AddNode n r) = n) /\
  (LeaderFor s r <> n -> LeaderFor s (RemoveNode n r) = LeaderFor s r).
Proof.
  intros Hr%reachable_ok. set (key := hashVNode "shard" s). split.
  - pose proof (AddNode_ok n r Hr) as Hr'. unfold AddNode in *. case_decide as Hn; [by left|].
    set (r' := rebuildPositions _) in *. destruct (decide (positions r' = [])) as [E|E].
    { left. rewrite (LeaderFor_empty r' s E). symmetry. apply LeaderFor_empty. apply positions_nil; [done|].
      apply positions_nil in E; [|done]. apply map_empty. intros p. apply (f_equal (.!! p)) in E.
      subst r'. cbn [rebuildPositions owners] in E. rewrite claim_positions_lookup, lookup_empty in E. by case_decide. }
    destruct (LeaderFor_clockwise r' s Hr' E) as (p & Hp & Ep).
    pose proof Ep as Ep'. subst r'. cbn [rebuildPositions owners] in Ep'. rewrite claim_positions_lookup in Ep'.
    case_decide; [right; congruence|]. left.
    assert (clockwise (owners r) key p) as Hcl.
    { eapply clockwise_sub; [|exact Hp|by eapply elem_of_dom_2].
      intros q [x Hq]%elem_of_dom. apply elem_of_dom. cbn. rewrite claim_positions_lookup. case_decide; by eexists. }
    apply (LeaderFor_spec r s p Hr) in Hcl. congruence.
  - intros Hne. pose proof (RemoveNode_ok n r Hr) as Hr'. unfold RemoveNode in *. case_decide as Hn; [|done].
    set (r' := rebuildPositions _) in *.
    assert (dom (owners r') ⊆ dom (owners r)) as Hs.
    { intros q [x [Hq _]%map_lookup_filter_Some]%elem_of_dom. by eapply elem_of_dom_2. }
    destruct (decide (positions r = [])) as [E|E].
    { rewrite (LeaderFor_empty r s E). apply LeaderFor_empty. apply positions_nil in E; [|done].
      apply positions_nil; [done|]. subst r'. cbn. rewrite E. apply map_filter_empty. }
    destruct (LeaderFor_clockwise r s Hr E) as (p & Hp & Ep).
    assert (owners r' !! p = Some (LeaderFor s r)) as Ep' by by apply map_lookup_filter_Some.
    apply LeaderFor_spec with (s := s) (p := p) in Hr'; [congruence|].
    eapply clockwise_sub; [exact Hs|exact Hp|by eapply elem_of_dom_2].
Qed.

Definition demo_ring : Ring := RemoveNode "n3" (AddNode "n2" (AddNode "n3" (AddNode "n1" (New 4)))).

Lemma demo_ring_reachable : reachable 4 demo_ring.
Proof. repeat constructor. Qed.

Lemma ring_leader_is_clockwise_witness :
  (positions demo_ring = [] /\ LeaderFor 7 demo_ring = ""%string) \/
  (exists p, clockwise (owners demo_ring) (hashVNode "shard" 7) p /\ owners demo_ring !! p = Some (LeaderFor 7 demo_ring) /\
     LeaderFor 7 demo_ring ∈ nodes demo_ring).
Proof. exact (ring_leader_is_clockwise 4 demo_ring 7 demo_ring_reachable). Defined.

Lemma ring_minimal_movement_witness :
  LeaderFor 7 demo_ring <> "n1"%string /\ LeaderFor 7 (RemoveNode "n1" demo_ring) = LeaderFor 7 demo_ring.
Proof.
  assert (LeaderFor 7 demo_ring <> "n1"%string) as H by by vm_compute.
  split; [exact H|]. exact (proj2 (ring_minimal_movement 4 demo_ring "n1" 7 demo_ring_reachable) H).
Defined.

End Ring.
