(* ===== verification/Routing.v ===== *)
(** * Shard assignment and session routing
    (internal/cluster/membership, internal/cluster/assigner, internal/cluster/router)

    [Module Route] models who leads a shard and which node serves a session: the
    liveness view of the gossip layer, the assigner's [Plan] that gives every
    shard without a live leader a new one, and the router's [RouteSession].
    Gossip (hashicorp/memberlist) is not part of the sources: what it reports is
    the list of members it holds, an argument.  The assigner and the router only
    use the interface [Liveness]; the membership view discharges its law.

    The theorems: after a [Plan] every shard has a live leader, healthy shards are
    left alone, the moved ones are spread evenly, and then one live node is the only
    one that serves a session, among the nodes that have applied the plan, whatever
    each of them sees of the others. *)

From S2P Require Import Prelude GoLib GoJson GoJsonMap Metadata.
Import Json JsonMap Fsm.

Module Route.
Local Open Scope Z_scope.

(** ** The gossip view (membership.go) *)

Record MemberInfo := mkMemberInfo { i_NodeID : string; i_Addr : string }.

(** [ml] is what [memberlist.Members] returns: names and addresses. *)
Record Membership := mkMembership { ml : list MemberInfo; dead : bool }.

Definition Alive (m : Membership) : list string := if dead m then [] else map i_NodeID (ml m).

Definition Member (nodeID : string) (m : Membership) : option MemberInfo :=
  if dead m then None else list_find (fun n => i_NodeID n = nodeID) (ml m) ≫= fun n => Some n.2.

(** [Shutdown] marks the view dead; leaving the gossip ring is the library's. *)
Definition Shutdown (m : Membership) : Membership := {| m with dead := true |}.

(** ** What the assigner and the router ask of it *)

Class Liveness (L : Type) := {
  IsAlive : L -> string -> bool;
  AliveMembers : L -> list string;
  alive_law : forall l n, IsAlive l n = true <-> n ∈ AliveMembers l
}.

(** cluster.go: [aliveAdapter]. *)
Definition adapter_IsAlive (m : Membership) (nodeID : string) : bool :=
  match Member nodeID m with Some _ => true | None => false end.

Lemma adapter_law m n : adapter_IsAlive m n = true <-> n ∈ Alive m.
Proof.
  unfold adapter_IsAlive, Member, Alive. destruct (dead m).
  { split; [done|]. by intros H%not_elem_of_nil. }
  destruct (list_find _ (ml m)) as [[i x]|] eqn:E; cbn.
  - split; [|done]. intros _. apply list_find_Some in E as (Ex & <- & _). apply list_elem_of_fmap.
    exists x. split; [done|]. by eapply list_elem_of_lookup_2.
  - split; [done|]. intros (x & -> & Hx)%list_elem_of_fmap.
    apply list_find_None in E. rewrite list.Forall_forall in E. by destruct (E x Hx).
Qed.

#[export] Instance membership_liveness : Liveness Membership :=
  {| IsAlive := adapter_IsAlive; AliveMembers := Alive; alive_law := adapter_law |}.

Section Cluster.
Context {L : Type} `{LV : !Liveness L}.

(** ** The assigner (assigner.go)

    [apply] is the [Applier]: it changes the state it acts on and reports whether
    the command was accepted. *)

Section Assigner.
Context {S : Type} (apply : Command -> S -> S * bool).

Fixpoint plan_loop (live : L) (alive : list string) (leaders : gmap Z string) (shards : list Z)
    (issued next : Z) (st : S) : S * Z :=
  match shards with
  | [] => (st, issued)
  | s :: shards =>
      let current := default "" (leaders !! s) in
      if negb (String.eqb current "") && IsAlive live current then
        plan_loop live alive leaders shards issued next st
      else
        let target := default "" (alive !! Z.to_nat (next mod zlen alive)) in
        let '(st, ok) := apply (mkCommand OpSetShardLeader target "" "" s) st in
        plan_loop live alive leaders shards (if ok : bool then issued + 1 else issued) (next + 1) st
  end.

Definition Plan (f : FSM) (live : L) (st : S) : S * Z :=
  let count := ShardCount f in
  if count =? 0 then (st, 0)
  else
    let alive := AliveMembers live in
    if decide (alive = []) then (st, 0)
    else plan_loop live (sort_strings alive) (AllShardLeaders f) (seqZ 0 count) 0 0 st.

(** One tick of [RunLoop]. *)
Definition run_tick (is_leader : bool) (f : FSM) (live : L) (st : S) : S :=
  if is_leader then (Plan f live st).1 else st.
End Assigner.

(** The applier of a Raft leader whose commands commit: cluster.go's
    [applierAdapter] marshals the command, metadata.go's [Apply] returns the state
    machine's error. *)
Definition commit (c : Command) (f : FSM) : FSM * bool :=
  let '(f, e) := Apply (marshal_command c) f in (f, match e with None => true | Some _ => false end).

(** ** The router (router.go) *)

Record Decision := mkDecision {
  ShardID : Z; LeaderNodeID : string; LeaderClientAddr : string; IsLocal : bool
}.

Definition SessionKey (tenant project sessionID : string) : string :=
  (TrimSpace tenant +:+ "/" +:+ TrimSpace project +:+ "/" +:+ TrimSpace sessionID)%string.

(** The loop over the bytes: xor, then multiply, at 32 bits. *)
Fixpoint fnv32a_loop (h : Z) (s : bytes) : Z :=
  match s with
  | [] => h
  | b :: s => fnv32a_loop (u32 (Z.lxor h (byte_val b) * 16777619)) s
  end.

Definition fnv32a (s : string) : Z := fnv32a_loop 2166136261 (bs_of s).

Definition hashToShard (key : string) (count : Z) : Z := fnv32a key mod count.

Definition RouteSession (selfNodeID : string) (f : FSM) (live : L) (tenant project sessionID : string) : Decision :=
  let count := ShardCount f in
  if count =? 0 then mkDecision 0 "" "" false
  else
    let shard := hashToShard (SessionKey tenant project sessionID) count in
    let leader := ShardLeader shard f in
    if String.eqb leader "" || negb (IsAlive live leader) then mkDecision shard "" "" false
    else if String.eqb leader selfNodeID then mkDecision shard leader "" true
    else
      match MemberAt leader f with
      | None => mkDecision shard leader "" false
      | Some m =>
          if String.eqb (m_ClientAddr m) "" then mkDecision shard leader "" false
          else mkDecision shard leader (m_ClientAddr m) false
      end.

(** cmd/broker/main.go: [routeAdapter]. *)
Definition route_adapter (selfNodeID : string) (f : FSM) (live : L) (tenant project session : string) :
    bool * Z * string :=
  let dec := RouteSession selfNodeID f live tenant project session in
  (IsLocal dec, ShardID dec, LeaderClientAddr dec).

End Cluster.

(** ** What a plan does *)

Section PlanFacts.
Context {L : Type} `{LV : !Liveness L}.

Definition needs_leader (live : L) (leaders : gmap Z string) (s : Z) : Prop :=
  let current := default "" (leaders !! s) in
  negb (String.eqb current "") && IsAlive live current = false.

#[export] Instance needs_leader_dec live leaders s : base.Decision (needs_leader live leaders s).
Proof. unfold needs_leader. apply _. Defined.

Definition target (alive : list string) (next : Z) : string := default "" (alive !! Z.to_nat (next mod zlen alive)).

(** The shards of a list, in order, to the members in turn. *)
Fixpoint assign (alive : list string) (ss : list Z) (next : Z) (m : gmap Z string) : gmap Z string :=
  match ss with
  | [] => m
  | s :: ss => assign alive ss (next + 1) (<[s := target alive next]> m)
  end.

(** Names a node can have: JSON carries them, and they are not empty. *)
Definition name_ok (n : string) : Prop := utf8_ok n /\ n <> "".

Lemma target_in alive next : alive <> [] -> 0 <= next -> target alive next ∈ alive.
Proof.
  intros Ha Hn. unfold target. assert (0 < zlen alive) by (destruct alive; simpl in *; [done|lia]).
  pose proof (Z.mod_pos_bound next (zlen alive) ltac:(done)).
  destruct (lookup_lt_is_Some_2 alive (Z.to_nat (next mod zlen alive))) as [n E]; [lia|]. rewrite E.
  by eapply list_elem_of_lookup_2.
Qed.

Lemma commit_leader n s f : name_ok n -> 0 <= s < 2 ^ 32 ->
  commit (mkCommand OpSetShardLeader n "" "" s) f = ({| f with shardLeaders := <[s := n]> (shardLeaders f) |}, true).
Proof.
  intros [Hu Hn] Hs. unfold commit. rewrite Apply_marshal by by unfold command_ok; cbn [c_Op c_NodeID c_Addr c_ClientAddr c_Shard].
  unfold apply_command. cbn [c_Op c_NodeID c_Shard]. by rewrite !decide_False, decide_True, decide_False by done.
Qed.

Lemma plan_loop_commit live alive leaders shards issued next f :
  alive <> [] -> Forall name_ok alive -> Forall (fun s => 0 <= s < 2 ^ 32) shards -> 0 <= next ->
  plan_loop commit live alive leaders shards issued next f =
    ({| f with shardLeaders := assign alive (filter (needs_leader live leaders) shards) next (shardLeaders f) |},
     issued + zlen (filter (needs_leader live leaders) shards)).
Proof.
  intros Ha Hnames Hs. revert issued next f. induction Hs as [|s shards Hs _ IH]; intros issued next f Hn; cbn [plan_loop].
  { cbn. destruct f. f_equal. lia. }
  rewrite filter_cons. destruct (decide (needs_leader live leaders s)) as [E|E].
  - unfold needs_leader in E. cbn zeta in E. rewrite E. fold (target alive next).
    rewrite commit_leader; [|by apply (proj1 (list.Forall_forall _ alive) Hnames), target_in|done].
    rewrite IH by lia. cbn [assign length shardLeaders members shardCount]. f_equal. lia.
  - unfold needs_leader in E. cbn zeta in E. apply not_false_is_true in E. rewrite E. by rewrite IH.
Qed.

Lemma assign_spec alive ss next m : NoDup ss ->
  (forall j s, ss !! j = Some s -> assign alive ss next m !! s = Some (target alive (next + Z.of_nat j))) /\
  (forall s, s ∉ ss -> assign alive ss next m !! s = m !! s).
Proof.
  intros Hd. revert next m. induction Hd as [|s ss Hs _ IH]; intros next m; cbn [assign]; [done|].
  destruct (IH (next + 1) (<[s := target alive next]> m)) as [H1 H2]. split.
  - intros [|j] s' E; simplify_eq/=.
    + rewrite H2, lookup_insert_eq by done. by rewrite Z.add_0_r.
    + rewrite (H1 j s' E). do 2 f_equal. lia.
  - intros s' [Hne Hn]%not_elem_of_cons. by rewrite H2, lookup_insert_ne.
Qed.

Lemma needs_leader_alive live leaders s :
  ~ needs_leader live leaders s <-> default "" (leaders !! s) <> "" /\ default "" (leaders !! s) ∈ AliveMembers live.
Proof.
  unfold needs_leader. cbn zeta. rewrite not_false_iff_true, andb_true_iff, negb_true_iff, alive_law.
  by rewrite String.eqb_neq.
Qed.

Lemma sort_strings_nil l : sort_strings l = [] -> l = [].
Proof. intros E. apply Permutation_nil_r. rewrite <- E. symmetry. apply sort_strings_perm. Qed.

(** The state after a plan whose commands commit. *)
Lemma Plan_commit f live :
  0 <= shardCount f < 2 ^ 32 -> AliveMembers live <> [] -> Forall name_ok (AliveMembers live) ->
  let moved := filter (needs_leader live (shardLeaders f)) (seqZ 0 (shardCount f)) in
  Plan commit f live f =
    ({| f with shardLeaders := assign (sort_strings (AliveMembers live)) moved 0 (shardLeaders f) |}, zlen moved).
Proof.
  intros Hc Ha Hn moved. unfold Plan, ShardCount, AllShardLeaders. destruct (shardCount f =? 0) eqn:E; go_bool.
  { subst moved. rewrite E. cbn. destruct f; cbn in *. by subst. }
  rewrite decide_False by done. rewrite plan_loop_commit; [done|..].
  - by intros ?%sort_strings_nil.
  - by rewrite sort_strings_perm.
  - apply list.Forall_forall. intros s Hs%elem_of_seqZ. lia.
  - done.
Qed.
End PlanFacts.

Section Theorems.
Context {L : Type} `{LV : !Liveness L}.

Lemma moved_NoDup live leaders n : NoDup (filter (needs_leader (L := L) live leaders) (seqZ 0 n)).
Proof. apply list.NoDup_filter, NoDup_seqZ. Qed.

Lemma ShardLeader_alive (live : L) f s : Forall name_ok (AliveMembers live) ->
  ShardLeader s f ∈ AliveMembers live <-> ~ needs_leader live (shardLeaders f) s.
Proof.
  intros Hn. rewrite needs_leader_alive. unfold ShardLeader. split; [|by intros []].
  intros Ha. split; [|done]. by destruct (proj1 (list.Forall_forall _ _) Hn _ Ha).
Qed.

(** The shards a plan moves, and where every shard is led afterwards. *)
Lemma Plan_leaders (live : L) f :
  text_ok f -> AliveMembers live <> [] -> Forall name_ok (AliveMembers live) ->
  let moved := filter (fun s => ShardLeader s f ∉ AliveMembers live) (seqZ 0 (shardCount f)) in
  let f' := {| f with shardLeaders := assign (sort_strings (AliveMembers live)) moved 0 (shardLeaders f) |} in
  Plan commit f live f = (f', zlen moved) /\
  (forall s, s ∈ moved -> ShardLeader s f' ∈ AliveMembers live) /\
  (forall s, s ∉ moved -> ShardLeader s f' = ShardLeader s f) /\
  (forall s, 0 <= s < shardCount f -> ShardLeader s f' ∈ AliveMembers live).
Proof.
  intros (_ & _ & Hc) Ha Hn moved f'. pose proof (Plan_commit f live Hc Ha Hn) as HP. cbn zeta in HP.
  assert (filter (needs_leader live (shardLeaders f)) (seqZ 0 (shardCount f)) = moved) as E.
  { apply list_filter_iff. intros s. rewrite ShardLeader_alive by done.
    destruct (decide (needs_leader live (shardLeaders f) s)); tauto. }
  rewrite E in HP.
  assert (NoDup moved) as Hd by (rewrite <- E; apply moved_NoDup).
  pose proof (assign_spec (sort_strings (AliveMembers live)) moved 0 (shardLeaders f) Hd) as [A1 A2].
  assert (forall s, s ∈ moved -> ShardLeader s f' ∈ AliveMembers live) as Hm.
  { intros s [j Ej]%list_elem_of_lookup. unfold ShardLeader. cbn [f' shardLeaders]. rewrite (A1 j s Ej). cbn [default].
    rewrite <- (sort_strings_perm (AliveMembers live)) at 2. apply target_in; [by intros ?%sort_strings_nil|lia]. }
  assert (forall s, s ∉ moved -> ShardLeader s f' = ShardLeader s f) as Hk.
  { intros s Hs'. unfold ShardLeader. cbn [f' shardLeaders]. by rewrite A2. }
  split_and!; [done..|]. intros s Hr. destruct (decide (s ∈ moved)) as [|Hs]; [by apply Hm|]. rewrite Hk by done.
  destruct (decide (ShardLeader s f ∈ AliveMembers live)) as [|Hl]; [done|]. destruct Hs.
  apply list_elem_of_filter. rewrite elem_of_seqZ. split; [done|lia].
Qed.

(** C21. A plan repairs the assignment.  With at least one live member and a Raft
    leader that commits the commands, after [Plan] every shard has a live leader; a
    shard whose leader was alive keeps it; the members and the shard count are
    unchanged; the number reported is that of the shards that had no live leader,
    and planning again changes nothing. *)
Theorem plan_gives_live_leaders (live : L) f :
  text_ok f -> AliveMembers live <> [] -> Forall name_ok (AliveMembers live) ->
  let '(f', issued) := Plan commit f live f in
  (forall s, 0 <= s < shardCount f -> ShardLeader s f' ∈ AliveMembers live) /\
  (forall s, ShardLeader s f ∈ AliveMembers live \/ shardCount f <= s -> ShardLeader s f' = ShardLeader s f) /\
  members f' = members f /\ shardCount f' = shardCount f /\
  issued = zlen (filter (fun s => ShardLeader s f ∉ AliveMembers live) (seqZ 0 (shardCount f))) /\
  Plan commit f' live f' = (f', 0).
Proof.
  intros Hf Ha Hn. destruct (Plan_leaders live f Hf Ha Hn) as (-> & _ & Hk & Hall).
  set (f' := {| f with shardLeaders := _ |}) in *. split_and!; try done.
  - intros s Hr. apply Hk. rewrite list_elem_of_filter, elem_of_seqZ. intros [H1 H2]. destruct Hr; [done|lia].
  - rewrite Plan_commit; [|apply Hf|done..]. cbn zeta.
    assert (filter (needs_leader live (shardLeaders f')) (seqZ 0 (shardCount f')) = []) as ->.
    { apply elem_of_nil_inv. intros s [H1 Hr%elem_of_seqZ]%list_elem_of_filter. revert H1.
      apply ShardLeader_alive; [done|]. apply Hall. cbn in Hr. lia. }
    by destruct f'.
Qed.

(** *** Counting the shards a member is given *)

Lemma filter_positions {A} (P : A -> Prop) (Q : Z -> Prop) `{!forall x, base.Decision (P x), !forall j, base.Decision (Q j)}
    (l : list A) start :
  (forall j x, l !! j = Some x -> P x <-> Q (start + Z.of_nat j)) ->
  length (filter P l) = length (filter Q (seqZ start (zlen l))).
Proof.
  revert start. induction l as [|x l IH]; intros start HPQ; [done|].
  rewrite seqZ_cons by (cbn [length]; lia). rewrite !filter_cons.
  assert (P x <-> Q start) as Hx by (rewrite (HPQ 0%nat x) by done; by rewrite Z.add_0_r).
  assert (length (filter P l) = length (filter Q (seqZ (Z.succ start) (Z.pred (zlen (x :: l)))))) as E.
  { rewrite (IH (Z.succ start)).
    - do 3 f_equal. cbn [length]. lia.
    - intros j y Ej. rewrite (HPQ (S j) y) by done. by replace (start + Z.of_nat (S j)) with (Z.succ start + Z.of_nat j) by lia. }
  destruct (decide (P x)), (decide (Q start)); try tauto; cbn [length]; by rewrite E.
Qed.

(** In [k] turns over [n] members, member [i] is served [k/n] or [k/n + 1] times. *)
Lemma count_mod n i k : 0 < n -> 0 <= i < n -> 0 <= k ->
  zlen (filter (fun j => j mod n = i) (seqZ 0 k)) = k / n + (if i <? k mod n then 1 else 0).
Proof.
  intros Hn Hi Hk. pattern k. apply natlike_ind; [|clear k Hk; intros k Hk IH|done].
  { rewrite Z.div_0_l, Z.mod_0_l by lia. by rewrite (proj2 (Z.ltb_ge i 0)) by lia. }
  rewrite <- Z.add_1_r. rewrite seqZ_app by lia. rewrite list.filter_app, length_app, Nat2Z.inj_add, IH.
  replace (filter (fun j => j mod n = i) (seqZ (0 + k) 1)) with (if decide (k mod n = i) then [k] else [])
    by (rewrite Z.add_0_l, seqZ_cons, seqZ_nil by lia; rewrite filter_cons; by case_decide).
  pose proof (Z.mod_pos_bound k n Hn) as Hm. pose proof (Z.div_mod k n ltac:(lia)) as Hd.
  destruct (decide (k mod n + 1 < n)).
  - rewrite <- (Z.div_unique (k + 1) n (k / n) (k mod n + 1)) by lia.
    rewrite <- (Z.mod_unique (k + 1) n (k / n) (k mod n + 1)) by lia.
    case_decide; destruct (i <? k mod n) eqn:E1, (i <? k mod n + 1) eqn:E2; go_bool; cbn [length]; lia.
  - rewrite <- (Z.div_unique (k + 1) n (k / n + 1) 0) by lia.
    rewrite <- (Z.mod_unique (k + 1) n (k / n + 1) 0) by lia.
    case_decide; destruct (i <? k mod n) eqn:E1, (i <? 0) eqn:E2; go_bool; cbn [length]; lia.
Qed.

Lemma target_mod alive i n j : NoDup alive -> alive !! i = Some n -> 0 <= j ->
  target alive j = n <-> j mod zlen alive = Z.of_nat i.
Proof.
  intros Hd Ei Hj. unfold target. pose proof (lookup_lt_Some _ _ _ Ei).
  pose proof (Z.mod_pos_bound j (zlen alive) ltac:(lia)) as Hm.
  destruct (lookup_lt_is_Some_2 alive (Z.to_nat (j mod zlen alive))) as [x Ex]; [lia|]. rewrite Ex. change (x = n <-> j mod zlen alive = Z.of_nat i).
  split; [intros ->|intros E].
  - pose proof (NoDup_lookup _ _ _ _ Hd Ei Ex). lia.
  - rewrite E, Nat2Z.id in Ex. by simplify_eq.
Qed.

(** A plan spreads the load: of the shards that had no live leader, every live
    member is given its share, rounded down or up to a whole shard. *)
Theorem plan_spreads_evenly (live : L) f n :
  text_ok f -> Forall name_ok (AliveMembers live) -> NoDup (AliveMembers live) -> n ∈ AliveMembers live ->
  let '(f', issued) := Plan commit f live f in
  let gained := filter (fun s => ShardLeader s f' = n /\ (ShardLeader s f ∉ AliveMembers live)) (seqZ 0 (shardCount f)) in
  let members := zlen (AliveMembers live) in
  issued / members <= zlen gained <= (issued + members - 1) / members.
Proof.
  intros Hf Hn Hd Hin. assert (AliveMembers live <> []) as Ha by (intros E; rewrite E in Hin; by apply not_elem_of_nil in Hin).
  destruct (Plan_leaders live f Hf Ha Hn) as (-> & _ & _ & _).
  set (moved := filter (fun s => ShardLeader s f ∉ AliveMembers live) _). set (f' := {| f with shardLeaders := _ |}).
  set (alive := sort_strings (AliveMembers live)). cbn zeta.
  assert (alive ≡ₚ AliveMembers live) as Hp by apply sort_strings_perm.
  rewrite <- (list_filter_filter (fun s => ShardLeader s f' = n)). fold moved. rewrite <- Hp. rewrite <- Hp in Hin, Hd.
  apply list_elem_of_lookup in Hin as [i Ei]. pose proof (lookup_lt_Some _ _ _ Ei) as Hi.
  assert (NoDup moved) as Hdm by (apply list.NoDup_filter, NoDup_seqZ).
  pose proof (assign_spec alive moved 0 (shardLeaders f) Hdm) as [A1 _].
  rewrite (filter_positions _ (fun j => j mod zlen alive = Z.of_nat i) moved 0).
  2: { intros j s Ej. unfold ShardLeader.
       change (shardLeaders f') with (assign alive moved 0 (shardLeaders f)). rewrite (A1 j s Ej).
       by apply target_mod; [..|lia]. }
  rewrite count_mod by lia. set (k := zlen moved). set (N := zlen alive) in *.
  assert (0 <= k) by lia. pose proof (Z.mod_pos_bound k N ltac:(lia)). pose proof (Z.div_mod k N ltac:(lia)).
  destruct (Z.of_nat i <? k mod N) eqn:E; go_bool; split; try lia; apply Z.div_le_lower_bound; lia.
Qed.

(** ** Routing *)

Lemma fnv32a_is_fnv1a s : fnv32a s = fnv1a32 (bs_of s).
Proof.
  unfold fnv32a, fnv1a32. change 2166136261 with fnv_offset32. generalize fnv_offset32.
  induction (bs_of s) as [|b l IH]; intros h; [done|]. cbn [fnv32a_loop fold_left]. apply IH.
Qed.

Lemma hashToShard_range key count : 0 < count -> 0 <= hashToShard key count < count.
Proof. intros. by apply Z.mod_pos_bound. Qed.

(** What the routers decide, whoever asks. *)
Lemma RouteSession_leader (live : L) f t p s self :
  let shard := hashToShard (SessionKey t p s) (shardCount f) in
  0 < shardCount f -> ShardLeader shard f <> "" -> ShardLeader shard f ∈ AliveMembers live ->
  let d := RouteSession self f live t p s in
  ShardID d = shard /\ LeaderNodeID d = ShardLeader shard f /\ (IsLocal d = true <-> self = ShardLeader shard f) /\
  (self <> ShardLeader shard f ->
   LeaderClientAddr d = default "" (m_ClientAddr <$> members f !! ShardLeader shard f)).
Proof.
  cbn zeta. intros Hc Hne Hl. unfold RouteSession, ShardCount, MemberAt. rewrite (proj2 (Z.eqb_neq _ _)) by lia.
  apply alive_law in Hl. rewrite Hl, (proj2 (String.eqb_neq _ _)) by done. cbn [orb negb].
  destruct (String.eqb _ self) eqn:E.
  - apply String.eqb_eq in E. by split_and!.
  - apply String.eqb_neq in E. destruct (members f !! _) as [m|]; [|by split_and!].
    destruct (String.eqb (m_ClientAddr m) "") eqn:Em; split_and!; try done.
    intros _. apply String.eqb_eq in Em. by cbn.
Qed.

(** A router that does not see the leader serves nothing and redirects nowhere. *)
Lemma RouteSession_unseen (live : L) f t p s self :
  let shard := hashToShard (SessionKey t p s) (shardCount f) in
  0 < shardCount f -> ShardLeader shard f ∉ AliveMembers live -> RouteSession self f live t p s = mkDecision shard "" "" false.
Proof.
  cbn zeta. intros Hc Hl. unfold RouteSession, ShardCount. rewrite (proj2 (Z.eqb_neq _ _)) by lia.
  destruct (IsAlive live _) eqn:E; [by apply alive_law in E|]. cbn [negb]. by rewrite orb_true_r.
Qed.

(** C22. Every session is served by one node, among those that have applied the same metadata.
    After a [Plan] that committed, made with the planner's view of who is alive, for every
    session there is one member alive in that view such that the router of any node, with
    whatever view of its own, on the planned metadata: claims the session for itself exactly
    if it is that member and sees itself alive; when it sees that member, names it as the
    leader and redirects to the client address that the member registered; and otherwise
    names no leader.  A node that has not applied the plan yet may still claim the session:
    [lagging_router_claims]. *)
Theorem one_owner_per_session (live : L) f t p s :
  text_ok f -> 0 < shardCount f -> AliveMembers live <> [] -> Forall name_ok (AliveMembers live) ->
  let f' := (Plan commit f live f).1 in
  exists n, n ∈ AliveMembers live /\
    forall self (view : L), let d := RouteSession self f' view t p s in
      (IsLocal d = true <-> self = n /\ n ∈ AliveMembers view) /\
      (n ∈ AliveMembers view -> LeaderNodeID d = n /\
         (self <> n -> LeaderClientAddr d = default "" (m_ClientAddr <$> members f !! n))) /\
      (n ∉ AliveMembers view -> LeaderNodeID d = "" /\ LeaderClientAddr d = "").
Proof.
  intros Hf Hc Ha Hn. destruct (Plan_leaders live f Hf Ha Hn) as (-> & _ & _ & Hall).
  set (f' := {| f with shardLeaders := _ |}) in *. cbn [fst].
  set (shard := hashToShard (SessionKey t p s) (shardCount f')).
  assert (ShardLeader shard f' ∈ AliveMembers live) as HL by by apply Hall, hashToShard_range.
  assert (ShardLeader shard f' <> "") as Hne by by destruct (proj1 (list.Forall_forall _ _) Hn _ HL).
  exists (ShardLeader shard f'). split; [done|]. intros self view. cbn zeta.
  destruct (decide (ShardLeader shard f' ∈ AliveMembers view)) as [Hv|Hv].
  - destruct (RouteSession_leader view f' t p s self) as (_ & E1 & E2 & E3); [done..|]. split_and!; try done.
    rewrite E2. naive_solver.
  - rewrite RouteSession_unseen by done. cbn. split_and!; try done. split; [done|]. by intros [_ ?].
Qed.
End Theorems.

(** ** Examples *)

Definition demo_view : Membership :=
  mkMembership [mkMemberInfo "n2" "h2:7946"; mkMemberInfo "n1" "h1:7946"] false.

Definition demo_state : FSM :=
  mkFSM {[ "n1"%string := mkMember "n1" "h1:7001" "h1:9001"; "n2"%string := mkMember "n2" "h2:7001" "h2:9001" ]}
    {[ 1 := "n2"%string; 3 := "gone"%string ]} 5.

Lemma demo_state_ok : text_ok demo_state.
Proof.
  split; [|split; [|done]]; repeat (apply map_Forall_insert_2; [by vm_compute|]).
  all: apply map_Forall_empty.
Qed.

Lemma demo_names_ok : Forall name_ok (AliveMembers demo_view).
Proof. apply Forall_cons; [by vm_compute|]. apply Forall_cons; [by vm_compute|]. constructor. Qed.

Lemma demo_alive : AliveMembers demo_view <> [].
Proof. by vm_compute. Qed.

Lemma plan_gives_live_leaders_witness :
  let '(f', issued) := Plan commit demo_state demo_view demo_state in
  issued = 4 /\ ShardLeader 1 f' = "n2"%string /\ ShardLeader 3 f' ∈ ["n2"; "n1"]%string.
Proof.
  pose proof (plan_gives_live_leaders demo_view demo_state demo_state_ok demo_alive demo_names_ok) as H.
  destruct (Plan commit demo_state demo_view demo_state) as [f' issued].
  destruct H as (H1 & H2 & _ & _ & H3 & _). split_and!.
  - rewrite H3. by vm_compute.
  - rewrite H2; [done|]. left. vm_compute. constructor.
  - apply (H1 3). cbn. lia.
Defined.

Lemma plan_spreads_evenly_witness :
  let '(f', issued) := Plan commit demo_state demo_view demo_state in
  2 <= zlen (filter (fun s => ShardLeader s f' = "n1"%string /\ (ShardLeader s demo_state ∉ AliveMembers demo_view))
               (seqZ 0 5)) <= 2.
Proof.
  assert (NoDup (AliveMembers demo_view)) as Hd by (apply (bool_decide_unpack _); by vm_compute).
  assert ("n1"%string ∈ AliveMembers demo_view) as Hin by (apply (bool_decide_unpack _); by vm_compute).
  pose proof (plan_spreads_evenly demo_view demo_state "n1" demo_state_ok demo_names_ok Hd Hin) as H.
  assert ((Plan commit demo_state demo_view demo_state).2 = 4) as E by by vm_compute.
  destruct (Plan commit demo_state demo_view demo_state) as [f' issued]. cbn in E. subst issued. exact H.
Defined.

(** A node that sees only itself. *)
Definition lonely_view : Membership := mkMembership [mkMemberInfo "n2" "h2:7946"] false.

Lemma one_owner_per_session_witness :
  exists n, n ∈ AliveMembers demo_view /\
    (forall self, LeaderNodeID (RouteSession self (Plan commit demo_state demo_view demo_state).1 demo_view "acme" "p" "s1") = n) /\
    (forall self, IsLocal (RouteSession self (Plan commit demo_state demo_view demo_state).1 lonely_view "acme" "p" "s1") = true -> self = n).
Proof.
  destruct (one_owner_per_session demo_view demo_state "acme" "p" "s1" demo_state_ok eq_refl demo_alive demo_names_ok)
    as (n & Hn & H).
  exists n. split; [exact Hn|]. split.
  - intros self. apply (H self demo_view). exact Hn.
  - intros self Hl. apply (H self lonely_view) in Hl as [-> _]. reflexivity.
Defined.

(** The planner no longer sees n2 and moves its shard to n1; n2, which has not applied the
    plan and sees itself, claims the same session as n1. *)
Example lagging_router_claims :
  let planner := mkMembership [mkMemberInfo "n1" "h1:7946"] false in
  IsLocal (RouteSession "n1" (Plan commit demo_state planner demo_state).1 planner "acme" "p" "s2") = true /\
  IsLocal (RouteSession "n2" demo_state lonely_view "acme" "p" "s2") = true.
Proof. vm_compute. split; reflexivity. Qed.

End Route.
