(* ===== verification/ClusterConfig.v ===== *)
(** * Cluster configuration (internal/cluster/config.go)

    [Module Config] models the node's configuration: the [--peers] flag and its
    parser, the checks of [Validate], and the lists [Start] derives from it (the
    addresses to join, the voters of the Raft group).  [strings.Split],
    [strings.Index], [net.SplitHostPort] and [strconv.Atoi] are written out on
    bytes. *)

From S2P Require Import Prelude GoLib GoJson.
Import Json.

Module Config.
Local Open Scope Z_scope.

(** ** The standard library's byte searches *)

(** [strings.Index] for a separator of one byte. *)
Fixpoint index_byte (c : byte) (s : bytes) : Z :=
  match s with
  | [] => -1
  | b :: s => if decide (b = c) then 0 else let i := index_byte c s in if i <? 0 then -1 else i + 1
  end.

(** [strings.LastIndexByte]. *)
Definition last_index_byte (c : byte) (s : bytes) : Z :=
  let i := index_byte c (rev s) in if i <? 0 then -1 else zlen s - 1 - i.

(** [strings.Split] for a separator of one byte. *)
Fixpoint split_byte (c : byte) (s : bytes) : list bytes :=
  match s with
  | [] => [[]]
  | b :: s =>
      if decide (b = c) then [] :: split_byte c s
      else match split_byte c s with [] => [[b]] | p :: ps => (b :: p) :: ps end
  end.

Inductive addr_err := MissingPort | TooManyColons | MissingBracket | UnexpectedOpen | UnexpectedClose.

(** [net.SplitHostPort]; [s[i]] is [s !! i]. *)
Definition SplitHostPort (s : bytes) : result addr_err (bytes * bytes) :=
  let i := last_index_byte (ch 58) s in
  if i <? 0 then Err MissingPort
  else
    let finish (host : bytes) (j k : nat) :=
      if 0 <=? index_byte (ch 91) (drop j s) then Err UnexpectedOpen
      else if 0 <=? index_byte (ch 93) (drop k s) then Err UnexpectedClose
      else Ok (host, drop (Z.to_nat (i + 1)) s) in
    if decide (s !! 0%nat = Some (ch 91)) then
      let e := index_byte (ch 93) s in
      if e <? 0 then Err MissingBracket
      else if e + 1 =? zlen s then Err MissingPort
      else if e + 1 =? i then finish (slice 1 (Z.to_nat e) s) 1%nat (Z.to_nat (e + 1))
      else if decide (s !! Z.to_nat (e + 1) = Some (ch 58)) then Err TooManyColons
      else Err MissingPort
    else
      let host := take (Z.to_nat i) s in
      if 0 <=? index_byte (ch 58) host then Err TooManyColons else finish host 0%nat 0%nat.

(** ** The configuration *)

Record Peer := mkPeer { p_NodeID : string; p_RaftAddr : string; p_GossipAddr : string; p_ClientAddr : string }.

Record Config := mkConfig {
  NodeID : string; RaftBind : string; GossipBind : string; RaftDir : string; ShardWALDir : string;
  ClientAddr : string; Peers : list Peer
}.

Inductive config_err :=
| ErrPeerForm (p : bytes) | ErrPeerID (p : bytes) | ErrPeerAddr (p : bytes) (e : addr_err)
| ErrPeerPort (p : bytes) | ErrPeerHost (p : bytes) | ErrRequired (field : string).

(** One round of the loop of [ParsePeers]. *)
Definition parse_peer (part : bytes) : result config_err Peer :=
  let p := trim_bytes part in
  let at_ := index_byte (ch 64) p in
  if (at_ <=? 0) || (at_ =? zlen p - 1) then Err (ErrPeerForm p)
  else
    let id := trim_bytes (take (Z.to_nat at_) p) in
    let addr := trim_bytes (drop (Z.to_nat (at_ + 1)) p) in
    if decide (id = []) then Err (ErrPeerID p)
    else
      match SplitHostPort addr with
      | Err e => Err (ErrPeerAddr p e)
      | Ok (host, port) =>
          match parse_int port with
          | None => Err (ErrPeerPort p)
          | Some _ =>
              if decide (host = []) then Err (ErrPeerHost p)
              else Ok (mkPeer (str_of id) (str_of addr) "" "")
          end
      end.

Fixpoint parse_peers (parts : list bytes) : result config_err (list Peer) :=
  match parts with
  | [] => Ok []
  | p :: parts =>
      match parse_peer p with
      | Err e => Err e
      | Ok x => match parse_peers parts with Err e => Err e | Ok xs => Ok (x :: xs) end
      end
  end.

Definition ParsePeers (raw : string) : result config_err (list Peer) :=
  let raw := trim_bytes (bs_of raw) in
  if decide (raw = []) then Ok [] else parse_peers (split_byte (ch 44) raw).

Definition blank (s : string) : bool := bool_decide (TrimSpace s = "").

Definition Validate (c : Config) : option config_err :=
  if blank (NodeID c) then Some (ErrRequired "NodeID")
  else if blank (RaftBind c) then Some (ErrRequired "RaftBind")
  else if blank (GossipBind c) then Some (ErrRequired "GossipBind")
  else if blank (RaftDir c) then Some (ErrRequired "RaftDir")
  else if (0 <? zlen (Peers c)) && blank (ShardWALDir c) then Some (ErrRequired "ShardWALDir")
  else None.

(** [Start]: the gossip addresses of the other peers. *)
Definition join_addrs (c : Config) : list string :=
  omap (fun p => if String.eqb (p_NodeID p) (NodeID c) then None
                 else Some (if String.eqb (p_GossipAddr p) "" then p_RaftAddr p else p_GossipAddr p)) (Peers c).

(** [Start]: the voters the Raft group is bootstrapped with. *)
Definition raft_peers (c : Config) : list (string * string) :=
  map (fun p => (p_NodeID p, p_RaftAddr p)) (Peers c).

(** ** Searching and splitting *)

Lemma index_byte_range c s : -1 <= index_byte c s < zlen s.
Proof.
  induction s as [|b s IH]; cbn [index_byte length]; [lia|]. case_decide; [lia|].
  destruct (index_byte c s <? 0) eqn:E; go_bool; lia.
Qed.

Lemma index_byte_found c a b : c ∉ a -> index_byte c (a ++ c :: b) = zlen a.
Proof.
  induction a as [|x a IH]; intros Hc; cbn [app index_byte length]; [by rewrite decide_True|].
  apply not_elem_of_cons in Hc as [Hx Ha]. rewrite decide_False by done. rewrite IH by done.
  destruct (zlen a <? 0) eqn:E; go_bool; lia.
Qed.

Lemma index_byte_none c s : c ∉ s -> index_byte c s = -1.
Proof.
  induction s as [|x s IH]; intros Hc; cbn [index_byte]; [done|].
  apply not_elem_of_cons in Hc as [Hx Hs]. rewrite decide_False by done. by rewrite IH.
Qed.

Lemma last_index_byte_found c a b : c ∉ b -> last_index_byte c (a ++ c :: b) = zlen a.
Proof.
  intros Hc. unfold last_index_byte. rewrite rev_app_distr. cbn [rev]. rewrite <- app_assoc. cbn [app].
  rewrite index_byte_found by (by rewrite list_elem_of_In, <- in_rev, <- list_elem_of_In).
  rewrite length_rev, length_app. cbn [length]. destruct (_ <? 0) eqn:E; go_bool; lia.
Qed.

Lemma split_byte_nonempty c s : split_byte c s <> [].
Proof. destruct s; cbn; [done|]. case_decide; [done|]. by destruct (split_byte c s). Qed.

Lemma split_byte_app c a s : c ∉ a -> split_byte c (a ++ c :: s) = a :: split_byte c s.
Proof.
  induction a as [|x a IH]; intros Hc; cbn [app split_byte]; [by rewrite decide_True|].
  apply not_elem_of_cons in Hc as [Hx Ha]. rewrite decide_False by done. by rewrite IH.
Qed.

Lemma split_byte_none c a : c ∉ a -> split_byte c a = [a].
Proof.
  induction a as [|x a IH]; intros Hc; cbn [app split_byte]; [done|].
  apply not_elem_of_cons in Hc as [Hx Ha]. rewrite decide_False by done. by rewrite IH.
Qed.

(** A byte that is a visible ASCII character; no such byte is white space. *)
Definition graphic (b : byte) : bool := (33 <=? byte_val b) && (byte_val b <=? 126).

Definition starts_blank (w : bytes) : bool := match w with b :: _ => negb (graphic b) | [] => false end.

Lemma strip_one_none ws s :
  Forall (fun w => starts_blank w = true) ws ->
  match s with b :: _ => graphic b = true | [] => True end -> strip_one ws s = None.
Proof.
  intros Hw Hs. unfold strip_one. induction Hw as [|w ws Hw _ IH]; cbn [fold_right]; [done|].
  destruct w as [|b w]; [done|]. destruct s as [|b' s]; cbn [strip_prefix]; [done|].
  cbn [starts_blank] in Hw. go_bool. rewrite decide_False by congruence. done.
Qed.

Lemma trim_front_id n ws s :
  Forall (fun w => starts_blank w = true) ws ->
  match s with b :: _ => graphic b = true | [] => True end -> trim_front n ws s = s.
Proof. intros Hw Hs. destruct n; cbn; [done|]. by rewrite strip_one_none. Qed.

Definition graphics (s : bytes) : Prop := Forall (fun b => graphic b = true) s.

Lemma trim_graphics s : graphics s -> trim_bytes s = s.
Proof.
  intros Hs. unfold trim_bytes. rewrite (trim_front_id _ white_space);
    [|apply (bool_decide_unpack _); vm_compute; exact I|destruct s; [done|by inversion Hs]].
  rewrite trim_front_id; [apply rev_involutive|apply (bool_decide_unpack _); vm_compute; exact I|].
  apply Forall_rev in Hs. destruct (rev s); [done|]. by inversion Hs.
Qed.

(** ** Peers written as [id@host:port] parse back *)

(** What the flag can name: an id without [@] and [,], a host without [:], [,] and
    brackets, a decimal port. *)
Record endpoint := mkEndpoint { ep_id : bytes; ep_host : bytes; ep_port : Z }.

Definition endpoint_ok (e : endpoint) : Prop :=
  graphics (ep_id e) /\ ep_id e <> [] /\ (ch 64 ∉ ep_id e) /\ (ch 44 ∉ ep_id e) /\
  graphics (ep_host e) /\ ep_host e <> [] /\ Forall (fun c => c ∉ ep_host e) [ch 44; ch 58; ch 91; ch 93] /\
  0 <= ep_port e < 2 ^ 63.

Definition addr_text (e : endpoint) : bytes := ep_host e ++ ch 58 :: format_int (ep_port e).
Definition peer_text (e : endpoint) : bytes := ep_id e ++ ch 64 :: addr_text e.

Fixpoint peers_text (es : list endpoint) : bytes :=
  match es with [] => [] | [e] => peer_text e | e :: es => peer_text e ++ ch 44 :: peers_text es end.

Definition peer_of (e : endpoint) : Peer := mkPeer (str_of (ep_id e)) (str_of (addr_text e)) "" "".

Lemma digits_graphic ds : forallb is_digit ds = true -> graphics ds.
Proof.
  intros H. apply list.Forall_forall. intros b Hb. rewrite forallb_forall in H.
  specialize (H b ltac:(by apply list_elem_of_In)). unfold is_digit, in_range in H. unfold graphic. go_bool.
  apply andb_true_intro. lia.
Qed.

Lemma port_digits z : 0 <= z -> forallb is_digit (format_int z) = true.
Proof.
  intros Hz. unfold format_int. rewrite (proj2 (Z.ltb_ge z 0)) by lia. by destruct (format_nat_canonical z Hz).
Qed.

Lemma digits_without c ds : is_digit c = false -> forallb is_digit ds = true -> c ∉ ds.
Proof.
  intros Hc H Hin. rewrite forallb_forall in H. specialize (H c ltac:(by apply list_elem_of_In)). congruence.
Qed.

Lemma SplitHostPort_endpoint e : endpoint_ok e -> SplitHostPort (addr_text e) = Ok (ep_host e, format_int (ep_port e)).
Proof.
  intros (_ & _ & _ & _ & _ & Hne & Hh & Hp). pose proof (port_digits (ep_port e) ltac:(lia)) as Hd.
  rewrite !list.Forall_cons in Hh. destruct Hh as (_ & Hcol & Ho & Hc & _).
  unfold SplitHostPort, addr_text.
  rewrite last_index_byte_found by (by apply digits_without).
  rewrite (proj2 (Z.ltb_ge _ 0)) by lia. rewrite decide_False.
  2:{ destruct (ep_host e) as [|b h]; [done|]. cbn. intros [= ->]. apply Ho. by left. }
  rewrite Nat2Z.id, take_app_length, index_byte_none by done. cbn [Z.leb Z.compare].
  assert (forall c, c <> ch 58 -> c ∉ ep_host e -> is_digit c = false ->
            index_byte c (drop 0 (ep_host e ++ ch 58 :: format_int (ep_port e))) = -1) as Hn.
  { intros c H1 H2 H3. apply index_byte_none. rewrite drop_0, elem_of_app, elem_of_cons.
    intros [?|[?|?]]; [done|done|]. by eapply digits_without. }
  rewrite !Hn by done. cbn [Z.leb Z.compare]. do 2 f_equal.
  replace (Z.to_nat (zlen (ep_host e) + 1)) with (length (ep_host e) + 1)%nat by lia.
  by rewrite drop_app_add'.
Qed.

Lemma addr_graphic e : endpoint_ok e -> graphics (addr_text e).
Proof.
  intros (_ & _ & _ & _ & Hh & _ & _ & Hp). apply Forall_app. split; [done|]. constructor; [done|].
  apply digits_graphic, port_digits. lia.
Qed.

Lemma peer_graphic e : endpoint_ok e -> graphics (peer_text e).
Proof. intros He. apply Forall_app. split; [apply He|]. constructor; [done|]. by apply addr_graphic. Qed.

Lemma peer_no_comma e : endpoint_ok e -> (ch 44) ∉ peer_text e.
Proof.
  intros (_ & _ & _ & Hi & _ & _ & Hh & Hp). rewrite !list.Forall_cons in Hh. destruct Hh as [Hh _]. unfold peer_text, addr_text.
  rewrite !elem_of_app, !elem_of_cons, elem_of_app, elem_of_cons.
  pose proof (digits_without (ch 44) _ eq_refl (port_digits (ep_port e) ltac:(lia))).
  intros [?|[?|[?|[?|?]]]]; try done.
Qed.

Lemma parse_peer_endpoint e : endpoint_ok e -> parse_peer (peer_text e) = Ok (peer_of e).
Proof.
  intros He. pose proof (SplitHostPort_endpoint e He) as HS. pose proof (addr_graphic e He) as HA.
  unfold parse_peer. rewrite (trim_graphics (peer_text e)) by (by apply peer_graphic).
  destruct He as (Hid & Hne & Hat & _ & _ & Hhost & _ & Hp). unfold peer_text.
  rewrite index_byte_found by done.
  assert (0 < zlen (ep_id e)) by (destruct (ep_id e); [done|cbn; lia]).
  assert (1 <= zlen (addr_text e)) by (unfold addr_text; rewrite length_app; cbn; lia).
  rewrite (proj2 (Z.leb_gt _ _)), (proj2 (Z.eqb_neq _ _)) by (rewrite ?length_app; cbn [length]; lia). cbn [orb].
  replace (Z.to_nat (zlen (ep_id e) + 1)) with (length (ep_id e) + 1)%nat by lia.
  rewrite Nat2Z.id, take_app_length, drop_app_add' by done. cbn [drop]. rewrite drop_0.
  rewrite !trim_graphics by done. rewrite decide_False by done. rewrite HS.
  rewrite parse_format_int by (unfold in_i64; lia). by rewrite decide_False.
Qed.

Lemma peers_graphic es : Forall endpoint_ok es -> graphics (peers_text es).
Proof.
  induction 1 as [|e [|e' es] He _ IH]; cbn [peers_text]; [constructor|by apply peer_graphic|].
  apply Forall_app. split; [by apply peer_graphic|]. by constructor.
Qed.

(** Every list of peers that can be named parses to itself: the flag written as
    [id@host:port] entries separated by commas gives back those ids and addresses,
    in order. *)
Theorem peers_roundtrip es :
  Forall endpoint_ok es -> ParsePeers (str_of (peers_text es)) = Ok (map peer_of es).
Proof.
  intros Hes. unfold ParsePeers. rewrite bs_of_str, trim_graphics by (by apply peers_graphic).
  destruct es as [|e es]; [done|]. rewrite decide_False.
  2:{ inversion_clear Hes as [|?? (_ & Hne & _)]. destruct es; cbn; unfold peer_text; by destruct (ep_id e). }
  revert e Hes. induction es as [|e' es IH]; intros e Hes.
  - inversion_clear Hes as [|?? He]. cbn [peers_text map]. rewrite split_byte_none by (by apply peer_no_comma).
    cbn [parse_peers]. by rewrite parse_peer_endpoint.
  - inversion_clear Hes as [|?? He Hes']. change (peers_text (e :: e' :: es)) with (peer_text e ++ ch 44 :: peers_text (e' :: es)).
    rewrite split_byte_app by (by apply peer_no_comma). cbn [parse_peers].
    rewrite parse_peer_endpoint by done. by rewrite (IH e' Hes').
Qed.

Definition demo_peers : list endpoint :=
  [mkEndpoint (bs_of "n1") (bs_of "10.0.0.1") 7001; mkEndpoint (bs_of "n2") (bs_of "10.0.0.2") 7002].

Example peers_roundtrip_witness :
  Forall endpoint_ok demo_peers /\
  ParsePeers "n1@10.0.0.1:7001,n2@10.0.0.2:7002" =
    Ok [mkPeer "n1" "10.0.0.1:7001" "" ""; mkPeer "n2" "10.0.0.2:7002" "" ""].
Proof.
  assert (Forall endpoint_ok demo_peers) as H.
  { repeat constructor; try done; apply (bool_decide_unpack _); vm_compute; exact I. }
  split; [exact H|]. exact (peers_roundtrip demo_peers H).
Defined.

(** What the parser never sets: where a peer's clients connect. *)
Lemma parse_peer_addrs p x : parse_peer p = Ok x -> p_ClientAddr x = "" /\ p_GossipAddr x = "".
Proof. unfold parse_peer. intros H. repeat (case_match; try done). by simplify_eq. Qed.

Lemma ParsePeers_addrs raw ps :
  ParsePeers raw = Ok ps -> Forall (fun p => p_ClientAddr p = "" /\ p_GossipAddr p = "") ps.
Proof.
  unfold ParsePeers. case_decide; [by intros [= <-]|]. generalize (split_byte (ch 44) (trim_bytes (bs_of raw))).
  intros l. revert ps. induction l as [|p l IH]; cbn [parse_peers]; intros ps H'; [by simplify_eq|].
  destruct (parse_peer p) as [x|] eqn:E; [|done]. destruct (parse_peers l) as [xs|]; [|done]. simplify_eq.
  constructor; [by eapply parse_peer_addrs|by apply IH].
Qed.

End Config.
