(* ===== verification/Gossip.v ===== *)
(** * Joining the gossip ring (internal/cluster/membership/membership.go)

    [Module Members]: [Start], which turns the configuration into memberlist's, with
    [net.ParseIP] on bytes, and the delegate that puts the library's notifications on the
    channel of [Events].  Resolving a name, creating the member and joining are arguments:
    DNS and memberlist are not part of the repository.  The view of the members that are
    alive is [Routing]'s.  The theorems: what memberlist is given always has an address to
    advertise that is a literal one, or none; the channel keeps the first events in order
    and loses the others, and nothing of the sources reads it. *)

From S2P Require Import Prelude GoLib GoJson ClusterConfig Routing.
Import Json.

Module Members.
Local Open Scope string_scope.
Local Open Scope Z_scope.
Local Open Scope list_scope.

(** ** [net.ParseIP] *)

(** One to three digits without a leading zero, at most 255. *)
Definition octet (s : bytes) : bool :=
  match s with
  | [] => false
  | b :: r => forallb is_digit s && (negb (isc 48 b) || bool_decide (r = [])) && (digits_val s <=? 255)
  end.

Definition parseIPv4 (s : bytes) : bool :=
  let fields := Config.split_byte (ch 46) s in bool_decide (length fields = 4%nat) && forallb octet fields.

Definition is_hex (b : byte) : bool := is_digit b || in_range 97 102 b || in_range 65 70 b.

Fixpoint span_hex (s : bytes) : bytes * bytes :=
  match s with
  | b :: r => if is_hex b then let (h, t) := span_hex r in (b :: h, t) else ([], s)
  | [] => ([], [])
  end.

(** The fields from byte [i] of the address on; [ellipsis] is whether [::] was seen.  The
    answer is the bytes filled and whether it was seen; a trailing IPv4 address fills four. *)
Fixpoint ipv6_fields (fuel : nat) (i : Z) (ellipsis : bool) (s : bytes) : option (Z * bool) :=
  match fuel with
  | O => None
  | S fuel =>
      if 16 <=? i then if bool_decide (s = []) then Some (i, ellipsis) else None
      else
        let (h, r) := span_hex s in
        if bool_decide (h = []) || (4 <? zlen h) then None
        else
          match r with
          | [] => Some (i + 2, ellipsis)
          | c :: r' =>
              if isc 46 c then
                if (negb ellipsis && negb (i =? 12)) || (16 <? i + 4) || negb (parseIPv4 s) then None else Some (i + 4, ellipsis)
              else if negb (isc 58 c) then None
              else
                match r' with
                | [] => None
                | c' :: r'' =>
                    if isc 58 c' then
                      if ellipsis then None
                      else if bool_decide (r'' = []) then Some (i + 2, true)
                      else ipv6_fields fuel (i + 2) true r''
                    else ipv6_fields fuel (i + 2) ellipsis r'
                end
          end
  end.

(** [::] stands for at least one field. *)
Definition parseIPv6 (s : bytes) : bool :=
  let lead := match s with a :: b :: _ => isc 58 a && isc 58 b | _ => false end in
  if lead && bool_decide (drop 2 s = []) then true
  else
    match ipv6_fields 9 0 lead (if lead then drop 2 s else s) with
    | Some (i, ellipsis) => if i <? 16 then ellipsis else negb ellipsis
    | None => false
    end.

(** The first dot or colon decides the family; an address with a zone is none. *)
Fixpoint ip_family (s : bytes) : option bool :=
  match s with
  | [] => None
  | b :: r => if isc 46 b then Some false else if isc 58 b then Some true else if isc 37 b then None else ip_family r
  end.

Definition ParseIP (s : bytes) : bool :=
  match ip_family s with
  | Some false => parseIPv4 s
  | Some true => forallb (fun b => negb (isc 37 b)) s && parseIPv6 s
  | None => false
  end.

(** ** Starting a member *)

Record gossip_config := mkGossip { g_NodeID : string; g_GossipBind : string; g_JoinAddrs : list string }.

(** What [Start] sets in memberlist's configuration; the rest is the library's default. *)
Record mconfig := mkMConfig { mc_Name : string; mc_BindAddr : bytes; mc_BindPort : Z; mc_AdvertisePort : Z; mc_AdvertiseAddr : bytes }.

Inductive gossip_err {E : Type} :=
| NodeIDRequired | BindInvalid (e : Config.addr_err) | PortNotNumeric | ResolveFailed (host : bytes) | CreateFailed (e : E).
Arguments gossip_err : clear implicits.

Section Start.
Context {E ML : Type} (LookupHost : bytes -> option (list bytes)) (Create : mconfig -> result E ML)
  (Join : ML -> list string -> ML * Z * bool).

(** The addresses to bind and to advertise. *)
Definition gossip_addrs (host : bytes) : option (bytes * bytes) :=
  if bool_decide (host = []) || bool_decide (host = bs_of "0.0.0.0") || bool_decide (host = bs_of "::") then Some (host, [])
  else if ParseIP host then Some (host, host)
  else
    match LookupHost host with
    | Some (a :: _) => Some (a, a)
    | _ => None
    end.

(** The result is the member, and the count of the peers reached when joining failed,
    which is only logged. *)
Definition Start (cfg : gossip_config) : result (gossip_err E) (ML * option Z) :=
  if String.eqb (g_NodeID cfg) "" then Err NodeIDRequired
  else
    match Config.SplitHostPort (bs_of (g_GossipBind cfg)) with
    | Err e => Err (BindInvalid e)
    | Ok (host, portStr) =>
        match parse_int portStr with
        | None => Err PortNotNumeric
        | Some port =>
            match gossip_addrs host with
            | None => Err (ResolveFailed host)
            | Some (bind, advertise) =>
                match Create (mkMConfig (g_NodeID cfg) bind port port advertise) with
                | Err e => Err (CreateFailed e)
                | Ok ml =>
                    match g_JoinAddrs cfg with
                    | [] => Ok (ml, None)
                    | addrs => let '(ml, n, failed) := Join ml addrs in Ok (ml, if failed : bool then Some n else None)
                    end
                end
            end
        end
    end.
End Start.

(** ** Events *)

Inductive EventType := EventJoin | EventLeave.
Record Event := mkEvent { ev_Type : EventType; ev_NodeID : string; ev_Addr : string }.

(** [make(chan Event, 128)]. *)
Definition events_cap : nat := 128.

(** [send]: a full channel drops the event. *)
Definition send (ev : Event) (ch : list Event) : list Event := if Nat.ltb (length ch) events_cap then ch ++ [ev] else ch.

Definition NotifyJoin (n : Route.MemberInfo) : list Event -> list Event := send (mkEvent EventJoin (Route.i_NodeID n) (Route.i_Addr n)).
Definition NotifyLeave (n : Route.MemberInfo) : list Event -> list Event := send (mkEvent EventLeave (Route.i_NodeID n) (Route.i_Addr n)).
Definition NotifyUpdate (n : Route.MemberInfo) (ch : list Event) : list Event := ch.

(** ** Lemmas *)

Example parse_ip_table :
  map (fun s => ParseIP (bs_of s)) ["10.0.0.1"; "::1"; "2001:db8::8a2e:370:7334"; "::ffff:10.0.0.1"; "1:2:3:4:5:6:7:8"] = [true; true; true; true; true] /\
  map (fun s => ParseIP (bs_of s)) ["n1"; "10.0.0"; "10.0.0.01"; "10.0.0.256"; "1::2::3"; "1:2:3:4:5:6:7:8:9"; "fe80::1%eth0"; "12345::"; "1:2:3:4:5:6:7::8"] =
    [false; false; false; false; false; false; false; false; false].
Proof. split; vm_compute; reflexivity. Qed.

Section Started.
Context {E ML : Type} (LookupHost : bytes -> option (list bytes)) (Create : mconfig -> result E ML)
  (Join : ML -> list string -> ML * Z * bool).

(** Looking a name up gives addresses. *)
Context (lookup_addresses : forall host addrs, LookupHost host = Some addrs -> Forall (fun a => ParseIP a = true) addrs).

Lemma advertised host bind adv : gossip_addrs LookupHost host = Some (bind, adv) ->
  (adv = [] /\ bind = host /\ (host = [] \/ host = bs_of "0.0.0.0" \/ host = bs_of "::")) \/ (ParseIP adv = true /\ bind = adv).
Proof.
  unfold gossip_addrs. destruct (bool_decide (host = []) || _ || _) eqn:Ew.
  { intros [= <- <-]. left. split_and!; [done..|]. apply orb_true_iff in Ew as [[Ew|Ew]%orb_true_iff|Ew]; apply bool_decide_eq_true in Ew; auto. }
  destruct (ParseIP host) eqn:Ep; [intros [= <- <-]; auto|]. destruct (LookupHost host) as [[|a addrs]|] eqn:El; try done.
  intros [= <- <-]. right. split; [|done]. apply lookup_addresses in El. by apply Forall_inv in El.
Qed.

(** A member that starts runs under its node's name on one port, the one of the bind
    address, and what it advertises to the others is a literal IP address it is bound to, or is
    left to memberlist when the host is a wildcard; peers that cannot be reached do not
    keep it from starting. *)
Theorem gossip_start_literal cfg r : Start LookupHost Create Join cfg = Ok r ->
  exists host portStr port mc ml0,
    Config.SplitHostPort (bs_of (g_GossipBind cfg)) = Ok (host, portStr) /\ parse_int portStr = Some port /\ Create mc = Ok ml0 /\
    mc_Name mc = g_NodeID cfg /\ g_NodeID cfg <> "" /\ mc_BindPort mc = port /\ mc_AdvertisePort mc = port /\
    ((mc_AdvertiseAddr mc = [] /\ mc_BindAddr mc = host /\ (host = [] \/ host = bs_of "0.0.0.0" \/ host = bs_of "::")) \/
     (ParseIP (mc_AdvertiseAddr mc) = true /\ mc_BindAddr mc = mc_AdvertiseAddr mc)) /\
    r = match g_JoinAddrs cfg with
        | [] => (ml0, None)
        | addrs => let '(ml, n, failed) := Join ml0 addrs in (ml, if failed then Some n else None)
        end.
Proof.
  unfold Start. destruct (String.eqb_spec (g_NodeID cfg) ""); [done|]. destruct (Config.SplitHostPort _) as [[host portStr]|e]; [|done].
  destruct (parse_int portStr) as [port|] eqn:Eport; [|done]. destruct (gossip_addrs LookupHost host) as [[bind adv]|] eqn:Ea; [|done].
  destruct (Create _) as [ml0|e] eqn:Ec; [|done]. intros HR. exists host, portStr, port, (mkMConfig (g_NodeID cfg) bind port port adv), ml0.
  split_and!; try done. { by apply (advertised host bind adv). }
  destruct (g_JoinAddrs cfg); [by simplify_eq|]. destruct (Join ml0 _) as [[ml n'] failed]. by simplify_eq.
Qed.
End Started.

(** *** The channel *)

Lemma send_take ev evs : send ev (take events_cap evs) = take events_cap (evs ++ [ev]).
Proof.
  unfold send. rewrite length_take. destruct (Nat.ltb_spec (Nat.min events_cap (length evs)) events_cap).
  - rewrite !take_ge; [done|rewrite length_app; cbn; lia|lia].
  - by rewrite take_app_le by lia.
Qed.

(** With no reader the channel holds the first 128 events and every later one is lost. *)
Lemma unread_events evs : fold_left (fun ch ev => send ev ch) evs [] = take events_cap evs.
Proof.
  induction evs as [|ev evs IH] using rev_ind; [done|]. rewrite fold_left_app. cbn [fold_left]. by rewrite IH, send_take.
Qed.

(** A name that resolves, and an unreachable peer. *)
Lemma gossip_start_literal_witness :
  exists host portStr port mc ml0,
    Config.SplitHostPort (bs_of "n1:7946") = Ok (host, portStr) /\ parse_int portStr = Some port /\ @Ok unit mconfig mc = Ok ml0 /\
    mc_Name mc = "n1" /\ "n1" <> "" /\ mc_BindPort mc = port /\ mc_AdvertisePort mc = port /\
    ((mc_AdvertiseAddr mc = [] /\ mc_BindAddr mc = host /\ (host = [] \/ host = bs_of "0.0.0.0" \/ host = bs_of "::")) \/
     (ParseIP (mc_AdvertiseAddr mc) = true /\ mc_BindAddr mc = mc_AdvertiseAddr mc)) /\
    (mkMConfig "n1" (bs_of "172.18.0.2") 7946 7946 (bs_of "172.18.0.2"), Some 0) = (ml0, Some 0).
Proof.
  apply (gossip_start_literal (fun _ => Some [bs_of "172.18.0.2"]) (@Ok unit mconfig) (fun ml _ => (ml, 0, true))
    ltac:(intros ? ? [= <-]; by repeat constructor) (mkGossip "n1" "n1:7946" ["n2:7946"])).
  vm_compute. reflexivity.
Defined.
End Members.
