(* ===== verification/Cluster.v ===== *)
(** * The cluster's control loops
    (internal/cluster/cluster.go, internal/cluster/replicator/replicator.go)

    [Module Orchestrate] models how one node ties the cluster's parts together:
    registering in the metadata state machine when the cluster starts, keeping the
    hash ring equal to the registered members, and starting and stopping the
    replication of the shards the node leads.  Raft and gossip are not part of the
    sources: whether a command commits, and whom gossip reports, are arguments.
    Go's map iteration order is arbitrary: the order in which a loop visits a set
    is an argument too, any permutation of its elements.

    The theorems: after every refresh the ring holds the registered members, and
    after every tick exactly the shards this node leads have one running worker,
    with the current followers; and what a cluster started from the [--peers] flag
    is registered as. *)

From S2P Require Import Prelude GoLib GoJson GoJsonMap Metadata HashRing Routing ShardFormat ShardLog ShardStore Replication ClusterConfig.
Import Config.

Module Orchestrate.
Local Open Scope Z_scope.

(** ** The replicator's workers (replicator.go) *)

Record FollowerAddr := mkFollower { f_NodeID : string; f_Addr : string }.

(** [w_live]: its context is not cancelled. *)
Record shardWorker := mkWorker { w_shard : Z; w_followers : list FollowerAddr; w_live : bool }.

(** [workers] holds every worker ever started, [shards] the index of the current
    one of each shard; the nil map after [Close] is [None]. *)
Record Replicator := mkReplicator { shards : option (gmap Z nat); workers : list shardWorker }.

Definition New : Replicator := mkReplicator (Some ∅) [].

Definition cancel (i : nat) (ws : list shardWorker) : list shardWorker :=
  alter (fun w => {| w with w_live := false |}) i ws.

(** [Add]; assigning to the nil map panics ([None]). *)
Definition Add (shardID : Z) (followers : list FollowerAddr) (r : Replicator) : option Replicator :=
  match shards r with
  | None => None
  | Some m =>
      let ws := match m !! shardID with Some i => cancel i (workers r) | None => workers r end in
      Some (mkReplicator (Some (<[shardID := length ws]> m)) (ws ++ [mkWorker shardID followers true]))
  end.

Definition Drop (shardID : Z) (r : Replicator) : Replicator :=
  match shards r with
  | None => r
  | Some m =>
      mkReplicator (Some (delete shardID m))
        (match m !! shardID with Some i => cancel i (workers r) | None => workers r end)
  end.

Definition Close (r : Replicator) : Replicator :=
  match shards r with
  | None => r
  | Some m => mkReplicator None (foldr cancel (workers r) (map snd (map_to_list m)))
  end.

(** [run]: the replicas the shard's mark is told to track. *)
Definition replica_ids (self : string) (w : shardWorker) : list string := self :: map f_NodeID (w_followers w).

(** ** Following the shard leadership (cluster.go) *)

Definition followerSetKey (addrs : list FollowerAddr) : string :=
  foldl (fun key a => (key +:+ f_NodeID a +:+ "=" +:+ f_Addr a +:+ ";")%string) "" addrs.

Definition aliveFollowers (self : string) (alive : list string) : list string :=
  filter (fun nid => nid <> self) alive.

(** [memberAt] is the state machine's [MemberAt], read for each node in turn. *)
Definition followerAddrsFor (memberAt : string -> option Fsm.Member) (nodeIDs : list string) : list FollowerAddr :=
  omap (fun nid =>
          match memberAt nid with
          | Some m => if String.eqb (Fsm.m_ClientAddr m) "" then None else Some (mkFollower nid (Fsm.m_ClientAddr m))
          | None => None
          end) nodeIDs.

(** The loop's own variables. *)
Record leadership := mkLeadership { owned : gset Z; lastFollowerKey : string }.

Definition leadership0 : leadership := mkLeadership ∅ "".

Definition led (self : string) (leaders : gmap Z string) : gset Z := dom (filter (fun sl => sl.2 = self) leaders).

(** The loop over [owned]. *)
Fixpoint drop_lost (want : gset Z) (visit : list Z) (o : gset Z) (r : Replicator) : gset Z * Replicator :=
  match visit with
  | [] => (o, r)
  | s :: visit =>
      if decide (s ∈ want) then drop_lost want visit o r
      else drop_lost want visit (o ∖ {[s]}) (Drop s r)
  end.

(** The loop over [want]. *)
Fixpoint start_led (changed : bool) (addrs : list FollowerAddr) (visit : list Z) (o : gset Z) (r : Replicator) :
    option (gset Z * Replicator) :=
  match visit with
  | [] => Some (o, r)
  | s :: visit =>
      match (if negb (bool_decide (s ∈ o)) || changed then Add s addrs r else Some r) with
      | None => None
      | Some r => start_led changed addrs visit ({[s]} ∪ o) r
      end
  end.

(** One tick of [refreshShardLeadershipLoop]: [leaders], [alive] and [memberAt] are
    what the state machine and gossip answer, [ds] and [ws] the orders in which
    the two sets are visited. *)
Definition leadership_tick (self : string) (leaders : gmap Z string) (alive : list string)
    (memberAt : string -> option Fsm.Member) (ds ws : list Z) (st : leadership) (r : Replicator) :
    option (leadership * Replicator) :=
  let want := led self leaders in
  let '(o, r) := drop_lost want ds (owned st) r in
  let addrs := followerAddrsFor memberAt (aliveFollowers self alive) in
  let followerKey := followerSetKey addrs in
  let changed := negb (String.eqb followerKey (lastFollowerKey st)) in
  match start_led changed addrs ws o r with
  | None => None
  | Some (o, r) => Some (mkLeadership o (if changed then followerKey else lastFollowerKey st), r)
  end.

(** ** Keeping the ring (cluster.go) *)

Definition refreshRingOnce (f : Fsm.FSM) (adds removes : list string) (r : Ring.Ring) : Ring.Ring :=
  let want := dom (Fsm.Members f) in
  let have := list_to_set (Ring.Members r) : gset string in
  let r := foldl (fun r n => if decide (n ∈ have) then r else Ring.AddNode n r) r adds in
  foldl (fun r n => if decide (n ∈ want) then r else Ring.RemoveNode n r) r removes.

(** ** Registration (cluster.go)

    A command changes the state machine when the node's Raft instance is the
    leader and commits it ([accepted]); otherwise [Apply] returns an error, which
    every caller here ignores. *)

Definition defaultShardCount : Z := 32.

Definition applyCmd (accepted : bool) (c : Fsm.Command) (f : Fsm.FSM) : Fsm.FSM :=
  if accepted then (Route.commit c f).1 else f.

Definition registerSelf (cfg : Config) (accepted : bool) (f : Fsm.FSM) : Fsm.FSM :=
  applyCmd accepted (Fsm.mkCommand Fsm.OpRegisterMember (NodeID cfg) (RaftBind cfg) (ClientAddr cfg) 0) f.

Definition set_shard_count (is_leader accepted : bool) (f : Fsm.FSM) : Fsm.FSM :=
  if is_leader && (Fsm.ShardCount f =? 0)
  then applyCmd accepted (Fsm.mkCommand Fsm.OpSetShardCount "" "" "" defaultShardCount) f else f.

(** The leader's loop over the peers with a known client address. *)
Definition register_peer (cfg : Config) (is_leader accepted : bool) (p : Peer) (f : Fsm.FSM) : Fsm.FSM :=
  if negb is_leader || String.eqb (p_NodeID p) (NodeID cfg) || String.eqb (p_ClientAddr p) "" then f
  else applyCmd accepted (Fsm.mkCommand Fsm.OpRegisterMember (p_NodeID p) (p_RaftAddr p) (p_ClientAddr p) 0) f.

(** One tick of [retryRegisterLoop]: [true] ends the loop. *)
Definition retry_register (cfg : Config) (accepted : bool) (f : Fsm.FSM) : bool * Fsm.FSM :=
  match Fsm.MemberAt (NodeID cfg) f with
  | Some _ => (true, f)
  | None => (false, registerSelf cfg accepted f)
  end.

(** ** The workers *)

(** The worker of a shard. *)
Definition current (r : Replicator) (s : Z) : option shardWorker :=
  m ← shards r; i ← m !! s; workers r !! i.

(** Every entry of the map is the live worker of its shard, and every live worker
    is in the map. *)
Definition rep_ok (r : Replicator) : Prop :=
  match shards r with
  | None => forall i w, workers r !! i = Some w -> w_live w = false
  | Some m =>
      (forall s i, m !! s = Some i -> exists w, workers r !! i = Some w /\ w_shard w = s /\ w_live w = true) /\
      (forall i w, workers r !! i = Some w -> w_live w = true -> m !! w_shard w = Some i)
  end.

Lemma cancel_lookup i ws j :
  cancel i ws !! j = if decide (i = j) then (fun w => {| w with w_live := false |}) <$> ws !! j else ws !! j.
Proof.
  unfold cancel. case_decide; [subst; by rewrite list_lookup_alter_eq|by rewrite list_lookup_alter_ne].
Qed.

Lemma length_cancel i ws : length (cancel i ws) = length ws.
Proof. apply length_alter. Qed.

Lemma New_ok : rep_ok New.
Proof. split; [intros s i H; by rewrite lookup_empty in H|intros i w H; by destruct i]. Qed.

Lemma rep_inj r m s s' i : rep_ok r -> shards r = Some m -> m !! s = Some i -> m !! s' = Some i -> s = s'.
Proof.
  intros Hr Em Hs Hs'. unfold rep_ok in Hr. rewrite Em in Hr. destruct Hr as [H _].
  destruct (H _ _ Hs) as (w & Hw & <- & _), (H _ _ Hs') as (w' & Hw' & <- & _). congruence.
Qed.

(** The workers once the shard's own is cancelled. *)
Lemma stop_lookup r m s i w :
  rep_ok r -> shards r = Some m ->
  match m !! s with Some i => cancel i (workers r) | None => workers r end !! i = Some w -> w_live w = true ->
  workers r !! i = Some w /\ w_shard w <> s.
Proof.
  intros Hr Em Hw Hl. unfold rep_ok in Hr. rewrite Em in Hr. destruct Hr as [H1 H2].
  destruct (m !! s) as [j|] eqn:Ej.
  - rewrite cancel_lookup in Hw. case_decide as E.
    + destruct (workers r !! i); [|done]. injection Hw as <-. done.
    + split; [done|]. intros <-. rewrite (H2 _ _ Hw Hl) in Ej. congruence.
  - split; [done|]. intros <-. by rewrite (H2 _ _ Hw Hl) in Ej.
Qed.

Lemma stop_other r m s s' j :
  rep_ok r -> shards r = Some m -> s <> s' -> m !! s' = Some j ->
  match m !! s with Some i => cancel i (workers r) | None => workers r end !! j = workers r !! j.
Proof.
  intros Hr Em Hne Hj. destruct (m !! s) as [i|] eqn:Ei; [|done]. rewrite cancel_lookup, decide_False; [done|].
  intros ->. by apply Hne, (rep_inj r m s s' j).
Qed.

Lemma length_stop {r : Replicator} {m : gmap Z nat} s :
  length (match m !! s with Some i => cancel i (workers r) | None => workers r end) = length (workers r).
Proof. destruct (m !! s); [apply length_cancel|done]. Qed.

Lemma rep_bound r m s i : rep_ok r -> shards r = Some m -> m !! s = Some i -> (i < length (workers r))%nat.
Proof.
  intros Hr Em Hi. unfold rep_ok in Hr. rewrite Em in Hr. destruct Hr as [H _].
  destruct (H _ _ Hi) as (w & Hw & _). by eapply lookup_lt_Some.
Qed.

Lemma Add_spec s a r :
  rep_ok r -> shards r <> None ->
  exists r', Add s a r = Some r' /\ rep_ok r' /\ shards r' <> None /\
    forall s', current r' s' = if decide (s' = s) then Some (mkWorker s a true) else current r s'.
Proof.
  intros Hr Hn. unfold Add. destruct (shards r) as [m|] eqn:Em; [|done]. eexists. split; [done|].
  set (ws := match m !! s with Some i => cancel i (workers r) | None => workers r end).
  assert (length ws = length (workers r)) as Hlen by apply length_stop.
  assert (forall s' i, s' <> s -> m !! s' = Some i -> (ws ++ [mkWorker s a true]) !! i = workers r !! i) as Hold.
  { intros s' i Hne Hi. pose proof (rep_bound r m s' i Hr Em Hi). rewrite lookup_app_l by lia. by eapply stop_other. }
  pose proof Hr as Hr'. unfold rep_ok in Hr'. rewrite Em in Hr'. destruct Hr' as [H1 H2]. split_and!; [|done|].
  - split; cbn [shards workers]; intros *.
    + rewrite lookup_insert_Some. intros [[<- <-]|[Hne Hi]].
      * exists (mkWorker s a true). rewrite lookup_app_r, Nat.sub_diag by lia. done.
      * rewrite (Hold s0) by done. by apply H1.
    + intros Hw Hl. apply lookup_app_Some in Hw as [Hw|[Hge Hw]].
      * destruct (stop_lookup r m s i w Hr Em Hw Hl) as [Hw' Hne]. rewrite lookup_insert_ne by done. by apply H2.
      * apply list_lookup_singleton_Some in Hw as [Hz <-]. cbn [w_shard]. rewrite lookup_insert_eq. f_equal. lia.
  - intros s'. unfold current. cbn [shards workers]. rewrite Em. cbn [mbind option_bind]. case_decide as E.
    + subst s'. rewrite lookup_insert_eq. cbn. rewrite lookup_app_r, Nat.sub_diag by lia. done.
    + rewrite lookup_insert_ne by done. destruct (m !! s') as [i|] eqn:Ei; [|done]. cbn. by rewrite (Hold s').
Qed.

Lemma Drop_spec s r :
  rep_ok r -> shards r <> None ->
  rep_ok (Drop s r) /\ shards (Drop s r) <> None /\
  forall s', current (Drop s r) s' = if decide (s' = s) then None else current r s'.
Proof.
  intros Hr Hn. unfold Drop. destruct (shards r) as [m|] eqn:Em; [|done].
  pose proof Hr as Hr'. unfold rep_ok in Hr'. rewrite Em in Hr'. destruct Hr' as [H1 H2]. split_and!; [|done|].
  - split; cbn [shards workers]; intros *.
    + rewrite lookup_delete_Some. intros [Hne Hi]. rewrite (stop_other r m s s0) by done. by apply H1.
    + intros Hw Hl. destruct (stop_lookup r m s i w Hr Em Hw Hl) as [Hw' Hne]. rewrite lookup_delete_ne by done.
      by apply H2.
  - intros s'. unfold current. cbn [shards workers]. rewrite Em. cbn [mbind option_bind]. case_decide as E.
    + subst s'. by rewrite lookup_delete_eq.
    + rewrite lookup_delete_ne by done. destruct (m !! s') as [i|] eqn:Ei; [|done]. cbn. by rewrite (stop_other r m s s').
Qed.

Lemma rep_live r i w : rep_ok r -> workers r !! i = Some w -> w_live w = true -> current r (w_shard w) = Some w.
Proof.
  intros Hr Hw Hl. unfold rep_ok in Hr. unfold current. destruct (shards r) as [m|]; [|by rewrite (Hr _ _ Hw) in Hl].
  destruct Hr as [_ H]. cbn. by rewrite (H _ _ Hw Hl).
Qed.

(** ** The key of a follower list *)

(** Names the key tells apart: no [=] in the id, no [;] in the address. *)
Definition clean (a : FollowerAddr) : Prop := (Byte.x3d ∉ bs_of (f_NodeID a)) /\ (Byte.x3b ∉ bs_of (f_Addr a)).

Fixpoint key_bytes (addrs : list FollowerAddr) : bytes :=
  match addrs with
  | [] => []
  | a :: addrs => bs_of (f_NodeID a) ++ Byte.x3d :: bs_of (f_Addr a) ++ Byte.x3b :: key_bytes addrs
  end.

Lemma followerSetKey_bytes addrs : bs_of (followerSetKey addrs) = key_bytes addrs.
Proof.
  unfold followerSetKey. change (key_bytes addrs) with (bs_of "" ++ key_bytes addrs). 
  assert (forall k, bs_of (foldl (fun key a => (key +:+ f_NodeID a +:+ "=" +:+ f_Addr a +:+ ";")%string) k addrs) =
                    bs_of k ++ key_bytes addrs) as H; [|apply H].
  induction addrs as [|a addrs IH]; intros k; cbn [foldl key_bytes]; [by rewrite app_nil_r|].
  rewrite IH, !bs_of_append. cbn. rewrite <- !app_assoc. cbn. by rewrite <- !app_assoc.
Qed.

Lemma app_sep_inj (c : byte) a b x y : c ∉ a -> c ∉ b -> a ++ c :: x = b ++ c :: y -> a = b /\ x = y.
Proof.
  revert b. induction a as [|d a IH]; intros [|e b] Ha Hb E; cbn in E.
  - by injection E.
  - injection E as <- _. by destruct Hb; left.
  - injection E as -> _. by destruct Ha; left.
  - injection E as <- E. apply not_elem_of_cons in Ha as [_ Ha], Hb as [_ Hb]. destruct (IH b Ha Hb E) as [-> ->]. done.
Qed.

Lemma bs_of_inj a b : bs_of a = bs_of b -> a = b.
Proof. intros E. by rewrite <- (str_of_bs a), E, str_of_bs. Qed.

Lemma followerSetKey_inj a b : Forall clean a -> Forall clean b -> followerSetKey a = followerSetKey b -> a = b.
Proof.
  intros Ha Hb E. apply (f_equal bs_of) in E. rewrite !followerSetKey_bytes in E. revert b Hb E.
  induction Ha as [|x a [Hx1 Hx2] _ IH]; intros b [|y b' [Hy1 Hy2] Hb] E; cbn [key_bytes] in E.
  - done.
  - by destruct (bs_of (f_NodeID y)).
  - by destruct (bs_of (f_NodeID x)).
  - apply app_sep_inj in E as [E1 E]; [|done|done]. apply app_sep_inj in E as [E2 E]; [|done|done].
    apply bs_of_inj in E1, E2. destruct x, y; cbn in *. subst. f_equal. by apply IH.
Qed.

(** ** One tick *)

Lemma drop_lost_spec want visit o r :
  rep_ok r -> shards r <> None -> (forall s, s ∈ o <-> is_Some (current r s)) ->
  let '(o', r') := drop_lost want visit o r in
  rep_ok r' /\ shards r' <> None /\ (forall s, s ∈ o' <-> is_Some (current r' s)) /\
  o' = o ∖ (list_to_set visit ∖ want) /\
  (forall s w, current r' s = Some w -> current r s = Some w) /\ (list_to_set visit ⊆ want -> r' = r).
Proof.
  revert o r. induction visit as [|s visit IH]; intros o r Hr Hn Ho; cbn [drop_lost].
  { split_and!; try done. set_solver. }
  case_decide as Hs.
  - specialize (IH o r Hr Hn Ho). destruct (drop_lost want visit o r) as [o' r'].
    destruct IH as (I1 & I2 & I3 & I4 & I5 & I6). split_and!; try done; [set_solver|]. intros Hv. apply I6. set_solver.
  - destruct (Drop_spec s r Hr Hn) as (D1 & D2 & D3).
    assert (forall s', s' ∈ o ∖ {[s]} <-> is_Some (current (Drop s r) s')) as Ho'.
    { intros s'. rewrite D3, elem_of_difference, elem_of_singleton, Ho. case_decide; [subst|naive_solver].
      split; [naive_solver|by intros [? ?]]. }
    specialize (IH _ _ D1 D2 Ho'). destruct (drop_lost want visit _ _) as [o' r'].
    destruct IH as (I1 & I2 & I3 & I4 & I5 & I6). split_and!; try done.
    + rewrite I4. clear -Hs. set_unfold. naive_solver.
    + intros s' w Hw. apply I5 in Hw. rewrite D3 in Hw. by case_decide.
    + intros Hv. destruct Hs. set_solver.
Qed.

Lemma start_led_spec changed addrs visit o r :
  rep_ok r -> shards r <> None -> (forall s, s ∈ o <-> is_Some (current r s)) ->
  exists o' r', start_led changed addrs visit o r = Some (o', r') /\
  rep_ok r' /\ shards r' <> None /\ (forall s, s ∈ o' <-> is_Some (current r' s)) /\
  o' = o ∪ list_to_set visit /\
  (forall s w, current r' s = Some w ->
     w = mkWorker s addrs true \/ (current r s = Some w /\ (s ∈ visit -> changed = false))) /\
  (changed = false -> list_to_set visit ⊆ o -> r' = r).
Proof.
  revert o r. induction visit as [|s visit IH]; intros o r Hr Hn Ho; cbn [start_led].
  { exists o, r. split_and!; try done; [set_solver|]. intros s w Hw. right. split; [done|]. by intros ?%not_elem_of_nil. }
  destruct (negb (bool_decide (s ∈ o)) || changed) eqn:Eg.
  - destruct (Add_spec s addrs r Hr Hn) as (r1 & -> & A1 & A2 & A3).
    assert (forall s', s' ∈ {[s]} ∪ o <-> is_Some (current r1 s')) as Ho'.
    { intros s'. rewrite A3, elem_of_union, elem_of_singleton, Ho. destruct (decide (s' = s)); [split; [eauto|by left]|tauto]. }
    destruct (IH _ _ A1 A2 Ho') as (o' & r' & -> & I1 & I2 & I3 & I4 & I5 & I6). exists o', r'.
    split_and!; try done; [rewrite I4; cbn; clear; set_solver| |].
    + intros s' w Hw. destruct (I5 s' w Hw) as [?|[Hc Hv]]; [by left|]. rewrite A3 in Hc. destruct (decide (s' = s)) as [E|E]; [left; by simplify_eq|].
      right. split; [done|]. intros [?|?]%elem_of_cons; [done|]. by apply Hv.
    + intros -> Hsub. go_bool. destruct Eg as [Eg|?]; [|done]. go_bool. cbn in Hsub. clear -Hsub Eg. set_solver.
  - go_bool. destruct (IH ({[s]} ∪ o) r Hr Hn) as (o' & r' & -> & I1 & I2 & I3 & I4 & I5 & I6).
    { intros s'. rewrite elem_of_union, elem_of_singleton, <- Ho. clear -H. naive_solver. }
    exists o', r'. split_and!; try done; [rewrite I4; cbn; clear; set_solver| |].
    + intros s' w Hw. destruct (I5 s' w Hw) as [?|[Hc Hv]]; [by left|]. by right.
    + intros _ Hsub. apply I6; [done|]. cbn in Hsub. clear -Hsub. set_solver.
Qed.

(** ** Runs of the loop *)

Section Leadership.
Context (self : string).

Definition followers_now (alive : list string) (memberAt : string -> option Fsm.Member) : list FollowerAddr :=
  followerAddrsFor memberAt (aliveFollowers self alive).

Inductive runs : leadership -> Replicator -> Prop :=
| runs_start : runs leadership0 New
| runs_tick st r leaders alive memberAt ds ws st' r' :
    runs st r -> Forall clean (followers_now alive memberAt) ->
    ds ≡ₚ elements (owned st) -> ws ≡ₚ elements (led self leaders) ->
    leadership_tick self leaders alive memberAt ds ws st r = Some (st', r') -> runs st' r'.

Definition loop_inv (st : leadership) (r : Replicator) : Prop :=
  rep_ok r /\ shards r <> None /\ (forall s, s ∈ owned st <-> is_Some (current r s)) /\
  exists a, Forall clean a /\ lastFollowerKey st = followerSetKey a /\
    forall s w, current r s = Some w -> w = mkWorker s a true.

Lemma led_spec leaders s : s ∈ led self leaders <-> leaders !! s = Some self.
Proof.
  unfold led. rewrite elem_of_dom. split.
  - intros [l [Hl E]%map_lookup_filter_Some]. cbn in E. by subst.
  - intros Hl. exists self. by apply map_lookup_filter_Some.
Qed.

Lemma tick_spec leaders alive memberAt ds ws st r :
  loop_inv st r -> Forall clean (followers_now alive memberAt) ->
  ds ≡ₚ elements (owned st) -> ws ≡ₚ elements (led self leaders) ->
  exists st' r', leadership_tick self leaders alive memberAt ds ws st r = Some (st', r') /\
    rep_ok r' /\ shards r' <> None /\ owned st' = led self leaders /\ (forall s, s ∈ owned st' <-> is_Some (current r' s)) /\
    lastFollowerKey st' = followerSetKey (followers_now alive memberAt) /\
    (forall s w, current r' s = Some w -> w = mkWorker s (followers_now alive memberAt) true) /\
    (owned st = led self leaders -> lastFollowerKey st = followerSetKey (followers_now alive memberAt) -> r' = r).
Proof.
  intros (Hr & Hn & Ho & a & Ha & Hk & Hw) Hc Hd Hs. unfold leadership_tick. fold (followers_now alive memberAt).
  set (want := led self leaders). set (addrs := followers_now alive memberAt) in *.
  assert (list_to_set ds = owned st) as Ed by (rewrite Hd; apply list_to_set_elements_L).
  assert (list_to_set ws = want) as Ew by (rewrite Hs; apply list_to_set_elements_L).
  pose proof (drop_lost_spec want ds (owned st) r Hr Hn Ho) as HD.
  destruct (drop_lost want ds (owned st) r) as [o1 r1]. destruct HD as (D1 & D2 & D3 & D4 & D5 & D6).
  set (changed := negb (String.eqb (followerSetKey addrs) (lastFollowerKey st))).
  destruct (start_led_spec changed addrs ws o1 r1 D1 D2 D3) as (o2 & r2 & -> & S1 & S2 & S3 & S4 & S5 & S6).
  rewrite Ed in D4, D6. rewrite Ew in S4, S6. assert (o2 = want) as Eo by (rewrite S4, D4; clear; set_unfold; intros x; destruct (decide (x ∈ want)); tauto).
  eexists _, r2. cbn [owned lastFollowerKey]. split_and!; try done.
  - destruct changed eqn:E; [done|]. subst changed. go_bool. by apply String.eqb_eq in E.
  - intros s w Hsw. destruct (S5 s w Hsw) as [?|[Hold Hch]]; [done|].
    assert (s ∈ want) as Hin by (rewrite <- Eo; apply S3; eauto).
    assert (changed = false) as E by (apply Hch; rewrite Hs; by apply elem_of_elements). subst changed. go_bool.
    apply String.eqb_eq in E. rewrite Hk in E. apply followerSetKey_inj in E as <-; [|done|done].
    by apply Hw, D5.
  - intros Hown Hkey. rewrite D6 in S6 by (by rewrite Hown). apply S6; [|set_solver].
    subst changed. by rewrite Hkey, String.eqb_refl.
Qed.

Lemma runs_inv st r : runs st r -> loop_inv st r.
Proof.
  induction 1 as [|st r leaders alive memberAt ds ws st' r' _ IH Hc Hd Hs E].
  - split_and!; [apply New_ok|done| |].
    + intros s. unfold current. cbn. rewrite lookup_empty. split; [set_solver|by intros [? ?]].
    + exists []. split_and!; [done..|]. intros s w H. unfold current in H. cbn in H. by rewrite lookup_empty in H.
  - destruct (tick_spec leaders alive memberAt ds ws st r IH Hc Hd Hs) as (st1 & r1 & E1 & T1 & T2 & T3 & T4 & T5 & T6 & _).
    rewrite E1 in E. simplify_eq. split_and!; [done..|]. by exists (followers_now alive memberAt).
Qed.

(** C13. The workers follow the leadership.  After every tick of the loop, in
    whatever order it visits the shards, a shard has a worker exactly when this
    node leads it, the worker streams to the current live and registered
    followers, and every other worker ever started is cancelled, so no shard is
    replicated twice; a tick that finds nothing changed leaves the running streams
    alone.  The replicator has not been closed, and the followers' names and addresses are
    free of the separators of the key that the loop compares them by ([clean]). *)
Theorem workers_follow_leadership st r leaders alive memberAt ds ws :
  runs st r -> Forall clean (followers_now alive memberAt) ->
  ds ≡ₚ elements (owned st) -> ws ≡ₚ elements (led self leaders) ->
  exists st' r', leadership_tick self leaders alive memberAt ds ws st r = Some (st', r') /\
    (forall s, current r' s = if decide (leaders !! s = Some self)
                              then Some (mkWorker s (followers_now alive memberAt) true) else None) /\
    (forall i w, workers r' !! i = Some w -> w_live w = true -> current r' (w_shard w) = Some w) /\
    (owned st = led self leaders -> lastFollowerKey st = followerSetKey (followers_now alive memberAt) -> r' = r).
Proof.
  intros Hruns Hc Hd Hs. apply runs_inv in Hruns.
  destruct (tick_spec leaders alive memberAt ds ws st r Hruns Hc Hd Hs) as (st' & r' & E & T1 & T2 & T3 & T4 & T5 & T6 & T7).
  exists st', r'. split_and!; [done| |by intros; eapply rep_live|done]. intros s. destruct (current r' s) as [w|] eqn:Ew.
  - rewrite decide_True; [by rewrite (T6 s w Ew)|]. apply led_spec. rewrite <- T3. apply T4. by rewrite Ew.
  - rewrite decide_False; [done|]. rewrite <- led_spec, <- T3, T4, Ew. by intros [? ?].
Qed.
End Leadership.

(** ** The ring *)

Lemma AddNode_nodes n r : Ring.nodes (Ring.AddNode n r) = {[n]} ∪ Ring.nodes r.
Proof. unfold Ring.AddNode. case_decide; [set_solver|done]. Qed.

Lemma RemoveNode_nodes n r : Ring.nodes (Ring.RemoveNode n r) = Ring.nodes r ∖ {[n]}.
Proof. unfold Ring.RemoveNode. case_decide; [done|set_solver]. Qed.

Lemma add_all_nodes (have : gset string) l r :
  Ring.nodes (foldl (fun r n => if decide (n ∈ have) then r else Ring.AddNode n r) r l) =
  Ring.nodes r ∪ (list_to_set l ∖ have).
Proof.
  revert r. induction l as [|n l IH]; intros r; cbn [foldl]; [set_solver|]. rewrite IH.
  apply set_eq. intros x. cbn [list_to_set].
  case_decide; [|rewrite AddNode_nodes]; rewrite ?elem_of_union, !elem_of_difference, ?elem_of_union, ?elem_of_singleton;
    destruct (decide (x = n)) as [->|]; tauto.
Qed.

Lemma remove_all_nodes (want : gset string) l r :
  Ring.nodes (foldl (fun r n => if decide (n ∈ want) then r else Ring.RemoveNode n r) r l) =
  Ring.nodes r ∖ (list_to_set l ∖ want).
Proof.
  revert r. induction l as [|n l IH]; intros r; cbn [foldl]; [set_solver|]. rewrite IH.
  apply set_eq. intros x. cbn [list_to_set].
  case_decide; [|rewrite RemoveNode_nodes]; rewrite !elem_of_difference, ?elem_of_union, ?elem_of_singleton;
    destruct (decide (x = n)) as [->|]; tauto.
Qed.

Lemma refresh_reachable v f adds removes r : Ring.reachable v r -> Ring.reachable v (refreshRingOnce f adds removes r).
Proof.
  intros Hr. unfold refreshRingOnce. generalize (list_to_set (Ring.Members r) : gset string) as have. intros have.
  assert (Ring.reachable v (foldl (fun r n => if decide (n ∈ have) then r else Ring.AddNode n r) r adds)) as H.
  { revert r Hr. induction adds as [|n l IH]; intros r Hr; cbn [foldl]; [done|]. apply IH. case_decide; [done|by constructor]. }
  revert H. generalize (foldl (fun r n => if decide (n ∈ have) then r else Ring.AddNode n r) r adds). intros r1 H.
  revert r1 H. induction removes as [|n l IH]; intros r1 H; cbn [foldl]; [done|]. apply IH. case_decide; [done|by constructor].
Qed.

Lemma Members_nodes r : list_to_set (Ring.Members r) = Ring.nodes r.
Proof. unfold Ring.Members. rewrite sort_strings_perm. apply list_to_set_elements_L. Qed.

(** The ring follows the registered members.  One refresh, in whatever order the
    maps are visited, makes the ring's nodes exactly the members of the state
    machine, and a ring kept this way gives a shard to a registered member as soon
    as there is one. *)
Theorem ring_follows_members v f adds removes r :
  Ring.reachable v r -> adds ≡ₚ elements (dom (Fsm.Members f)) -> removes ≡ₚ Ring.Members r ->
  let r' := refreshRingOnce f adds removes r in
  Ring.reachable v r' /\ Ring.nodes r' = dom (Fsm.members f) /\
  (forall s, Ring.positions r' <> [] -> is_Some (Fsm.MemberAt (Ring.LeaderFor s r') f)).
Proof.
  intros Hr Ha Hd r'. assert (Ring.reachable v r') as Hr' by by apply refresh_reachable.
  assert (Ring.nodes r' = dom (Fsm.members f)) as Hn.
  { assert (list_to_set removes = Ring.nodes r) as Er by (rewrite <- Members_nodes; by apply list_to_set_perm_L).
    assert (list_to_set adds = dom (Fsm.Members f)) as Ea
      by (rewrite <- list_to_set_elements_L; by apply list_to_set_perm_L).
    subst r'. unfold refreshRingOnce. rewrite remove_all_nodes, add_all_nodes, Er, Ea, Members_nodes.
    unfold Fsm.Members. rewrite dom_fmap_L. apply set_eq. intros x. rewrite !elem_of_difference, elem_of_union, elem_of_difference.
    destruct (decide (x ∈ dom (Fsm.members f))), (decide (x ∈ Ring.nodes r)); tauto. }
  split_and!; [done|done|]. intros s Hp. pose proof (Ring.reachable_ok v r' Hr') as Hok.
  destruct (Ring.LeaderFor_clockwise r' s Hok Hp) as (p & _ & Ho). destruct Hok as (_ & _ & Hf).
  apply Hf in Ho as [_ Ho]. rewrite Hn in Ho. by apply elem_of_dom in Ho.
Qed.

(** ** Registration of a cluster started from flags

    The state machine's registrations over a run: a node's Raft instance accepts a
    command only while it is the leader. *)

Record boot := mkBoot { raft_leader : option string; elected : gset string; fsm : Fsm.FSM }.

Definition boot0 : boot := mkBoot None ∅ Fsm.NewFSM.

(** The strings of a configuration are ones JSON can carry. *)
Definition config_ok (cfg : Config) : Prop :=
  Json.utf8_ok (NodeID cfg) /\ Json.utf8_ok (RaftBind cfg) /\ Json.utf8_ok (ClientAddr cfg).

Section Boot.
Context (cfgs : list Config).

Inductive boot_step : boot -> boot -> Prop :=
| bs_elect n b : boot_step b {| b with raft_leader := Some n; elected := {[n]} ∪ elected b |}
| bs_depose b : boot_step b {| b with raft_leader := None |}
| bs_register cfg accepted b :
    cfg ∈ cfgs -> (accepted = true -> raft_leader b = Some (NodeID cfg)) ->
    boot_step b {| b with fsm := registerSelf cfg accepted (fsm b) |}
| bs_retry cfg accepted b :
    cfg ∈ cfgs -> (accepted = true -> raft_leader b = Some (NodeID cfg)) ->
    boot_step b {| b with fsm := (retry_register cfg accepted (fsm b)).2 |}
| bs_count is_leader accepted b :
    boot_step b {| b with fsm := set_shard_count is_leader accepted (fsm b) |}
| bs_peer cfg p is_leader accepted b :
    cfg ∈ cfgs -> p ∈ Peers cfg -> (accepted = true -> raft_leader b = Some (NodeID cfg)) ->
    boot_step b {| b with fsm := register_peer cfg is_leader accepted p (fsm b) |}
| bs_assign n s accepted b :
    Route.name_ok n -> 0 <= s < 2 ^ 32 ->
    boot_step b {| b with fsm := applyCmd accepted (Fsm.mkCommand Fsm.OpSetShardLeader n "" "" s) (fsm b) |}.

Inductive boots : boot -> Prop :=
| boots_start : boots boot0
| boots_step b b' : boots b -> boot_step b b' -> boots b'.

Definition boot_inv (b : boot) : Prop :=
  (forall n, raft_leader b = Some n -> n ∈ elected b) /\ dom (Fsm.members (fsm b)) ⊆ elected b.

Lemma applyCmd_members accepted c f : Fsm.command_ok c ->
  Fsm.c_Op c = Fsm.OpSetShardCount \/ Fsm.c_Op c = Fsm.OpSetShardLeader ->
  Fsm.members (applyCmd accepted c f) = Fsm.members f.
Proof.
  intros Hc Hop. unfold applyCmd. destruct accepted; [|done]. unfold Route.commit. rewrite Fsm.Apply_marshal by done.
  unfold Fsm.apply_command. destruct Hop as [-> | ->]; repeat (rewrite decide_False by done); rewrite decide_True by done; by repeat case_decide.
Qed.

Lemma registerSelf_members cfg accepted f : config_ok cfg ->
  dom (Fsm.members (registerSelf cfg accepted f)) ⊆
  (if accepted then {[NodeID cfg]} else ∅) ∪ dom (Fsm.members f).
Proof.
  intros (H1 & H2 & H3). unfold registerSelf, applyCmd. destruct accepted; [|set_solver]. unfold Route.commit.
  rewrite Fsm.Apply_marshal by done. unfold Fsm.apply_command. cbn [Fsm.c_Op Fsm.c_NodeID].
  rewrite decide_False, decide_True by done. case_decide; cbn [fst Fsm.members]; [set_solver|].
  rewrite dom_insert_L. set_solver.
Qed.

Lemma boots_inv b :
  Forall (fun cfg => config_ok cfg /\ Forall (fun p => p_ClientAddr p = "") (Peers cfg)) cfgs -> boots b -> boot_inv b.
Proof.
  intros Hc. rewrite list.Forall_forall in Hc. induction 1 as [|b b' _ [I1 I2] Hs]; [done|].
  destruct Hs as [n b|b|cfg accepted b Hin Ha|cfg accepted b Hin Ha|is_leader accepted b|cfg p is_leader accepted b Hin Hp Ha|n s accepted b Hn Hr];
    split; cbn [raft_leader elected fsm]; try done.
  - intros m [= <-]. set_solver.
  - set_solver.
  - rewrite registerSelf_members by by apply Hc. destruct accepted; [|set_solver]. specialize (I1 _ (Ha eq_refl)). set_solver.
  - unfold retry_register. destruct (Fsm.MemberAt (NodeID cfg) (fsm b)); [done|]. cbn [snd].
    rewrite registerSelf_members by by apply Hc. destruct accepted; [|set_solver]. specialize (I1 _ (Ha eq_refl)). set_solver.
  - unfold set_shard_count. case_match; [|done]. by rewrite applyCmd_members by first [done|by left].
  - unfold register_peer. destruct (Hc cfg Hin) as [_ HP]. rewrite list.Forall_forall in HP. rewrite (HP p Hp).
    by rewrite orb_true_r.
  - destruct Hn as [Hn _]. by rewrite applyCmd_members by first [done|by right].
Qed.

(** C38. A cluster whose peers come from the [--peers] flag replicates nowhere until
    other nodes have been Raft leaders: the flag carries no client address and no
    gossip address, so the gossip layer is told to join the peers' Raft ports, and
    a node is registered only while it is itself the leader.  As long as [self] is
    the only node that ever was, it streams its shards to no follower, whoever is
    alive. *)
Theorem flag_cluster_has_no_followers b self alive :
  Forall (fun cfg => config_ok cfg /\ exists raw, ParsePeers raw = Ok (Peers cfg)) cfgs ->
  boots b -> elected b ⊆ {[self]} ->
  Forall (fun cfg => join_addrs cfg = map p_RaftAddr (filter (fun p => p_NodeID p <> NodeID cfg) (Peers cfg))) cfgs /\
  followers_now self alive (fun n => Fsm.MemberAt n (fsm b)) = [].
Proof.
  intros Hc Hb He. split.
  - eapply list.Forall_impl; [exact Hc|]. intros cfg (_ & raw & E). apply ParsePeers_addrs in E. unfold join_addrs.
    induction E as [|p ps [_ Hg] _ IH]; [done|]. cbn [omap list_omap]. rewrite filter_cons.
    destruct (String.eqb_spec (p_NodeID p) (NodeID cfg)) as [E|E].
    + by rewrite decide_False by naive_solver.
    + rewrite Hg, decide_True by done. cbn. by f_equal.
  - assert (boot_inv b) as [_ Hm].
    { apply boots_inv; [|done]. eapply list.Forall_impl; [exact Hc|]. intros cfg (? & raw & E). split; [done|].
      apply ParsePeers_addrs in E. eapply list.Forall_impl; [exact E|]. naive_solver. }
    unfold followers_now, followerAddrsFor, aliveFollowers. induction alive as [|n alive IH]; [done|].
    rewrite filter_cons. case_decide as E; [|done]. cbn [omap list_omap]. unfold Fsm.MemberAt at 1.
    destruct (Fsm.members (fsm b) !! n) as [m|] eqn:Em; [|done]. destruct E. apply elem_of_dom_2 in Em. set_solver.
Qed.
End Boot.

(** ** Shutdown *)

Lemma foldr_cancel_lookup l ws i w :
  foldr cancel ws l !! i = Some w ->
  exists w0, ws !! i = Some w0 /\ w_shard w = w_shard w0 /\ w_followers w = w_followers w0 /\
    w_live w = if decide (i ∈ l) then false else w_live w0.
Proof.
  revert w. induction l as [|j l IH]; intros w Hw; cbn [foldr] in Hw.
  - exists w. rewrite decide_False by apply not_elem_of_nil. done.
  - rewrite cancel_lookup in Hw. case_decide as E.
    + subst j. destruct (foldr cancel ws l !! i) as [w1|] eqn:E1; [|done]. injection Hw as <-.
      destruct (IH w1 eq_refl) as (w0 & H0 & H1 & H2 & _). exists w0. rewrite decide_True by by left. done.
    + destruct (IH w Hw) as (w0 & H0 & H1 & H2 & H3). exists w0. split_and!; [done..|]. rewrite H3.
      destruct (decide (i ∈ l)); [by rewrite decide_True by by right|].
      rewrite decide_False; [done|]. by intros [?|?]%elem_of_cons.
Qed.

Lemma Close_ok r : rep_ok r -> rep_ok (Close r) /\ shards (Close r) = None.
Proof.
  intros Hr. unfold Close. destruct (shards r) as [m|] eqn:Em; [|done]. split; [|done].
  unfold rep_ok in Hr. rewrite Em in Hr. destruct Hr as [_ H]. intros i w. cbn [workers].
  intros (w0 & Hw0 & Hs & _ & ->)%foldr_cancel_lookup. destruct (decide (i ∈ _)) as [|Hni]; [done|].
  destruct (w_live w0) eqn:El; [|done]. destruct Hni. apply list_elem_of_fmap. exists (w_shard w0, i).
  split; [done|]. apply elem_of_map_to_list. by apply H.
Qed.

Lemma start_led_closed changed addrs visit o r s :
  shards r = None -> s ∈ visit -> (changed = true \/ s ∉ o) -> start_led changed addrs visit o r = None.
Proof.
  intros Hr. revert o. induction visit as [|x visit IH]; intros o Hin Hs; [by apply not_elem_of_nil in Hin|].
  cbn [start_led]. destruct (negb (bool_decide (x ∈ o)) || changed) eqn:E; [unfold Add; by rewrite Hr|].
  go_bool. destruct Hs as [?|Hs]; [congruence|]. apply elem_of_cons in Hin as [->|Hin]; [done|]. apply IH; [done|].
  right. set_solver.
Qed.

Lemma drop_lost_closed want visit o r : shards r = None ->
  (drop_lost want visit o r).1 ⊆ o /\ (drop_lost want visit o r).2 = r.
Proof.
  intros Hr. revert o. induction visit as [|s visit IH]; intros o; cbn [drop_lost]; [done|]. case_decide; [apply IH|].
  unfold Drop. rewrite Hr. destruct (IH (o ∖ {[s]})) as [H1 H2]. split; [set_solver|done].
Qed.

(** Shutting the replicator down cancels every worker; but a tick of the
    leadership loop that is still under way and has a shard to start writes to the
    nil map that [Close] left, and panics. *)
Theorem shutdown_cancels_but_tick_panics self st r leaders alive memberAt ds ws s :
  runs self st r ->
  (forall i w, workers (Close r) !! i = Some w -> w_live w = false) /\
  (leaders !! s = Some self -> s ∉ owned st -> ws ≡ₚ elements (led self leaders) ->
   leadership_tick self leaders alive memberAt ds ws st (Close r) = None).
Proof.
  intros Hr. apply runs_inv in Hr as (Hok & _). destruct (Close_ok r Hok) as [Hc Hn]. split.
  { unfold rep_ok in Hc. by rewrite Hn in Hc. }
  intros Hl Hs Hw. unfold leadership_tick. destruct (drop_lost_closed (led self leaders) ds (owned st) _ Hn) as [Ho Hd].
  destruct (drop_lost _ ds _ _) as [o r']. cbn [fst snd] in Ho, Hd. subst r'. rewrite (start_led_closed _ _ ws o _ s); [done|done| |].
  - rewrite Hw. by apply elem_of_elements, led_spec.
  - right. set_solver.
Qed.

(** ** Witnesses *)

Definition named (n : string) : option Fsm.Member := Some (Fsm.mkMember n "" n).

Definition demo_leaders : gmap Z string := {[ 0 := "n1"%string; 1 := "n2"%string ]}.

Lemma demo_clean alive : alive = ["n1"; "n2"; "n3"]%string \/ alive = ["n1"; "n3"; "n2"]%string ->
  Forall clean (followers_now "n1" alive named).
Proof. intros [-> | ->]; repeat constructor; apply (bool_decide_unpack _); vm_compute; exact I. Qed.

Definition demo_addrs : list FollowerAddr := [mkFollower "n2" "n2"; mkFollower "n3" "n3"].

Example workers_follow_leadership_witness :
  exists st' r', leadership_tick "n1" demo_leaders ["n1"; "n2"; "n3"]%string named [] [0] leadership0 New = Some (st', r') /\
    (forall s, current r' s = if decide (demo_leaders !! s = Some "n1"%string)
                              then Some (mkWorker s demo_addrs true) else None) /\
    (forall i w, workers r' !! i = Some w -> w_live w = true -> current r' (w_shard w) = Some w) /\
    (∅ = led "n1" demo_leaders -> ""%string = followerSetKey demo_addrs -> r' = New).
Proof.
  apply (workers_follow_leadership "n1" leadership0 New demo_leaders ["n1"; "n2"; "n3"]%string named [] [0]);
    [apply runs_start|by apply demo_clean; left|done|by vm_compute].
Defined.

Definition demo_members : Fsm.FSM := {| Fsm.NewFSM with Fsm.members := {[ "n1"%string := Fsm.mkMember "n1" "a" "b" ]} |}.

Example ring_follows_members_witness :
  let r' := refreshRingOnce demo_members ["n1"%string] [] (Ring.New 2) in
  Ring.reachable 2 r' /\ Ring.nodes r' = dom (Fsm.members demo_members) /\
  (forall s, Ring.positions r' <> [] -> is_Some (Fsm.MemberAt (Ring.LeaderFor s r') demo_members)).
Proof.
  apply (ring_follows_members 2 demo_members ["n1"%string] [] (Ring.New 2)); [apply Ring.reach_new|by vm_compute|by vm_compute].
Defined.

Example shutdown_cancels_but_tick_panics_witness :
  (forall i w, workers (Close New) !! i = Some w -> w_live w = false) /\
  leadership_tick "n1" demo_leaders ["n1"; "n2"; "n3"]%string named [] [0] leadership0 (Close New) = None.
Proof.
  destruct (shutdown_cancels_but_tick_panics "n1" leadership0 New demo_leaders ["n1"; "n2"; "n3"]%string named [] [0] 0
    (runs_start "n1")) as [H1 H2].
  split; [exact H1|]. apply H2; [reflexivity|apply (bool_decide_unpack _); vm_compute; exact I|by vm_compute].
Defined.

(** The key of a follower set is not stable: when gossip lists the same live
    members in another order, the tick takes the set for a changed one, cancels the
    running worker and starts a new one. *)
Theorem reordered_view_restarts_streams :
  exists st r r', runs "n1" st r /\ workers r = [mkWorker 0 demo_addrs true] /\
    (leadership_tick "n1" demo_leaders ["n1"; "n3"; "n2"]%string named [0] [0] st r) = Some r' /\
    workers r'.2 = [mkWorker 0 demo_addrs false; mkWorker 0 (reverse demo_addrs) true].
Proof.
  destruct (leadership_tick "n1" demo_leaders ["n1"; "n2"; "n3"]%string named [] [0] leadership0 New) as [[st r]|] eqn:E;
    [|exfalso; vm_compute in E; done].
  exists st, r. eexists. split.
  - refine (runs_tick _ _ _ demo_leaders ["n1"; "n2"; "n3"]%string named [] [0] st r (runs_start _) _ _ _ E);
      [by apply demo_clean; left|done|by vm_compute].
  - vm_compute in E. injection E as <- <-. split; [done|]. split; vm_compute; reflexivity.
Qed.

Definition flag_config (n : string) : Config :=
  mkConfig n (n +:+ ":7001") (n +:+ ":8001") "/data/raft" "data/shardwal" (n +:+ ":9095")
    [mkPeer "n1" "n1:7001" "" ""; mkPeer "n2" "n2:7001" "" ""; mkPeer "n3" "n3:7001" "" ""].

Definition flag_configs : list Config := map flag_config ["n1"; "n2"; "n3"]%string.

Lemma flag_configs_ok : Forall (fun cfg => config_ok cfg /\ exists raw, ParsePeers raw = Ok (Peers cfg)) flag_configs.
Proof.
  apply list.Forall_forall. intros cfg (n & -> & Hn)%list_elem_of_fmap. split.
  - repeat (apply elem_of_cons in Hn as [->|Hn]; [repeat split; vm_compute; reflexivity|]). by apply not_elem_of_nil in Hn.
  - exists "n1@n1:7001,n2@n2:7001,n3@n3:7001"%string. vm_compute. reflexivity.
Qed.

(** The first leader registers itself and sets the shard count, *)
Definition flag_boot1 : boot :=
  mkBoot (Some "n1"%string) ({[ "n1"%string ]} ∪ ∅)
    (set_shard_count true true (registerSelf (flag_config "n1") true Fsm.NewFSM)).

(** and goes through its peers. *)
Definition flag_boot : boot :=
  {| flag_boot1 with fsm := foldr (register_peer (flag_config "n1") true true) (fsm flag_boot1) (Peers (flag_config "n1")) |}.

Lemma flag_boot_peers b ps :
  raft_leader b = Some "n1"%string -> boots flag_configs b -> ps ⊆ Peers (flag_config "n1") ->
  boots flag_configs {| b with fsm := foldr (register_peer (flag_config "n1") true true) (fsm b) ps |}.
Proof.
  intros Hl Hb. induction ps as [|p ps IH]; intros Hps; [by destruct b|]. cbn [foldr].
  eapply boots_step; [apply IH; set_solver|].
  apply (bs_peer flag_configs (flag_config "n1") p true true
           {| b with fsm := foldr (register_peer (flag_config "n1") true true) (fsm b) ps |}); [by left|set_solver|done].
Qed.

Lemma flag_boot_boots : boots flag_configs flag_boot.
Proof.
  unfold flag_boot. apply (flag_boot_peers flag_boot1 (Peers (flag_config "n1"))); [done| |done].
  eapply boots_step; [eapply boots_step; [eapply boots_step; [apply boots_start|apply (bs_elect _ "n1" boot0)]|]|].
  - apply (bs_register flag_configs (flag_config "n1") true); [by left|done].
  - apply (bs_count flag_configs true true).
Qed.

Example flag_cluster_has_no_followers_witness :
  Fsm.members (fsm flag_boot) = {[ "n1"%string := Fsm.mkMember "n1" "n1:7001" "n1:9095" ]} /\
  Forall (fun cfg => join_addrs cfg = map p_RaftAddr (filter (fun p => p_NodeID p <> NodeID cfg) (Peers cfg))) flag_configs /\
  followers_now "n1" ["n1"; "n2"; "n3"]%string (fun n => Fsm.MemberAt n (fsm flag_boot)) = [].
Proof.
  split; [vm_compute; reflexivity|].
  apply (flag_cluster_has_no_followers flag_configs flag_boot "n1" ["n1"; "n2"; "n3"]%string);
    [exact flag_configs_ok|exact flag_boot_boots|cbn [flag_boot elected]; set_solver].
Defined.

End Orchestrate.
