(* ===== verification/ClusterStart.v ===== *)
(** * Bringing a cluster node up and down (internal/cluster/cluster.go, internal/cluster/metadata/metadata.go)

    [Module Boot] follows what is open: [metadata.Start] opens two BoltDB stores, a
    transport and a Raft node one after the other, [cluster.Start] starts gossip before it
    and the shard manager after it, and their [Shutdown]s close them again.  hashicorp's
    raft, raft-boltdb and memberlist are not part of the sources: an outcome says for each
    of their calls whether it succeeds.  The readings of the Raft node that the status and
    the gauges show ([State], [Term], [Apply]) are here too.

    The theorems: what is open after a start that failed, and after a shutdown. *)

From S2P Require Import Prelude GoLib GoJson GoFloat ClusterConfig Telemetry.
Import Json Config.

Module Boot.
Local Open Scope Z_scope.

Inductive resource := Gossip | LogStore | StableStore | Transport | RaftNode | ShardManager.

#[global] Instance resource_eq_dec : EqDecision resource.
Proof. solve_decision. Defined.

(** ** metadata.go *)

Record Options := mkOptions {
  op_NodeID : string; op_BindAddr : string; op_AdvertiseAddr : string; op_DataDir : string; op_Bootstrap : bool;
  op_InitialPeers : list (string * string)
}.

(** Which calls of [Start] succeed; [bs_err] is [fut.Error()] of the bootstrap other than
    [ErrCantBootstrap]. *)
Record meta_io := mkMetaIO {
  mkdir_ok : bool; log_ok : bool; stable_ok : bool; snap_ok : bool; resolve_ok : bool; tcp_ok : bool; raft_ok : bool; bs_err : bool
}.

Inductive start_err :=
| Required (field : string) | Mkdir | BoltLog | BoltStable | SnapStore | ResolveAddr | TcpTransport | RaftNew | BootstrapErr
| BadConfig (e : config_err) | MembershipErr | MetadataErr (e : start_err) | ShardErr.

(** The result of a start, and what it leaves open. *)
Definition metadata_Start (o : Options) (io : meta_io) : result start_err unit * list resource :=
  if String.eqb (op_NodeID o) "" then (Err (Required "NodeID"), [])
  else if String.eqb (op_BindAddr o) "" then (Err (Required "BindAddr"), [])
  else if String.eqb (op_DataDir o) "" then (Err (Required "DataDir"), [])
  else if negb (mkdir_ok io) then (Err Mkdir, [])
  else if negb (log_ok io) then (Err BoltLog, [])
  else if negb (stable_ok io) then (Err BoltStable, [LogStore])
  else if negb (snap_ok io) then (Err SnapStore, [LogStore; StableStore])
  else if negb (resolve_ok io) then (Err ResolveAddr, [LogStore; StableStore])
  else if negb (tcp_ok io) then (Err TcpTransport, [LogStore; StableStore])
  else if negb (raft_ok io) then (Err RaftNew, [LogStore; StableStore; Transport])
  else if op_Bootstrap o && bs_err io then (Err BootstrapErr, [LogStore; StableStore; Transport; RaftNode])
  else (Ok tt, [LogStore; StableStore; Transport; RaftNode]).

(** [raft.Apply]'s future: its error, or the response of the state machine. *)
Inductive future := FutureErr (e : Z) | FutureResp (r : option Z).

Definition Apply (f : future) : option Z :=
  match f with FutureErr e => Some e | FutureResp (Some e) => Some e | FutureResp None => None end.

Inductive RaftState := Follower | Candidate | Leader | RaftShutdown | OtherState.

Definition State (s : RaftState) : string :=
  match s with
  | Leader => "leader" | Candidate => "candidate" | Follower => "follower" | RaftShutdown => "shutdown" | OtherState => "unknown"
  end.

Definition IsLeader (s : RaftState) : bool := match s with Leader => true | _ => false end.

(** [strconv.ParseUint(v, 10, 64)]. *)
Definition ParseUint (v : bytes) : option Z :=
  if decide (v = []) then None
  else if forallb is_digit v then let n := digits_val v in if n <? 2 ^ 64 then Some n else None
  else None.

(** The entry ["term"] of Raft's statistics. *)
Definition Term (stats : gmap string bytes) : Z :=
  match stats !! "term"%string with
  | Some v => default 0 (ParseUint v)
  | None => 0
  end.

(** [Shutdown] of the Raft node closes its transport; the stores are only closed after it. *)
Record down_io := mkDownIO { raft_down_ok : bool; log_close_ok : bool; stable_close_ok : bool; gossip_down_ok : bool }.

Definition close (rs : list resource) (open : list resource) : list resource := filter (fun r => r ∉ rs) open.

Inductive down_err := RaftDown | CloseLog | CloseStable | GossipDown | BothDown.

Definition metadata_Shutdown (io : down_io) (open : list resource) : option down_err * list resource :=
  if negb (raft_down_ok io) then (Some RaftDown, open)
  else
    let open := close [RaftNode; Transport] open in
    if negb (log_close_ok io) then (Some CloseLog, open)
    else
      let open := close [LogStore] open in
      if negb (stable_close_ok io) then (Some CloseStable, open) else (None, close [StableStore] open).

(** ** cluster.go *)

(** [membership.Start] and [NewManager] succeed or not; gossip's [Shutdown] is its own. *)
Record start_io := mkStartIO { mem_ok : bool; meta : meta_io; manager_ok : bool; undo : down_io }.

Definition gossip_down (open : list resource) : list resource := close [Gossip] open.

Definition metadata_options (c : Config) : Options :=
  mkOptions (NodeID c) (RaftBind c) (RaftBind c) (RaftDir c) (0 <? zlen (raft_peers c)) (raft_peers c).

Definition Start (c : Config) (io : start_io) : result start_err unit * list resource :=
  match Validate c with
  | Some e => (Err (BadConfig e), [])
  | None =>
      if negb (mem_ok io) then (Err MembershipErr, [])
      else
        let '(r, open) := metadata_Start (metadata_options c) (meta io) in
        match r with
        | Err e => (Err (MetadataErr e), gossip_down (Gossip :: open))
        | Ok _ =>
            let open := Gossip :: open in
            if negb (manager_ok io) then
              let '(_, open) := metadata_Shutdown (undo io) open in (Err ShardErr, gossip_down open)
            else (Ok tt, ShardManager :: open)
        end
  end.

(** [Shutdown]: the replicator and the shard logs first, then Raft, then gossip whatever
    Raft answered. *)
Definition Shutdown (io : down_io) (open : list resource) : option down_err * list resource :=
  let open := close [ShardManager] open in
  let '(metaErr, open) := metadata_Shutdown io open in
  let open := if gossip_down_ok io then gossip_down open else open in
  (match metaErr, gossip_down_ok io with
   | Some _, false => Some BothDown
   | Some e, true => Some e
   | None, false => Some GossipDown
   | None, true => None
   end, open).

(** [Status] over the readings of its parts. *)
Record Status := mkStatus {
  s_NodeID : string; s_AliveMembers : list string; s_MetadataLeader : string; s_IsLeader : bool; s_Role : string; s_Term : Z
}.

Definition status (c : Config) (alive : list string) (leader : string) (st : RaftState) (stats : gmap string bytes) : Status :=
  mkStatus (NodeID c) alive leader (IsLeader st) (State st) (Term stats).


(** ** What is open *)

Lemma metadata_started o io open :
  metadata_Start o io = (Ok tt, open) -> open = [LogStore; StableStore; Transport; RaftNode].
Proof. unfold metadata_Start. intros E. repeat case_match; by simplify_eq. Qed.

Lemma metadata_no_gossip o io : (Gossip ∈ (metadata_Start o io).2) -> False.
Proof. unfold metadata_Start. repeat case_match; cbn; set_solver. Qed.

Lemma close_absent r l : (r ∈ l -> False) -> close [r] l = l.
Proof.
  intros Hl. induction l as [|x l IH]; [done|]. unfold close in *. rewrite filter_cons_True by set_solver. f_equal. apply IH. set_solver.
Qed.

(** A start that succeeds has everything open, and a shutdown of it whose calls succeed
    closes everything. *)
Theorem start_then_shutdown c io open d :
  Start c io = (Ok tt, open) -> raft_down_ok d = true -> log_close_ok d = true -> stable_close_ok d = true -> gossip_down_ok d = true ->
  Validate c = None /\ open = [ShardManager; Gossip; LogStore; StableStore; Transport; RaftNode] /\ Shutdown d open = (None, []).
Proof.
  intros E Hr Hl Hs Hg. unfold Start in E. destruct (Validate c); [done|]. destruct (mem_ok io); [|done]. cbn [negb] in E.
  assert (open = [ShardManager; Gossip; LogStore; StableStore; Transport; RaftNode]) as ->.
  { destruct (metadata_Start (metadata_options c) (meta io)) as [r open'] eqn:EM. destruct r as [[]|]; [|done].
    rewrite (metadata_started _ _ _ EM) in E. destruct (manager_ok io); cbn [negb] in E; [by simplify_eq|].
    by destruct (metadata_Shutdown _ _). }
  split; [done|]. split; [done|]. unfold Shutdown, metadata_Shutdown. by rewrite Hr, Hl, Hs, Hg.
Qed.

(** A start that fails.  Gossip is always stopped again, and nothing stays open when the
    configuration, gossip or the shard manager failed; but when [metadata.Start] fails,
    what it had opened stays open, although a failed start is documented to clean up. *)
Theorem failed_start_leaves_open c io e open :
  Start c io = (Err e, open) -> raft_down_ok (undo io) = true -> log_close_ok (undo io) = true -> stable_close_ok (undo io) = true ->
  (Gossip ∉ open) /\
  match e with
  | MetadataErr e' => (Err e', open) = metadata_Start (metadata_options c) (meta io)
  | _ => open = []
  end.
Proof.
  intros E Hr Hl Hs. unfold Start in E. destruct (Validate c); [simplify_eq; split; [set_solver|done]|].
  destruct (mem_ok io); cbn [negb] in E; [|simplify_eq; split; [set_solver|done]].
  pose proof (metadata_no_gossip (metadata_options c) (meta io)) as Hng.
  destruct (metadata_Start (metadata_options c) (meta io)) as [r open'] eqn:EM. cbn [snd] in Hng. destruct r as [[]|e'].
  - rewrite (metadata_started _ _ _ EM) in E. destruct (manager_ok io); [done|].
    unfold metadata_Shutdown in E. rewrite Hr, Hl, Hs in E. cbn in E. simplify_eq. split; [set_solver|done].
  - assert (open = open') as ->.
    { injection E as _ <-. unfold gossip_down, close. rewrite filter_cons_False by set_solver. by apply (close_absent Gossip). }
    injection E as <-. split; [exact Hng|done].
Qed.

(** A configuration that is valid, with a shard log and a peer. *)
Definition demo_config : Config :=
  mkConfig "n1" "127.0.0.1:7001" "127.0.0.1:7101" "data/raft" "data/shards" "" [mkPeer "n2" "127.0.0.1:7002" "" ""].
Definition all_down : down_io := mkDownIO true true true true.
Definition all_up : start_io := mkStartIO true (mkMetaIO true true true true true true true false) true all_down.
(** The Raft port is taken. *)
Definition port_taken : start_io := mkStartIO true (mkMetaIO true true true true true false true false) true all_down.

Lemma start_then_shutdown_witness :
  Validate demo_config = None /\ Shutdown all_down (Start demo_config all_up).2 = (None, []).
Proof.
  destruct (start_then_shutdown demo_config all_up (Start demo_config all_up).2 all_down) as (H1 & _ & H3);
    [vm_compute; reflexivity|reflexivity..|]. split; [exact H1|exact H3].
Defined.

Lemma failed_start_leaves_open_witness :
  Start demo_config port_taken = (Err (MetadataErr TcpTransport), [LogStore; StableStore]) /\
  (Err TcpTransport, [LogStore; StableStore]) = metadata_Start (metadata_options demo_config) (meta port_taken).
Proof.
  destruct (failed_start_leaves_open demo_config port_taken (MetadataErr TcpTransport) [LogStore; StableStore]) as (_ & H);
    [vm_compute; reflexivity|reflexivity..|]. split; [vm_compute; reflexivity|exact H].
Defined.

(** The role the metrics are told: a node whose Raft has shut down has none of the roles the
    gauge knows, so all of its series are 0. *)
Lemma role_is_reported st : State st ∈ Meter.roles <-> st <> RaftShutdown /\ st <> OtherState.
Proof. unfold Meter.roles. destruct st; cbn; split; try set_solver; intros [? ?]; set_solver. Qed.

(** Raft's decimal term is read back. *)
Lemma term_is_read n stats : 0 <= n < 2 ^ 64 -> Term (<["term"%string := format_nat n]> stats) = n.
Proof.
  intros Hn. unfold Term. rewrite lookup_insert_eq. unfold ParseUint.
  destruct (format_nat_canonical n ltac:(lia)) as (Hd & Hv & Hne).
  rewrite decide_False by (destruct Hne as [[_ ->]|(_ & b & r & -> & _)]; done). rewrite Hd.
  rewrite Hv. destruct (Z.ltb_spec n (2 ^ 64)); [done|lia].
Qed.

End Boot.
