(* ===== verification/BrokerMain.v ===== *)
(** * The broker process (cmd/broker/main.go, api/types.go)

    [Module Process]: how the flags become the components, the Raft state that the process
    reports and its bridge from the cluster, and every HTTP endpoint as a function from
    the request to the status and the answer (before its JSON encoding).  Here the rate
    limiter meets the agent publishes it guards. *)

From Stdlib Require Import Sorting.Sorted.
From S2P Require Import Prelude GoLib GoFloat GoJson GoTime AgentStream Broker.
From S2P Require Import WalFormat WalLog Consumer Server RateLimit Telemetry ClusterConfig.
Import Json Float Time.

Module Process.
Local Open Scope Z_scope.

(** ** Flags *)

(** The burst defaults to the rate; no limiter is installed for a rate of zero or less. *)
Definition agent_limiter (agentRateLimit agentRateBurst : float64) : option Limit.Limiter :=
  let agentRateBurst :=
    if ltb (Fin 0) agentRateLimit && leb agentRateBurst (Fin 0) then agentRateLimit else agentRateBurst in
  if ltb (Fin 0) agentRateLimit then Some (Limit.New agentRateLimit agentRateBurst) else None.

(** The address that clients are told to dial: the flag, or the gRPC address with
    127.0.0.1 for an empty host. *)
Definition client_addr (advertise grpcAddr : string) : string :=
  if String.eqb advertise "" then
    match Config.SplitHostPort (bs_of grpcAddr) with
    | Ok (host, port) =>
        let host := if decide (host = []) then bs_of "127.0.0.1" else host in
        str_of (host ++ bs_of ":" ++ port)
    | Err _ => ""%string
    end
  else advertise.

(** ** The reported Raft state *)

Record raftRuntimeState := mkState { NodeID : string; Role : string; LeaderID : string; Term : Z }.

Record raftStateUpdateRequest := mkUpdate { u_Role : string; u_LeaderID : string; u_Term : Z }.

Definition blank (s : string) : bool := String.eqb (TrimSpace s) "".

Definition initial_state (nodeID raftRole raftLeader : string) (raftTerm : Z) : raftRuntimeState :=
  mkState nodeID raftRole (if blank raftLeader then nodeID else raftLeader) raftTerm.

Definition Update (u : raftStateUpdateRequest) (s : raftRuntimeState) : raftRuntimeState :=
  mkState (NodeID s) (if blank (u_Role u) then Role s else u_Role u)
    (if blank (u_LeaderID u) then LeaderID s else u_LeaderID u) (if 0 <? u_Term u then u_Term u else Term s).

Section Metered.
Context {G C : Type} `{!Meter.GaugeVec G} `{!Meter.CounterVec C}.
Abbreviation Metrics := (@Meter.Metrics G C).

Definition report (s : raftRuntimeState) (m : Metrics) : Metrics :=
  Meter.SetRaftState (NodeID s) (Role s) (LeaderID s) (Term s) m.

(** The bridge: the process's view of the cluster every two seconds, with the leader it
    saw before.  [status] is the role, leader and term that [Cluster.Status] gives. *)
Record bridge := mkBridge { prevLeader : string; state : raftRuntimeState; metrics : Metrics }.

Definition bridge_tick (status : string * string * Z) (x : bridge) : bridge :=
  let '(role, leader, term) := status in
  let st := Update (mkUpdate role leader (i64 term)) (state x) in
  let '(prev, m) :=
    if negb (String.eqb leader (prevLeader x)) && negb (String.eqb leader "")
    then (leader, Meter.IncRaftLeaderChange (NodeID st) (metrics x))
    else (prevLeader x, metrics x) in
  mkBridge prev st (report st m).

(** ** HTTP *)

Inductive method := GET | POST | OPTIONS | OtherMethod (name : string).

Definition StatusOK : Z := 200.
Definition StatusNoContent : Z := 204.
Definition StatusBadRequest : Z := 400.
Definition StatusUnauthorized : Z := 401.
Definition StatusMethodNotAllowed : Z := 405.
Definition StatusInternalServerError : Z := 500.
Definition StatusServiceUnavailable : Z := 503.

(** [json.NewDecoder(r.Body).Decode(&a)]: the first value of the body; what follows it is
    not looked at. *)
Definition decode_body {A} (set : bytes -> bytes -> json -> A -> option A) (zero : A) (body : bytes) : option A :=
  match p_value (S (2 * length body)) 0 (skip_ws body) with
  | Some (JObj m, _) => dec_members set m zero
  | Some (JNull, _) => Some zero
  | _ => None
  end.

Definition readyz (ready : bool) : Z := if ready then StatusOK else StatusServiceUnavailable.

Definition set_update (key raw : bytes) (v : json) (u : raftStateUpdateRequest) : option raftStateUpdateRequest :=
  if field_is "role" key then x ← dec_string v (u_Role u); Some (mkUpdate x (u_LeaderID u) (u_Term u))
  else if field_is "leader_id" key then x ← dec_string v (u_LeaderID u); Some (mkUpdate (u_Role u) x (u_Term u))
  else if field_is "term" key then x ← dec_int v (u_Term u); Some (mkUpdate (u_Role u) (u_LeaderID u) x)
  else Some u.

(** /raft/state: the status, the state it answers with (for a GET), and the new state. *)
Definition raft_state (adminToken : string) (meth : method) (token : string) (body : bytes)
    (s : raftRuntimeState) (m : Metrics) : Z * option raftRuntimeState * raftRuntimeState * Metrics :=
  match meth with
  | POST =>
      if negb (String.eqb adminToken "") && negb (String.eqb token adminToken) then (StatusUnauthorized, None, s, m)
      else
        match decode_body set_update (mkUpdate "" "" 0) body with
        | None => (StatusBadRequest, None, s, m)
        | Some u =>
            let s' := Update u s in
            let m := if String.eqb (LeaderID s) (LeaderID s') then m else Meter.IncRaftLeaderChange (NodeID s') m in
            (StatusNoContent, None, s', report s' m)
        end
  | GET => (StatusOK, Some s, s, m)
  | _ => (StatusMethodNotAllowed, None, s, m)
  end.

(** The ring buffers' fill and evictions, for one partition. *)
Definition fill_pct (d : Bus.PartitionDetail) : float64 :=
  let size := i64 (Bus.d_Tail d - Bus.d_Head d) in
  if 0 <? Bus.d_Capacity d then mul (div (of_int size) (of_int (Bus.d_Capacity d))) (of_int 100) else Fin 0.

(** One tick of the loop that keeps the partition gauges current, over the topics in the
    order the map yields them. *)
Definition partition_gauges (b : Bus.Broker) (name : string) (i : Z) (m : Metrics) : Metrics :=
  match Bus.TopicPartitionDetail name i b with
  | Some (Ok d) =>
      let part := str_of (format_int i) in
      Meter.SetPartitionEvictions name part (of_int (Bus.d_Evictions d))
        (Meter.SetPartitionFillPct name part (fill_pct d) m)
  | _ => m
  end.

Definition gauges_tick (names : list string) (b : Bus.Broker) (m : Metrics) : Metrics :=
  fold_left (fun m name =>
    fold_left (fun m i => partition_gauges b name i m) (seqZ 0 (Bus.PartitionCount name b)) m) names m.
End Metered.

(** *** /api/stats *)

Record PartitionStat := mkPartitionStat {
  ps_Index : Z; ps_Head : Z; ps_Tail : Z; ps_Size : Z; ps_Capacity : Z; ps_FillPct : float64; ps_Evictions : Z
}.
Record TopicStat := mkTopicStat { ts_Name : string; ts_Partitions : list PartitionStat; ts_Total : Z }.
Record WALInfo := mkWALInfo { wi_Path : string; wi_SyncMode : string }.
Record BrokerStats := mkStats {
  st_NodeID : string; st_Role : string; st_LeaderID : string; st_Term : Z; st_Uptime : string;
  st_TotalPublished : Z; st_TotalConsumed : Z; st_TCPConnections : Z; st_Topics : list TopicStat; st_WAL : WALInfo
}.

Definition partition_stat (b : Bus.Broker) (name : string) (i : Z) (ts : TopicStat) : TopicStat :=
  match Bus.TopicPartitionDetail name i b with
  | Some (Ok d) =>
      let size := i64 (Bus.d_Tail d - Bus.d_Head d) in
      mkTopicStat (ts_Name ts)
        (ts_Partitions ts ++
          [mkPartitionStat i (Bus.d_Head d) (Bus.d_Tail d) size (Bus.d_Capacity d) (fill_pct d) (Bus.d_Evictions d)])
        (i64 (ts_Total ts + size))
  | _ => ts
  end.

Definition topic_stat (b : Bus.Broker) (name : string) : TopicStat :=
  fold_left (fun ts i => partition_stat b name i ts) (seqZ 0 (Bus.PartitionCount name b)) (mkTopicStat name [] 0).

(** [Duration.Hours] and [Duration.Minutes]; [int] of a float64 cuts the fraction off. *)
Definition minute : Z := 60 * second.
Definition hour : Z := 60 * minute.

Definition in_unit (unit d : Z) : float64 := add (of_int (Z.quot d unit)) (div (of_int (Z.rem d unit)) (of_int unit)).

Definition trunc (x : float64) : option Z :=
  match x with
  | Fin u => Some (i64 (Z.quot u one_units))
  | _ => None
  end.

Definition formatUptime (d : Z) : option string :=
  h ← trunc (in_unit hour d);
  m ← trunc (in_unit minute d);
  s ← trunc (Limit.Seconds d);
  let m := Z.rem m 60 in
  let s := Z.rem s 60 in
  let num (n : Z) (unit : string) := format_int n ++ bs_of unit in
  Some (str_of (if 0 <? h then num h "h " ++ num m "m " ++ num s "s"
                else if 0 <? m then num m "m " ++ num s "s"
                else num s "s")).

(** [Duration.Round(time.Second)] of a duration that is not negative, far from the limit. *)
Definition round_second (d : Z) : Z :=
  let r := d mod second in if r + r <? second then d - r else d + second - r.

(** [tcpSrv] is nil until the TCP server is built; [since] is the time since the start. *)
Definition api_stats (meth : method) (cur : raftRuntimeState) (since : Z) (names : list string) (b : Bus.Broker)
    (conns : option Z) (walPath syncMode : string) : option (Z * option BrokerStats) :=
  match meth with
  | OPTIONS => Some (StatusNoContent, None)
  | _ =>
      uptime ← formatUptime (round_second since);
      Some (StatusOK, Some (mkStats (NodeID cur) (Role cur) (LeaderID cur) (Term cur) uptime (Bus.totalPublished b)
        (Bus.totalConsumed b) (default 0 conns) (map (topic_stat b) names) (mkWALInfo walPath syncMode)))
  end.

(** *** /api/fetch *)

Inductive scan_step := ScanSkip (r : bytes) | ScanStop (r : bytes) | ScanErr.

(** [fmt.Sscanf(s, "%d", &v)]: white space, a sign, decimal digits; the rest of the input
    is ignored and an error leaves [v] as it was.  A newline is an error, except as the
    second half of CR LF. *)
Definition scan_space (s : bytes) : scan_step :=
  match s with
  | [] => ScanStop []
  | b :: r =>
      if isc 10 b then ScanErr
      else if isc 13 b && match r with c :: _ => isc 10 c | [] => false end then ScanSkip (drop 1 r)
      else match strip_one white_space s with
           | Some r => ScanSkip r
           | None => ScanStop s
           end
  end.

Fixpoint scan_spaces (fuel : nat) (s : bytes) : option bytes :=
  match fuel with
  | O => None
  | S fuel =>
      match scan_space s with
      | ScanErr => None
      | ScanStop r => Some r
      | ScanSkip r => scan_spaces fuel r
      end
  end.

Definition sscanf_d (s : string) (v : Z) : Z :=
  match scan_spaces (S (length (bs_of s))) (bs_of s) with
  | None => v
  | Some s =>
      let '(sign, ds) :=
        match s with
        | b :: r => if isc 45 b || isc 43 b then ([b], r) else ([], s)
        | [] => ([], [])
        end in
      let '(ds, _) := span_digits ds in
      if decide (ds = []) then v else default v (parse_int (sign ++ ds))
  end.

Record FetchedMessage := mkFetched { fm_Offset : Z; fm_Timestamp : Z; fm_Payload : string }.

(** The parameters of the query; a missing one is empty. *)
Definition query_int (s : string) (dflt : Z) : Z := if String.eqb s "" then dflt else sscanf_d s dflt.

Definition query_limit (s : string) : Z :=
  let limit := query_int s 20 in if 100 <? limit then 100 else limit.

Definition fetched_message (m : Bus.Message) : FetchedMessage :=
  mkFetched (Bus.m_Offset m) (Bus.m_Timestamp m) (str_of (Bus.m_Payload m)).

(** [None] is a panic. *)
Definition api_fetch (topic partition offset limit : string) (b : Bus.Broker) :
    option (result Z (list FetchedMessage) * Bus.Broker) :=
  if String.eqb topic "" then Some (Err StatusBadRequest, b)
  else
    '(msgs, b) ← Bus.FetchPartition topic (query_int partition 0) (query_int offset 0) (query_limit limit) b;
    Some (Ok (map fetched_message msgs), b).

(** *** /api/publish *)

Record PublishRequest := mkPublish { rq_Topic : string; rq_Key : string; rq_Partition : Z; rq_Payload : string }.
Record PublishResponse := mkPublished { rp_Topic : string; rp_Partition : Z; rp_Offset : Z }.

Definition set_publish (key raw : bytes) (v : json) (q : PublishRequest) : option PublishRequest :=
  if field_is "topic" key then x ← dec_string v (rq_Topic q); Some (mkPublish x (rq_Key q) (rq_Partition q) (rq_Payload q))
  else if field_is "key" key then x ← dec_string v (rq_Key q); Some (mkPublish (rq_Topic q) x (rq_Partition q) (rq_Payload q))
  else if field_is "partition" key then x ← dec_int v (rq_Partition q); Some (mkPublish (rq_Topic q) (rq_Key q) x (rq_Payload q))
  else if field_is "payload" key then x ← dec_string v (rq_Payload q); Some (mkPublish (rq_Topic q) (rq_Key q) (rq_Partition q) x)
  else Some q.

Section Publish.
Context {W IO : Type} `{SK : !WalCommit.WalSink W IO}.

Definition http_publish (c : @Gateway.clock IO) (meth : method) (body : bytes) (s : @Gateway.Server W) :
    option (result Z (option PublishResponse) * @Gateway.Server W) :=
  match meth with
  | OPTIONS => Some (Ok None, s)
  | POST =>
      match decode_body set_publish (mkPublish "" "" 0 "") body with
      | None => Some (Err StatusBadRequest, s)
      | Some q =>
          if String.eqb (rq_Topic q) "" then Some (Err StatusBadRequest, s)
          else
            '(r, s) ← Gateway.api_publish c (rq_Topic q) (rq_Key q) (rq_Partition q) (bs_of (rq_Payload q)) s;
            Some (match r with
                  | Err _ => Err StatusInternalServerError
                  | Ok (p, o) => Ok (Some (mkPublished (rq_Topic q) p o))
                  end, s)
      end
  | _ => Some (Err StatusMethodNotAllowed, s)
  end.
End Publish.

(** *** /api/route; without a cluster routing is a no-op *)

Record RouteAnswer := mkRoute {
  ra_tenant : string; ra_project : string; ra_session : string;
  ra_shard_id : Z; ra_leader_node_id : string; ra_leader_client : string; ra_is_local : bool
}.

Definition api_route (route : option (string -> string -> string -> Z * string * string * bool))
    (tenant project session : string) : option RouteAnswer :=
  rt ← route;
  let '(shard, leader, client, isLocal) := rt tenant project session in
  Some (mkRoute tenant project session shard leader client isLocal).

(** ** The uptime *)

#[local] Opaque one_units max_units of_int round eps_units.

(** The whole units of a duration that stays 1/4096 below the next one. *)
Lemma in_unit_floor unit d : 0 < unit <= 2 ^ 53 -> 0 <= d -> d / unit < 2 ^ 40 ->
  d mod unit * 2 ^ 12 <= unit * (2 ^ 12 - 1) -> trunc (in_unit unit d) = Some (d / unit).
Proof.
  intros Hu Hd Hsmall Hf. pose proof (Z.mod_pos_bound d unit ltac:(lia)) as Hm. pose proof (Z.div_pos d unit ltac:(lia) ltac:(lia)).
  unfold in_unit. rewrite Z.quot_div_nonneg, Z.rem_mod_nonneg by lia. rewrite (of_int_small (d / unit)) by lia.
  destruct (ratio_below (d mod unit) unit) as (v & -> & Hv & Hvle); [lia..|].
  destruct (add_floor (d / unit) v) as (x & -> & Hx & Hxk); [lia|exact Hv|exact Hvle|].
  unfold trunc. f_equal. pose proof one_units_pos. rewrite Z.quot_div_nonneg, Hxk by lia. apply wrap_s_small; lia.
Qed.

Lemma seconds_in unit s : 0 < unit -> 0 <= s -> s * second / (unit * second) = s / unit /\ s * second mod (unit * second) = s mod unit * second.
Proof.
  intros Hu Hs. unfold second. rewrite Z.div_mul_cancel_r by lia. split; [done|]. rewrite Z.mul_mod_distr_r by lia. done.
Qed.

Lemma unit_of_seconds unit s : 0 < unit <= 3600 -> 0 <= s < 2 ^ 40 -> trunc (in_unit (unit * second) (s * second)) = Some (s / unit).
Proof.
  intros Hu Hs. destruct (seconds_in unit s ltac:(lia) ltac:(lia)) as [E1 E2].
  pose proof (Z.mod_pos_bound s unit ltac:(lia)). assert (s / unit <= s) by (apply Z.div_le_upper_bound; nia).
  rewrite in_unit_floor; [by rewrite E1|unfold second; lia|unfold second; lia|rewrite E1; lia|rewrite E2; unfold second; lia].
Qed.

(** The uptime shown is the hours, minutes and seconds of the whole seconds since the
    start: the float64 arithmetic of [Hours], [Minutes] and [Seconds] never carries into the
    next unit. *)
Theorem uptime_is_exact s :
  0 <= s < 2 ^ 33 ->
  formatUptime (s * second) =
  let h := s / 3600 in let m := s / 60 mod 60 in
  let num (n : Z) (unit : string) := format_int n ++ bs_of unit in
  Some (str_of (if 0 <? h then num h "h " ++ num m "m " ++ num (s mod 60) "s"
                else if 0 <? m then num m "m " ++ num (s mod 60) "s"
                else num (s mod 60) "s")).
Proof.
  intros Hs. unfold formatUptime. change hour with (3600 * second). change minute with (60 * second).
  change Limit.Seconds with (in_unit second). rewrite !unit_of_seconds by lia.
  pose proof (unit_of_seconds 1 s ltac:(lia) ltac:(lia)) as E1. rewrite Z.mul_1_l in E1. rewrite E1, Z.div_1_r.
  cbn [mbind option_bind]. pose proof (Z.div_pos s 60 ltac:(lia) ltac:(lia)). rewrite !Z.rem_mod_nonneg by lia. done.
Qed.

Lemma uptime_is_exact_witness : formatUptime (3725 * second) = Some "1h 2m 5s"%string.
Proof. rewrite (uptime_is_exact 3725) by lia. vm_compute. reflexivity. Defined.

(** ** Statistics *)

(** How many of a partition's messages its ring still holds. *)
Definition retained (log : list Bus.entry) : Z := Z.min (zlen log) Bus.defaultCapacity.

Definition percent (n : Z) : float64 := mul (div (of_int n) (of_int Bus.defaultCapacity)) (of_int 100).

(** What the statistics say of a partition, in terms of its log. *)
Definition stat_of (i : Z) (log : list Bus.entry) : PartitionStat :=
  mkPartitionStat i (zlen log - retained log) (zlen log) (retained log) Bus.defaultCapacity (percent (retained log))
    (zlen log - retained log).

Fixpoint stats_from (i : Z) (ls : list (list Bus.entry)) : list PartitionStat :=
  match ls with
  | [] => []
  | log :: ls => stat_of i log :: stats_from (i + 1) ls
  end.

Definition total_retained (ls : list (list Bus.entry)) : Z := foldr (fun log n => retained log + n) 0 ls.

Lemma retained_range log : 0 <= retained log <= Bus.defaultCapacity.
Proof. unfold retained, Bus.defaultCapacity. lia. Qed.

Lemma total_retained_range ls : 0 <= total_retained ls <= zlen ls * Bus.defaultCapacity.
Proof.
  induction ls as [|log ls IH]; [done|]. cbn [total_retained foldr]. fold (total_retained ls).
  pose proof (retained_range log). rewrite length_cons. lia.
Qed.

Lemma detail_of n a b name ls i log :
  Bus.rel n a b -> n < 2 ^ 62 -> Bus.l_topics a !! name = Some ls -> 0 <= i -> ls.1 !! Z.to_nat i = Some log ->
  Bus.TopicPartitionDetail name i b =
  Some (Ok (Bus.mkDetail (zlen log - retained log) (zlen log) (zlen log - retained log) Bus.defaultCapacity)).
Proof.
  intros HR Hn Hls Hi Hlog. pose proof (Bus.rel_lookup n a b name HR) as H. rewrite Hls in H.
  unfold Bus.TopicPartitionDetail. destruct (Bus.topics b !! name) as [set|]; [|done]. destruct H as (HF & _ & _).
  destruct (Forall2_lookup_l _ _ _ _ _ HF Hlog) as (t & Ht & (Hrep & Hcap & _ & _)).
  unfold Bus.invalid_partition. rewrite <- (list.Forall2_length _ _ _ HF).
  pose proof (lookup_lt_Some _ _ _ Hlog). destruct (Z.ltb_spec i 0); [lia|]. destruct (Z.leb_spec (zlen ls.1) i); [lia|].
  cbn [orb]. unfold Bus.partition_at. destruct (Z.ltb_spec i 0); [lia|]. rewrite Ht. cbn [mbind option_bind].
  destruct Hrep as [_ _ E1 E2 E3 _]. rewrite E1, E3, E2, Hcap. unfold retained. do 3 f_equal; lia.
Qed.

Lemma partition_stats n a b name ls rest : Bus.rel n a b -> n < 2 ^ 62 -> Bus.l_topics a !! name = Some ls ->
  forall i ts, 0 <= i -> drop (Z.to_nat i) ls.1 = rest -> 0 <= ts_Total ts -> ts_Total ts + zlen rest * Bus.defaultCapacity < 2 ^ 62 ->
  fold_left (fun ts i => partition_stat b name i ts) (seqZ i (zlen rest)) ts =
  mkTopicStat (ts_Name ts) (ts_Partitions ts ++ stats_from i rest) (ts_Total ts + total_retained rest).
Proof.
  intros HR Hn Hls. induction rest as [|log rest IH]; intros i ts Hi Hd Ht Hb.
  { cbn. destruct ts. by rewrite app_nil_r, Z.add_0_r. }
  assert (ls.1 !! Z.to_nat i = Some log) as Hlog by (rewrite <- (Nat.add_0_r (Z.to_nat i)), <- lookup_drop, Hd; done).
  rewrite length_cons in *. rewrite seqZ_cons by lia. cbn [fold_left stats_from].
  replace (Z.pred (Z.of_nat (S (length rest)))) with (zlen rest) by lia. pose proof (retained_range log) as Hr.
  assert (partition_stat b name i ts = mkTopicStat (ts_Name ts) (ts_Partitions ts ++ [stat_of i log]) (ts_Total ts + retained log)) as ->.
  { unfold partition_stat. rewrite (detail_of n a b name ls i log HR Hn Hls Hi Hlog). cbn [Bus.d_Head Bus.d_Tail Bus.d_Capacity Bus.d_Evictions].
    unfold fill_pct. cbn [Bus.d_Head Bus.d_Tail Bus.d_Capacity]. change (0 <? Bus.defaultCapacity) with true. cbv iota.
    replace (zlen log - (zlen log - retained log)) with (retained log) by lia.
    unfold Bus.defaultCapacity in *. rewrite !wrap_s_small by lia. done. }
  rewrite (IH (Z.succ i)); cbn [ts_Name ts_Partitions ts_Total].
  - rewrite <- app_assoc. cbn [app]. rewrite <- Z.add_1_r. cbn [total_retained foldr]. f_equal. fold (total_retained rest). lia.
  - lia.
  - rewrite Z2Nat.inj_succ by lia. rewrite <- Nat.add_1_r, <- drop_drop, Hd. done.
  - lia.
  - lia.
Qed.

(** A ratio of at most one is at most a hundred percent. *)
Lemma percent_range n : 0 <= n <= Bus.defaultCapacity -> leb (Fin 0) (percent n) = true /\ leb (percent n) (of_int 100) = true.
Proof.
  intros Hn. unfold percent, Bus.defaultCapacity in *. pose proof one_units_pos as Ho. rewrite !of_int_small by lia. unfold div.
  destruct (Z.eqb_spec (1048576 * one_units) 0); [lia|]. destruct (Z.ltb_spec (1048576 * one_units) 0); [lia|].
  assert (0 <= n * one_units * one_units) as H0 by (repeat apply Z.mul_nonneg_nonneg; lia).
  pose proof (round_nonneg (n * one_units * one_units) (1048576 * one_units) H0 ltac:(lia)) as Hr.
  assert (leb (round (n * one_units * one_units) (1048576 * one_units)) (Fin (1 * one_units)) = true) as Hle.
  { rewrite <- (round_exact (1 * one_units)) by (apply (nonneg_int 1); lia). apply round_mono; [lia..|].
    assert (n * (one_units * one_units) <= 1048576 * (one_units * one_units)) by (apply Z.mul_le_mono_nonneg_r; nia). lia. }
  destruct (round _ _) as [| |v|]; try done. apply Z.leb_le in Hle. pose proof (nonneg_int 100 ltac:(lia)) as H100.
  split.
  - pose proof (mul_nonneg v (100 * one_units) Hr H100) as Hm. destruct (mul _ _) as [| |x|]; try done.
    apply Z.leb_le, representable_nonneg, Hm.
  - eapply leb_trans; [apply (mul_mono_l v (1 * one_units) (100 * one_units) Hr (nonneg_int 1 ltac:(lia)) H100 Hle)|].
    assert (mul (Fin (1 * one_units)) (Fin (100 * one_units)) = Fin (100 * one_units)) as -> by (vm_compute; reflexivity).
    by apply leb_refl.
Qed.

Lemma stats_fill_range ls : forall i,
  Forall (fun p => leb (Fin 0) (ps_FillPct p) = true /\ leb (ps_FillPct p) (of_int 100) = true) (stats_from i ls).
Proof. induction ls as [|log l IH]; intros i; constructor; [apply percent_range, retained_range|apply IH]. Qed.

(** GET /api/stats reports every partition as its log: where it starts and ends, how many
    messages the ring still holds and how many it evicted, and a topic's total is the sum
    over its partitions; the fill percentage is between 0 and 100. *)
Theorem stats_report_logs os rs rs' a b name ls :
  Forall Bus.op_ok os -> zlen os < 2 ^ 62 ->
  Bus.run_all Bus.log_op os Bus.empty_logs = Some (rs, a) -> Bus.run_all Bus.run_op os Bus.New = Some (rs', b) ->
  Bus.l_topics a !! name = Some ls ->
  topic_stat b name = mkTopicStat name (stats_from 0 ls.1) (total_retained ls.1) /\
  Forall (fun p => leb (Fin 0) (ps_FillPct p) = true /\ leb (ps_FillPct p) (of_int 100) = true) (ts_Partitions (topic_stat b name)).
Proof.
  intros Hok Hlt Ha Hb Hls. destruct (Bus.run_simulates os 0 _ _ _ _ Bus.New_rel ltac:(lia) ltac:(lia) Hok Ha) as (b' & Hb' & HR).
  rewrite Hb in Hb'. injection Hb' as -> ->.
  pose proof (Bus.rel_lookup _ _ _ name HR) as H. rewrite Hls in H. destruct (Bus.topics b' !! name) as [set|] eqn:Et; [|done].
  destruct H as (HF & _ & Hlen).
  assert (topic_stat b' name = mkTopicStat name (stats_from 0 ls.1) (total_retained ls.1)) as E.
  { unfold topic_stat. unfold Bus.PartitionCount. rewrite Et, <- (list.Forall2_length _ _ _ HF).
    rewrite (partition_stats _ a b' name ls ls.1 HR ltac:(lia) Hls 0); [done|lia|done|cbn; lia|cbn [ts_Total]; unfold Bus.defaultCapacity; lia]. }
  split; [exact E|]. rewrite E. apply stats_fill_range.
Qed.

Definition stats_ops : list Bus.op :=
  [Bus.OPublish "t" 1 [ch 65]; Bus.OPublishToPartition "t" 2 2 [ch 66]; Bus.OPublish "t" 3 [ch 67]].

Lemma stats_report_logs_witness :
  match Bus.run_all Bus.run_op stats_ops Bus.New with
  | Some (_, b) => ts_Total (topic_stat b "t") = 3 /\ map ps_Size (ts_Partitions (topic_stat b "t")) = [2; 0; 1]
  | None => False
  end.
Proof.
  destruct (Bus.run_all Bus.run_op stats_ops Bus.New) as [[rs' b]|] eqn:Eb; [|vm_compute in Eb; discriminate].
  destruct (Bus.run_all Bus.log_op stats_ops Bus.empty_logs) as [[rs a]|] eqn:Ea; [|vm_compute in Ea; discriminate].
  destruct (stats_report_logs stats_ops rs rs' a b "t" ([[(1, [ch 65]); (3, [ch 67])]; []; [(2, [ch 66])]], 0)) as [-> _].
  - repeat constructor.
  - vm_compute. reflexivity.
  - exact Ea.
  - exact Eb.
  - vm_compute in Ea. injection Ea as _ <-. vm_compute. reflexivity.
  - split; reflexivity.
Defined.

(** ** Reading a partition *)

Lemma sscanf_range s v : in_i64 v -> in_i64 (sscanf_d s v).
Proof.
  intros Hv. unfold sscanf_d. destruct (scan_spaces _ _) as [r|]; [|done]. destruct (match r with [] => _ | _ => _ end) as [sign ds].
  destruct (span_digits ds) as [ds' _]. destruct (decide _); [done|].
  destruct (parse_int _) as [z|] eqn:E; [by eapply Offsets.parse_int_range|done].
Qed.

Lemma query_limit_range s : - 2 ^ 63 <= query_limit s <= 100.
Proof.
  unfold query_limit. assert (in_i64 (query_int s 20)) as [H1 H2].
  { unfold query_int. destruct (String.eqb s ""); [unfold in_i64; lia|]. apply sscanf_range. unfold in_i64. lia. }
  destruct (Z.ltb_spec 100 (query_int s 20)); lia.
Qed.

(** A negative count asks for a slice of negative length. *)
Lemma negative_fetch_panics log t offset n : Bus.topic_rep log t -> - 2 ^ 63 <= n < 0 ->
  Bus.Topic_Fetch offset n t = if zlen log <=? Z.max offset (Z.max 0 (zlen log - Bus.t_cap t)) then Some [] else None.
Proof.
  intros [Hc Hs Ht Hh He Hsl] Hn. unfold Bus.Topic_Fetch.
  set (start := if offset <? Bus.t_head t then Bus.t_head t else offset).
  assert (start = Z.max offset (Bus.t_head t)) as Hst by (subst start; destruct (offset <? Bus.t_head t) eqn:E; go_bool; lia).
  clearbody start. destruct (Z.leb_spec (Bus.t_tail t) start), (Z.leb_spec (zlen log) (Z.max offset (Z.max 0 (zlen log - Bus.t_cap t)))); try lia; [done|].
  rewrite (wrap_s_small 64 (start + n)) by lia. destruct (Z.ltb_spec (Bus.t_tail t) (start + n)); [lia|].
  rewrite wrap_s_small by lia. by destruct (Z.ltb_spec (start + n - start) 0); [|lia].
Qed.

(** GET /api/fetch on a topic that exists: a partition that does not exist answers the
    empty list; otherwise the answer is the messages of the partition's log from the
    offset, or from the oldest one the ring holds, at most [limit] and never more than 100.
    A negative limit, which only the upper bound is checked against, makes the handler
    panic as soon as there is a message to return. *)
Theorem fetch_answers os rs rs' a b topic ls partition offset limit :
  Forall Bus.op_ok os -> zlen os < 2 ^ 62 ->
  Bus.run_all Bus.log_op os Bus.empty_logs = Some (rs, a) -> Bus.run_all Bus.run_op os Bus.New = Some (rs', b) ->
  Bus.l_topics a !! topic = Some ls -> topic <> ""%string ->
  let p := query_int partition 0 in let n := query_limit limit in
  api_fetch topic partition offset limit b =
  if negb (Bus.valid p ls.1) then Some (Ok [], b)
  else if 0 <=? n then Some (Ok (map fetched_message (Bus.log_messages (query_int offset 0) n p ls.1)), b)
  else match ls.1 !! Z.to_nat p with
       | Some log => if zlen log <=? Z.max (query_int offset 0) (Z.max 0 (zlen log - Bus.defaultCapacity)) then Some (Ok [], b) else None
       | None => None
       end.
Proof.
  intros Hok Hlt Ha Hb Hls Hne p n. destruct (Bus.run_simulates os 0 _ _ _ _ Bus.New_rel ltac:(lia) ltac:(lia) Hok Ha) as (b' & Hb' & HR).
  rewrite Hb in Hb'. injection Hb' as -> ->. pose proof (Bus.rel_lookup _ _ _ topic HR) as H. rewrite Hls in H.
  destruct (Bus.topics b' !! topic) as [set|] eqn:Et; [|done]. pose proof (query_limit_range limit) as Hn. fold n in Hn.
  unfold api_fetch. rewrite (proj2 (String.eqb_neq _ _) Hne). unfold Bus.FetchPartition, Bus.getOrCreate. rewrite Et. fold p n.
  unfold Bus.invalid_partition. rewrite <- (list.Forall2_length _ _ _ (proj1 H)).
  destruct (Bus.valid p ls.1) eqn:V; unfold Bus.valid in V; cbn [negb].
  - go_bool. destruct (Z.ltb_spec p 0); [lia|]. destruct (Z.leb_spec (zlen ls.1) p); [lia|]. cbn [orb].
    assert (Bus.valid p ls.1 = true) as V' by (unfold Bus.valid; apply andb_true_intro; split; [apply Z.leb_le|apply Z.ltb_lt]; lia).
    destruct (Bus.partition_at_rep _ _ _ _ H V') as (t & log & ET & El & Hrep & Hcap & _).
    rewrite ET. cbn [mbind option_bind]. destruct (Z.leb_spec 0 n).
    + rewrite (Bus.fetch_at _ ls set p _ n t H V' ltac:(lia) ET). done.
    + rewrite (negative_fetch_panics log t _ n Hrep) by lia. rewrite El, Hcap. by destruct (zlen log <=? _).
  - assert ((p <? 0) || (zlen ls.1 <=? p) = true) as ->; [|done]. apply orb_true_iff.
    apply andb_false_iff in V as [V|V]; go_bool; [left; apply Z.ltb_lt; lia|right; apply Z.leb_le; lia].
Qed.

Lemma fetch_answers_witness :
  match Bus.run_all Bus.run_op stats_ops Bus.New with
  | Some (_, b) =>
      option_map fst (api_fetch "t" "0" "1" "7" b) = Some (Ok [mkFetched 1 3 "C"]) /\ api_fetch "t" "" "" "-1" b = None
  | None => False
  end.
Proof.
  destruct (Bus.run_all Bus.run_op stats_ops Bus.New) as [[rs' b]|] eqn:Eb; [|vm_compute in Eb; discriminate].
  destruct (Bus.run_all Bus.log_op stats_ops Bus.empty_logs) as [[rs a]|] eqn:Ea; [|vm_compute in Ea; discriminate].
  assert (Bus.l_topics a !! "t"%string = Some ([[(1, [ch 65]); (3, [ch 67])]; []; [(2, [ch 66])]], 0)) as Hls
    by (vm_compute in Ea; injection Ea as _ <-; vm_compute; reflexivity).
  split; rewrite (fetch_answers stats_ops rs rs' a b "t" _ _ _ _ ltac:(repeat constructor) ltac:(vm_compute; reflexivity) Ea Eb Hls ltac:(discriminate));
    vm_compute; reflexivity.
Defined.

(** ** The bridge *)

(** How often the nonempty leaders of a list differ from the one seen before. *)
Fixpoint changes (prev : string) (leaders : list string) : Z :=
  match leaders with
  | [] => 0
  | l :: ls => if negb (String.eqb l prev) && negb (String.eqb l "") then 1 + changes l ls else changes prev ls
  end.

Section Bridge.
Context {G C : Type} `{!Meter.GaugeVec G} `{!Meter.CounterVec C}.

(** Whatever the cluster's status shows over time, the process counts one leader change
    per change of the known leader, a leader that is unknown for a while not included, and
    after every tick the term it exports is the term it reports. *)
Theorem bridge_counts_changes statuses (x : @bridge G C) :
  let x' := fold_left (fun x st => bridge_tick st x) statuses x in
  let n := NodeID (state x) in
  NodeID (state x') = n /\
  Meter.c_get [n] (Meter.RaftLeaderChanges (metrics x')) =
    Meter.c_get [n] (Meter.RaftLeaderChanges (metrics x)) + changes (prevLeader x) (map (fun st => st.1.2) statuses) /\
  (statuses <> [] -> Meter.g_get [n] (Meter.RaftTerm (metrics x')) = Some (of_int (Term (state x')))).
Proof.
  cbv zeta. revert x. induction statuses as [|[[role leader] term] sts IH]; intros x.
  { split; [done|]. split; [cbn; lia|done]. }
  cbn [fold_left map fst snd]. set (y := bridge_tick (role, leader, term) x).
  assert (NodeID (state y) = NodeID (state x)) as Hn.
  { unfold y, bridge_tick. by destruct (negb (String.eqb leader (prevLeader x)) && negb (String.eqb leader "")). }
  destruct (IH y) as (E1 & E2 & E3). rewrite Hn in *. split; [exact E1|]. split.
  - rewrite E2. cbn [changes]. unfold y, bridge_tick.
    destruct (negb (String.eqb leader (prevLeader x)) && negb (String.eqb leader "")); cbn [metrics prevLeader]; [|done].
    unfold report, Meter.SetRaftState, Meter.IncRaftLeaderChange, Meter.inc. cbn [Meter.RaftLeaderChanges Update NodeID].
    rewrite Meter.c_get_add. lia.
  - intros _. destruct sts as [|st sts]; [|by apply E3]. cbn [fold_left].
    unfold y, bridge_tick, report, Meter.SetRaftState in *.
    destruct (negb (String.eqb leader (prevLeader x)) && negb (String.eqb leader "")); cbn [metrics Meter.RaftTerm state]; apply Meter.g_get_set.
Qed.
End Bridge.

Lemma bridge_counts_changes_witness :
  let sts := [("follower", "n1", 1); ("candidate", "", 2); ("follower", "n1", 2); ("leader", "n2", 3)]%string in
  let x := fold_left (fun x st => bridge_tick st x) sts (mkBridge "" (initial_state "n2" "standalone" "" 1) Meter.no_metrics) in
  Meter.c_get ["n2"%string] (Meter.RaftLeaderChanges (metrics x)) = 2.
Proof.
  cbv zeta. match goal with |- context [fold_left ?f ?sts ?x0] => destruct (bridge_counts_changes sts x0) as (_ & E & _) end.
  exact E.
Defined.

(** ** Tenants *)

Section Tenants.
Context {W IO : Type} `{SK : !WalCommit.WalSink W IO}.
Variable route : option (string -> string -> string -> bool * Z * string).
Variable shard_append : option (Z -> bytes -> option Z).
Variable quorum : Z -> Z -> bool.

(** The limiter's key of a request. *)
Definition iso_key (req : option Gateway.AgentEvent) : string :=
  let tenant := match req with Some ev => Gateway.a_Tenant ev | None => ""%string end in
  if String.eqb tenant "" then "(no-tenant)"%string else tenant.

(** [PublishAgent] with the limiter it was given; [now] is the time [Allow] reads. *)
Definition publish_agent (l : option Limit.Limiter) (now : Z) (c : @Gateway.clock IO) (req : option Gateway.AgentEvent)
    (s : @Gateway.Server W) : option (result Gateway.status (Z * Z) * @Gateway.Server W) * option Limit.Limiter :=
  if Limit.Enabled l then
    let (ok, l) := Limit.Allow l (iso_key req) now in
    (Gateway.PublishAgent (Some (fun _ => negb ok)) route shard_append quorum c req s, l)
  else (Gateway.PublishAgent None route shard_append quorum c req s, l).

(** Requests in the order in which they take the limiter's lock; a panic ends the run. *)
Fixpoint serve_agents (l : option Limit.Limiter) (reqs : list (Z * @Gateway.clock IO * option Gateway.AgentEvent))
    (s : @Gateway.Server W) : list (string * Z * result Gateway.status (Z * Z)) :=
  match reqs with
  | [] => []
  | (now, c, req) :: reqs =>
      let (r, l) := publish_agent l now c req s in
      match r with
      | None => []
      | Some (a, s) => (iso_key req, now, a) :: serve_agents l reqs s
      end
  end.

Definition throttled (a : result Gateway.status (Z * Z)) : bool :=
  match a with Err Gateway.ResourceExhausted => true | _ => false end.

Lemma append_not_throttled c topic key shard encoded s a s' :
  Gateway.appendDurable shard_append quorum c topic key shard encoded s = Some (a, s') -> throttled a = false.
Proof.
  unfold Gateway.appendDurable. destruct (Bus.RouteKey _ _ _) as [p b]. destruct (match shard_append with None => _ | _ => _ end) as [[]|e] eqn:E.
  - destruct (Gateway.publish_durable _ _ _ _ _ _) as [[[o|e] s1]|]; cbn; [by intros [= <- _]..|done].
  - intros [= <- _]. destruct shard_append as [app|]; [|done]. destruct (app shard encoded) as [off|]; [destruct (quorum shard off)|]; by simplify_eq.
Qed.

(** The answer says that the tenant is over its limit exactly when the limiter said so. *)
Lemma publish_verdict v c req s a s' :
  Gateway.PublishAgent v route shard_append quorum c req s = Some (a, s') ->
  throttled a = match v with Some t => t (iso_key req) | None => false end.
Proof.
  unfold Gateway.PublishAgent.
  assert ((let ev := default (Gateway.mkAgentEvent "" "" "" "" "" None) req in
           if String.eqb (Gateway.a_Tenant ev) "" then "(no-tenant)"%string else Gateway.a_Tenant ev) = iso_key req) as E
    by by destruct req.
  cbv zeta in *. rewrite E. destruct (match v with Some t => _ | None => _ end) eqn:Ev; [by intros [= <- _]|].
  destruct (match route with None => _ | _ => _ end) as [sid|e] eqn:Er.
  - destruct req as [ev|]; [|by intros [= <- _]]. destruct (Envelope.Marshal _ _); [|by intros [= <- _]]. apply append_not_throttled.
  - intros [= <- _]. destruct route as [rc|]; [|done]. destruct (_ || _); [done|].
    destruct (rc _ _ _) as [[[] sid] hint]; by simplify_eq.
Qed.

(** The answers' refusals are the limiter's, in order. *)
Lemma serve_verdicts reqs : forall l s,
  map (fun a => (a.1, negb (throttled a.2))) (serve_agents l reqs s) `prefix_of`
  (Limit.allow_all l (map (fun q => (iso_key q.2, q.1.1)) reqs)).1.
Proof.
  induction reqs as [|[[now c] req] reqs IH]; intros l s; [done|]. cbn [serve_agents map fst snd Limit.allow_all].
  unfold publish_agent.
  assert (Limit.Enabled l = false -> Limit.Allow l (iso_key req) now = (true, l)) as Hoff.
  { intros E. destruct l as [l|]; [|done]. unfold Limit.Allow. by rewrite E. }
  destruct (Limit.Enabled l) eqn:El.
  - destruct (Limit.Allow l (iso_key req) now) as [ok l'].
    destruct (Gateway.PublishAgent _ _ _ _ _ _ _) as [[a s']|] eqn:Ep.
    + pose proof (publish_verdict _ _ _ _ _ _ Ep) as Hv. cbn in Hv. specialize (IH l' s').
      destruct (Limit.allow_all l' _) as [vs l'']. cbn [map fst snd]. rewrite Hv, negb_involutive. by apply prefix_cons.
    + destruct (Limit.allow_all l' _) as [vs l'']. apply prefix_nil.
  - rewrite Hoff by done.
    destruct (Gateway.PublishAgent _ _ _ _ _ _ _) as [[a s']|] eqn:Ep.
    + pose proof (publish_verdict _ _ _ _ _ _ Ep) as Hv. specialize (IH l s').
      destruct (Limit.allow_all l _) as [vs l'']. cbn [map fst snd]. rewrite Hv. by apply prefix_cons.
    + destruct (Limit.allow_all l _) as [vs l'']. apply prefix_nil.
Qed.

(** A verdict of the limiter is the answer of every request that it decides. *)
Lemma verdicts_answered P l reqs s :
  Forall (fun x => P x.1.1 x.2) (Limit.allow_all l (map (fun q => (iso_key q.2, q.1.1)) reqs)).1 ->
  Forall (fun a => P a.1.1 (negb (throttled a.2))) (serve_agents l reqs s).
Proof.
  intros H. destruct (serve_verdicts reqs l s) as [rest Hpre]. rewrite Hpre in H. apply list.Forall_app in H as [H _].
  apply List.Forall_map in H. exact H.
Qed.

Lemma verdicts_of_Forall k (vs : list (string * Z * bool)) :
  Forall (fun ok => ok = true) (Limit.verdicts_of k vs) -> Forall (fun x => x.1.1 = k -> x.2 = true) vs.
Proof.
  unfold Limit.verdicts_of. induction vs as [|x vs IH]; [constructor|]. rewrite filter_cons. case_decide as E; intros H.
  - cbn [map] in H. apply list.Forall_cons in H as [H1 H2]. constructor; [done|by apply IH].
  - constructor; [done|by apply IH].
Qed.

(** C28. Noisy-agent isolation, end to end: with a finite positive rate [r] and any burst flag
    that is a number (negative, zero, positive or infinite, not NaN), a tenant whose
    requests leave time for a token between them, by the clock readings of the limiter in the
    order in which it serves them, is never answered that it is over its limit, whatever the
    other tenants send and whatever the publishes answer. *)
Theorem paced_tenant_not_throttled r burst d tenant reqs s :
  nonneg (Fin r) -> 0 < r -> leb burst (Fin 0) = true \/ nonneg burst -> 0 <= d <= Limit.max_duration ->
  leb (of_int 1) (mul (Limit.Seconds d) (Fin r)) = true ->
  Limit.spaced d None (Limit.times_of tenant (map (fun q => (iso_key q.2, q.1.1)) reqs)) ->
  Forall (fun a => a.1.1 = tenant -> throttled a.2 = false) (serve_agents (agent_limiter (Fin r) burst) reqs s).
Proof.
  intros Hr Hpos Hb Hd Hpace Hsp. unfold agent_limiter.
  assert (ltb (Fin 0) (Fin r) = true) as Hl by (apply Z.ltb_lt; lia). rewrite Hl. cbn [andb].
  set (bu := if leb burst (Fin 0) then Fin r else burst).
  assert (nonneg bu) as Hbu by (unfold bu; destruct (leb burst (Fin 0)); [exact Hr|by destruct Hb]). clearbody bu.
  eapply list.Forall_impl; [apply (verdicts_answered (fun k ok => k = tenant -> ok = true))|intros a Ha E; by apply negb_true_iff, Ha].
  destruct bu as [| |u|]; [done|done| |].
  - destruct (Limit.New_burst r u Hr Hpos Hbu) as (c & _ & Hc & Hc1 & Hcfg). apply verdicts_of_Forall.
    exact (Limit.allow_all_paced r c Hr Hc Hpos tenant d _ Hd Hc1 Hpace _ None Hcfg ltac:(intros ? ?; discriminate) Hsp).
  - eapply list.Forall_impl; [exact (Limit.infinite_burst_allows r _ Hpos)|]. by intros x -> _.
Qed.

(** With NaN for the burst flag, which the default for a burst of zero or less does not
    replace, every request is answered that its tenant is over its limit. *)
Theorem nan_burst_throttles r reqs s :
  0 < r -> Forall (fun a => throttled a.2 = true) (serve_agents (agent_limiter (Fin r) NaN) reqs s).
Proof.
  intros Hpos. unfold agent_limiter. assert (ltb (Fin 0) (Fin r) = true) as -> by (apply Z.ltb_lt; lia). cbn [andb leb].
  eapply list.Forall_impl; [apply (verdicts_answered (fun _ ok => ok = false))|intros a Ha; by apply negb_false_iff].
  exact (Limit.nan_burst_refuses r _ Hpos).
Qed.
End Tenants.

#[local] Existing Instance WalCommit.wal_log_sink.

Lemma paced_tenant_not_throttled_witness :
  let req (t : string) := Some (Gateway.mkAgentEvent "note" t "p" "s" "a" None) in
  let c : @Gateway.clock WalCommit.wal_io := Gateway.mkClock 1 1 Gateway.io_fine in
  let answers := serve_agents None None (fun _ _ => true) (agent_limiter (Fin (1 * one_units)) (Fin (- one_units)))
    [(0, c, req "a"); (1, c, req "b"); (2, c, req "b"); (3, c, req "b"); (second, c, req "a")]%string
    Gateway.session_server in
  Forall (fun a => a.1.1 = "a"%string -> throttled a.2 = false) answers /\ map (fun a => throttled a.2) answers = [false; false; true; true; false].
Proof.
  cbv zeta. split; [|vm_compute; reflexivity].
  apply (paced_tenant_not_throttled None None (fun _ _ => true) (1 * one_units) (Fin (- one_units)) second "a").
  - exact (nonneg_int 1 ltac:(lia)).
  - vm_compute. reflexivity.
  - left. vm_compute. reflexivity.
  - vm_compute. split; discriminate.
  - vm_compute. reflexivity.
  - vm_compute. repeat split; discriminate.
Defined.

(** ** Requests that change nothing, and keyless publishes *)

Section Requests.
Context {G C : Type} `{!Meter.GaugeVec G} `{!Meter.CounterVec C}.

(** The Raft state answers an update only to a caller with the administrator's token (when
    one is set) and a JSON body; every other request leaves it as it was. *)
Lemma raft_state_guarded adminToken meth token body (s : raftRuntimeState) (m : @Meter.Metrics G C) :
  let '(code, _, s', m') := raft_state adminToken meth token body s m in
  (code = StatusNoContent -> meth = POST /\ (adminToken = ""%string \/ token = adminToken) /\
     exists u, decode_body set_update (mkUpdate "" "" 0) body = Some u /\ s' = Update u s) /\
  (code <> StatusNoContent -> s' = s /\ m' = m).
Proof.
  unfold raft_state. destruct meth; try by split.
  destruct (negb (String.eqb adminToken "") && negb (String.eqb token adminToken)) eqn:E; [by split|].
  destruct (decode_body _ _ _) as [u|]; [|by split]. split; [|done]. intros _. split; [done|]. split; [|eauto].
  apply andb_false_iff in E as [E|E]; apply negb_false_iff in E; [left|right]; by apply String.eqb_eq.
Qed.
End Requests.

Section Keyless.
Context {W IO : Type} `{SK : !WalCommit.WalSink W IO}.

(** A publish over HTTP with neither a key nor a positive partition goes to partition 0,
    whatever the round-robin counter says. *)
Lemma keyless_publish_goes_to_zero (c : @Gateway.clock IO) topic p payload (s s' : @Gateway.Server W) r :
  p <= 0 -> Gateway.api_publish c topic "" p payload s = Some (r, s') -> exists o, r = Ok (0, o).
Proof.
  intros Hp. unfold Gateway.api_publish. destruct (Z.ltb_spec 0 p); [lia|]. cbn [String.eqb negb].
  destruct (Bus.Publish _ _ _ _) as [[o b]|]; cbn; [|done].
  destruct (Gateway.append_wal _ _ _) as [s1 e]. intros [= <- _]. eauto.
Qed.
End Keyless.

End Process.
