(* ===== verification/Console.v ===== *)
(** * Inspecting a broker from the command line (internal/cli/workflow.go, session.go,
    cluster.go, cluster_route.go)

    [Module Inspect]: the workflow, session and cluster commands over the SDK's calls and the
    broker's HTTP endpoints.  A command answers with the bytes it prints or with its error;
    the offset of the local time zone is an argument.  [cluster route] is run end to end:
    its query is escaped, parsed by the endpoint, routed, answered in JSON and decoded. *)

From S2P Require Import Prelude GoLib GoJson GoTime GoFmt GoUrl GoFloat AgentStream Broker WalLog Consumer Server.
From S2P Require Import Sdk WfState WfStore WfCoord WfService SdkWorker SdkStream BrokerMain.
Import Json Fmt.

Module Inspect.
Local Open Scope string_scope.
Local Open Scope Z_scope.
Local Open Scope list_scope.

Definition text (ss : list bytes) : bytes := concat ss.
Definition lit (s : string) : bytes := bs_of s.
Definition num (z : Z) : bytes := format_int z.
Definition eol : bytes := [ch 10].

Inductive cmd_err {E : Type} := BadFlag (msg : string) | NotFound (what : bytes) | CallFailed (e : E).
Arguments cmd_err : clear implicits.

(** ** goqueue workflow *)

Section Workflow.
Context {S : Type} (local : Z -> Z).

(** [submit]: the input must be JSON; nothing is sent otherwise. *)
Definition workflow_submit (call : Worker.WorkflowSpec -> S -> option (result Worker.submit_err bool * S))
    (spec : Worker.WorkflowSpec) (s : S) : option (result (cmd_err Worker.submit_err) bytes * S) :=
  if negb (bool_decide (Worker.ws_Input spec = [])) && negb (valid (Worker.ws_Input spec)) then
    Some (Err (BadFlag "--input must be valid JSON"), s)
  else
    '(r, s) ← call spec s;
    Some (match r with
          | Err e => Err (CallFailed e)
          | Ok true => Ok (text [lit "workflow "; lit (Worker.ws_WorkflowID spec); lit " already exists (idempotent no-op)"; eol])
          | Ok false =>
              Ok (text [lit "submitted workflow "; lit (Worker.ws_WorkflowID spec); lit " (task type "; lit (Worker.ws_TaskType spec);
                        lit ")"; eol])
          end, s).

Definition not_found (tenant project id : string) : bytes :=
  text [lit "execution "; lit tenant; lit "/"; lit project; lit "/"; lit id; lit " not found"].

Definition status_lines (x : Streaming.ExecutionState) : bytes :=
  text ([lit "id:           "; lit (Streaming.es_WorkflowID x); eol;
         lit "task type:    "; lit (Streaming.es_TaskType x); eol;
         lit "status:       "; lit (Streaming.es_Status x); eol;
         lit "attempt:      "; num (Streaming.es_Attempt x); lit "/"; num (Streaming.es_MaxAttempts x); eol] ++
        (if String.eqb (Streaming.es_WorkerID x) "" then [] else [lit "worker:       "; lit (Streaming.es_WorkerID x); eol]) ++
        (if negb (Time.IsZero (Streaming.es_LeaseDeadline x)) && String.eqb (Streaming.es_Status x) "running"
         then [lit "lease until:  "; RFC3339 (local (Streaming.es_LeaseDeadline x)) (Streaming.es_LeaseDeadline x); eol] else []) ++
        (if bool_decide (Streaming.es_Result x = []) then [] else [lit "result:       "; Streaming.es_Result x; eol]) ++
        (if String.eqb (Streaming.es_Error x) "" then [] else [lit "error:        "; lit (Streaming.es_Error x); eol]) ++
        [lit "submitted:    "; RFC3339 (local (Streaming.es_SubmittedAt x)) (Streaming.es_SubmittedAt x); eol;
         lit "updated:      "; RFC3339 (local (Streaming.es_UpdatedAt x)) (Streaming.es_UpdatedAt x); eol]).

Definition workflow_status {E} (call : string -> string -> string -> S -> option (result E (option Streaming.ExecutionState) * S))
    (tenant project id : string) (s : S) : option (result (cmd_err E) bytes * S) :=
  '(r, s) ← call tenant project id s;
  Some (match r with
        | Err e => Err (CallFailed e)
        | Ok None => Err (NotFound (not_found tenant project id))
        | Ok (Some x) => Ok (status_lines x)
        end, s).

Definition history_line (i : nat) (tr : Streaming.ExecutionTransition) : bytes :=
  text ([pad_left 2 (num (Z.of_nat i)); lit "  "; pad_right 13 (lit (Streaming.et_EventType tr)); lit " -> ";
         pad_right 9 (lit (Streaming.et_Status tr)); lit " attempt="; num (Streaming.et_Attempt tr)] ++
        (if String.eqb (Streaming.et_WorkerID tr) "" then [] else [lit "  worker="; lit (Streaming.et_WorkerID tr)]) ++
        (if String.eqb (Streaming.et_Detail tr) "" then [] else [lit "  "; lit (Streaming.et_Detail tr)]) ++
        [lit "  ("; RFC3339Nano (local (Streaming.et_At tr)) (Streaming.et_At tr); lit ")"; eol]).

Definition workflow_history {E}
    (call : string -> string -> string -> S -> option (result E (option (list Streaming.ExecutionTransition)) * S))
    (tenant project id : string) (s : S) : option (result (cmd_err E) bytes * S) :=
  '(r, s) ← call tenant project id s;
  Some (match r with
        | Err e => Err (CallFailed e)
        | Ok None => Err (NotFound (not_found tenant project id))
        | Ok (Some trs) => Ok (text (imap history_line trs))
        end, s).

(** A missing status counts as zero. *)
Definition count_of (counts : gmap string Z) (st : string) : bytes := num (default 0 (counts !! st)).

Definition list_line (x : Streaming.ExecutionSummary) : bytes :=
  text [pad_right 30 (text [lit (Streaming.su_Tenant x); lit "/"; lit (Streaming.su_Project x); lit "/"; lit (Streaming.su_WorkflowID x)]);
        lit " "; pad_right 12 (lit (Streaming.su_TaskType x)); lit " "; pad_right 10 (lit (Streaming.su_Status x)); lit " attempt=";
        num (Streaming.su_Attempt x); lit " updated="; RFC3339 (local (Streaming.su_UpdatedAt x)) (Streaming.su_UpdatedAt x); eol].

Definition workflow_list {E}
    (call : string -> Z -> S -> option (result E (list Streaming.ExecutionSummary * gmap string Z) * S))
    (status : string) (limit : Z) (s : S) : option (result (cmd_err E) bytes * S) :=
  '(r, s) ← call status limit s;
  Some (match r with
        | Err e => Err (CallFailed e)
        | Ok (xs, counts) =>
            Ok (text ([lit "counts: pending="; count_of counts "pending"; lit " running="; count_of counts "running";
                       lit " retrying="; count_of counts "retrying"; lit " completed="; count_of counts "completed";
                       lit " failed="; count_of counts "failed"; eol] ++ map list_line xs))
        end, s).
End Workflow.

(** ** goqueue session *)

(** A payload of less than 4 KiB is printed indented, as it is when it is not JSON. *)
Definition render_payload (payload : bytes) : bytes :=
  if (0 <? zlen payload) && (zlen payload <? 4096) then
    match Indent (lit "    ") (lit "  ") payload with
    | Some pretty => text [lit "    "; pretty; eol]
    | None => text [lit "    "; payload; eol]
    end
  else [].

Definition renderPretty (ev : Client.DecodedEvent) : bytes :=
  let ts := if Time.IsZero (Client.d_Timestamp ev) then Client.d_CreatedAt ev else Client.d_Timestamp ev in
  text [lit "["; clock_ms ts; lit "] off="; pad_right 6 (num (Client.d_Offset ev)); lit " "; pad_right 14 (lit (Client.d_Type ev));
        if String.eqb (Client.d_Step ev) "" then [] else text [lit " "; lit (Client.d_Step ev)];
        if 1 <? Client.d_Attempt ev then text [lit " (attempt "; num (Client.d_Attempt ev); lit ")"] else [];
        lit "  agent="; lit (Client.d_AgentID ev); eol] ++
  render_payload (default [] (Client.d_Payload ev)).

(** The default format of [renderEvents]. *)
Definition render_pretty_events (events : list Client.DecodedEvent) : bytes := text (map renderPretty events).

Record sessionFlags := mkFlags {
  sf_tenant : string; sf_project : string; sf_session : string; sf_topic : string; sf_partitions : Z; sf_from : Z; sf_max : Z
}.

Definition sessionRef (sf : sessionFlags) : Client.SessionRef := Client.mkSession (sf_tenant sf) (sf_project sf) (sf_session sf) "".

Section Session.
Context {S E : Type}.

(** [replay]: the events on the standard output, their number on the standard error. *)
Definition session_replay (replay : Client.SessionRef -> Client.ReplayOptions -> S -> option (list Client.DecodedEvent * option E * S))
    (grpc : bool) (sf : sessionFlags) (s : S) : option (result (cmd_err E) (bytes * bytes) * S) :=
  if negb grpc then Some (Err (BadFlag "session commands require --grpc"), s)
  else
    '(events, err, s) ← replay (sessionRef sf) (Client.mkOptions (sf_topic sf) (sf_partitions sf) (sf_from sf) 0 (sf_max sf)) s;
    Some (match err with
          | Some e => Err (CallFailed e)
          | None => Ok (render_pretty_events events,
                        text [eol; num (zlen events); lit " event(s) for session "; lit (sf_session sf); eol])
          end, s).

(** [tail]: the loop up to the moment [Next] blocks, [Ok] and an error of the stream that
    neither its end nor the interrupt explains otherwise.  The line on the standard error
    is printed before the first event. *)
Definition session_tail {H TE} (tail : Client.SessionRef -> string -> Z -> S -> option (result TE H * S))
    (loop : H -> S -> option (list Client.DecodedEvent * option (Streaming.sub_err E) * S))
    (grpc : bool) (sf : sessionFlags) (s : S) :
    option (result (cmd_err TE) (bytes * bytes * option (Streaming.sub_err E)) * S) :=
  if negb grpc then Some (Err (BadFlag "session commands require --grpc"), s)
  else
    '(r, s) ← tail (sessionRef sf) (sf_topic sf) (sf_partitions sf) s;
    match r with
    | Err e => Some (Err (CallFailed e), s)
    | Ok sub =>
        '(events, err, s) ← loop sub s;
        Some (Ok (render_pretty_events events,
                  text [lit "tailing session "; lit (sf_session sf); lit " on "; lit (sf_topic sf); lit " (Ctrl-C to stop)"; eol],
                  match err with Some Streaming.SubscriptionClosed => None | _ => err end), s)
    end.
End Session.

(** ** goqueue cluster *)

Record clusterStatusResponse := mkStatusResponse { cs_NodeID : string; cs_Role : string; cs_LeaderID : string; cs_Term : Z; cs_Uptime : string }.

Definition set_status (key raw : bytes) (v : json) (r : clusterStatusResponse) : option clusterStatusResponse :=
  if field_is "node_id" key then x ← dec_string v (cs_NodeID r); Some {| r with cs_NodeID := x |}
  else if field_is "role" key then x ← dec_string v (cs_Role r); Some {| r with cs_Role := x |}
  else if field_is "leader_id" key then x ← dec_string v (cs_LeaderID r); Some {| r with cs_LeaderID := x |}
  else if field_is "term" key then x ← dec_int v (cs_Term r); Some {| r with cs_Term := x |}
  else if field_is "uptime" key then x ← dec_string v (cs_Uptime r); Some {| r with cs_Uptime := x |}
  else Some r.

(** What an HTTP call comes back with: an error, or a status and a body. *)
Inductive http_err := Unreachable | BadStatus (code : Z) (body : bytes) | BadBody.

Definition cluster_status (resp : option (Z * bytes)) : result (cmd_err http_err) bytes :=
  match resp with
  | None => Err (CallFailed Unreachable)
  | Some (code, body) =>
      if negb (code =? Process.StatusOK) then Err (CallFailed (BadStatus code body))
      else
        match Process.decode_body set_status (mkStatusResponse "" "" "" 0 "") body with
        | None => Err (CallFailed BadBody)
        | Some out =>
            Ok (text [lit "Node:    "; lit (cs_NodeID out); eol; lit "Role:    "; lit (cs_Role out); eol;
                      lit "Leader:  "; lit (cs_LeaderID out); eol; lit "Term:    "; num (cs_Term out); eol;
                      lit "Uptime:  "; lit (cs_Uptime out); eol])
        end
  end.

Record clusterRouteResponse := mkRouteResponse {
  rr_ClusterEnabled : bool; rr_Reason : string; rr_Tenant : string; rr_Project : string; rr_Session : string;
  rr_ShardID : Z; rr_LeaderNodeID : string; rr_LeaderClient : string; rr_IsLocal : bool
}.

Definition no_route : clusterRouteResponse := mkRouteResponse false "" "" "" "" 0 "" "" false.

(** A shard id that does not fit 32 bits does not decode. *)
Definition dec_uint32 (v : json) (old : Z) : option Z :=
  x ← dec_int v old; if (0 <=? x) && (x <? 2 ^ 32) then Some x else None.

Definition set_route (key raw : bytes) (v : json) (r : clusterRouteResponse) : option clusterRouteResponse :=
  if field_is "cluster_enabled" key then x ← dec_bool v (rr_ClusterEnabled r); Some {| r with rr_ClusterEnabled := x |}
  else if field_is "reason" key then x ← dec_string v (rr_Reason r); Some {| r with rr_Reason := x |}
  else if field_is "tenant" key then x ← dec_string v (rr_Tenant r); Some {| r with rr_Tenant := x |}
  else if field_is "project" key then x ← dec_string v (rr_Project r); Some {| r with rr_Project := x |}
  else if field_is "session" key then x ← dec_string v (rr_Session r); Some {| r with rr_Session := x |}
  else if field_is "shard_id" key then x ← dec_uint32 v (rr_ShardID r); Some {| r with rr_ShardID := x |}
  else if field_is "leader_node_id" key then x ← dec_string v (rr_LeaderNodeID r); Some {| r with rr_LeaderNodeID := x |}
  else if field_is "leader_client" key then x ← dec_string v (rr_LeaderClient r); Some {| r with rr_LeaderClient := x |}
  else if field_is "is_local" key then x ← dec_bool v (rr_IsLocal r); Some {| r with rr_IsLocal := x |}
  else Some r.

Definition route_lines (out : clusterRouteResponse) : bytes :=
  if negb (rr_ClusterEnabled out) then text [lit "Cluster: not enabled ("; lit (rr_Reason out); lit ")"; eol]
  else
    text ([lit "Session: "; lit (rr_Tenant out); lit "/"; lit (rr_Project out); lit "/"; lit (rr_Session out); eol;
           lit "Shard:   "; num (rr_ShardID out); eol] ++
          (if String.eqb (rr_LeaderNodeID out) "" then [lit "Leader:  (none - shard unassigned or current leader is dead)"; eol]
           else [lit "Leader:  "; lit (rr_LeaderNodeID out); lit " (client addr: "; lit (rr_LeaderClient out); lit ")"; eol]) ++
          [lit "Local:   "; enc_bool (rr_IsLocal out); eol]).

(** [get] answers a request for a path with a query. *)
Definition cluster_route (get : bytes -> option (Z * bytes)) (metricsURL tenant project session : string) :
    result (cmd_err http_err) bytes :=
  if String.eqb tenant "" || String.eqb project "" || String.eqb session "" then
    Err (BadFlag "--tenant, --project, and --session are all required")
  else
    match get (text [lit metricsURL; lit "/api/route?"; Url.Encode [("project", project); ("session", session); ("tenant", tenant)]]) with
    | None => Err (CallFailed Unreachable)
    | Some (code, body) =>
        if negb (code =? Process.StatusOK) then Err (CallFailed (BadStatus code body))
        else
          match Process.decode_body set_route no_route body with
          | None => Err (CallFailed BadBody)
          | Some out => Ok (route_lines out)
          end
    end.

(** *** The endpoint (cmd/broker/main.go) on the wire *)

(** [json.Encode] of a map writes its keys in order. *)
Definition route_fields (a : option Process.RouteAnswer) : list (string * bytes) :=
  match a with
  | None => [("cluster_enabled", enc_bool false);
             ("reason", enc_string "broker is running in single-node mode; routing is a no-op")]
  | Some a =>
      [("cluster_enabled", enc_bool true); ("is_local", enc_bool (Process.ra_is_local a));
       ("leader_client", enc_string (Process.ra_leader_client a)); ("leader_node_id", enc_string (Process.ra_leader_node_id a));
       ("project", enc_string (Process.ra_project a)); ("session", enc_string (Process.ra_session a));
       ("shard_id", format_int (Process.ra_shard_id a)); ("tenant", enc_string (Process.ra_tenant a))]
  end.

Definition route_endpoint (route : option (string -> string -> string -> Z * string * string * bool)) (url : bytes) : Z * bytes :=
  let q := Url.ParseQuery (Url.url_query url) in
  (Process.StatusOK,
   enc_object (route_fields (Process.api_route route (Url.Get "tenant" q) (Url.Get "project" q) (Url.Get "session" q))) ++ eol).

(** ** What the commands print *)

(** A body that starts with an encoded object; the encoder ends it with a newline. *)
Lemma decode_body_object {A} (set : bytes -> bytes -> json -> A -> option A) zero fields vals t :
  fields <> [] -> Forall (fun f => utf8_ok f.1) fields -> Forall2 (fun f v => reads 1 f.2 v) fields vals ->
  Process.decode_body set zero (enc_object fields ++ t) = dec_members set (members_of fields vals) zero.
Proof.
  intros Hne Hn HF. unfold Process.decode_body.
  rewrite (reads_skip 0 _ _ _ (reads_object 0 fields vals Hne Hn ltac:(done) HF)).
  rewrite (p_value_object _ 0 fields vals) by (done || lia). done.
Qed.

Definition route_vals (a : Process.RouteAnswer) : list json :=
  [JBool true; JBool (Process.ra_is_local a); JStr (bs_of (Process.ra_leader_client a)); JStr (bs_of (Process.ra_leader_node_id a));
   JStr (bs_of (Process.ra_project a)); JStr (bs_of (Process.ra_session a)); JNum (format_int (Process.ra_shard_id a));
   JStr (bs_of (Process.ra_tenant a))].

Definition answer_ok (a : Process.RouteAnswer) : Prop :=
  Forall utf8_ok [Process.ra_tenant a; Process.ra_project a; Process.ra_session a; Process.ra_leader_node_id a; Process.ra_leader_client a] /\
  0 <= Process.ra_shard_id a < 2 ^ 32.

(** Read the next member with the field it names. *)
Ltac read_member set :=
  erewrite Envelope.dec_members_cons; [|unfold set; eval_fields; cbn [dec_string dec_bool mbind option_bind];
    rewrite ?str_of_bs; cbn [rr_ShardID]; try match goal with H : dec_uint32 _ _ = Some _ |- _ => rewrite H end; cbn [mbind option_bind rr_ClusterEnabled rr_Reason rr_Tenant rr_Project rr_Session rr_ShardID rr_LeaderNodeID rr_LeaderClient rr_IsLocal]; reflexivity].

(** The command reads back the answer the endpoint wrote. *)
Lemma route_answer_roundtrip a : answer_ok a ->
  Process.decode_body set_route no_route (enc_object (route_fields (Some a)) ++ eol) =
  Some (mkRouteResponse true "" (Process.ra_tenant a) (Process.ra_project a) (Process.ra_session a) (Process.ra_shard_id a)
          (Process.ra_leader_node_id a) (Process.ra_leader_client a) (Process.ra_is_local a)).
Proof.
  intros [HU Hs]. repeat (apply Forall_cons_1 in HU as [? HU]).
  rewrite (decode_body_object _ _ _ (route_vals a) eol).
  - assert (dec_uint32 (JNum (format_int (Process.ra_shard_id a))) 0 = Some (Process.ra_shard_id a)) as Hd.
    { unfold dec_uint32, dec_int. rewrite parse_format_int by (unfold in_i64; lia). cbn [mbind option_bind].
      by rewrite (proj2 (Z.leb_le _ _)), (proj2 (Z.ltb_lt _ _)) by lia. }
    cbn [route_fields route_vals members_of fst snd]. unfold no_route.
    do 8 (read_member set_route). reflexivity.
  - done.
  - repeat constructor; vm_compute; reflexivity.
  - cbn [route_fields route_vals]. repeat (apply Forall2_cons_2; [first [apply reads_bool|apply reads_int|by apply reads_enc_string]|]). constructor.
Qed.

(** The three lines of a route, and the line for the broker itself. *)
Definition printed_route (tenant project session : string) (shard : Z) (leader client : string) (isLocal : bool) : bytes :=
  lit ("Session: " +:+ tenant +:+ "/" +:+ project +:+ "/" +:+ session) ++ eol ++
  lit "Shard:   " ++ format_int shard ++ eol ++
  lit (if decide (leader = "") then "Leader:  (none - shard unassigned or current leader is dead)"
       else "Leader:  " +:+ leader +:+ " (client addr: " +:+ client +:+ ")") ++ eol ++
  lit (if isLocal then "Local:   true" else "Local:   false") ++ eol.

Lemma lit_app a b : lit (a +:+ b) = lit a ++ lit b.
Proof. unfold lit. apply bs_of_append. Qed.

Lemma route_lines_printed reason tenant project session shard leader client isLocal :
  route_lines (mkRouteResponse true reason tenant project session shard leader client isLocal) =
  printed_route tenant project session shard leader client isLocal.
Proof.
  unfold route_lines, printed_route, text, num. cbn [negb rr_ClusterEnabled rr_Tenant rr_Project rr_Session rr_ShardID rr_LeaderNodeID rr_LeaderClient rr_IsLocal].
  destruct (decide (leader = "")) as [->|Hl]; [|rewrite (proj2 (String.eqb_neq leader "")) by done].
  all: destruct isLocal; rewrite !lit_app; cbn [String.eqb concat app]; rewrite <- ?app_assoc; rewrite ?app_nil_r; reflexivity.
Qed.

Lemma route_query metricsURL vs : Url.has 35 (bs_of metricsURL) = false -> Url.has 63 (bs_of metricsURL) = false ->
  Url.url_query (text [lit metricsURL; lit "/api/route?"; Url.Encode vs]) = Url.Encode vs.
Proof.
  intros H35 H63. unfold text, lit. cbn [concat]. rewrite app_nil_r.
  change (bs_of "/api/route?") with (bs_of "/api/route" ++ [ch 63]). rewrite <- app_assoc, app_assoc. cbn [app].
  apply Url.url_query_of; [by rewrite Url.has_app, H35|by rewrite Url.has_app, H63|apply Url.encode_no_fragment].
Qed.

(** C23. [cluster route] end to end: the names of the session, escaped into the query and
    parsed by the endpoint, are routed as they are given, whatever bytes of text they
    hold, and the shard, the leader with its address and whether it is this broker are
    printed as the router decided them. *)
Theorem cluster_route_prints (rt : string -> string -> string -> Z * string * string * bool) metricsURL tenant project session
    shard leader client isLocal :
  tenant <> "" -> project <> "" -> session <> "" ->
  Forall utf8_ok [tenant; project; session; leader; client] -> 0 <= shard < 2 ^ 32 ->
  Url.has 35 (bs_of metricsURL) = false -> Url.has 63 (bs_of metricsURL) = false ->
  rt tenant project session = (shard, leader, client, isLocal) ->
  cluster_route (fun url => Some (route_endpoint (Some rt) url)) metricsURL tenant project session =
  Ok (printed_route tenant project session shard leader client isLocal).
Proof.
  intros Ht Hp Hs HU Hsh H35 H63 Hrt. unfold cluster_route. rewrite !(proj2 (String.eqb_neq _ "")) by done. cbn [orb].
  unfold route_endpoint. rewrite route_query, Url.encode_parse_roundtrip by done. cbn [map fst snd].
  assert (Url.Get "tenant" [(bs_of "project", bs_of project); (bs_of "session", bs_of session); (bs_of "tenant", bs_of tenant)] = tenant /\
    Url.Get "project" [(bs_of "project", bs_of project); (bs_of "session", bs_of session); (bs_of "tenant", bs_of tenant)] = project /\
    Url.Get "session" [(bs_of "project", bs_of project); (bs_of "session", bs_of session); (bs_of "tenant", bs_of tenant)] = session)
    as (-> & -> & ->) by (split_and!; exact (str_of_bs _)).
  unfold Process.api_route. cbn [mbind option_bind]. rewrite Hrt. change (Process.StatusOK =? Process.StatusOK) with true. cbn [negb].
  rewrite route_answer_roundtrip by (split; [|done]; cbn [Process.ra_tenant Process.ra_project Process.ra_session
    Process.ra_leader_node_id Process.ra_leader_client]; done).
  f_equal. apply route_lines_printed.
Qed.

(** A session whose names hold the separators of a query. *)
Lemma cluster_route_prints_witness :
  cluster_route (fun url => Some (route_endpoint (Some (fun _ _ _ => (7, "n2", "10.0.0.2:9095", false))) url))
    "http://localhost:2112" "a&b=c" "p q+%" "s#1" =
  Ok (printed_route "a&b=c" "p q+%" "s#1" 7 "n2" "10.0.0.2:9095" false).
Proof.
  apply (cluster_route_prints (fun _ _ _ => (7, "n2", "10.0.0.2:9095", false))); try done; try lia; try (by vm_compute).
  repeat constructor; by vm_compute.
Defined.

(** A JSON payload is printed with the tokens it has, white space apart. *)
Lemma payload_tokens p : valid p = true -> 0 < zlen p < 4096 ->
  exists q, render_payload p = lit "    " ++ q ++ eol /\ strip Outside q = strip Outside p.
Proof.
  intros Hv Hl. unfold render_payload. rewrite (proj2 (Z.ltb_lt _ _)), (proj2 (Z.ltb_lt _ _)) by lia. cbn [andb].
  unfold Indent. rewrite Hv. cbn [mbind option_bind]. eexists. split; [unfold text; cbn [concat]; by rewrite app_nil_r|].
  by apply indent_strip.
Qed.

(** [session replay] of a broker that holds three events of the session and one of another. *)
Example replay_prints :
  (fun r => match r with (Ok (out, err), _) => Some (out, err) | _ => None end) <$>
    session_replay (Client.ReplaySession Client.server_Fetch 5) true (mkFlags "acme" "p" "s1" "" 0 0 0) Client.demo_server =
  Some (Some (lines ["[22:43:41.128] off=0      think.start     agent=planner"; "    {}";
                     "[22:43:41.128] off=2      tool.call       agent=planner"; "    {}";
                     "[22:43:41.128] off=3      complete        agent=planner"; "    {}"],
              lines [""; "3 event(s) for session s1"])).
Proof. vm_compute. reflexivity. Qed.
End Inspect.
