(* ===== verification/Dashboard.v ===== *)
(** * The dashboard (web/app.go)

    [Module Web]: the component [Dashboard], its page and its handlers.  The page is the
    tree of the builder calls of [Render] and of the functions it is made of: an element
    with its styles, attributes, handlers and children, a handler being named by the
    action it runs.  A function given to [ctx.Dispatch] is an update of the component; the
    handlers return the updates they dispatch and the request they start, so a theorem
    holds for any state the component has reached when the answer comes.  The texts of
    errors are arguments.  The requests go to the endpoints of [BrokerMain]: publishing is
    shown end to end, and so is fetching for topics that need no escaping. *)

From S2P Require Import Prelude GoLib GoFloat GoJson GoJsonMap GoTime GoFmt GoUrl AgentStream Broker WalLog Consumer Server BrokerMain Console.
Import Json Fmt Float.

Module Web.
Set Warnings "-register-all".
Local Open Scope string_scope.
Local Open Scope Z_scope.
Local Open Scope list_scope.

(** ** The palette *)

Definition glassBorder : string := "rgba(0,0,0,0.10)".
Definition txt : string := "#0d1117".
Definition muted : string := "rgba(87,96,106,0.85)".
Definition accent : string := "#0969da".
Definition accentDim : string := "rgba(9,105,218,0.10)".
Definition accentBdr : string := "rgba(9,105,218,0.30)".
Definition warn : string := "#9a6700".
Definition warnDim : string := "rgba(154,103,0,0.12)".
Definition danger : string := "#cf222e".
Definition dangerDim : string := "rgba(207,34,46,0.10)".
Definition ok : string := "rgba(26,127,55,0.90)".
Definition fontMono : string := "'JetBrains Mono','Fira Code','Cascadia Code',monospace".

(** ** The component *)

(** The messages as the page gets them: the time is text. *)
Record FetchedMessage := mkMessage { m_Offset : Z; m_Timestamp : string; m_Payload : string }.

Record Dashboard := mkDashboard {
  stats : Process.BrokerStats; pubRate : Z; conRate : Z; prevPubRate : Z; prevConRate : Z; connErr : string;
  selectedTopic : string; activeTab : string;
  pubTopic : string; pubKey : string; pubPartStr : string; pubPayload : string; pubFeedback : string; pubIsErr : bool; publishing : bool;
  fetchTopic : string; fetchPartStr : string; fetchOffStr : string; fetchLimStr : string;
  fetchResults : list FetchedMessage; fetchErr : string; fetching : bool
}.

Definition zero_stats : Process.BrokerStats := Process.mkStats "" "" "" 0 "" 0 0 0 [] (Process.mkWALInfo "" "").

Definition zero_dashboard : Dashboard :=
  mkDashboard zero_stats 0 0 0 0 "" "" "" "" "" "" "" "" false false "" "" "" "" [] "" false.

(** What a dispatched function does. *)
Definition update : Type := Dashboard -> Dashboard.

(** [OnMount] before its loop, and the function each turn of the loop dispatches. *)
Definition OnMount : update := fun d => {| d with activeTab := "publish" |}.

Definition poll (r : result string Process.BrokerStats) : update := fun d =>
  match r with
  | Err e => {| d with connErr := e |}
  | Ok s =>
      {| d with prevPubRate := pubRate d; prevConRate := conRate d;
         pubRate := i64 (Process.st_TotalPublished s - Process.st_TotalPublished (stats d));
         conRate := i64 (Process.st_TotalConsumed s - Process.st_TotalConsumed (stats d));
         stats := s; connErr := "" |}
  end.

(** ** Handlers *)

Inductive field := PubTopic | PubKey | PubPart | PubPayload | FetchTopic | FetchPart | FetchOff | FetchLim.

Inductive action := SelectTopic (name : string) | SelectTab (id : string) | DoPublish | DoFetch.

Definition on_input (f : field) (v : string) : update := fun d =>
  match f with
  | PubTopic => {| d with pubTopic := v |}
  | PubKey => {| d with pubKey := v |}
  | PubPart => {| d with pubPartStr := v |}
  | PubPayload => {| d with pubPayload := v |}
  | FetchTopic => {| d with fetchTopic := v |}
  | FetchPart => {| d with fetchPartStr := v |}
  | FetchOff => {| d with fetchOffStr := v |}
  | FetchLim => {| d with fetchLimStr := v |}
  end.

Definition select_topic (name : string) : update := fun d =>
  {| d with selectedTopic := name; pubTopic := name; fetchTopic := name |}.

Definition select_tab (id : string) : update := fun d => {| d with activeTab := id |}.

(** *** Publishing *)

(** [json.Marshal] of the request; an empty key and partition 0 are left out. *)
Definition request_fields (q : Process.PublishRequest) : list (string * bytes) :=
  [("topic", enc_string (Process.rq_Topic q))] ++
  (if String.eqb (Process.rq_Key q) "" then [] else [("key", enc_string (Process.rq_Key q))]) ++
  (if Process.rq_Partition q =? 0 then [] else [("partition", format_int (Process.rq_Partition q))]) ++
  [("payload", enc_string (Process.rq_Payload q))].

Definition doPublish (d : Dashboard) : update * option bytes :=
  if String.eqb (pubTopic d) "" || String.eqb (pubPayload d) "" then
    (fun d => {| d with pubFeedback := "topic and payload are required"; pubIsErr := true |}, None)
  else
    let partition := if String.eqb (pubPartStr d) "" then -1 else Process.sscanf_d (pubPartStr d) (-1) in
    (fun d => {| d with publishing := true; pubFeedback := "" |},
     Some (enc_object (request_fields (Process.mkPublish (pubTopic d) (pubKey d) partition (pubPayload d))))).

Definition set_published (key raw : bytes) (v : json) (p : Process.PublishResponse) : option Process.PublishResponse :=
  if field_is "topic" key then x ← dec_string v (Process.rp_Topic p); Some (Process.mkPublished x (Process.rp_Partition p) (Process.rp_Offset p))
  else if field_is "partition" key then x ← dec_int v (Process.rp_Partition p); Some (Process.mkPublished (Process.rp_Topic p) x (Process.rp_Offset p))
  else if field_is "offset" key then x ← dec_int v (Process.rp_Offset p); Some (Process.mkPublished (Process.rp_Topic p) (Process.rp_Partition p) x)
  else Some p.

Section Answers.
Context (json_error : bytes -> string).

(** The answer's status is not looked at: an error page is a body that does not decode. *)
Definition publish_done (resp : result string bytes) : update := fun d =>
  match resp with
  | Err e => {| d with publishing := false; pubFeedback := "error: " +:+ e; pubIsErr := true |}
  | Ok body =>
      match Process.decode_body set_published (Process.mkPublished "" 0 0) body with
      | None => {| d with publishing := false; pubFeedback := "error: " +:+ json_error body; pubIsErr := true |}
      | Some pr =>
          {| d with publishing := false; pubIsErr := false;
             pubFeedback := "✓  " +:+ Process.rp_Topic pr +:+ "  partition=" +:+ str_of (format_int (Process.rp_Partition pr)) +:+
                            "  offset=" +:+ str_of (format_int (Process.rp_Offset pr)) |}
      end
  end.

(** *** Fetching *)

Definition form_int (s : string) (dflt : Z) : Z := if String.eqb s "" then dflt else Process.sscanf_d s dflt.

(** The topic is put into the query as it is. *)
Definition doFetch (d : Dashboard) : update * option bytes :=
  if String.eqb (fetchTopic d) "" then (fun d => {| d with fetchErr := "topic is required" |}, None)
  else
    (fun d => {| d with fetching := true; fetchErr := "" |},
     Some (bs_of "/api/fetch?topic=" ++ bs_of (fetchTopic d) ++ bs_of "&partition=" ++ format_int (form_int (fetchPartStr d) 0) ++
           bs_of "&offset=" ++ format_int (form_int (fetchOffStr d) 0) ++ bs_of "&limit=" ++ format_int (form_int (fetchLimStr d) 20))).

Definition set_message (key raw : bytes) (v : json) (m : FetchedMessage) : option FetchedMessage :=
  if field_is "offset" key then x ← dec_int v (m_Offset m); Some (mkMessage x (m_Timestamp m) (m_Payload m))
  else if field_is "timestamp" key then x ← dec_string v (m_Timestamp m); Some (mkMessage (m_Offset m) x (m_Payload m))
  else if field_is "payload" key then x ← dec_string v (m_Payload m); Some (mkMessage (m_Offset m) (m_Timestamp m) x)
  else Some m.

Fixpoint dec_messages (l : jlist) : option (list FetchedMessage) :=
  match l with
  | ANil => Some []
  | ACons v l =>
      m ← match v with
          | JObj ms => dec_members set_message ms (mkMessage 0 "" "")
          | JNull => Some (mkMessage 0 "" "")
          | _ => None
          end;
      ms ← dec_messages l;
      Some (m :: ms)
  end.

(** [Decode(&msgs)] of a nil slice. *)
Definition decode_messages (body : bytes) : option (list FetchedMessage) :=
  match p_value (S (2 * length body)) 0 (skip_ws body) with
  | Some (JArr l, _) => dec_messages l
  | Some (JNull, _) => Some []
  | _ => None
  end.

Definition fetch_done (resp : result string bytes) : update := fun d =>
  match resp with
  | Err e => {| d with fetching := false; fetchErr := e |}
  | Ok body =>
      match decode_messages body with
      | None => {| d with fetching := false; fetchErr := json_error body |}
      | Some msgs => {| d with fetching := false; fetchResults := msgs |}
      end
  end.
End Answers.

(** ** Texts *)

Definition or (s fallback : string) : string := if String.eqb s "" then fallback else s.

Definition trend (curr prev : Z) : string := if prev <? curr then " ↑" else if curr <? prev then " ↓" else "".

Definition fmtN (n : Z) : string :=
  if n <=? 0 then "0"
  else if 1000000000 <=? n then str_of (fixed 1 (div (of_int n) (of_int 1000000000))) +:+ "B"
  else if 1000000 <=? n then str_of (fixed 1 (div (of_int n) (of_int 1000000))) +:+ "M"
  else if 1000 <=? n then str_of (fixed 1 (div (of_int n) (of_int 1000))) +:+ "K"
  else str_of (format_int n).

Definition itoa (n : Z) : string := str_of (format_int n).

(** ** The page *)

Inductive attr :=
| Style (name value : string) | Class (name : string) | Text (s : string)
| Type_ (s : string) | Placeholder (s : string) | Value (s : string) | Disabled (b : bool)
| OnClick (a : action) | OnInput (f : field).

Inductive UI := Elem (tag : string) (attrs : list attr) (body : list UI).

Definition Div := Elem "div".
Definition P (attrs : list attr) : UI := Elem "p" attrs [].
Definition Span (attrs : list attr) : UI := Elem "span" attrs [].
Definition Button (attrs : list attr) : UI := Elem "button" attrs [].
Definition Input (attrs : list attr) : UI := Elem "input" attrs [].
Definition Textarea (attrs : list attr) : UI := Elem "textarea" attrs [].

Definition renderHeader (d : Dashboard) : UI :=
  let nodeID := or (Process.st_NodeID (stats d)) "connecting…" in
  let role := or (Process.st_Role (stats d)) "-" in
  let uptime := or (Process.st_Uptime (stats d)) "-" in
  let dotCol := if String.eqb (connErr d) "" then accent else danger in
  Div [Style "display" "flex"; Style "justify-content" "space-between"; Style "align-items" "center"; Style "padding-bottom" "18px";
       Style "margin-bottom" "20px"; Style "border-bottom" ("1px solid " +:+ glassBorder)]
    [Div [Style "display" "flex"; Style "align-items" "center"; Style "gap" "12px"]
       [Span [Style "font-size" "18px"; Style "font-weight" "700"; Style "color" accent; Text "GoQueue"];
        Span [Style "color" glassBorder; Text "│"];
        Span [Style "font-size" "13px"; Style "color" txt; Text nodeID];
        Span [Style "color" glassBorder; Text "│"];
        Span [Style "font-size" "11px"; Style "color" accent; Style "background" accentDim; Style "border" ("1px solid " +:+ accentBdr);
              Style "padding" "1px 8px"; Style "border-radius" "4px"; Text role]];
     Div [Style "display" "flex"; Style "align-items" "center"; Style "gap" "8px"]
       [Span [Class "pulse"; Style "color" dotCol; Style "font-size" "8px"; Text "●"];
        Span [Style "color" muted; Style "font-size" "11px"; Text ("up " +:+ uptime)]]].

Definition renderConnErr (d : Dashboard) : UI :=
  if String.eqb (connErr d) "" then Span []
  else Div [Style "background" dangerDim; Style "border" "1px solid rgba(248,81,73,0.3)"; Style "border-radius" "8px";
            Style "padding" "9px 14px"; Style "margin-bottom" "16px"; Style "font-size" "12px"; Style "color" danger;
            Text ("⚠  " +:+ connErr d)] [].

Definition stat (label value valueColor : string) : UI :=
  Div [Class "glass fade-in"; Style "padding" "14px 16px"; Style "border-left" ("3px solid " +:+ accentBdr)]
    [P [Style "color" muted; Style "font-size" "9px"; Style "letter-spacing" "1.2px"; Style "margin-bottom" "7px"; Text label];
     P [Style "color" valueColor; Style "font-size" "22px"; Style "font-weight" "700"; Style "line-height" "1"; Text value]].

Definition backlog (d : Dashboard) : Z :=
  Z.max (i64 (Process.st_TotalPublished (stats d) - Process.st_TotalConsumed (stats d))) 0.

Definition renderStatRow (d : Dashboard) : UI :=
  let backlogCol := if 100000 <? backlog d then danger else if 1000 <? backlog d then warn else ok in
  Div [Style "display" "grid"; Style "grid-template-columns" "repeat(auto-fit,minmax(130px,1fr))"; Style "gap" "10px";
       Style "margin-bottom" "20px"]
    [stat "PUBLISHED" (fmtN (Process.st_TotalPublished (stats d))) txt;
     stat "CONSUMED" (fmtN (Process.st_TotalConsumed (stats d))) txt;
     stat "PUB/s" (fmtN (pubRate d) +:+ trend (pubRate d) (prevPubRate d)) accent;
     stat "CON/s" (fmtN (conRate d) +:+ trend (conRate d) (prevConRate d)) accent;
     stat "BACKLOG" (fmtN (backlog d)) backlogCol;
     stat "TOPICS" (itoa (zlen (Process.st_Topics (stats d)))) txt;
     stat "TCP CONN" (itoa (Process.st_TCPConnections (stats d))) txt;
     stat "WAL SYNC" (or (Process.wi_SyncMode (Process.st_WAL (stats d))) "-") txt].

(** *** The topics *)

Definition partBadge (p : Process.PartitionStat) : UI :=
  let '(col, bg2) :=
    if ltb (of_int 80) (Process.ps_FillPct p) then (danger, "rgba(207,34,46,0.10)")
    else if ltb (of_int 50) (Process.ps_FillPct p) then (warn, warnDim)
    else if 0 <? Process.ps_Size p then (accent, accentDim)
    else (muted, "rgba(0,0,0,0.04)") in
  let label :=
    if 0 <? Process.ps_Size p then "p" +:+ itoa (Process.ps_Index p) +:+ "·" +:+ fmtN (Process.ps_Size p)
    else "p" +:+ itoa (Process.ps_Index p) in
  Span [Style "font-size" "9px"; Style "color" col; Style "background" bg2; Style "border" ("1px solid " +:+ glassBorder);
        Style "border-radius" "3px"; Style "padding" "1px 6px"; Text label].

Definition partBadges (t : Process.TopicStat) : list UI := map partBadge (Process.ts_Partitions t).

Definition maxFill (t : Process.TopicStat) : float64 :=
  fold_left (fun m p => if ltb m (Process.ps_FillPct p) then Process.ps_FillPct p else m) (Process.ts_Partitions t) (Fin 0).

Definition fillBar (t : Process.TopicStat) : UI :=
  if ltb (maxFill t) (div (of_int 1) (of_int 100)) then Span []
  else
    let barCol := if ltb (of_int 80) (maxFill t) then danger else if ltb (of_int 50) (maxFill t) then warn else accent in
    let pct := str_of (fixed 2 (maxFill t)) +:+ "%" in
    Div [Style "display" "flex"; Style "align-items" "center"; Style "gap" "6px"; Style "margin-top" "6px"]
      [Div [Style "flex" "1"; Style "height" "3px"; Style "background" glassBorder; Style "border-radius" "2px"]
         [Div [Style "height" "100%"; Style "width" pct; Style "background" barCol; Style "border-radius" "2px";
               Style "transition" "width 1s ease"] []];
       Span [Style "font-size" "9px"; Style "color" muted; Text (pct +:+ " full")]].

Definition topicRow (d : Dashboard) (t : Process.TopicStat) : UI :=
  let active := String.eqb (selectedTopic d) (Process.ts_Name t) in
  let leftBorder := if active then "3px solid " +:+ accent else "3px solid transparent" in
  let bg2 := if active then accentDim else "transparent" in
  Div [Style "border-left" leftBorder; Style "background" bg2; Style "border-radius" "0 6px 6px 0"; Style "padding" "9px 12px";
       Style "cursor" "pointer"; Style "transition" "all .15s"; OnClick (SelectTopic (Process.ts_Name t))]
    [Div [Style "display" "flex"; Style "justify-content" "space-between"; Style "align-items" "center"]
       [Span [Style "font-size" "13px"; Style "color" txt; Text (Process.ts_Name t)];
        Span [Style "font-size" "10px"; Style "color" muted; Text (fmtN (Process.ts_Total t))]];
     Div [Style "display" "flex"; Style "gap" "4px"; Style "margin-top" "5px"] (partBadges t);
     fillBar t].

Definition renderTopicList (d : Dashboard) : UI :=
  let header := P [Style "color" muted; Style "font-size" "9px"; Style "letter-spacing" "1.2px"; Style "margin-bottom" "12px"; Text "TOPICS"] in
  match Process.st_Topics (stats d) with
  | [] =>
      Div [Class "glass"; Style "padding" "16px"]
        [header;
         Div [Style "border" ("1px dashed " +:+ glassBorder); Style "border-radius" "8px"; Style "padding" "24px 12px";
              Style "text-align" "center"; Style "color" muted; Style "font-size" "12px"; Text "no topics yet"] []]
  | topics => Div [Class "glass"; Style "padding" "16px"] (header :: map (topicRow d) topics)
  end.

(** *** The forms *)

Definition formRow (label : string) (input : UI) : UI :=
  Div [Style "margin-bottom" "10px"]
    [P [Style "font-size" "9px"; Style "color" muted; Style "letter-spacing" "1px"; Style "margin-bottom" "4px"; Text label];
     Div [Style "width" "100%"] [input]].

Definition sendButton (disabled : bool) (a : action) (label : string) : UI :=
  Button [Style "margin-top" "12px"; Style "background" accentDim; Style "border" ("1px solid " +:+ accentBdr); Style "color" accent;
          Style "font-family" fontMono; Style "font-size" "11px"; Style "letter-spacing" "1px"; Style "padding" "7px 18px";
          Style "border-radius" "6px"; Style "cursor" "pointer"; Style "transition" "all .15s"; Disabled disabled; OnClick a; Text label].

(** A double quote. *)
Definition dq : string := String (Ascii.ascii_of_nat 34) EmptyString.
Definition quoted (s : string) : string := dq +:+ s +:+ dq.

Definition renderPublishForm (d : Dashboard) : UI :=
  let selLabel := or (pubTopic d) "- pick a topic on the left or type below -" in
  let selCol := if String.eqb (pubTopic d) "" then muted else accent in
  let btnLabel := if publishing d then "sending…" else "SEND →" in
  let feedback :=
    if String.eqb (pubFeedback d) "" then Span []
    else P [Style "font-size" "11px"; Style "color" (if pubIsErr d then danger else ok); Style "margin-top" "10px";
            Style "word-break" "break-all"; Text (pubFeedback d)] in
  Div []
    [P [Style "font-size" "11px"; Style "color" selCol; Style "margin-bottom" "14px"; Text selLabel];
     formRow "TOPIC" (Input [Type_ "text"; Placeholder "orders"; Value (pubTopic d); OnInput PubTopic]);
     formRow "KEY  (optional - for partition routing)" (Input [Type_ "text"; Placeholder "user-123"; Value (pubKey d); OnInput PubKey]);
     formRow "PARTITION  (optional - leave blank for auto)" (Input [Type_ "text"; Placeholder "-1"; Value (pubPartStr d); OnInput PubPart]);
     formRow "PAYLOAD"
       (Textarea [Style "resize" "vertical"; Style "min-height" "80px";
                  Placeholder ("{" +:+ quoted "hello" +:+ ":" +:+ quoted "world" +:+ "}"); OnInput PubPayload; Text (pubPayload d)]);
     sendButton (publishing d) DoPublish btnLabel;
     feedback].

Definition fetchedRow (m : FetchedMessage) : UI :=
  Div [Style "border-bottom" ("1px solid " +:+ glassBorder); Style "padding" "7px 10px"]
    [Div [Style "display" "flex"; Style "gap" "10px"; Style "margin-bottom" "3px"]
       [Span [Style "color" accent; Style "font-size" "10px"; Text ("#" +:+ itoa (m_Offset m))];
        Span [Style "color" muted; Style "font-size" "10px"; Text (m_Timestamp m)]];
     P [Style "font-size" "12px"; Style "color" txt; Style "word-break" "break-all"; Text (m_Payload m)]].

Definition fetchResultsView (d : Dashboard) : UI :=
  if negb (String.eqb (fetchErr d) "") then
    P [Style "color" danger; Style "font-size" "11px"; Style "margin-top" "10px"; Text ("error: " +:+ fetchErr d)]
  else
    match fetchResults d with
    | [] => Span []
    | ms => Div [Style "margin-top" "12px"; Style "border" ("1px solid " +:+ glassBorder); Style "border-radius" "8px";
                 Style "max-height" "300px"; Style "overflow-y" "auto"] (map fetchedRow ms)
    end.

Definition renderFetchForm (d : Dashboard) : UI :=
  let btnLabel := if fetching d then "fetching…" else "FETCH →" in
  Div []
    [formRow "TOPIC" (Input [Type_ "text"; Placeholder "orders"; Value (fetchTopic d); OnInput FetchTopic]);
     Div [Style "display" "grid"; Style "grid-template-columns" "1fr 1fr 1fr"; Style "gap" "10px"]
       [formRow "PARTITION" (Input [Type_ "text"; Placeholder "0"; Value (fetchPartStr d); OnInput FetchPart]);
        formRow "OFFSET" (Input [Type_ "text"; Placeholder "0"; Value (fetchOffStr d); OnInput FetchOff]);
        formRow "LIMIT" (Input [Type_ "text"; Placeholder "20"; Value (fetchLimStr d); OnInput FetchLim])];
     sendButton (fetching d) DoFetch btnLabel;
     fetchResultsView d].

(** *** The guide *)

Definition guideSection (title : string) (lines : list string) : UI :=
  Div [Style "margin-bottom" "18px"]
    [P [Style "font-size" "9px"; Style "color" accent; Style "letter-spacing" "1.2px"; Style "margin-bottom" "7px"; Text title];
     Div [Style "background" "rgba(255,255,255,0.03)"; Style "border" ("1px solid " +:+ glassBorder); Style "border-radius" "6px";
          Style "padding" "10px 14px"]
       (map (fun l => P [Style "font-size" "11px"; Style "color" txt; Style "opacity" "0.75"; Style "padding" "2px 0";
                         Style "white-space" "pre"; Text l]) lines)].

Definition renderGuide (d : Dashboard) : UI :=
  let walMode := or (Process.wi_SyncMode (Process.st_WAL (stats d))) "-" in
  let walPath := or (Process.wi_Path (Process.st_WAL (stats d))) "-" in
  Div []
    [guideSection "QUICK START"
       ["1.  go run ./cmd/broker/          # start broker  :9090 TCP  :9095 gRPC";
        "2.  go run ./cmd/dashboard/       # open dashboard at :8080";
        "3.  open browser → localhost:8080"];
     guideSection "PUBLISH A MESSAGE"
       ["Via dashboard  →  click PUBLISH tab, fill topic + payload, hit SEND";
        "Via CLI (TCP)  →  goqueue publish --topic orders " +:+ quoted "hello";
        "Via CLI (gRPC) →  goqueue publish --grpc --topic orders " +:+ quoted "hello";
        "With key       →  goqueue publish --topic orders --key user-42 " +:+ quoted "hi";
        "Batch (TCP)    →  goqueue publish-batch --topic orders --count 1000"];
     guideSection "READ MESSAGES"
       ["Via dashboard  →  click FETCH tab, set topic + offset + limit";
        "Via CLI        →  goqueue fetch --topic orders --offset 0";
        "Subscribe      →  goqueue consume --topic orders --group myapp"];
     guideSection "PARTITION ROUTING"
       ["No key         →  round-robin across partitions (3 by default)";
        "With key       →  FNV-32a hash → deterministic partition";
        "Explicit part  →  goqueue publish --grpc --partition 1 --topic orders " +:+ quoted "x"];
     guideSection "CURRENT CONFIG"
       ["broker tcp   :9090"; "broker grpc  :9095"; "metrics      :2112"; "wal path     " +:+ walPath; "wal sync     " +:+ walMode]].

Definition tabs : list (string * string) := [("publish", "PUBLISH"); ("fetch", "FETCH"); ("guide", "GUIDE")].

Definition tabButton (d : Dashboard) (t : string * string) : UI :=
  let '(col, bg2, bdr) := if String.eqb (activeTab d) t.1 then (accent, accentDim, accentBdr) else (muted, "transparent", "transparent") in
  Button [Style "background" bg2; Style "border" ("1px solid " +:+ bdr); Style "border-radius" "5px"; Style "color" col;
          Style "font-family" fontMono; Style "font-size" "10px"; Style "letter-spacing" "1px"; Style "padding" "5px 12px";
          Style "cursor" "pointer"; Style "transition" "all .15s"; OnClick (SelectTab t.1); Text t.2].

Definition renderToolPanel (d : Dashboard) : UI :=
  let content :=
    if String.eqb (activeTab d) "fetch" then renderFetchForm d
    else if String.eqb (activeTab d) "guide" then renderGuide d
    else renderPublishForm d in
  Div [Class "glass"; Style "padding" "16px"]
    [Div [Style "display" "flex"; Style "gap" "6px"; Style "margin-bottom" "16px"] (map (tabButton d) tabs);
     Div [Style "height" "1px"; Style "background" glassBorder; Style "margin-bottom" "16px"] [];
     content].

Definition renderMain (d : Dashboard) : UI :=
  Div [Style "display" "grid"; Style "grid-template-columns" "260px 1fr"; Style "gap" "14px"; Style "margin-bottom" "20px"]
    [renderTopicList d; renderToolPanel d].

Definition renderFooter (d : Dashboard) : UI :=
  Div [Style "display" "flex"; Style "justify-content" "space-between"; Style "align-items" "center";
       Style "border-top" ("1px solid " +:+ glassBorder); Style "padding-top" "14px"]
    [Span [Style "color" muted; Style "font-size" "10px";
           Text ("wal: " +:+ or (Process.wi_Path (Process.st_WAL (stats d))) "-" +:+ "  sync=" +:+
                 or (Process.wi_SyncMode (Process.st_WAL (stats d))) "-")];
     Span [Style "color" "rgba(255,255,255,0.15)"; Style "font-size" "10px"; Text "goqueue · built in Go → WASM"]].

Definition Render (d : Dashboard) : UI :=
  Div [Style "min-height" "100vh"; Style "font-family" fontMono; Style "color" txt; Style "padding" "24px 28px"]
    [renderHeader d; renderConnErr d; renderStatRow d; renderMain d; renderFooter d].

(** ** What a page offers *)

Definition click_of (a : attr) : option action := match a with OnClick x => Some x | _ => None end.
Definition is_disabled (a : attr) : bool := match a with Disabled b => b | _ => false end.

(** The actions a user can click on, from top to bottom. *)
Fixpoint clicks (u : UI) : list action :=
  match u with
  | Elem _ attrs body =>
      (if existsb is_disabled attrs then [] else omap click_of attrs) ++
      (fix go (us : list UI) : list action := match us with [] => [] | u :: us => clicks u ++ go us end) body
  end.

Lemma clicks_elem tag attrs body :
  clicks (Elem tag attrs body) = (if existsb is_disabled attrs then [] else omap click_of attrs) ++ concat (map clicks body).
Proof. cbn [clicks]. f_equal. induction body as [|u us IH]; [done|]. cbn [map concat]. by rewrite IH. Qed.

Lemma clicks_none {A} (f : A -> UI) l : (forall x, clicks (f x) = []) -> concat (map clicks (map f l)) = [].
Proof. intros H. induction l as [|x l IH]; [done|]. cbn [map concat]. by rewrite H. Qed.

Lemma clicks_fill t : clicks (fillBar t) = [].
Proof. unfold fillBar. generalize (ltb (maxFill t) (div (of_int 1) (of_int 100))). intros [|]; reflexivity. Qed.

Lemma clicks_row d t : clicks (topicRow d t) = [SelectTopic (Process.ts_Name t)].
Proof.
  unfold topicRow, Div. rewrite clicks_elem. cbn [map concat].
  rewrite clicks_fill.
  rewrite (clicks_elem "div" _ (partBadges t)). unfold partBadges.
  rewrite clicks_none; [done|]. intros p. unfold partBadge.
  destruct (ltb _ _); [done|]. destruct (ltb _ _); [done|]. by destruct (0 <? _).
Qed.

Lemma clicks_topics d : clicks (renderTopicList d) = map (fun t => SelectTopic (Process.ts_Name t)) (Process.st_Topics (stats d)).
Proof.
  unfold renderTopicList. destruct (Process.st_Topics (stats d)) as [|t ts] eqn:E; [done|].
  unfold Div. rewrite clicks_elem. cbn [existsb is_disabled orb omap list_omap click_of app].
  change (map clicks (?h :: ?r)) with (clicks h :: map clicks r). cbn [concat]. change (clicks (P _)) with (@nil action). cbn [app].
  generalize (t :: ts). intros l. induction l as [|x l IH]; [done|]. cbn [map concat]. by rewrite clicks_row, IH.
Qed.

Lemma clicks_guide d : clicks (renderGuide d) = [].
Proof. reflexivity. Qed.

Lemma clicks_tab d t : clicks (tabButton d t) = [SelectTab t.1].
Proof. unfold tabButton. by destruct (String.eqb _ _). Qed.

Lemma clicks_send (b : bool) a label : clicks (sendButton b a label) = if b then [] else [a].
Proof. by destruct b. Qed.

Lemma clicks_panel d :
  clicks (renderToolPanel d) =
  map SelectTab ["publish"; "fetch"; "guide"] ++
  (if decide (activeTab d = "fetch") then if fetching d then [] else [DoFetch]
   else if decide (activeTab d = "guide") then []
   else if publishing d then [] else [DoPublish]).
Proof.
  unfold renderToolPanel, Div. rewrite clicks_elem. cbn [map concat existsb is_disabled orb omap list_omap click_of app].
  rewrite clicks_elem. cbn [map concat tabs existsb is_disabled orb omap list_omap click_of app]. rewrite !clicks_tab. cbn [app fst].
  rewrite clicks_elem. cbn [map concat existsb is_disabled orb omap list_omap click_of app]. rewrite app_nil_r. do 3 f_equal.
  destruct (decide (activeTab d = "fetch")) as [->|Hf]; [|rewrite (proj2 (String.eqb_neq _ _) Hf)].
  { change (String.eqb "fetch" "fetch") with true. cbv iota. unfold renderFetchForm, Div. rewrite clicks_elem.
    cbn [map concat existsb is_disabled orb omap list_omap click_of]. rewrite clicks_send.
    assert (clicks (fetchResultsView d) = []) as ->; [|by destruct (fetching d)].
    unfold fetchResultsView. destruct (negb _); [done|]. destruct (fetchResults d) as [|m ms]; [done|].
    unfold Div. rewrite clicks_elem, clicks_none; [done|]. done. }
  destruct (decide (activeTab d = "guide")) as [->|Hg]; [done|rewrite (proj2 (String.eqb_neq _ _) Hg)].
  unfold renderPublishForm, Div. rewrite clicks_elem. cbn [map concat existsb is_disabled orb omap list_omap click_of]. rewrite clicks_send.
  destruct (String.eqb (pubFeedback d) ""), (publishing d); reflexivity.
Qed.

(** What the page lets a user do, in the order it shows it: select each topic the
    broker reported, switch to each of the three tabs, and send the form of the tab that is
    open, but not while a request of that form is under way. *)
Theorem page_actions d :
  clicks (Render d) =
  map (fun t => SelectTopic (Process.ts_Name t)) (Process.st_Topics (stats d)) ++
  map SelectTab ["publish"; "fetch"; "guide"] ++
  (if decide (activeTab d = "fetch") then if fetching d then [] else [DoFetch]
   else if decide (activeTab d = "guide") then []
   else if publishing d then [] else [DoPublish]).
Proof.
  unfold Render, Div. rewrite clicks_elem. cbn [map concat existsb is_disabled orb omap list_omap click_of app].
  assert (clicks (renderConnErr d) = []) as -> by (unfold renderConnErr; by destruct (String.eqb _ _)).
  change (clicks (renderHeader d)) with (@nil action). change (clicks (renderStatRow d)) with (@nil action).
  change (clicks (renderFooter d)) with (@nil action). cbn [app]. rewrite app_nil_r.
  unfold renderMain, Div. rewrite clicks_elem. cbn [map concat existsb is_disabled orb omap list_omap click_of app].
  rewrite clicks_topics, app_nil_r. f_equal. apply clicks_panel.
Qed.
(** ** Publishing end to end *)

Definition request_vals (q : Process.PublishRequest) : list json :=
  [JStr (bs_of (Process.rq_Topic q))] ++
  (if String.eqb (Process.rq_Key q) "" then [] else [JStr (bs_of (Process.rq_Key q))]) ++
  (if Process.rq_Partition q =? 0 then [] else [JNum (format_int (Process.rq_Partition q))]) ++
  [JStr (bs_of (Process.rq_Payload q))].

Ltac next_member set :=
  erewrite Envelope.dec_members_cons; [|unfold set; eval_fields; cbn [dec_string dec_int mbind option_bind];
    rewrite ?str_of_bs; rewrite ?parse_format_int by done;
    cbn [mbind option_bind Process.rq_Topic Process.rq_Key Process.rq_Partition Process.rq_Payload
         Process.rp_Topic Process.rp_Partition Process.rp_Offset m_Offset m_Timestamp m_Payload]; reflexivity].

(** The broker reads the request the dashboard wrote. *)
Lemma request_roundtrip topic key partition payload :
  utf8_ok topic -> utf8_ok key -> utf8_ok payload -> in_i64 partition ->
  Process.decode_body Process.set_publish (Process.mkPublish "" "" 0 "")
    (enc_object (request_fields (Process.mkPublish topic key partition payload))) =
  Some (Process.mkPublish topic key partition payload).
Proof.
  intros Ht Hk Hp Hi. set (q := Process.mkPublish topic key partition payload).
  assert (Forall2 (fun f v => reads 1 f.2 v) (request_fields q) (request_vals q)) as HF.
  { unfold request_fields, request_vals, q. cbn [Process.rq_Topic Process.rq_Key Process.rq_Partition Process.rq_Payload].
    destruct (String.eqb key ""), (partition =? 0); cbn [app];
      repeat (apply Forall2_cons_2; [first [apply reads_int|by apply reads_enc_string]|]); constructor. }
  rewrite <- (app_nil_r (enc_object _)), (Inspect.decode_body_object _ _ _ (request_vals q) []); [|done| |done].
  - unfold request_fields, request_vals, q. cbn [Process.rq_Topic Process.rq_Key Process.rq_Partition Process.rq_Payload].
    destruct (String.eqb key "") eqn:Ek, (partition =? 0) eqn:Ep; try apply String.eqb_eq in Ek; try apply Z.eqb_eq in Ep;
      cbn [app members_of]; repeat (next_member Process.set_publish); cbn [dec_members]; by subst.
  - unfold request_fields. destruct (String.eqb _ _), (_ =? 0); repeat constructor; vm_compute; reflexivity.
Qed.

(** *** The endpoint on the wire *)

Definition publish_answer (r : Process.PublishResponse) : bytes :=
  enc_object [("topic", enc_string (Process.rp_Topic r)); ("partition", format_int (Process.rp_Partition r));
              ("offset", format_int (Process.rp_Offset r))] ++ Inspect.eol.

(** [page]: the text of an error answer. *)
Definition publish_endpoint {W IO} `{SK : !WalCommit.WalSink W IO} (page : Z -> bytes) (c : @Gateway.clock IO) (body : bytes)
    (s : @Gateway.Server W) : option (bytes * @Gateway.Server W) :=
  '(r, s) ← Process.http_publish c Process.POST body s;
  Some (match r with
        | Ok (Some r) => publish_answer r
        | Ok None => []
        | Err code => page code
        end, s).

Lemma answer_roundtrip r : utf8_ok (Process.rp_Topic r) -> in_i64 (Process.rp_Partition r) -> in_i64 (Process.rp_Offset r) ->
  Process.decode_body set_published (Process.mkPublished "" 0 0) (publish_answer r) = Some r.
Proof.
  intros Ht Hp Ho. unfold publish_answer.
  rewrite (Inspect.decode_body_object _ _ _ [JStr (bs_of (Process.rp_Topic r)); JNum (format_int (Process.rp_Partition r));
    JNum (format_int (Process.rp_Offset r))] Inspect.eol); [|done|repeat constructor; vm_compute; reflexivity|].
  - cbn [members_of]. repeat (next_member set_published). cbn [dec_members]. by destruct r.
  - repeat (apply Forall2_cons_2; [first [apply reads_int|by apply reads_enc_string]|]). constructor.
Qed.

Section Publishing.
Context {W IO : Type} `{SK : !WalCommit.WalSink W IO}.

(** What a form asks for: a blank partition, or one that is no number, is -1. *)
Definition wanted_partition (s : string) : Z := if decide (s = "") then -1 else Process.sscanf_d s (-1).

(** C29. Publishing from the dashboard end to end: the request the form is sent as reaches
    the broker with the topic, key, partition and payload of the form, the broker
    publishes exactly that, and the page, in whatever state it is when the answer comes,
    stops waiting and shows the topic, partition and offset of the message; nothing else
    of the page changes. *)
Theorem dashboard_publish page json_error (c : @Gateway.clock IO) d (s s' : @Gateway.Server W) p o :
  pubTopic d <> "" -> pubPayload d <> "" -> utf8_ok (pubTopic d) -> utf8_ok (pubKey d) -> utf8_ok (pubPayload d) ->
  in_i64 p -> in_i64 o ->
  Gateway.api_publish c (pubTopic d) (pubKey d) (wanted_partition (pubPartStr d)) (bs_of (pubPayload d)) s = Some (Ok (p, o), s') ->
  exists start body answer, doPublish d = (start, Some body) /\
    (forall d', start d' = {| d' with publishing := true; pubFeedback := "" |}) /\
    publish_endpoint page c body s = Some (answer, s') /\
    (forall d', publish_done json_error (Ok answer) d' =
       {| d' with publishing := false; pubIsErr := false;
          pubFeedback := "✓  " +:+ pubTopic d +:+ "  partition=" +:+ itoa p +:+ "  offset=" +:+ itoa o |}).
Proof.
  intros Ht Hp Hut Huk Hup Hip Hio HA. unfold doPublish. rewrite !(proj2 (String.eqb_neq _ "")) by done. cbn [orb].
  set (part := if String.eqb (pubPartStr d) "" then -1 else Process.sscanf_d (pubPartStr d) (-1)).
  assert (part = wanted_partition (pubPartStr d)) as Epart.
  { unfold part, wanted_partition. by destruct (String.eqb_spec (pubPartStr d) ""), (decide (pubPartStr d = "")). }
  assert (in_i64 part) by (unfold part; destruct (String.eqb _ _); [done|by apply Process.sscanf_range]). clearbody part.
  eexists _, _, (publish_answer (Process.mkPublished (pubTopic d) p o)). split; [reflexivity|]. split; [done|]. split.
  - unfold publish_endpoint, Process.http_publish. rewrite request_roundtrip by done. cbn [Process.rq_Topic Process.rq_Key Process.rq_Partition Process.rq_Payload].
    rewrite (proj2 (String.eqb_neq _ "")) by done. rewrite Epart, HA. done.
  - intros d'. unfold publish_done. rewrite answer_roundtrip by done. done.
Qed.

(** An answer that is not the object of a publish, such as an error page, is an error on the page. *)
Lemma publish_error json_error body d : Process.decode_body set_published (Process.mkPublished "" 0 0) body = None ->
  publish_done json_error (Ok body) d = {| d with publishing := false; pubFeedback := "error: " +:+ json_error body; pubIsErr := true |}.
Proof. intros H. unfold publish_done. by rewrite H. Qed.
End Publishing.

#[local] Existing Instance WalCommit.wal_log_sink.

Definition filled_form : Dashboard := {| zero_dashboard with pubTopic := "orders"; pubKey := "user-42"; pubPartStr := ""; pubPayload := "hello" |}.
Definition form_clock : @Gateway.clock WalCommit.wal_io := Gateway.mkClock 7 7 Gateway.io_fine.
Definition form_server : @Gateway.Server WalCommit.Log := Gateway.mkServer Bus.New None Offsets.NewManager.
Definition form_published : Z * Z * @Gateway.Server WalCommit.Log :=
  match Gateway.api_publish form_clock "orders" "user-42" (-1) (bs_of "hello") form_server with
  | Some (Ok (p, o), s) => (p, o, s)
  | _ => (0, 0, form_server)
  end.

Lemma dashboard_publish_witness :
  exists start body answer, doPublish filled_form = (start, Some body) /\
    (forall d', start d' = {| d' with publishing := true; pubFeedback := "" |}) /\
    publish_endpoint (fun _ => []) form_clock body form_server = Some (answer, form_published.2) /\
    (forall d', publish_done (fun _ => "") (Ok answer) d' =
       {| d' with publishing := false; pubIsErr := false; pubFeedback := "✓  orders  partition=0  offset=0" |}).
Proof.
  apply (dashboard_publish (fun _ => []) (fun _ => "") form_clock filled_form form_server form_published.2 0 0); try done; try lia.
Defined.

(** ** Fetching end to end *)

(** The endpoint on the wire: a message as JSON, its time in the broker's zone. *)
Definition message_fields (local : Z -> Z) (m : Process.FetchedMessage) : list (string * bytes) :=
  [("offset", format_int (Process.fm_Offset m));
   ("timestamp", enc_string (str_of (RFC3339 (local (Process.fm_Timestamp m)) (Process.fm_Timestamp m))));
   ("payload", enc_string (Process.fm_Payload m))].

Definition fetch_endpoint (local : Z -> Z) (page : Z -> bytes) (url : bytes) (b : Bus.Broker) : option (bytes * Bus.Broker) :=
  let q := Url.ParseQuery (Url.url_query url) in
  '(r, b) ← Process.api_fetch (Url.Get "topic" q) (Url.Get "partition" q) (Url.Get "offset" q) (Url.Get "limit" q) b;
  Some (match r with
        | Ok msgs => JsonMap.enc_array (map (fun m => enc_object (message_fields local m)) msgs) ++ Inspect.eol
        | Err code => page code
        end, b).

(** A text that needs no escaping. *)
Definition plain (s : string) : Prop := forallb Url.unreserved (bs_of s) = true.

Lemma plain_escape s : forallb Url.unreserved s = true -> Url.QueryEscape s = s.
Proof.
  unfold Url.QueryEscape. induction s as [|b s IH]; [done|]. cbn [forallb map concat]. intros [Hb Hs]%andb_true_iff.
  rewrite IH by done. unfold Url.escape_byte. by rewrite Hb.
Qed.

Lemma digit_unreserved b : is_digit b = true -> Url.unreserved b = true.
Proof. by destruct b. Qed.

Lemma format_int_plain z : forallb Url.unreserved (format_int z) = true.
Proof.
  assert (forall n, 0 <= n -> forallb Url.unreserved (format_nat n) = true) as Hn.
  { intros n H. destruct (format_nat_canonical n H) as (Hd & _). apply forallb_forall. intros x Hx.
    apply digit_unreserved. by eapply forallb_forall in Hd. }
  unfold format_int. destruct (Z.ltb_spec z 0); cbn [forallb]; [|apply Hn; lia].
  rewrite Hn by lia. by rewrite andb_true_r.
Qed.

Lemma scan_number_start b r : is_digit b || isc 45 b = true -> Process.scan_space (b :: r) = Process.ScanStop (b :: r).
Proof. by destruct b. Qed.

Lemma sscanf_digits sign ds z v : forallb is_digit ds = true -> ds <> [] -> (sign = [] \/ sign = [ch 45]) ->
  parse_int (sign ++ ds) = Some z -> Process.sscanf_d (str_of (sign ++ ds)) v = z.
Proof.
  intros Hd Hne Hs Hp. unfold Process.sscanf_d. rewrite bs_of_str. destruct ds as [|x ds]; [done|].
  assert (is_digit x = true) as Hx by (cbn in Hd; by apply andb_true_iff in Hd as [? _]).
  assert (Process.scan_spaces (S (length (sign ++ x :: ds))) (sign ++ x :: ds) = Some (sign ++ x :: ds)) as ->.
  { destruct Hs as [-> | ->]; cbn [Process.scan_spaces app length]; rewrite scan_number_start; [done|by rewrite Hx|done|done]. }
  assert (isc 45 x || isc 43 x = false) as Hsx by (destruct x; try discriminate Hx; reflexivity).
  pose proof (span_digits_all (x :: ds) [] Hd) as Hsp. rewrite app_nil_r in Hsp. 
  destruct Hs as [-> | ->]; cbn [app] in *.
  - rewrite Hsx, Hsp by done. rewrite decide_False by done. cbn [app]. by rewrite Hp.
  - change (isc 45 (ch 45) || isc 43 (ch 45)) with true. cbv iota. rewrite Hsp by done. rewrite decide_False by done. cbn [app]. by rewrite Hp.
Qed.

(** A number that was printed is scanned back. *)
Lemma sscanf_format z v : in_i64 z -> Process.sscanf_d (str_of (format_int z)) v = z.
Proof.
  intros Hz. pose proof (parse_format_int z Hz) as Hp. unfold format_int in *.
  assert (forall n, 0 <= n -> forallb is_digit (format_nat n) = true /\ format_nat n <> []) as Hn.
  { intros n H. split; [apply (format_nat_canonical n H)|].
    by destruct (format_nat_canonical n H) as (_ & _ & [[_ ->]|(_ & b & r & -> & _)]). }
  destruct (Z.ltb_spec z 0).
  - destruct (Hn (- z) ltac:(lia)) as [H1 H2]. apply (sscanf_digits [ch 45] (format_nat (- z))); auto.
  - destruct (Hn z ltac:(lia)) as [H1 H2]. apply (sscanf_digits [] (format_nat z)); auto.
Qed.

Lemma format_int_nonempty z : String.eqb (str_of (format_int z)) "" = false.
Proof.
  apply String.eqb_neq. intros E. assert (bs_of (str_of (format_int z)) = []) as H by (by rewrite E). rewrite bs_of_str in H.
  unfold format_int in H. destruct (Z.ltb_spec z 0); [done|].
  destruct (format_nat_canonical z ltac:(lia)) as (_ & _ & [[_ E']|(_ & b & r & E' & _)]); by rewrite E' in H.
Qed.

(** *** The query of a plain topic *)

Lemma fetch_url d : plain (fetchTopic d) ->
  bs_of "/api/fetch?topic=" ++ bs_of (fetchTopic d) ++ bs_of "&partition=" ++ format_int (form_int (fetchPartStr d) 0) ++
    bs_of "&offset=" ++ format_int (form_int (fetchOffStr d) 0) ++ bs_of "&limit=" ++ format_int (form_int (fetchLimStr d) 20) =
  bs_of "/api/fetch" ++ ch 63 :: Url.Encode [("topic", fetchTopic d); ("partition", itoa (form_int (fetchPartStr d) 0));
    ("offset", itoa (form_int (fetchOffStr d) 0)); ("limit", itoa (form_int (fetchLimStr d) 20))].
Proof.
  intros Ht. cbn [Url.Encode]. unfold itoa. rewrite !bs_of_str. rewrite !(plain_escape (format_int _)) by apply format_int_plain.
  rewrite (plain_escape (bs_of (fetchTopic d))) by done. reflexivity.
Qed.

Lemma fetch_query vs : Url.ParseQuery (Url.url_query (bs_of "/api/fetch" ++ ch 63 :: Url.Encode vs)) =
  map (fun kv => (bs_of kv.1, bs_of kv.2)) vs.
Proof. rewrite Url.url_query_of, Url.encode_parse_roundtrip; [done|done|done|apply Url.encode_no_fragment]. Qed.

(** *** The messages on the wire *)

Lemma rfc3339_ok off t : utf8_ok (str_of (RFC3339 off t)).
Proof.
  unfold utf8_ok. rewrite bs_of_str. apply Time.ascii_valid. unfold RFC3339, date_time, zone.
  destruct (Time.civil_of_days _) as [[y m] dd].
  repeat first [apply Time.append_int_ascii | apply Forall_nil_2 | apply Forall_cons_2 | apply Forall_app_2
    | (destruct (_ =? _)) | (destruct (_ <? _)) | (rewrite byte_val_ch by lia; lia)].
Qed.

Definition sent (local : Z -> Z) (m : Process.FetchedMessage) : FetchedMessage :=
  mkMessage (Process.fm_Offset m) (str_of (RFC3339 (local (Process.fm_Timestamp m)) (Process.fm_Timestamp m))) (Process.fm_Payload m).

Definition message_ok (m : Process.FetchedMessage) : Prop := in_i64 (Process.fm_Offset m) /\ utf8_ok (Process.fm_Payload m).

Definition message_vals (m : FetchedMessage) : list json :=
  [JNum (format_int (m_Offset m)); JStr (bs_of (m_Timestamp m)); JStr (bs_of (m_Payload m))].

Lemma message_reads local m : message_ok m ->
  exists members, reads 1 (enc_object (message_fields local m)) (JObj members) /\
    dec_members set_message members (mkMessage 0 "" "") = Some (sent local m).
Proof.
  intros [Ho Hu]. exists (members_of (message_fields local m) (message_vals (sent local m))). split.
  - apply reads_object; [done|repeat constructor; vm_compute; reflexivity|done|].
    unfold message_fields, message_vals, sent. cbn [m_Offset m_Timestamp m_Payload].
    apply Forall2_cons_2; [apply reads_int|]. apply Forall2_cons_2; [apply reads_enc_string, rfc3339_ok|].
    apply Forall2_cons_2; [by apply reads_enc_string|]. constructor.
  - unfold message_fields, message_vals, sent. cbn [members_of m_Offset m_Timestamp m_Payload].
    repeat (next_member set_message). done.
Qed.

Lemma messages_roundtrip local msgs : Forall message_ok msgs ->
  decode_messages (JsonMap.enc_array (map (fun m => enc_object (message_fields local m)) msgs) ++ Inspect.eol) =
  Some (map (sent local) msgs).
Proof.
  intros HF. assert (exists vals, Forall2 (reads 1) (map (fun m => enc_object (message_fields local m)) msgs) vals /\
    dec_messages (JsonMap.elems_of vals) = Some (map (sent local) msgs)) as (vals & HR & HD).
  { induction HF as [|m msgs Hm HF IH]; [by exists []|]. destruct IH as (vals & HR & HD). destruct (message_reads local m Hm) as (ms & H1 & H2).
    exists (JObj ms :: vals). split; [by constructor|]. cbn [JsonMap.elems_of dec_messages map]. by rewrite H2, HD. }
  unfold decode_messages. change (skip_ws (JsonMap.enc_array ?l ++ ?t)) with (JsonMap.enc_array l ++ t).
  rewrite (JsonMap.p_value_array _ 0 _ vals); [done|done|done|lia].
Qed.

Definition wanted (s : string) (dflt : Z) : Z := if decide (s = "") then dflt else Process.sscanf_d s dflt.

Lemma form_int_wanted s dflt : form_int s dflt = wanted s dflt.
Proof. unfold form_int, wanted. by destruct (String.eqb_spec s ""), (decide (s = "")). Qed.

Lemma wanted_range s dflt : in_i64 dflt -> in_i64 (wanted s dflt).
Proof. intros H. unfold wanted. destruct (decide _); [done|by apply Process.sscanf_range]. Qed.

Lemma query_int_format z dflt : in_i64 z -> Process.query_int (itoa z) dflt = z.
Proof. intros Hz. unfold Process.query_int, itoa. rewrite format_int_nonempty. by apply sscanf_format. Qed.

(** Fetching from the dashboard end to end, for a topic of letters, digits, hyphens,
    dots, underscores and tildes: the page asks for the partition, offset and limit of the
    form, by default 0, 0 and 20 and never more than 100 messages, and shows the offset,
    the time and the payload of the messages the broker has there, in order. *)
Theorem dashboard_fetch local page json_error d (b b' : Bus.Broker) msgs :
  fetchTopic d <> "" -> plain (fetchTopic d) ->
  Bus.FetchPartition (fetchTopic d) (wanted (fetchPartStr d) 0) (wanted (fetchOffStr d) 0) (Z.min (wanted (fetchLimStr d) 20) 100) b =
    Some (msgs, b') ->
  Forall (fun m => in_i64 (Bus.m_Offset m) /\ utf8_ok (str_of (Bus.m_Payload m))) msgs ->
  exists start url answer, doFetch d = (start, Some url) /\
    (forall d', start d' = {| d' with fetching := true; fetchErr := "" |}) /\
    fetch_endpoint local page url b = Some (answer, b') /\
    (forall d', fetch_done json_error (Ok answer) d' =
       {| d' with fetching := false;
          fetchResults := map (fun m => mkMessage (Bus.m_Offset m) (str_of (RFC3339 (local (Bus.m_Timestamp m)) (Bus.m_Timestamp m)))
                                          (str_of (Bus.m_Payload m))) msgs |}).
Proof.
  intros Hne Hpl HF Hok. unfold doFetch. rewrite (proj2 (String.eqb_neq _ "") Hne), fetch_url by done.
  eexists _, _, (JsonMap.enc_array (map (fun m => enc_object (message_fields local m)) (map Process.fetched_message msgs)) ++ Inspect.eol).
  split; [reflexivity|]. split; [done|]. split.
  - unfold fetch_endpoint. rewrite fetch_query. cbn [map fst snd].
    pose proof (wanted_range (fetchPartStr d) 0 ltac:(done)). pose proof (wanted_range (fetchOffStr d) 0 ltac:(done)).
    pose proof (wanted_range (fetchLimStr d) 20 ltac:(done)). rewrite !form_int_wanted.
    set (q := [_; _; _; _]).
    assert (Url.Get "topic" q = fetchTopic d /\ Url.Get "partition" q = itoa (wanted (fetchPartStr d) 0) /\
      Url.Get "offset" q = itoa (wanted (fetchOffStr d) 0) /\ Url.Get "limit" q = itoa (wanted (fetchLimStr d) 20)) as (-> & -> & -> & ->)
      by (split_and!; exact (str_of_bs _)).
    unfold Process.api_fetch, Process.query_limit. rewrite (proj2 (String.eqb_neq _ "") Hne), !query_int_format by done.
    assert ((if 100 <? wanted (fetchLimStr d) 20 then 100 else wanted (fetchLimStr d) 20) = Z.min (wanted (fetchLimStr d) 20) 100) as ->
      by (destruct (Z.ltb_spec 100 (wanted (fetchLimStr d) 20)); lia).
    rewrite HF. done.
  - intros d'. unfold fetch_done. rewrite messages_roundtrip; [by rewrite map_map|].
    apply Forall_map. exact Hok.
Qed.

Definition fetch_form : Dashboard := {| zero_dashboard with fetchTopic := "orders"; fetchOffStr := "1"; fetchLimStr := "2" |}.
Definition fetch_bus : Bus.Broker :=
  match Bus.run_all Bus.run_op (map (fun p => Bus.OPublishToPartition "orders" 0 Time.unix_epoch (bs_of p)) ["a"; "b"; "c"; "d"]) Bus.New with
  | Some (_, b) => b
  | None => Bus.New
  end.
Definition fetch_found : list Bus.Message * Bus.Broker :=
  match Bus.FetchPartition "orders" 0 1 2 fetch_bus with Some r => r | None => ([], fetch_bus) end.

Lemma dashboard_fetch_witness :
  exists start url answer, doFetch fetch_form = (start, Some url) /\
    (forall d', start d' = {| d' with fetching := true; fetchErr := "" |}) /\
    fetch_endpoint (fun _ => 0) (fun _ => []) url fetch_bus = Some (answer, fetch_found.2) /\
    (forall d', fetch_done (fun _ => "") (Ok answer) d' =
       {| d' with fetching := false;
          fetchResults := map (fun m => mkMessage (Bus.m_Offset m) (str_of (RFC3339 0 (Bus.m_Timestamp m))) (str_of (Bus.m_Payload m)))
                            fetch_found.1 |}).
Proof.
  apply (dashboard_fetch (fun _ => 0) (fun _ => []) (fun _ => "") fetch_form fetch_bus fetch_found.2 fetch_found.1);
    [done|vm_compute; reflexivity| |].
  - assert (fetch_found = (fetch_found.1, fetch_found.2)) as <- by apply surjective_pairing. vm_compute. reflexivity.
  - let l := eval vm_compute in fetch_found.1 in replace fetch_found.1 with l by (vm_compute; reflexivity).
    repeat (apply Forall_cons_2; [split; [by vm_compute|vm_compute; reflexivity]|]). by apply Forall_nil_2.
Defined.

Example fetch_shows :
  map (fun m => mkMessage (Bus.m_Offset m) (str_of (RFC3339 0 (Bus.m_Timestamp m))) (str_of (Bus.m_Payload m))) fetch_found.1 =
  [mkMessage 1 "1970-01-01T00:00:00Z" "b"; mkMessage 2 "1970-01-01T00:00:00Z" "c"].
Proof. vm_compute. reflexivity. Qed.


(** The topic the broker reads from the URL of a form. *)
Definition asked_topic (topic : string) : option string :=
  (fun url => Url.Get "topic" (Url.ParseQuery (Url.url_query url))) <$> (doFetch {| zero_dashboard with fetchTopic := topic |}).2.

(** The topic is not escaped: separators cut it off, a plus sign is a blank, an escape is
    decoded and a lone percent sign loses the topic. *)
Example fetch_topic_unescaped :
  map asked_topic ["orders"; "a&b"; "a#b"; "a+b"; "a%41"; "50%"] = map Some ["orders"; "a"; "a"; "a b"; "aA"; ""].
Proof. vm_compute. reflexivity. Qed.

(** ** Rates *)

(** The rates the page shows over a sequence of polls; one that fails shows no new rate. *)
Fixpoint rates (rs : list (result string Process.BrokerStats)) (d : Dashboard) : list Z :=
  match rs with
  | [] => []
  | r :: rs => match r with Ok _ => [pubRate (poll r d)] | Err _ => [] end ++ rates rs (poll r d)
  end.

Definition sum (l : list Z) : Z := fold_right Z.add 0 l.

(** The rates add up to what was published since: no poll, failed or not, loses a message. *)
Lemma rates_add_up rs : forall d,
  i64 (sum (rates rs d)) =
  i64 (Process.st_TotalPublished (stats (fold_left (fun d r => poll r d) rs d)) - Process.st_TotalPublished (stats d)).
Proof.
  induction rs as [|r rs IH]; intros d; [cbn; by rewrite Z.sub_diag|]. cbn [rates fold_left]. specialize (IH (poll r d)).
  destruct r as [s|e]; cbn [app] in *; [|exact IH]. cbn [sum fold_right]. change (fold_right Z.add 0 ?l) with (sum l).
  change (pubRate (poll (Ok s) d)) with (i64 (Process.st_TotalPublished s - Process.st_TotalPublished (stats d))).
  unfold i64, wrap_s in *. cbn [poll stats] in *. set (T := Process.st_TotalPublished _) in *. clearbody T.
  set (a := Process.st_TotalPublished s) in *. set (b := Process.st_TotalPublished (stats d)) in *. set (x := sum _) in *.
  clearbody a b x. Z.div_mod_to_equations. lia.
Qed.

(** The first poll after the page is opened shows all that was ever published as the rate. *)
Example first_rate_is_total :
  let s := {| zero_stats with Process.st_TotalPublished := 2500000 |} in
  let d := poll (Ok s) (OnMount zero_dashboard) in
  (fmtN (pubRate d) +:+ trend (pubRate d) (prevPubRate d), fmtN (pubRate (poll (Ok s) d))) = ("2.5M ↑", "0").
Proof. vm_compute. reflexivity. Qed.

(** The suffix is chosen before the number is rounded. *)
Example rounded_past_suffix : map fmtN [999; 1000; 1050; 999949; 999950; 1000000] = ["999"; "1.0K"; "1.1K"; "999.9K"; "1000.0K"; "1.0M"].
Proof. vm_compute. reflexivity. Qed.
End Web.
