(* ===== verification/Lifecycle.v ===== *)
(** * Serving and shutting down (cmd/broker/main.go, internal/broker/tcp_server.go and the loops of the pollers and the coordinator)

    [Module Shutdown] models the process around the handlers as a step relation: the TCP
    server's accept loop, statement by statement, with its connection goroutines, its
    [WaitGroup] and its count; the HTTP and gRPC servers with the handlers they run; the
    ticker loops of the two pollers and of the workflow coordinator with their [Stop]; and
    the sequence in which [main] takes the parts down, with the two timeouts that let it go
    on.  Clients decide when connections and handlers end.  [net/http]'s [Shutdown] and
    gRPC's [GracefulStop] and [Stop] are modelled by what they document: the first two stop
    taking requests and wait for the running ones, the third does not wait for handlers.

    The theorems: both counts of connections are exact; when the log is closed the loops
    have stopped, the servers take no requests, no handler runs unless a timeout ended a
    wait, and at most one connection is left, the one that the accept loop had in hand when
    the listener was closed; such a connection is possible, served with the log closed; once
    the clients have hung up the shutdown completes, and as long as one connection that was
    counted in time has not ended, it does not. *)

From S2P Require Import Prelude.

Module Shutdown.
Local Open Scope Z_scope.

(** ** A ticker loop with [stop] and [done] *)

Inductive loop_pc := Selecting | Working | Returned.

Record loop := mkLoop { stop_closed : bool; pc : loop_pc }.

(** A poller drains once before its loop, the coordinator waits for its first tick. *)
Definition Poller_Start : loop := mkLoop false Working.
Definition Coordinator_Start : loop := mkLoop false Selecting.

(** The goroutine: a tick starts a pass, a pass ends, and a closed [stop] is seen at the
    select, where it competes with the ticks. *)
Inductive loop_step : loop -> loop -> Prop :=
| loop_tick l : pc l = Selecting -> loop_step l {| l with pc := Working |}
| loop_pass l : pc l = Working -> loop_step l {| l with pc := Selecting |}
| loop_exit l : pc l = Selecting -> stop_closed l = true -> loop_step l {| l with pc := Returned |}.

Definition close_stop (l : loop) : loop := {| l with stop_closed := true |}.
Definition done_closed (l : loop) : bool := match pc l with Returned => true | _ => false end.

(** ** The process *)

(** Where [main] is: serving, or after the signal at the part it takes down next; a wait is
    a phase of its own.  [Returning]: the log is closed and [main] has not returned yet. *)
Inductive phase :=
| Serving | ClusterDown | MetricsClose | MetricsWait | GrpcStop | GrpcWait | TcpClose | TcpWait
| CpStop | CpWait | CoordStop | CoordWait | WfStop | WfWait | LogClose | Returning | Exited.

#[global] Instance phase_eq_dec : EqDecision phase.
Proof. solve_decision. Defined.

(** Where the goroutine of [ListenAndServe] is: before [net.Listen], in [Accept], with an
    accepted connection before each of the two increments and before it starts the
    connection's goroutine, or returned. *)
Inductive accept_pc := Starting | InAccept | Accepted (id : nat) | Added (id : nat) | Counted (id : nat) | Ended.

(** [http_up], [grpc_up]: the server takes requests; [http_conns], [rpcs]: the HTTP
    connections that are not idle and the gRPC handlers that run; [graceful]: the goroutine
    that calls [GracefulStop] exists.  [listener]: the server's field, with whether the
    socket is open.  [conns]: the connections whose handler runs; [leaving]: those whose
    handler has returned and left [connCount], but not yet [activeConns].  The loops are
    absent when the flags disable them. *)
Record process := mkProcess {
  at_ : phase; ready : bool;
  http_up : bool; http_conns : gset nat;
  grpc_up : bool; graceful : bool; rpcs : gset nat;
  acceptor : accept_pc; listener : option bool; conns : gset nat; leaving : gset nat;
  activeConns : Z; connCount : Z;
  cpPoller : option loop; wfCoord : option loop; wfPoller : option loop; log_open : bool
}.

Definition started (control workflow : bool) : process :=
  mkProcess Serving true true ∅ true false ∅ Starting None ∅ ∅ 0 0
    (if control then Some Poller_Start else None) (if workflow then Some Coordinator_Start else None)
    (if workflow then Some Poller_Start else None) true.

Definition stopped (l : option loop) : bool := match l with None => true | Some l => done_closed l end.

(** The steps of [main] after the signal or a server's error.  [elapsed]: the timeout of
    the wait that [main] is in has run out; [Stop] then refuses what [GracefulStop] may
    not have refused yet. *)
Definition main_next (elapsed : bool) (p : process) : option process :=
  match at_ p with
  | Serving => Some {| p with at_ := ClusterDown; ready := false |}
  | ClusterDown => Some {| p with at_ := MetricsClose |}
  | MetricsClose => Some {| p with at_ := MetricsWait; http_up := false |}
  | MetricsWait => if elapsed || bool_decide (http_conns p = ∅) then Some {| p with at_ := GrpcStop |} else None
  | GrpcStop => Some {| p with at_ := GrpcWait; graceful := true |}
  | GrpcWait => if elapsed || (negb (grpc_up p) && bool_decide (rpcs p = ∅))
                then Some {| p with at_ := TcpClose; grpc_up := false |} else None
  | TcpClose => Some {| p with at_ := TcpWait; listener := (fun _ => false) <$> listener p |}
  | TcpWait => if activeConns p =? 0 then Some {| p with at_ := CpStop |} else None
  | CpStop => Some {| p with at_ := CpWait; cpPoller := close_stop <$> cpPoller p |}
  | CpWait => if stopped (cpPoller p) then Some {| p with at_ := CoordStop |} else None
  | CoordStop => Some {| p with at_ := CoordWait; wfCoord := close_stop <$> wfCoord p |}
  | CoordWait => if stopped (wfCoord p) then Some {| p with at_ := WfStop |} else None
  | WfStop => Some {| p with at_ := WfWait; wfPoller := close_stop <$> wfPoller p |}
  | WfWait => if stopped (wfPoller p) then Some {| p with at_ := LogClose |} else None
  | LogClose => Some {| p with at_ := Returning; log_open := false |}
  | Returning => Some {| p with at_ := Exited |}
  | Exited => None
  end.

(** The goroutine of [ListenAndServe]: it listens, an [Accept] on the open socket returns a
    connection, and the statements after it, one at a time. *)
Definition listen (p : process) : process := {| p with acceptor := InAccept; listener := Some true |}.
Definition accept (id : nat) (p : process) : process := {| p with acceptor := Accepted id |}.
Definition accept_next (p : process) : option process :=
  match acceptor p with
  | Accepted id => Some {| p with acceptor := Added id; activeConns := activeConns p + 1 |}
  | Added id => Some {| p with acceptor := Counted id; connCount := connCount p + 1 |}
  | Counted id => Some {| p with acceptor := InAccept; conns := {[id]} ∪ conns p |}
  | _ => None
  end.

(** The connection's goroutine when its handler returns: the deferred calls, last first. *)
Definition conn_left (id : nat) (p : process) : process :=
  {| p with conns := conns p ∖ {[id]}; leaving := {[id]} ∪ leaving p; connCount := connCount p - 1 |}.
Definition conn_done (id : nat) (p : process) : process :=
  {| p with leaving := leaving p ∖ {[id]}; activeConns := activeConns p - 1 |}.

(** Who makes a step: a TCP client, which ends its connection by closing it or with a frame
    whose handler returns an error; a peer of the HTTP and gRPC servers; a timeout of the
    shutdown; or the process itself. *)
Inductive actor := Client (id : nat) | Peer | Timer | Broker_.

Inductive moves : actor -> process -> process -> Prop :=
| st_main p p' : main_next false p = Some p' -> moves Broker_ p p'
| st_timeout p p' : at_ p = MetricsWait \/ at_ p = GrpcWait -> main_next true p = Some p' -> moves Timer p p'
| st_listen p : acceptor p = Starting -> moves Broker_ p (listen p)
| st_listen_error p : acceptor p = Starting -> moves Broker_ p {| p with acceptor := Ended |}
| st_accept id p : acceptor p = InAccept -> listener p = Some true -> id ∉ conns p ∪ leaving p -> moves Broker_ p (accept id p)
| st_accept_error p : acceptor p = InAccept -> moves Broker_ p {| p with acceptor := Ended |}
| st_accept_next p p' : accept_next p = Some p' -> moves Broker_ p p'
| st_hangup id p : id ∈ conns p -> moves (Client id) p (conn_left id p)
| st_done id p : id ∈ leaving p -> moves Broker_ p (conn_done id p)
| st_http id p : http_up p = true -> moves Peer p {| p with http_conns := {[id]} ∪ http_conns p |}
| st_http_end id p : moves Peer p {| p with http_conns := http_conns p ∖ {[id]} |}
| st_rpc id p : grpc_up p = true -> moves Peer p {| p with rpcs := {[id]} ∪ rpcs p |}
| st_rpc_end id p : moves Peer p {| p with rpcs := rpcs p ∖ {[id]} |}
| st_drain p : graceful p = true -> moves Broker_ p {| p with grpc_up := false |}
| st_cp l l' p : cpPoller p = Some l -> loop_step l l' -> moves Broker_ p {| p with cpPoller := Some l' |}
| st_coord l l' p : wfCoord p = Some l -> loop_step l l' -> moves Broker_ p {| p with wfCoord := Some l' |}
| st_wf l l' p : wfPoller p = Some l -> loop_step l l' -> moves Broker_ p {| p with wfPoller := Some l' |}.

(** Nothing of the process runs once [main] has returned. *)
Definition step (x : actor) (p p' : process) : Prop := at_ p <> Exited /\ moves x p p'.

(** Reachable by steps of the actors [ok] admits. *)
Inductive reaches (ok : actor -> Prop) (p : process) : process -> Prop :=
| reaches_refl : reaches ok p p
| reaches_step x p1 p2 : reaches ok p p1 -> ok x -> step x p1 p2 -> reaches ok p p2.

Definition reachable (p : process) : Prop := exists control workflow, reaches (fun _ => True) (started control workflow) p.

(** ** The order of the shutdown *)

Definition rank (a : phase) : Z :=
  match a with
  | Serving => 0 | ClusterDown => 1 | MetricsClose => 2 | MetricsWait => 3 | GrpcStop => 4 | GrpcWait => 5
  | TcpClose => 6 | TcpWait => 7 | CpStop => 8 | CpWait => 9 | CoordStop => 10 | CoordWait => 11
  | WfStop => 12 | WfWait => 13 | LogClose => 14 | Returning => 15 | Exited => 16
  end.

(** The connection the accept loop has in hand, and what it has counted of it. *)
Definition in_hand (a : accept_pc) : gset nat := match a with Accepted i | Added i | Counted i => {[i]} | _ => ∅ end.
Definition hand_added (a : accept_pc) : Z := match a with Added _ | Counted _ => 1 | _ => 0 end.
Definition hand_counted (a : accept_pc) : Z := match a with Counted _ => 1 | _ => 0 end.

(** Every connection that was accepted and has not ended. *)
Definition accepted (p : process) : gset nat := in_hand (acceptor p) ∪ conns p ∪ leaving p.

Record proc_inv (p : process) : Prop := {
  pi_active : activeConns p = Z.of_nat (size (conns p)) + Z.of_nat (size (leaving p)) + hand_added (acceptor p);
  pi_count : connCount p = Z.of_nat (size (conns p)) + hand_counted (acceptor p);
  pi_apart : conns p ## leaving p /\ in_hand (acceptor p) ## conns p ∪ leaving p;
  pi_ready : ready p = (rank (at_ p) =? 0);
  pi_http : http_up p = (rank (at_ p) <=? 2);
  pi_grpc : 5 < rank (at_ p) -> grpc_up p = false;
  pi_graceful : graceful p = (5 <=? rank (at_ p));
  pi_unheard : listener p = None -> acceptor p = Starting \/ acceptor p = Ended;
  pi_nobody : listener p = None -> conns p = ∅ /\ leaving p = ∅;
  pi_starting : acceptor p = Starting -> listener p = None;
  pi_late : 7 < rank (at_ p) -> listener p = Some false -> (size (accepted p) <= 1)%nat;
  pi_cp : 9 < rank (at_ p) -> stopped (cpPoller p) = true;
  pi_coord : 11 < rank (at_ p) -> stopped (wfCoord p) = true;
  pi_wf : 13 < rank (at_ p) -> stopped (wfPoller p) = true;
  pi_log : log_open p = (rank (at_ p) <=? 14);
  pi_cp_stop : 8 < rank (at_ p) -> forall l, cpPoller p = Some l -> stop_closed l = true;
  pi_coord_stop : 10 < rank (at_ p) -> forall l, wfCoord p = Some l -> stop_closed l = true;
  pi_wf_stop : 12 < rank (at_ p) -> forall l, wfPoller p = Some l -> stop_closed l = true;
}.

(** Without counted connections there is at most the one in hand. *)
Lemma none_counted p : proc_inv p -> activeConns p = 0 -> conns p = ∅ /\ leaving p = ∅ /\ (size (accepted p) <= 1)%nat.
Proof.
  intros [] E. assert (0 <= hand_added (acceptor p)) by (destruct (acceptor p); cbn; lia).
  assert (conns p = ∅) as Hc by (apply leibniz_equiv, size_empty_iff; lia).
  assert (leaving p = ∅) as Hl by (apply leibniz_equiv, size_empty_iff; lia).
  split_and!; [done..|]. unfold accepted. rewrite Hc, Hl, !(right_id_L ∅ (∪)).
  destruct (acceptor p); cbn; rewrite ?size_empty, ?size_singleton; lia.
Qed.

Lemma inv_main e p p' : proc_inv p -> main_next e p = Some p' -> proc_inv p'.
Proof.
  intros HI E. pose proof (none_counted p HI) as HN. destruct HI.
  destruct p as [a rd hu hc gu gr rp ac li cs lv na nc cp co wf lo]. unfold main_next in E. unfold accepted in *. cbn in *.
  destruct a; cbn in *; repeat case_match; simplify_eq; split; unfold accepted; cbn in *; auto; try lia; try (intros; done).
  all: try (intros _ l' El; destruct cp as [l|], co as [l2|], wf as [l3|]; cbn in El; by simplify_eq).
  all: try (intros Hn; destruct li; [done|]; by auto).
  intros Hs. by rewrite (pi_starting0 Hs).
Qed.

(** A loop's step neither runs after it has returned nor reopens [stop]. *)
Lemma loop_step_spec l l' : loop_step l l' -> done_closed l = false /\ stop_closed l' = stop_closed l.
Proof. destruct l as [sc c]. by inversion 1; unfold done_closed; simpl in *; subst. Qed.

(** The accept loop's own statements. *)
Lemma inv_accept_next p p' : proc_inv p -> accept_next p = Some p' -> proc_inv p'.
Proof.
  intros [] E. destruct p as [a rd hu hc gu gr rp ac li cs lv na nc cp co wf lo]. unfold accept_next in E. unfold accepted in *. cbn in *.
  destruct ac; simplify_eq; split; unfold accepted; cbn in *; auto; try lia; try (intros; done).
  all: try (intros Hn; destruct (pi_unheard0 Hn); done).
  - rewrite size_union, size_singleton by set_solver. lia.
  - rewrite size_union, size_singleton by set_solver. lia.
  - set_solver.
  - intros Hr Hl. rewrite (left_id_L ∅ (∪)). by apply pi_late0.
Qed.

Lemma size_removed (id : nat) (X : gset nat) : id ∈ X -> Z.of_nat (size (X ∖ {[id]})) = Z.of_nat (size X) - 1.
Proof.
  intros H. rewrite size_difference, size_singleton by set_solver.
  assert (0 < size X)%nat by (destruct (decide (size X = 0)%nat) as [E%size_empty_inv|]; [set_solver|lia]). lia.
Qed.

(** The end of a connection. *)
Lemma inv_conn_left id p : proc_inv p -> id ∈ conns p -> proc_inv (conn_left id p).
Proof.
  intros [] Hid. destruct pi_apart0 as [Ha1 Ha2]. split; cbn; auto.
  - rewrite size_removed, size_union, size_singleton by set_solver. lia.
  - rewrite size_removed by done. lia.
  - set_solver.
  - intros Hn. destruct (pi_nobody0 Hn). set_solver.
  - intros Hr Hl. specialize (pi_late0 Hr Hl). etrans; [|exact pi_late0]. apply subseteq_size. unfold accepted. cbn. set_solver.
Qed.

Lemma inv_conn_done id p : proc_inv p -> id ∈ leaving p -> proc_inv (conn_done id p).
Proof.
  intros [] Hid. destruct pi_apart0 as [Ha1 Ha2]. split; cbn; auto.
  - rewrite size_removed by done. lia.
  - set_solver.
  - intros Hn. destruct (pi_nobody0 Hn). set_solver.
  - intros Hr Hl. specialize (pi_late0 Hr Hl). etrans; [|exact pi_late0]. apply subseteq_size. unfold accepted. cbn. set_solver.
Qed.

(** The accept loop listens, gets a connection or returns. *)
Lemma inv_listen p : proc_inv p -> acceptor p = Starting -> proc_inv (listen p).
Proof. intros [] Ha. rewrite Ha in *. split; cbn in *; auto; done. Qed.

Lemma inv_accept id p : proc_inv p -> acceptor p = InAccept -> listener p = Some true -> id ∉ conns p ∪ leaving p -> proc_inv (accept id p).
Proof. intros [] Ha Hl Hid. rewrite Ha in *. split; cbn in *; auto; try done; [set_solver|intros; congruence..]. Qed.

Lemma inv_ended p : proc_inv p -> acceptor p = Starting \/ acceptor p = InAccept -> proc_inv {| p with acceptor := Ended |}.
Proof.
  intros [] Ha. split; unfold accepted in *; cbn in *; auto; try done; try (destruct Ha as [Ha|Ha]; rewrite Ha in *; cbn in *; auto; done).
Qed.

Lemma inv_step x p p' : proc_inv p -> step x p p' -> proc_inv p'.
Proof.
  intros HI [_ Hst]. destruct Hst as [p p' E|p p' _ E|p Ha|p Ha|id p Ha Hl Hid|p Ha|p p' E|id p Hid|id p Hid
    |id p Hu|id p|id p Hu|id p|p Hg|l l' p El Hl|l l' p El Hl|l l' p El Hl].
  1,2: by eapply inv_main.
  1: by apply inv_listen.
  1: by apply inv_ended; [|left].
  1: by apply inv_accept.
  1: by apply inv_ended; [|right].
  1: by eapply inv_accept_next.
  1: by apply inv_conn_left.
  1: by apply inv_conn_done.
  1-5: destruct HI; split; cbn; auto.
  all: destruct HI; destruct (loop_step_spec _ _ Hl) as [Hd Hs]; split; cbn; auto.
  - intros Hr. specialize (pi_cp0 Hr). rewrite El in pi_cp0. cbn in pi_cp0. congruence.
  - intros Hr k [= <-]. rewrite Hs. by apply pi_cp_stop0.
  - intros Hr. specialize (pi_coord0 Hr). rewrite El in pi_coord0. cbn in pi_coord0. congruence.
  - intros Hr k [= <-]. rewrite Hs. by apply pi_coord_stop0.
  - intros Hr. specialize (pi_wf0 Hr). rewrite El in pi_wf0. cbn in pi_wf0. congruence.
  - intros Hr k [= <-]. rewrite Hs. by apply pi_wf_stop0.
Qed.

Lemma started_inv control workflow : proc_inv (started control workflow).
Proof. split; cbn; auto; try lia; set_solver. Qed.

Lemma reaches_inv ok p p' : proc_inv p -> reaches ok p p' -> proc_inv p'.
Proof. intros HI. induction 1; [done|]. by eapply inv_step. Qed.

Lemma process_inv p : reachable p -> proc_inv p.
Proof. intros (c & w & H). eapply reaches_inv; [apply started_inv|exact H]. Qed.

(** In a run in which no timeout ends a wait, the HTTP and gRPC servers are quiet after it. *)
Definition quiet (p : process) : Prop :=
  (3 < rank (at_ p) -> http_conns p = ∅) /\ (5 < rank (at_ p) -> rpcs p = ∅).

Lemma quiet_main p p' : quiet p -> main_next false p = Some p' -> quiet p'.
Proof.
  intros [H1 H2] E. unfold quiet. unfold main_next in E. destruct (at_ p) eqn:Ea; cbn in *; repeat case_match; simplify_eq; cbn.
  all: split; intros; auto; try lia; try (apply H1; lia); try (apply H2; lia).
  - by eapply bool_decide_eq_true_1.
  - apply andb_true_iff in H as [_ H]. by eapply bool_decide_eq_true_1.
Qed.

Lemma nobody_left (X : gset nat) : ∅ ∖ X = ∅.
Proof. apply leibniz_equiv. intros i. rewrite elem_of_difference. set_solver. Qed.

Lemma quiet_kept x p p' : proc_inv p -> quiet p -> x <> Timer -> step x p p' -> quiet p'.
Proof.
  intros [] HQ Hx [_ Hst]. pose proof HQ as [H1 H2].
  destruct Hst as [p p' E|p p' _ E|p Ha|p Ha|id p Ha Hl Hid|p Ha|p p' E|id p Hid|id p Hid
    |id p Hu|id p|id p Hu|id p|p Hg|l l' p El Hl|l l' p El Hl|l l' p El Hl]; try exact HQ.
  - by eapply quiet_main.
  - by destruct Hx.
  - unfold accept_next in E. by destruct (acceptor p); simplify_eq.
  - split; cbn; [|exact H2]. intros Hr. rewrite pi_http0 in Hu. apply Z.leb_le in Hu. lia.
  - split; cbn; [|exact H2]. intros Hr. rewrite (H1 Hr). apply nobody_left.
  - split; cbn; [exact H1|]. intros Hr. by rewrite pi_grpc0 in Hu.
  - split; cbn; [exact H1|]. intros Hr. rewrite (H2 Hr). apply nobody_left.
Qed.

Lemma reaches_quiet ok control workflow p : ~ ok Timer -> reaches ok (started control workflow) p -> quiet p.
Proof.
  intros Hno. induction 1 as [|x p1 p2 Hr IH Hx Hst]; [split; cbn; lia|].
  eapply quiet_kept; [|exact IH| |exact Hst]; [eapply reaches_inv; [apply started_inv|exact Hr]|]. by intros ->.
Qed.

(** C30. The log is closed last, and what can still run then.  In every interleaving of the
    accept loop, the connections, the handlers of the HTTP and gRPC servers, the loops, the
    timeouts and [main]: the two counts of connections are exact whenever the accept loop
    has no connection in hand.  Once the log is closed, the process is not ready, the HTTP
    and gRPC servers take no requests, and the pollers and the coordinator's sweep have
    stopped.  Of the TCP connections at most one is left, if [Shutdown] found the listener
    and closed it, and none if the server never listened; a server that starts to listen
    after [Shutdown] has looked is not covered.  HTTP and gRPC handlers have all ended in a
    run without a timeout of the shutdown; after a timeout they may still run. *)
Theorem log_closed_last ok control workflow p : reaches ok (started control workflow) p ->
  (in_hand (acceptor p) = ∅ ->
     connCount p = Z.of_nat (size (conns p)) /\ activeConns p = Z.of_nat (size (conns p)) + Z.of_nat (size (leaving p))) /\
  (log_open p = false ->
     ready p = false /\ http_up p = false /\ grpc_up p = false /\
     stopped (cpPoller p) = true /\ stopped (wfCoord p) = true /\ stopped (wfPoller p) = true /\
     (listener p = Some false -> (size (accepted p) <= 1)%nat) /\ (listener p = None -> accepted p = ∅) /\
     (~ ok Timer -> http_conns p = ∅ /\ rpcs p = ∅)).
Proof.
  intros HR. pose proof (reaches_quiet ok control workflow p) as HQ.
  destruct (reaches_inv _ _ _ (started_inv control workflow) HR). split.
  - intros Hh. rewrite pi_count0, pi_active0. destruct (acceptor p); cbn in *; try lia; set_solver.
  - rewrite pi_log0. intros Hr%Z.leb_gt. rewrite pi_ready0, pi_http0. split_and!; auto with lia.
    + intros Hn. destruct (pi_nobody0 Hn) as [Ec El]. unfold accepted. rewrite Ec, El. by destruct (pi_unheard0 Hn) as [-> | ->].
    + intros Hno. destruct (HQ Hno HR) as [H1 H2]. split; [apply H1|apply H2]; lia.
Qed.

Lemma reaches_one ok x p p' : ok x -> step x p p' -> reaches ok p p'.
Proof. intros. eapply reaches_step; [apply reaches_refl|done..]. Qed.

Lemma reaches_trans ok p p1 p2 : reaches ok p p1 -> reaches ok p1 p2 -> reaches ok p p2.
Proof. intros H. induction 1; [done|]. by eapply reaches_step. Qed.

(** [n] steps of [main] without a timeout, and of the accept loop. *)
Fixpoint iter_next (f : process -> option process) (n : nat) (p : process) : option process :=
  match n with
  | O => Some p
  | S n => if decide (at_ p = Exited) then None else p1 ← f p; iter_next f n p1
  end.

Lemma iter_reaches ok f n p p' : (forall q q', f q = Some q' -> moves Broker_ q q') -> ok Broker_ ->
  iter_next f n p = Some p' -> reaches ok p p'.
Proof.
  intros Hf Hok. revert p. induction n as [|n IH]; intros p E; [injection E as <-; apply reaches_refl|].
  cbn in E. case_decide as Hx; [done|]. destruct (f p) as [p1|] eqn:E1; [|done]. cbn in E.
  eapply reaches_trans; [|by apply IH]. eapply reaches_one; [exact Hok|]. split; [done|by apply Hf].
Qed.

(** ** It completes, unless a client stays *)

Lemma counted_blocks p p' x id : proc_inv p -> id ∈ conns p -> rank (at_ p) <= 7 -> x <> Client id -> step x p p' ->
  id ∈ conns p' /\ rank (at_ p') <= 7.
Proof.
  intros [] Hid Hr Hx [_ Hst].
  assert (0 < activeConns p) as Hpos.
  { assert (0 <= hand_added (acceptor p)) by (destruct (acceptor p); cbn; lia).
    assert (size (conns p) <> 0%nat) by (intros E%size_empty_inv; set_solver). lia. }
  assert (forall e q, main_next e p = Some q -> id ∈ conns q /\ rank (at_ q) <= 7) as Hmain.
  { intros e q E. unfold main_next in E. destruct (at_ p); cbn in *; repeat case_match; simplify_eq; cbn; (split; [done|lia]) || lia. }
  destruct Hst as [p p' E|p p' _ E|p Ha|p Ha|i p Ha Hl Hi|p Ha|p p' E|i p Hi|i p Hi
    |i p Hu|i p|i p Hu|i p|p Hg|l l' p El Hl|l l' p El Hl|l l' p El Hl]; try (by eapply Hmain); try (split; [exact Hid|exact Hr]).
  - unfold accept_next in E. destruct (acceptor p); simplify_eq; cbn; split; try done; set_solver.
  - split; [|exact Hr]. cbn. assert (i <> id) by congruence. set_solver.
Qed.

(** The shutdown cannot get past the wait for the connections while one of them that was
    there before stays open: whatever else happens, timeouts included, the log is not
    closed, so that what it buffers is not written. *)
Theorem open_connection_blocks_shutdown p p' id :
  reachable p -> id ∈ conns p -> rank (at_ p) <= rank TcpWait -> reaches (fun x => x <> Client id) p p' ->
  id ∈ conns p' /\ rank (at_ p') <= rank TcpWait /\ log_open p' = true.
Proof.
  intros Hp%process_inv Hid Hr HR. cbn [rank] in *.
  assert (proc_inv p' /\ id ∈ conns p' /\ rank (at_ p') <= 7) as (HI & H1 & H2).
  { induction HR as [|x p1 p2 HR (HI & H1 & H2) Hx Hst]; [done|]. split; [by eapply inv_step|by eapply counted_blocks]. }
  split_and!; [done..|]. destruct HI. rewrite pi_log0. apply Z.leb_le. lia.
Qed.

(** What the steps of the connections leave alone. *)
Definition same_but_conns (p p' : process) : Prop :=
  at_ p' = at_ p /\ acceptor p' = acceptor p /\ cpPoller p' = cpPoller p /\ wfCoord p' = wfCoord p /\ wfPoller p' = wfPoller p.

(** The clients hang up, and the goroutines count themselves out. *)
Lemma all_hang_up p : at_ p <> Exited -> exists p', reaches (fun _ => True) p p' /\ conns p' = ∅ /\ same_but_conns p p'.
Proof.
  remember (size (conns p)) as n eqn:Hn. revert p Hn. induction n as [|n IH]; intros p Hn Hx.
  { exists p. split; [apply reaches_refl|]. split; [apply leibniz_equiv, size_empty_iff; lia|]. by repeat split. }
  destruct (size_pos_elem_of (conns p)) as [id Hid]; [lia|].
  destruct (IH (conn_left id p)) as (p' & Hr & Hc & Hs); [cbn; rewrite size_difference, size_singleton by set_solver; lia|done|].
  exists p'. split; [|split; [exact Hc|exact Hs]]. eapply reaches_trans; [|exact Hr]. eapply reaches_one; [exact I|]. split; [exact Hx|by apply st_hangup].
Qed.

Lemma all_done p : at_ p <> Exited -> exists p', reaches (fun _ => True) p p' /\ conns p' = conns p /\ leaving p' = ∅ /\ same_but_conns p p'.
Proof.
  remember (size (leaving p)) as n eqn:Hn. revert p Hn. induction n as [|n IH]; intros p Hn Hx.
  { exists p. split; [apply reaches_refl|]. split; [done|]. split; [apply leibniz_equiv, size_empty_iff; lia|]. by repeat split. }
  destruct (size_pos_elem_of (leaving p)) as [id Hid]; [lia|].
  destruct (IH (conn_done id p)) as (p' & Hr & Hc & Hl & Hs); [cbn; rewrite size_difference, size_singleton by set_solver; lia|done|].
  exists p'. split; [|split; [exact Hc|split; [exact Hl|exact Hs]]].
  eapply reaches_trans; [|exact Hr]. eapply reaches_one; [exact I|]. split; [exact Hx|by apply st_done].
Qed.

Lemma all_leave p : proc_inv p -> at_ p <> Exited -> hand_added (acceptor p) = 0 ->
  exists p', reaches (fun _ => True) p p' /\ activeConns p' = 0 /\ same_but_conns p p'.
Proof.
  intros HI Hx Hh. destruct (all_hang_up p Hx) as (p1 & R1 & C1 & A1 & B1 & D1 & E1 & F1).
  destruct (all_done p1) as (p2 & R2 & C2 & L2 & A2 & B2 & D2 & E2 & F2); [by rewrite A1|].
  assert (reaches (fun _ => True) p p2) as HR by by eapply reaches_trans.
  exists p2. split; [done|]. split; [|split_and!; congruence].
  destruct (reaches_inv _ _ _ HI HR). rewrite pi_active0, C2, C1, L2, B2, B1, Hh. done.
Qed.

(** A loop whose [stop] is closed gets to its exit. *)
Inductive loop_steps : loop -> loop -> Prop :=
| loop_refl l : loop_steps l l
| loop_more l l1 l2 : loop_step l l1 -> loop_steps l1 l2 -> loop_steps l l2.

Lemma loop_returns l : stop_closed l = true -> exists l', loop_steps l l' /\ done_closed l' = true.
Proof.
  intros Hs. destruct l as [sc c]. cbn in Hs. subst sc. exists (mkLoop true Returned). split; [|done]. destruct c.
  - eapply loop_more; [by apply loop_exit|]. apply loop_refl.
  - eapply loop_more; [by apply loop_pass|]. eapply loop_more; [by apply loop_exit|]. apply loop_refl.
  - apply loop_refl.
Qed.

Ltac run_loop st :=
  induction 1 as [l|l l1 l2 Hs _ IH]; intros p Hx El; [destruct p; cbn in *; subst; apply reaches_refl|];
  eapply reaches_trans; [by eapply reaches_one; [exact I|]; split; [exact Hx|eapply st]|];
  match goal with |- reaches _ ?q _ => exact (IH q Hx eq_refl) end.

Lemma run_cp l l' : loop_steps l l' -> forall p, at_ p <> Exited -> cpPoller p = Some l -> reaches (fun _ => True) p {| p with cpPoller := Some l' |}.
Proof. run_loop st_cp. Qed.

Lemma run_coord l l' : loop_steps l l' -> forall p, at_ p <> Exited -> wfCoord p = Some l -> reaches (fun _ => True) p {| p with wfCoord := Some l' |}.
Proof. run_loop st_coord. Qed.

Lemma run_wf l l' : loop_steps l l' -> forall p, at_ p <> Exited -> wfPoller p = Some l -> reaches (fun _ => True) p {| p with wfPoller := Some l' |}.
Proof. run_loop st_wf. Qed.

Lemma reaches_main p p1 p2 : reaches (fun _ => True) p p1 -> main_next false p1 = Some p2 -> reaches (fun _ => True) p p2.
Proof.
  intros HR E. eapply reaches_step; [exact HR|exact I|]. split; [|by apply st_main]. intros Ha. unfold main_next in E. by rewrite Ha in E.
Qed.

(** Every phase but the last gives way to the next, also with a connection in the accept
    loop's hand that is not counted yet. *)
Lemma main_advances p : proc_inv p -> at_ p <> Exited -> hand_added (acceptor p) = 0 ->
  exists p2, reaches (fun _ => True) p p2 /\ rank (at_ p2) = rank (at_ p) + 1 /\ acceptor p2 = acceptor p.
Proof.
  intros HI Hne Hh. destruct (at_ p) eqn:Ea; try done.
  all: try (eexists; split; [eapply reaches_main; [apply reaches_refl|]; unfold main_next; rewrite Ea; reflexivity|split; reflexivity]).
  - eexists. split; [eapply reaches_one; [exact I|]; split; [by rewrite Ea|]; apply st_timeout; [by left|];
      unfold main_next; rewrite Ea; reflexivity|split; reflexivity].
  - eexists. split; [eapply reaches_one; [exact I|]; split; [by rewrite Ea|]; apply st_timeout; [by right|];
      unfold main_next; rewrite Ea; reflexivity|split; reflexivity].
  - destruct (all_leave p HI) as (p1 & HR & H0 & Hat & Hac & _); [by rewrite Ea|done|].
    eexists. split; [eapply reaches_main; [exact HR|]; unfold main_next; rewrite Hat, Ea, H0; reflexivity|]. by split.
  - destruct (cpPoller p) as [l|] eqn:El.
    + destruct (loop_returns l (pi_cp_stop p HI ltac:(rewrite Ea; cbn; lia) l El)) as (l' & Hl & Hd).
      eexists. split; [eapply reaches_main; [by eapply run_cp; [exact Hl|rewrite Ea|]|]; unfold main_next; cbn; rewrite Ea, Hd; reflexivity|done].
    + eexists. split; [eapply reaches_main; [apply reaches_refl|]; unfold main_next; rewrite Ea, El; reflexivity|done].
  - destruct (wfCoord p) as [l|] eqn:El.
    + destruct (loop_returns l (pi_coord_stop p HI ltac:(rewrite Ea; cbn; lia) l El)) as (l' & Hl & Hd).
      eexists. split; [eapply reaches_main; [by eapply run_coord; [exact Hl|rewrite Ea|]|]; unfold main_next; cbn; rewrite Ea, Hd; reflexivity|done].
    + eexists. split; [eapply reaches_main; [apply reaches_refl|]; unfold main_next; rewrite Ea, El; reflexivity|done].
  - destruct (wfPoller p) as [l|] eqn:El.
    + destruct (loop_returns l (pi_wf_stop p HI ltac:(rewrite Ea; cbn; lia) l El)) as (l' & Hl & Hd).
      eexists. split; [eapply reaches_main; [by eapply run_wf; [exact Hl|rewrite Ea|]|]; unfold main_next; cbn; rewrite Ea, Hd; reflexivity|done].
    + eexists. split; [eapply reaches_main; [apply reaches_refl|]; unfold main_next; rewrite Ea, El; reflexivity|done].
Qed.

Lemma main_gets_to r p : proc_inv p -> hand_added (acceptor p) = 0 -> rank (at_ p) <= r <= 16 ->
  exists p', reaches (fun _ => True) p p' /\ rank (at_ p') = r /\ acceptor p' = acceptor p.
Proof.
  remember (Z.to_nat (r - rank (at_ p))) as n eqn:Hn. revert p Hn. induction n as [|n IH]; intros p Hn HI Hh Hr.
  - exists p. split; [apply reaches_refl|]. split; [lia|done].
  - destruct (main_advances p HI) as (p1 & R1 & K1 & A1); [intros Ha; rewrite Ha in *; cbn in *; lia|done|].
    destruct (IH p1) as (p' & R' & K' & A'); [lia|by eapply reaches_inv|by rewrite A1|lia|].
    exists p'. split; [by eapply reaches_trans|]. split; [done|congruence].
Qed.

(** The accept loop gets the connection it has in hand served. *)
Lemma hand_served p : at_ p <> Exited -> exists p', reaches (fun _ => True) p p' /\
  at_ p' = at_ p /\ log_open p' = log_open p /\ in_hand (acceptor p') = ∅ /\ in_hand (acceptor p) ⊆ conns p'.
Proof.
  intros Hx. exists (default p (iter_next accept_next
    (match acceptor p with Accepted _ => 3 | Added _ => 2 | Counted _ => 1 | _ => 0 end) p)).
  destruct (acceptor p) eqn:Ea; cbn [iter_next]; unfold accept_next;
    repeat (cbn; rewrite ?Ea, ?decide_False by done).
  all: split_and!; try done; try set_solver; try apply reaches_refl.
  all: eapply (iter_reaches _ accept_next); [apply st_accept_next|exact I|].
  - instantiate (1 := 3%nat). cbn [iter_next]. unfold accept_next. repeat (cbn; rewrite ?Ea, ?decide_False by done). done.
  - instantiate (1 := 2%nat). cbn [iter_next]. unfold accept_next. repeat (cbn; rewrite ?Ea, ?decide_False by done). done.
  - instantiate (1 := 1%nat). cbn [iter_next]. unfold accept_next. repeat (cbn; rewrite ?Ea, ?decide_False by done). done.
Qed.

(** The shutdown has no deadlock: from every state the process can be in, with the clients
    hanging up, every loop getting to run and the timeouts where a handler does not end, it
    exits with the log closed. *)
Theorem shutdown_can_complete p : reachable p ->
  exists p', reaches (fun _ => True) p p' /\ at_ p' = Exited /\ log_open p' = false.
Proof.
  intros HI%process_inv. destruct (decide (at_ p = Exited)) as [Ea|Hx].
  { exists p. split; [apply reaches_refl|]. split; [done|]. by rewrite (pi_log p HI), Ea. }
  destruct (hand_served p Hx) as (p1 & R1 & A1 & _ & H1 & _). pose proof (reaches_inv _ _ _ HI R1) as HI1.
  destruct (main_gets_to 16 p1 HI1) as (p2 & R2 & K2 & _).
  - destruct (acceptor p1); cbn in *; done || set_solver.
  - split; [destruct (at_ p1); cbn; lia|done].
  - assert (at_ p2 = Exited) as Ea by (destruct (at_ p2); cbn in K2; lia || done).
    exists p2. split; [by eapply reaches_trans|]. split; [done|].
    by rewrite (pi_log _ (reaches_inv _ _ _ HI1 R2)), Ea.
Qed.

(** ** A connection that the wait misses *)

(** Whenever the accept loop waits on the open listener and the shutdown has not closed it
    yet, the next client can be served with the log already closed: [Accept] returns before
    the listener is closed, the wait sees no connection, and the goroutine is counted and
    started after the log is closed. *)
Theorem late_connection_meets_closed_log p id :
  reachable p -> rank (at_ p) <= rank TcpClose -> acceptor p = InAccept -> listener p = Some true ->
  id ∉ conns p ∪ leaving p ->
  exists p', reaches (fun _ => True) p p' /\ log_open p' = false /\ id ∈ conns p'.
Proof.
  intros HI%process_inv Hr Ha Hl Hid. cbn [rank] in Hr. assert (at_ p <> Exited) as Hx by (intros E; rewrite E in Hr; cbn in Hr; lia).
  assert (reaches (fun _ => True) p (accept id p)) as R0 by (eapply reaches_one; [exact I|]; split; [exact Hx|by apply st_accept]).
  pose proof (reaches_inv _ _ _ HI R0) as HI0.
  destruct (main_gets_to 15 (accept id p) HI0) as (p1 & R1 & K1 & A1); [done|cbn; lia|].
  pose proof (reaches_inv _ _ _ HI0 R1) as HI1.
  destruct (hand_served p1) as (p2 & R2 & _ & L2 & _ & S2); [intros E; rewrite E in K1; cbn in K1; lia|].
  exists p2. split; [by do 2 (eapply reaches_trans; [eassumption|])|]. split.
  - rewrite L2, (pi_log _ HI1), K1. done.
  - apply S2. rewrite A1. cbn. set_solver.
Qed.

(** ** Examples *)

(** A client is served and leaves; a second one connects just before the listener is
    closed, and its goroutine starts when the log is closed. *)
Definition iter_main (n : nat) (p : process) : process := default p (iter_next (main_next false) n p).
Definition iter_accept (n : nat) (p : process) : process := default p (iter_next accept_next n p).

Definition with_client : process := iter_accept 3 (accept 7 (listen (started false false))).
Definition left_client : process := conn_done 7 (conn_left 7 with_client).
Definition in_drain : process := {| (iter_main 5 (accept 8 left_client)) with grpc_up := false |}.
Definition late_client : process := iter_accept 3 (iter_main 10 in_drain).

Lemma iter_main_reaches (ok : actor -> Prop) n p : ok Broker_ -> reaches ok p (iter_main n p).
Proof.
  intros H. unfold iter_main. destruct (iter_next _ n p) eqn:E; [|apply reaches_refl].
  by eapply (iter_reaches _ (main_next false)); [apply st_main| |exact E].
Qed.

Lemma iter_accept_reaches (ok : actor -> Prop) n p : ok Broker_ -> reaches ok p (iter_accept n p).
Proof.
  intros H. unfold iter_accept. destruct (iter_next _ n p) eqn:E; [|apply reaches_refl].
  by eapply (iter_reaches _ accept_next); [apply st_accept_next| |exact E].
Qed.

Lemma with_client_reaches (ok : actor -> Prop) : ok Broker_ -> reaches ok (started false false) with_client.
Proof.
  intros H. apply (reaches_trans _ _ (accept 7 (listen (started false false)))); [|by apply iter_accept_reaches].
  eapply (reaches_step _ _ Broker_ (listen (started false false))); [|exact H|split; [done|]; apply (st_accept 7); [done|done|apply not_elem_of_empty]].
  eapply reaches_one; [exact H|]. split; [done|by apply st_listen].
Qed.

Lemma with_client_reachable : reachable with_client.
Proof. exists false, false. by apply with_client_reaches. Qed.

Lemma late_client_reaches : reaches (fun x => x <> Timer) (started false false) late_client.
Proof.
  apply (reaches_trans _ _ (accept 8 left_client)).
  - eapply (reaches_step _ _ Broker_ left_client); [|done|split; [by vm_compute|]; apply (st_accept 8); [reflexivity|reflexivity|]].
    + eapply (reaches_step _ _ Broker_ (conn_left 7 with_client)); [|done|split; [by vm_compute|]; apply (st_done 7)].
      * eapply (reaches_step _ _ (Client 7)); [by apply with_client_reaches|done|split; [by vm_compute|]; apply (st_hangup 7)].
        apply (bool_decide_unpack _). vm_compute. exact I.
      * apply (bool_decide_unpack _). vm_compute. exact I.
    + apply (bool_decide_unpack _). vm_compute. exact I.
  - apply (reaches_trans _ _ in_drain).
    + eapply (reaches_step _ _ Broker_ (iter_main 5 (accept 8 left_client))); [by apply (iter_main_reaches _ 5)|done|split; [by vm_compute|]]. by apply st_drain.
    + eapply reaches_trans; [by apply (iter_main_reaches _ 10)|by apply iter_accept_reaches].
Qed.

Lemma log_closed_last_witness :
  log_open late_client = false /\ conns late_client = {[8%nat]} /\
  connCount late_client = 1 /\ (size (accepted late_client) <= 1)%nat /\
  (http_conns late_client = ∅ /\ rpcs late_client = ∅) /\ stopped (wfPoller late_client) = true.
Proof.
  destruct (log_closed_last (fun x => x <> Timer) false false late_client late_client_reaches) as [H1 H2].
  destruct H2 as (_ & _ & _ & _ & _ & Hw & Hacc & _ & Hq); [reflexivity|].
  split; [reflexivity|]. split; [vm_compute; reflexivity|]. split; [by destruct (H1 eq_refl)|].
  split; [exact (Hacc eq_refl)|]. split; [apply Hq; intros Hn; by apply Hn|exact Hw].
Defined.

Lemma open_connection_blocks_shutdown_witness :
  7%nat ∈ conns with_client /\ rank (at_ with_client) <= rank TcpWait /\ log_open with_client = true.
Proof.
  apply (open_connection_blocks_shutdown with_client with_client 7);
    [apply with_client_reachable|apply (bool_decide_unpack _); vm_compute; exact I|vm_compute; discriminate|apply reaches_refl].
Defined.

Lemma shutdown_can_complete_witness :
  exists p', reaches (fun _ => True) with_client p' /\ at_ p' = Exited /\ log_open p' = false.
Proof. apply (shutdown_can_complete with_client). apply with_client_reachable. Defined.

Lemma late_connection_meets_closed_log_witness :
  exists p', reaches (fun _ => True) with_client p' /\ log_open p' = false /\ 9%nat ∈ conns p'.
Proof.
  apply (late_connection_meets_closed_log with_client 9);
    [apply with_client_reachable|vm_compute; discriminate|reflexivity|reflexivity|].
  apply (bool_decide_unpack _). vm_compute. exact I.
Defined.

End Shutdown.
