(* ===== verification/Launch.v ===== *)
(** * Starting the broker (cmd/broker/main.go)

    [Module Main]: [main] up to the servers, as a function from the flags and from what the
    environment answers (files, listeners, the exporter, the cluster's libraries) to the
    first fatal error or to the node with its parts wired together: the broker rebuilt from
    the log, the log opened behind it, the consumer offsets, the reported Raft state, the
    limiter, the control plane, the workflow runtime and the process of [Lifecycle].

    The theorems: a start succeeds exactly when each step does; and over any number of
    generations (start, serve requests one at a time, shut down cleanly, start again) every
    partition holds what it held before the restart. *)

From S2P Require Import Prelude GoLib GoFloat GoJson Broker WalFormat WalLog Consumer Server RateLimit Trace Telemetry.
From S2P Require Import WfState WfStore WfCoord EventPoller ControlPlane ClusterConfig ClusterStart BrokerMain Lifecycle.
Import Json Float.

Module Main.
Local Open Scope string_scope.
Local Open Scope Z_scope.
Local Open Scope list_scope.

(** ** wal.ParseSyncMode *)

(** [strings.ToLower] as far as it can make an ASCII letter: the capital letters, and the
    two other runes whose lower case is one, U+0130 and U+212A.  What it makes of the others
    stays outside ASCII and is no part of a mode's name. *)
Fixpoint to_lower (s : bytes) : bytes :=
  match s with
  | [] => []
  | b :: r =>
      if in_range 65 90 b then ch (byte_val b + 32) :: to_lower r
      else
        match r with
        | c :: r2 =>
            if isc 196 b && isc 176 c then ch 105 :: to_lower r2
            else
              match r2 with
              | d :: r3 => if isc 226 b && isc 132 c && isc 170 d then ch 107 :: to_lower r3 else b :: to_lower r
              | [] => b :: to_lower r
              end
        | [] => [b]
        end
  end.

Definition ParseSyncMode (v : string) : option WalCommit.SyncMode :=
  let mode := str_of (to_lower (bs_of (TrimSpace v))) in
  if String.eqb mode "" then Some WalCommit.SyncNone
  else if String.eqb mode "none" then Some WalCommit.SyncNone
  else if String.eqb mode "always" then Some WalCommit.SyncAlways
  else if String.eqb mode "interval" then Some WalCommit.SyncInterval
  else None.

(** ** The flags

    Those that decide what is started and how; the paths of files and the addresses of the
    listeners only name what the environment answers for, and the admin token is the
    argument of its HTTP handler. *)

Record flags := mkFlags {
  grpcAddr : string; walSyncMode : string; walSyncInterval : Z; walAllowPartialTail : bool;
  nodeID : string; raftRole : string; raftLeader : string; raftTerm : Z;
  clusterEnabled : bool; clusterPeers : string; clusterRaftBind : string; clusterGossipBind : string; clusterRaftDir : string;
  clusterAdvClientAddr : string; clusterShardWALDir : string;
  agentRateLimit : float64; agentRateBurst : float64;
  controlPlane : bool; cpAgentTTL : Z; cpEscalationAgent : string;
  workflowEnabled : bool; wfMaxAttempts : Z; wfLeaseTTL : Z; wfRetainTerminal : Z
}.

(** What the flags are without arguments. *)
Definition default_flags : flags :=
  mkFlags ":9095" "none" 250000000 true "node-1" "standalone" "" 1
    false "" "127.0.0.1:7001" "127.0.0.1:8001" "data/raft" "" "data/shardwal" (Fin 0) (Fin 0)
    true (30 * 10 ^ 9) "" true Coordination.DefaultMaxAttempts Coordination.DefaultLeaseTTL 200000.

(** ** The environment: what the calls of [main] that can fail answer *)

Record environment := mkEnv {
  data_dir_ok : bool; wal_file : Wal.wal_file; wal_open_err : option Z; offsets_file : Offsets.offsets_file;
  otlp_endpoint : string; exporter_err : option Z; resource_err : option Z;
  cluster_io : Boot.start_io; grpc_listen_ok : bool; now : Z
}.

Inductive fatal :=
| FatalDataDir | FatalReplay (e : Wal.wal_err) | Panicked | FatalSyncMode | FatalOpenWal (code : Z) | FatalOffsets
| FatalTracing (code : Z) | FatalPeers (e : Config.config_err) | FatalCluster (e : Boot.start_err) | FatalListen.

(** ** The node *)

Record node := mkNode {
  server : @Gateway.Server WalCommit.Log; raft_state : Process.raftRuntimeState; tracing : Spans.tracing;
  cluster : option (Config.Config * list Boot.resource); limiter : option Limit.Limiter;
  cp : option (Control.ControlPlane * Poll.Poller);
  wf : option (Coordination.Coordinator * Executions.Store * Poll.Poller);
  process : Shutdown.process
}.

(** The bytes behind which the log is opened, and the records they hold. *)
Definition contents_of (f : Wal.wal_file) : bytes := match f with Wal.Contents b => b | _ => [] end.

Definition records_of (opts : Wal.ReplayOptions) (f : Wal.wal_file) : list Wal.WalRecord :=
  match Wal.ReplayWithOptions f opts Wal.collect [] with Some (recs, _) => recs | None => [] end.

Definition start_cluster (f : flags) (e : environment) : result fatal (option (Config.Config * list Boot.resource)) :=
  if clusterEnabled f then
    match Config.ParsePeers (clusterPeers f) with
    | Err err => Err (FatalPeers err)
    | Ok peers =>
        let cfg := Config.mkConfig (nodeID f) (clusterRaftBind f) (clusterGossipBind f) (clusterRaftDir f) (clusterShardWALDir f)
                     (Process.client_addr (clusterAdvClientAddr f) (grpcAddr f)) peers in
        match Boot.Start cfg (cluster_io e) with
        | (Err err, _) => Err (FatalCluster err)
        | (Ok _, open) => Ok (Some (cfg, open))
        end
    end
  else Ok None.

(** controlplane/poller.go: [NewPoller] and [drainOnce], which are those of the workflow
    package with another batch and consumer. *)
Definition control_poller : Bus.Broker -> Poll.Poller * Bus.Broker := Poll.NewPoller Poll.control_batch "agent-events".

Definition control_drainOnce (clock : nat -> Z) : Bus.Broker -> Poll.Poller -> option Control.ControlPlane ->
    option (Bus.Broker * Poll.Poller * option Control.ControlPlane * Z) :=
  Poll.drainOnce (fun ev cp => cp ← cp; Control.Ingest clock ev cp).

Definition start_control (f : flags) (b : Bus.Broker) : option (Control.ControlPlane * Poll.Poller) * Bus.Broker :=
  if controlPlane f then
    let '(p, b) := control_poller b in
    (Some (Control.New (cpAgentTTL f) Control.defaultInboxSize (cpEscalationAgent f), p), b)
  else (None, b).

(** [WithTerminalRetention] keeps the default, 0, for a value that is not positive. *)
Definition start_workflow (f : flags) (b : Bus.Broker) : option (Coordination.Coordinator * Executions.Store * Poll.Poller) * Bus.Broker :=
  if workflowEnabled f then
    let '(p, b) := Poll.NewPoller Poll.workflow_batch Workflow.Topic b in
    let store := if 0 <? wfRetainTerminal f then {| Executions.NewStore with Executions.retainTerminal := wfRetainTerminal f |} else Executions.NewStore in
    (Some (Coordination.NewCoordinator (wfMaxAttempts f) (wfLeaseTTL f), store, p), b)
  else (None, b).

Definition main (f : flags) (e : environment) : result fatal node :=
  if negb (data_dir_ok e) then Err FatalDataDir
  else
    let opts := Wal.mkReplayOptions (walAllowPartialTail f) in
    match Wal.ReplayWithOptions (wal_file e) opts (Gateway.restore (now e)) (Some Bus.New) with
    | Some (None, _) | None => Err Panicked
    | Some (Some _, Some err) => Err (FatalReplay err)
    | Some (Some b, None) =>
        match ParseSyncMode (walSyncMode f) with
        | None => Err FatalSyncMode
        | Some mode =>
            match wal_open_err e with
            | Some code => Err (FatalOpenWal code)
            | None =>
                let log := WalCommit.OpenWithOptions mode (walSyncInterval f) (now e) (contents_of (wal_file e)) (records_of opts (wal_file e)) in
                match Offsets.NewManagerWithPath (offsets_file e) (now e) with
                | None => Err FatalOffsets
                | Some groups =>
                    match Spans.SetupTracing (otlp_endpoint e) (exporter_err e) (resource_err e) "goqueue-broker" with
                    | Err code => Err (FatalTracing code)
                    | Ok tr =>
                        match start_cluster f e with
                        | Err err => Err err
                        | Ok cl =>
                            if negb (grpc_listen_ok e) then Err FatalListen
                            else
                              let '(cp, b) := start_control f b in
                              let '(wf, b) := start_workflow f b in
                              Ok (mkNode (Gateway.mkServer b (Some log) groups)
                                    (Process.initial_state (nodeID f) (raftRole f) (raftLeader f) (raftTerm f)) tr cl
                                    (Process.agent_limiter (agentRateLimit f) (agentRateBurst f)) cp wf
                                    (Shutdown.started (controlPlane f) (workflowEnabled f)))
                        end
                    end
                end
            end
        end
    end.

(** ** What a start gives *)

(** The steps other than the replay, each of which is fatal when it fails. *)
Definition steps_fine (f : flags) (e : environment) : Prop :=
  data_dir_ok e = true /\ ParseSyncMode (walSyncMode f) <> None /\ wal_open_err e = None /\
  Offsets.NewManagerWithPath (offsets_file e) (now e) <> None /\
  (exists tr, Spans.SetupTracing (otlp_endpoint e) (exporter_err e) (resource_err e) "goqueue-broker" = Ok tr) /\
  (exists cl, start_cluster f e = Ok cl) /\ grpc_listen_ok e = true.

(** A file with the bytes of these records. *)
Definition file_holds (file : Wal.wal_file) (l : list Wal.WalRecord) : Prop :=
  Forall Wal.record_ok l /\ Forall Gateway.in_three l /\
  match file with
  | Wal.Missing => l = []
  | Wal.Unreadable _ => False
  | Wal.Contents b => b = concat (map Wal.record_bytes l)
  end.

Lemma collect_records l : forall acc, Wal.run_callback Wal.collect l acc = (acc ++ l, None).
Proof.
  induction l as [|r l IH]; intros acc; cbn; [by rewrite app_nil_r|]. rewrite IH. by rewrite <- app_assoc.
Qed.

Lemma replay_wal_file {S} file l opts (fn : S -> Wal.WalRecord -> S * option Z) s s' :
  file_holds file l -> Wal.run_callback fn l s = (s', None) -> Wal.ReplayWithOptions file opts fn s = Some (s', None).
Proof.
  intros (Hok & _ & Hf) Hrun. destruct file as [| |b]; cbn in *; [|done|].
  - subst l. by simplify_eq/=.
  - subst b. rewrite <- (app_nil_r (concat _)). by eapply Wal.replay_records_tail.
Qed.

Lemma records_of_file file l opts : file_holds file l -> records_of opts file = l /\ contents_of file = concat (map Wal.record_bytes l).
Proof.
  intros H. unfold records_of. rewrite (replay_wal_file file l opts Wal.collect [] l H (collect_records l [])). split; [done|].
  destruct H as (_ & _ & H). destruct file; cbn in *; by subst.
Qed.

#[local] Existing Instance WalCommit.wal_log_sink.

(** A start on such a file succeeds when the other steps do; its broker holds the records and
    its log is opened behind them. *)
Lemma main_starts f e l : file_holds (wal_file e) l -> zlen l < 2 ^ 62 -> steps_fine f e ->
  exists n, main f e = Ok n /\ Gateway.srv_inv (zlen l) l (server n).
Proof.
  intros Hf Hl (Hd & Hm & Hw & Hg & (tr & Ht) & (cl & Hc) & Hn). pose proof Hf as (Hok & H3 & _).
  destruct (Gateway.restore_records (now e) l 0 [] Bus.New Gateway.holds_new) as (b & Hrun & Hb); [lia|lia|done|].
  rewrite Z.add_0_l, app_nil_l in Hb. unfold main. rewrite Hd. cbn [negb].
  rewrite (replay_wal_file _ _ _ _ _ _ Hf Hrun).
  destruct (ParseSyncMode (walSyncMode f)) as [mode|]; [|done]. rewrite Hw.
  destruct (Offsets.NewManagerWithPath _ _) as [groups|]; [|done]. rewrite Ht, Hc, Hn. cbn [negb].
  destruct (records_of_file _ _ (Wal.mkReplayOptions (walAllowPartialTail f)) Hf) as [-> ->].
  unfold start_control, start_workflow, control_poller, Poll.NewPoller. destruct (controlPlane f), (workflowEnabled f); eexists; (split; [reflexivity|]);
    (split; cbn [server Gateway.bus Gateway.wal]; [repeat (apply Gateway.ensure_holds; [|lia]); exact Hb|lia|]);
    (eexists; split; [reflexivity|]; split; [exact (WalCommit.idle_open mode _ _ l Hok)|split; [exact H3|by left]]).
Qed.

(** ** Generations *)

(** The files that starting, serving and shutting down cleanly leave, any number of times. *)
Inductive clean : Wal.wal_file -> Prop :=
| clean_missing : clean Wal.Missing
| clean_generation f e n rs srv w out d e1 e2 w' :
    clean (wal_file e) -> zlen (contents_of (wal_file e)) + Gateway.weights rs < 2 ^ 62 - 2 -> Forall (fun r => Gateway.clocks_ok r.1) rs ->
    steps_fine f e -> main f e = Ok n -> Gateway.handle_all rs (server n) = Some srv -> Gateway.wal srv = Some w ->
    WalCommit.fatal w = false -> WalCommit.Close w out d e1 e2 = (w', None) ->
    clean (Wal.Contents (WalCommit.file w')).

Lemma records_fit file l : file_holds file l -> zlen l <= zlen (contents_of file).
Proof. intros H. destruct (records_of_file _ _ Wal.DefaultReplayOptions H) as [_ ->]. pose proof (Wal.length_concat_records l). lia. Qed.

(** A generation: what the broker holds at its end is what its file holds. *)
Lemma generation_file f e l n rs srv w out d e1 e2 w' :
  file_holds (wal_file e) l -> zlen (contents_of (wal_file e)) + Gateway.weights rs < 2 ^ 62 - 2 ->
  Forall (fun r => Gateway.clocks_ok r.1) rs -> steps_fine f e -> main f e = Ok n -> Gateway.handle_all rs (server n) = Some srv ->
  Gateway.wal srv = Some w -> WalCommit.fatal w = false -> WalCommit.Close w out d e1 e2 = (w', None) ->
  exists l', file_holds (Wal.Contents (WalCommit.file w')) (l ++ l') /\ zlen (l ++ l') < 2 ^ 62 /\
    Gateway.holds (zlen l + Gateway.weights rs) (l ++ l') (Gateway.bus srv).
Proof.
  intros Hf Hlt HF Hs HM HH Hw Hnf HC. pose proof (records_fit _ _ Hf).
  assert (0 <= Gateway.weights rs) as Hwt.
  { clear. unfold Gateway.weights. induction rs as [|r rs IH]; cbn; [lia|]. pose proof (Gateway.weight_pos r.2). lia. }
  destruct (main_starts f e l Hf ltac:(lia) Hs) as (n' & HM' & HI). rewrite HM in HM'. simplify_eq.
  destruct (Gateway.handle_all_serves rs (zlen l) (server n') srv ltac:(lia) ltac:(lia) HF HH l HI) as (l' & [Hb Hcount (w1 & Ew & Hok & H3 & Hlog)]).
  rewrite Ew in Hw. injection Hw as ->. assert (WalCommit.log w = l ++ l') as El.
  { destruct Hlog as [E|[Hd _]]; [exact E|]. cbn in Hd. congruence. }
  exists l'. cbn in H3. rewrite El in H3. split; [|split; [lia|exact Hb]]. split_and!.
  - rewrite <- El. exact (WalCommit.idle_records w Hok).
  - exact H3.
  - pose proof Hok as [HInv _]. rewrite <- El. exact (WalCommit.Close_file _ _ _ _ _ _ (WalCommit.inv_buffers _ HInv) HC).
Qed.

Lemma clean_holds file : clean file -> exists l, file_holds file l.
Proof.
  induction 1 as [|f e n rs srv w out d e1 e2 w' _ (l & Hl) Hlt HF Hs HM HH Hw Hnf HC]; [by exists []|].
  destruct (generation_file f e l n rs srv w out d e1 e2 w') as (l' & Hf & _); eauto.
Qed.

(** C11. Restarts over any number of generations.  In each generation a broker comes up on the
    log that the generations before it left and serves any TCP frames, gRPC publishes and
    fetches, workflow envelopes and agent events, one at a time and without a panic; its log
    does not fail and is closed without an error.  Requests that overlap in time and
    publishes over HTTP are outside: those can put the log and the partitions in different
    orders, or a message in one and not the other.  The log has fewer than 2^62 bytes and
    records.  Then the broker comes up again from the file it left, whatever the flags,
    provided each step other than the replay succeeds; and every partition of every topic
    holds the payloads it held at the shutdown, in the same order and so at the same
    offsets. *)
Theorem generations_preserve f e n rs srv w out d e1 e2 w' f' e' :
  clean (wal_file e) -> zlen (contents_of (wal_file e)) + Gateway.weights rs < 2 ^ 62 - 2 ->
  Forall (fun r => Gateway.clocks_ok r.1) rs -> steps_fine f e -> main f e = Ok n ->
  Gateway.handle_all rs (server n) = Some srv -> Gateway.wal srv = Some w -> WalCommit.fatal w = false ->
  WalCommit.Close w out d e1 e2 = (w', None) ->
  wal_file e' = Wal.Contents (WalCommit.file w') -> steps_fine f' e' ->
  exists n' k k' a a', main f' e' = Ok n' /\ Bus.rel k a (Gateway.bus srv) /\ Bus.rel k' a' (Gateway.bus (server n')) /\
    forall t p, Gateway.plog a' t p = Gateway.plog a t p.
Proof.
  intros Hc Hlt HF Hs HM HH Hw Hnf HC He' Hs'. destruct (clean_holds _ Hc) as (l & Hl).
  destruct (generation_file f e l n rs srv w out d e1 e2 w') as (l' & Hf & Hlen & (a & HR & _ & HP)); [done..|].
  destruct (main_starts f' e' (l ++ l')) as (n' & HM' & [(a' & HR' & _ & HP') _ _]); [by rewrite He'|done|done|].
  exists n', (zlen l + Gateway.weights rs), (zlen (l ++ l')), a, a'. split_and!; [done..|]. intros t p. by rewrite HP', HP.
Qed.

Lemma main_parts f e n : main f e = Ok n ->
  process n = Shutdown.started (controlPlane f) (workflowEnabled f) /\ exists b, wf n = (start_workflow f b).1.
Proof.
  unfold main. destruct (negb _); [done|]. destruct (Wal.ReplayWithOptions _ _ _ _) as [[[b|] [err|]]|]; try done.
  destruct (ParseSyncMode _); [|done]. destruct (wal_open_err e); [done|]. destruct (Offsets.NewManagerWithPath _ _); [|done].
  destruct (Spans.SetupTracing _ _ _ _); [|done]. destruct (start_cluster f e); [|done]. destruct (negb _); [done|].
  destruct (start_control f b) as [c b1]. destruct (start_workflow f b1) as [x b2] eqn:Ew. intros [= <-]. split; [done|].
  exists b1. by rewrite Ew.
Qed.

(** A node is ready when it starts, with the workflow index empty whatever the log holds: the
    poller fills it later. *)
Lemma ready_with_empty_index f e n : main f e = Ok n ->
  Shutdown.ready (process n) = true /\
  match wf n with
  | Some (_, store, p) => Executions.execs store = ∅ /\ Forall (fun c => c = 0) (Poll.cursors p)
  | None => workflowEnabled f = false
  end.
Proof.
  intros H. destruct (main_parts f e n H) as [-> (b & ->)]. split; [done|]. unfold start_workflow.
  destruct (workflowEnabled f); [|done]. unfold Poll.NewPoller. cbn [fst]. split; [by destruct (0 <? _)|]. by apply Forall_replicate.
Qed.

(** *** Two generations and a third start *)

Definition quiet_io : Boot.start_io :=
  Boot.mkStartIO true (Boot.mkMetaIO true true true true true true true false) true (Boot.mkDownIO true true true true).

Definition env_on (file : Wal.wal_file) : environment :=
  mkEnv true file None Offsets.NoFile "" None None quiet_io true 5.

Definition publish_at (t : Z) (payload : bytes) : (nat -> @Gateway.clock WalCommit.wal_io) * Gateway.request :=
  (Gateway.at_time Gateway.io_fine t, Gateway.ReqPublish "orders" "k" (-1) payload).

Definition generation (file : Wal.wal_file) (rs : list ((nat -> @Gateway.clock WalCommit.wal_io) * Gateway.request)) :
    option (node * @Gateway.Server WalCommit.Log * WalCommit.Log * WalCommit.Log) :=
  match main default_flags (env_on file) with
  | Err _ => None
  | Ok n => srv ← Gateway.handle_all rs (server n); w ← Gateway.wal srv; Some (n, srv, w, (WalCommit.Close w WalCommit.WriteAll [] None None).1)
  end.

Definition first_requests := [publish_at 6 [Byte.x01]; publish_at 7 [Byte.x02]].
Definition second_requests := [publish_at 8 [Byte.x03]].

(** The file the first generation leaves. *)
Definition second_file : Wal.wal_file :=
  match generation Wal.Missing first_requests with Some (_, _, _, w') => Wal.Contents (WalCommit.file w') | None => Wal.Missing end.

Lemma generation_spec file rs : generation file rs <> None ->
  exists n srv w, generation file rs = Some (n, srv, w, (WalCommit.Close w WalCommit.WriteAll [] None None).1) /\
    main default_flags (env_on file) = Ok n /\ Gateway.handle_all rs (server n) = Some srv /\ Gateway.wal srv = Some w.
Proof.
  unfold generation. destruct (main _ _) as [n|]; [|done]. destruct (Gateway.handle_all rs (server n)) as [srv|] eqn:Eh; [|done].
  cbn [mbind option_bind]. destruct (Gateway.wal srv) as [w|] eqn:Ew; [|done]. cbn [mbind option_bind]. intros _. by exists n, srv, w.
Qed.

Definition fine (file : Wal.wal_file) (rs : list ((nat -> @Gateway.clock WalCommit.wal_io) * Gateway.request)) : bool :=
  match generation file rs with
  | Some (_, _, w, _) => negb (WalCommit.fatal w) && bool_decide ((WalCommit.Close w WalCommit.WriteAll [] None None).2 = None)
  | None => false
  end.

Lemma fine_generation file rs : fine file rs = true ->
  exists n srv w w', generation file rs = Some (n, srv, w, w') /\ main default_flags (env_on file) = Ok n /\
    Gateway.handle_all rs (server n) = Some srv /\ Gateway.wal srv = Some w /\ WalCommit.fatal w = false /\
    WalCommit.Close w WalCommit.WriteAll [] None None = (w', None).
Proof.
  intros H. destruct (generation_spec file rs) as (n & srv & w & E & Hm & Hh & Hw); [intros E; unfold fine in H; by rewrite E in H|].
  unfold fine in H. rewrite E in H. apply andb_true_iff in H as [H1%negb_true_iff H2%bool_decide_eq_true].
  exists n, srv, w, (WalCommit.Close w WalCommit.WriteAll [] None None).1. split_and!; try done.
  destruct (WalCommit.Close w WalCommit.WriteAll [] None None) as [w' r]. cbn in *. by subst.
Qed.

Lemma env_fine file : steps_fine default_flags (env_on file).
Proof. split_and!; try done; by eexists. Qed.

Lemma requests_fine : Forall (fun r => Gateway.clocks_ok r.1) first_requests /\ Forall (fun r => Gateway.clocks_ok r.1) second_requests.
Proof. split; repeat (apply Forall_cons_2; [intros i; cbn; done|]); apply Forall_nil_2. Qed.

Lemma second_clean : clean second_file.
Proof.
  destruct (fine_generation Wal.Missing first_requests) as (n & srv & w & w' & E & Hm & Hh & Hw & Hf & HC); [vm_compute; reflexivity|].
  unfold second_file. rewrite E.
  exact (clean_generation default_flags (env_on Wal.Missing) n first_requests srv w _ _ _ _ w' clean_missing ltac:(vm_compute; reflexivity)
    (proj1 requests_fine) (env_fine _) Hm Hh Hw Hf HC).
Qed.

Lemma generations_preserve_witness :
  exists n srv w w' n' k k' a a', generation second_file second_requests = Some (n, srv, w, w') /\
    main default_flags (env_on (Wal.Contents (WalCommit.file w'))) = Ok n' /\ Bus.rel k a (Gateway.bus srv) /\
    Bus.rel k' a' (Gateway.bus (server n')) /\ forall t p, Gateway.plog a' t p = Gateway.plog a t p.
Proof.
  destruct (fine_generation second_file second_requests) as (n & srv & w & w' & E & Hm & Hh & Hw & Hf & HC); [vm_compute; reflexivity|].
  exists n, srv, w, w'.
  destruct (generations_preserve default_flags (env_on second_file) n second_requests srv w WalCommit.WriteAll [] None None w'
    default_flags (env_on (Wal.Contents (WalCommit.file w'))) second_clean ltac:(vm_compute; reflexivity) (proj2 requests_fine)
    (env_fine _) Hm Hh Hw Hf HC eq_refl (env_fine _)) as (n' & k & k' & a & a' & H).
  exists n', k, k', a, a'. split; [exact E|exact H].
Defined.
End Main.
