(* ===== verification/Sampler.v ===== *)
(** * The load test's sampler (load/metricsampler/main.go)

    [Module Sampling] models what the sampler computes from the scrapes of a run: the rate
    between scrapes, the executions in flight and their peak, and the highest average rate
    over a window.  The theorems say which windows [peakWindow] looks at. *)

From S2P Require Import Prelude GoFloat GoTime RateLimit.
Import Float.

Module Sampling.
Local Open Scope Z_scope.

Record sample := mkSample {
  at_ : Z; eventsTot : float64; pending : float64; running : float64; retrying : float64; completed : float64; failed : float64
}.

Definition zero : float64 := Fin 0.

Definition rate_between (a b : sample) : float64 := div (sub (eventsTot b) (eventsTot a)) (Limit.Seconds (Limit.Sub (at_ b) (at_ a))).

(** The rate of a scrape: since the one before it, zero for the first. *)
Definition rate_of (samples : list sample) (s : sample) : float64 :=
  match list.last samples with Some prev => rate_between prev s | None => zero end.

Definition inflight (s : sample) : float64 := add (add (pending s) (running s)) (retrying s).

Definition peak_inflight (peak : float64) (s : sample) : float64 := if ltb peak (inflight s) then inflight s else peak.

(** The inner loop from sample [a]: the first later sample at least [d] away is compared,
    and the loop is left. *)
Fixpoint window_from (d : Z) (a : sample) (later : list sample) (best : float64) : float64 :=
  match later with
  | [] => best
  | b :: later =>
      if Limit.Sub (at_ b) (at_ a) <? d then window_from d a later best
      else let rate := rate_between a b in if ltb best rate then rate else best
  end.

Fixpoint peak_loop (d : Z) (samples : list sample) (best : float64) : float64 :=
  match samples with
  | [] => best
  | a :: later => peak_loop d later (window_from d a later best)
  end.

Definition peakWindow (samples : list sample) (d : Z) : float64 := peak_loop d samples zero.

(** [b] comes after [a] in the samples, at least [d] later. *)
Definition window (d : Z) (samples : list sample) (a b : sample) : Prop :=
  exists i j, (i < j)%nat /\ samples !! i = Some a /\ samples !! j = Some b /\ d <= Limit.Sub (at_ b) (at_ a).

Lemma window_from_spec d a later best :
  window_from d a later best = best \/
  exists j b, later !! j = Some b /\ d <= Limit.Sub (at_ b) (at_ a) /\ window_from d a later best = rate_between a b.
Proof.
  induction later as [|b later IH]; cbn [window_from]; [by left|]. destruct (Z.ltb_spec (Limit.Sub (at_ b) (at_ a)) d).
  - destruct IH as [?|(j & b' & Hj & H1 & H2)]; [by left|]. right. by exists (S j), b'.
  - destruct (ltb best (rate_between a b)); [|by left]. right. by exists 0%nat, b.
Qed.

Lemma window_tail d a samples x y : window d samples x y -> window d (a :: samples) x y.
Proof. intros (i & j & Hij & Hi & Hj & Hd). exists (S i), (S j). split_and!; [lia|done..]. Qed.

(** What is reported is the average rate of one of the windows of at least [d], or zero. *)
Theorem peak_is_a_window samples d :
  peakWindow samples d = zero \/ exists a b, window d samples a b /\ peakWindow samples d = rate_between a b.
Proof.
  unfold peakWindow. assert (forall best, peak_loop d samples best = best \/
    exists a b, window d samples a b /\ peak_loop d samples best = rate_between a b) as H; [|apply H].
  induction samples as [|a later IH]; intros best; cbn [peak_loop]; [by left|].
  destruct (IH (window_from d a later best)) as [E|(x & y & Hw & E)].
  - rewrite E. destruct (window_from_spec d a later best) as [->|(j & b & Hj & Hd & ->)]; [by left|]. right. exists a, b.
    split; [|done]. exists 0%nat, (S j). split_and!; [lia|done..].
  - right. exists x, y. split; [by apply window_tail|done].
Qed.

(** Three scrapes: nothing for ten seconds, then a thousand events in one. *)
Definition burst : list sample :=
  map (fun x => mkSample (x.1 * Time.second) (of_int x.2) zero zero zero zero zero) [(0, 0); (10, 0); (11, 1000)].

(** It is not the highest one: the loop leaves a start at the first window that is long
    enough, and a longer one can have a higher rate.  Here ten seconds without events are
    followed by a second with a thousand; the window of eleven seconds has some ninety
    events a second, and the peak is reported as zero. *)
Theorem peak_window_missed :
  peakWindow burst (10 * Time.second) = zero /\
  exists a b, window (10 * Time.second) burst a b /\ ltb (of_int 90) (rate_between a b) = true.
Proof.
  split; [vm_compute; reflexivity|].
  exists (mkSample 0 (of_int 0) zero zero zero zero zero), (mkSample (11 * Time.second) (of_int 1000) zero zero zero zero zero).
  split; [|vm_compute; reflexivity]. exists 0%nat, 2%nat. split; [lia|]. split; [reflexivity|]. split; [reflexivity|]. vm_compute. discriminate.
Qed.

End Sampling.
